(* ===== verification/_CoqProject ===== *)
-Q . S2P
Prelude.v
Ledger.v
Consensus.v
GoJson.v
Json.v
GoDecode.v
Sha256.v
Model.v
Replay.v
Policy.v
PathCheck.v
Scion.v
Bolt.v
ReceiptStore.v
Receipt.v
Codecs.v
Config.v
ScionTransport.v
Validator.v
AuditTrail.v
AuditQueue.v
Violation.v
Node.v
Network.v
Api.v
Http.v
Service.v
Interleaving.v
ServiceAudit.v
Startup.v
Cli.v
Replies.v
DemoProgram.v
Metrics.v
