(* ===== verification/Prelude.v ===== *)
(** * JurisPath: a verification development

    JurisPath is an oracle that decides whether the network path of a payment
    complies with a jurisdiction policy (a set of SCION isolation domains, ISDs),
    signs a hash-chained receipt for each compliant path, and settles payments
    between validators on a small ledger.  This library models the Go code of
    the repository (under [src/]) and proves what makes it correct.

    ** Parts and files

    Each file models the sources named with it; definitions carry the names of
    the Go functions.  Files are listed in dependency order.

    - [Prelude]: results with errors and panics, machine integers, time, sums
      over maps, the hint database [juris] and the tactics of the development.
    - [Ledger] (internal/dlt/types.go, ledger.go): transactions live in a heap
      and are shared by pointer between the pending pool, the confirmed map and
      the history, as in the code.
    - [Consensus] (internal/dlt/consensus.go): the in-process engine; [Bank] is
      its abstract specification.
    - [GoJson], [Sha256]: the parts of encoding/json, base64, hex, time
      formatting and SHA-256 that signing payloads and digests use, executable.
    - [Json], [GoDecode]: the scanner of encoding/json and the storing of decoded
      values into Go types; printing and parsing are inverse.
    - [Model] (pkg/model): paths, receipts, proofs; Ed25519 as a class
      [Ed25519] with laws [Ed25519Laws], inhabited by [Toy].
    - [Replay] (internal/security/replay.go), [Policy] (internal/policy),
      [PathCheck] (internal/pathcheck).
    - [Scion] (internal/scion): extractors, fingerprints, path building,
      filtering and TRC proofs over classes for the SCION libraries.
    - [Bolt] (internal/boltutil): bbolt as a class of buckets with laws, with
      transaction faults; [MapBolt] inhabits it.
    - [ReceiptStore] (internal/receipt/store.go): the interface [Store] with its
      laws [StoreLaws], and the memory and bbolt stores as instances.
    - [Receipt] (internal/receipt/receipt.go): payloads, signing, verification,
      the chain state of the generator, key files and rotation.
    - [Codecs] (pkg/model, internal/dlt/types.go, internal/scion/mock.go): the
      JSON encoders and decoders of receipts, transactions and messages; they
      discharge the interface [Codec] of the stores and transports.
    - [Config] (config/config.go): environment, validation, validators file.
    - [ScionTransport] (internal/dlt/transport_scion.go, internal/scion/conn.go):
      messages over SCION, and the goroutines that share its mutex.
    - [Validator] (internal/security/threshold.go, validator.go).
    - [AuditTrail] (internal/audit/log.go), [AuditQueue] (the audit channel of
      internal/api/server.go and its writer), [Violation] (internal/violation).
    - [Node] (internal/dlt/node.go, transport_local.go): the handlers of a
      validator and the local transport; [Network]: its message loop, and
      settlement by a whole network of nodes.
    - [Api] (internal/api/server.go): the handlers that change state, composed
      of all the above, with their audit events and the invariant [server_ok];
      [Http]: routing, headers, tokens, the reading handlers, the event stream,
      and the HTTP server with its limits.
    - [Service]: any sequence of requests to the handlers of [Api];
      [Interleaving]: settlements in goroutines of their own, the handler split
      at the mutexes it takes; [ServiceAudit]: their audit events on the queue of [AuditQueue] and in the
      log of [AuditTrail].
    - [Startup] (cmd/jurispath/main.go): the server process from its environment
      to its exit status, serving with [Service].
    - [Cli] (cmd/jurispath/cli.go): the commands; [Replies]: the bodies the
      server writes, read back by the commands of [Cli]; [DemoProgram] (cmd/demo)
      and [Metrics] (tools/pocmetrics): the demo and the measurement tool.

    ** How effects are modelled

    A method that mutates its receiver takes the state and returns the new one.
    [Ok], [Err] and [Panic] are the outcomes of a call.  Clock readings, random
    identifiers and seeds, failures of the database, of the file system and of
    random generators, and the iteration order of maps where it matters, are
    arguments, so that theorems quantify over them.  Mutexes are modelled by the
    atomicity of an operation; where the code leaves a critical section in the
    middle of an operation (the violation detector), blocks while it holds a
    lock (the SCION transport), or runs beside itself and others (the audit
    writer, the message loop of a node, the settlement handler) the steps are a
    relation or a sequence of actions, and theorems are about all their
    interleavings.  Integers wrap at their width.

    Loops are structural over the lists they range over.  Counters bound three of
    them: the number of blocks of a padded message in [Sha256], computed from its
    length; the fuel of the JSON parser, two units per octet and one more, which
    [Json] proves to be enough for every text; and the trimming of spaces in
    [Cli], which removes at most as many octets as there are.

    ** What is shown

    - Money: the ledger conserves every currency and runs each transaction
      through its life cycle ([Ledger]); the engine refines a bank that pays,
      refuses or recognises a duplicate ([Consensus]); a settlement proposed on a
      network of nodes reaches every one of them with the same balances, and a
      stopped node returns ([Node], [Network]).
    - Receipts: issuing is atomic with storing; both stores implement the same
      list; whatever an oracle issues, across rotations and restarts with a
      receipt in between, validates as a chain when what was stored can be
      decoded again, and a chain validates exactly if
      it is linked, authentic and attested ([Receipt], [ReceiptStore],
      [Validator]).
    - Compliance: the checker, the batch filter and the SCION filter decide the
      same property of a path; proofs come from the TRC; policies loaded from
      disk are strict; replays are refused ([PathCheck], [Scion], [Policy],
      [Replay]).
    - The API: money moves only along compliant paths, a confirmed settlement
      gets a verified stored receipt or says that it has none, retries are
      idempotent and repair missing receipts ([Api]); no route of the API runs without
      the token, a path that is not canonical is redirected and runs no handler,
      the event stream carries exactly the violations ([Http]).
    - The service: after any sequence of requests the ledger is a bank that paid
      the confirmed settlements and nothing else, and the chain the server
      answers validates with the keys it answers ([Service]).  Under any
      interleaving of settlements the books are kept, a settlement gets one
      receipt, and every goroutine ends within a bound of its own
      ([Interleaving]).
    - The audit trail: every audit event is queued, written, counted as lost, or
      lost to the panic of a handler that audits after Close, and closing drains
      the queue ([AuditQueue]); the event of a request agrees with its answer, and
      a server that reports no audit failure, and whose handlers do not audit
      after Close, has every event in order in the queue or the log
      ([ServiceAudit]).
    - The process: a configuration is accepted exactly under its conditions, a
      server that starts is guarded, satisfies the invariant of the API and
      serves chains that validate, from a database another process left
      included ([Config], [Startup]).
    - Texts: receipts and consensus messages survive their encoding ([Codecs],
      [ScionTransport]); a settlement typed on the command line is the one the
      server reads ([Cli]), and what the command shows of a settlement and of a
      chain is what the server did and holds ([Replies]); the demo program and
      the demo command agree ([DemoProgram]); the reported percentiles are nearest
      ranks although they are computed in floating point ([Metrics]).
    - Liveness of the SCION transport: operations end when every receive has a
      deadline, and listeners without one deadlock ([ScionTransport]).
    - Deviations: the theorems named after a flaw state what the code does where
      it departs from its documentation (a race that panics, a restart that
      breaks the chain, a quorum filled by one key, and others); each has a
      concrete witness.

    Theorems that are properties of the program carry an identifier C1, C2, ...
    in their comment; those with hypotheses have a witness, named after them
    with the suffix [_witness], that applies them to a concrete run.

    ** What is assumed

    Ed25519 signatures verify under the matching key and keys have their sizes;
    a bbolt bucket is an ordered map of bounded keys and values; SCION addresses
    print injectively and parse back.  These are laws of classes, each with an
    instance.  The law of the class [Codec], that an encoded value decodes to
    itself, is proved in [Codecs] for the program's types.  The YAML decoder, the
    argument parser, the resolution of URLs, the HTTP exchange of a client, the
    SCION daemon, and the parser of times that are not in the form the program
    prints are arguments without laws.  Theorems about what is read back from the
    bbolt store say which receipts must have an encoding that decodes again
    ([st_readable]: valid UTF-8 and times in range), and theorems that exclude a
    panic ask that the proof provider and the threshold signer do not panic
    ([providers_ok]).  A read of an open SCION connection without a deadline ends
    only with a datagram.  Secrecy, unforgeability and collision resistance are
    not assumed, so no theorem says that a forger fails.

    ** What is not modelled

    The inside of net/http (connections, TLS, how it enforces the limits it is
    given), the files of the dashboard, the column layout of printed tables and
    help texts, log lines, and the texts of errors, which are arguments where a
    reply or an audit event carries them.  Requests run one after another in
    [Service] and [ServiceAudit]; [Interleaving] runs settlements beside each
    other, with the other handlers as effects on the shared state and the
    violation detector without listeners that leave.  Planned next: interleaved
    runs of all handlers with the audit queue; nodes on the SCION transport in
    [Network]. *)

From stdpp Require Export base tactics option list strings pretty gmap fin_maps sets relations sorting.
From Stdlib Require Export ZArith Lia.

#[global] Open Scope Z_scope.

(** ** Bytes

    A Go [string] and a Go [[]byte] are both sequences of octets, and the code
    converts between them freely ([string(key)], [[]byte(r.ID)]).  Both are
    modelled by [string], whose characters are octets.  Where the code
    distinguishes the nil slice from the empty one the model has
    [option bytes]. *)
Abbreviation bytes := string.
Abbreviation len s := (Z.of_nat (String.length s)).

(** ** Go results

    [Ok v] is a returned value, [Err e] a returned error, [Panic] a run-time
    panic (nil dereference, send on a closed channel, a key of a wrong length
    given to [ed25519.Verify]). *)
Inductive res (E A : Type) : Type :=
| Ok (a : A)
| Err (e : E)
| Panic.

Arguments Ok {E A} a.
Arguments Err {E A} e.
Arguments Panic {E A}.

#[export] Instance res_ret {E} : MRet (res E) := λ A a, Ok a.
#[export] Instance res_bind {E} : MBind (res E) := λ A B k m,
  match m with Ok a => k a | Err e => Err e | Panic => Panic end.

(** [fmt.Errorf("...: %w", err)]: rewrap the error of a call. *)
Definition map_err {E F A} (f : E → F) (m : res E A) : res F A :=
  match m with Ok a => Ok a | Err e => Err (f e) | Panic => Panic end.

Definition is_ok {E A} (m : res E A) : bool :=
  match m with Ok _ => true | _ => false end.

#[export] Instance res_eq_dec {E A} `{EqDecision E, EqDecision A} : EqDecision (res E A).
Proof. intros x y. unfold Decision. decide equality; by apply decide. Defined.

(** ** Machine integers

    Integers are [Z] kept in range by the wrap-around of their width. *)
Definition u64 (z : Z) : Z := z mod 2 ^ 64.
Definition u16 (z : Z) : Z := z mod 2 ^ 16.
Definition i64 (z : Z) : Z := (z + 2 ^ 63) mod 2 ^ 64 - 2 ^ 63.
Definition is_u64 (z : Z) : Prop := 0 ≤ z < 2 ^ 64.
Definition is_i64 (z : Z) : Prop := - 2 ^ 63 ≤ z < 2 ^ 63.

(** ** Time

    A [time.Time] is a number of nanoseconds from the Unix epoch, a
    [time.Duration] a signed 64-bit number of nanoseconds.  [Time.Sub]
    saturates, as its documentation says; [Time.Add], [Before] and [After] are
    exact. *)
Definition second : Z := 1000000000.
Definition max_duration : Z := 2 ^ 63 - 1.
Definition min_duration : Z := - 2 ^ 63.
Definition time_sub (a b : Z) : Z := Z.max min_duration (Z.min max_duration (a - b)).

(** The zero [time.Time]: 1 January of year 1. *)
Definition zero_time : Z := - 62135596800 * second.

(** Successive readings of the clock by one operation. *)
Abbreviation clock := (nat → Z).

(** ** Sums over a finite map *)
Definition msum {K V} `{Countable K} (f : V → Z) (m : gmap K V) : Z :=
  map_fold (λ _ v acc, f v + acc) 0 m.

(** ** Automation *)
Create HintDb juris discriminated.

(** Case analysis on the scrutinee of every [match] and [if] of a hypothesis or
    of the goal, remembering the equation. *)
Ltac case_in H :=
  repeat (match type of H with
          | context [match ?x with _ => _ end] =>
              lazymatch x with
              | context [match _ with _ => _ end] => fail
              | _ => destruct x eqn:?; try discriminate H
              end
          end; simplify_eq/=).

Ltac case_goal :=
  repeat (match goal with
          | |- context [match ?x with _ => _ end] =>
              lazymatch x with
              | context [match _ with _ => _ end] => fail
              | _ => destruct x eqn:?
              end
          end; simplify_eq/=).

(** Boolean tests on [Z] and on decidable propositions as propositions. *)
Ltac zbool :=
  repeat match goal with
  | H : (_ <? _) = true |- _ => apply Z.ltb_lt in H
  | H : (_ <? _) = false |- _ => apply Z.ltb_ge in H
  | H : (_ <=? _) = true |- _ => apply Z.leb_le in H
  | H : (_ <=? _) = false |- _ => apply Z.leb_gt in H
  | H : (_ =? _) = true |- _ => apply Z.eqb_eq in H
  | H : (_ =? _) = false |- _ => apply Z.eqb_neq in H
  | H : bool_decide _ = true |- _ => apply bool_decide_eq_true_1 in H
  | H : bool_decide _ = false |- _ => apply bool_decide_eq_false_1 in H
  | H : negb _ = true |- _ => apply negb_true_iff in H
  | H : negb _ = false |- _ => apply negb_false_iff in H
  | H : _ && _ = true |- _ => apply andb_true_iff in H as [? ?]
  | H : _ || _ = false |- _ => apply orb_false_iff in H as [? ?]
  end.

(** ** Lemmas on results *)
Lemma bind_Ok {E A B} (m : res E A) (k : A → res E B) b :
  m ≫= k = Ok b ↔ ∃ a, m = Ok a ∧ k a = Ok b.
Proof. destruct m; naive_solver. Qed.

Lemma map_err_Ok {E F A} (f : E → F) (m : res E A) a :
  map_err f m = Ok a ↔ m = Ok a.
Proof. destruct m; naive_solver. Qed.

Ltac inv_ok :=
  repeat match goal with
  | H : _ ≫= _ = Ok _ |- _ =>
      let Hm := fresh "Hm" in apply bind_Ok in H as (? & Hm & H)
  | H : map_err _ _ = Ok _ |- _ => apply map_err_Ok in H
  | H : Ok _ = Ok _ |- _ => injection H as H; subst
  | H : mret _ = Ok _ |- _ => injection H as H; subst
  end.

(** ** Lemmas on integers and time *)
Lemma u64_id z : is_u64 z → u64 z = z.
Proof. unfold is_u64, u64. apply Z.mod_small. Qed.

Lemma u64_range z : is_u64 (u64 z).
Proof. apply Z.mod_pos_bound. lia. Qed.

Lemma i64_id z : is_i64 z → i64 z = z.
Proof. unfold is_i64, i64. intros ?. rewrite Z.mod_small; lia. Qed.

Lemma i64_range z : is_i64 (i64 z).
Proof.
  unfold i64, is_i64. pose proof (Z.mod_pos_bound (z + 2 ^ 63) (2 ^ 64)). lia.
Qed.

Lemma i64_cong z : (i64 z) mod 2 ^ 64 = z mod 2 ^ 64.
Proof.
  unfold i64. rewrite Zminus_mod, Z.mod_mod, <- Zminus_mod by lia. f_equal. lia.
Qed.

Lemma time_sub_exact a b :
  min_duration ≤ a - b ≤ max_duration → time_sub a b = a - b.
Proof. unfold time_sub. lia. Qed.

Lemma time_sub_gt a b w : w < max_duration → w < time_sub a b ↔ w < a - b ∧ w < max_duration ∨ w < min_duration.
Proof. unfold time_sub, max_duration, min_duration. lia. Qed.

#[export] Hint Resolve u64_range i64_range : juris.

(** ** Lemmas on sums *)
Section Sums.
Context {K V : Type} `{Countable K} (f : V → Z).
Implicit Types (m : gmap K V).

Lemma msum_empty : msum f (∅ : gmap K V) = 0.
Proof. apply map_fold_empty. Qed.

Lemma msum_insert_None m k v : m !! k = None → msum f (<[k:=v]> m) = f v + msum f m.
Proof. intros. unfold msum. apply (map_fold_insert_L (λ _ v acc, f v + acc)); [intros; lia|done]. Qed.

Lemma msum_delete m k v : m !! k = Some v → msum f m = f v + msum f (delete k m).
Proof. intros. unfold msum. apply (map_fold_delete_L (λ _ v acc, f v + acc)); [intros; lia|done]. Qed.

Lemma msum_insert_Some m k v w :
  m !! k = Some v → msum f (<[k:=w]> m) = msum f m - f v + f w.
Proof.
  intros Hk. rewrite (msum_delete m k v) by done.
  rewrite <- insert_delete_eq, msum_insert_None by apply lookup_delete_eq. lia.
Qed.

Lemma msum_ext (g : V → Z) m :
  (∀ k v, m !! k = Some v → f v = g v) → msum f m = msum g m.
Proof.
  intros Hfg. unfold msum. induction m as [|k v m Hk IH] using map_ind; [by rewrite !map_fold_empty|].
  rewrite (map_fold_insert_L (λ _ v acc, f v + acc)) by (intros; lia || done).
  rewrite (map_fold_insert_L (λ _ v acc, g v + acc)) by (intros; lia || done).
  rewrite (Hfg k v) by apply lookup_insert_eq. f_equal. apply IH.
  intros k' v' Hk'. apply (Hfg k'). rewrite lookup_insert_ne; congruence.
Qed.

Lemma msum_nonneg m : (∀ k v, m !! k = Some v → 0 ≤ f v) → 0 ≤ msum f m.
Proof.
  induction m as [|k v m Hk IH] using map_ind; intros Hnn.
  - by rewrite msum_empty.
  - rewrite msum_insert_None by done.
    pose proof (Hnn k v (lookup_insert_eq _ _ _)).
    enough (0 ≤ msum f m) by lia.
    apply IH. intros k' v' Hk'. apply (Hnn k'). rewrite lookup_insert_ne; congruence.
Qed.

Lemma msum_lookup_le m k v :
  (∀ k v, m !! k = Some v → 0 ≤ f v) → m !! k = Some v → f v ≤ msum f m.
Proof.
  intros Hnn Hk. rewrite (msum_delete m k v) by done.
  enough (0 ≤ msum f (delete k m)) by lia.
  apply msum_nonneg. intros k' v'. rewrite lookup_delete_Some. naive_solver.
Qed.

Lemma msum_le_bound m b : (∀ k v, m !! k = Some v → f v ≤ b) → msum f m ≤ Z.of_nat (size m) * b.
Proof.
  induction m as [|k v m Hk IH] using map_ind; intros Hb.
  - rewrite msum_empty, map_size_empty. lia.
  - rewrite msum_insert_None, map_size_insert_None by done.
    pose proof (Hb k v (lookup_insert_eq _ _ _)).
    enough (msum f m ≤ Z.of_nat (size m) * b) by lia.
    apply IH. intros k' v' Hk'. apply (Hb k'). rewrite lookup_insert_ne; congruence.
Qed.
End Sums.

(** One of several counters goes down. *)
Lemma sum_insert {A} (f : A → nat) (l : list A) i p q : l !! i = Some p → (f q < f p)%nat →
  (sum_list (f <$> <[i := q]> l) < sum_list (f <$> l))%nat.
Proof.
  revert i. induction l as [|x l IH]; intros [|i] Hi Hlt; simplify_eq/=; [lia|].
  specialize (IH i Hi Hlt). lia.
Qed.

(** ** The last element with a property *)
Definition last_match {A} (P : A → Prop) `{∀ x, Decision (P x)} (l : list A) : option A := last (filter P l).

Section LastMatch.
Context {A : Type} (P : A → Prop) `{∀ x, Decision (P x)}.

Lemma last_match_app l x : last_match P (l ++ [x]) = if decide (P x) then Some x else last_match P l.
Proof.
  unfold last_match. rewrite filter_app, filter_cons, filter_nil.
  case_decide; [by rewrite last_snoc|by rewrite app_nil_r].
Qed.

Lemma last_match_Some l x : last_match P l = Some x → x ∈ l ∧ P x.
Proof.
  unfold last_match. intros Hl. assert (x ∈ filter P l) as Hin.
  { apply last_Some in Hl as [l' ->]. apply elem_of_app. right. by left. }
  apply list_elem_of_filter in Hin. tauto.
Qed.

Lemma last_match_None l : last_match P l = None ↔ ∀ x, x ∈ l → ¬ P x.
Proof.
  unfold last_match. rewrite last_None. split.
  - intros Hf x Hx HP. assert (x ∈ filter P l) as Hin by (by apply list_elem_of_filter).
    rewrite Hf in Hin. by apply not_elem_of_nil in Hin.
  - intros Hall. destruct (filter P l) as [|x l'] eqn:E; [done|].
    assert (x ∈ filter P l) as Hin by (rewrite E; by left).
    apply list_elem_of_filter in Hin as [HP Hin]. by destruct (Hall x Hin).
Qed.
End LastMatch.

Lemma last_match_None_key {A K} `{EqDecision K} (key : A → K) k l :
  last_match (λ x, key x = k) l = None ↔ k ∉ key <$> l.
Proof.
  rewrite last_match_None. split.
  - intros Hall (x & -> & Hx)%list_elem_of_fmap. by apply (Hall x).
  - intros Hn x Hx <-. by apply Hn, list_elem_of_fmap_2.
Qed.

Lemma last_match_Some_key {A K} `{EqDecision K} (key : A → K) k l :
  is_Some (last_match (λ x, key x = k) l) ↔ k ∈ key <$> l.
Proof.
  destruct (last_match _ l) as [x|] eqn:E.
  - split; [|done]. intros _. apply last_match_Some in E as [Hx <-]. by apply list_elem_of_fmap_2.
  - apply last_match_None_key in E. split; [intros []%is_Some_None|done].
Qed.

Lemma NoDup_key_inj {A K} (key : A → K) l x y : NoDup (key <$> l) → x ∈ l → y ∈ l → key x = key y → x = y.
Proof.
  induction l as [|z l IH]; simpl; [intros _ []%not_elem_of_nil|]. intros [Hz Hnd]%NoDup_cons Hx Hy Heq.
  apply elem_of_cons in Hx as [->|Hx]; apply elem_of_cons in Hy as [->|Hy]; try done.
  - destruct Hz. rewrite Heq. by apply list_elem_of_fmap_2.
  - destruct Hz. rewrite <- Heq. by apply list_elem_of_fmap_2.
  - by apply IH.
Qed.

Lemma last_match_unique {A K} `{EqDecision K} (key : A → K) l x :
  NoDup (key <$> l) → x ∈ l → last_match (λ y, key y = key x) l = Some x.
Proof.
  intros Hnd Hx. destruct (last_match _ l) as [y|] eqn:E.
  - apply last_match_Some in E as [Hy Heq]. f_equal. by apply (NoDup_key_inj key l).
  - rewrite last_match_None_key in E. destruct E. by apply list_elem_of_fmap_2.
Qed.

Lemma filter_all {A} (P : A → Prop) `{!∀ x, Decision (P x)} (l : list A) : Forall P l → filter P l = l.
Proof. induction 1; [done|]. by rewrite filter_cons_True, IHForall. Qed.

Lemma NoDup_snoc {A} (l : list A) x : NoDup l → x ∉ l → NoDup (l ++ [x]).
Proof.
  intros Hl Hx. apply NoDup_app. split_and!; [done| |apply NoDup_singleton].
  intros y Hy ->%list_elem_of_singleton. done.
Qed.
