(* ===== verification/Ledger.v ===== *)
(** * The settlement ledger

    [src/internal/dlt/types.go] and [src/internal/dlt/ledger.go]: the data of
    the settlement protocol and every operation of [Ledger].  The Go maps hold
    pointers to shared [Transaction] objects ([pending], [confirmed] and
    [allTxs] alias each other and the caller's object), so the model keeps the
    objects in a heap and the maps hold locations. *)

From S2P Require Import Prelude.

(** ** types.go *)
Definition TxPending : string := "pending".
Definition TxConfirmed : string := "confirmed".
Definition TxRejected : string := "rejected".

Definition MsgPropose : string := "propose".
Definition MsgVote : string := "vote".
Definition MsgCommit : string := "commit".

Record Transaction := mkTx {
  tx_ID : string;
  tx_From : string;
  tx_To : string;
  tx_Amount : Z;
  tx_Currency : string;
  tx_PolicyID : string;
  tx_PathFingerprint : string;
  tx_RequestDigest : string;
  tx_ReceiptID : string;
  tx_Status : string;
  tx_Timestamp : Z;
  tx_Nonce : Z
}.

Record ConsensusMessage := mkMsg {
  m_Type : string;
  m_TxID : string;
  m_ValidatorID : string;
  m_Round : Z;
  m_Payload : bytes;
  m_Timestamp : Z
}.

Record ValidatorState := mkVal {
  v_ID : string;
  v_Address : string;
  v_Balance : gmap string Z;
  v_Nonce : Z
}.

Record ConsensusResult := mkCR {
  cr_Confirmed : bool;
  cr_Round : Z;
  cr_Votes : Z;
  cr_TxID : string
}.

#[export] Instance Transaction_eq_dec : EqDecision Transaction.
Proof. solve_decision. Defined.
#[export] Instance ConsensusMessage_eq_dec : EqDecision ConsensusMessage.
Proof. solve_decision. Defined.
#[export] Instance ConsensusResult_eq_dec : EqDecision ConsensusResult.
Proof. solve_decision. Defined.

(** Field assignments on the shared objects. *)
Definition set_status (s : string) (t : Transaction) : Transaction :=
  mkTx (tx_ID t) (tx_From t) (tx_To t) (tx_Amount t) (tx_Currency t) (tx_PolicyID t)
    (tx_PathFingerprint t) (tx_RequestDigest t) (tx_ReceiptID t) s (tx_Timestamp t) (tx_Nonce t).
Definition set_receipt (r : string) (t : Transaction) : Transaction :=
  mkTx (tx_ID t) (tx_From t) (tx_To t) (tx_Amount t) (tx_Currency t) (tx_PolicyID t)
    (tx_PathFingerprint t) (tx_RequestDigest t) r (tx_Status t) (tx_Timestamp t) (tx_Nonce t).
Definition set_submitted (n now : Z) (t : Transaction) : Transaction :=
  mkTx (tx_ID t) (tx_From t) (tx_To t) (tx_Amount t) (tx_Currency t) (tx_PolicyID t)
    (tx_PathFingerprint t) (tx_RequestDigest t) (tx_ReceiptID t) TxPending now n.

Definition set_nonce (n : Z) (v : ValidatorState) : ValidatorState :=
  mkVal (v_ID v) (v_Address v) (v_Balance v) n.
Definition set_balance (cur : string) (b : Z) (v : ValidatorState) : ValidatorState :=
  mkVal (v_ID v) (v_Address v) (<[cur := b]> (v_Balance v)) (v_Nonce v).

(** [v.Balance[cur]]: a missing key reads as zero. *)
Definition bal (v : ValidatorState) (cur : string) : Z := default 0 (v_Balance v !! cur).

(** ** The state *)
Abbreviation loc := nat.

Record Ledger := mkLedger {
  heap : gmap loc Transaction;
  validators : gmap string ValidatorState;
  pending : gmap string loc;
  confirmed : gmap string loc;
  allTxs : list loc;
  seen : gset string;
  currentRound : Z
}.

Definition upd_heap (f : gmap loc Transaction → gmap loc Transaction) (l : Ledger) : Ledger :=
  mkLedger (f (heap l)) (validators l) (pending l) (confirmed l) (allTxs l) (seen l) (currentRound l).
Definition upd_validators (f : gmap string ValidatorState → gmap string ValidatorState) (l : Ledger) : Ledger :=
  mkLedger (heap l) (f (validators l)) (pending l) (confirmed l) (allTxs l) (seen l) (currentRound l).
Definition upd_pending (f : gmap string loc → gmap string loc) (l : Ledger) : Ledger :=
  mkLedger (heap l) (validators l) (f (pending l)) (confirmed l) (allTxs l) (seen l) (currentRound l).
Definition upd_confirmed (f : gmap string loc → gmap string loc) (l : Ledger) : Ledger :=
  mkLedger (heap l) (validators l) (pending l) (f (confirmed l)) (allTxs l) (seen l) (currentRound l).

(** Errors, one constructor per [fmt.Errorf] of the file. *)
Inductive ledger_err :=
| UnknownSender (id : string)
| UnknownRecipient (id : string)
| AmountNotPositive (a : Z)
| InsufficientBalance (cur : string) (have need : Z)
| UnknownProposer (id : string)
| NoPendingTransactions
| ExpectedPropose (ty : string)
| NotInPendingPool (id : string)
| InsufficientAtCommit
| TransactionIsPending (id : string)
| ConfirmedNotFound (id : string)
| AlreadyHasReceipt (id rid : string)
| NoValidatorsConfigured
| InsufficientVotes (got need : Z)
| MarshalTxFailed.

#[export] Instance ledger_err_eq_dec : EqDecision ledger_err.
Proof. solve_decision. Defined.

(** [&Transaction{...}]: the caller allocates the object it passes in. *)
Definition new_tx (t : Transaction) (l : Ledger) : Ledger * loc :=
  let p := fresh (dom (heap l)) in (upd_heap (<[p := t]>) l, p).

(** [NewLedger]: a later validator with the same identifier replaces an earlier
    one.  The balance maps are copied, which values of the model need not be. *)
Definition NewLedger (vs : list ValidatorState) : Ledger :=
  mkLedger ∅ (foldl (λ m v, <[v_ID v := v]> m) ∅ vs) ∅ ∅ [] ∅ 0.

(** [submitLocked] *)
Definition submitLocked (now : Z) (p : loc) (l : Ledger) : Ledger * res ledger_err unit :=
  match heap l !! p with
  | None => (l, Panic)
  | Some tx =>
    match validators l !! tx_From tx with
    | None => (l, Err (UnknownSender (tx_From tx)))
    | Some sender =>
      match validators l !! tx_To tx with
      | None => (l, Err (UnknownRecipient (tx_To tx)))
      | Some _ =>
        if tx_Amount tx <=? 0 then (l, Err (AmountNotPositive (tx_Amount tx)))
        else if bal sender (tx_Currency tx) <? tx_Amount tx then
          (l, Err (InsufficientBalance (tx_Currency tx) (bal sender (tx_Currency tx)) (tx_Amount tx)))
        else
          let n := u64 (v_Nonce sender + 1) in
          (mkLedger
             (<[p := set_submitted n now tx]> (heap l))
             (<[tx_From tx := set_nonce n sender]> (validators l))
             (<[tx_ID tx := p]> (pending l))
             (confirmed l)
             (allTxs l ++ [p])
             ({[tx_ID tx]} ∪ seen l)
             (currentRound l), Ok tt)
      end
    end
  end.

Definition SubmitTransaction (now : Z) (p : loc) (l : Ledger) : Ledger * res ledger_err unit :=
  submitLocked now p l.

(** [&Transaction{ID: id, Status: TxRejected}] *)
Definition rejected_stub (id : string) : Transaction :=
  mkTx id "" "" 0 "" "" "" "" "" TxRejected zero_time 0.

(** A map that holds a location and the object it points to: the clone a reader
    receives ([cloneTransaction]). *)
Definition deref (l : Ledger) (m : gmap string loc) (id : string) : option Transaction :=
  p ← m !! id; heap l !! p.

Definition SubmitTransactionIfAbsent (now : Z) (p : loc) (l : Ledger) :
    Ledger * res ledger_err (option Transaction) :=
  match heap l !! p with
  | None => (l, Panic)
  | Some tx =>
    if bool_decide (tx_ID tx ∈ seen l) then
      match deref l (confirmed l) (tx_ID tx) with
      | Some t => (l, Ok (Some t))
      | None =>
        match deref l (pending l) (tx_ID tx) with
        | Some t => (l, Ok (Some t))
        | None => (l, Ok (Some (rejected_stub (tx_ID tx))))
        end
      end
    else
      match submitLocked now p l with
      | (l', Ok _) => (l', Ok None)
      | (l', Err e) => (l', Err e)
      | (l', Panic) => (l', Panic)
      end
  end.

Definition CleanupPending (txID : string) (l : Ledger) : Ledger :=
  match pending l !! txID with
  | None => l
  | Some p =>
    match heap l !! p with
    | None => l
    | Some tx =>
      let l1 := upd_heap (<[p := set_status TxRejected tx]>) l in
      let l2 := match validators l1 !! tx_From tx with
                | Some sender => upd_validators (<[tx_From tx := set_nonce (u64 (v_Nonce sender - 1)) sender]>) l1
                | None => l1
                end in
      upd_pending (delete txID) l2
    end
  end.

(** [for _, tx := range l.pending { target = tx; break }]: the iteration order of
    a Go map is unspecified.  [first] is the key the iteration happens to yield;
    whatever it is, the result is some element of a non-empty map, and every
    element is the result for some [first]. *)
Definition range_first (first : string) (m : gmap string loc) : option loc :=
  match m !! first with
  | Some p => Some p
  | None => snd <$> head (map_to_list m)
  end.

Definition ProposeBlock (now : Z) (first : string) (validatorID : string) (l : Ledger) :
    Ledger * res ledger_err ConsensusMessage :=
  match validators l !! validatorID with
  | None => (l, Err (UnknownProposer validatorID))
  | Some _ =>
    match range_first first (pending l) with
    | None => (l, Err NoPendingTransactions)
    | Some p =>
      match heap l !! p with
      | None => (l, Panic)
      | Some target =>
        let r := u64 (currentRound l + 1) in
        (mkLedger (heap l) (validators l) (pending l) (confirmed l) (allTxs l) (seen l) r,
         Ok (mkMsg MsgPropose (tx_ID target) validatorID r "" now))
      end
    end
  end.

Definition Vote (now : Z) (msg : ConsensusMessage) (l : Ledger) : res ledger_err ConsensusMessage :=
  if negb (bool_decide (m_Type msg = MsgPropose)) then Err (ExpectedPropose (m_Type msg))
  else
    match pending l !! m_TxID msg with
    | None => Err (NotInPendingPool (m_TxID msg))
    | Some p =>
      match heap l !! p with
      | None => Panic
      | Some tx =>
        match validators l !! tx_From tx with
        | None => Err (UnknownSender (tx_From tx))
        | Some sender =>
          let payload := if tx_Amount tx <=? bal sender (tx_Currency tx) then "yes" else "no" in
          Ok (mkMsg MsgVote (m_TxID msg) (m_ValidatorID msg) (m_Round msg) payload now)
        end
      end
    end.

(** [Commit]: [sender] and [recipient] may be the same object, so the credit
    reads the balance after the debit. *)
Definition Commit (msg : ConsensusMessage) (l : Ledger) : Ledger * res ledger_err unit :=
  match pending l !! m_TxID msg with
  | None => (l, Err (NotInPendingPool (m_TxID msg)))
  | Some p =>
    match heap l !! p with
    | None => (l, Panic)
    | Some tx =>
      match validators l !! tx_From tx with
      | None => (l, Panic)
      | Some sender =>
        if bal sender (tx_Currency tx) <? tx_Amount tx then
          (upd_pending (delete (tx_ID tx)) (upd_heap (<[p := set_status TxRejected tx]>) l),
           Err InsufficientAtCommit)
        else
          let vs1 := <[tx_From tx := set_balance (tx_Currency tx)
                         (i64 (bal sender (tx_Currency tx) - tx_Amount tx)) sender]> (validators l) in
          match vs1 !! tx_To tx with
          | None => (upd_validators (const vs1) l, Panic)
          | Some recipient =>
            let vs2 := <[tx_To tx := set_balance (tx_Currency tx)
                           (i64 (bal recipient (tx_Currency tx) + tx_Amount tx)) recipient]> vs1 in
            (mkLedger (<[p := set_status TxConfirmed tx]> (heap l)) vs2
               (delete (tx_ID tx) (pending l)) (<[tx_ID tx := p]> (confirmed l))
               (allTxs l) (seen l) (currentRound l), Ok tt)
          end
      end
    end
  end.

(** [AttachReceipt] returns the clone also with the error of a conflicting
    receipt. *)
Definition AttachReceipt (txID receiptID : string) (l : Ledger) :
    Ledger * option Transaction * res ledger_err unit :=
  match confirmed l !! txID with
  | None =>
    if bool_decide (is_Some (pending l !! txID)) then (l, None, Err (TransactionIsPending txID))
    else (l, None, Err (ConfirmedNotFound txID))
  | Some p =>
    match heap l !! p with
    | None => (l, None, Panic)
    | Some tx =>
      if negb (bool_decide (tx_ReceiptID tx = "")) then
        if negb (bool_decide (tx_ReceiptID tx = receiptID)) then
          (l, Some tx, Err (AlreadyHasReceipt txID (tx_ReceiptID tx)))
        else (l, Some tx, Ok tt)
      else
        (upd_heap (<[p := set_receipt receiptID tx]>) l, Some (set_receipt receiptID tx), Ok tt)
    end
  end.

Definition GetBalance (validatorID currency : string) (l : Ledger) : Z :=
  match validators l !! validatorID with
  | None => 0
  | Some v => bal v currency
  end.

Definition GetTransaction (txID : string) (l : Ledger) : option Transaction :=
  match deref l (confirmed l) txID with
  | Some t => Some t
  | None => deref l (pending l) txID
  end.

Definition ListTransactions (l : Ledger) : list (option Transaction) :=
  (λ p, heap l !! p) <$> allTxs l.

(** [GetValidators]: a snapshot, in the unspecified order of the Go map. *)
Definition GetValidators (l : Ledger) : list ValidatorState := snd <$> map_to_list (validators l).

Definition CurrentRound (l : Ledger) : Z := currentRound l.

(** ** Specification vocabulary *)

(** The operations that change the ledger, as values, and their effect. *)
Inductive ledger_op :=
| OpNew (t : Transaction)
| OpSubmit (now : Z) (p : loc)
| OpSubmitIfAbsent (now : Z) (p : loc)
| OpCleanup (id : string)
| OpPropose (now : Z) (first v : string)
| OpCommit (msg : ConsensusMessage)
| OpAttach (id rid : string).

Definition exec (o : ledger_op) (l : Ledger) : Ledger :=
  match o with
  | OpNew t => (new_tx t l).1
  | OpSubmit now p => (SubmitTransaction now p l).1
  | OpSubmitIfAbsent now p => (SubmitTransactionIfAbsent now p l).1
  | OpCleanup id => CleanupPending id l
  | OpPropose now first v => (ProposeBlock now first v l).1
  | OpCommit msg => (Commit msg l).1
  | OpAttach id rid => (AttachReceipt id rid l).1.1
  end.

(** Any operation, in any order. *)
Definition step (l l' : Ledger) : Prop := ∃ o, l' = exec o l.

(** The operations behind the HTTP handlers: [SubmitAndRunRound] submits with
    [SubmitTransactionIfAbsent].  [RunRound] (consensus.go) and [ProposeSettlement]
    (node.go) call [SubmitTransaction], which does not consult [seen]. *)
Definition checked_op (o : ledger_op) : bool :=
  match o with OpSubmit _ _ => false | _ => true end.
Definition checked_step (l l' : Ledger) : Prop := ∃ o, checked_op o = true ∧ l' = exec o l.

(** Any operation, [SubmitTransaction] included, but no replay: an identifier
    given to [SubmitTransaction] is a new one. *)
Definition no_replay (o : ledger_op) (l : Ledger) : Prop :=
  match o with OpSubmit _ p => ∀ tx, heap l !! p = Some tx → tx_ID tx ∉ seen l | _ => True end.
Definition guarded_step (l l' : Ledger) : Prop := ∃ o, no_replay o l ∧ l' = exec o l.

(** The money of one currency. *)
Definition total (cur : string) (vs : gmap string ValidatorState) : Z := msum (λ v, bal v cur) vs.

(** Every balance is non-negative and no currency exceeds what an [int64] can
    hold. *)
Definition solvent (vs : gmap string ValidatorState) : Prop :=
  ∀ cur, (∀ id v, vs !! id = Some v → 0 ≤ bal v cur) ∧ total cur vs < 2 ^ 63.

(** What a transaction does to the balance of [id] in [cur]. *)
Definition delta (t : Transaction) (id cur : string) : Z :=
  if decide (tx_Currency t = cur)
  then (if decide (tx_To t = id) then tx_Amount t else 0) - (if decide (tx_From t = id) then tx_Amount t else 0)
  else 0.

(** A pending entry points to an object with its identifier, a positive amount
    and known parties. *)
Definition pending_ok (l : Ledger) : Prop :=
  ∀ id p, pending l !! id = Some p →
  ∃ tx, heap l !! p = Some tx ∧ tx_ID tx = id ∧ 0 < tx_Amount tx ∧
        is_Some (validators l !! tx_From tx) ∧ is_Some (validators l !! tx_To tx).

(** ** Balances *)
Lemma bal_set_balance cur b v c :
  bal (set_balance cur b v) c = if decide (cur = c) then b else bal v c.
Proof.
  unfold bal, set_balance; simpl. rewrite lookup_insert. by case_decide.
Qed.

Lemma bal_set_nonce n v c : bal (set_nonce n v) c = bal v c.
Proof. done. Qed.

Lemma total_set_nonce vs id v n c :
  vs !! id = Some v → total c (<[id := set_nonce n v]> vs) = total c vs.
Proof. intros Hv. unfold total. rewrite (msum_insert_Some _ _ _ v) by done. rewrite bal_set_nonce. lia. Qed.

Lemma solvent_set_nonce vs id v n :
  vs !! id = Some v → solvent vs → solvent (<[id := set_nonce n v]> vs).
Proof.
  intros Hv Hs cur. destruct (Hs cur) as [Hnn Ht]. split; [|by rewrite total_set_nonce].
  intros id' v' [[<- <-]|[? ?]]%lookup_insert_Some; [|eauto].
  rewrite bal_set_nonce. eauto.
Qed.

Lemma total_set_balance vs id v cur b c :
  vs !! id = Some v →
  total c (<[id := set_balance cur b v]> vs) =
  total c vs + (if decide (cur = c) then b - bal v c else 0).
Proof.
  intros Hv. unfold total. rewrite (msum_insert_Some _ _ _ v) by done.
  rewrite bal_set_balance. case_decide; lia.
Qed.

Lemma solvent_bal_lt vs id v cur : solvent vs → vs !! id = Some v → 0 ≤ bal v cur < 2 ^ 63.
Proof.
  intros Hs Hv. destruct (Hs cur) as [Hnn Ht]. split; [eauto|].
  pose proof (msum_lookup_le (λ v, bal v cur) vs id v Hnn Hv). unfold total in Ht. simpl in *. lia.
Qed.

(** The two balance updates of [Commit], on the validator map alone. *)
Section Transfer.
Context (vs : gmap string ValidatorState) (from to cur : string) (amt : Z).
Context (s r : ValidatorState).
Let vs1 := <[from := set_balance cur (i64 (bal s cur - amt)) s]> vs.
Let vs2 := <[to := set_balance cur (i64 (bal r cur + amt)) r]> vs1.
Hypothesis Hsolv : solvent vs.
Hypothesis Hfrom : vs !! from = Some s.
Hypothesis Hto : vs1 !! to = Some r.
Hypothesis Hamt : 0 < amt ≤ bal s cur.

Lemma debit_exact : i64 (bal s cur - amt) = bal s cur - amt.
Proof. apply i64_id. pose proof (solvent_bal_lt vs from s cur Hsolv Hfrom). unfold is_i64. lia. Qed.

Lemma debit_nonneg : ∀ c id v, vs1 !! id = Some v → 0 ≤ bal v c.
Proof.
  intros c id v [[<- <-]|[? Hv]]%lookup_insert_Some.
  - rewrite bal_set_balance, debit_exact. case_decide; [lia|].
    by apply (solvent_bal_lt vs from).
  - by apply (solvent_bal_lt vs id).
Qed.

Lemma debit_total c : total c vs1 = total c vs - (if decide (cur = c) then amt else 0).
Proof. unfold vs1. rewrite (total_set_balance _ _ s), debit_exact by done. case_decide; subst; lia. Qed.

Lemma credit_exact : i64 (bal r cur + amt) = bal r cur + amt.
Proof.
  apply i64_id. unfold is_i64.
  pose proof (debit_nonneg cur to r Hto).
  pose proof (msum_lookup_le (λ v, bal v cur) vs1 to r (debit_nonneg cur) Hto) as Hle.
  pose proof (debit_total cur) as Ht. destruct (Hsolv cur) as [_ Hlt].
  rewrite decide_True in Ht by done. unfold total in Ht, Hlt. simpl in *. lia.
Qed.

Lemma transfer_total c : total c vs2 = total c vs.
Proof.
  unfold vs2. rewrite (total_set_balance _ _ r), debit_total, credit_exact by done.
  case_decide; subst; lia.
Qed.

Lemma transfer_solvent : solvent vs2.
Proof.
  intros c. split; [|rewrite transfer_total; apply Hsolv].
  intros id v [[<- <-]|[? Hv]]%lookup_insert_Some; [|by apply (debit_nonneg c id)].
  rewrite bal_set_balance, credit_exact. pose proof (debit_nonneg c to r Hto).
  case_decide; subst; lia.
Qed.

Lemma transfer_dom : dom vs2 = dom vs.
Proof using Hfrom Hto.
  clear Hsolv Hamt. unfold vs2, vs1. rewrite !dom_insert_L.
  assert (from ∈ dom vs) by (apply elem_of_dom; eauto).
  assert (to ∈ dom vs1) as Hd by (apply elem_of_dom; eauto).
  unfold vs1 in Hd. rewrite dom_insert_L in Hd. set_solver.
Qed.
End Transfer.

Lemma GetBalance_lookup l id v cur : validators l !! id = Some v → GetBalance id cur l = bal v cur.
Proof. unfold GetBalance. by intros ->. Qed.

(** ** What every operation preserves *)

(** The fields no operation changes. *)
Definition core (t : Transaction) : string * string * string * Z * string :=
  (tx_ID t, tx_From t, tx_To t, tx_Amount t, tx_Currency t).

Definition heap_ext (l l' : Ledger) : Prop :=
  ∀ p tx, heap l !! p = Some tx → ∃ tx', heap l' !! p = Some tx' ∧ core tx' = core tx.

Lemma heap_ext_refl l : heap_ext l l.
Proof. intros p tx. eauto. Qed.

Lemma heap_ext_insert l l' p tx tx' :
  heap l !! p = Some tx → core tx' = core tx → heap l' = <[p := tx']> (heap l) → heap_ext l l'.
Proof.
  intros Hp Hc Hh q t Hq. rewrite Hh. destruct (decide (p = q)) as [->|].
  - rewrite lookup_insert_eq. rewrite Hp in Hq. injection Hq as <-. exists tx'. auto.
  - rewrite lookup_insert_ne by done. eauto.
Qed.

Lemma heap_ext_eq l l' : heap l' = heap l → heap_ext l l'.
Proof. intros Hh p tx. rewrite Hh. eauto. Qed.

Lemma core_fields t t' : core t' = core t →
  tx_ID t' = tx_ID t ∧ tx_From t' = tx_From t ∧ tx_To t' = tx_To t ∧
  tx_Amount t' = tx_Amount t ∧ tx_Currency t' = tx_Currency t.
Proof. unfold core. intros [=]. auto. Qed.

Lemma core_delta t t' id cur : core t' = core t → delta t' id cur = delta t id cur.
Proof. intros (?&Hf&Ht&Ha&Hc)%core_fields. unfold delta. by rewrite Hf, Ht, Ha, Hc. Qed.

Ltac heap_insert := eapply heap_ext_insert; [eassumption| |reflexivity]; reflexivity.

#[export] Hint Resolve heap_ext_refl heap_ext_eq : juris.

Lemma fresh_heap l : heap l !! fresh (dom (heap l)) = None.
Proof. apply not_elem_of_dom, is_fresh. Qed.

(** *** Case analysis of the operations *)

(** [submitLocked] either changes nothing or performs the submission. *)
Inductive submit_spec (now : Z) (p : loc) (l : Ledger) : Ledger → res ledger_err unit → Prop :=
| SubmitFails r : r ≠ Ok tt → submit_spec now p l l r
| SubmitDone tx s n :
    heap l !! p = Some tx → validators l !! tx_From tx = Some s →
    is_Some (validators l !! tx_To tx) → 0 < tx_Amount tx ≤ bal s (tx_Currency tx) →
    n = u64 (v_Nonce s + 1) →
    submit_spec now p l
      (mkLedger (<[p := set_submitted n now tx]> (heap l))
        (<[tx_From tx := set_nonce n s]> (validators l)) (<[tx_ID tx := p]> (pending l)) (confirmed l)
        (allTxs l ++ [p]) ({[tx_ID tx]} ∪ seen l) (currentRound l)) (Ok tt).

Lemma submitLocked_spec now p l : submit_spec now p l (submitLocked now p l).1 (submitLocked now p l).2.
Proof.
  unfold submitLocked. destruct (heap l !! p) as [tx|] eqn:Hp; [|by constructor].
  destruct (validators l !! tx_From tx) as [s|] eqn:Hs; [|by constructor].
  destruct (validators l !! tx_To tx) as [t|] eqn:Ht; [|by constructor].
  destruct (tx_Amount tx <=? 0) eqn:Ha; [by constructor|].
  destruct (bal s (tx_Currency tx) <? tx_Amount tx) eqn:Hb; [by constructor|].
  zbool. simpl. eapply SubmitDone; eauto; lia.
Qed.

Inductive submit_absent_spec (now : Z) (p : loc) (l : Ledger) :
    Ledger → res ledger_err (option Transaction) → Prop :=
| SubmitNil : heap l !! p = None → submit_absent_spec now p l l Panic
| SubmitSeen tx r : heap l !! p = Some tx → tx_ID tx ∈ seen l → is_Some r → submit_absent_spec now p l l (Ok r)
| SubmitNew tx l' r r' : heap l !! p = Some tx → tx_ID tx ∉ seen l → submit_spec now p l l' r →
    (r = Ok tt ∧ r' = Ok None ∨ is_ok r = false ∧ is_ok r' = false) →
    submit_absent_spec now p l l' r'.

Lemma SubmitTransactionIfAbsent_spec now p l :
  submit_absent_spec now p l (SubmitTransactionIfAbsent now p l).1 (SubmitTransactionIfAbsent now p l).2.
Proof.
  unfold SubmitTransactionIfAbsent. destruct (heap l !! p) as [tx|] eqn:Hp; [|by constructor].
  case_bool_decide.
  - destruct (deref l (confirmed l) _); simpl; [eapply SubmitSeen; eauto|].
    destruct (deref l (pending l) _); eapply SubmitSeen; eauto.
  - pose proof (submitLocked_spec now p l) as Hs.
    destruct (submitLocked now p l) as [l' [[]| |]]; simpl in *; eapply SubmitNew; eauto.
Qed.

(** [Commit] on a ledger whose pending entries are well formed. *)
Inductive commit_spec (msg : ConsensusMessage) (l : Ledger) : Ledger → res ledger_err unit → Prop :=
| CommitAbsent : pending l !! m_TxID msg = None →
    commit_spec msg l l (Err (NotInPendingPool (m_TxID msg)))
| CommitPoor p tx s : pending l !! m_TxID msg = Some p → heap l !! p = Some tx → tx_ID tx = m_TxID msg →
    validators l !! tx_From tx = Some s → bal s (tx_Currency tx) < tx_Amount tx →
    commit_spec msg l
      (upd_pending (delete (m_TxID msg)) (upd_heap (<[p := set_status TxRejected tx]>) l)) (Err InsufficientAtCommit)
| CommitDone p tx s r vs1 vs2 : pending l !! m_TxID msg = Some p → heap l !! p = Some tx → tx_ID tx = m_TxID msg →
    validators l !! tx_From tx = Some s → 0 < tx_Amount tx ≤ bal s (tx_Currency tx) →
    vs1 = <[tx_From tx := set_balance (tx_Currency tx) (i64 (bal s (tx_Currency tx) - tx_Amount tx)) s]> (validators l) →
    vs1 !! tx_To tx = Some r →
    vs2 = <[tx_To tx := set_balance (tx_Currency tx) (i64 (bal r (tx_Currency tx) + tx_Amount tx)) r]> vs1 →
    commit_spec msg l
      (mkLedger (<[p := set_status TxConfirmed tx]> (heap l)) vs2 (delete (m_TxID msg) (pending l))
         (<[m_TxID msg := p]> (confirmed l)) (allTxs l) (seen l) (currentRound l)) (Ok tt).

Lemma Commit_spec msg l : pending_ok l → commit_spec msg l (Commit msg l).1 (Commit msg l).2.
Proof.
  intros Hok. unfold Commit. destruct (pending l !! m_TxID msg) as [p|] eqn:Hp; [|by constructor].
  destruct (Hok _ _ Hp) as (tx & Htx & Hid & Hpos & [s Hs] & [t Ht]). rewrite Htx, Hs.
  destruct (bal s (tx_Currency tx) <? tx_Amount tx) eqn:Hb; zbool.
  - rewrite Hid. eapply CommitPoor; eauto.
  - destruct (<[_:=_]> _ !! tx_To tx) as [r|] eqn:Hr.
    + rewrite Hid. eapply CommitDone; eauto.
    + apply lookup_insert_None in Hr as [? _]. congruence.
Qed.

Inductive cleanup_spec (id : string) (l : Ledger) : Ledger → Prop :=
| CleanupAbsent : pending l !! id = None → cleanup_spec id l l
| CleanupDone p tx s : pending l !! id = Some p → heap l !! p = Some tx → tx_ID tx = id →
    validators l !! tx_From tx = Some s →
    cleanup_spec id l
      (mkLedger (<[p := set_status TxRejected tx]> (heap l))
         (<[tx_From tx := set_nonce (u64 (v_Nonce s - 1)) s]> (validators l))
         (delete id (pending l)) (confirmed l) (allTxs l) (seen l) (currentRound l)).

Lemma CleanupPending_spec id l : pending_ok l → cleanup_spec id l (CleanupPending id l).
Proof.
  intros Hok. unfold CleanupPending. destruct (pending l !! id) as [p|] eqn:Hp; [|by constructor].
  destruct (Hok _ _ Hp) as (tx & Htx & Hid & Hpos & [s Hs] & _). rewrite Htx. simpl. rewrite Hs.
  unfold upd_pending, upd_validators, upd_heap; simpl. eapply CleanupDone; eauto.
Qed.

Lemma ProposeBlock_frame now first v l :
  ∃ r, (ProposeBlock now first v l).1 =
    mkLedger (heap l) (validators l) (pending l) (confirmed l) (allTxs l) (seen l) r.
Proof.
  unfold ProposeBlock. destruct l as [h vs pe co al se cu]; simpl.
  destruct (vs !! v); [|by exists cu]. destruct (range_first first pe) as [p|]; [|by exists cu].
  destruct (h !! p); [|by exists cu]. eexists; reflexivity.
Qed.

Inductive attach_spec (id rid : string) (l : Ledger) : Ledger → res ledger_err unit → Prop :=
| AttachSame r : attach_spec id rid l l r
| AttachDone p tx : confirmed l !! id = Some p → heap l !! p = Some tx → tx_ReceiptID tx = "" →
    attach_spec id rid l (upd_heap (<[p := set_receipt rid tx]>) l) (Ok tt).

Lemma AttachReceipt_spec id rid l : attach_spec id rid l (AttachReceipt id rid l).1.1 (AttachReceipt id rid l).2.
Proof.
  unfold AttachReceipt. destruct (confirmed l !! id) as [p|] eqn:Hp; [|case_bool_decide; constructor].
  destruct (heap l !! p) as [tx|] eqn:Htx; [|constructor].
  destruct (bool_decide (tx_ReceiptID tx = "")) eqn:Hr; simpl; zbool.
  - by eapply AttachDone.
  - destruct (bool_decide (tx_ReceiptID tx = rid)); constructor.
Qed.

(** *** Frames *)
Lemma exec_heap_ext o l : pending_ok l → heap_ext l (exec o l).
Proof.
  intros Hok. destruct o as [t|now p|now p|id|now f v|msg|id rid]; simpl.
  - intros p tx Hp. exists tx. split; [|done]. unfold new_tx; simpl.
    rewrite lookup_insert_ne; [done|]. intros <-. by rewrite fresh_heap in Hp.
  - unfold SubmitTransaction. destruct (submitLocked_spec now p l); auto with juris.
    heap_insert.
  - destruct (SubmitTransactionIfAbsent_spec now p l) as [| |tx l' r r' ? ? Hs ?]; auto with juris.
    destruct Hs; auto with juris. heap_insert.
  - destruct (CleanupPending_spec id l Hok); auto with juris. heap_insert.
  - destruct (ProposeBlock_frame now f v l) as [r ->]. auto with juris.
  - destruct (Commit_spec msg l Hok); auto with juris; heap_insert.
  - destruct (AttachReceipt_spec id rid l); auto with juris. heap_insert.
Qed.

Lemma dom_insert_lookup {V} (m : gmap string V) k v w : m !! k = Some v → dom (<[k := w]> m) = dom m.
Proof. intros Hk. rewrite dom_insert_L. assert (k ∈ dom m) by (apply elem_of_dom; eauto). set_solver. Qed.

Lemma exec_dom_validators o l : pending_ok l → dom (validators (exec o l)) = dom (validators l).
Proof.
  intros Hok. destruct o as [t|now p|now p|id|now f v|msg|id rid]; simpl; try done.
  - unfold SubmitTransaction. destruct (submitLocked_spec now p l); [done|]. by eapply dom_insert_lookup.
  - destruct (SubmitTransactionIfAbsent_spec now p l) as [| |tx l' r r' ? ? Hs ?]; try done.
    destruct Hs; [done|]. by eapply dom_insert_lookup.
  - destruct (CleanupPending_spec id l Hok); [done|]. by eapply dom_insert_lookup.
  - by destruct (ProposeBlock_frame now f v l) as [r ->].
  - destruct (Commit_spec msg l Hok); try done. subst.
    by eapply transfer_dom.
  - by destruct (AttachReceipt_spec id rid l).
Qed.

(** The pending entries of the new state: those of the old one, and at most the
    submitted transaction. *)
Lemma exec_pending o l id p : pending_ok l →
  pending (exec o l) !! id = Some p →
  pending l !! id = Some p ∨
  ∃ tx, heap l !! p = Some tx ∧ tx_ID tx = id ∧ 0 < tx_Amount tx ∧
        is_Some (validators l !! tx_From tx) ∧ is_Some (validators l !! tx_To tx).
Proof.
  intros Hok. destruct o as [t|now q|now q|id'|now f v|msg|id' rid]; simpl; auto.
  - unfold SubmitTransaction. destruct (submitLocked_spec now q l); auto. simpl.
    intros [[<- <-]|[? ?]]%lookup_insert_Some; [|auto]. right. eexists. repeat split; eauto; lia.
  - destruct (SubmitTransactionIfAbsent_spec now q l) as [| |tx l' r r' ? ? Hs ?]; auto.
    destruct Hs; auto. simpl.
    intros [[<- <-]|[? ?]]%lookup_insert_Some; [|auto]. right. eexists. repeat split; eauto; lia.
  - destruct (CleanupPending_spec id' l Hok); auto. simpl. rewrite lookup_delete_Some. naive_solver.
  - destruct (ProposeBlock_frame now f v l) as [r ->]. auto.
  - destruct (Commit_spec msg l Hok); auto; simpl; rewrite lookup_delete_Some; naive_solver.
  - destruct (AttachReceipt_spec id' rid l); auto.
Qed.

Lemma exec_pending_ok o l : pending_ok l → pending_ok (exec o l).
Proof.
  intros Hok id p Hp.
  assert (∃ tx, heap l !! p = Some tx ∧ tx_ID tx = id ∧ 0 < tx_Amount tx ∧
        is_Some (validators l !! tx_From tx) ∧ is_Some (validators l !! tx_To tx))
    as (tx & Htx & Hid & Ha & Hf & Ht).
  { destruct (exec_pending o l id p Hok Hp); eauto. }
  destruct (exec_heap_ext o l Hok p tx Htx) as (tx' & Htx' & (Eid & Ef & Et & Ea & _)%core_fields).
  exists tx'. rewrite Eid, Ef, Et, Ea, <- !elem_of_dom, (exec_dom_validators o l Hok), !elem_of_dom.
  auto.
Qed.

Lemma exec_solvent o l : pending_ok l → solvent (validators l) →
  solvent (validators (exec o l)) ∧ ∀ cur, total cur (validators (exec o l)) = total cur (validators l).
Proof.
  intros Hok Hs. destruct o as [t|now p|now p|id|now f v|msg|id rid]; simpl; try done.
  - unfold SubmitTransaction. destruct (submitLocked_spec now p l); [done|].
    split; [by apply solvent_set_nonce|]. intros. by apply total_set_nonce.
  - destruct (SubmitTransactionIfAbsent_spec now p l) as [| |tx l' r r' ? ? Hsp ?]; try done.
    destruct Hsp; [done|]. split; [by apply solvent_set_nonce|]. intros. by apply total_set_nonce.
  - destruct (CleanupPending_spec id l Hok); [done|].
    split; [by apply solvent_set_nonce|]. intros. by apply total_set_nonce.
  - by destruct (ProposeBlock_frame now f v l) as [r ->].
  - destruct (Commit_spec msg l Hok); try done. subst.
    split; [by apply transfer_solvent|]. intros cur. by apply transfer_total.
  - by destruct (AttachReceipt_spec id rid l).
Qed.

Lemma step_invariant l l' : rtc step l l' → pending_ok l → solvent (validators l) →
  pending_ok l' ∧ solvent (validators l') ∧ dom (validators l') = dom (validators l) ∧
  ∀ cur, total cur (validators l') = total cur (validators l).
Proof.
  induction 1 as [|l l1 l' [o ->] _ IH]; intros Hok Hs; [done|].
  destruct (exec_solvent o l Hok Hs) as [Hs1 Ht1].
  destruct IH as (? & ? & Hd & Ht); [by apply exec_pending_ok|done|].
  split_and!; [done|done|by rewrite Hd, exec_dom_validators|].
  intros cur. by rewrite Ht, Ht1.
Qed.

Lemma NewLedger_pending_ok vs : pending_ok (NewLedger vs).
Proof. intros id p. simpl. by rewrite lookup_empty. Qed.

(** ** Balances are the confirmed history *)
Definition balance (vs : gmap string ValidatorState) (id cur : string) : Z :=
  match vs !! id with None => 0 | Some v => bal v cur end.

Lemma GetBalance_balance id cur l : GetBalance id cur l = balance (validators l) id cur.
Proof. done. Qed.

Lemma balance_insert vs k v id cur :
  balance (<[k := v]> vs) id cur = if decide (k = id) then bal v cur else balance vs id cur.
Proof. unfold balance. rewrite lookup_insert. by case_decide. Qed.

Lemma balance_set_nonce vs k v n id cur : vs !! k = Some v →
  balance (<[k := set_nonce n v]> vs) id cur = balance vs id cur.
Proof. intros Hk. rewrite balance_insert. case_decide; [subst|done]. unfold balance. by rewrite Hk. Qed.

Lemma transfer_balance vs tx s r vs1 vs2 id cur :
  solvent vs → vs !! tx_From tx = Some s → 0 < tx_Amount tx ≤ bal s (tx_Currency tx) →
  vs1 = <[tx_From tx := set_balance (tx_Currency tx) (i64 (bal s (tx_Currency tx) - tx_Amount tx)) s]> vs →
  vs1 !! tx_To tx = Some r →
  vs2 = <[tx_To tx := set_balance (tx_Currency tx) (i64 (bal r (tx_Currency tx) + tx_Amount tx)) r]> vs1 →
  balance vs2 id cur = balance vs id cur + delta tx id cur.
Proof.
  intros Hs Hf Ha Hvs1 Ht Hvs2. subst vs2.
  assert (balance vs1 id cur = balance vs id cur -
            (if decide (tx_Currency tx = cur) then if decide (tx_From tx = id) then tx_Amount tx else 0 else 0)) as H1.
  { subst vs1. rewrite balance_insert, bal_set_balance, debit_exact with (vs := vs) (from := tx_From tx) by done.
    unfold balance. repeat case_decide; subst; rewrite ?Hf; lia. }
  subst vs1. rewrite balance_insert, bal_set_balance.
  rewrite credit_exact with (vs := vs) (from := tx_From tx) (to := tx_To tx) (s := s) by done.
  unfold delta. destruct (decide (tx_To tx = id)) as [<-|]; [|rewrite H1; repeat case_decide; lia].
  unfold balance in H1 at 1. rewrite Ht in H1.
  repeat case_decide; subst; lia.
Qed.

(** What the confirmed transactions have done to the balance of [id]. *)
Definition settled (l : Ledger) (id cur : string) : Z :=
  msum (λ p, match heap l !! p with Some tx => delta tx id cur | None => 0 end) (confirmed l).

(** The state of one object of the history, and the maps that point to it. *)
Inductive tx_state (l : Ledger) (p : loc) (tx : Transaction) : Prop :=
| StPending : tx_Status tx = TxPending → pending l !! tx_ID tx = Some p → confirmed l !! tx_ID tx = None → tx_state l p tx
| StConfirmed : tx_Status tx = TxConfirmed → confirmed l !! tx_ID tx = Some p → pending l !! tx_ID tx = None → tx_state l p tx
| StRejected : tx_Status tx = TxRejected → pending l !! tx_ID tx = None → confirmed l !! tx_ID tx = None → tx_state l p tx.

Definition has_id (l : Ledger) (p : loc) (id : string) : Prop := ∃ tx, heap l !! p = Some tx ∧ tx_ID tx = id.

(** The well-formedness invariant of a ledger driven by checked submissions. *)
Record lifecycle (l : Ledger) : Prop := mkLifecycle {
  lc_pending : pending_ok l;
  lc_hist : ∀ p, p ∈ allTxs l → ∃ tx, heap l !! p = Some tx ∧ tx_state l p tx;
  lc_seen : ∀ id, id ∈ seen l ↔ ∃ p, p ∈ allTxs l ∧ has_id l p id;
  lc_unique : ∀ p q id, p ∈ allTxs l → q ∈ allTxs l → has_id l p id → has_id l q id → p = q;
  lc_nodup : NoDup (allTxs l);
  lc_tracked : ∀ id p, pending l !! id = Some p ∨ confirmed l !! id = Some p → p ∈ allTxs l ∧ has_id l p id
}.

Lemma has_id_insert l l' p tx tx' q id :
  heap l !! p = Some tx → tx_ID tx' = tx_ID tx → heap l' = <[p := tx']> (heap l) →
  has_id l' q id ↔ has_id l q id.
Proof.
  intros Hp Hid Hh. unfold has_id. rewrite Hh. destruct (decide (p = q)) as [->|].
  - rewrite lookup_insert_eq, Hp. split; intros (t & [= <-] & <-); eauto.
  - by rewrite lookup_insert_ne.
Qed.

(** One object of the history changes state, and the maps follow it. *)
Lemma lifecycle_update l l' p tx tx' :
  lifecycle l → pending_ok l' → p ∈ allTxs l → heap l !! p = Some tx → tx_ID tx' = tx_ID tx →
  heap l' = <[p := tx']> (heap l) → allTxs l' = allTxs l → seen l' = seen l →
  (∀ id, id ≠ tx_ID tx → pending l' !! id = pending l !! id ∧ confirmed l' !! id = confirmed l !! id) →
  (∀ q, pending l' !! tx_ID tx = Some q ∨ confirmed l' !! tx_ID tx = Some q → q = p) →
  tx_state l' p tx' → lifecycle l'.
Proof.
  intros [_ Hh Hse Hu Hnd Htr] Hok Hin Hp Hid Hheap Hall Hseen Hother Hq Hst.
  assert (∀ q id, has_id l' q id ↔ has_id l q id) as Hhas by (intros; by apply (has_id_insert l l' p tx tx')).
  constructor; rewrite ?Hall, ?Hseen; auto.
  - intros q Hqin. destruct (decide (p = q)) as [<-|Hne].
    + exists tx'. rewrite Hheap, lookup_insert_eq. auto.
    + destruct (Hh q Hqin) as (t & Ht & Hstate). exists t.
      rewrite Hheap, lookup_insert_ne by done. split; [done|].
      assert (tx_ID t ≠ tx_ID tx) as Hneq.
      { intros Heq. apply Hne. apply (Hu p q (tx_ID tx)); unfold has_id; eauto. }
      destruct (Hother _ Hneq) as [Hpe Hco].
      destruct Hstate; [eapply StPending|eapply StConfirmed|eapply StRejected]; congruence.
  - intros id. rewrite Hse. by setoid_rewrite Hhas.
  - intros q q' id. rewrite !Hhas. eauto.
  - intros id q Hid'. rewrite Hhas. destruct (decide (id = tx_ID tx)) as [->|Hneq].
    + apply Hq in Hid' as ->. split; [done|]. exists tx. auto.
    + destruct (Hother _ Hneq) as [Hpe Hco]. rewrite Hpe, Hco in Hid'. auto.
Qed.

(** A new object joins the history as pending. *)
Lemma lifecycle_submit l p tx now s n :
  lifecycle l → heap l !! p = Some tx → tx_ID tx ∉ seen l →
  let l' := mkLedger (<[p := set_submitted n now tx]> (heap l))
              (<[tx_From tx := set_nonce n s]> (validators l)) (<[tx_ID tx := p]> (pending l)) (confirmed l)
              (allTxs l ++ [p]) ({[tx_ID tx]} ∪ seen l) (currentRound l) in
  pending_ok l' → lifecycle l'.
Proof.
  intros [_ Hh Hse Hu Hnd Htr] Hp Hns l' Hok.
  assert (p ∉ allTxs l) as Hnin.
  { intros Hin. apply Hns, Hse. exists p. unfold has_id; eauto. }
  assert (∀ q id, has_id l' q id ↔ has_id l q id) as Hhas by (intros; by apply (has_id_insert l l' p tx (set_submitted n now tx))).
  assert (confirmed l !! tx_ID tx = None) as Hnc.
  { destruct (confirmed l !! tx_ID tx) as [q|] eqn:E; [|done]. destruct Hns. apply Hse.
    exists q. apply Htr. auto. }
  constructor; simpl; auto.
  - intros q [Hq| ->%list_elem_of_singleton]%elem_of_app.
    + destruct (Hh q Hq) as (t & Ht & Hst). exists t.
      rewrite lookup_insert_ne by (intros <-; done). split; [done|].
      assert (tx_ID t ≠ tx_ID tx) as Hne.
      { intros Heq. apply Hns, Hse. exists q. split; [done|]. exists t. auto. }
      destruct Hst; [eapply StPending|eapply StConfirmed|eapply StRejected]; simpl;
        rewrite ?lookup_insert_ne by done; done.
    + exists (set_submitted n now tx). rewrite lookup_insert_eq. split; [done|].
      eapply StPending; simpl; rewrite ?lookup_insert_eq; done.
  - intros id. rewrite elem_of_union, elem_of_singleton, Hse. setoid_rewrite Hhas.
    setoid_rewrite elem_of_app. setoid_rewrite list_elem_of_singleton. unfold has_id. split.
    + intros [->|(q & ? & ?)]; [exists p; eauto|exists q; eauto].
    + intros (q & [?| ->] & t & ? & ?); [right; exists q; eauto|left; congruence].
  - intros q q' id. rewrite !elem_of_app, !list_elem_of_singleton, !Hhas.
    assert (∀ r, r ∈ allTxs l → has_id l r id → has_id l p id → False) as Hno.
    { intros r Hr Hid (t & ? & ?). apply Hns. simplify_eq. apply Hse. eauto. }
    intros [?| ->] [?| ->] ? ?; eauto; exfalso; eauto.
  - apply NoDup_app. split_and!; [done| |apply NoDup_singleton].
    intros q Hq ->%list_elem_of_singleton. done.
  - intros id q. rewrite Hhas, elem_of_app, list_elem_of_singleton.
    intros [[[<- <-]|[? ?]]%lookup_insert_Some|?].
    + split; [auto|]. exists tx. auto.
    + edestruct (Htr id q); auto.
    + edestruct (Htr id q); auto.
Qed.

Lemma lifecycle_pending l id p tx : lifecycle l → pending l !! id = Some p → heap l !! p = Some tx →
  p ∈ allTxs l ∧ tx_ID tx = id ∧ tx_Status tx = TxPending ∧ confirmed l !! id = None.
Proof.
  intros Hlc Hp Htx. destruct (lc_tracked l Hlc id p) as [Hin (t & ? & Hid)]; [auto|]. simplify_eq.
  destruct (lc_hist l Hlc p Hin) as (t & ? & Hst). simplify_eq.
  destruct Hst; simplify_eq; done.
Qed.

Lemma lifecycle_confirmed l id p tx : lifecycle l → confirmed l !! id = Some p → heap l !! p = Some tx →
  p ∈ allTxs l ∧ tx_ID tx = id ∧ tx_Status tx = TxConfirmed ∧ pending l !! id = None.
Proof.
  intros Hlc Hp Htx. destruct (lc_tracked l Hlc id p) as [Hin (t & ? & Hid)]; [auto|]. simplify_eq.
  destruct (lc_hist l Hlc p Hin) as (t & ? & Hst). simplify_eq.
  destruct Hst; simplify_eq; done.
Qed.

Lemma lifecycle_confirmed_heap l id p : lifecycle l → confirmed l !! id = Some p →
  ∃ tx, heap l !! p = Some tx ∧ tx_ID tx = id.
Proof. intros Hlc Hp. destruct (lc_tracked l Hlc id p) as [_ ?]; auto. Qed.

Lemma exec_lifecycle o l : checked_op o = true → lifecycle l → lifecycle (exec o l).
Proof.
  intros Hc Hlc. pose proof (lc_pending l Hlc) as Hok. pose proof (exec_pending_ok o l Hok) as Hok'.
  destruct o as [t|now p|now p|id|now f v|msg|id rid]; simpl in *; try done.
  - (* a fresh object: the history does not point to it *)
    pose proof (fresh_heap l) as Hfr. destruct Hlc as [_ Hh Hse Hu Hnd Htr].
    assert (∀ q id, q ∈ allTxs l → has_id (new_tx t l).1 q id ↔ has_id l q id) as Hhas.
    { intros q id Hq. destruct (Hh q Hq) as (t' & Ht' & _). unfold has_id; simpl.
      by rewrite lookup_insert_ne by (intros <-; congruence). }
    constructor; simpl; auto.
    + intros q Hq. destruct (Hh q Hq) as (t' & Ht' & Hst). exists t'.
      rewrite lookup_insert_ne by (intros <-; congruence). split; [done|].
      destruct Hst; [by eapply StPending|by eapply StConfirmed|by eapply StRejected].
    + intros id. rewrite Hse. split; intros (q & Hq & ?); exists q; (split; [done|]); by apply Hhas.
    + intros p q id Hp Hq. rewrite !Hhas by done. eauto.
    + intros id p Hp. destruct (Htr id p Hp). split; [done|]. by apply Hhas.
  - destruct (SubmitTransactionIfAbsent_spec now p l) as [| |tx l' r r' ? ? Hsp ?]; try done.
    destruct Hsp; [done|]. simplify_eq. by eapply lifecycle_submit.
  - destruct (CleanupPending_spec id l Hok) as [|p tx s Hp Htx Hid Hs]; [done|].
    destruct (lifecycle_pending l id p tx) as (Hin & _ & _ & Hnc); try done. subst id.
    eapply (lifecycle_update l _ p tx (set_status TxRejected tx)); try done; simpl.
    + intros id ?. by rewrite lookup_delete_ne.
    + intros q. rewrite lookup_delete_eq. naive_solver congruence.
    + eapply StRejected; simpl; rewrite ?lookup_delete_eq; done.
  - destruct (ProposeBlock_frame now f v l) as [r Hl]. rewrite Hl in *.
    destruct Hlc as [_ Hh Hse Hu Hnd Htr]. constructor; simpl; auto.
    intros q Hq. destruct (Hh q Hq) as (t' & Ht' & Hst). exists t'. split; [done|].
    destruct Hst; [by eapply StPending|by eapply StConfirmed|by eapply StRejected].
  - destruct (Commit_spec msg l Hok) as [|p tx s Hp Htx Hid|p tx s r vs1 vs2 Hp Htx Hid]; [done| |];
      (destruct (lifecycle_pending l _ p tx Hlc Hp Htx) as (Hin & _ & _ & Hnc)); rewrite <- Hid in *.
    + eapply (lifecycle_update l _ p tx (set_status TxRejected tx)); try done; simpl.
      * intros id ?. by rewrite lookup_delete_ne.
      * intros q. rewrite lookup_delete_eq. naive_solver congruence.
      * eapply StRejected; simpl; rewrite ?lookup_delete_eq; done.
    + eapply (lifecycle_update l _ p tx (set_status TxConfirmed tx)); try done; simpl.
      * intros id ?. by rewrite lookup_delete_ne, lookup_insert_ne.
      * intros q. rewrite lookup_delete_eq, lookup_insert_eq. naive_solver congruence.
      * eapply StConfirmed; simpl; rewrite ?lookup_delete_eq, ?lookup_insert_eq; done.
  - destruct (AttachReceipt_spec id rid l) as [|p tx Hp Htx Hr]; [done|].
    destruct (lifecycle_confirmed l id p tx) as (Hin & <- & Hst & Hnp); try done.
    eapply (lifecycle_update l _ p tx (set_receipt rid tx)); try done; simpl.
    + intros q [|]; congruence.
    + by eapply StConfirmed.
Qed.

Lemma NewLedger_lifecycle vs : lifecycle (NewLedger vs).
Proof.
  constructor; simpl.
  - apply NewLedger_pending_ok.
  - intros p Hp. by apply not_elem_of_nil in Hp.
  - intros id. split; [intros Hid; by apply not_elem_of_empty in Hid|].
    intros (p & Hp & _). by apply not_elem_of_nil in Hp.
  - intros p q id Hp. by apply not_elem_of_nil in Hp.
  - constructor.
  - intros id p. rewrite !lookup_empty. naive_solver.
Qed.

Lemma settled_same l l' id cur : lifecycle l → heap_ext l l' → confirmed l' = confirmed l →
  settled l' id cur = settled l id cur.
Proof.
  intros Hlc Hext Hco. unfold settled. rewrite Hco. symmetry. apply msum_ext. intros k p Hp.
  destruct (lifecycle_confirmed_heap l k p Hlc Hp) as (tx & Htx & _).
  destruct (Hext p tx Htx) as (tx' & Htx' & Hc). rewrite Htx, Htx'. symmetry. by apply core_delta.
Qed.

Lemma exec_settled o l id cur : checked_op o = true → lifecycle l → solvent (validators l) →
  balance (validators (exec o l)) id cur - settled (exec o l) id cur =
  balance (validators l) id cur - settled l id cur.
Proof.
  intros Hc Hlc Hs. pose proof (lc_pending l Hlc) as Hok. pose proof (exec_heap_ext o l Hok) as Hext.
  destruct o as [t|now p|now p|i|now f v|msg|i rid]; simpl in *; try done.
  - by rewrite (settled_same l).
  - destruct (SubmitTransactionIfAbsent_spec now p l) as [| |tx l' r r' ? ? Hsp ?]; try done.
    destruct Hsp; [done|]. rewrite (settled_same l) by done. simpl. by rewrite balance_set_nonce.
  - destruct (CleanupPending_spec i l Hok); [done|].
    rewrite (settled_same l) by done. simpl. by rewrite balance_set_nonce.
  - destruct (ProposeBlock_frame now f v l) as [r Hl]. rewrite Hl in *. by rewrite (settled_same l).
  - destruct (Commit_spec msg l Hok) as [|p tx s Hp Htx Hid|p tx s r vs1 vs2 Hp Htx Hid]; [done| |].
    + by rewrite (settled_same l).
    + destruct (lifecycle_pending l _ p tx Hlc Hp Htx) as (Hin & _ & _ & Hnc).
      set (h := upd_heap (<[p := set_status TxConfirmed tx]>) l).
      assert (settled h id cur = settled l id cur) as Hh by (by apply settled_same).
      simpl. rewrite (transfer_balance (validators l) tx s r vs1 vs2) by done.
      unfold settled in *; simpl in *.
      rewrite msum_insert_None, lookup_insert_eq by done. fold h. rewrite Hh.
      unfold delta; simpl. lia.
  - destruct (AttachReceipt_spec i rid l); [done|]. by rewrite (settled_same l).
Qed.

Lemma checked_lifecycle l l' : rtc checked_step l l' → lifecycle l → lifecycle l'.
Proof.
  induction 1 as [|l0 l1 l2 (o & Hc & ->) _ IH]; [done|]. intros Hlc. by apply IH, exec_lifecycle.
Qed.

Lemma checked_step_invariant l l' : rtc checked_step l l' → lifecycle l → solvent (validators l) →
  lifecycle l' ∧ solvent (validators l') ∧
  ∀ id cur, balance (validators l') id cur - settled l' id cur = balance (validators l) id cur - settled l id cur.
Proof.
  induction 1 as [|l l1 l' (o & Hc & ->) _ IH]; intros Hlc Hs; [done|].
  destruct (exec_solvent o l (lc_pending l Hlc) Hs) as [Hs1 _].
  destruct IH as (? & ? & Hb); [by apply exec_lifecycle|done|].
  split_and!; [done..|]. intros id cur. rewrite Hb. by apply exec_settled.
Qed.

(** ** Confirmed transactions *)
(** [AttachReceipt] is the only operation that changes a confirmed object. *)
Definition attaches (o : ledger_op) : bool := match o with OpAttach _ _ => true | _ => false end.

Lemma exec_confirmed o l id p tx : checked_op o = true → lifecycle l →
  confirmed l !! id = Some p → heap l !! p = Some tx →
  confirmed (exec o l) !! id = Some p ∧
  ∃ tx', heap (exec o l) !! p = Some tx' ∧
         tx' = set_receipt (tx_ReceiptID tx') tx ∧ (tx_ReceiptID tx ≠ "" → tx' = tx) ∧
         (attaches o = false → tx' = tx).
Proof.
  intros Hc Hlc Hp Htx. pose proof (lc_pending l Hlc) as Hok.
  destruct (lifecycle_confirmed l id p tx Hlc Hp Htx) as (Hin & Hid & Hst & Hnp).
  assert (tx = set_receipt (tx_ReceiptID tx) tx) as Hself by (by destruct tx).
  assert (∀ q t' : _, pending l !! m_TxID t' = Some q → q ≠ p) as Hpc.
  { intros q t' Hq ->. destruct (lc_tracked l Hlc (m_TxID t') p) as [_ (t & ? & ?)]; [auto|]. congruence. }
  destruct o as [t|now q|now q|i|now f v|msg|i rid]; simpl; try done.
  - split; [done|]. exists tx. rewrite lookup_insert_ne; [auto 8|].
    intros <-. by rewrite fresh_heap in Htx.
  - destruct (SubmitTransactionIfAbsent_spec now q l) as [| |t l' r r' Hq Hns Hsp ?]; [eauto 8..|].
    destruct Hsp; [eauto 8|]. simpl. split; [done|]. exists tx. rewrite lookup_insert_ne; [auto 8|].
    intros ->. simplify_eq. apply Hns, (lc_seen l Hlc). exists p. unfold has_id. eauto 8.
  - destruct (CleanupPending_spec i l Hok) as [|q t s Hq Ht]; [eauto 8|]. simpl. split; [done|]. exists tx.
    rewrite lookup_insert_ne; [auto 8|]. exact (Hpc q (mkMsg "" i "" 0 "" 0) Hq).
  - destruct (ProposeBlock_frame now f v l) as [r ->]. eauto 8.
  - destruct (Commit_spec msg l Hok) as [|q t s Hq Ht|q t s r vs1 vs2 Hq Ht Hidt]; [eauto 8| |]; simpl.
    + split; [done|]. exists tx. rewrite lookup_insert_ne; eauto 8.
    + split; [|exists tx; rewrite lookup_insert_ne; eauto 8].
      rewrite lookup_insert_ne; [done|]. intros <-. congruence.
  - destruct (AttachReceipt_spec i rid l) as [|q t Hq Ht Hr]; [eauto 8|]. simpl. split; [done|].
    destruct (decide (q = p)) as [->|]; [|rewrite lookup_insert_ne by done; eauto 8].
    rewrite lookup_insert_eq. simplify_eq. eexists. split_and!; [done..| |done]. congruence.
Qed.

Lemma steps_confirmed l l' id p tx : rtc checked_step l l' → lifecycle l →
  confirmed l !! id = Some p → heap l !! p = Some tx →
  confirmed l' !! id = Some p ∧
  ∃ tx', heap l' !! p = Some tx' ∧
         tx' = set_receipt (tx_ReceiptID tx') tx ∧ (tx_ReceiptID tx ≠ "" → tx' = tx).
Proof.
  intros Hrt. revert tx. induction Hrt as [l|l l1 l' (o & Hc & ->) _ IH]; intros tx Hlc Hp Htx.
  { split; [done|]. exists tx. split_and!; [done|by destruct tx|done]. }
  destruct (exec_confirmed o l id p tx Hc Hlc Hp Htx) as (Hp1 & tx1 & Htx1 & He1 & Hr1 & _).
  destruct (IH tx1 (exec_lifecycle o l Hc Hlc) Hp1 Htx1) as (Hp2 & tx2 & Htx2 & He2 & Hr2).
  split; [done|]. exists tx2. split_and!; [done| |].
  - rewrite He2 at 1. rewrite He1. done.
  - intros Hne. rewrite Hr1 in Hr2 by done. auto.
Qed.

(** A check of [solvent] that evaluates: every balance between zero and [b], and
    room for the sum. *)
Definition solvent_check (b : Z) (vs : gmap string ValidatorState) : bool :=
  bool_decide (map_Forall (λ _ v, map_Forall (λ _ z, 0 ≤ z ≤ b) (v_Balance v)) vs) &&
  bool_decide (0 ≤ b ∧ Z.of_nat (size vs) * b < 2 ^ 63).

Lemma solvent_check_sound b vs : solvent_check b vs = true → solvent vs.
Proof.
  unfold solvent_check. intros Hc. zbool. destruct H0 as [Hb Hsz]. intros cur.
  assert (∀ id v, vs !! id = Some v → 0 ≤ bal v cur ≤ b) as Hbal.
  { intros id v Hv. unfold bal. destruct (v_Balance v !! cur) as [z|] eqn:Hz; simpl; [|lia].
    exact (H id v Hv cur z Hz). }
  split; [naive_solver|].
  eapply Z.le_lt_trans; [apply (msum_le_bound _ vs b); naive_solver|done].
Qed.

(** ** Properties *)

(** C9. Money is conserved.  Start from any validators whose balances are
    non-negative and whose sum per currency fits an [int64]; after any sequence
    of ledger operations, in any order and with any arguments (submissions that
    replay identifiers included), the sum of every currency is what it was at
    the start, and every balance lies between zero and that sum: no operation
    creates, destroys or overdraws money and the 64-bit arithmetic never wraps. *)
Theorem ledger_conservation (vs : list ValidatorState) (l : Ledger) (id cur : string) :
  solvent (validators (NewLedger vs)) →
  rtc step (NewLedger vs) l →
  total cur (validators l) = total cur (validators (NewLedger vs)) ∧
  0 ≤ GetBalance id cur l ≤ total cur (validators (NewLedger vs)).
Proof.
  intros Hs Hrt.
  destruct (step_invariant _ _ Hrt (NewLedger_pending_ok vs) Hs) as (_ & Hs' & _ & Ht).
  split; [done|]. rewrite <- Ht. rewrite GetBalance_balance. unfold balance, total.
  destruct (Hs' cur) as [Hnn _]. destruct (validators l !! id) as [v|] eqn:Hv.
  - split; [by eapply Hnn|]. by apply (msum_lookup_le (λ v, bal v cur) _ id v).
  - split; [done|]. by apply msum_nonneg.
Qed.

(** The balance sheet is the replay of the confirmed transactions.  For a
    ledger driven by the operations behind the HTTP handlers, the balance of
    every account in every currency is its initial balance plus the credits
    and minus the debits of exactly the transactions in [confirmed], each counted
    once. *)
Theorem ledger_balances_explained (vs : list ValidatorState) (l : Ledger) (id cur : string) :
  solvent (validators (NewLedger vs)) →
  rtc checked_step (NewLedger vs) l →
  GetBalance id cur l = GetBalance id cur (NewLedger vs) + settled l id cur.
Proof.
  intros Hs Hrt.
  destruct (checked_step_invariant _ _ Hrt (NewLedger_lifecycle vs) Hs) as (_ & _ & Hb).
  specialize (Hb id cur). unfold settled in Hb at 2. simpl in Hb. rewrite msum_empty in Hb.
  rewrite !GetBalance_balance. simpl. lia.
Qed.

(** Without replays the two ways to submit agree. *)
Lemma no_replay_submit now p l : no_replay (OpSubmit now p) l → exec (OpSubmit now p) l = exec (OpSubmitIfAbsent now p) l.
Proof.
  intros Hf. simpl in *. unfold SubmitTransaction, SubmitTransactionIfAbsent.
  destruct (heap l !! p) as [tx|] eqn:Hp; [|unfold submitLocked; by rewrite Hp].
  rewrite bool_decide_false by auto. by destruct (submitLocked now p l) as [l' []].
Qed.

Lemma guarded_checked l l' : guarded_step l l' → checked_step l l'.
Proof.
  intros (o & Hf & ->). destruct o as [t|now p|now p|id|now first v|msg|id rid].
  2: { exists (OpSubmitIfAbsent now p). split; [done|]. by apply no_replay_submit. }
  all: eexists; split; [|reflexivity]; done.
Qed.

(** C14. Transaction lifecycle.  In a ledger driven by any of its operations, in
    any order, in which [SubmitTransaction] is never given an identifier that was
    submitted before, every object of the history is in exactly one state, its
    status field agrees with the map that holds it (pending, confirmed, or
    neither when rejected), no two history entries share an identifier, and an
    identifier is marked seen exactly when the history has it.  The condition is
    needed: [SubmitTransaction], behind [RunRound] and [ProposeSettlement], does
    not consult [seen], and [run_round_replays] shows a replay going through;
    [SubmitTransactionIfAbsent], behind the HTTP handlers, needs no condition. *)
Theorem ledger_lifecycle (vs : list ValidatorState) (l : Ledger) :
  rtc guarded_step (NewLedger vs) l → lifecycle l.
Proof.
  intros Hrt. eapply checked_lifecycle; [|apply NewLedger_lifecycle]. eapply rtc_subrel; [|exact Hrt]. apply guarded_checked.
Qed.

(** Settlement is final.  Once a transaction is confirmed, whatever the
    engine does afterwards, [GetTransaction] keeps returning it with every field
    unchanged but possibly the receipt, and a receipt once attached never
    changes. *)
Theorem confirmed_is_final (l l' : Ledger) (id : string) (tx : Transaction) :
  lifecycle l → rtc checked_step l l' →
  GetTransaction id l = Some tx → tx_Status tx = TxConfirmed →
  ∃ tx', GetTransaction id l' = Some tx' ∧
         tx' = set_receipt (tx_ReceiptID tx') tx ∧
         (tx_ReceiptID tx ≠ "" → tx' = tx).
Proof.
  intros Hlc Hrt Hget Hst. unfold GetTransaction, deref in *.
  destruct (confirmed l !! id) as [p|] eqn:Hp; simpl in *.
  - destruct (lifecycle_confirmed_heap l id p Hlc Hp) as (t & Ht & _). rewrite Ht in Hget. simplify_eq.
    destruct (steps_confirmed l l' id p tx Hrt Hlc Hp Ht) as (Hp' & tx' & Htx' & He & Hr).
    exists tx'. rewrite Hp'; simpl. rewrite Htx'. auto.
  - destruct (pending l !! id) as [p|] eqn:Hpe; simpl in *; [|done].
    destruct (lifecycle_pending l id p tx Hlc Hpe Hget) as (_ & _ & Hst' & _). rewrite Hst' in Hst. done.
Qed.

Lemma pending_parties l id p tx : pending_ok l → pending l !! id = Some p → heap l !! p = Some tx →
  tx_ID tx = id ∧ 0 < tx_Amount tx ∧
  is_Some (validators l !! tx_From tx) ∧ is_Some (validators l !! tx_To tx).
Proof. intros Hok Hp Htx. destruct (Hok id p Hp) as (t & ? & ?). by simplify_eq. Qed.

(** The credit of [Commit] is not checked against the range of [int64].  When
    the recipient's balance plus the amount exceeds the largest [int64], a
    commit that succeeds leaves the recipient with the wrapped, negative
    balance: [2^64] units of money disappear.  [submitLocked] and [Vote] check
    the sender's balance only, so nothing prevents it. *)
Theorem commit_credit_overflow (l : Ledger) (msg : ConsensusMessage) (p : loc) (tx : Transaction) :
  pending_ok l → pending l !! m_TxID msg = Some p → heap l !! p = Some tx →
  tx_From tx ≠ tx_To tx →
  is_i64 (GetBalance (tx_To tx) (tx_Currency tx) l) → is_i64 (tx_Amount tx) →
  2 ^ 63 ≤ GetBalance (tx_To tx) (tx_Currency tx) l + tx_Amount tx →
  (Commit msg l).2 = Ok tt →
  GetBalance (tx_To tx) (tx_Currency tx) (Commit msg l).1 =
    GetBalance (tx_To tx) (tx_Currency tx) l + tx_Amount tx - 2 ^ 64 ∧
  GetBalance (tx_To tx) (tx_Currency tx) (Commit msg l).1 < 0.
Proof.
  intros Hok Hp Htx Hne Hr Ha Hover Hres.
  destruct (pending_parties l _ p tx Hok Hp Htx) as (Hid & Hpos & _ & _).
  destruct (Commit_spec msg l Hok) as [|q t s Hq Ht|q t s r vs1 vs2 Hq Ht Hidt Hs Hamt Hvs1 Hrl Hvs2]; try done.
  simplify_eq. rewrite !GetBalance_balance in *. simpl.
  rewrite balance_insert, decide_True by done. rewrite bal_set_balance, decide_True by done.
  assert (balance (validators l) (tx_To tx) (tx_Currency tx) = bal r (tx_Currency tx)) as Hb.
  { unfold balance. rewrite lookup_insert_ne in Hrl by done. by rewrite Hrl. }
  rewrite Hb in *. unfold is_i64 in *. unfold i64.
  replace (bal r (tx_Currency tx) + tx_Amount tx + 2 ^ 63)
    with (bal r (tx_Currency tx) + tx_Amount tx - 2 ^ 63 + 1 * 2 ^ 64) by lia.
  rewrite Z_mod_plus_full, Z.mod_small by lia. lia.
Qed.

(** ** Witnesses *)
Definition run (ops : list ledger_op) (l : Ledger) : Ledger := foldl (λ l o, exec o l) l ops.

Lemma run_steps ops l : rtc step l (run ops l).
Proof.
  revert l. induction ops as [|o ops IH]; intros l; [constructor|].
  eapply rtc_l; [by exists o|apply IH].
Qed.

Lemma run_checked ops l : forallb checked_op ops = true → rtc checked_step l (run ops l).
Proof.
  revert l. induction ops as [|o ops IH]; intros l; [constructor|].
  intros [Ho Hops]%andb_true_iff. eapply rtc_l; [by exists o|by apply IH].
Qed.

Fixpoint all_fresh (ops : list ledger_op) (l : Ledger) : Prop :=
  match ops with [] => True | o :: ops' => no_replay o l ∧ all_fresh ops' (exec o l) end.

Lemma run_guarded ops l : all_fresh ops l → rtc guarded_step l (run ops l).
Proof.
  revert l. induction ops as [|o ops IH]; intros l; [constructor|].
  intros [Ho Hops]. eapply rtc_l; [by exists o|by apply IH].
Qed.

Lemma run_lifecycle vs ops : forallb checked_op ops = true → lifecycle (run ops (NewLedger vs)).
Proof.
  intros Hops. by eapply checked_lifecycle; [apply run_checked|apply NewLedger_lifecycle].
Qed.

(** The topology of [validators.yaml]. *)
Definition demo_validators : list ValidatorState :=
  [ mkVal "CH" "1-ff00:0:111,[127.0.0.1]:30100" (<["CHF" := 10000]> {["EUR" := 5000]}) 0;
    mkVal "EU" "2-ff00:0:211,[127.0.0.1]:30200" (<["CHF" := 5000]> {["EUR" := 10000]}) 0;
    mkVal "X" "3-ff00:0:310,[127.0.0.1]:30300" (<["CHF" := 1000]> {["EUR" := 1000]}) 0 ].

Definition demo_tx (id from to : string) (amt : Z) : Transaction :=
  mkTx id from to amt "CHF" "chf-eur-settlement-v1" "fp" "digest" "" "" zero_time 0.

Definition commit_of (id : string) : ConsensusMessage := mkMsg MsgCommit id "CH" 1 "" 0.

Definition demo_ops : list ledger_op :=
  [ OpNew (demo_tx "tx-1" "CH" "EU" 100); OpSubmitIfAbsent 7 0%nat;
    OpPropose 8 "tx-1" "CH"; OpCommit (commit_of "tx-1");
    OpNew (demo_tx "tx-2" "EU" "EU" 40); OpSubmitIfAbsent 9 1%nat; OpCleanup "tx-2";
    OpAttach "tx-1" "r-1" ].

Lemma demo_solvent : solvent (validators (NewLedger demo_validators)).
Proof. apply (solvent_check_sound 1000000). vm_compute. reflexivity. Qed.

Lemma ledger_conservation_witness :
  let l := run (OpNew (demo_tx "tx-3" "CH" "X" 5) :: OpSubmit 1 0%nat :: demo_ops) (NewLedger demo_validators) in
  total "CHF" (validators l) = total "CHF" (validators (NewLedger demo_validators)) ∧
  0 ≤ GetBalance "EU" "CHF" l ≤ total "CHF" (validators (NewLedger demo_validators)).
Proof. intros l. apply ledger_conservation; [apply demo_solvent|apply run_steps]. Defined.

Lemma ledger_balances_explained_witness :
  let l := run demo_ops (NewLedger demo_validators) in
  GetBalance "EU" "CHF" l = GetBalance "EU" "CHF" (NewLedger demo_validators) + settled l "EU" "CHF" ∧
  GetBalance "EU" "CHF" l = 5100.
Proof.
  intros l. split; [|vm_compute; reflexivity].
  apply ledger_balances_explained; [apply demo_solvent|by apply run_checked].
Defined.

(** The same with [SubmitTransaction] for the first transaction. *)
Definition unchecked_ops : list ledger_op :=
  OpNew (demo_tx "tx-1" "CH" "EU" 100) :: OpSubmit 7 0%nat :: drop 2 demo_ops.

Lemma ledger_lifecycle_witness :
  let l := run unchecked_ops (NewLedger demo_validators) in
  lifecycle l ∧ map (option_map tx_Status) (ListTransactions l) = [Some TxConfirmed; Some TxRejected].
Proof.
  intros l. split; [|vm_compute; reflexivity].
  apply (ledger_lifecycle demo_validators), run_guarded.
  split; [exact I|]. split; [|vm_compute; tauto]. intros tx Htx. injection Htx as <-. apply not_elem_of_empty.
Defined.

Lemma confirmed_is_final_witness :
  let l := run (take 4 demo_ops) (NewLedger demo_validators) in
  let l' := run (drop 4 demo_ops) l in
  ∃ tx tx', GetTransaction "tx-1" l = Some tx ∧ GetTransaction "tx-1" l' = Some tx' ∧
    tx' = set_receipt (tx_ReceiptID tx') tx ∧ tx_ReceiptID tx' = "r-1".
Proof.
  intros l l'. destruct (confirmed_is_final l l' "tx-1" (default (rejected_stub "") (GetTransaction "tx-1" l)))
    as (tx' & Hg & He & _).
  - by apply run_lifecycle.
  - by apply run_checked.
  - vm_compute. reflexivity.
  - vm_compute. reflexivity.
  - eexists _, tx'. split_and!; [vm_compute; reflexivity|exact Hg|exact He|].
    revert Hg. vm_compute. by intros [= <-].
Defined.

Definition rich_validators : list ValidatorState :=
  [ mkVal "CH" "" {["CHF" := 10]} 0; mkVal "EU" "" {["CHF" := 2 ^ 63 - 1]} 0 ].

Lemma commit_credit_overflow_witness :
  let l := run [OpNew (demo_tx "tx-1" "CH" "EU" 1); OpSubmitIfAbsent 7 0%nat] (NewLedger rich_validators) in
  GetBalance "EU" "CHF" l = 2 ^ 63 - 1 ∧ GetBalance "EU" "CHF" (Commit (commit_of "tx-1") l).1 = - 2 ^ 63.
Proof.
  intros l. split; [vm_compute; reflexivity|].
  destruct (commit_credit_overflow l (commit_of "tx-1") 0%nat (set_submitted 1 7 (demo_tx "tx-1" "CH" "EU" 1)))
    as [Heq _]; try (vm_compute; congruence).
  - apply lc_pending. by apply run_lifecycle.
  - unfold is_i64. vm_compute. split; congruence.
  - unfold is_i64. vm_compute. split; congruence.
Defined.
