(* ===== verification/Consensus.v ===== *)
(** * The consensus engine

    [src/internal/dlt/consensus.go]: propose, vote and commit over one ledger,
    every round under the engine's mutex.  The transport a
    [ConsensusEngine] holds is not used by these rounds, as the comment of
    [proposeVoteCommitLocked] says. *)

From S2P Require Import Prelude Ledger.

(** The pair of a result pointer and an error; [None] is the nil pointer. *)
Abbreviation round_out := (option ConsensusResult * res ledger_err unit)%type.

(** [ballot := *proposal; ballot.ValidatorID = v.ID] *)
Definition ballot_for (id : string) (m : ConsensusMessage) : ConsensusMessage :=
  mkMsg (m_Type m) (m_TxID m) id (m_Round m) (m_Payload m) (m_Timestamp m).

(** The vote loop; the [i]-th vote reads the clock at [clk i]. *)
Fixpoint collect_votes (clk : clock) (i : nat) (proposal : ConsensusMessage)
    (vals : list ValidatorState) (l : Ledger) (yes : Z) : res ledger_err Z :=
  match vals with
  | [] => Ok yes
  | v :: vals' =>
    match Vote (clk i) (ballot_for (v_ID v) proposal) l with
    | Panic => Panic
    | Err _ => collect_votes clk (S i) proposal vals' l yes
    | Ok vote =>
      collect_votes clk (S i) proposal vals' l
        (if bool_decide (m_Payload vote = "yes") then yes + 1 else yes)
    end
  end.

(** [proposeVoteCommitLocked]; [txID] is [tx.ID] and [first] the key that the
    iteration of [ProposeBlock] yields. *)
Definition proposeVoteCommitLocked (clk : clock) (first : string) (vals : list ValidatorState)
    (txID : string) (l : Ledger) : Ledger * round_out :=
  match vals with
  | [] => (CleanupPending txID l, (Some (mkCR false 0 0 txID), Err NoValidatorsConfigured))
  | v0 :: _ =>
    let proposer := v_ID v0 in
    match ProposeBlock (clk 0%nat) first proposer l with
    | (l1, Panic) => (l1, (None, Panic))
    | (l1, Err e) => (CleanupPending txID l1, (Some (mkCR false 0 0 txID), Err e))
    | (l1, Ok proposal) =>
      let totalVotes := Z.of_nat (length vals) in
      match collect_votes clk 1 proposal vals l1 0 with
      | Panic => (l1, (None, Panic))
      | Err e => (l1, (None, Err e))
      | Ok yesVotes =>
        let majority := totalVotes `quot` 2 + 1 in
        if majority <=? yesVotes then
          match Commit (mkMsg MsgCommit txID proposer (m_Round proposal) "" zero_time) l1 with
          | (l2, Panic) => (l2, (None, Panic))
          | (l2, Err e) =>
            (CleanupPending txID l2, (Some (mkCR false (m_Round proposal) yesVotes txID), Err e))
          | (l2, Ok _) => (l2, (Some (mkCR true (m_Round proposal) yesVotes txID), Ok tt))
          end
        else
          (CleanupPending txID l1, (Some (mkCR false (m_Round proposal) yesVotes txID), Ok tt))
      end
    end
  end.

Definition RunRound (clk : clock) (first : string) (vals : list ValidatorState) (p : loc) (l : Ledger) :
    Ledger * round_out :=
  match heap l !! p with
  | None => (l, (None, Panic))
  | Some tx =>
    match SubmitTransaction (clk 0%nat) p l with
    | (l1, Panic) => (l1, (None, Panic))
    | (l1, Err e) => (l1, (Some (mkCR false 0 0 (tx_ID tx)), Err e))
    | (l1, Ok _) => proposeVoteCommitLocked (λ i, clk (S i)) first vals (tx_ID tx) l1
    end
  end.

(** [SubmitAndRunRound]: the existing transaction if any, the result and the
    error. *)
Definition SubmitAndRunRound (clk : clock) (first : string) (vals : list ValidatorState) (p : loc) (l : Ledger) :
    Ledger * (option Transaction * round_out) :=
  match heap l !! p with
  | None => (l, (None, (None, Panic)))
  | Some tx =>
    match SubmitTransactionIfAbsent (clk 0%nat) p l with
    | (l1, Panic) => (l1, (None, (None, Panic)))
    | (l1, Err e) => (l1, (None, (None, Err e)))
    | (l1, Ok (Some existing)) => (l1, (Some existing, (None, Ok tt)))
    | (l1, Ok None) =>
      let '(l2, out) := proposeVoteCommitLocked (λ i, clk (S i)) first vals (tx_ID tx) l1 in
      (l2, (None, out))
    end
  end.

Definition RunRoundFromPending (clk : clock) (first : string) (vals : list ValidatorState) (p : loc) (l : Ledger) :
    Ledger * round_out :=
  match heap l !! p with
  | None => (l, (None, Panic))
  | Some tx => proposeVoteCommitLocked clk first vals (tx_ID tx) l
  end.

(** ** The contract: an atomic bank

    What the engine promises to its client: a transaction whose identifier was
    never used and whose parties and funds are in order is settled at once, and
    anything else changes nothing. *)
Record Bank := mkBank { accounts : gmap string (gmap string Z); used : gset string }.

Inductive bank_outcome :=
| Settled
| Duplicate
| Refused (e : ledger_err).

Definition funds (b : gmap string (gmap string Z)) (id cur : string) : Z :=
  default 0 (default ∅ (b !! id) !! cur).

Definition pay (tx : Transaction) (b : gmap string (gmap string Z)) : gmap string (gmap string Z) :=
  let credit amt m := <[tx_Currency tx := default 0 (m !! tx_Currency tx) + amt]> m in
  alter (credit (tx_Amount tx)) (tx_To tx) (alter (credit (- tx_Amount tx)) (tx_From tx) b).

Definition bank_error (tx : Transaction) (b : gmap string (gmap string Z)) : option ledger_err :=
  if decide (tx_From tx ∈ dom b) then
    if decide (tx_To tx ∈ dom b) then
      if tx_Amount tx <=? 0 then Some (AmountNotPositive (tx_Amount tx))
      else if funds b (tx_From tx) (tx_Currency tx) <? tx_Amount tx then
        Some (InsufficientBalance (tx_Currency tx) (funds b (tx_From tx) (tx_Currency tx)) (tx_Amount tx))
      else None
    else Some (UnknownRecipient (tx_To tx))
  else Some (UnknownSender (tx_From tx)).

Definition bank_settle (tx : Transaction) (b : Bank) : Bank * bank_outcome :=
  if decide (tx_ID tx ∈ used b) then (b, Duplicate)
  else match bank_error tx (accounts b) with
       | Some e => (b, Refused e)
       | None => (mkBank (pay tx (accounts b)) ({[tx_ID tx]} ∪ used b), Settled)
       end.

Fixpoint bank_run (txs : list Transaction) (b : Bank) : Bank * list bank_outcome :=
  match txs with
  | [] => (b, [])
  | tx :: txs' => let '(b1, o) := bank_settle tx b in
                  let '(b2, os) := bank_run txs' b1 in (b2, o :: os)
  end.

(** The engine as its client drives it: allocate the transaction, run it. *)
Definition engine_settle (clk : clock) (first : string) (vals : list ValidatorState) (tx : Transaction) (l : Ledger) :
    Ledger * (option Transaction * round_out) :=
  let '(l1, p) := new_tx tx l in SubmitAndRunRound clk first vals p l1.

Definition outcome_of (o : option Transaction * round_out) : option bank_outcome :=
  match o with
  | (Some _, (None, Ok _)) => Some Duplicate
  | (None, (None, Err e)) => Some (Refused e)
  | (None, (Some cr, Ok _)) => if cr_Confirmed cr then Some Settled else None
  | _ => None
  end.

#[global] Arguments outcome_of : simpl never.
#[global] Arguments engine_settle : simpl never.

(** Successive requests, each with its own clock and its own iteration order. *)
Fixpoint engine_run (reqs : list (Transaction * clock * string)) (vals : list ValidatorState) (l : Ledger) :
    Ledger * list (option bank_outcome) :=
  match reqs with
  | [] => (l, [])
  | (tx, clk, first) :: reqs' =>
    let '(l1, o) := engine_settle clk first vals tx l in
    let '(l2, os) := engine_run reqs' vals l1 in (l2, outcome_of o :: os)
  end.

Definition abs (l : Ledger) : Bank := mkBank (v_Balance <$> validators l) (seen l).

(** Between rounds: the lifecycle invariant, nothing pending, and a proposer
    the ledger knows. *)
Record engine_ok (vals : list ValidatorState) (l : Ledger) : Prop := mkEngineOk {
  eo_lifecycle : lifecycle l;
  eo_solvent : solvent (validators l);
  eo_idle : pending l = ∅;
  eo_proposer : ∃ v0 vals', vals = v0 :: vals' ∧ is_Some (validators l !! v_ID v0)
}.

(** ** The abstraction *)
Lemma abs_dom l : dom (accounts (abs l)) = dom (validators l).
Proof. apply dom_fmap_L. Qed.

Lemma abs_funds l id v cur : validators l !! id = Some v → funds (accounts (abs l)) id cur = bal v cur.
Proof. intros Hv. unfold funds, abs; simpl. by rewrite lookup_fmap, Hv. Qed.

Lemma alter_insert_lookup {V} (f : V → V) (m : gmap string V) k x :
  m !! k = Some x → alter f k m = <[k := f x]> m.
Proof.
  intros Hk. apply map_eq. intros i. rewrite lookup_insert. case_decide; subst.
  - by rewrite lookup_alter_eq, Hk.
  - by rewrite lookup_alter_ne.
Qed.

Lemma abs_transfer vs tx s r vs1 vs2 :
  solvent vs → vs !! tx_From tx = Some s → 0 < tx_Amount tx ≤ bal s (tx_Currency tx) →
  vs1 = <[tx_From tx := set_balance (tx_Currency tx) (i64 (bal s (tx_Currency tx) - tx_Amount tx)) s]> vs →
  vs1 !! tx_To tx = Some r →
  vs2 = <[tx_To tx := set_balance (tx_Currency tx) (i64 (bal r (tx_Currency tx) + tx_Amount tx)) r]> vs1 →
  v_Balance <$> vs2 = pay tx (v_Balance <$> vs).
Proof.
  intros Hs Hf Ha Hvs1 Ht Hvs2. subst.
  rewrite (debit_exact vs (tx_From tx)) in * by done. unfold pay.
  rewrite (alter_insert_lookup _ (v_Balance <$> vs) (tx_From tx) (v_Balance s)) by (by rewrite lookup_fmap, Hf).
  erewrite (alter_insert_lookup _ _ (tx_To tx) (v_Balance r)).
  - rewrite !fmap_insert. simpl. unfold bal at 2. f_equal.
    rewrite (credit_exact vs (tx_From tx) (tx_To tx) (tx_Currency tx) (tx_Amount tx) s r); try done.
    by rewrite (debit_exact vs (tx_From tx)).
  - rewrite <- fmap_insert with (f := v_Balance) (x := set_balance (tx_Currency tx) (bal s (tx_Currency tx) - tx_Amount tx) s).
    by rewrite lookup_fmap, Ht.
Qed.

(** ** One round *)
Lemma range_first_singleton first id p : range_first first {[id := p]} = Some p.
Proof.
  unfold range_first. destruct (decide (first = id)) as [->|].
  - by rewrite lookup_singleton_eq.
  - rewrite lookup_singleton_ne by done. by rewrite map_to_list_singleton.
Qed.

Lemma submitLocked_cases now p l tx : heap l !! p = Some tx →
  match bank_error tx (accounts (abs l)) with
  | Some e => submitLocked now p l = (l, Err e)
  | None => ∃ s n, validators l !! tx_From tx = Some s ∧ is_Some (validators l !! tx_To tx) ∧
      0 < tx_Amount tx ≤ bal s (tx_Currency tx) ∧ is_u64 n ∧
      submitLocked now p l =
        (mkLedger (<[p := set_submitted n now tx]> (heap l))
          (<[tx_From tx := set_nonce n s]> (validators l)) (<[tx_ID tx := p]> (pending l)) (confirmed l)
          (allTxs l ++ [p]) ({[tx_ID tx]} ∪ seen l) (currentRound l), Ok tt)
  end.
Proof.
  intros Hp. unfold bank_error, submitLocked. rewrite abs_dom, Hp.
  destruct (validators l !! tx_From tx) as [s|] eqn:Hs.
  2: { rewrite decide_False; [done|]. by apply not_elem_of_dom. }
  rewrite decide_True by (apply elem_of_dom; eauto).
  destruct (validators l !! tx_To tx) as [t|] eqn:Ht.
  2: { rewrite decide_False; [done|]. by apply not_elem_of_dom. }
  rewrite decide_True by (apply elem_of_dom; eauto).
  rewrite (abs_funds l _ s) by done.
  destruct (tx_Amount tx <=? 0) eqn:Ha; [done|].
  destruct (bal s (tx_Currency tx) <? tx_Amount tx) eqn:Hb; [done|].
  zbool. exists s, (u64 (v_Nonce s + 1)). split_and!; eauto with juris; lia.
Qed.

Lemma collect_votes_all clk i proposal vals l p tx s yes :
  m_Type proposal = MsgPropose → pending l !! m_TxID proposal = Some p → heap l !! p = Some tx →
  validators l !! tx_From tx = Some s → tx_Amount tx ≤ bal s (tx_Currency tx) →
  collect_votes clk i proposal vals l yes = Ok (yes + Z.of_nat (length vals)).
Proof.
  intros Hty Hp Htx Hs Hb. revert i yes. induction vals as [|v vals IH]; intros i yes; simpl.
  - f_equal. lia.
  - unfold Vote; simpl. rewrite Hty, Hp, Htx, Hs. simpl.
    rewrite (proj2 (Z.leb_le _ _) Hb). rewrite bool_decide_true by done.
    rewrite IH. f_equal. lia.
Qed.

Lemma majority_le n : 1 ≤ n → n `quot` 2 + 1 ≤ n.
Proof. intros. rewrite Z.quot_div_nonneg by lia. pose proof (Z.div_lt n 2). lia. Qed.

(** The round of the only pending transaction commits it. *)
Lemma round_commits clk first vals l p tx s :
  pending_ok l → solvent (validators l) → pending l = {[tx_ID tx := p]} → heap l !! p = Some tx →
  validators l !! tx_From tx = Some s → tx_Amount tx ≤ bal s (tx_Currency tx) →
  (∃ v0 vals', vals = v0 :: vals' ∧ is_Some (validators l !! v_ID v0)) →
  ∃ l2, proposeVoteCommitLocked clk first vals (tx_ID tx) l =
          (l2, (Some (mkCR true (u64 (currentRound l + 1)) (Z.of_nat (length vals)) (tx_ID tx)), Ok tt)) ∧
        pending l2 = ∅ ∧ seen l2 = seen l ∧ abs l2 = mkBank (pay tx (accounts (abs l))) (seen l) ∧
        confirmed l2 = <[tx_ID tx := p]> (confirmed l) ∧
        heap l2 = <[p := set_status TxConfirmed tx]> (heap l) ∧
        (∀ id cur, GetBalance id cur l2 = GetBalance id cur l + delta tx id cur) ∧
        rtc checked_step l l2.
Proof.
  intros Hlc Hsolv Hpend Htx Hs Hb (v0 & vals' & -> & [w Hw]).
  unfold proposeVoteCommitLocked. set (P := ProposeBlock (clk 0%nat) first (v_ID v0) l).
  set (r := u64 (currentRound l + 1)).
  set (l1 := mkLedger (heap l) (validators l) (pending l) (confirmed l) (allTxs l) (seen l) r).
  assert (P = (l1, Ok (mkMsg MsgPropose (tx_ID tx) (v_ID v0) r "" (clk 0%nat)))) as HP.
  { assert (range_first first (pending l) = Some p) as Hfst by (rewrite Hpend; apply range_first_singleton).
    unfold P, ProposeBlock. by rewrite Hw, Hfst, Htx. }
  assert (pending_ok l1) as Hok1.
  { replace l1 with (exec (OpPropose (clk 0%nat) first (v_ID v0)) l) by (unfold exec; fold P; by rewrite HP).
    by apply exec_pending_ok. }
  rewrite HP.
  rewrite (collect_votes_all clk 1 _ (v0 :: vals') l1 p tx s 0); try done;
    [|simpl; by rewrite Hpend, lookup_singleton_eq].
  rewrite Z.add_0_l.
  rewrite (proj2 (Z.leb_le _ _)) by (apply majority_le; simpl; lia).
  set (msg := mkMsg MsgCommit (tx_ID tx) (v_ID v0) r "" zero_time).
  assert (rtc checked_step l (Commit msg l1).1) as Hrt.
  { eapply rtc_l; [exists (OpPropose (clk 0%nat) first (v_ID v0)); split; [done|reflexivity]|].
    unfold exec; fold P. rewrite HP. apply rtc_once. by exists (OpCommit msg). }
  assert (pending l1 !! m_TxID msg = Some p) as Hp by (simpl; by rewrite Hpend, lookup_singleton_eq).
  pose proof (Commit_spec msg l1 Hok1) as Hc.
  simpl in *. fold msg in Hc |- *. destruct (Commit msg l1) as [l2 rc]; simpl in *.
  destruct Hc as [|q t s' Hq Ht Hidt Hs'|q t s' rcp vs1 vs2 Hq Ht Hidt Hs' Ham Hvs1 Hrl Hvs2];
    simpl in *; simplify_eq; [lia|].
  eexists; split_and!; [reflexivity| |reflexivity| |reflexivity..| |done]; simpl.
  - rewrite Hpend. apply delete_singleton_eq.
  - unfold abs; simpl. f_equal. by eapply abs_transfer.
  - intros id cur. rewrite !GetBalance_balance. simpl. by eapply transfer_balance.
Qed.

Lemma SubmitAndRunRound_duplicate clk first vals p l tx :
  heap l !! p = Some tx → tx_ID tx ∈ seen l →
  ∃ t, SubmitAndRunRound clk first vals p l = (l, (Some t, (None, Ok tt))) ∧
       t = match GetTransaction (tx_ID tx) l with Some t => t | None => rejected_stub (tx_ID tx) end.
Proof.
  intros Hp Hseen. unfold SubmitAndRunRound, SubmitTransactionIfAbsent, GetTransaction.
  rewrite Hp, bool_decide_true by done.
  destruct (deref l (confirmed l) _); [eauto|]. destruct (deref l (pending l) _); eauto.
Qed.

Lemma SubmitAndRunRound_refused clk first vals p l tx e :
  heap l !! p = Some tx → tx_ID tx ∉ seen l → bank_error tx (accounts (abs l)) = Some e →
  SubmitAndRunRound clk first vals p l = (l, (None, (None, Err e))).
Proof.
  intros Hp Hns He. pose proof (submitLocked_cases (clk 0%nat) p l tx Hp) as Hs. rewrite He in Hs.
  unfold SubmitAndRunRound, SubmitTransactionIfAbsent. by rewrite Hp, bool_decide_false, Hs.
Qed.

(** The fresh, valid transaction: it settles. *)
Lemma SubmitAndRunRound_settles clk first vals p l tx :
  engine_ok vals l → heap l !! p = Some tx → tx_ID tx ∉ seen l → bank_error tx (accounts (abs l)) = None →
  ∃ l2 n, SubmitAndRunRound clk first vals p l =
      (l2, (None, (Some (mkCR true (u64 (currentRound l + 1)) (Z.of_nat (length vals)) (tx_ID tx)), Ok tt))) ∧
    engine_ok vals l2 ∧ rtc checked_step l l2 ∧
    abs l2 = mkBank (pay tx (accounts (abs l))) ({[tx_ID tx]} ∪ seen l) ∧
    (∀ id cur, GetBalance id cur l2 = GetBalance id cur l + delta tx id cur) ∧
    GetTransaction (tx_ID tx) l2 = Some (set_status TxConfirmed (set_submitted n (clk 0%nat) tx)).
Proof.
  intros [Hlc Hsolv Hidle Hprop] Hp Hns He.
  pose proof (submitLocked_cases (clk 0%nat) p l tx Hp) as Hs. rewrite He in Hs.
  destruct Hs as (s & n & Hs & [t Ht] & Ham & _ & Hsub).
  set (l1 := mkLedger _ _ _ _ _ _ _) in Hsub. set (tx1 := set_submitted n (clk 0%nat) tx).
  assert (SubmitTransactionIfAbsent (clk 0%nat) p l = (l1, Ok None)) as HS
    by (unfold SubmitTransactionIfAbsent; by rewrite Hp, bool_decide_false, Hsub).
  assert (checked_step l l1) as Hst.
  { exists (OpSubmitIfAbsent (clk 0%nat) p). split; [done|]. unfold exec. by rewrite HS. }
  assert (lifecycle l1) as Hlc1 by (by apply (checked_lifecycle l); [apply rtc_once|]).
  assert (v_Balance <$> validators l1 = v_Balance <$> validators l) as Hbal.
  { simpl. rewrite fmap_insert. apply insert_id. by rewrite lookup_fmap, Hs. }
  destruct (round_commits (λ i, clk (S i)) first vals l1 p tx1 (set_nonce n s))
    as (l2 & HR & Hpe & Hse & Habs & Hco & Hhe & Hbl & Hrt); try done.
  - by apply lc_pending.
  - simpl. by apply solvent_set_nonce.
  - simpl. by rewrite Hidle.
  - simpl. by rewrite lookup_insert_eq.
  - simpl. by rewrite lookup_insert_eq.
  - simpl. rewrite bal_set_nonce. lia.
  - destruct Hprop as (v0 & vals' & -> & Hv0). exists v0, vals'. split; [done|]. simpl.
    rewrite lookup_insert. case_decide; [eauto|done].
  - assert (rtc checked_step l l2) as Hrt2 by (by eapply rtc_l).
    destruct (checked_step_invariant l l2 Hrt2 Hlc Hsolv) as (Hlc2 & Hsolv2 & _).
    exists l2, n. split_and!; try done.
    + unfold SubmitAndRunRound. rewrite Hp, HS. change (tx_ID tx1) with (tx_ID tx) in HR. by rewrite HR.
    + constructor; try done. destruct Hprop as (v0 & vals' & -> & Hv0). exists v0, vals'. split; [done|].
      apply elem_of_dom. assert (accounts (abs l2) = pay tx1 (accounts (abs l1))) as Ha by (by rewrite Habs).
      apply (f_equal dom) in Ha. rewrite abs_dom in Ha. rewrite Ha. unfold pay.
      rewrite !dom_alter_L, abs_dom. simpl. rewrite dom_insert_L. apply elem_of_dom in Hv0. set_solver.
    + rewrite Habs. f_equal. unfold abs, accounts. by rewrite Hbal.
    + intros id cur. rewrite Hbl, !GetBalance_balance. simpl. by rewrite balance_set_nonce.
    + unfold GetTransaction, deref. rewrite Hco, Hhe; simpl. rewrite lookup_insert_eq; simpl.
      by rewrite lookup_insert_eq.
Qed.

Lemma new_tx_engine_ok vals l t : engine_ok vals l → engine_ok vals (new_tx t l).1 ∧ checked_step l (new_tx t l).1.
Proof.
  intros [Hlc Hsolv Hidle Hprop]. assert (checked_step l (new_tx t l).1) by (by exists (OpNew t)).
  split; [|done]. constructor; try done. by apply (checked_lifecycle l); [apply rtc_once|].
Qed.

(** One request refines one step of the bank. *)
Lemma engine_settle_refines clk first vals tx l : engine_ok vals l →
  let '(l', o) := engine_settle clk first vals tx l in
  engine_ok vals l' ∧ abs l' = (bank_settle tx (abs l)).1 ∧ outcome_of o = Some (bank_settle tx (abs l)).2.
Proof.
  intros Hok. unfold engine_settle. destruct (new_tx_engine_ok vals l tx Hok) as [Hok1 _].
  set (l1 := (new_tx tx l).1) in *. set (p := (new_tx tx l).2).
  change (new_tx tx l) with (l1, p). cbv iota beta.
  assert (heap l1 !! p = Some tx) as Hp by apply lookup_insert_eq.
  change (abs l) with (abs l1). change (seen l) with (seen l1). unfold bank_settle.
  case_decide as Hseen.
  - destruct (SubmitAndRunRound_duplicate clk first vals p l1 tx) as (t & -> & _); done.
  - destruct (bank_error tx (accounts (abs l1))) as [e|] eqn:He.
    + by rewrite (SubmitAndRunRound_refused clk first vals p l1 tx e).
    + destruct (SubmitAndRunRound_settles clk first vals p l1 tx) as (l2 & n & -> & ? & _ & ? & _); done.
Qed.

Lemma NewLedger_engine_ok vs : vs ≠ [] → solvent (validators (NewLedger vs)) → engine_ok vs (NewLedger vs).
Proof.
  intros Hne Hs. constructor; [apply NewLedger_lifecycle|done|done|].
  destruct vs as [|v0 vs]; [done|]. exists v0, vs. split; [done|]. simpl.
  assert (∀ m : gmap string ValidatorState, is_Some (m !! v_ID v0) →
    is_Some (foldl (λ m v, <[v_ID v := v]> m) m vs !! v_ID v0)) as Hfold.
  { clear Hne Hs. induction vs as [|v vs IH]; intros m Hm; simpl; [done|]. apply IH.
    rewrite lookup_insert. case_decide; eauto. }
  apply Hfold. rewrite lookup_insert_eq. eauto.
Qed.

(** ** Properties *)

(** C8. The engine implements an atomic bank.  With at least one validator and
    non-negative starting balances whose total per currency fits an int64, whatever the
    sequence of settlement requests, the clock readings and the iteration order of the
    pending map, the engine's ledger abstracts to the state of the atomic bank
    after the same requests, and answers each request the same way: settled,
    duplicate, or refused with the same error.  Every round terminates with an
    answer, no transaction stays pending, and no request panics. *)
Theorem engine_refines_bank (vs : list ValidatorState) (reqs : list (Transaction * clock * string)) :
  vs ≠ [] → solvent (validators (NewLedger vs)) →
  let '(l, os) := engine_run reqs vs (NewLedger vs) in
  let '(b, os') := bank_run ((λ r, r.1.1) <$> reqs) (abs (NewLedger vs)) in
  abs l = b ∧ os = Some <$> os' ∧ pending l = ∅.
Proof.
  intros Hne Hs. pose proof (NewLedger_engine_ok vs Hne Hs) as Hok. revert Hok.
  generalize (NewLedger vs). clear Hs. intros l Hok. revert l Hok.
  induction reqs as [|[[tx clk] first] reqs IH]; intros l Hok; [by destruct Hok|]. cbn.
  pose proof (engine_settle_refines clk first vs tx l Hok) as Hset.
  destruct (engine_settle clk first vs tx l) as [l1 o], (bank_settle tx (abs l)) as [b1 bo].
  destruct Hset as (Hok1 & Habs & Ho). specialize (IH l1 Hok1). cbn in *. rewrite Habs in IH.
  destruct (engine_run reqs vs l1) as [l2 os], (bank_run _ b1) as [b2 os'].
  destruct IH as (? & -> & ?). rewrite Ho. done.
Qed.

(** A settlement does what it says.  From an idle engine, a transaction with a
    new identifier and sufficient funds is confirmed in the next round with the
    vote of every validator; the two balances move by exactly the amount and no
    other balance moves; the transaction is retrievable as confirmed with the
    fields it was submitted with; and the engine is idle again. *)
Theorem settlement_effect (clk : clock) (first : string) (vals : list ValidatorState) (p : loc)
    (l : Ledger) (tx : Transaction) :
  engine_ok vals l → heap l !! p = Some tx → tx_ID tx ∉ seen l →
  bank_error tx (accounts (abs l)) = None →
  ∃ l' n, SubmitAndRunRound clk first vals p l =
      (l', (None, (Some (mkCR true (u64 (currentRound l + 1)) (Z.of_nat (length vals)) (tx_ID tx)), Ok tt))) ∧
    (∀ id cur, GetBalance id cur l' = GetBalance id cur l + delta tx id cur) ∧
    GetTransaction (tx_ID tx) l' = Some (set_status TxConfirmed (set_submitted n (clk 0%nat) tx)) ∧
    engine_ok vals l'.
Proof.
  intros Hok Hp Hns He.
  destruct (SubmitAndRunRound_settles clk first vals p l tx Hok Hp Hns He)
    as (l2 & n & ? & ? & _ & _ & ? & ?). exists l2, n. auto.
Qed.

(** [RunRound] settles an identifier again.  The field comment of
    [Ledger.seen] promises that it prevents replay, but [SubmitTransaction] does
    not consult it: a round for an identifier that was settled before is
    confirmed again and the money moves a second time. *)
Theorem run_round_replays (clk : clock) (first : string) (vals : list ValidatorState) (p : loc)
    (l : Ledger) (tx : Transaction) :
  engine_ok vals l → heap l !! p = Some tx → p ∉ allTxs l → tx_ID tx ∈ seen l →
  bank_error tx (accounts (abs l)) = None →
  ∃ l' cr, RunRound clk first vals p l = (l', (Some cr, Ok tt)) ∧ cr_Confirmed cr = true ∧
    ∀ id cur, GetBalance id cur l' = GetBalance id cur l + delta tx id cur.
Proof.
  intros [Hlc Hsolv Hidle (v0 & vals' & -> & Hv0)] Hp _ _ He.
  pose proof (submitLocked_cases (clk 0%nat) p l tx Hp) as Hs. rewrite He in Hs.
  destruct Hs as (s & n & Hs & [t Ht] & Ham & _ & Hsub).
  set (l1 := mkLedger _ _ _ _ _ _ _) in Hsub. set (tx1 := set_submitted n (clk 0%nat) tx).
  destruct (round_commits (λ i, clk (S i)) first (v0 :: vals') l1 p tx1 (set_nonce n s))
    as (l2 & HR & _ & _ & _ & _ & _ & Hbl & _); try done.
  - replace l1 with (exec (OpSubmit (clk 0%nat) p) l) by (unfold exec, SubmitTransaction; by rewrite Hsub).
    by apply exec_pending_ok, lc_pending.
  - simpl. by apply solvent_set_nonce.
  - simpl. by rewrite Hidle.
  - simpl. by rewrite lookup_insert_eq.
  - simpl. by rewrite lookup_insert_eq.
  - simpl. rewrite bal_set_nonce. lia.
  - exists v0, vals'. split; [done|]. simpl. rewrite lookup_insert. case_decide; [eauto|done].
  - do 2 eexists. split; [unfold RunRound, SubmitTransaction; rewrite Hp, Hsub; exact HR|split; [done|]].
    intros id cur. rewrite Hbl, !GetBalance_balance. simpl. by rewrite balance_set_nonce.
Qed.

(** ** Witnesses *)
Definition demo_engine (n : nat) : Ledger :=
  run (take n demo_ops) (NewLedger demo_validators).

Lemma demo_engine_ok : engine_ok demo_validators (NewLedger demo_validators).
Proof. apply NewLedger_engine_ok; [done|apply demo_solvent]. Qed.

Lemma engine_refines_bank_witness :
  let reqs := [ (demo_tx "tx-1" "CH" "EU" 100, (λ _, 7), ""); (demo_tx "tx-1" "CH" "EU" 100, (λ _, 8), "");
                (demo_tx "tx-2" "CH" "EU" 100000, (λ _, 9), "tx-1") ] in
  let '(l, os) := engine_run reqs demo_validators (NewLedger demo_validators) in
  os = [Some Settled; Some Duplicate; Some (Refused (InsufficientBalance "CHF" 9900 100000))] ∧
  (let '(b, os') := bank_run ((λ r, r.1.1) <$> reqs) (abs (NewLedger demo_validators)) in
   abs l = b ∧ os = Some <$> os' ∧ pending l = ∅).
Proof.
  intros reqs. pose proof (engine_refines_bank demo_validators reqs) as H.
  destruct (engine_run reqs demo_validators (NewLedger demo_validators)) as [l os] eqn:E.
  split; [|apply H; [done|apply demo_solvent]].
  apply (f_equal snd) in E. simpl in E. rewrite <- E. vm_compute. reflexivity.
Defined.

Lemma settlement_effect_witness :
  let l := (new_tx (demo_tx "tx-1" "CH" "EU" 100) (NewLedger demo_validators)).1 in
  ∃ l' n, SubmitAndRunRound (λ _, 7) "" demo_validators 0%nat l =
      (l', (None, (Some (mkCR true 1 3 "tx-1"), Ok tt))) ∧
    (∀ id cur, GetBalance id cur l' = GetBalance id cur l + delta (demo_tx "tx-1" "CH" "EU" 100) id cur) ∧
    GetTransaction "tx-1" l' = Some (set_status TxConfirmed (set_submitted n 7 (demo_tx "tx-1" "CH" "EU" 100))) ∧
    engine_ok demo_validators l'.
Proof.
  intros l. apply (settlement_effect (λ _, 7) "" demo_validators 0%nat l (demo_tx "tx-1" "CH" "EU" 100)).
  - apply new_tx_engine_ok, demo_engine_ok.
  - reflexivity.
  - apply (bool_decide_unpack _). vm_compute. exact I.
  - vm_compute. reflexivity.
Defined.

(** The ledger after "tx-1" has settled, with a second object of the same
    identifier. *)
Definition replay_ledger : Ledger :=
  (new_tx (demo_tx "tx-1" "CH" "EU" 100)
    (SubmitAndRunRound (λ _, 7) "" demo_validators 0%nat
       (new_tx (demo_tx "tx-1" "CH" "EU" 100) (NewLedger demo_validators)).1).1).1.

Lemma replay_ledger_ok : engine_ok demo_validators replay_ledger.
Proof.
  apply new_tx_engine_ok.
  destruct (SubmitAndRunRound_settles (λ _, 7) "" demo_validators 0%nat
    (new_tx (demo_tx "tx-1" "CH" "EU" 100) (NewLedger demo_validators)).1 (demo_tx "tx-1" "CH" "EU" 100))
    as (l2 & n & E & ? & _).
  - apply new_tx_engine_ok, demo_engine_ok.
  - reflexivity.
  - apply (bool_decide_unpack _). vm_compute. exact I.
  - vm_compute. reflexivity.
  - by rewrite E.
Qed.

Lemma run_round_replays_witness :
  (∃ l' cr, RunRound (λ _, 9) "" demo_validators 1%nat replay_ledger = (l', (Some cr, Ok tt)) ∧
     cr_Confirmed cr = true ∧
     ∀ id cur, GetBalance id cur l' = GetBalance id cur replay_ledger + delta (demo_tx "tx-1" "CH" "EU" 100) id cur) ∧
  GetBalance "EU" "CHF" (RunRound (λ _, 9) "" demo_validators 1%nat replay_ledger).1 = 5200.
Proof.
  split; [|vm_compute; reflexivity].
  apply (run_round_replays (λ _, 9) "" demo_validators 1%nat replay_ledger (demo_tx "tx-1" "CH" "EU" 100)).
  - apply replay_ledger_ok.
  - vm_compute. reflexivity.
  - apply (bool_decide_unpack _). vm_compute. exact I.
  - apply (bool_decide_unpack _). vm_compute. exact I.
  - vm_compute. reflexivity.
Defined.
