(* ===== verification/GoJson.v ===== *)
(** * Text encodings of the Go standard library

    What the code uses of [encoding/json] (compact encoding by [json.Marshal]
    of strings, numbers, byte slices, times, arrays and structs), of
    [encoding/base64], of [fmt.Sprintf("%x")] and of [encoding/binary]. *)

From S2P Require Import Prelude.
From Stdlib Require Import Ascii.

Local Open Scope string_scope.
Local Open Scope Z_scope.

(** ** Octets *)
Definition ord (a : ascii) : Z := Z.of_N (N_of_ascii a).
Definition chr (z : Z) : ascii := ascii_of_N (Z.to_N z).

Fixpoint bytes_of (s : string) : list Z :=
  match s with
  | EmptyString => []
  | String a s' => ord a :: bytes_of s'
  end.

Fixpoint string_of (l : list Z) : string :=
  match l with
  | [] => EmptyString
  | z :: l' => String (chr z) (string_of l')
  end.

Lemma ord_inj a b : ord a = ord b → a = b.
Proof. unfold ord. intros Heq. rewrite <- (ascii_N_embedding a), <- (ascii_N_embedding b). f_equal. lia. Qed.

Lemma ord_range a : 0 ≤ ord a < 256.
Proof. unfold ord. pose proof (N_ascii_bounded a). lia. Qed.

Lemma chr_inj x y : 0 ≤ x < 256 → 0 ≤ y < 256 → chr x = chr y → x = y.
Proof.
  unfold chr. intros Hx Hy Heq. apply (f_equal N_of_ascii) in Heq.
  rewrite !N_ascii_embedding in Heq by lia. lia.
Qed.

Lemma ord_chr z : 0 ≤ z < 256 → ord (chr z) = z.
Proof. unfold ord, chr. intros Hz. rewrite N_ascii_embedding by lia. lia. Qed.

Lemma chr_ord a : chr (ord a) = a.
Proof. unfold ord, chr. by rewrite N2Z.id, ascii_N_embedding. Qed.

(** The one-character string of an octet; 34 is the quotation mark. *)
Definition char (z : Z) : string := String (chr z) EmptyString.
Definition dquote : string := char 34.

(** ** Hexadecimal, base64 and big-endian *)
Definition hex_digit (z : Z) : ascii := if z <? 10 then chr (48 + z) else chr (87 + z).

Fixpoint hex (s : string) : string :=
  match s with
  | EmptyString => EmptyString
  | String a s' => String (hex_digit (ord a / 16)) (String (hex_digit (ord a mod 16)) (hex s'))
  end.

Definition b64_char (z : Z) : ascii :=
  if z <? 26 then chr (65 + z)
  else if z <? 52 then chr (97 + (z - 26))
  else if z <? 62 then chr (48 + (z - 52))
  else if z =? 62 then "+"%char else "/"%char.

(** [base64.StdEncoding]: three octets are four characters, with padding. *)
Fixpoint base64 (s : string) : string :=
  match s with
  | EmptyString => EmptyString
  | String a EmptyString =>
      String (b64_char (ord a / 4)) (String (b64_char (ord a mod 4 * 16)) "==")
  | String a (String b EmptyString) =>
      String (b64_char (ord a / 4)) (String (b64_char (ord a mod 4 * 16 + ord b / 16))
        (String (b64_char (ord b mod 16 * 4)) "="))
  | String a (String b (String c s')) =>
      String (b64_char (ord a / 4)) (String (b64_char (ord a mod 4 * 16 + ord b / 16))
        (String (b64_char (ord b mod 16 * 4 + ord c / 64)) (String (b64_char (ord c mod 64)) (base64 s'))))
  end.

(** [binary.BigEndian.PutUint64] and [Uint64]. *)
Fixpoint be_bytes (n : nat) (z : Z) : list Z :=
  match n with
  | O => []
  | S n' => (z / 256 ^ Z.of_nat n') mod 256 :: be_bytes n' z
  end.
Definition be64 (z : Z) : bytes := string_of (be_bytes 8 z).
Definition be_value (s : bytes) : Z := foldl (λ acc b, acc * 256 + b) 0 (bytes_of s).

(** ** Strings

    [appendString] of [encoding/json] with HTML escaping, as [json.Marshal] runs
    it: the octets of valid UTF-8 are copied, an octet that starts no valid
    sequence becomes the escape of the replacement character, and the two line
    separators are escaped. *)
Definition esc_ascii (z : Z) : string :=
  if z =? 34 then char 92 +:+ dquote
  else if z =? 92 then char 92 +:+ char 92
  else if z =? 8 then char 92 +:+ "b"
  else if z =? 12 then char 92 +:+ "f"
  else if z =? 10 then char 92 +:+ "n"
  else if z =? 13 then char 92 +:+ "r"
  else if z =? 9 then char 92 +:+ "t"
  else if (z <? 32) || (z =? 38) || (z =? 60) || (z =? 62) then
    char 92 +:+ "u00" +:+ String (hex_digit (z / 16)) (String (hex_digit (z mod 16)) "")
  else char z.

Definition between (lo hi z : Z) : bool := (lo <=? z) && (z <=? hi).
Definition is_cont (z : Z) : bool := between 128 191 z.

(** The second-octet range that [utf8.DecodeRuneInString] accepts after [a]. *)
Definition second_ok (a b : Z) : bool :=
  if a =? 224 then between 160 191 b
  else if a =? 237 then between 128 159 b
  else if a =? 240 then between 144 191 b
  else if a =? 244 then between 128 143 b
  else is_cont b.

Fixpoint quote_body (s : string) : string :=
  match s with
  | EmptyString => EmptyString
  | String a s1 =>
    let za := ord a in
    if za <? 128 then esc_ascii za +:+ quote_body s1
    else
      let bad := char 92 +:+ "ufffd" +:+ quote_body s1 in
      match s1 with
      | EmptyString => bad
      | String b s2 =>
        if between 194 223 za then
          if is_cont (ord b) then String a (String b (quote_body s2)) else bad
        else if between 224 239 za then
          match s2 with
          | EmptyString => bad
          | String c s3 =>
            if second_ok za (ord b) && is_cont (ord c) then
              if (za =? 226) && (ord b =? 128) && between 168 169 (ord c)
              then char 92 +:+ "u202" +:+ String (hex_digit (ord c - 160)) (quote_body s3)
              else String a (String b (String c (quote_body s3)))
            else bad
          end
        else if between 240 244 za then
          match s2 with
          | String c (String d s4) =>
            if second_ok za (ord b) && is_cont (ord c) && is_cont (ord d)
            then String a (String b (String c (String d (quote_body s4)))) else bad
          | _ => bad
          end
        else bad
      end
  end.

Definition quote (s : string) : string := dquote +:+ quote_body s +:+ dquote.

(** ** Times

    [Time.MarshalJSON]: RFC 3339 with nanoseconds, trailing zeros removed, and an
    error outside the years 0 to 9999. *)
Definition civil (days : Z) : Z * Z * Z :=
  let z := days + 719468 in
  let era := z / 146097 in
  let doe := z mod 146097 in
  let yoe := (doe - doe / 1460 + doe / 36524 - doe / 146096) / 365 in
  let doy := doe - (365 * yoe + yoe / 4 - yoe / 100) in
  let mp := (5 * doy + 2) / 153 in
  let d := doy - (153 * mp + 2) / 5 + 1 in
  let m := if mp <? 10 then mp + 3 else mp - 9 in
  (yoe + era * 400 + (if m <=? 2 then 1 else 0), m, d).

(** [n] decimal digits of [z]. *)
Fixpoint digits (n : nat) (z : Z) : string :=
  match n with
  | O => EmptyString
  | S n' => String (chr (48 + (z / 10 ^ Z.of_nat n') mod 10)) (digits n' z)
  end.

(** The fraction: drop trailing zeros. *)
Fixpoint frac (n : nat) (z : Z) : string :=
  match n with
  | O => EmptyString
  | S n' => if z mod 10 =? 0 then frac n' (z / 10) else "." +:+ digits n z
  end.

Definition rfc3339nano (t : Z) : option string :=
  let '(y, m, d) := civil (t / (86400 * second)) in
  let tod := t mod (86400 * second) in
  let s := tod / second in
  if between 0 9999 y then
    Some (digits 4 y +:+ "-" +:+ digits 2 m +:+ "-" +:+ digits 2 d +:+ "T" +:+
          digits 2 (s / 3600) +:+ ":" +:+ digits 2 (s / 60 mod 60) +:+ ":" +:+ digits 2 (s mod 60) +:+
          frac 9 (tod mod second) +:+ "Z")
  else None.

(** ** Values *)
Inductive json :=
| JNull
| JBool (b : bool)
| JNum (z : Z)
| JStr (s : string)
| JArr (l : list json)
| JObj (l : list (string * json)).

(** The compact encoding. *)
Fixpoint render (j : json) : string :=
  match j with
  | JNull => "null"
  | JBool b => if b then "true" else "false"
  | JNum z => pretty z
  | JStr s => quote s
  | JArr l =>
      let fix go (first : bool) (l : list json) : string :=
        match l with
        | [] => "]"
        | j :: l' => (if first then "" else ",") +:+ render j +:+ go false l'
        end in "[" +:+ go true l
  | JObj l =>
      let fix go (first : bool) (l : list (string * json)) : string :=
        match l with
        | [] => "}"
        | (k, j) :: l' => (if first then "" else ",") +:+ quote k +:+ ":" +:+ render j +:+ go false l'
        end in "{" +:+ go true l
  end.

(** A field with the [omitempty] option. *)
Definition omit_if (empty : bool) (k : string) (j : json) : list (string * json) :=
  if empty then [] else [(k, j)].

Definition is_empty (s : string) : bool := bool_decide (s = "").

(** ** Checks against known encodings *)
Example hex_ok : hex "Az0" = "417a30".
Proof. reflexivity. Qed.

Example base64_ok : base64 "hello" = "aGVsbG8=" ∧ base64 "abc" = "YWJj" ∧ base64 "a" = "YQ==".
Proof. vm_compute. auto. Qed.

Example rfc3339_ok : rfc3339nano 1700000000123400000 = Some "2023-11-14T22:13:20.1234Z".
Proof. vm_compute. reflexivity. Qed.

Example rfc3339_zero : rfc3339nano zero_time = Some "0001-01-01T00:00:00Z".
Proof. vm_compute. reflexivity. Qed.

Example render_ok : render (JObj [("a", JArr [JNum (-3); JNull]); ("b<", JStr "x")]) =
  "{" +:+ dquote +:+ "a" +:+ dquote +:+ ":[-3,null]," +:+ dquote +:+ "b\u003c" +:+ dquote +:+ ":" +:+
  dquote +:+ "x" +:+ dquote +:+ "}".
Proof. vm_compute. reflexivity. Qed.
