(* ===== verification/Json.v ===== *)
(** * Decoding JSON

    [json.Unmarshal] of the Go standard library, as the code uses it: the
    scanner with its limit on nesting, string unquoting with replacement of
    invalid UTF-8 and lone surrogates, number literals, and the storing of values
    into strings, integers, byte slices, times, slices and structs.  The
    theorems relate it to the encoder of [GoJson]. *)

From S2P Require Import Prelude GoJson.
From Stdlib Require Import Ascii.

Local Open Scope string_scope.
Local Open Scope Z_scope.

(** ** Values *)
Inductive jval :=
| VNull
| VBool (b : bool)
| VNum (lit : string)
| VStr (s : string)
| VArr (l : list jval)
| VObj (l : list (string * jval)).

(** ** Strings *)
Definition hex_val (a : ascii) : option Z :=
  let z := ord a in
  if between 48 57 z then Some (z - 48)
  else if between 97 102 z then Some (z - 87)
  else if between 65 70 z then Some (z - 55)
  else None.

Definition hex4 (a b c d : ascii) : option Z :=
  x ← hex_val a; y ← hex_val b; z ← hex_val c; w ← hex_val d; Some (x * 4096 + y * 256 + z * 16 + w).

Definition repl_char : string := string_of [239; 191; 189].

(** [utf8.AppendRune] *)
Definition utf8_enc (r : Z) : string :=
  if between 0 127 r then char r
  else if between 128 2047 r then string_of [192 + r / 64; 128 + r mod 64]
  else if between 55296 57343 r || negb (between 0 1114111 r) then repl_char
  else if between 2048 65535 r then string_of [224 + r / 4096; 128 + r / 64 mod 64; 128 + r mod 64]
  else string_of [240 + r / 262144; 128 + r / 4096 mod 64; 128 + r / 64 mod 64; 128 + r mod 64].

Definition prepend (p : string) (x : option (string * string)) : option (string * string) :=
  match x with Some (t, r) => Some (p +:+ t, r) | None => None end.

(** The escape of one character after the backslash. *)
Definition esc_char (z : Z) : option Z :=
  if (z =? 34) || (z =? 92) || (z =? 47) then Some z
  else if z =? 98 then Some 8
  else if z =? 102 then Some 12
  else if z =? 110 then Some 10
  else if z =? 114 then Some 13
  else if z =? 116 then Some 9
  else None.

(** The rest of a string after its opening quote: the decoded text and what
    follows the closing quote. *)
Fixpoint string_body (s : string) : option (string * string) :=
  match s with
  | EmptyString => None
  | String a s1 =>
    let za := ord a in
    if za =? 34 then Some ("", s1)
    else if za =? 92 then
      match s1 with
      | EmptyString => None
      | String b s2 =>
        match esc_char (ord b) with
        | Some z => prepend (char z) (string_body s2)
        | None =>
          if ord b =? 117 then
            match s2 with
            | String h1 (String h2 (String h3 (String h4 s3))) =>
              match hex4 h1 h2 h3 h4 with
              | None => None
              | Some r =>
                if between 55296 56319 r then
                  match s3 with
                  | String c1 (String c2 (String g1 (String g2 (String g3 (String g4 s4))))) =>
                    match (if (ord c1 =? 92) && (ord c2 =? 117) then hex4 g1 g2 g3 g4 else None) with
                    | Some r2 =>
                      if between 56320 57343 r2
                      then prepend (utf8_enc (65536 + (r - 55296) * 1024 + (r2 - 56320))) (string_body s4)
                      else prepend repl_char (string_body s3)
                    | None => prepend repl_char (string_body s3)
                    end
                  | _ => prepend repl_char (string_body s3)
                  end
                else prepend (utf8_enc r) (string_body s3)
              end
            | _ => None
            end
          else None
        end
      end
    else if za <? 32 then None
    else if za <? 128 then prepend (char za) (string_body s1)
    else
      let bad := prepend repl_char (string_body s1) in
      match s1 with
      | EmptyString => bad
      | String b s2 =>
        if between 194 223 za then
          if is_cont (ord b) then prepend (String a (String b "")) (string_body s2) else bad
        else if between 224 239 za then
          match s2 with
          | EmptyString => bad
          | String c s3 =>
            if second_ok za (ord b) && is_cont (ord c)
            then prepend (String a (String b (String c ""))) (string_body s3) else bad
          end
        else if between 240 244 za then
          match s2 with
          | String c (String d s4) =>
            if second_ok za (ord b) && is_cont (ord c) && is_cont (ord d)
            then prepend (String a (String b (String c (String d "")))) (string_body s4) else bad
          | _ => bad
          end
        else bad
      end
  end.

(** [utf8.ValidString] *)
Fixpoint utf8_valid (s : string) : bool :=
  match s with
  | EmptyString => true
  | String a s1 =>
    let za := ord a in
    if za <? 128 then utf8_valid s1
    else
      match s1 with
      | EmptyString => false
      | String b s2 =>
        if between 194 223 za then is_cont (ord b) && utf8_valid s2
        else if between 224 239 za then
          match s2 with
          | EmptyString => false
          | String c s3 => second_ok za (ord b) && is_cont (ord c) && utf8_valid s3
          end
        else if between 240 244 za then
          match s2 with
          | String c (String d s4) => second_ok za (ord b) && is_cont (ord c) && is_cont (ord d) && utf8_valid s4
          | _ => false
          end
        else false
      end
  end.

(** ** Scanning *)
Definition is_space (a : ascii) : bool :=
  let z := ord a in (z =? 32) || (z =? 9) || (z =? 10) || (z =? 13).

Fixpoint skip (s : string) : string :=
  match s with
  | String a s' => if is_space a then skip s' else s
  | EmptyString => EmptyString
  end.

Fixpoint strip (p s : string) : option string :=
  match p, s with
  | EmptyString, _ => Some s
  | String a p', String b s' => if ord a =? ord b then strip p' s' else None
  | _, EmptyString => None
  end.

Definition is_digit (a : ascii) : bool := between 48 57 (ord a).

Fixpoint span_digits (s : string) : string * string :=
  match s with
  | String a s' => if is_digit a then let '(d, r) := span_digits s' in (String a d, r) else (EmptyString, s)
  | EmptyString => (EmptyString, EmptyString)
  end.

(** At least one digit. *)
Definition digits1 (s : string) : option (string * string) :=
  match span_digits s with (EmptyString, _) => None | dr => Some dr end.

Definition num_int (s : string) : option (string * string) :=
  match s with
  | EmptyString => None
  | String a s1 =>
    if ord a =? 48 then Some (String a "", s1)
    else if is_digit a then let '(d, r) := span_digits s1 in Some (String a d, r)
    else None
  end.

Definition num_frac (s : string) : option (string * string) :=
  match s with
  | String a s1 => if ord a =? 46 then prepend (String a "") (digits1 s1) else Some ("", s)
  | EmptyString => Some ("", s)
  end.

Definition num_exp (s : string) : option (string * string) :=
  match s with
  | String a s1 =>
    if (ord a =? 69) || (ord a =? 101) then
      match s1 with
      | String b s2 =>
        if (ord b =? 43) || (ord b =? 45) then prepend (String a (String b "")) (digits1 s2)
        else prepend (String a "") (digits1 s1)
      | EmptyString => None
      end
    else Some ("", s)
  | EmptyString => Some ("", s)
  end.

Definition number (s : string) : option (string * string) :=
  let '(sign, s0) := match s with
                     | String a s' => if ord a =? 45 then (String a "", s') else ("", s)
                     | EmptyString => ("", s)
                     end in
  match num_int s0 with
  | None => None
  | Some (i, s1) =>
    match num_frac s1 with
    | None => None
    | Some (f, s2) => match num_exp s2 with None => None | Some (e, s3) => Some (sign +:+ i +:+ f +:+ e, s3) end
    end
  end.

Definition maxNestingDepth : Z := 10000.

(** A value, the rest of an array after an element is due, the rest of an object
    after a key is due.  [fuel] bounds the recursion. *)
Fixpoint value (fuel : nat) (depth : Z) (s : string) : option (jval * string) :=
  match fuel with
  | O => None
  | S n =>
    match skip s with
    | EmptyString => None
    | String a s1 =>
      if ord a =? 34 then match string_body s1 with Some (t, r) => Some (VStr t, r) | None => None end
      else if ord a =? 91 then
        if maxNestingDepth <? depth + 1 then None
        else match skip s1 with
             | String b s2 =>
               if ord b =? 93 then Some (VArr [], s2)
               else match elements n (depth + 1) s1 with Some (l, r) => Some (VArr l, r) | None => None end
             | EmptyString => None
             end
      else if ord a =? 123 then
        if maxNestingDepth <? depth + 1 then None
        else match skip s1 with
             | String b s2 =>
               if ord b =? 125 then Some (VObj [], s2)
               else match members n (depth + 1) s1 with Some (l, r) => Some (VObj l, r) | None => None end
             | EmptyString => None
             end
      else
        match strip "null" (String a s1) with
        | Some r => Some (VNull, r)
        | None =>
          match strip "true" (String a s1) with
          | Some r => Some (VBool true, r)
          | None =>
            match strip "false" (String a s1) with
            | Some r => Some (VBool false, r)
            | None => match number (String a s1) with Some (lit, r) => Some (VNum lit, r) | None => None end
            end
          end
        end
    end
  end
with elements (fuel : nat) (depth : Z) (s : string) : option (list jval * string) :=
  match fuel with
  | O => None
  | S n =>
    match value n depth s with
    | None => None
    | Some (v, r) =>
      match skip r with
      | String b r1 =>
        if ord b =? 44 then match elements n depth r1 with Some (l, r2) => Some (v :: l, r2) | None => None end
        else if ord b =? 93 then Some ([v], r1) else None
      | EmptyString => None
      end
    end
  end
with members (fuel : nat) (depth : Z) (s : string) : option (list (string * jval) * string) :=
  match fuel with
  | O => None
  | S n =>
    match skip s with
    | EmptyString => None
    | String q s0 =>
      if negb (ord q =? 34) then None
      else
        match string_body s0 with
        | None => None
        | Some (k, r) =>
          match skip r with
          | EmptyString => None
          | String c r0 =>
            if negb (ord c =? 58) then None
            else
              match value n depth r0 with
              | None => None
              | Some (v, r1) =>
                match skip r1 with
                | String b r2 =>
                  if ord b =? 44 then
                    match members n depth r2 with Some (l, r3) => Some ((k, v) :: l, r3) | None => None end
                  else if ord b =? 125 then Some ([(k, v)], r2) else None
                | EmptyString => None
                end
              end
          end
        end
    end
  end.

(** The whole input is one value.  Two units of fuel per octet are enough:
    see [value_fuel]. *)
Definition parse (s : string) : option jval :=
  match value (2 * String.length s + 1) 0 s with
  | Some (v, r) => match skip r with EmptyString => Some v | _ => None end
  | None => None
  end.

(** ** Strings round-trip *)
Lemma append_assoc (s t u : string) : (s +:+ t) +:+ u = s +:+ (t +:+ u).
Proof. induction s as [|a s IH]; [done|]. change (String a ((s +:+ t) +:+ u) = String a (s +:+ (t +:+ u))). by rewrite IH. Qed.

Lemma append_cons a (s t : string) : String a s +:+ t = String a (s +:+ t).
Proof. done. Qed.

Lemma append_nil (s : string) : s +:+ "" = s.
Proof. induction s as [|a s IH]; [done|]. by rewrite append_cons, IH. Qed.

Lemma string_body_esc a t : ord a < 128 →
  string_body (esc_ascii (ord a) +:+ t) = prepend (String a "") (string_body t).
Proof.
  destruct a as [[] [] [] [] [] [] [] []]; intros Ha; try (exfalso; revert Ha; vm_compute; congruence);
    clear Ha; vm_compute (esc_ascii _); reflexivity.
Qed.

Lemma prepend_app p q x : prepend p (prepend q x) = prepend (p +:+ q) x.
Proof. destruct x as [[t r]|]; simpl; [by rewrite append_assoc|done]. Qed.

(** The guards before a multi-octet sequence. *)
Lemma high_guards z : 128 ≤ z → (z =? 34) = false ∧ (z =? 92) = false ∧ (z <? 32) = false ∧ (z <? 128) = false.
Proof. intros. split_and!; lia. Qed.

Lemma between_spec lo hi z : between lo hi z = true ↔ lo ≤ z ≤ hi.
Proof. unfold between. lia. Qed.

Lemma string_body_2 a b t : between 194 223 (ord a) = true → is_cont (ord b) = true →
  string_body (String a (String b t)) = prepend (String a (String b "")) (string_body t).
Proof.
  intros Ha Hb. destruct (high_guards (ord a)) as (H1 & H2 & H3 & H4); [apply between_spec in Ha; lia|].
  cbn [string_body]. by rewrite H1, H2, H3, H4, Ha, Hb.
Qed.

Lemma string_body_3 a b c t : between 224 239 (ord a) = true → second_ok (ord a) (ord b) = true → is_cont (ord c) = true →
  string_body (String a (String b (String c t))) = prepend (String a (String b (String c ""))) (string_body t).
Proof.
  intros Ha Hb Hc. apply between_spec in Ha as Hr. destruct (high_guards (ord a)) as (H1 & H2 & H3 & H4); [lia|].
  assert (between 194 223 (ord a) = false) as H5 by (unfold between; lia).
  cbn [string_body]. by rewrite H1, H2, H3, H4, H5, Ha, Hb, Hc.
Qed.

Lemma string_body_4 a b c d t : between 240 244 (ord a) = true → second_ok (ord a) (ord b) = true →
  is_cont (ord c) = true → is_cont (ord d) = true →
  string_body (String a (String b (String c (String d t)))) =
  prepend (String a (String b (String c (String d "")))) (string_body t).
Proof.
  intros Ha Hb Hc Hd. apply between_spec in Ha as Hr. destruct (high_guards (ord a)) as (H1 & H2 & H3 & H4); [lia|].
  assert (between 194 223 (ord a) = false ∧ between 224 239 (ord a) = false) as [H5 H6] by (unfold between; lia).
  cbn [string_body]. by rewrite H1, H2, H3, H4, H5, H6, Ha, Hb, Hc, Hd.
Qed.

(** The two separators are written as escapes. *)
Lemma string_body_sep z t : z = 168 ∨ z = 169 →
  string_body (char 92 +:+ "u202" +:+ String (hex_digit (z - 160)) t) =
  prepend (string_of [226; 128; z]) (string_body t).
Proof. intros [->| ->]; vm_compute (hex_digit _); reflexivity. Qed.

Lemma string_body_quote s r : utf8_valid s = true → string_body (quote_body s +:+ dquote +:+ r) = Some (s, r).
Proof.
  remember (String.length s) as n eqn:Hn. revert s Hn.
  induction (lt_wf n) as [n _ IH]; intros s -> Hv. destruct s as [|a s1]; [done|].
  assert (∀ s', (String.length s' < String.length (String a s1))%nat → utf8_valid s' = true →
    string_body (quote_body s' +:+ dquote +:+ r) = Some (s', r)) as IH'.
  { intros s' Hl Hs'. by apply (IH (String.length s')). }
  clear IH. cbn [utf8_valid quote_body String.length] in *. destruct (ord a <? 128) eqn:Ha; zbool.
  { rewrite append_assoc, string_body_esc by done. by rewrite IH' by (done || lia). }
  destruct s1 as [|b s2]; [done|]. destruct (between 194 223 (ord a)) eqn:H2.
  { apply andb_true_iff in Hv as [Hb Hv]. rewrite Hb, !append_cons, string_body_2 by done.
    simpl in IH'. by rewrite IH' by (done || lia). }
  destruct (between 224 239 (ord a)) eqn:H3.
  { destruct s2 as [|c s3]; [done|]. rewrite !andb_true_iff in Hv. destruct Hv as [[Hb Hc] Hv].
    rewrite Hb, Hc. simpl in IH'. cbn [andb]. destruct (_ && _ && _) eqn:Hsep.
    - rewrite !andb_true_iff, !Z.eqb_eq, between_spec in Hsep. destruct Hsep as [[Ha' Hb'] Hc'].
      rewrite !append_assoc, (append_cons (hex_digit (ord c - 160))). rewrite (string_body_sep (ord c)) by lia. rewrite IH' by (done || lia).
      rewrite <- Ha', <- Hb'. cbn [string_of prepend]. by rewrite !chr_ord.
    - rewrite !append_cons, string_body_3 by done. by rewrite IH' by (done || lia). }
  destruct (between 240 244 (ord a)) eqn:H4; [|done].
  destruct s2 as [|c [|d s4]]; [done..|]. rewrite !andb_true_iff in Hv. destruct Hv as [[[Hb Hc] Hd] Hv].
  rewrite Hb, Hc, Hd. simpl in IH'. cbn [andb]. rewrite !append_cons, string_body_4 by done. by rewrite IH' by (done || lia).
Qed.

(** ** Numbers

    [strconv.ParseUint] and [ParseInt] in base 10 at a given width. *)
Fixpoint digits_val (acc : Z) (s : string) : option Z :=
  match s with
  | EmptyString => Some acc
  | String a s' => if is_digit a then digits_val (acc * 10 + (ord a - 48)) s' else None
  end.

Definition ParseUint (bits : Z) (s : string) : option Z :=
  if is_empty s then None
  else match digits_val 0 s with Some z => if z <? 2 ^ bits then Some z else None | None => None end.

Definition ParseInt (bits : Z) (s : string) : option Z :=
  let '(neg, t) := match s with
                   | String a s' => if ord a =? 45 then (true, s') else if ord a =? 43 then (false, s') else (false, s)
                   | EmptyString => (false, s)
                   end in
  if is_empty t then None
  else match digits_val 0 t with
       | Some z => if neg then if z <=? 2 ^ (bits - 1) then Some (- z) else None
                   else if z <? 2 ^ (bits - 1) then Some z else None
       | None => None
       end.

Fixpoint all_digits (s : string) : bool :=
  match s with EmptyString => true | String a s' => is_digit a && all_digits s' end.

Lemma pretty_N_char_digit x : (x < 10)%N → ord (pretty_N_char x) = 48 + Z.of_N x.
Proof.
  intros Hx. assert (x = 0 ∨ x = 1 ∨ x = 2 ∨ x = 3 ∨ x = 4 ∨ x = 5 ∨ x = 6 ∨ x = 7 ∨ x = 8 ∨ x = 9)%N as Hc by lia.
  repeat destruct Hc as [->|Hc]; [reflexivity..|]. by rewrite Hc.
Qed.

Lemma all_digits_app s t : all_digits (s +:+ t) = all_digits s && all_digits t.
Proof. induction s as [|a s IH]; [done|]. rewrite append_cons. simpl. by rewrite IH, andb_assoc. Qed.

(** The digits of a positive number, before any tail. *)
Lemma pretty_N_go_digits x : ∀ s, (0 < x)%N →
  ∃ a t, pretty_N_go x s = String a (t +:+ s) ∧ 49 ≤ ord a ≤ 57 ∧ all_digits t = true.
Proof.
  induction (N.lt_wf_0 x) as [x _ IH]. intros s Hx. rewrite pretty_N_go_step by done.
  pose proof (pretty_N_char_digit (x mod 10)%N ltac:(apply N.mod_lt; lia)) as Hc.
  destruct (decide (x < 10)%N) as [Hlt|Hge].
  - rewrite N.div_small by done. rewrite pretty_N_go_0. exists (pretty_N_char (x mod 10)), "".
    rewrite N.mod_small in * by done. split_and!; [done|lia|lia|done].
  - destruct (IH (x / 10)%N ltac:(apply N.div_lt; lia) (String (pretty_N_char (x mod 10)) s)) as (a & t & -> & Ha & Ht).
    { apply N.div_str_pos. lia. }
    exists a, (t +:+ String (pretty_N_char (x mod 10)) ""). rewrite append_assoc. split_and!; [done|lia|lia|].
    rewrite all_digits_app, Ht. cbn [all_digits andb]. rewrite andb_true_r.
    unfold is_digit. apply between_spec. rewrite Hc.
    pose proof (N.mod_lt x 10 ltac:(lia)) as Hm. revert Hm. clear. generalize (x mod 10)%N. lia.
Qed.

Lemma digits_val_pretty x : ∀ s, digits_val 0 (pretty_N_go x s) = digits_val (Z.of_N x) s.
Proof.
  induction (N.lt_wf_0 x) as [x _ IH]. intros s. destruct (decide (x = 0)%N) as [->|Hx]; [by rewrite pretty_N_go_0|].
  rewrite pretty_N_go_step by lia. rewrite IH by (apply N.div_lt; lia). simpl.
  pose proof (N.mod_lt x 10 ltac:(lia)) as Hm. pose proof (pretty_N_char_digit (x mod 10)%N Hm) as Hc.
  unfold is_digit. rewrite Hc. pose proof (N.div_mod x 10 ltac:(lia)) as Hdm. revert Hm Hdm. clear.
  generalize (x mod 10)%N (x / 10)%N. intros m d Hm ->. rewrite (proj2 (between_spec _ _ _)) by lia. f_equal. lia.
Qed.

(** What cannot continue a number. *)
Definition delim (r : string) : Prop :=
  match r with
  | String a _ => is_digit a = false ∧ ord a ≠ 46 ∧ ord a ≠ 69 ∧ ord a ≠ 101
  | EmptyString => True
  end.

Lemma span_digits_app t r : all_digits t = true → delim r → span_digits (t +:+ r) = (t, r).
Proof.
  intros Ht Hr. induction t as [|a t IH].
  - destruct r as [|b r]; [done|]. destruct Hr as [Hb _]. change ("" +:+ String b r) with (String b r).
    simpl. by rewrite Hb.
  - apply andb_true_iff in Ht as [Ha Ht]. rewrite append_cons. cbn [span_digits]. by rewrite Ha, IH.
Qed.

Lemma num_tail r : delim r → num_frac r = Some ("", r) ∧ num_exp r = Some ("", r).
Proof.
  destruct r as [|b r]; [done|]. intros (_ & H1 & H2 & H3). unfold num_frac, num_exp.
  rewrite (proj2 (Z.eqb_neq _ _) H1), (proj2 (Z.eqb_neq _ _) H2), (proj2 (Z.eqb_neq _ _) H3). done.
Qed.

Lemma pretty_pos p : (pretty (Z.pos p) : string) = pretty_N_go (N.pos p) "".
Proof. reflexivity. Qed.

Lemma num_int_pos p r : delim r → num_int (pretty_N_go (N.pos p) "" +:+ r) = Some (pretty_N_go (N.pos p) "", r).
Proof.
  intros Hr. destruct (pretty_N_go_digits (N.pos p) "" ltac:(lia)) as (a & t & -> & Ha & Ht).
  rewrite append_nil, append_cons. unfold num_int. rewrite (proj2 (Z.eqb_neq _ _)) by lia.
  unfold is_digit. replace (between 48 57 (ord a)) with true by (unfold between; lia). by rewrite span_digits_app.
Qed.

Lemma number_pretty (z : Z) r : delim r → number ((pretty z : string) +:+ r) = Some (pretty z, r).
Proof.
  intros Hr. destruct (num_tail r Hr) as [Hf He]. destruct z as [|p|p].
  - change (number (String "0" r) = Some ("0", r)). unfold number. simpl. by rewrite Hf, He.
  - rewrite pretty_pos. unfold number.
    destruct (pretty_N_go_digits (N.pos p) "" ltac:(lia)) as (a & t & Heq & Ha & Ht).
    pose proof (num_int_pos p r Hr) as Hi. rewrite Heq, append_nil, append_cons in *.
    rewrite (proj2 (Z.eqb_neq _ _)) by lia. rewrite Hi, Hf, He. simpl. by rewrite append_nil.
  - change (pretty (Z.neg p) : string) with ("-" +:+ pretty_N_go (N.pos p) ""). rewrite append_assoc.
    unfold number. change ("-" +:+ ?x) with (String "-" x). simpl. rewrite num_int_pos, Hf, He by done.
    simpl. by rewrite append_nil.
Qed.

(** ** Values round-trip *)
Section JsonInd.
Context (P : json → Prop).
Hypothesis HNull : P JNull.
Hypothesis HBool : ∀ b, P (JBool b).
Hypothesis HNum : ∀ z, P (JNum z).
Hypothesis HStr : ∀ s, P (JStr s).
Hypothesis HArr : ∀ l, Forall P l → P (JArr l).
Hypothesis HObj : ∀ l, Forall (λ kj, P kj.2) l → P (JObj l).

Fixpoint json_nested_ind (j : json) : P j :=
  match j with
  | JNull => HNull
  | JBool b => HBool b
  | JNum z => HNum z
  | JStr s => HStr s
  | JArr l => HArr l ((fix go (l : list json) : Forall P l :=
      match l with [] => Forall_nil_2 _ | j :: l' => Forall_cons_2 _ _ _ (json_nested_ind j) (go l') end) l)
  | JObj l => HObj l ((fix go (l : list (string * json)) : Forall (λ kj, P kj.2) l :=
      match l with [] => Forall_nil_2 _ | kj :: l' => Forall_cons_2 _ _ _ (json_nested_ind kj.2) (go l') end) l)
  end.
End JsonInd.

(** What the decoder makes of an encoded value. *)
Fixpoint jv (j : json) : jval :=
  match j with
  | JNull => VNull
  | JBool b => VBool b
  | JNum z => VNum (pretty z)
  | JStr s => VStr s
  | JArr l => VArr (map jv l)
  | JObj l => VObj (map (λ kj, (kj.1, jv kj.2)) l)
  end.

(** Strings are valid UTF-8, and the nesting is bounded. *)
Fixpoint json_ok (j : json) : bool :=
  match j with
  | JStr s => utf8_valid s
  | JArr l => forallb json_ok l
  | JObj l => forallb (λ kj, utf8_valid kj.1 && json_ok kj.2) l
  | _ => true
  end.

Fixpoint jdepth (j : json) : Z :=
  match j with
  | JArr l => 1 + foldr (λ j d, Z.max (jdepth j) d) 0 l
  | JObj l => 1 + foldr (λ kj d, Z.max (jdepth kj.2) d) 0 l
  | _ => 0
  end.

(** The text after the first element or member. *)
Fixpoint arr_tail (l : list json) : string :=
  match l with [] => "]" | j :: l' => "," +:+ render j +:+ arr_tail l' end.
Fixpoint obj_tail (l : list (string * json)) : string :=
  match l with [] => "}" | (k, j) :: l' => "," +:+ quote k +:+ ":" +:+ render j +:+ obj_tail l' end.

Lemma render_arr j l : render (JArr (j :: l)) = "[" +:+ render j +:+ arr_tail l.
Proof.
  cbn [render]. change ("" +:+ ?x) with x. do 2 f_equal. induction l as [|j' l IH]; [done|].
  cbn [arr_tail]. by rewrite <- IH.
Qed.

Lemma render_obj k j l : render (JObj ((k, j) :: l)) = "{" +:+ quote k +:+ ":" +:+ render j +:+ obj_tail l.
Proof.
  cbn [render]. change ("" +:+ ?x) with x. do 4 f_equal. induction l as [|[k' j'] l IH]; [done|].
  cbn [obj_tail]. by rewrite <- IH.
Qed.

(** The first character of a value. *)
Lemma render_head j : ∃ a t, render j = String a t ∧ is_space a = false ∧ ord a ≠ 93 ∧ ord a ≠ 125.
Proof.
  destruct j as [|[]|[|p|p]|s|l|l]; try (eexists _, _; split; [reflexivity|]; split_and!; by vm_compute).
  destruct (pretty_N_go_digits (N.pos p) "" ltac:(lia)) as (a & t & Heq & Ha & _).
  exists a, (t +:+ ""). split; [exact Heq|]. split_and!; [unfold is_space|..]; lia.
Qed.

Lemma skip_head a t : is_space a = false → skip (String a t) = String a t.
Proof. intros Ha. simpl. by rewrite Ha. Qed.

Lemma skip_render j r : skip (render j +:+ r) = render j +:+ r.
Proof. destruct (render_head j) as (a & t & -> & Ha & _). rewrite append_cons. by apply skip_head. Qed.

Lemma length_append (s t : string) : String.length (s +:+ t) = (String.length s + String.length t)%nat.
Proof. induction s as [|a s IH]; [done|]. rewrite append_cons. simpl. by rewrite IH. Qed.

Lemma delim_arr l r : delim (arr_tail l +:+ r).
Proof. destruct l; split_and!; by vm_compute. Qed.

Lemma delim_obj l r : delim (obj_tail l +:+ r).
Proof. destruct l as [|[k j] l]; split_and!; by vm_compute. Qed.

(** [value] reads back what [render] wrote, with the fuel the text allows. *)
Definition reads (j : json) : Prop := ∀ n d r, (2 * String.length (render j) ≤ n)%nat → json_ok j = true →
  d + jdepth j ≤ maxNestingDepth → delim r → value (S n) d (render j +:+ r) = Some (jv j, r).

Lemma elements_render l : Forall reads l → ∀ j n d r, reads j →
  (2 * (String.length (render j) + String.length (arr_tail l)) ≤ n)%nat →
  json_ok j = true → forallb json_ok l = true → d + jdepth j ≤ maxNestingDepth →
  d + foldr (λ j d, Z.max (jdepth j) d) 0 l ≤ maxNestingDepth →
  elements (S n) d (render j +:+ arr_tail l +:+ r) = Some (map jv (j :: l), r).
Proof.
  induction 1 as [|j' l Hj' _ IH]; intros j n d r Hj Hn Hok Hoks Hd Hds.
  - destruct n as [|n]; [simpl in Hn; lia|]. cbn [elements]. cbn [arr_tail] in *. simpl in Hn.
    rewrite (Hj n d) by (done || lia || apply (delim_arr [])). done.
  - cbn [arr_tail forallb foldr] in *. apply andb_true_iff in Hoks as [Hok' Hoks].
    rewrite !length_append in Hn. simpl in Hn. destruct n as [|n]; [lia|]. set (m := S n). cbn [elements]. unfold m.
    rewrite (Hj n d) by (done || lia || apply (delim_arr (j' :: l))).
    rewrite !append_assoc. change (skip ("," +:+ ?x)) with (String "," x).
    change (ord "," =? 44) with true. cbv iota. rewrite (IH j' n d r) by (done || lia). done.
Qed.

Lemma quote_cons k r : quote k +:+ r = String (chr 34) (quote_body k +:+ dquote +:+ r).
Proof. unfold quote. by rewrite !append_assoc. Qed.

Lemma members_render l : Forall (λ kj, reads kj.2) l → ∀ k j n d r, reads j →
  (2 * (String.length (render j) + String.length (obj_tail l)) ≤ n)%nat →
  utf8_valid k = true → json_ok j = true → forallb (λ kj, utf8_valid kj.1 && json_ok kj.2) l = true →
  d + jdepth j ≤ maxNestingDepth → d + foldr (λ kj d, Z.max (jdepth kj.2) d) 0 l ≤ maxNestingDepth →
  members (S n) d (quote k +:+ ":" +:+ render j +:+ obj_tail l +:+ r) =
    Some (map (λ kj, (kj.1, jv kj.2)) ((k, j) :: l), r).
Proof.
  induction 1 as [|[k' j'] l Hj' _ IH]; intros k j n d r Hj Hn Hk Hok Hoks Hd Hds;
    rewrite quote_cons; cbn [members]; change (skip (String (chr 34) ?x)) with (String (chr 34) x);
    change (ord (chr 34) =? 34) with true; cbn [negb]; rewrite string_body_quote by done;
    change (skip (":" +:+ ?x)) with (String ":" x); change (ord ":" =? 58) with true; cbn [negb].
  - destruct n as [|n]; [simpl in Hn; lia|]. cbn [obj_tail] in *. simpl in Hn.
    rewrite (Hj n d) by (done || lia || apply (delim_obj [])). done.
  - cbn [obj_tail forallb foldr fst snd] in *. apply andb_true_iff in Hoks as [Hok' Hoks].
    apply andb_true_iff in Hok' as [Hk' Hok'].
    rewrite !length_append in Hn. simpl in Hn. destruct n as [|n]; [lia|].
    rewrite (Hj n d) by (done || lia || apply (delim_obj ((k', j') :: l))).
    rewrite !append_assoc. change (skip ("," +:+ ?x)) with (String "," x).
    change (ord "," =? 44) with true. cbv iota. rewrite (IH k' j' n d r) by (done || lia). done.
Qed.

Lemma value_number (z : Z) n d r : delim r → value (S n) d (pretty z +:+ r) = Some (VNum (pretty z), r).
Proof.
  intros Hr. pose proof (number_pretty z r Hr) as Hn. pose proof (skip_render (JNum z) r) as Hs. cbn [render] in Hs.
  cbn [value]. rewrite Hs.
  assert (∃ a t, (pretty z : string) = String a t ∧ (ord a = 45 ∨ 48 ≤ ord a ≤ 57)) as (a & t & Heq & Ha).
  { destruct z as [|p|p]; [by eexists _, _; split; [|right; vm_compute]|..|by eexists _, _; split; [|left]].
    destruct (pretty_N_go_digits (N.pos p) "" ltac:(lia)) as (a & t & Heq & Ha & _). exists a, (t +:+ ""). split; [exact Heq|lia]. }
  rewrite Heq, append_cons in *.
  assert (∀ w p s, w ≠ 45 → ¬ (48 ≤ w ≤ 57) → 0 ≤ w < 256 → strip (String (chr w) p) (String a s) = None) as Hst.
  { intros w p s ? ? ?. cbn [strip]. rewrite ord_chr by done. by rewrite (proj2 (Z.eqb_neq _ _)) by lia. }
  rewrite !(proj2 (Z.eqb_neq (ord a) _)) by lia.
  rewrite (Hst 110), (Hst 116), (Hst 102) by lia. by rewrite Hn.
Qed.

Lemma foldr_max_nonneg {A} (f : A → Z) l : 0 ≤ foldr (λ x d, Z.max (f x) d) 0 l.
Proof. induction l; simpl; lia. Qed.

Lemma all_read j : reads j.
Proof.
  induction j as [|b|z|s|l Hl|l Hl] using json_nested_ind; intros n d r Hn Hok Hd Hr.
  - reflexivity.
  - by destruct b.
  - by apply value_number.
  - cbn [render json_ok] in *. rewrite quote_cons. cbn [value].
    change (skip (String (chr 34) ?x)) with (String (chr 34) x). change (ord (chr 34) =? 34) with true. cbv iota.
    by rewrite string_body_quote.
  - destruct Hl as [|j l Hj Hl].
    { cbn [value]. change (skip (render (JArr []) +:+ r)) with (String "[" (String "]" r)).
      change (ord "[" =? 34) with false. change (ord "[" =? 91) with true. cbn [jdepth foldr] in Hd.
      by rewrite (proj2 (Z.ltb_ge _ _)) by lia. }
    pose proof (foldr_max_nonneg jdepth l).
    rewrite render_arr in *. cbn [jdepth foldr json_ok forallb] in *. apply andb_true_iff in Hok as [Hok Hoks].
    rewrite !length_append in Hn. simpl in Hn. destruct n as [|n]; [lia|].
    rewrite !append_assoc. cbn [value]. change (skip ("[" +:+ ?x)) with (String "[" x).
    change (ord "[" =? 34) with false. change (ord "[" =? 91) with true. cbv iota.
    rewrite (proj2 (Z.ltb_ge _ _)) by lia. rewrite skip_render.
    rewrite (elements_render l Hl j n (d + 1) r) by (done || lia).
    destruct (render_head j) as (a & t & -> & _ & Hne & _).
    rewrite append_cons. by rewrite (proj2 (Z.eqb_neq (ord a) 93)).
  - destruct Hl as [|[k j] l Hj Hl].
    { cbn [value]. change (skip (render (JObj []) +:+ r)) with (String "{" (String "}" r)).
      change (ord "{" =? 34) with false. change (ord "{" =? 91) with false. change (ord "{" =? 123) with true.
      cbn [jdepth foldr] in Hd. by rewrite (proj2 (Z.ltb_ge _ _)) by lia. }
    pose proof (foldr_max_nonneg (λ kj : string * json, jdepth kj.2) l).
    rewrite render_obj in *. cbn [jdepth foldr json_ok forallb fst snd] in *. rewrite !andb_true_iff in Hok.
    destruct Hok as [[Hk Hok] Hoks]. rewrite !length_append in Hn. simpl in Hn. destruct n as [|n]; [lia|].
    rewrite !append_assoc. cbn [value]. change (skip ("{" +:+ ?x)) with (String "{" x).
    change (ord "{" =? 34) with false. change (ord "{" =? 91) with false. change (ord "{" =? 123) with true. cbv iota.
    rewrite (proj2 (Z.ltb_ge _ _)) by lia.
    rewrite (members_render l Hl k j n (d + 1) r) by (done || lia). by rewrite (quote_cons k).
Qed.

(** Decoding inverts encoding. *)
Lemma parse_render j : json_ok j = true → jdepth j ≤ maxNestingDepth → parse (render j) = Some (jv j).
Proof.
  intros Hok Hd. unfold parse. rewrite Nat.add_1_r.
  pose proof (all_read j (2 * String.length (render j))%nat 0 "" ltac:(lia) Hok ltac:(lia) I) as Hr.
  rewrite append_nil in Hr. by rewrite Hr.
Qed.

(** ** The fuel of [parse] is enough *)
Lemma prepend_Some p x t r : prepend p x = Some (t, r) → ∃ t', x = Some (t', r).
Proof. destruct x as [[t' r']|]; [|done]. intros [= _ <-]. eauto. Qed.

Lemma string_body_shorter s : ∀ t r, string_body s = Some (t, r) → (String.length r < String.length s)%nat.
Proof.
  remember (String.length s) as n eqn:Hn. revert s Hn. induction (lt_wf n) as [n _ IH]. intros s -> t r.
  assert (∀ s', (String.length s' < String.length s)%nat → ∀ p t r, prepend p (string_body s') = Some (t, r) →
    (String.length r < String.length s)%nat) as IH'.
  { intros s' Hl p t' r' (t2 & Hp)%prepend_Some. pose proof (IH _ Hl s' eq_refl _ _ Hp). lia. }
  clear IH. destruct s as [|a s1]; [done|]. cbn [string_body]. intros Hs.
  repeat case_match; simplify_eq; try (by eapply IH'; [|exact Hs]; simpl; lia); simpl; lia.
Qed.

Lemma skip_length s : (String.length (skip s) ≤ String.length s)%nat.
Proof. induction s as [|a s IH]; simpl; [lia|]. case_match; simpl; lia. Qed.

Lemma strip_length p : ∀ s r, strip p s = Some r → (String.length r + String.length p = String.length s)%nat.
Proof.
  induction p as [|a p IH]; intros s r Hs; cbn [strip String.length] in *; [simplify_eq; lia|].
  destruct s as [|b s]; [done|]. destruct (ord a =? ord b); [|done]. apply IH in Hs. simpl. lia.
Qed.

Lemma span_digits_length s : (String.length (span_digits s).2 ≤ String.length s)%nat.
Proof. induction s as [|a s IH]; simpl; [lia|]. case_match; [|simpl; lia]. destruct (span_digits s). simpl in *. lia. Qed.

Lemma digits1_length s d r : digits1 s = Some (d, r) → (String.length r ≤ String.length s)%nat.
Proof.
  unfold digits1. pose proof (span_digits_length s) as Hl. destruct (span_digits s) as [[] r']; [done|].
  intros [= <- <-]. done.
Qed.

Lemma number_shorter s lit r : number s = Some (lit, r) → (String.length r < String.length s)%nat.
Proof.
  unfold number. destruct (match s with String a s' => _ | EmptyString => _ end) as [sign s0] eqn:Hs0.
  assert (String.length s0 ≤ String.length s)%nat as H0 by (repeat case_match; simplify_eq; simpl; lia).
  destruct (num_int s0) as [[i s1]|] eqn:Hi; [|done].
  assert (String.length s1 < String.length s0)%nat as H1.
  { unfold num_int in Hi. destruct s0 as [|a s0']; [done|]. pose proof (span_digits_length s0').
    destruct (span_digits s0') as [d r']. simpl in *.
    destruct (ord a =? 48); [|destruct (is_digit a); [|done]]; simplify_eq; lia. }
  destruct (num_frac s1) as [[f s2]|] eqn:Hf; [|done].
  assert (String.length s2 ≤ String.length s1)%nat as H2.
  { unfold num_frac in Hf. destruct s1 as [|b s1']; [by simplify_eq|]. destruct (ord b =? 46); [|by simplify_eq].
    apply prepend_Some in Hf as [? Hf%digits1_length]. simpl. lia. }
  destruct (num_exp s2) as [[e s3]|] eqn:He; [|done]. intros [= _ <-].
  assert (String.length s3 ≤ String.length s2)%nat; [|lia].
  unfold num_exp in He. destruct s2 as [|b s2']; [by simplify_eq|].
  destruct (_ || _) in He; [|by simplify_eq]. destruct s2' as [|c s2']; [done|].
  destruct (_ || _) in He; apply prepend_Some in He as [? He%digits1_length]; simpl in *; lia.
Qed.

(** Equations of the recursive descent, with the fuel named. *)
Lemma value_S n d s : value (S n) d s =
  match skip s with
  | EmptyString => None
  | String a s1 =>
    if ord a =? 34 then match string_body s1 with Some (t, r) => Some (VStr t, r) | None => None end
    else if ord a =? 91 then
      if maxNestingDepth <? d + 1 then None
      else match skip s1 with
           | String b s2 => if ord b =? 93 then Some (VArr [], s2)
                            else match elements n (d + 1) s1 with Some (l, r) => Some (VArr l, r) | None => None end
           | EmptyString => None
           end
    else if ord a =? 123 then
      if maxNestingDepth <? d + 1 then None
      else match skip s1 with
           | String b s2 => if ord b =? 125 then Some (VObj [], s2)
                            else match members n (d + 1) s1 with Some (l, r) => Some (VObj l, r) | None => None end
           | EmptyString => None
           end
    else value 1 d (String a s1)
  end.
Proof.
  cbn [value]. destruct (skip s) as [|a s1] eqn:Hs; [done|].
  assert (is_space a = false) as Ha.
  { clear -Hs. induction s as [|b s IH]; [done|]. cbn [skip] in Hs. destruct (is_space b) eqn:Hb; [by apply IH|]. by simplify_eq. }
  rewrite skip_head by done. repeat case_match; done.
Qed.

Lemma scan_shorter n :
  (∀ d s v r, value n d s = Some (v, r) → (String.length r < String.length s)%nat) ∧
  (∀ d s l r, elements n d s = Some (l, r) → (String.length r < String.length s)%nat) ∧
  (∀ d s l r, members n d s = Some (l, r) → (String.length r < String.length s)%nat).
Proof.
  induction n as [|n (IHv & IHe & IHm)]; [done|]. split_and!; intros d s v r.
  - cbn [value]. pose proof (skip_length s) as Hs. destruct (skip s) as [|a s1]; [done|]. simpl in Hs.
    destruct (ord a =? 34).
    { destruct (string_body s1) as [[t r']|] eqn:Hb; [|done]. intros [= _ <-]. apply string_body_shorter in Hb. lia. }
    pose proof (skip_length s1) as Hs1. destruct (ord a =? 91); [|destruct (ord a =? 123)].
    + destruct (_ <? _); [done|]. destruct (skip s1) as [|b s2]; [done|]. simpl in Hs1.
      destruct (ord b =? 93); [intros [= _ <-]; lia|].
      destruct (elements _ _ s1) as [[l r']|] eqn:He; [|done]. intros [= _ <-]. apply IHe in He. lia.
    + destruct (_ <? _); [done|]. destruct (skip s1) as [|b s2]; [done|]. simpl in Hs1.
      destruct (ord b =? 125); [intros [= _ <-]; lia|].
      destruct (members _ _ s1) as [[l r']|] eqn:He; [|done]. intros [= _ <-]. apply IHm in He. lia.
    + destruct (strip "null" _) as [r1|] eqn:H1; [intros [= _ <-]; apply strip_length in H1; simpl in *; lia|].
      destruct (strip "true" _) as [r2|] eqn:H2; [intros [= _ <-]; apply strip_length in H2; simpl in *; lia|].
      destruct (strip "false" _) as [r3|] eqn:H3; [intros [= _ <-]; apply strip_length in H3; simpl in *; lia|].
      destruct (number _) as [[lit r4]|] eqn:H4; [|done]. intros [= _ <-]. apply number_shorter in H4. simpl in *; lia.
  - cbn [elements]. destruct (value n d s) as [[v' r0]|] eqn:Hv; [|done]. apply IHv in Hv.
    pose proof (skip_length r0) as Hr. destruct (skip r0) as [|b r1]; [done|]. simpl in Hr.
    destruct (ord b =? 44); [|destruct (ord b =? 93); [|done]; intros [= _ <-]; lia].
    destruct (elements n d r1) as [[l r2]|] eqn:He; [|done]. intros [= _ <-]. apply IHe in He. lia.
  - cbn [members]. pose proof (skip_length s) as Hs. destruct (skip s) as [|q s0]; [done|]. simpl in Hs.
    destruct (negb _); [done|]. destruct (string_body s0) as [[k r0]|] eqn:Hk; [|done]. apply string_body_shorter in Hk.
    pose proof (skip_length r0) as Hr. destruct (skip r0) as [|c r1]; [done|]. simpl in Hr. destruct (negb _); [done|].
    destruct (value n d r1) as [[v' r2]|] eqn:Hv; [|done]. apply IHv in Hv.
    pose proof (skip_length r2) as Hr2. destruct (skip r2) as [|b r3]; [done|]. simpl in Hr2.
    destruct (ord b =? 44); [|destruct (ord b =? 125); [|done]; intros [= _ <-]; lia].
    destruct (members n d r3) as [[l r4]|] eqn:He; [|done]. intros [= _ <-]. apply IHm in He. lia.
Qed.

(** More fuel than two units per octet changes nothing: the decoder never stops
    for want of it. *)
Lemma scan_fuel n : ∀ m d s,
  ((2 * String.length s < n)%nat → (2 * String.length s < m)%nat → value n d s = value m d s) ∧
  ((2 * String.length s + 1 < n)%nat → (2 * String.length s + 1 < m)%nat → elements n d s = elements m d s) ∧
  ((2 * String.length s + 1 < n)%nat → (2 * String.length s + 1 < m)%nat → members n d s = members m d s).
Proof.
  induction n as [|n IH]; intros m d s; [lia|]. destruct m as [|m]; [lia|]. split_and!; intros Hn Hm.
  - rewrite !value_S. pose proof (skip_length s) as Hs. destruct (skip s) as [|a s1]; [done|]. simpl in Hs.
    destruct (IH m (d + 1) s1) as (_ & He & Hmb). rewrite He, Hmb by lia. done.
  - cbn [elements]. destruct (IH m d s) as (Hv & _ & _). rewrite Hv by lia.
    destruct (value m d s) as [[v r]|] eqn:Hr; [|done]. apply (proj1 (scan_shorter m)) in Hr.
    pose proof (skip_length r) as Hs. destruct (skip r) as [|b r1]; [done|]. simpl in Hs.
    destruct (IH m d r1) as (_ & He & _). by rewrite He by lia.
  - cbn [members]. pose proof (skip_length s) as Hs. destruct (skip s) as [|q s0]; [done|]. simpl in Hs.
    destruct (negb _); [done|]. destruct (string_body s0) as [[k r0]|] eqn:Hk; [|done]. apply string_body_shorter in Hk.
    pose proof (skip_length r0) as Hr. destruct (skip r0) as [|c r1]; [done|]. simpl in Hr. destruct (negb _); [done|].
    destruct (IH m d r1) as (Hv & _ & _). rewrite Hv by lia.
    destruct (value m d r1) as [[v r2]|] eqn:Hr2; [|done]. apply (proj1 (scan_shorter m)) in Hr2.
    pose proof (skip_length r2) as Hs2. destruct (skip r2) as [|b r3]; [done|]. simpl in Hs2.
    destruct (IH m d r3) as (_ & _ & He). by rewrite He by lia.
Qed.

Lemma value_fuel n s : (2 * String.length s < n)%nat → value n 0 s = value (2 * String.length s + 1) 0 s.
Proof. intros Hn. apply (scan_fuel n); lia. Qed.
