(* ===== verification/GoDecode.v ===== *)
(** * Storing decoded JSON into Go values

    The second half of [json.Unmarshal]: strings, integers of a width, byte
    slices in base64, times in RFC 3339, slices and structs.  A null leaves the
    target as it is (a slice becomes nil), an unknown key is ignored, keys match
    up to case folding, and a value of the wrong type makes the call fail.
    Decoding into a fresh target is all the code does. *)

From S2P Require Import Prelude GoJson Json.
From Stdlib Require Import Ascii.

Local Open Scope string_scope.
Local Open Scope Z_scope.

(** ** Base64

    [base64.StdEncoding.Decode]: line ends are skipped, trailing bits are not
    checked, padding is required and ends the input. *)
Definition b64_val (a : ascii) : option Z :=
  let z := ord a in
  if between 65 90 z then Some (z - 65)
  else if between 97 122 z then Some (z - 71)
  else if between 48 57 z then Some (z + 4)
  else if z =? 43 then Some 62
  else if z =? 47 then Some 63
  else None.

Fixpoint drop_newlines (s : string) : string :=
  match s with
  | EmptyString => EmptyString
  | String a s' => if (ord a =? 10) || (ord a =? 13) then drop_newlines s' else String a (drop_newlines s')
  end.

Fixpoint b64_dec (s : string) : option string :=
  match s with
  | EmptyString => Some ""
  | String a (String b (String c (String d s'))) =>
    x ← b64_val a; y ← b64_val b;
    let o1 := chr (x * 4 + y / 16) in
    if ord c =? 61 then
      if (ord d =? 61) && is_empty s' then Some (String o1 "") else None
    else
      z ← b64_val c;
      let o2 := chr (y mod 16 * 16 + z / 4) in
      if ord d =? 61 then if is_empty s' then Some (String o1 (String o2 "")) else None
      else
        w ← b64_val d; t ← b64_dec s';
        Some (String o1 (String o2 (String (chr (z mod 4 * 64 + w)) t)))
  | _ => None
  end.

Definition base64_decode (s : string) : option string := b64_dec (drop_newlines s).

(** ** Times *)
Definition leap (y : Z) : bool := (y mod 4 =? 0) && (negb (y mod 100 =? 0) || (y mod 400 =? 0)).

Definition daysIn (m y : Z) : Z :=
  if m =? 2 then if leap y then 29 else 28
  else if (m =? 4) || (m =? 6) || (m =? 9) || (m =? 11) then 30 else 31.

(** The day number of a date of the proleptic Gregorian calendar. *)
Definition days_of_civil (y m d : Z) : Z :=
  let y' := if m <=? 2 then y - 1 else y in
  let era := y' / 400 in
  let yoe := y' mod 400 in
  let doy := (153 * (if 2 <? m then m - 3 else m + 9) + 2) / 5 + d - 1 in
  era * 146097 + (yoe * 365 + yoe / 4 - yoe / 100 + doy) - 719468.

(** [n] characters that are digits, with a value between the bounds, and the
    rest. *)
Fixpoint take_chars (n : nat) (s : string) : option (string * string) :=
  match n, s with
  | O, _ => Some ("", s)
  | S n', String a s' => match take_chars n' s' with Some (t, r) => Some (String a t, r) | None => None end
  | S _, EmptyString => None
  end.

Definition num_field (n : nat) (lo hi : Z) (s : string) : option (Z * string) :=
  match take_chars n s with
  | None => None
  | Some (t, r) => match digits_val 0 t with Some z => if between lo hi z then Some (z, r) else None | None => None end
  end.

Definition lit (c : Z) (s : string) : option string :=
  match s with String a s' => if ord a =? c then Some s' else None | EmptyString => None end.

(** The fraction of a second in nanoseconds; digits beyond the ninth are dropped. *)
Fixpoint scale (n : nat) (z : Z) (s : string) : Z :=
  match n with
  | O => z
  | S n' => match s with String a s' => scale n' (z * 10 + (ord a - 48)) s' | EmptyString => scale n' (z * 10) s end
  end.

Definition nanos (s : string) : Z * string :=
  match s with
  | String a s' =>
    if ord a =? 46 then
      match span_digits s' with (EmptyString, _) => (0, s) | (ds, r) => (scale 9 0 ds, r) end
    else (0, s)
  | EmptyString => (0, s)
  end.

(** The offset of the zone in seconds; the input ends with it. *)
Definition zone (s : string) : option Z :=
  match s with
  | String a s' =>
    if (ord a =? 90) && is_empty s' then Some 0
    else if (ord a =? 43) || (ord a =? 45) then
      '(h, s1) ← num_field 2 0 23 s'; s2 ← lit 58 s1; '(mm, s3) ← num_field 2 0 59 s2;
      if is_empty s3 then Some ((if ord a =? 45 then -1 else 1) * (h * 60 + mm) * 60) else None
    else None
  | EmptyString => None
  end.

Definition rfc3339_parse (s : string) : option Z :=
  '(y, s) ← num_field 4 0 9999 s; s ← lit 45 s; '(m, s) ← num_field 2 1 12 s; s ← lit 45 s;
  '(d, s) ← num_field 2 1 (daysIn m y) s; s ← lit 84 s; '(hh, s) ← num_field 2 0 23 s; s ← lit 58 s;
  '(mi, s) ← num_field 2 0 59 s; s ← lit 58 s; '(ss, s) ← num_field 2 0 59 s;
  let '(ns, s) := nanos s in
  off ← zone s;
  Some ((days_of_civil y m d * 86400 + hh * 3600 + mi * 60 + ss - off) * second + ns).

(** ** Storing *)
Abbreviation store T := (T → jval → res string T).

Definition mismatch : string := "json: cannot unmarshal value into Go value".

Definition store_string : store string := λ old v,
  match v with VStr s => Ok s | VNull => Ok old | _ => Err mismatch end.

Definition store_uint (bits : Z) : store Z := λ old v,
  match v with
  | VNum l => match ParseUint bits l with Some z => Ok z | None => Err mismatch end
  | VNull => Ok old
  | _ => Err mismatch
  end.

Definition store_int (bits : Z) : store Z := λ old v,
  match v with
  | VNum l => match ParseInt bits l with Some z => Ok z | None => Err mismatch end
  | VNull => Ok old
  | _ => Err mismatch
  end.

(** Elements of a slice start from their zero value; null makes it nil. *)
Fixpoint store_elems {T} (zero : T) (st : store T) (l : list jval) : res string (list T) :=
  match l with
  | [] => Ok []
  | v :: l' => x ← st zero v; xs ← store_elems zero st l'; Ok (x :: xs)
  end.

Definition store_slice {T} (zero : T) (st : store T) : store (list T) := λ _ v,
  match v with
  | VArr l => store_elems zero st l
  | VNull => Ok []
  | _ => Err mismatch
  end.

(** A byte slice is base64 text, or an array of octets. *)
Definition store_bytes : store bytes := λ _ v,
  match v with
  | VStr s => match base64_decode s with Some b => Ok b | None => Err "illegal base64 data" end
  | VArr l => zs ← store_elems 0 (store_uint 8) l; Ok (string_of zs)
  | VNull => Ok ""
  | _ => Err mismatch
  end.

(** [Time.UnmarshalJSON]; null is ignored.  [lenient] is the general parser of
    [time.Parse], which is tried on what the RFC 3339 parser refuses. *)
Definition store_time (lenient : string → option Z) : store Z := λ old v,
  match v with
  | VStr s =>
    match rfc3339_parse s with
    | Some t => Ok t
    | None => match lenient s with Some t => Ok t | None => Err "parsing time" end
    end
  | VNull => Ok old
  | _ => Err "Time.UnmarshalJSON: input is not a JSON string"
  end.

(** [foldName]: upper case, with the two runes outside ASCII that fold to a
    letter. *)
Fixpoint fold_key (s : string) : string :=
  match s with
  | EmptyString => EmptyString
  | String a s1 =>
    let plain := String (if between 97 122 (ord a) then chr (ord a - 32) else a) (fold_key s1) in
    match s1 with
    | String b s2 =>
      if (ord a =? 197) && (ord b =? 191) then String "S" (fold_key s2)
      else match s2 with
           | String c s3 =>
             if (ord a =? 226) && (ord b =? 132) && (ord c =? 170) then String "K" (fold_key s3) else plain
           | EmptyString => plain
           end
    | EmptyString => plain
    end
  end.

(** A struct is a table of field names and what to do with their values. *)
Fixpoint field_of {T} (fields : list (string * store T)) (k : string) : option (store T) :=
  match fields with
  | [] => None
  | (name, st) :: fs => if bool_decide (fold_key k = fold_key name) then Some st else field_of fs k
  end.

Fixpoint store_members {T} (fields : list (string * store T)) (old : T) (l : list (string * jval)) : res string T :=
  match l with
  | [] => Ok old
  | (k, v) :: l' =>
    match field_of fields k with
    | None => store_members fields old l'
    | Some st => x ← st old v; store_members fields x l'
    end
  end.

Definition store_struct {T} (fields : list (string * store T)) : store T := λ old v,
  match v with
  | VObj l => store_members fields old l
  | VNull => Ok old
  | _ => Err mismatch
  end.

(** One field of a struct: read it, store into it, write it back. *)
Definition field {T F} (get : T → F) (set : F → T → T) (st : store F) : store T := λ x v,
  y ← st (get x) v; Ok (set y x).

(** [json.Unmarshal] into a fresh value. *)
Definition Unmarshal {T} (zero : T) (st : store T) (data : bytes) : res string T :=
  match parse data with None => Err "invalid JSON" | Some v => st zero v end.

(** ** Round trips of the parts *)
Lemma b64_char_ord z : 0 ≤ z < 64 → b64_val (b64_char z) = Some z ∧ ord (b64_char z) ≠ 61 ∧
  ord (b64_char z) ≠ 10 ∧ ord (b64_char z) ≠ 13.
Proof.
  intros Hz. unfold b64_char, b64_val, between.
  destruct (z <? 26) eqn:H1; [|destruct (z <? 52) eqn:H2; [|destruct (z <? 62) eqn:H3; [|destruct (z =? 62) eqn:H4]]]; zbool.
  4: assert (z = 62) as -> by lia; by vm_compute.
  4: assert (z = 63) as -> by lia; by vm_compute.
  all: rewrite ord_chr by lia.
  - replace (_ && _) with true by lia. split_and!; [f_equal; lia|lia..].
  - replace ((65 <=? _) && _) with false by lia. replace (_ && _) with true by lia. split_and!; [f_equal; lia|lia..].
  - replace ((65 <=? _) && _) with false by lia. replace ((97 <=? _) && _) with false by lia.
    replace (_ && _) with true by lia. split_and!; [f_equal; lia|lia..].
Qed.

(** Induction over groups of three octets. *)
Lemma string_ind3 (P : string → Prop) : P "" → (∀ a, P (String a "")) → (∀ a b, P (String a (String b ""))) →
  (∀ a b c s, P s → P (String a (String b (String c s)))) → ∀ s, P s.
Proof.
  intros H0 H1 H2 H3. fix F 1. intros [|a [|b [|c s]]]; [apply H0|apply H1|apply H2|apply H3, F].
Qed.

Lemma drop_newlines_base64 s : drop_newlines (base64 s) = base64 s.
Proof.
  assert (∀ z t, 0 ≤ z < 64 → drop_newlines (String (b64_char z) t) = String (b64_char z) (drop_newlines t)) as Hc.
  { intros z t Hz. destruct (b64_char_ord z Hz) as (_ & _ & H1 & H2). cbn [drop_newlines].
    by rewrite (proj2 (Z.eqb_neq _ _) H1), (proj2 (Z.eqb_neq _ _) H2). }
  induction s as [|a|a b|a b c s IH] using string_ind3; [done|..];
    pose proof (ord_range a) as Ha; try pose proof (ord_range b) as Hb; try pose proof (ord_range c) as Hcc;
    cbn [base64]; rewrite !Hc by (zify; Z.to_euclidean_division_equations; lia); [done|done|by rewrite IH].
Qed.

(** The octets a group stands for. *)
Lemma chr_is a z : z = ord a → chr z = a.
Proof. intros ->. apply chr_ord. Qed.

Lemma b64_dec_base64 s : b64_dec (base64 s) = Some s.
Proof.
  induction s as [|a|a b|a b c s IH] using string_ind3; [done|..];
    pose proof (ord_range a) as Ha; try pose proof (ord_range b) as Hb; try pose proof (ord_range c) as Hc;
    cbn [base64 b64_dec];
    destruct (b64_char_ord (ord a / 4)) as (V1 & _); try (Z.to_euclidean_division_equations; lia); rewrite V1; simpl.
  - destruct (b64_char_ord (ord a mod 4 * 16)) as (V2 & _); [Z.to_euclidean_division_equations; lia|]. rewrite V2. simpl.
    do 2 f_equal. apply chr_is. Z.to_euclidean_division_equations; lia.
  - destruct (b64_char_ord (ord a mod 4 * 16 + ord b / 16)) as (V2 & _); [Z.to_euclidean_division_equations; lia|].
    destruct (b64_char_ord (ord b mod 16 * 4)) as (V3 & N3 & _); [Z.to_euclidean_division_equations; lia|].
    rewrite V2. simpl. rewrite (proj2 (Z.eqb_neq _ _) N3), V3. simpl.
    do 2 f_equal; [|f_equal]; apply chr_is; Z.to_euclidean_division_equations; lia.
  - destruct (b64_char_ord (ord a mod 4 * 16 + ord b / 16)) as (V2 & _); [Z.to_euclidean_division_equations; lia|].
    destruct (b64_char_ord (ord b mod 16 * 4 + ord c / 64)) as (V3 & N3 & _); [Z.to_euclidean_division_equations; lia|].
    destruct (b64_char_ord (ord c mod 64)) as (V4 & N4 & _); [Z.to_euclidean_division_equations; lia|].
    rewrite V2. simpl. rewrite (proj2 (Z.eqb_neq _ _) N3), V3. simpl. rewrite (proj2 (Z.eqb_neq _ _) N4), V4. simpl.
    rewrite IH. simpl. do 2 f_equal; [|f_equal; [|f_equal]]; apply chr_is; Z.to_euclidean_division_equations; lia.
Qed.

Lemma base64_roundtrip s : base64_decode (base64 s) = Some s.
Proof. unfold base64_decode. by rewrite drop_newlines_base64, b64_dec_base64. Qed.

Lemma ParseUint_pretty bits z : 0 ≤ z < 2 ^ bits → ParseUint bits (pretty z) = Some z.
Proof.
  intros Hz. unfold ParseUint. destruct z as [|p|p]; [| |lia].
  - change (is_empty (pretty 0)) with false. change (digits_val 0 (pretty 0)) with (Some 0). cbv beta iota zeta.
    by rewrite (proj2 (Z.ltb_lt _ _)) by lia.
  - rewrite pretty_pos, (digits_val_pretty (N.pos p) ""). cbn [digits_val]. rewrite (proj2 (Z.ltb_lt _ _)) by lia.
    destruct (pretty_N_go_digits (N.pos p) "" ltac:(lia)) as (a & t & -> & _). done.
Qed.

Lemma ParseInt_pretty bits z : - 2 ^ (bits - 1) ≤ z < 2 ^ (bits - 1) → ParseInt bits (pretty z) = Some z.
Proof.
  intros Hz. unfold ParseInt. destruct z as [|p|p].
  - change (pretty 0 : string) with "0". cbv beta iota zeta. change (ord "0" =? 45) with false.
    change (ord "0" =? 43) with false. cbv beta iota zeta.
    change (is_empty "0") with false. change (digits_val 0 "0") with (Some 0). cbv beta iota zeta.
    by rewrite (proj2 (Z.ltb_lt _ _)) by lia.
  - rewrite pretty_pos. pose proof (digits_val_pretty (N.pos p) "") as Hv.
    destruct (pretty_N_go_digits (N.pos p) "" ltac:(lia)) as (a & t & Heq & Ha & _). rewrite Heq in *.
    rewrite !(proj2 (Z.eqb_neq (ord a) _)) by lia. rewrite Hv. cbn [digits_val is_empty]. by rewrite (proj2 (Z.ltb_lt _ _)) by lia.
  - change (pretty (Z.neg p) : string) with (String "-" (pretty_N_go (N.pos p) "")).
    cbv beta iota zeta. change (ord "-" =? 45) with true. cbv beta iota zeta.
    rewrite (digits_val_pretty (N.pos p) ""). cbn [digits_val]. rewrite (proj2 (Z.leb_le _ _)) by lia.
    destruct (pretty_N_go_digits (N.pos p) "" ltac:(lia)) as (a & t & -> & _). done.
Qed.

(** *** Times *)
Lemma digits_all n z : all_digits (digits n z) = true.
Proof.
  induction n as [|n IH]; [done|]. cbn [digits all_digits]. rewrite IH, andb_true_r. unfold is_digit.
  pose proof (Z.mod_pos_bound (z / 10 ^ Z.of_nat n) 10 ltac:(lia)). rewrite ord_chr by lia. apply between_spec. lia.
Qed.

Lemma digits_length n z : String.length (digits n z) = n.
Proof. induction n as [|n IH]; simpl; congruence. Qed.

Lemma digits_val_digits n z : ∀ acc, digits_val acc (digits n z) = Some (acc * 10 ^ Z.of_nat n + z mod 10 ^ Z.of_nat n).
Proof.
  induction n as [|n IH]; intros acc.
  - cbn [digits digits_val]. rewrite Z.mod_1_r. f_equal. lia.
  - cbn [digits digits_val]. pose proof (Z.mod_pos_bound (z / 10 ^ Z.of_nat n) 10 ltac:(lia)) as Hm.
    unfold is_digit. rewrite ord_chr by lia. rewrite (proj2 (between_spec _ _ _)) by lia. rewrite IH. f_equal.
    rewrite Nat2Z.inj_succ, Z.pow_succ_r by lia. rewrite (Z.mul_comm 10), Z.rem_mul_r by lia. lia.
Qed.

Lemma take_chars_app t r : take_chars (String.length t) (t +:+ r) = Some (t, r).
Proof. induction t as [|a t IH]; [by destruct r|]. rewrite append_cons. simpl. by rewrite IH. Qed.

Lemma num_field_digits n z lo hi r : 0 ≤ z < 10 ^ Z.of_nat n → lo ≤ z ≤ hi →
  num_field n lo hi (digits n z +:+ r) = Some (z, r).
Proof.
  intros Hz Hb. unfold num_field. rewrite <- (digits_length n z) at 1. rewrite take_chars_app, digits_val_digits.
  rewrite Z.mul_0_l, Z.add_0_l, Z.mod_small by done. by rewrite (proj2 (between_spec _ _ _)).
Qed.

Lemma frac_cases n : ∀ z, 0 ≤ z < 10 ^ Z.of_nat n →
  (z = 0 ∧ frac n z = "") ∨
  ∃ k z', (1 ≤ k ≤ n)%nat ∧ z = z' * 10 ^ Z.of_nat (n - k) ∧ 0 ≤ z' < 10 ^ Z.of_nat k ∧ frac n z = "." +:+ digits k z'.
Proof.
  induction n as [|n IH]; intros z Hz; [left; split; [simpl in Hz; lia|done]|].
  cbn [frac]. destruct (z mod 10 =? 0) eqn:Hm; zbool.
  - rewrite Nat2Z.inj_succ, Z.pow_succ_r in Hz by lia.
    destruct (IH (z / 10)) as [[H0 ->]|(k & z' & Hk & Hz' & Hr & ->)].
    + split; [apply Z.div_pos; lia|apply Z.div_lt_upper_bound; lia].
    + left. split; [|done]. pose proof (Z.div_mod z 10 ltac:(lia)). lia.
    + right. exists k, z'. split_and!; try lia; [|done]. rewrite (Nat.sub_succ_l k n), Nat2Z.inj_succ, Z.pow_succ_r by lia.
      pose proof (Z.div_mod z 10 ltac:(lia)). lia.
  - right. exists (S n), z. rewrite Nat.sub_diag. split_and!; try done; lia.
Qed.

Lemma scale_digits k : ∀ n acc z, (k ≤ n)%nat →
  scale n acc (digits k z) = (acc * 10 ^ Z.of_nat k + z mod 10 ^ Z.of_nat k) * 10 ^ Z.of_nat (n - k).
Proof.
  induction k as [|k IH]; intros n acc z Hk.
  - rewrite Nat.sub_0_r, Z.mod_1_r. simpl Z.of_nat. rewrite Z.pow_0_r. revert acc. clear Hk.
    induction n as [|n IH]; intros acc; [simpl; lia|]. cbn [scale digits] in *. rewrite IH.
    rewrite Nat2Z.inj_succ, Z.pow_succ_r by lia. lia.
  - destruct n as [|n]; [lia|]. cbn [scale digits].
    pose proof (Z.mod_pos_bound (z / 10 ^ Z.of_nat k) 10 ltac:(lia)) as Hm. rewrite ord_chr by lia. rewrite IH by lia.
    rewrite Nat.sub_succ. f_equal. rewrite Nat2Z.inj_succ, Z.pow_succ_r by lia.
    rewrite (Z.mul_comm 10), (Z.rem_mul_r z) by lia. lia.
Qed.

Lemma nanos_frac ns : 0 ≤ ns < second → nanos (frac 9 ns +:+ "Z") = (ns, "Z").
Proof.
  intros Hns. destruct (frac_cases 9 ns Hns) as [[-> ->]|(k & z & Hk & Hz & Hr & ->)]; [done|].
  rewrite append_assoc. change ("." +:+ ?x) with (String "." x). unfold nanos. change (ord "." =? 46) with true. cbv iota.
  rewrite (span_digits_app (digits k z) "Z") by (apply digits_all || by vm_compute).
  pose proof (digits_length k z) as Hl. destruct (digits k z) as [|d ds] eqn:Hd; [simpl in Hl; lia|].
  rewrite <- Hd, scale_digits, Z.mul_0_l, Z.add_0_l, Z.mod_small by lia. by rewrite <- Hz.
Qed.

(** The calendar: the date of a day number is valid and determines it.  The
    month and the day within a year that starts in March. *)
Lemma month_day doy : 0 ≤ doy ≤ 365 →
  let mp := (5 * doy + 2) / 153 in
  let d := doy - (153 * mp + 2) / 5 + 1 in
  0 ≤ mp ≤ 11 ∧ 1 ≤ d ≤ 31 ∧ (mp = 11 → d = doy - 336) ∧ (mp = 1 ∨ mp = 3 ∨ mp = 6 ∨ mp = 8 → d ≤ 30).
Proof. intros Hd mp d. unfold d, mp. Z.to_euclidean_division_equations; lia. Qed.

Lemma leap_next yoe era : 0 ≤ yoe < 400 → yoe mod 4 = 3 ∧ (yoe mod 100 ≠ 99 ∨ yoe = 399) →
  leap (yoe + era * 400 + 1) = true.
Proof.
  intros Hy [H4 H100]. unfold leap.
  assert ((yoe + era * 400 + 1) mod 4 = 0) as -> by (Z.to_euclidean_division_equations; lia). simpl.
  destruct H100 as [H|H]; apply orb_true_iff; [left; apply negb_true_iff, Z.eqb_neq|right; apply Z.eqb_eq];
    Z.to_euclidean_division_equations; lia.
Qed.

(** Runs the tests that are closed. *)
Ltac run_tests :=
  repeat match goal with
  | |- context [if ?b then _ else _] => 
    let r := eval vm_compute in b in match r with true => idtac | false => idtac end; change b with r; cbv iota
  end.

Lemma civil_valid days : let '(y, m, d) := civil days in
  1 ≤ m ≤ 12 ∧ 1 ≤ d ≤ daysIn m y ∧ days_of_civil y m d = days.
Proof.
  unfold civil. cbv zeta. set (doe := (days + 719468) mod 146097). set (era := (days + 719468) / 146097).
  pose proof (Z.mod_pos_bound (days + 719468) 146097 ltac:(lia)) as Hdoe. fold doe in Hdoe.
  pose proof (Z.div_mod (days + 719468) 146097 ltac:(lia)) as Hera. fold doe era in Hera. clearbody doe era.
  set (yoe := (doe - doe / 1460 + doe / 36524 - doe / 146096) / 365).
  set (doy := doe - (365 * yoe + yoe / 4 - yoe / 100)).
  assert (0 ≤ yoe < 400) as Hyoe by (unfold yoe; Z.to_euclidean_division_equations; lia).
  assert (0 ≤ doy ≤ 365) as Hdoy by (unfold doy, yoe; Z.to_euclidean_division_equations; lia).
  assert (doy = 365 → yoe mod 4 = 3 ∧ (yoe mod 100 ≠ 99 ∨ yoe = 399)) as Hleap
    by (unfold doy, yoe; Z.to_euclidean_division_equations; lia).
  assert (doe = 365 * yoe + yoe / 4 - yoe / 100 + doy) as Hdd by lia. clearbody doy yoe.
  destruct (month_day doy Hdoy) as (Hmp & Hd & H11 & H30). set (mp := (5 * doy + 2) / 153) in *.
  assert (∀ y', y' = yoe + era * 400 → y' / 400 = era ∧ y' mod 400 = yoe) as Hy.
  { intros y' ->. rewrite Z.div_add, Z.mod_add, Z.div_small, Z.mod_small by lia. lia. }
  clearbody mp. set (d := doy - (153 * mp + 2) / 5 + 1) in *. assert (doy = (153 * mp + 2) / 5 + d - 1) as Hdoyd by lia.
  clearbody d. unfold days_of_civil, daysIn.
  assert (mp = 0 ∨ mp = 1 ∨ mp = 2 ∨ mp = 3 ∨ mp = 4 ∨ mp = 5 ∨ mp = 6 ∨ mp = 7 ∨ mp = 8 ∨ mp = 9 ∨ mp = 10 ∨ mp = 11)
    as Hcases by lia. clear Hmp.
  repeat (destruct Hcases as [->|Hcases]); [..|subst mp]; run_tests.
  all: rewrite ?Z.add_0_r, ?Z.add_simpl_r, ?Z.sub_add; destruct (Hy _ eq_refl) as [-> ->].
  12: split; [lia|split; [split; [lia|]|lia]]; destruct (decide (doy = 365)) as [H365|]; [rewrite leap_next by auto; lia|case_match; lia].
  all: split_and!; lia.
Qed.

(** *** The round trip of times *)
Lemma lit_is c a s : ord a = c → lit c (String a "" +:+ s) = Some s.
Proof. intros <-. rewrite append_cons. change ("" +:+ s) with s. cbn [lit]. by rewrite Z.eqb_refl. Qed.

Theorem rfc3339_roundtrip t ts : rfc3339nano t = Some ts → rfc3339_parse ts = Some t.
Proof.
  unfold rfc3339nano. destruct (civil (t / (86400 * second))) as [[y m] d] eqn:Hc.
  pose proof (civil_valid (t / (86400 * second))) as Hv. rewrite Hc in Hv. destruct Hv as (Hm & Hd & Hdays).
  cbv zeta. destruct (between 0 9999 y) eqn:Hy; [|done]. intros <-%(inj Some). apply between_spec in Hy.
  assert (daysIn m y ≤ 31) as Hd31 by (unfold daysIn; repeat case_match; lia).
  set (tod := t mod (86400 * second)). assert (0 ≤ tod < 86400 * second) as Htod by (apply Z.mod_pos_bound; done).
  assert (t = 86400 * second * (t / (86400 * second)) + tod) as Ht by (apply Z.div_mod; done). clearbody tod.
  set (s := tod / second). set (ns := tod mod second).
  assert (0 ≤ ns < second) as Hns by (apply Z.mod_pos_bound; done).
  assert (tod = second * s + ns) as Htn by (apply Z.div_mod; done). clearbody s ns.
  assert (0 ≤ s < 86400) as Hs by (unfold second in *; lia).
  assert (0 ≤ s / 3600 ≤ 23 ∧ 0 ≤ s / 60 mod 60 ≤ 59 ∧ 0 ≤ s mod 60 ≤ 59 ∧
          s = s / 3600 * 3600 + s / 60 mod 60 * 60 + s mod 60) as (H1 & H2 & H3 & H4)
    by (Z.to_euclidean_division_equations; lia).
  unfold rfc3339_parse.
  repeat (first [rewrite num_field_digits by lia|rewrite lit_is by reflexivity]; cbn [mbind option_bind]).
  rewrite nanos_frac by done. change (zone "Z") with (Some 0). cbn [mbind option_bind]. rewrite Hdays. f_equal.
  unfold second in *. lia.
Qed.

(** *** Text in ASCII is valid UTF-8 *)
Fixpoint all_ascii (s : string) : bool :=
  match s with EmptyString => true | String a s' => (ord a <? 128) && all_ascii s' end.

Lemma utf8_valid_ascii s : all_ascii s = true → utf8_valid s = true.
Proof. induction s as [|a s IH]; [done|]. cbn [all_ascii utf8_valid]. intros [-> ?]%andb_prop. auto. Qed.

Lemma all_ascii_app s t : all_ascii (s +:+ t) = all_ascii s && all_ascii t.
Proof. induction s as [|a s IH]; [done|]. rewrite append_cons. cbn [all_ascii]. by rewrite IH, andb_assoc. Qed.

Lemma all_ascii_digits n z : all_ascii (digits n z) = true.
Proof.
  induction n as [|n IH]; [done|]. cbn [digits all_ascii]. rewrite IH, andb_true_r.
  pose proof (Z.mod_pos_bound (z / 10 ^ Z.of_nat n) 10 ltac:(lia)). rewrite ord_chr by lia. by apply Z.ltb_lt; lia.
Qed.

Lemma all_ascii_frac n : ∀ z, all_ascii (frac n z) = true.
Proof.
  induction n as [|n IH]; intros z; [done|]. cbn [frac]. case_match; [done|]. by rewrite all_ascii_app, all_ascii_digits.
Qed.

Lemma rfc3339nano_valid t ts : rfc3339nano t = Some ts → utf8_valid ts = true.
Proof.
  unfold rfc3339nano. destruct (civil _) as [[y m] d]. cbv zeta. case_match; [|done]. intros <-%(inj Some).
  apply utf8_valid_ascii. by rewrite !all_ascii_app, !all_ascii_digits, all_ascii_frac.
Qed.

Lemma b64_char_ascii z : 0 ≤ z < 64 → (ord (b64_char z) <? 128) = true.
Proof.
  intros Hz. unfold b64_char.
  destruct (z <? 26) eqn:?; [|destruct (z <? 52) eqn:?; [|destruct (z <? 62) eqn:?; [|by destruct (z =? 62)]]];
    zbool; rewrite ord_chr by lia; apply Z.ltb_lt; lia.
Qed.

Lemma all_ascii_base64 s : all_ascii (base64 s) = true.
Proof.
  induction s as [|a|a b|a b c s IH] using string_ind3; [done|..];
    pose proof (ord_range a) as Ha; try pose proof (ord_range b) as Hb; try pose proof (ord_range c) as Hcc;
    cbn [base64 all_ascii]; rewrite !b64_char_ascii by (Z.to_euclidean_division_equations; lia); [done|done|by rewrite IH].
Qed.
