(* ===== verification/Sha256.v ===== *)
(** * SHA-256

    [crypto/sha256.Sum256], as FIPS 180-4 defines it, on 32-bit words kept in
    [Z]. *)

From S2P Require Import Prelude GoJson.

Definition u32 (z : Z) : Z := Z.land z 4294967295.
Definition rotr (n x : Z) : Z := Z.lor (Z.shiftr x n) (u32 (Z.shiftl x (32 - n))).

Definition k256 : list Z :=
  [1116352408;1899447441;3049323471;3921009573;961987163;1508970993;2453635748;2870763221;
   3624381080;310598401;607225278;1426881987;1925078388;2162078206;2614888103;3248222580;
   3835390401;4022224774;264347078;604807628;770255983;1249150122;1555081692;1996064986;
   2554220882;2821834349;2952996808;3210313671;3336571891;3584528711;113926993;338241895;
   666307205;773529912;1294757372;1396182291;1695183700;1986661051;2177026350;2456956037;
   2730485921;2820302411;3259730800;3345764771;3516065817;3600352804;4094571909;275423344;
   430227734;506948616;659060556;883997877;958139571;1322822218;1537002063;1747873779;
   1955562222;2024104815;2227730452;2361852424;2428436474;2756734187;3204031479;3329325298].

Definition h256 : list Z :=
  [1779033703;3144134277;1013904242;2773480762;1359893119;2600822924;528734635;1541459225].

(** Padding to a whole number of 64-octet blocks. *)
Definition pad (m : list Z) : list Z :=
  let n := Z.of_nat (length m) in
  m ++ 128 :: replicate (Z.to_nat ((55 - n) mod 64)) 0 ++ be_bytes 8 (8 * n).

Fixpoint words (l : list Z) : list Z :=
  match l with
  | a :: b :: c :: d :: l' => a * 16777216 + b * 65536 + c * 256 + d :: words l'
  | _ => []
  end.

(** The message schedule, newest word first. *)
Definition sigma0 (x : Z) : Z := Z.lxor (Z.lxor (rotr 7 x) (rotr 18 x)) (Z.shiftr x 3).
Definition sigma1 (x : Z) : Z := Z.lxor (Z.lxor (rotr 17 x) (rotr 19 x)) (Z.shiftr x 10).

Fixpoint schedule (n : nat) (w : list Z) : list Z :=
  match n with
  | O => w
  | S n' =>
      let t i := nth i w 0 in
      schedule n' (u32 (sigma1 (t 1%nat) + t 6%nat + sigma0 (t 14%nat) + t 15%nat) :: w)
  end.

Definition round (st : list Z) (kw : Z * Z) : list Z :=
  match st with
  | [a; b; c; d; e; f; g; h] =>
      let s1 := Z.lxor (Z.lxor (rotr 6 e) (rotr 11 e)) (rotr 25 e) in
      let ch := Z.lxor (Z.land e f) (Z.land (Z.lxor e 4294967295) g) in
      let t1 := h + s1 + ch + kw.1 + kw.2 in
      let s0 := Z.lxor (Z.lxor (rotr 2 a) (rotr 13 a)) (rotr 22 a) in
      let maj := Z.lxor (Z.lxor (Z.land a b) (Z.land a c)) (Z.land b c) in
      [u32 (t1 + s0 + maj); a; b; c; u32 (d + t1); e; f; g]
  | _ => st
  end.

Definition block (st : list Z) (w : list Z) : list Z :=
  let ws := rev (schedule 48 (rev w)) in
  zip_with (λ x y, u32 (x + y)) st (foldl round st (zip k256 ws)).

Fixpoint blocks (fuel : nat) (st ws : list Z) : list Z :=
  match fuel with
  | O => st
  | S f => match ws with [] => st | _ => blocks f (block st (take 16 ws)) (drop 16 ws) end
  end.

(** One block is 64 octets, so the length of the padded message bounds the
    number of blocks. *)
Definition sha256 (s : bytes) : bytes :=
  let m := pad (bytes_of s) in
  string_of (concat (be_bytes 4 <$> blocks (length m) h256 (words m))).

(** The test vectors of FIPS 180-4. *)
Example sha256_empty : hex (sha256 "") = "e3b0c44298fc1c149afbf4c8996fb92427ae41e4649b934ca495991b7852b855".
Proof. vm_compute. reflexivity. Qed.

Example sha256_abc : hex (sha256 "abc") = "ba7816bf8f01cfea414140de5dae2223b00361a396177a9cb410ff61f20015ad".
Proof. vm_compute. reflexivity. Qed.

Example sha256_two_blocks :
  hex (sha256 "abcdbcdecdefdefgefghfghighijhijkijkljklmklmnlmnomnopnopq") =
  "248d6a61d20638b8e5c026930c3e6039a33ce45964ff2167f6ecedd419db06c1".
Proof. vm_compute. reflexivity. Qed.

(** ** A digest has 32 octets *)
Lemma length_block st w : length st = 8%nat → length (block st w) = 8%nat.
Proof.
  intros Hst. unfold block. rewrite length_zip_with, Hst.
  assert (∀ kws st, length st = 8%nat → length (foldl round st kws) = 8%nat) as Hf.
  { induction kws as [|kw kws IH]; intros st' Hst'; simpl; [done|]. apply IH.
    do 8 (destruct st' as [|? st']; [done|]). by destruct st'. }
  by rewrite Hf.
Qed.

Lemma length_blocks fuel st ws : length st = 8%nat → length (blocks fuel st ws) = 8%nat.
Proof.
  revert st ws. induction fuel as [|f IH]; intros st ws Hst; simpl; [done|].
  destruct ws; [done|]. by apply IH, length_block.
Qed.

Lemma length_string_of l : String.length (string_of l) = length l.
Proof. induction l; simpl; congruence. Qed.

Lemma length_be_bytes n z : length (be_bytes n z) = n.
Proof. induction n; simpl; congruence. Qed.

Lemma sha256_length s : String.length (sha256 s) = 32%nat.
Proof.
  unfold sha256. rewrite length_string_of.
  assert (∀ ws, length (concat (be_bytes 4 <$> ws)) = (4 * length ws)%nat) as Hc.
  { induction ws as [|w ws IH]; [done|]. rewrite fmap_cons, concat_cons, length_app, IH, length_be_bytes.
    simpl. lia. }
  by rewrite Hc, length_blocks.
Qed.

#[global] Arguments sha256 : simpl never.
