(* ===== verification/Model.v ===== *)
(** * Shared data

    [src/pkg/model/path.go] and [src/pkg/model/receipt.go], and the interface of
    [crypto/ed25519] that receipts are signed with. *)

From S2P Require Import Prelude Sha256.

(** ** path.go *)
Definition EvidenceClassExplicitDemo : string := "explicit-demo".
Definition EvidenceClassSCIONObserved : string := "scion-observed".
Definition ProofStatusUnverified : string := "unverified".
Definition ProofStatusVerified : string := "verified".
Definition ProofStatusMixed : string := "mixed".
Definition ProofStatusObserved : string := "observed".

Record ASHop := mkHop {
  hop_IA : string;
  hop_ISD : Z;
  hop_AS : string;
  hop_MAC : bytes
}.

Record SCIONPath := mkPath {
  path_Raw : bytes;
  path_Hops : list ASHop;
  path_Fingerprint : string;
  path_EvidenceClass : string;
  path_ProofStatus : string
}.

Definition NormalizeEvidenceClass (value : string) : string :=
  if negb (bool_decide (value = "")) then value else EvidenceClassExplicitDemo.

Definition NormalizeProofStatus (value : string) : string :=
  if negb (bool_decide (value = "")) then value else ProofStatusUnverified.

(** ** receipt.go *)
Record ISDProof := mkISDProof {
  proof_IA : string;
  proof_ISD : Z;
  proof_TRCSerial : Z;
  proof_CertChain : bytes;
  proof_VerificationStatus : string;
  proof_ProofSource : string
}.

Record ThresholdSignature := mkThSig {
  ts_OracleID : string;
  ts_Signature : bytes;
  ts_PublicKey : bytes
}.

(** [PreviousHash] is an [option]: the chain validation distinguishes nil. *)
Record ComplianceReceipt := mkReceipt {
  r_ID : string;
  r_TransactionID : string;
  r_PolicyID : string;
  r_Path : SCIONPath;
  r_EvidenceClass : string;
  r_ProofStatus : string;
  r_ISDProofs : list ISDProof;
  r_SeqNo : Z;
  r_Timestamp : Z;
  r_Signature : bytes;
  r_OraclePublicKey : bytes;
  r_PreviousHash : option bytes;
  r_ThresholdK : Z;
  r_ThresholdN : Z;
  r_ThresholdSignatures : list ThresholdSignature
}.

#[export] Instance ASHop_eq_dec : EqDecision ASHop.
Proof. solve_decision. Defined.
#[export] Instance SCIONPath_eq_dec : EqDecision SCIONPath.
Proof. solve_decision. Defined.
#[export] Instance ISDProof_eq_dec : EqDecision ISDProof.
Proof. solve_decision. Defined.
#[export] Instance ThresholdSignature_eq_dec : EqDecision ThresholdSignature.
Proof. solve_decision. Defined.
#[export] Instance ComplianceReceipt_eq_dec : EqDecision ComplianceReceipt.
Proof. solve_decision. Defined.

(** Why a path was refused: the three messages of [Checker.Check] with their
    arguments.  ['R] is the replay error of the third. *)
Inductive clause (R : Type) : Type :=
| ClauseUnsupportedMode (mode : string)
| ClauseUnauthorizedISD (policyID : string) (allowed : list Z)
| ClauseReplay (e : R).

Arguments ClauseUnsupportedMode {R} mode.
Arguments ClauseUnauthorizedISD {R} policyID allowed.
Arguments ClauseReplay {R} e.

(** ** crypto/ed25519

    The signature scheme is a parameter of the development.  [Ed25519Laws] is
    what its documentation promises and the code relies on. *)
Class Ed25519 := {
  ed_public : bytes → bytes;
  ed_sign : bytes → bytes → bytes;
  ed_verify : bytes → bytes → bytes → bool;
  ed_from_seed : bytes → bytes;
  ed_seed : bytes → bytes
}.

Definition PublicKeySize : Z := 32.
Definition PrivateKeySize : Z := 64.
Definition SeedSize : Z := 32.

Class Ed25519Laws `{!Ed25519} : Prop := {
  ed_public_length : ∀ k, len k = PrivateKeySize → len (ed_public k) = PublicKeySize;
  ed_verify_sign : ∀ k m, len k = PrivateKeySize → ed_verify (ed_public k) m (ed_sign k m) = true;
  ed_from_seed_length : ∀ s, len s = SeedSize → len (ed_from_seed s) = PrivateKeySize;
  ed_seed_from_seed : ∀ s, len s = SeedSize → ed_seed (ed_from_seed s) = s
}.

(** [Sign] and [Verify] panic on a key of a wrong length. *)
Definition ed25519_Sign `{!Ed25519} {E} (k m : bytes) : res E bytes :=
  if len k =? PrivateKeySize then Ok (ed_sign k m) else Panic.
Definition ed25519_Verify `{!Ed25519} {E} (pk m s : bytes) : res E bool :=
  if len pk =? PublicKeySize then Ok (ed_verify pk m s) else Panic.

(** A keyed digest that satisfies the laws, for concrete runs. *)
Module Toy.
#[export] Instance toy : Ed25519 := {|
  ed_public k := sha256 k;
  ed_sign k m := sha256 (sha256 k +:+ m);
  ed_verify pk m s := bool_decide (s = sha256 (pk +:+ m));
  ed_from_seed s := s +:+ sha256 s;
  ed_seed k := String.substring 0 32 k
|}.

Lemma substring_app_left s t : String.substring 0 (String.length s) (s +:+ t) = s.
Proof. induction s as [|a s IH]; simpl; [by destruct t|by rewrite IH]. Qed.

Lemma length_app_string s t : String.length (s +:+ t) = (String.length s + String.length t)%nat.
Proof. induction s as [|a s IH]; simpl; [done|by rewrite IH]. Qed.

#[export] Instance toy_laws : Ed25519Laws.
Proof.
  constructor; intros; simpl.
  - by rewrite sha256_length.
  - by apply bool_decide_eq_true_2.
  - rewrite length_app_string, sha256_length. unfold SeedSize, PrivateKeySize in *. lia.
  - replace 32%nat with (String.length s) by (unfold SeedSize in *; lia). apply substring_app_left.
Qed.

(** Private keys of the right length. *)
Definition key1 : bytes := "0123456789abcdef0123456789abcdef0123456789abcdef0123456789abcdef".
Definition key2 : bytes := "ffffffffffffffffffffffffffffffffffffffffffffffffffffffffffffffff".
End Toy.
