(* ===== verification/Replay.v ===== *)
(** * Replay detection

    [src/internal/security/replay.go].  Each call reads the clock; [Check] reads
    it once for itself and [cleanupLocked] once more. *)

From S2P Require Import Prelude.

Definition DefaultValidityWindow : Z := 30 * second.
Definition MaxClockSkew : Z := 5 * second.

Record ReplayDetector := mkRD {
  rd_window : Z;
  rd_seen : gmap string (gmap Z Z);
  rd_lastSeqNo : gmap string Z;
  rd_lastCleanup : Z
}.

Inductive replay_err :=
| FutureTimestamp (ts now : Z)
| MessageExpired (ts window : Z)
| ReplayDetected (fp : string) (seqNo : Z)
| OutOfOrderSeqNo (got last : Z) (fp : string).

#[export] Instance replay_err_eq_dec : EqDecision replay_err.
Proof. solve_decision. Defined.

Definition NewReplayDetector (window : Z) : ReplayDetector :=
  mkRD (if window =? 0 then DefaultValidityWindow else window) ∅ ∅ zero_time.

(** The entries of one fingerprint that survive a cutoff. *)
Definition prune (cutoff : Z) (m : gmap Z Z) : gmap Z Z := filter (λ e, ¬ e.2 < cutoff) m.

(** [cleanupLocked]: drop expired entries; a fingerprint left without entries
    loses its sequence number too. *)
Definition cleanupLocked (now : Z) (rd : ReplayDetector) : ReplayDetector :=
  let cutoff := now + i64 (- rd_window rd) in
  let keep fp := match rd_seen rd !! fp with
                 | Some m => negb (bool_decide (prune cutoff m = ∅))
                 | None => true
                 end in
  mkRD (rd_window rd)
    (filter (λ e, keep e.1 = true) (prune cutoff <$> rd_seen rd))
    (filter (λ e, keep e.1 = true) (rd_lastSeqNo rd))
    (rd_lastCleanup rd).

Definition Cleanup (now : Z) (rd : ReplayDetector) : ReplayDetector := cleanupLocked now rd.

(** [rd.seen[fp][seqNo]] *)
Definition seen_at (rd : ReplayDetector) (fp : string) (seqNo : Z) : option Z :=
  m ← rd_seen rd !! fp; m !! seqNo.

(** [Check]; [now] is its clock reading and [now'] that of the cleanup. *)
Definition Check (now now' : Z) (fp : string) (seqNo ts : Z) (rd : ReplayDetector) :
    ReplayDetector * res replay_err unit :=
  if now + MaxClockSkew <? ts then (rd, Err (FutureTimestamp ts now))
  else if rd_window rd <? time_sub now ts then (rd, Err (MessageExpired ts (rd_window rd)))
  else if bool_decide (is_Some (seen_at rd fp seqNo)) then (rd, Err (ReplayDetected fp seqNo))
  else
    let ordered := match rd_lastSeqNo rd !! fp with Some last => last <? seqNo | None => true end in
    if negb ordered then (rd, Err (OutOfOrderSeqNo seqNo (default 0 (rd_lastSeqNo rd !! fp)) fp))
    else
      let rd1 := mkRD (rd_window rd)
                   (<[fp := <[seqNo := ts]> (default ∅ (rd_seen rd !! fp))]> (rd_seen rd))
                   (<[fp := seqNo]> (rd_lastSeqNo rd)) (rd_lastCleanup rd) in
      if rd_window rd <=? time_sub now (rd_lastCleanup rd) then
        let rd2 := cleanupLocked now' rd1 in
        (mkRD (rd_window rd2) (rd_seen rd2) (rd_lastSeqNo rd2) now, Ok tt)
      else (rd1, Ok tt).

(** ** Traces

    [trace t rd t' rd']: the detector is used from time [t] to time [t'], the
    clock never running backwards. *)
Inductive trace : Z → ReplayDetector → Z → ReplayDetector → Prop :=
| TraceNil t rd : trace t rd t rd
| TraceWait t t' rd t'' rd'' : t ≤ t' → trace t' rd t'' rd'' → trace t rd t'' rd''
| TraceCheck t now now' fp seqNo ts rd t'' rd'' :
    t ≤ now → now ≤ now' → trace now' (Check now now' fp seqNo ts rd).1 t'' rd'' → trace t rd t'' rd''
| TraceCleanup t now rd t'' rd'' :
    t ≤ now → trace now (Cleanup now rd) t'' rd'' → trace t rd t'' rd''.

(** The window is positive and below the largest [Duration]. *)
Definition window_ok (rd : ReplayDetector) : Prop := 0 < rd_window rd < max_duration.

(** What the detector still knows at time [t] of an accepted message: the entry,
    or that it has expired. *)
Definition remembers (rd : ReplayDetector) (t : Z) (fp : string) (seqNo ts : Z) : Prop :=
  seen_at rd fp seqNo = Some ts ∨ ts + rd_window rd < t.

(** The recorded sequence number bounds every entry of its fingerprint. *)
Definition seq_ok (rd : ReplayDetector) : Prop :=
  ∀ fp seqNo ts, seen_at rd fp seqNo = Some ts →
  ∃ last, rd_lastSeqNo rd !! fp = Some last ∧ seqNo ≤ last.

(** ** Entries *)
Lemma cutoff_exact now rd : window_ok rd → now + i64 (- rd_window rd) = now - rd_window rd.
Proof. unfold window_ok, max_duration. intros. rewrite i64_id; [lia|]. unfold is_i64. lia. Qed.

Lemma cleanup_seen_at now rd fp seqNo ts : window_ok rd →
  seen_at (cleanupLocked now rd) fp seqNo = Some ts ↔
  seen_at rd fp seqNo = Some ts ∧ now - rd_window rd ≤ ts.
Proof.
  intros Hw. unfold seen_at, cleanupLocked. rewrite cutoff_exact by done. simpl.
  rewrite !bind_Some. split.
  - intros (m' & [Hm Hk]%map_lookup_filter_Some & Hs).
    apply lookup_fmap_Some in Hm as (m & <- & Hm).
    apply map_lookup_filter_Some in Hs as [Hs Hc]. simpl in Hc. split; [eauto|lia].
  - intros ((m & Hm & Hs) & Hc). exists (prune (now - rd_window rd) m).
    assert (prune (now - rd_window rd) m !! seqNo = Some ts) as Hp
      by (apply map_lookup_filter_Some; simpl; split; [done|lia]).
    split; [|done]. apply map_lookup_filter_Some. rewrite lookup_fmap, Hm. split; [done|]. simpl. rewrite Hm.
    apply negb_true_iff, bool_decide_eq_false_2. intros He. rewrite He in Hp. done.
Qed.

Lemma cleanup_lastSeqNo now rd fp seqNo ts :
  seen_at (cleanupLocked now rd) fp seqNo = Some ts →
  rd_lastSeqNo (cleanupLocked now rd) !! fp = rd_lastSeqNo rd !! fp.
Proof.
  unfold seen_at. intros (m & [_ Hk]%map_lookup_filter_Some & _)%bind_Some. simpl in *.
  destruct (rd_lastSeqNo rd !! fp) eqn:E.
  - by apply map_lookup_filter_Some.
  - apply map_lookup_filter_None. by left.
Qed.

(** The state after recording a message, before the cleanup. *)
Definition recorded (fp : string) (seqNo ts : Z) (rd : ReplayDetector) : ReplayDetector :=
  mkRD (rd_window rd) (<[fp := <[seqNo := ts]> (default ∅ (rd_seen rd !! fp))]> (rd_seen rd))
    (<[fp := seqNo]> (rd_lastSeqNo rd)) (rd_lastCleanup rd).

Lemma recorded_seen_at fp seqNo ts rd fp' seqNo' :
  seen_at (recorded fp seqNo ts rd) fp' seqNo' =
  if decide (fp = fp' ∧ seqNo = seqNo') then Some ts else seen_at rd fp' seqNo'.
Proof.
  unfold seen_at, recorded; simpl. rewrite lookup_insert. destruct (decide (fp = fp')) as [<-|].
  - simpl. rewrite lookup_insert. repeat case_decide; try naive_solver.
    by destruct (rd_seen rd !! fp).
  - by rewrite decide_False by naive_solver.
Qed.

(** *** Case analysis of [Check] *)
Inductive check_spec (now now' : Z) (fp : string) (seqNo ts : Z) (rd : ReplayDetector) :
    ReplayDetector → res replay_err unit → Prop :=
| CheckFails e : check_spec now now' fp seqNo ts rd rd (Err e)
| CheckPasses rd' :
    ts ≤ now + MaxClockSkew → time_sub now ts ≤ rd_window rd → seen_at rd fp seqNo = None →
    (∀ last, rd_lastSeqNo rd !! fp = Some last → last < seqNo) →
    (rd' = recorded fp seqNo ts rd ∨
     ∃ c, rd' = mkRD (rd_window rd) (rd_seen (cleanupLocked now' (recorded fp seqNo ts rd)))
                  (rd_lastSeqNo (cleanupLocked now' (recorded fp seqNo ts rd))) c) →
    check_spec now now' fp seqNo ts rd rd' (Ok tt).

Lemma Check_spec now now' fp seqNo ts rd :
  check_spec now now' fp seqNo ts rd (Check now now' fp seqNo ts rd).1 (Check now now' fp seqNo ts rd).2.
Proof.
  unfold Check. destruct (now + MaxClockSkew <? ts) eqn:H1; [constructor|].
  destruct (rd_window rd <? time_sub now ts) eqn:H2; [constructor|].
  case_bool_decide as H3; [constructor|]. apply eq_None_not_Some in H3. zbool.
  assert (∀ b : bool, b = match rd_lastSeqNo rd !! fp with Some last => last <? seqNo | None => true end →
    b = true → ∀ last, rd_lastSeqNo rd !! fp = Some last → last < seqNo) as Hord.
  { intros b -> Hb last Hl. rewrite Hl in Hb. by zbool. }
  destruct (match rd_lastSeqNo rd !! fp with Some _ => _ | None => _ end) eqn:H4; [|constructor].
  simpl. destruct (rd_window rd <=? time_sub now (rd_lastCleanup rd)) eqn:H5; simpl.
  - constructor; eauto.
  - constructor; eauto.
Qed.

Lemma Check_window now now' fp seqNo ts rd :
  rd_window (Check now now' fp seqNo ts rd).1 = rd_window rd.
Proof. destruct (Check_spec now now' fp seqNo ts rd) as [|rd' _ _ _ _ [->|[c ->]]]; done. Qed.

(** Entries after a check: those before, the new one, minus the expired. *)
Lemma Check_seen_at now now' fp seqNo ts rd fp' s t : window_ok rd →
  seen_at rd fp' s = Some t →
  seen_at (Check now now' fp seqNo ts rd).1 fp' s = Some t ∨ t + rd_window rd < now'.
Proof.
  intros Hw Hs. destruct (Check_spec now now' fp seqNo ts rd) as [|rd' _ _ Hn _ [->|[c ->]]]; [auto| |].
  - left. rewrite recorded_seen_at, decide_False; [done|]. intros [-> ->]. congruence.
  - destruct (decide (t + rd_window rd < now')) as [|Hge]; [auto|]. left.
    change (seen_at (cleanupLocked now' (recorded fp seqNo ts rd)) fp' s = Some t).
    apply cleanup_seen_at; [done|]. rewrite recorded_seen_at, decide_False by (intros [-> ->]; congruence).
    split; [done|]. simpl. lia.
Qed.

Lemma remembers_trace t rd t' rd' fp seqNo ts : trace t rd t' rd' → window_ok rd →
  remembers rd t fp seqNo ts → remembers rd' t' fp seqNo ts ∧ rd_window rd' = rd_window rd ∧ t ≤ t'.
Proof.
  unfold remembers. induction 1 as [t rd|t t' rd t'' rd'' Ht _ IH
    |t now now' fp' s' ts' rd t'' rd'' Hn Hn' _ IH|t now rd t'' rd'' Hn _ IH]; intros Hw Hr.
  - auto with lia.
  - destruct IH as (? & ? & ?); [done|intuition lia|auto with lia].
  - unfold window_ok in IH. rewrite Check_window in IH.
    destruct IH as (? & ? & ?); [done| |auto with lia].
    destruct Hr as [Hr|]; [|right; lia]. by apply (Check_seen_at now now' fp' s' ts').
  - destruct IH as (? & ? & ?); [done| |auto with lia]. simpl.
    destruct Hr as [Hr|]; [|right; lia].
    destruct (decide (ts + rd_window rd < now)) as [|Hge]; [auto|]. left.
    apply cleanup_seen_at; [done|]. split; [done|lia].
Qed.

Lemma seq_ok_recorded fp seqNo ts rd :
  (∀ last, rd_lastSeqNo rd !! fp = Some last → last < seqNo) → seq_ok rd → seq_ok (recorded fp seqNo ts rd).
Proof.
  intros Hlast Hok fp' s t. rewrite recorded_seen_at. simpl. rewrite lookup_insert.
  destruct (decide (fp = fp')) as [<-|]; [|rewrite decide_False by naive_solver; eauto].
  case_decide; [naive_solver lia|]. intros (last & Hl & Hle)%Hok. specialize (Hlast last Hl).
  exists seqNo. split; [done|lia].
Qed.

Lemma seq_ok_cleanup now rd : window_ok rd → seq_ok rd → seq_ok (cleanupLocked now rd).
Proof.
  intros Hw Hok fp s t Hs. rewrite (cleanup_lastSeqNo now rd fp s t Hs).
  apply cleanup_seen_at in Hs as [Hs _]; eauto.
Qed.

Lemma seq_ok_trace t rd t' rd' : trace t rd t' rd' → window_ok rd → seq_ok rd → seq_ok rd'.
Proof.
  induction 1 as [t rd|t t' rd t'' rd'' Ht _ IH|t now now' fp s ts rd t'' rd'' Hn Hn' _ IH
    |t now rd t'' rd'' Hn _ IH]; intros Hw Hok; [done|auto| |].
  - apply IH; [unfold window_ok; by rewrite Check_window|].
    destruct (Check_spec now now' fp s ts rd) as [|rd' _ _ _ Hl [->|[c ->]]]; [done| |].
    + by apply seq_ok_recorded.
    + apply (seq_ok_cleanup now' (recorded fp s ts rd)); [done|by apply seq_ok_recorded].
  - apply IH; [done|by apply seq_ok_cleanup].
Qed.

Lemma NewReplayDetector_ok w : 0 ≤ w < max_duration →
  window_ok (NewReplayDetector w) ∧ seq_ok (NewReplayDetector w).
Proof.
  intros Hw. split; [|intros fp s t; unfold seen_at; simpl; by rewrite lookup_empty].
  unfold window_ok, NewReplayDetector; simpl.
  unfold DefaultValidityWindow, second, max_duration in *. destruct (w =? 0) eqn:E; zbool; lia.
Qed.

Lemma Check_Ok_remembers now now' fp seqNo ts rd : window_ok rd →
  (Check now now' fp seqNo ts rd).2 = Ok tt → remembers (Check now now' fp seqNo ts rd).1 now' fp seqNo ts.
Proof.
  intros Hw. destruct (Check_spec now now' fp seqNo ts rd) as [|rd' _ _ _ _ [->|[c ->]]]; [done| |]; intros _.
  - left. by rewrite recorded_seen_at, decide_True.
  - unfold remembers; simpl. destruct (decide (ts + rd_window rd < now')) as [|Hge]; [auto|]. left.
    change (seen_at (cleanupLocked now' (recorded fp seqNo ts rd)) fp seqNo = Some ts).
    apply cleanup_seen_at; [done|]. rewrite recorded_seen_at, decide_True by done. simpl. split; [done|lia].
Qed.

(** A message the detector remembers is refused. *)
Lemma remembers_refused now now' fp seqNo ts rd : window_ok rd →
  remembers rd now fp seqNo ts → is_ok (Check now now' fp seqNo ts rd).2 = false.
Proof.
  intros Hw [Hs|He]; destruct (Check_spec now now' fp seqNo ts rd) as [|rd' _ Ht Hn _ _]; try done.
  - congruence.
  - exfalso. revert Ht. unfold window_ok, time_sub, max_duration, min_duration in *. lia.
Qed.

(** ** Properties *)

(** C23. No message is accepted twice.  Once [Check] has accepted a message
    (fingerprint, sequence number, timestamp), every later [Check] of the same
    message fails, whatever other checks and cleanups happen in between and
    however often the detector prunes its memory, as long as the clock does not
    run backwards: a pruned message has left the validity window. *)
Theorem replay_never_accepted_twice (now now' : Z) (fp : string) (seqNo ts : Z) (rd : ReplayDetector)
    (t : Z) (rd' : ReplayDetector) (later later' : Z) :
  window_ok rd →
  (Check now now' fp seqNo ts rd).2 = Ok tt →
  trace now' (Check now now' fp seqNo ts rd).1 t rd' → t ≤ later →
  is_ok (Check later later' fp seqNo ts rd').2 = false.
Proof.
  intros Hw Hok Htr Ht.
  pose proof (Check_Ok_remembers now now' fp seqNo ts rd Hw Hok) as Hr.
  assert (window_ok (Check now now' fp seqNo ts rd).1) as Hw1 by (unfold window_ok; by rewrite Check_window).
  destruct (remembers_trace _ _ _ _ fp seqNo ts Htr Hw1 Hr) as (Hr' & Hwin & _).
  apply remembers_refused; [unfold window_ok; by rewrite Hwin|].
  unfold remembers in *. intuition lia.
Qed.

(** Sequence numbers increase.  For a detector created by
    [NewReplayDetector] and used in any way, an accepted message has a sequence
    number above that of every message of the same source still remembered. *)
Theorem replay_sequence_increases (w t0 t : Z) (rd : ReplayDetector) (now now' : Z) (fp : string)
    (seqNo ts s' ts' : Z) :
  0 ≤ w < max_duration →
  trace t0 (NewReplayDetector w) t rd →
  (Check now now' fp seqNo ts rd).2 = Ok tt →
  seen_at rd fp s' = Some ts' → s' < seqNo.
Proof.
  intros Hw Htr Hok Hs. destruct (NewReplayDetector_ok w Hw) as [Hwo Hso].
  pose proof (seq_ok_trace _ _ _ _ Htr Hwo Hso) as Hso'.
  destruct (Hso' _ _ _ Hs) as (last & Hl & Hle).
  destruct (Check_spec now now' fp seqNo ts rd) as [|rd' _ _ _ Hlast _]; [done|].
  specialize (Hlast last Hl). lia.
Qed.

(** ** Witnesses *)
Definition rd0 : ReplayDetector := NewReplayDetector 0.
Definition sec (n : Z) : Z := n * second.

Lemma replay_never_accepted_twice_witness :
  let rd1 := (Check (sec 100) (sec 100) "fp" 1 (sec 99) rd0).1 in
  let rd2 := (Check (sec 120) (sec 121) "fp" 2 (sec 120) rd1).1 in
  (Check (sec 120) (sec 121) "fp" 2 (sec 120) rd1).2 = Ok tt ∧
  is_ok (Check (sec 122) (sec 122) "fp" 1 (sec 99) rd2).2 = false.
Proof.
  intros rd1 rd2. split; [vm_compute; reflexivity|].
  apply (replay_never_accepted_twice (sec 100) (sec 100) "fp" 1 (sec 99) rd0 (sec 121) rd2 (sec 122) (sec 122)).
  - apply NewReplayDetector_ok. vm_compute. split; congruence.
  - vm_compute. reflexivity.
  - apply (TraceCheck _ (sec 120) (sec 121) "fp" 2 (sec 120)); [vm_compute; congruence..|]. constructor.
  - vm_compute. congruence.
Defined.

Lemma replay_sequence_increases_witness :
  let rd1 := (Check (sec 100) (sec 100) "fp" 1 (sec 99) rd0).1 in
  seen_at rd1 "fp" 1 = Some (sec 99) ∧ (Check (sec 101) (sec 101) "fp" 2 (sec 101) rd1).2 = Ok tt ∧ 1 < 2.
Proof.
  intros rd1. split_and!; [vm_compute; reflexivity..|].
  apply (replay_sequence_increases 0 0 (sec 100) rd1 (sec 101) (sec 101) "fp" 2 (sec 101) 1 (sec 99)).
  - vm_compute. split; congruence.
  - apply (TraceCheck _ (sec 100) (sec 100) "fp" 1 (sec 99)); [vm_compute; congruence..|]. constructor.
  - vm_compute. reflexivity.
  - vm_compute. reflexivity.
Defined.
