(* ===== verification/Policy.v ===== *)
(** * Corridor policies

    [src/internal/policy/policy.go]: the policy record, its validation and the
    loading of a directory of YAML files.  The YAML decoder is a third-party
    package and the file system is outside the program: both are parameters. *)

From S2P Require Import Prelude.

Record Policy := mkPolicy {
  pol_ID : string;
  pol_Name : string;
  pol_Description : string;
  pol_Version : Z;
  pol_AllowedISDs : list Z;
  pol_Mode : string
}.

#[export] Instance Policy_eq_dec : EqDecision Policy.
Proof. solve_decision. Defined.

Definition ModeStrict : string := "strict".

Inductive policy_err :=
| PolicyIDRequired
| AllowedISDRequired (id : string)
| ModeRequired (id : string)
| ModeNotStrict (id got : string)
| ReadingPolicyFile (e : string)
| ParsingPolicyYAML (e : string)
| ReadingPolicyDirectory (e : string)
| LoadingPolicy (name : string) (e : policy_err).

Definition Validate (p : Policy) : res policy_err unit :=
  if bool_decide (pol_ID p = "") then Err PolicyIDRequired
  else if bool_decide (pol_AllowedISDs p = []) then Err (AllowedISDRequired (pol_ID p))
  else if bool_decide (pol_Mode p = "") then Err (ModeRequired (pol_ID p))
  else if negb (bool_decide (pol_Mode p = ModeStrict)) then Err (ModeNotStrict (pol_ID p) (pol_Mode p))
  else Ok tt.

Definition set_mode (m : string) (p : Policy) : Policy :=
  mkPolicy (pol_ID p) (pol_Name p) (pol_Description p) (pol_Version p) (pol_AllowedISDs p) m.

(** [strings.HasSuffix] *)
Definition has_suffix (s suffix : string) : bool :=
  let n := String.length s in
  let k := String.length suffix in
  bool_decide (k ≤ n)%nat && bool_decide (String.substring (n - k) k s = suffix).

(** A directory entry: its name and whether it is a directory. *)
Record DirEntry := mkEntry { de_Name : string; de_IsDir : bool }.

Section Loading.
(** [os.ReadFile], [os.ReadDir], [filepath.Join] and [yaml.Unmarshal]. *)
Variable readFile : string → res string bytes.
Variable readDir : string → res string (list DirEntry).
Variable join : string → string → string.
Variable unmarshal : bytes → res string Policy.

Definition LoadFromFile (path : string) : res policy_err Policy :=
  data ← map_err ReadingPolicyFile (readFile path);
  p0 ← map_err ParsingPolicyYAML (unmarshal data);
  let p := if bool_decide (pol_Mode p0 = "") then set_mode ModeStrict p0 else p0 in
  match Validate p with
  | Ok _ => Ok p
  | Err e => Err e
  | Panic => Panic
  end.

Fixpoint load_entries (dir : string) (es : list DirEntry) : res policy_err (list Policy) :=
  match es with
  | [] => Ok []
  | e :: es' =>
    if de_IsDir e then load_entries dir es'
    else if negb (has_suffix (de_Name e) ".yaml") then load_entries dir es'
    else
      p ← map_err (LoadingPolicy (de_Name e)) (LoadFromFile (join dir (de_Name e)));
      ps ← load_entries dir es';
      Ok (p :: ps)
  end.

Definition LoadAllFromDir (dir : string) : res policy_err (list Policy) :=
  es ← map_err ReadingPolicyDirectory (readDir dir);
  load_entries dir es.

(** What the server relies on: a loaded policy is usable and strict. *)
Definition policy_ok (p : Policy) : Prop :=
  pol_ID p ≠ "" ∧ pol_AllowedISDs p ≠ [] ∧ pol_Mode p = ModeStrict.

Lemma Validate_Ok p : Validate p = Ok tt ↔ policy_ok p.
Proof.
  unfold Validate, policy_ok.
  destruct (decide (pol_ID p = "")); [rewrite bool_decide_true by done; split; [done|tauto]|].
  rewrite bool_decide_false by done.
  destruct (decide (pol_AllowedISDs p = [])); [rewrite bool_decide_true by done; split; [done|tauto]|].
  rewrite bool_decide_false by done.
  destruct (decide (pol_Mode p = ModeStrict)) as [->|]; [split; [tauto|done]|].
  rewrite (bool_decide_false (pol_Mode p = ModeStrict)) by done.
  destruct (bool_decide _); split; (done || tauto).
Qed.

Lemma LoadFromFile_ok path p : LoadFromFile path = Ok p → policy_ok p.
Proof.
  unfold LoadFromFile. intros H. inv_ok. destruct (Validate _) as [[]|e|] eqn:Hv; simplify_eq.
  by apply Validate_Ok.
Qed.

Lemma load_entries_ok dir es ps : load_entries dir es = Ok ps → Forall policy_ok ps.
Proof.
  revert ps. induction es as [|e es IH]; intros ps H; simpl in H; [by inv_ok|].
  destruct (de_IsDir e); [eauto|]. destruct (negb _); [eauto|]. inv_ok.
  constructor; [by eapply LoadFromFile_ok|eauto].
Qed.

(** The policies loaded are those of the [.yaml] files, in directory order. *)
Lemma load_entries_files dir es ps : load_entries dir es = Ok ps →
  Forall2 (λ e p, LoadFromFile (join dir (de_Name e)) = Ok p)
    (filter (λ e, de_IsDir e = false ∧ has_suffix (de_Name e) ".yaml" = true) es) ps.
Proof.
  revert ps. induction es as [|e es IH]; intros ps H; simpl in H; [inv_ok; constructor|].
  rewrite filter_cons. destruct (de_IsDir e); [rewrite decide_False by naive_solver; eauto|].
  destruct (has_suffix _ _); simpl in H; [|rewrite decide_False by naive_solver; eauto].
  rewrite decide_True by done. inv_ok. constructor; eauto.
Qed.

(** Only strict, complete policies are served.  When [LoadAllFromDir]
    succeeds, it has loaded exactly the non-directory entries with the [.yaml]
    suffix, in order, and every policy has an identifier, at least one allowed
    ISD and the strict mode (the mode an absent field defaults to); one bad file
    fails the whole load. *)
Theorem loaded_policies_strict (dir : string) (ps : list Policy) :
  LoadAllFromDir dir = Ok ps →
  Forall policy_ok ps ∧
  ∃ es, readDir dir = Ok es ∧
    Forall2 (λ e p, LoadFromFile (join dir (de_Name e)) = Ok p)
      (filter (λ e, de_IsDir e = false ∧ has_suffix (de_Name e) ".yaml" = true) es) ps.
Proof.
  unfold LoadAllFromDir. intros H. inv_ok. split; [by eapply load_entries_ok|].
  eexists. split; [eassumption|]. by apply load_entries_files.
Qed.
End Loading.

(** ** Witness: the policy directory of the repository *)
Definition swiss_policy : Policy :=
  mkPolicy "swiss-dlt-act-v1" "Swiss DLT Act Settlement" "" 1 [1] "strict".
Definition eu_policy : Policy :=
  mkPolicy "chf-eur-settlement-v1" "CHF-EUR Cross-Border Settlement" "" 1 [1; 2] "".

Lemma loaded_policies_strict_witness :
  let readFile (path : string) : res string bytes := Ok path in
  let readDir (_ : string) : res string (list DirEntry) :=
    Ok [mkEntry "README" false; mkEntry "eu.yaml" false; mkEntry "old.yaml" true; mkEntry "swiss.yaml" false] in
  let unmarshal (data : bytes) : res string Policy :=
    if bool_decide (data = "policies/eu.yaml") then Ok eu_policy else Ok swiss_policy in
  let join d n := (d +:+ "/" +:+ n)%string in
  LoadAllFromDir readFile readDir join unmarshal "policies" = Ok [set_mode ModeStrict eu_policy; swiss_policy] ∧
  Forall policy_ok [set_mode ModeStrict eu_policy; swiss_policy].
Proof.
  intros readFile readDir unmarshal join. split; [vm_compute; reflexivity|].
  apply (loaded_policies_strict readFile readDir join unmarshal "policies"). vm_compute. reflexivity.
Defined.
