(* ===== verification/PathCheck.v ===== *)
(** * Path compliance

    [src/internal/pathcheck/compliance.go], [checker.go] and [filter.go]. *)

From S2P Require Import Prelude Model Policy Replay.

(** ** compliance.go *)
Definition CheckHopsCompliant (hops : list ASHop) (allowedISDs : list Z) (mode : string) : list ASHop :=
  if bool_decide (hops = []) then []
  else
    let allowed : gset Z := list_to_set allowedISDs in
    if bool_decide (mode = ModeStrict) then filter (λ h, hop_ISD h ∉ allowed) hops
    else hops.

(** ** checker.go *)
Record CheckResult := mkCheck {
  ck_Compliant : bool;
  ck_OffendingHops : list ASHop;
  ck_ViolatedClause : option (clause replay_err)
}.

Record Checker := mkChecker {
  c_policy : Policy;
  c_replayDetector : option ReplayDetector
}.

Inductive check_err := PathHasNoHops.

Definition NewChecker (p : Policy) : Checker := mkChecker p None.
Definition SetReplayDetector (rd : ReplayDetector) (c : Checker) : Checker :=
  mkChecker (c_policy c) (Some rd).

(** [Check].  [ts] is the clock reading passed to the detector as the message
    time; [now] and [now'] are the readings inside the detector. *)
Definition Check (ts now now' : Z) (path : SCIONPath) (c : Checker) : Checker * res check_err CheckResult :=
  let p := c_policy c in
  if bool_decide (path_Hops path = []) then (c, Err PathHasNoHops)
  else if negb (bool_decide (pol_Mode p = ModeStrict)) then
    (c, Ok (mkCheck false (path_Hops path) (Some (ClauseUnsupportedMode (pol_Mode p)))))
  else
    let offending := CheckHopsCompliant (path_Hops path) (pol_AllowedISDs p) (pol_Mode p) in
    if negb (bool_decide (offending = [])) then
      (c, Ok (mkCheck false offending (Some (ClauseUnauthorizedISD (pol_ID p) (pol_AllowedISDs p)))))
    else
      match c_replayDetector c with
      | None => (c, Ok (mkCheck true [] None))
      | Some rd =>
        match Replay.Check now now' (path_Fingerprint path) 0 ts rd with
        | (rd', Ok _) => (mkChecker p (Some rd'), Ok (mkCheck true [] None))
        | (rd', Err e) => (mkChecker p (Some rd'), Ok (mkCheck false [] (Some (ClauseReplay e))))
        | (rd', Panic) => (mkChecker p (Some rd'), Panic)
        end
      end.

(** ** filter.go *)
Record PathFilter := mkPathFilter { pf_policy : Policy }.
Definition NewPathFilter (p : Policy) : PathFilter := mkPathFilter p.

Record FilterResult := mkFilter {
  f_Compliant : list SCIONPath;
  f_NonCompliant : list SCIONPath
}.

(** One iteration of the loop of [FilterPaths]. *)
Definition filter_step (pol : Policy) (r : FilterResult) (p : SCIONPath) : FilterResult :=
  if negb (bool_decide (path_Hops p = [])) &&
     bool_decide (CheckHopsCompliant (path_Hops p) (pol_AllowedISDs pol) (pol_Mode pol) = [])
  then mkFilter (f_Compliant r ++ [p]) (f_NonCompliant r)
  else mkFilter (f_Compliant r) (f_NonCompliant r ++ [p]).

Definition FilterPaths (pol : Policy) (paths : list SCIONPath) : FilterResult :=
  if negb (bool_decide (pol_Mode pol = ModeStrict)) then mkFilter [] ([] ++ paths)
  else foldl (filter_step pol) (mkFilter [] []) paths.

(** ** Specification *)

(** What a strict policy demands of a path. *)
Definition compliant (pol : Policy) (path : SCIONPath) : Prop :=
  pol_Mode pol = ModeStrict ∧ path_Hops path ≠ [] ∧
  ∀ h, h ∈ path_Hops path → hop_ISD h ∈ pol_AllowedISDs pol.

#[export] Instance compliant_dec pol path : Decision (compliant pol path).
Proof.
  refine (cast_if_and3 (decide (pol_Mode pol = ModeStrict)) (decide (path_Hops path ≠ []))
    (decide (Forall (λ h, hop_ISD h ∈ pol_AllowedISDs pol) (path_Hops path))));
    unfold compliant; rewrite <- ?Forall_forall; tauto.
Defined.

(** ** Lemmas *)
Lemma CheckHopsCompliant_strict hops isds :
  CheckHopsCompliant hops isds ModeStrict = filter (λ h, hop_ISD h ∉ (list_to_set isds : gset Z)) hops.
Proof. unfold CheckHopsCompliant. case_bool_decide; [by subst|]. done. Qed.

Lemma strict_offending_nil hops isds :
  CheckHopsCompliant hops isds ModeStrict = [] ↔ ∀ h, h ∈ hops → hop_ISD h ∈ isds.
Proof.
  rewrite CheckHopsCompliant_strict. split.
  - intros Hf h Hh. destruct (decide (hop_ISD h ∈ (list_to_set isds : gset Z))) as [Hin|Hn].
    + by apply elem_of_list_to_set in Hin.
    + assert (h ∈ filter (λ h, hop_ISD h ∉ (list_to_set isds : gset Z)) hops) as Hx
        by (by apply list_elem_of_filter).
      rewrite Hf in Hx. by apply not_elem_of_nil in Hx.
  - intros Hall. induction hops as [|h hops IH]; [done|].
    rewrite filter_cons_False; [apply IH; intros; apply Hall; by right|].
    intros Hn. apply Hn, elem_of_list_to_set, Hall. by left.
Qed.

Lemma filter_step_eq pol r p : pol_Mode pol = ModeStrict →
  filter_step pol r p =
  if decide (compliant pol p) then mkFilter (f_Compliant r ++ [p]) (f_NonCompliant r)
  else mkFilter (f_Compliant r) (f_NonCompliant r ++ [p]).
Proof.
  intros Hm. unfold filter_step. rewrite Hm.
  destruct (decide (compliant pol p)) as [(_ & Hne & Hall)|Hn].
  - by rewrite bool_decide_false, bool_decide_true by (done || by apply strict_offending_nil).
  - case_bool_decide as H1; [done|]. case_bool_decide as H2; [|done]. destruct Hn.
    split_and!; [done|done|]. by apply strict_offending_nil.
Qed.

Lemma foldl_filter pol r paths : pol_Mode pol = ModeStrict →
  foldl (filter_step pol) r paths =
  mkFilter (f_Compliant r ++ filter (compliant pol) paths)
           (f_NonCompliant r ++ filter (λ p, ¬ compliant pol p) paths).
Proof.
  intros Hm. revert r. induction paths as [|p paths IH]; intros r; simpl.
  - destruct r; simpl. by rewrite !app_nil_r.
  - rewrite IH, filter_step_eq by done. rewrite !filter_cons.
    destruct (decide (compliant pol p)); simpl.
    + rewrite (decide_False (P := ¬ _)) by auto. by rewrite <- app_assoc.
    + rewrite decide_True by auto. by rewrite <- app_assoc.
Qed.

(** The verdict of a checker without a replay detector. *)
Lemma Check_decides (ts now now' : Z) (c : Checker) (path : SCIONPath) :
  c_replayDetector c = None → path_Hops path ≠ [] →
  ∃ r, Check ts now now' path c = (c, Ok r) ∧
    (ck_Compliant r = true ↔ compliant (c_policy c) path) ∧
    ck_OffendingHops r =
      (if decide (pol_Mode (c_policy c) = ModeStrict)
       then filter (λ h, hop_ISD h ∉ pol_AllowedISDs (c_policy c)) (path_Hops path) else path_Hops path).
Proof.
  intros Hrd Hne. unfold Check. rewrite Hrd, bool_decide_false by done. set (pol := c_policy c).
  case_bool_decide as Hm; simpl.
  2: { eexists. split; [done|]. rewrite decide_False by done. unfold compliant. split; [|done].
       split; [done|]. by intros (? & _). }
  rewrite Hm, decide_True by done.
  assert (filter (λ h, hop_ISD h ∉ pol_AllowedISDs pol) (path_Hops path) =
          CheckHopsCompliant (path_Hops path) (pol_AllowedISDs pol) ModeStrict) as Hf.
  { rewrite CheckHopsCompliant_strict. apply list_filter_iff. intros h. by rewrite elem_of_list_to_set. }
  rewrite Hf. case_bool_decide as Ho; simpl; eexists; (split; [done|]); simpl.
  - rewrite Ho. split; [|done]. split; [|done]. intros _. split_and!; [done|done|].
    by apply strict_offending_nil.
  - split; [|done]. split; [done|]. intros (_ & _ & Hall). by apply strict_offending_nil in Hall.
Qed.

(** ** Properties *)

(** C17. The checker decides compliance exactly.  Without a replay detector, a
    path with hops is accepted if and only if the policy is in strict mode and
    every hop is in an allowed ISD; when it is refused in strict mode the
    reported hops are exactly the offending ones, in path order, and in any other
    mode the check fails closed and reports every hop. *)
Theorem check_decides_compliance (ts now now' : Z) (pol : Policy) (path : SCIONPath) :
  path_Hops path ≠ [] →
  ∃ r, Check ts now now' path (NewChecker pol) = (NewChecker pol, Ok r) ∧
    (ck_Compliant r = true ↔ compliant pol path) ∧
    ck_OffendingHops r =
      (if decide (pol_Mode pol = ModeStrict)
       then filter (λ h, hop_ISD h ∉ pol_AllowedISDs pol) (path_Hops path) else path_Hops path).
Proof. intros Hne. by apply (Check_decides ts now now' (NewChecker pol) path). Qed.

(** C33. Filtering and checking agree.  [FilterPaths] splits the candidates, in
    order and without losing or duplicating one, into those that [Check]
    accepts and those it refuses or reports an error for. *)
Theorem filter_agrees_with_check (ts now now' : Z) (pol : Policy) (paths : list SCIONPath) :
  let accepted p := match (Check ts now now' p (NewChecker pol)).2 with Ok r => ck_Compliant r | _ => false end in
  FilterPaths pol paths = mkFilter (filter (λ p, accepted p = true) paths) (filter (λ p, accepted p = false) paths).
Proof.
  intros accepted.
  assert (∀ p, accepted p = bool_decide (compliant pol p)) as Hacc.
  { intros p. unfold accepted, Check; simpl. case_bool_decide as Hne.
    { rewrite bool_decide_false; [done|]. unfold compliant. naive_solver. }
    case_bool_decide as Hm; simpl.
    2: { rewrite bool_decide_false; [done|]. unfold compliant. naive_solver. }
    rewrite Hm. case_bool_decide as Ho; simpl; symmetry.
    - apply bool_decide_true. split_and!; [done..|]. by apply strict_offending_nil.
    - apply bool_decide_false. intros (_ & _ & Hall). by apply strict_offending_nil in Hall. }
  assert (filter (λ p, accepted p = true) paths = filter (compliant pol) paths) as ->.
  { apply list_filter_iff. intros p. rewrite Hacc. by rewrite bool_decide_eq_true. }
  assert (filter (λ p, accepted p = false) paths = filter (λ p, ¬ compliant pol p) paths) as ->.
  { apply list_filter_iff. intros p. rewrite Hacc. by rewrite bool_decide_eq_false. }
  unfold FilterPaths. case_bool_decide as Hm; simpl; [by rewrite foldl_filter|].
  f_equal; symmetry.
  - induction paths as [|p paths IH]; [done|]. rewrite filter_cons_False; [done|]. unfold compliant. tauto.
  - induction paths as [|p paths IH]; [done|]. rewrite filter_cons_True; [by rewrite IH|]. unfold compliant. tauto.
Qed.

(** Presenting the same path again and again; each element is the three clock
    readings of one call. *)
Definition present (path : SCIONPath) (c : Checker) (t : Z * Z * Z) : Checker :=
  (Check t.1.1 t.1.2 t.2 path c).1.

(** A path that passed the policy is refused by a detector that still has its
    entry, and the refusal changes nothing. *)
Lemma replayed_refused (ts now now' tm : Z) (path : SCIONPath) (c : Checker) (rd : ReplayDetector) :
  c_replayDetector c = Some rd → compliant (c_policy c) path →
  seen_at rd (path_Fingerprint path) 0 = Some tm →
  ∃ e, Check ts now now' path c = (c, Ok (mkCheck false [] (Some (ClauseReplay e)))).
Proof.
  intros Hrd (Hm & Hne & Hall) Hseen. unfold Check.
  rewrite (bool_decide_false (path_Hops path = [])), (bool_decide_true (pol_Mode _ = _)) by done. simpl.
  rewrite Hm, (bool_decide_true (CheckHopsCompliant _ _ _ = [])) by (by apply strict_offending_nil).
  simpl. rewrite Hrd. pose proof (Check_spec now now' (path_Fingerprint path) 0 ts rd) as Hsp.
  destruct (Replay.Check now now' (path_Fingerprint path) 0 ts rd) as [rd2 r2]; simpl in Hsp.
  inversion Hsp; subst; [|congruence]. destruct c; simpl in *; subst. eauto.
Qed.

(** Acceptance by a checker with a detector: the path is compliant and recorded. *)
Lemma accepted_recorded (ts now now' : Z) (path : SCIONPath) (c c1 : Checker) (rd : ReplayDetector) (r : CheckResult) :
  c_replayDetector c = Some rd → window_ok rd → now' ≤ ts + rd_window rd →
  Check ts now now' path c = (c1, Ok r) → ck_Compliant r = true →
  compliant (c_policy c) path ∧ c_policy c1 = c_policy c ∧
  ∃ rd1, c_replayDetector c1 = Some rd1 ∧ seen_at rd1 (path_Fingerprint path) 0 = Some ts.
Proof.
  intros Hrd Hw Hwin Hc Hr. unfold Check in Hc at 1.
  case_bool_decide as Hne; [done|]. case_bool_decide as Hm; simpl in Hc; [|by simplify_eq].
  case_bool_decide as Ho; simpl in Hc; [|by simplify_eq]. rewrite Hrd in Hc.
  pose proof (Check_Ok_remembers now now' (path_Fingerprint path) 0 ts rd Hw) as Hrem.
  destruct (Replay.Check now now' (path_Fingerprint path) 0 ts rd) as [rd1 [[]|e|]] eqn:Hchk; simplify_eq.
  specialize (Hrem eq_refl). simpl in Hrem.
  assert (rd_window rd1 = rd_window rd) as Hw1
    by (rewrite <- (Check_window now now' (path_Fingerprint path) 0 ts rd), Hchk; done).
  destruct Hrem as [Hseen|]; [|lia]. rewrite Hm in Ho.
  split_and!; [split_and!; [done|done|by apply strict_offending_nil]|done|eauto].
Qed.

(** An accepted path is not accepted again.  With a replay detector
    attached, a path that was accepted is refused as a replay every time it is
    presented again to the checker, however often and at whatever times: the
    checker always passes sequence number 0 and a refused check never cleans up,
    so the entry outlives the validity window until [Cleanup] runs or another
    path is accepted. *)
Theorem checker_refuses_replay (ts now now' : Z) (path : SCIONPath) (c c1 : Checker) (rd : ReplayDetector)
    (r : CheckResult) (again : list (Z * Z * Z)) (ts2 now2 now2' : Z) :
  c_replayDetector c = Some rd → window_ok rd → now' ≤ ts + rd_window rd →
  Check ts now now' path c = (c1, Ok r) → ck_Compliant r = true →
  ∃ e, Check ts2 now2 now2' path (foldl (present path) c1 again) =
    (c1, Ok (mkCheck false [] (Some (ClauseReplay e)))).
Proof.
  intros Hrd Hw Hwin Hc Hr.
  destruct (accepted_recorded ts now now' path c c1 rd r) as (Hcomp & Hpol & rd1 & Hrd1 & Hseen); [done..|].
  rewrite <- Hpol in Hcomp.
  assert (foldl (present path) c1 again = c1) as ->.
  { induction again as [|[[t1 t2] t3] again IH]; [done|]. simpl. unfold present at 2. simpl.
    by destruct (replayed_refused t1 t2 t3 ts path c1 rd1) as [e ->]. }
  by apply (replayed_refused ts2 now2 now2' ts path c1 rd1).
Qed.

(** ** Witnesses *)
Definition hop_ch : ASHop := mkHop "1-ff00:0:110" 1 "ff00:0:110" "".
Definition hop_eu : ASHop := mkHop "2-ff00:0:220" 2 "ff00:0:220" "".
Definition path_ch : SCIONPath := mkPath "" [hop_ch] "fp-ch" EvidenceClassExplicitDemo ProofStatusUnverified.
Definition path_mixed : SCIONPath :=
  mkPath "" [hop_ch; hop_eu] "fp-mixed" EvidenceClassExplicitDemo ProofStatusUnverified.

Lemma check_decides_compliance_witness :
  (Check 0 0 0 path_mixed (NewChecker swiss_policy)).2 =
    Ok (mkCheck false [hop_eu] (Some (ClauseUnauthorizedISD "swiss-dlt-act-v1" [1]))) ∧
  ∃ r, Check 0 0 0 path_mixed (NewChecker swiss_policy) = (NewChecker swiss_policy, Ok r) ∧
    (ck_Compliant r = true ↔ compliant swiss_policy path_mixed) ∧
    ck_OffendingHops r =
      (if decide (pol_Mode swiss_policy = ModeStrict)
       then filter (λ h, hop_ISD h ∉ pol_AllowedISDs swiss_policy) (path_Hops path_mixed) else path_Hops path_mixed).
Proof.
  split; [vm_compute; reflexivity|].
  apply (check_decides_compliance 0 0 0 swiss_policy path_mixed). discriminate.
Defined.

Lemma checker_refuses_replay_witness :
  let c := SetReplayDetector (NewReplayDetector 0) (NewChecker swiss_policy) in
  let t := 1700000000 * second in
  let later := t + 3600 * second in
  let c1 := (Check t t t path_ch c).1 in
  ∃ e, Check later later later path_ch (foldl (present path_ch) c1 [(t, t, t)]) =
    (c1, Ok (mkCheck false [] (Some (ClauseReplay e)))).
Proof.
  intros c t later c1.
  apply (checker_refuses_replay t t t path_ch c c1 (NewReplayDetector 0) (mkCheck true [] None) [(t, t, t)]
    later later later); try done; vm_compute; split; reflexivity.
Defined.
