(* ===== verification/Scion.v ===== *)
(** * SCION paths

    [src/internal/scion/path.go], [querier.go], [mock.go], [rejecting.go] and
    [trc.go]: fingerprints, extraction of hops, the pre-filter on daemon paths
    and the proofs of ISD membership.  [snet], [addr], [daemon] and [cppki] are
    third-party packages: the classes [Snet] and [Cppki] are what the code uses
    of them. *)

From S2P Require Import Prelude GoJson Sha256 Model Policy Replay PathCheck.
From Stdlib Require Import Ascii.

(** ** Fingerprints *)
Fixpoint hops_buf (hops : list ASHop) : bytes :=
  match hops with
  | [] => ""
  | h :: hops' => hop_IA h +:+ "/" +:+ hops_buf hops'
  end.

Definition FingerprintHops (hops : list ASHop) : string := hex (sha256 (hops_buf hops)).

Definition FingerprintPath (raw : bytes) (hops : list ASHop) : string :=
  if 0 <? len raw then hex (sha256 raw) else FingerprintHops hops.

(** ** Extractors

    [PathExtractor], with the optional [EvidenceMetadataProvider]. *)
Record PathExtractor := mkExtractor {
  ExtractHops : bytes → res string (list ASHop);
  EvidenceMetadata : option (bytes → list ASHop → string * string)
}.

Inductive path_err :=
| ExtractingHops (e : string)
| NoHopsInRawPath
| MetadataNil
| NoHopsInMetadata
| ExtractingFromSnet (e : path_err).

Definition BuildSCIONPath (extractor : PathExtractor) (raw : bytes) : res path_err SCIONPath :=
  hops ← map_err ExtractingHops (ExtractHops extractor raw);
  if bool_decide (hops = []) then Err NoHopsInRawPath
  else
    let fp := FingerprintHops hops in
    let '(evidenceClass, proofStatus) :=
      match EvidenceMetadata extractor with
      | Some f => f raw hops
      | None => (EvidenceClassExplicitDemo, ProofStatusUnverified)
      end in
    Ok (mkPath raw hops fp (NormalizeEvidenceClass evidenceClass) (NormalizeProofStatus proofStatus)).

(** mock.go, over the JSON decoder of hop lists. *)
Definition MockPathExtractor (unmarshal : bytes → res string (list ASHop)) : PathExtractor :=
  mkExtractor (λ raw, map_err (λ e, "mock path decode: " +:+ e) (unmarshal raw))
    (Some (λ _ _, (EvidenceClassExplicitDemo, ProofStatusUnverified))).

(** rejecting.go *)
Definition defaultRejectingPathExtractorReason : string :=
  "API raw_path is not accepted in SCION mode; path evidence must come from authenticated SCION session metadata".

Definition NewRejectingPathExtractor (reason : string) : string :=
  if bool_decide (reason = "") then defaultRejectingPathExtractorReason else reason.

(** The extractor of a [RejectingPathExtractor] with the given [Reason]. *)
Definition RejectingPathExtractor (reason : string) : PathExtractor :=
  mkExtractor (λ _, if bool_decide (reason = "") then Err defaultRejectingPathExtractorReason else Err reason) None.

(** ** Daemon paths *)

(** The kinds of dataplane path [serializeDataplanePath] distinguishes: raw
    bytes, a serializer with the outcome of [SerializeTo] on a buffer of its
    length, any other. *)
Inductive DataplanePath :=
| RawPath (raw : bytes)
| Serializer (outcome : res string bytes)
| OtherPath.

(** An [addr.IA] with its accessors, and a [snet.Path]. *)
Class Snet := {
  IA : Type;
  IA_String : IA → string;
  IA_ISD : IA → Z;
  IA_AS_String : IA → string;
  SnetPath : Type;
  Metadata : SnetPath → option (list IA);
  Dataplane : SnetPath → option DataplanePath;
  DecodeHopFields : bytes → option (list bytes)
}.

(** The textual form of an IA determines its ISD (it is printed as
    [<ISD>-<AS>]), and an ISD fits 16 bits. *)
Class SnetLaws `{!Snet} : Prop := {
  IA_String_ISD : ∀ a b, IA_String a = IA_String b → IA_ISD a = IA_ISD b;
  IA_ISD_u16 : ∀ a, 0 ≤ IA_ISD a < 2 ^ 16
}.

Section Snet.
Context `{!Snet}.

(** The loop of [ExtractHopsFromSnetPath]; [seen] is its map. *)
Fixpoint extract_loop (ias : list IA) (seen : gset string) : list ASHop :=
  match ias with
  | [] => []
  | ia :: ias' =>
    let iaStr := IA_String ia in
    if bool_decide (iaStr ∈ seen) then extract_loop ias' seen
    else mkHop iaStr (u16 (IA_ISD ia)) (IA_AS_String ia) "" :: extract_loop ias' ({[iaStr]} ∪ seen)
  end.

Definition ExtractHopsFromSnetPath (p : SnetPath) : res path_err (list ASHop) :=
  match Metadata p with
  | None => Err MetadataNil
  | Some ias =>
    let hops := extract_loop ias ∅ in
    if bool_decide (hops = []) then Err NoHopsInMetadata else Ok hops
  end.

Definition serializeDataplanePath (dp : DataplanePath) : res string bytes :=
  match dp with
  | RawPath raw => Ok raw
  | Serializer outcome => map_err (λ e, "serializing path: " +:+ e) outcome
  | OtherPath => Err "unsupported dataplane path type"
  end.

(** MACs are attached by position; hops past the last hop field keep none. *)
Fixpoint attach_macs (hops : list ASHop) (macs : list bytes) : list ASHop :=
  match hops, macs with
  | h :: hops', m :: macs' => mkHop (hop_IA h) (hop_ISD h) (hop_AS h) m :: attach_macs hops' macs'
  | _, _ => hops
  end.

Definition extractHopMACs (raw : bytes) (hops : list ASHop) : list ASHop :=
  if len raw =? 0 then hops
  else match DecodeHopFields raw with
       | None => hops
       | Some macs => attach_macs hops macs
       end.

Definition BuildSCIONPathFromSnet (p : SnetPath) : res path_err SCIONPath :=
  hops ← map_err ExtractingFromSnet (ExtractHopsFromSnetPath p);
  rawPath ← match Dataplane p with
            | None => Ok ""
            | Some dp => match serializeDataplanePath dp with
                         | Ok raw => Ok raw
                         | Err _ => Ok ""
                         | Panic => Panic
                         end
            end;
  let hops' := extractHopMACs rawPath hops in
  Ok (mkPath rawPath hops' (FingerprintPath rawPath hops') EvidenceClassSCIONObserved ProofStatusObserved).

(** querier.go: a [PathQuerier] is its connection to the daemon, the argument
    [conn] of [QueryPaths]. *)
Definition QueryPaths (conn : IA → IA → res string (list SnetPath)) (dst src : IA) : res string (list SnetPath) := conn dst src.

Definition filter_ok (allowed : gset Z) (p : SnetPath) : bool :=
  match Metadata p with
  | None => false
  | Some ias => forallb (λ ia, bool_decide (u16 (IA_ISD ia) ∈ allowed)) ias
  end.

Definition FilterCompliant (paths : list SnetPath) (allowedISDs : list Z) : list SnetPath :=
  let allowed : gset Z := list_to_set allowedISDs in
  filter (λ p, filter_ok allowed p = true) paths.

(** ** Lemmas on extraction *)

(** First occurrences, in order. *)
Fixpoint first_occurrences (l : list string) (seen : gset string) : list string :=
  match l with
  | [] => []
  | x :: l' => if bool_decide (x ∈ seen) then first_occurrences l' seen
               else x :: first_occurrences l' ({[x]} ∪ seen)
  end.

Lemma extract_loop_IA ias seen :
  hop_IA <$> extract_loop ias seen = first_occurrences (IA_String <$> ias) seen.
Proof.
  revert seen. induction ias as [|ia ias IH]; intros seen; [done|]. simpl.
  case_bool_decide; [apply IH|]. simpl. by rewrite IH.
Qed.

Lemma first_occurrences_elem l seen x :
  x ∈ first_occurrences l seen ↔ x ∈ l ∧ x ∉ seen.
Proof.
  revert seen. induction l as [|y l IH]; intros seen; simpl; [set_solver|].
  case_bool_decide; [rewrite IH; set_solver|]. rewrite elem_of_cons, IH.
  destruct (decide (x = y)); set_solver.
Qed.

Lemma first_occurrences_NoDup l seen : NoDup (first_occurrences l seen).
Proof.
  revert seen. induction l as [|y l IH]; intros seen; simpl; [constructor|].
  case_bool_decide; [done|]. constructor; [|done]. rewrite first_occurrences_elem. set_solver.
Qed.

Lemma extract_loop_sound ias seen h : h ∈ extract_loop ias seen →
  ∃ ia, ia ∈ ias ∧ hop_IA h = IA_String ia ∧ hop_ISD h = u16 (IA_ISD ia).
Proof.
  revert seen. induction ias as [|ia ias IH]; intros seen; simpl; [intros []%not_elem_of_nil|].
  case_bool_decide.
  - intros (ia' & ? & ?)%IH. exists ia'. split; [by right|done].
  - rewrite elem_of_cons. intros [->|(ia' & ? & ?)%IH].
    + exists ia. split; [by left|done].
    + exists ia'. split; [by right|done].
Qed.

Lemma extract_loop_nil ias : extract_loop ias ∅ = [] ↔ ias = [].
Proof. destruct ias; simpl; [done|]. by rewrite bool_decide_false by set_solver. Qed.

Lemma attach_macs_proj hops macs :
  hop_IA <$> attach_macs hops macs = hop_IA <$> hops ∧ hop_ISD <$> attach_macs hops macs = hop_ISD <$> hops.
Proof.
  revert macs. induction hops as [|h hops IH]; intros [|m macs]; try done.
  destruct (IH macs) as [H1 H2]. by split; simpl; f_equal.
Qed.

Lemma extractHopMACs_proj raw hops :
  hop_IA <$> extractHopMACs raw hops = hop_IA <$> hops ∧
  hop_ISD <$> extractHopMACs raw hops = hop_ISD <$> hops.
Proof.
  unfold extractHopMACs. destruct (len raw =? 0); [done|].
  destruct (DecodeHopFields raw); [apply attach_macs_proj|done].
Qed.

Lemma BuildSCIONPathFromSnet_hops p sp : BuildSCIONPathFromSnet p = Ok sp →
  ∃ ias, Metadata p = Some ias ∧ ias ≠ [] ∧
    hop_IA <$> path_Hops sp = hop_IA <$> extract_loop ias ∅ ∧
    hop_ISD <$> path_Hops sp = hop_ISD <$> extract_loop ias ∅.
Proof.
  unfold BuildSCIONPathFromSnet, ExtractHopsFromSnetPath. intros Hb. inv_ok. simpl.
  destruct (Metadata p) as [ias|]; [|done]. exists ias.
  case_bool_decide as Hne; [done|]. inv_ok. destruct (extractHopMACs_proj x0 (extract_loop ias ∅)).
  split_and!; [done| |done|done]. by rewrite <- extract_loop_nil.
Qed.

Context `{!SnetLaws}.

Lemma extract_loop_isds ias (P : Z → Prop) :
  (∀ h, h ∈ extract_loop ias ∅ → P (hop_ISD h)) ↔ (∀ ia, ia ∈ ias → P (u16 (IA_ISD ia))).
Proof.
  split.
  - intros Hall ia Hia.
    assert (IA_String ia ∈ hop_IA <$> extract_loop ias ∅) as Hin.
    { rewrite extract_loop_IA, first_occurrences_elem. split; [by apply list_elem_of_fmap_2|set_solver]. }
    apply list_elem_of_fmap in Hin as (h & Heq & Hh). destruct (extract_loop_sound _ _ _ Hh) as (ia' & _ & Hs & Hisd).
    rewrite (IA_String_ISD ia ia') by congruence. rewrite <- Hisd. by apply Hall.
  - intros Hall h Hh. destruct (extract_loop_sound _ _ _ Hh) as (ia' & Hin & _ & ->). by apply Hall.
Qed.

(** Whether every hop satisfies a condition depends on the ISDs alone. *)
Lemma isds_forall (l l' : list ASHop) (P : Z → Prop) : hop_ISD <$> l = hop_ISD <$> l' →
  (∀ h, h ∈ l → P (hop_ISD h)) → ∀ h, h ∈ l' → P (hop_ISD h).
Proof.
  intros Heq Hall h Hh. assert (hop_ISD h ∈ hop_ISD <$> l) as Hin
    by (rewrite Heq; by apply list_elem_of_fmap_2).
  apply list_elem_of_fmap in Hin as (h' & -> & Hh'). by apply Hall.
Qed.

Lemma filter_ok_spec allowed p ias : Metadata p = Some ias →
  filter_ok allowed p = true ↔ ∀ ia, ia ∈ ias → u16 (IA_ISD ia) ∈ allowed.
Proof.
  intros Hm. unfold filter_ok. rewrite Hm, forallb_forall. split; intros Hall ia Hia.
  - apply list_elem_of_In, Hall in Hia. by apply bool_decide_eq_true_1 in Hia.
  - apply bool_decide_eq_true_2, Hall. by apply list_elem_of_In.
Qed.

(** ** Properties *)

(** C34. The pre-filter on daemon paths agrees with the compliance check.  For a
    path whose metadata yields a [SCIONPath], [FilterCompliant] keeps the path
    exactly when the checker of a strict policy with the same ISDs would accept
    the built path: dropping repeated ASes from the hop list loses no
    jurisdiction. *)
Theorem snet_filter_agrees_with_policy (p : SnetPath) (sp : SCIONPath) (pol : Policy) (paths : list SnetPath) :
  BuildSCIONPathFromSnet p = Ok sp → pol_Mode pol = ModeStrict → p ∈ paths →
  p ∈ FilterCompliant paths (pol_AllowedISDs pol) ↔ compliant pol sp.
Proof.
  intros Hb Hm Hin. destruct (BuildSCIONPathFromSnet_hops p sp Hb) as (ias & Hmeta & Hne & _ & Hisd).
  unfold FilterCompliant. rewrite list_elem_of_filter, (filter_ok_spec _ p ias Hmeta).
  rewrite <- (extract_loop_isds ias (λ i, i ∈ list_to_set (pol_AllowedISDs pol))).
  unfold compliant. split.
  - intros [Hall _]. split_and!; [done| |].
    + intros He. rewrite He in Hisd. symmetry in Hisd. apply fmap_nil_inv, extract_loop_nil in Hisd. done.
    + intros h Hh. rewrite <- (elem_of_list_to_set (C := gset Z)). revert h Hh.
      by apply (isds_forall (extract_loop ias ∅) _ (λ i, i ∈ list_to_set (pol_AllowedISDs pol))).
  - intros (_ & _ & Hall). split; [|done]. intros h Hh. apply elem_of_list_to_set. revert h Hh.
    by apply (isds_forall (path_Hops sp) _ (λ i, i ∈ pol_AllowedISDs pol)).
Qed.

(** The hops of a daemon path are its ASes, each once, in the order the path
    first enters them, and the built path is labelled as observed evidence. *)
Theorem snet_hops_are_distinct_ases (p : SnetPath) (sp : SCIONPath) :
  BuildSCIONPathFromSnet p = Ok sp →
  ∃ ias, Metadata p = Some ias ∧
    hop_IA <$> path_Hops sp = first_occurrences (IA_String <$> ias) ∅ ∧
    NoDup (hop_IA <$> path_Hops sp) ∧
    (∀ ia, ia ∈ ias → ∃ h, h ∈ path_Hops sp ∧ hop_IA h = IA_String ia) ∧
    path_EvidenceClass sp = EvidenceClassSCIONObserved ∧ path_ProofStatus sp = ProofStatusObserved.
Proof.
  intros Hb. destruct (BuildSCIONPathFromSnet_hops p sp Hb) as (ias & Hmeta & Hne & Hia & _).
  exists ias. rewrite extract_loop_IA in Hia. split_and!; [done|done| | | |].
  - rewrite Hia. apply first_occurrences_NoDup.
  - intros ia Hin. assert (IA_String ia ∈ hop_IA <$> path_Hops sp) as Hx.
    { rewrite Hia, first_occurrences_elem. split; [by apply list_elem_of_fmap_2|set_solver]. }
    apply list_elem_of_fmap in Hx as (h & ? & ?). eauto.
  - unfold BuildSCIONPathFromSnet in Hb. by inv_ok.
  - unfold BuildSCIONPathFromSnet in Hb. by inv_ok.
Qed.

(** The pre-filter lets a path without interfaces through.  A path whose
    metadata has no interface passes [FilterCompliant] for every set of allowed
    ISDs, an empty one included, while no [SCIONPath] can be built from it. *)
Theorem snet_filter_keeps_empty_path (p : SnetPath) (isds : list Z) :
  Metadata p = Some [] →
  FilterCompliant [p] isds = [p] ∧ BuildSCIONPathFromSnet p = Err (ExtractingFromSnet NoHopsInMetadata).
Proof.
  intros Hm. unfold FilterCompliant, BuildSCIONPathFromSnet, ExtractHopsFromSnetPath.
  rewrite filter_cons_True; [|unfold filter_ok; by rewrite Hm]. rewrite Hm. done.
Qed.
End Snet.

(** ** trc.go *)

(** The fields of a [cppki.SignedTRC] that the code reads; [AS] is the type of
    AS numbers. *)
Class Cppki `{!Snet} := {
  AS : Type;
  AS_eq_dec : EqDecision AS;
  IA_AS : IA → AS;
  ParseIA : string → res string IA;
  SignedTRC : Type;
  trc_ISD : SignedTRC → Z;
  trc_Serial : SignedTRC → Z;
  trc_CoreASes : SignedTRC → list AS;
  trc_AuthoritativeASes : SignedTRC → list AS;
  trc_Raw : SignedTRC → bytes;
  DecodeSignedTRC : bytes → res string SignedTRC
}.
#[export] Existing Instance AS_eq_dec.

Inductive trc_err :=
| GlobbingTRCs (e : string)
| NoTRCFiles (dir : string)
| ReadingTRC (path e : string)
| DecodingTRC (path e : string)
| DuplicateTRC (isd : Z) (dir : string)
| NoTRCForISD (isd : Z)
| ParsingIA (ia e : string)
| NotAMember (isd : Z).

Section Trc.
Context `{!Snet, !Cppki}.
(** [filepath.Glob] of the [.trc] files of a directory, and [os.ReadFile]. *)
Variable glob : string → res string (list string).
Variable readFile : string → res string bytes.

Definition LoadTRC (path : string) : res trc_err SignedTRC :=
  raw ← map_err (ReadingTRC path) (readFile path);
  map_err (DecodingTRC path) (DecodeSignedTRC raw).

Fixpoint load_trcs (dir : string) (paths : list string) (trcs : gmap Z SignedTRC) : res trc_err (gmap Z SignedTRC) :=
  match paths with
  | [] => Ok trcs
  | path :: paths' =>
    trc ← LoadTRC path;
    let isd := u16 (trc_ISD trc) in
    if bool_decide (is_Some (trcs !! isd)) then Err (DuplicateTRC isd dir)
    else load_trcs dir paths' (<[isd := trc]> trcs)
  end.

Definition NewTRCProofProvider (dir : string) : res trc_err (gmap Z SignedTRC) :=
  matches ← map_err GlobbingTRCs (glob dir);
  if bool_decide (matches = []) then Err (NoTRCFiles dir) else load_trcs dir matches ∅.

Definition VerifyISDMembership (trc : SignedTRC) (ia : IA) : bool :=
  existsb (λ a, bool_decide (a = IA_AS ia)) (trc_CoreASes trc) ||
  existsb (λ a, bool_decide (a = IA_AS ia)) (trc_AuthoritativeASes trc).

Definition BuildISDProof (trc : SignedTRC) (ia : IA) : res trc_err ISDProof :=
  if negb (VerifyISDMembership trc ia) then Err (NotAMember (trc_ISD trc))
  else Ok (mkISDProof (IA_String ia) (u16 (trc_ISD trc)) (u64 (trc_Serial trc)) (trc_Raw trc) "verified" "trc").

Definition BuildProof (trcs : gmap Z SignedTRC) (hop : ASHop) : res trc_err ISDProof :=
  match trcs !! hop_ISD hop with
  | None => Err (NoTRCForISD (hop_ISD hop))
  | Some trc =>
    ia ← map_err (ParsingIA (hop_IA hop)) (ParseIA (hop_IA hop));
    BuildISDProof trc ia
  end.

Definition trcs_ok (trcs : gmap Z SignedTRC) : Prop :=
  ∀ isd trc, trcs !! isd = Some trc → isd = u16 (trc_ISD trc).

Lemma existsb_eq (a : AS) l : existsb (λ x, bool_decide (x = a)) l = true ↔ a ∈ l.
Proof.
  rewrite existsb_exists. split.
  - intros (x & Hin & ->%bool_decide_eq_true_1). by apply list_elem_of_In.
  - intros Hin. exists a. split; [by apply list_elem_of_In|by apply bool_decide_eq_true_2].
Qed.

Lemma load_trcs_ok dir paths trcs trcs' :
  trcs_ok trcs → load_trcs dir paths trcs = Ok trcs' → trcs_ok trcs'.
Proof.
  revert trcs. induction paths as [|path paths IH]; intros trcs Hok Hl; simpl in Hl; [by inv_ok|].
  inv_ok. case_bool_decide; [done|]. apply (IH _) in Hl; [done|].
  intros isd trc. rewrite lookup_insert_Some. intros [[<- <-]|[_ ?]]; eauto.
Qed.

(** A membership proof is backed by a loaded TRC.  When [BuildProof]
    succeeds on the TRCs of [NewTRCProofProvider], the proof names the ISD the
    hop claims, carries the bytes and the serial number of the TRC loaded for
    that ISD, and the AS of the hop's address is one of its core or
    authoritative ASes. *)
Theorem trc_proof_sound (dir : string) (trcs : gmap Z SignedTRC) (hop : ASHop) (pf : ISDProof) :
  NewTRCProofProvider dir = Ok trcs → BuildProof trcs hop = Ok pf →
  ∃ trc ia, trcs !! hop_ISD hop = Some trc ∧ ParseIA (hop_IA hop) = Ok ia ∧
    (IA_AS ia ∈ trc_CoreASes trc ∨ IA_AS ia ∈ trc_AuthoritativeASes trc) ∧
    proof_ISD pf = hop_ISD hop ∧ proof_TRCSerial pf = u64 (trc_Serial trc) ∧
    proof_CertChain pf = trc_Raw trc ∧ proof_VerificationStatus pf = ProofStatusVerified.
Proof.
  intros Hp Hb. assert (trcs_ok trcs) as Hok.
  { unfold NewTRCProofProvider in Hp. inv_ok. case_bool_decide; [done|].
    eapply load_trcs_ok; [|done]. intros isd trc. by rewrite lookup_empty. }
  unfold BuildProof in Hb. destruct (trcs !! hop_ISD hop) as [trc|] eqn:Ht; [|done]. inv_ok.
  unfold BuildISDProof in Hb. destruct (VerifyISDMembership trc x) eqn:Hv; [|done]. simpl in Hb. inv_ok.
  exists trc, x. unfold VerifyISDMembership in Hv. apply orb_true_iff in Hv. rewrite !existsb_eq in Hv.
  split_and!; try done. simpl. symmetry. by apply (Hok _ _ Ht).
Qed.
End Trc.

(** ** Fingerprints bind the hop sequence *)
Definition no_slash (s : string) : Prop := "/"%char ∉ String.list_ascii_of_string s.

Lemma hex_digit_inj x y : 0 ≤ x < 16 → 0 ≤ y < 16 → hex_digit x = hex_digit y → x = y.
Proof.
  unfold hex_digit. intros Hx Hy. destruct (x <? 10) eqn:?, (y <? 10) eqn:?; zbool;
    intros Heq%chr_inj; lia.
Qed.

Lemma hex_inj s t : hex s = hex t → s = t.
Proof.
  revert t. induction s as [|a s IH]; intros [|b t] Heq; try done. simpl in Heq.
  injection Heq as H1 H2 H3. apply IH in H3 as ->. f_equal. apply ord_inj.
  pose proof (ord_range a). pose proof (ord_range b).
  apply hex_digit_inj in H1; [|Z.div_mod_to_equations; lia..].
  apply hex_digit_inj in H2; [|Z.div_mod_to_equations; lia..]. Z.div_mod_to_equations; lia.
Qed.

Lemma split_slash a b s t : no_slash a → no_slash b →
  a +:+ "/" +:+ s = b +:+ "/" +:+ t → a = b ∧ s = t.
Proof.
  unfold no_slash. revert b.
  induction a as [|x a IH]; intros [|y b] Ha Hb Heq; simpl in *; rewrite ?not_elem_of_cons in *; simplify_eq/=.
  - done.
  - by destruct Hb.
  - by destruct Ha.
  - destruct Ha, Hb. by destruct (IH b) as [-> ->].
Qed.

Lemma hops_buf_inj hs hs' : Forall (λ h, no_slash (hop_IA h)) hs → Forall (λ h, no_slash (hop_IA h)) hs' →
  hops_buf hs = hops_buf hs' → hop_IA <$> hs = hop_IA <$> hs'.
Proof.
  revert hs'. induction hs as [|h hs IH]; intros [|h' hs'] H1 H2 Heq; simpl in Heq; try done.
  - by destruct (hop_IA h').
  - by destruct (hop_IA h).
  - inversion H1; inversion H2; subst. apply split_slash in Heq as [? ?]; [|done..].
    simpl. f_equal; [done|]. by apply IH.
Qed.

(** A fingerprint binds the hop sequence.  Two hop lists with the same
    [FingerprintHops], whose addresses have no slash, visit the same ASes in the
    same order, unless their serialisations are a SHA-256 collision. *)
Theorem fingerprint_binds_hops (hs hs' : list ASHop) :
  Forall (λ h, no_slash (hop_IA h)) hs → Forall (λ h, no_slash (hop_IA h)) hs' →
  FingerprintHops hs = FingerprintHops hs' →
  hop_IA <$> hs = hop_IA <$> hs' ∨
  (hops_buf hs ≠ hops_buf hs' ∧ sha256 (hops_buf hs) = sha256 (hops_buf hs')).
Proof.
  intros H1 H2 Heq%hex_inj.
  destruct (decide (hops_buf hs = hops_buf hs')); [left; by apply hops_buf_inj|by right].
Qed.

(** ** Witnesses

    An address is the 64-bit number that packs a 16-bit ISD above a 48-bit AS
    number; a printed address is that number in decimal. *)
Definition mk_ia (isd as_ : Z) : Z := isd * 2 ^ 48 + as_.

#[local] Instance demo_snet : Snet := {|
  IA := Z;
  IA_String ia := pretty ia;
  IA_ISD ia := u16 (ia / 2 ^ 48);
  IA_AS_String ia := pretty (ia mod 2 ^ 48);
  SnetPath := option (list Z) * option DataplanePath;
  Metadata p := p.1;
  Dataplane p := p.2;
  DecodeHopFields raw := Some [raw]
|}.

#[local] Instance demo_snet_laws : SnetLaws.
Proof.
  constructor; simpl.
  - intros a b Heq. by apply (inj pretty) in Heq as ->.
  - intros a. apply Z.mod_pos_bound. lia.
Qed.

Definition demo_trc : Z * list Z * list Z := (1, [272], [273]).

#[local] Instance demo_cppki : Cppki := {|
  AS := Z;
  AS_eq_dec := _;
  IA_AS ia := ia mod 2 ^ 48;
  ParseIA s := if bool_decide (s = pretty (mk_ia 1 272)) then Ok (mk_ia 1 272)
               else if bool_decide (s = pretty (mk_ia 2 272)) then Ok (mk_ia 2 272) else Err "invalid";
  SignedTRC := Z * list Z * list Z;
  trc_ISD t := t.1.1;
  trc_Serial _ := 7;
  trc_CoreASes t := t.1.2;
  trc_AuthoritativeASes t := t.2;
  trc_Raw _ := "trc-bytes";
  DecodeSignedTRC raw := if bool_decide (raw = "trc-bytes") then Ok demo_trc else Err "bad TRC"
|}.

(** Two interfaces of one AS of ISD 1, then an AS of ISD 2. *)
Definition demo_snet_path : SnetPath :=
  (Some [mk_ia 1 272; mk_ia 1 272; mk_ia 2 544], Some (RawPath "raw")).
Definition demo_built : SCIONPath :=
  mkPath "raw" [mkHop (pretty (mk_ia 1 272)) 1 "272" "raw"; mkHop (pretty (mk_ia 2 544)) 2 "544" ""]
    (hex (sha256 "raw")) EvidenceClassSCIONObserved ProofStatusObserved.

Lemma demo_built_eq : BuildSCIONPathFromSnet demo_snet_path = Ok demo_built.
Proof. vm_compute. reflexivity. Qed.

Lemma snet_filter_agrees_with_policy_witness :
  FilterCompliant [demo_snet_path] (pol_AllowedISDs swiss_policy) = [] ∧
  (demo_snet_path ∈ FilterCompliant [demo_snet_path] (pol_AllowedISDs swiss_policy) ↔ compliant swiss_policy demo_built).
Proof.
  split; [vm_compute; reflexivity|].
  apply (snet_filter_agrees_with_policy demo_snet_path demo_built swiss_policy [demo_snet_path]).
  - apply demo_built_eq.
  - reflexivity.
  - by left.
Defined.

Lemma snet_hops_are_distinct_ases_witness :
  ∃ ias, Metadata demo_snet_path = Some ias ∧
    hop_IA <$> path_Hops demo_built = first_occurrences (IA_String <$> ias) ∅ ∧
    NoDup (hop_IA <$> path_Hops demo_built) ∧
    (∀ ia, ia ∈ ias → ∃ h, h ∈ path_Hops demo_built ∧ hop_IA h = IA_String ia) ∧
    path_EvidenceClass demo_built = EvidenceClassSCIONObserved ∧ path_ProofStatus demo_built = ProofStatusObserved.
Proof. apply snet_hops_are_distinct_ases. apply demo_built_eq. Defined.

Lemma snet_filter_keeps_empty_path_witness :
  let p : SnetPath := (Some [], None) in
  FilterCompliant [p] [] = [p] ∧ BuildSCIONPathFromSnet p = Err (ExtractingFromSnet NoHopsInMetadata).
Proof. intros p. apply (snet_filter_keeps_empty_path p []). reflexivity. Defined.

Definition demo_hop_1 : ASHop := mkHop (pretty (mk_ia 1 272)) 1 "272" "".

Lemma trc_proof_sound_witness :
  let trcs : gmap Z SignedTRC := {[1 := demo_trc]} in
  ∃ pf trc ia, BuildProof trcs demo_hop_1 = Ok pf ∧
    trcs !! hop_ISD demo_hop_1 = Some trc ∧ ParseIA (hop_IA demo_hop_1) = Ok ia ∧
    (IA_AS ia ∈ trc_CoreASes trc ∨ IA_AS ia ∈ trc_AuthoritativeASes trc) ∧
    proof_ISD pf = hop_ISD demo_hop_1 ∧ proof_TRCSerial pf = u64 (trc_Serial trc) ∧
    proof_CertChain pf = trc_Raw trc ∧ proof_VerificationStatus pf = ProofStatusVerified.
Proof.
  intros trcs. eexists.
  edestruct (trc_proof_sound (λ _, Ok ["isd1.trc"]) (λ _, Ok "trc-bytes") "trcs" trcs demo_hop_1)
    as (trc & ia & Hrest).
  - vm_compute. reflexivity.
  - vm_compute. reflexivity.
  - exists trc, ia. split; [vm_compute; reflexivity|]. exact Hrest.
Defined.

(** A membership proof is not tied to the ISD of the address.  [BuildProof]
    selects the TRC by the hop's [ISD] field and matches only the AS number of
    its [IA]: a hop whose address is in ISD 2 but whose [ISD] field claims 1
    gets a proof marked verified against the TRC of ISD 1. *)
Theorem trc_proof_ignores_address_isd :
  let hop := mkHop (pretty (mk_ia 2 272)) 1 "272" "" in
  ParseIA (hop_IA hop) = Ok (mk_ia 2 272) ∧ IA_ISD (mk_ia 2 272) = 2 ∧
  BuildProof {[1 := demo_trc]} hop =
    Ok (mkISDProof (pretty (mk_ia 2 272)) 1 7 "trc-bytes" ProofStatusVerified "trc").
Proof. split_and!; vm_compute; reflexivity. Qed.

Lemma fingerprint_binds_hops_witness :
  let hs := [mkHop "1-ff00:0:110" 1 "ff00:0:110" "m"] in
  let hs' := [mkHop "1-ff00:0:110" 1 "ff00:0:110" ""] in
  hop_IA <$> hs = hop_IA <$> hs' ∨ (hops_buf hs ≠ hops_buf hs' ∧ sha256 (hops_buf hs) = sha256 (hops_buf hs')).
Proof.
  assert (no_slash "1-ff00:0:110") as Hn.
  { unfold no_slash. simpl. rewrite !not_elem_of_cons. split_and!; try discriminate. apply not_elem_of_nil. }
  intros hs hs'. apply (fingerprint_binds_hops hs hs'); [| |apply (f_equal (λ b, hex (sha256 b))); reflexivity].
  all: apply Forall_cons; (split; [exact Hn|constructor]).
Defined.
