(* ===== verification/Bolt.v ===== *)
(** * Buckets and the helpers of boltutil

    [bbolt] is a third-party package: the class [Bolt] is what the stores use of
    it and [BoltLaws] what its documentation promises.  [Codec] is
    [json.Marshal]/[json.Unmarshal] at one type.  The four helpers are
    [src/internal/boltutil/boltutil.go]. *)

From S2P Require Import Prelude GoJson.
From Stdlib Require Import Ascii.
Local Open Scope Z_scope.


(** ** Byte order

    [bytes.Compare] as a strict order. *)
Fixpoint blt (a b : bytes) : bool :=
  match a, b with
  | _, EmptyString => false
  | EmptyString, String _ _ => true
  | String x a', String y b' => (ord x <? ord y) || ((ord x =? ord y) && blt a' b')
  end.

(** ** bbolt

    A bucket is read by key and by a cursor; [entries] is the whole traversal of
    a cursor from its first position. *)
Class Bolt := {
  bucket : Type;
  empty_bucket : bucket;
  Get : bytes → bucket → option bytes;
  Put : bytes → bytes → bucket → res string bucket;
  entries : bucket → list (bytes * bytes)
}.

Definition MaxKeySize : Z := 32768.
Definition MaxValueSize : Z := 2 ^ 31 - 2.

Class BoltLaws `{!Bolt} : Prop := {
  Get_empty : ∀ k, Get k empty_bucket = None;
  Put_ok : ∀ k v b, 0 < len k ≤ MaxKeySize → len v ≤ MaxValueSize → is_ok (Put k v b) = true;
  Put_no_panic : ∀ k v b, Put k v b ≠ Panic;
  Get_Put : ∀ k v b b' k', Put k v b = Ok b' → Get k' b' = if decide (k = k') then Some v else Get k' b;
  entries_Get : ∀ k v b, (k, v) ∈ entries b ↔ Get k b = Some v;
  entries_sorted : ∀ b, StronglySorted (λ x y : bytes * bytes, blt x.1 y.1 = true) (entries b)
}.

(** Cursor positions: [Last], and the traversal from [Seek(k)]. *)
Definition cursor_last `{!Bolt} (b : bucket) : option (bytes * bytes) := last (entries b).
Fixpoint seek_from (k : bytes) (l : list (bytes * bytes)) : list (bytes * bytes) :=
  match l with
  | [] => []
  | e :: l' => if blt e.1 k then seek_from k l' else l
  end.
Definition KeyN `{!Bolt} (b : bucket) : Z := Z.of_nat (length (entries b)).

(** The ways a transaction can fail outside of its function: it cannot begin (the
    database is closed), or its commit fails. *)
Inductive fault := NoFault | BeginFails (e : string) | CommitFails (e : string).

Inductive db_err := DBError (e : string).
#[export] Instance db_err_eq_dec : EqDecision db_err.
Proof. solve_decision. Defined.

(** [db.Update]: a read-write transaction is atomic. *)
Definition Update {D E A} (dbe : string → E) (f : fault) (body : D → res E (D * A)) (db : D) : D * res E A :=
  match f with
  | BeginFails e => (db, Err (dbe e))
  | _ =>
    match body db with
    | Ok (db', a) => match f with CommitFails e => (db, Err (dbe e)) | _ => (db', Ok a) end
    | Err e => (db, Err e)
    | Panic => (db, Panic)
    end
  end.

(** [db.View]: a read-only transaction. *)
Definition View {D E A} (dbe : string → E) (f : fault) (body : D → res E A) (db : D) : res E A :=
  match f with
  | BeginFails e => Err (dbe e)
  | _ => body db
  end.

(** ** JSON at one type

    [codec_ok] holds of the values that survive encoding: valid UTF-8 strings,
    times of years 0 to 9999, numbers in the range of their types. *)
Class Codec (T : Type) := {
  marshal : T → res string bytes;
  unmarshal : bytes → res string T;
  codec_ok : T → Prop
}.

(** A value whose strings are valid UTF-8, whose times are in years 0 to 9999 and
    whose numbers fit their types ([codec_ok]) is encoded, and decodes to
    itself; empty input is a syntax error. *)
Class CodecLaws T `{!Codec T} : Prop := {
  marshal_ok : ∀ x, codec_ok x → is_ok (marshal x) = true;
  marshal_no_panic : ∀ x, marshal x ≠ Panic;
  unmarshal_marshal : ∀ x d, codec_ok x → marshal x = Ok d → unmarshal d = Ok x;
  unmarshal_empty : is_ok (unmarshal (T := T) "") = false
}.

(** ** boltutil.go

    A database file maps bucket names to buckets. *)
Definition create_bucket_if_not_exists `{!Bolt} (name : bytes) (db : gmap bytes bucket) : gmap bytes bucket :=
  match db !! name with Some _ => db | None => <[name := empty_bucket]> db end.

(** [OpenAndInit]: [opened] is the outcome of [bolt.Open]. *)
Definition OpenAndInit `{!Bolt} {E} (opening creating : string → E) (opened : res string (gmap bytes bucket))
    (f : fault) (names : list bytes) : res E (gmap bytes bucket) :=
  match opened with
  | Err e => Err (opening e)
  | Panic => Panic
  | Ok db =>
    let '(db', r) := Update creating f (λ db, Ok (foldl (λ d b, create_bucket_if_not_exists b d) db names, tt)) db in
    map_err id (_ ← r; Ok db')
  end.

Section Boltutil.
Context `{!Bolt} {T E : Type} `{!Codec T} (jsone dbe : string → E).

(** Unmarshal a value if there is one. *)
Definition decode_opt (data : option bytes) : res E (option T) :=
  match data with
  | None => Ok None
  | Some d => x ← map_err jsone (unmarshal d); Ok (Some x)
  end.

Definition GetByKey (f : fault) (key : bytes) (b : bucket) : res E (option T) :=
  View dbe f (λ b, decode_opt (Get key b)) b.

Definition GetViaIndex (f : fault) (key : bytes) (idx data : bucket) : res E (option T) :=
  View dbe f (λ '(idx, data),
    match Get key idx with
    | None => Ok None
    | Some pk => decode_opt (Get pk data)
    end) (idx, data).

Fixpoint decode_all (l : list bytes) : res E (list T) :=
  match l with
  | [] => Ok []
  | v :: l' => item ← map_err jsone (unmarshal v); rest ← decode_all l'; Ok (item :: rest)
  end.

Definition ListAll (f : fault) (b : bucket) : res E (list T) :=
  View dbe f (λ b, decode_all (snd <$> entries b)) b.

Definition CountKeys (f : fault) (b : bucket) : res E Z := View dbe f (λ b, Ok (KeyN b)) b.
End Boltutil.

(** ** The byte order is strict and total *)
Lemma blt_irrefl a : blt a a = false.
Proof.
  induction a as [|x a IH]; [done|]. simpl. rewrite IH, andb_false_r, orb_false_r.
  apply Z.ltb_irrefl.
Qed.

Lemma blt_trans a b c : blt a b = true → blt b c = true → blt a c = true.
Proof.
  revert b c. induction a as [|x a IH]; intros [|y b] [|z c]; simpl; try done.
  rewrite !orb_true_iff, !andb_true_iff, !Z.ltb_lt, !Z.eqb_eq.
  intros [?|[? ?]] [?|[? ?]]; try (left; lia). right. split; [lia|eauto].
Qed.

#[export] Instance blt_transitive : Transitive (λ x y : bytes * bytes, blt x.1 y.1 = true).
Proof. intros x y z. apply blt_trans. Qed.

(** ** Sorted lists with the same elements are equal *)
Section Sorting.
Context {A : Type} (R : A → A → Prop) (R_irrefl : ∀ x, ¬ R x x) (R_trans : Transitive R).

Lemma strict_sorted_NoDup l : StronglySorted R l → NoDup l.
Proof using R_irrefl.
  clear R_trans. induction 1 as [|x l _ IH Hall]; constructor; [|done].
  intros Hin. rewrite Forall_forall in Hall. by apply (R_irrefl x), Hall.
Qed.

Lemma strict_sorted_unique l l' : StronglySorted R l → StronglySorted R l' →
  (∀ x, x ∈ l ↔ x ∈ l') → l = l'.
Proof using R_irrefl R_trans.
  intros Hl Hl' Heq. apply (StronglySorted_unique_strong R).
  - intros x y Hx Hy Hxy Hyx. exfalso. by apply (R_irrefl x), (R_trans x y x).
  - done.
  - done.
  - apply NoDup_Permutation; [by apply strict_sorted_NoDup..|done].
Qed.
End Sorting.

(** ** Big-endian keys sort like numbers *)
Definition octets (l : list Z) : Prop := Forall (λ b, 0 ≤ b < 256) l.

Fixpoint be_val (l : list Z) : Z :=
  match l with
  | [] => 0
  | b :: l' => b * 256 ^ Z.of_nat (length l') + be_val l'
  end.

Lemma be_val_range l : octets l → 0 ≤ be_val l < 256 ^ Z.of_nat (length l).
Proof.
  induction 1 as [|b l Hb _ IH]; [simpl; lia|]. cbn [be_val length].
  rewrite Nat2Z.inj_succ, Z.pow_succ_r by lia. nia.
Qed.

Lemma be_val_lex l l' : octets l → octets l' → length l = length l' →
  blt (string_of l) (string_of l') = true ↔ be_val l < be_val l'.
Proof.
  intros Hl. revert l'. induction Hl as [|b l Hb Hl IH]; intros l' Hl' Hlen.
  { destruct l'; simpl; [lia|done]. }
  destruct Hl' as [|c l' Hc Hl']; [done|]. injection Hlen as Hlen. simpl.
  unfold ord, chr. rewrite !N_ascii_embedding, !Z2N.id by lia.
  rewrite orb_true_iff, andb_true_iff, Z.ltb_lt, Z.eqb_eq, (IH l' Hl' Hlen).
  pose proof (be_val_range l Hl). pose proof (be_val_range l' Hl'). rewrite Hlen in *. nia.
Qed.

Lemma be_bytes_octets n z : octets (be_bytes n z).
Proof. induction n; simpl; constructor; [apply Z.mod_pos_bound; lia|done]. Qed.

Lemma length_be_bytes' n z : length (be_bytes n z) = n.
Proof. induction n; simpl; congruence. Qed.

Lemma be_val_be_bytes n z : be_val (be_bytes n z) = z mod 256 ^ Z.of_nat n.
Proof.
  induction n as [|n IH]; [simpl; by rewrite Z.mod_1_r|].
  cbn [be_bytes be_val]. rewrite IH, length_be_bytes', Nat2Z.inj_succ, Z.pow_succ_r by lia.
  rewrite (Z.mul_comm 256), Z.rem_mul_r; lia.
Qed.

Lemma be64_lt x y : is_u64 x → is_u64 y → blt (be64 x) (be64 y) = true ↔ x < y.
Proof.
  intros Hx Hy. unfold be64. rewrite be_val_lex by (apply be_bytes_octets || by rewrite !length_be_bytes').
  rewrite !be_val_be_bytes. rewrite !Z.mod_small by exact Hx || exact Hy. done.
Qed.

Lemma be64_inj x y : is_u64 x → is_u64 y → be64 x = be64 y → x = y.
Proof.
  intros Hx Hy Heq. destruct (Z.lt_trichotomy x y) as [Hlt|[?|Hlt]]; [|done|];
    apply be64_lt in Hlt; try done; by rewrite Heq, blt_irrefl in Hlt.
Qed.

Lemma bytes_of_string_of l : octets l → bytes_of (string_of l) = l.
Proof.
  induction 1 as [|b l Hb _ IH]; [done|]. simpl. rewrite IH. f_equal.
  unfold ord, chr. rewrite N_ascii_embedding; lia.
Qed.

Lemma foldl_be_val l acc : foldl (λ a b, a * 256 + b) acc l = acc * 256 ^ Z.of_nat (length l) + be_val l.
Proof.
  revert acc. induction l as [|b l IH]; intros acc; [simpl; lia|].
  cbn [foldl be_val length]. rewrite IH, Nat2Z.inj_succ, Z.pow_succ_r by lia. ring.
Qed.

Lemma be_value_be64 x : is_u64 x → be_value (be64 x) = x.
Proof.
  intros Hx. unfold be_value, be64. rewrite bytes_of_string_of, foldl_be_val by apply be_bytes_octets.
  rewrite be_val_be_bytes, Z.mul_0_l, Z.add_0_l. by apply Z.mod_small.
Qed.

Lemma length_be64 x : String.length (be64 x) = 8%nat.
Proof. done. Qed.
Arguments be64 : simpl never.

(** ** Traversals *)
Lemma seek_from_filter k l : StronglySorted (λ x y : bytes * bytes, blt x.1 y.1 = true) l →
  seek_from k l = filter (λ e, blt e.1 k = false) l.
Proof.
  induction 1 as [|e l Hs IH Hall]; [done|]. simpl. rewrite filter_cons.
  destruct (blt e.1 k) eqn:E; [by rewrite decide_False|]. rewrite decide_True by done. f_equal.
  clear -E Hall. induction l as [|e' l IH]; [done|]. inversion Hall as [|?? He Hl]; subst.
  rewrite filter_cons_True; [by f_equal; apply IH|].
  destruct (blt e'.1 k) eqn:E'; [|done]. by rewrite (blt_trans _ _ _ He E') in E.
Qed.

(** ** Buckets that hold a list

    A bucket written by successive [Put]s holds, at each key, the value of the
    last element with that key. *)
Section Lists.
Context `{!Bolt, !BoltLaws} {B : Type}.

Lemma Get_snoc (key : B → bytes) (val : B → bytes) (b b' : bucket) (l : list B) (r : B) :
  (∀ k, Get k b = val <$> last_match (λ x, key x = k) l) → Put (key r) (val r) b = Ok b' →
  ∀ k, Get k b' = val <$> last_match (λ x, key x = k) (l ++ [r]).
Proof.
  intros Hb Hp k. rewrite (Get_Put _ _ _ _ k Hp), last_match_app, Hb. by case_decide.
Qed.

Lemma Put_storable k v b : 0 < len k ≤ MaxKeySize → len v ≤ MaxValueSize → ∃ b', Put k v b = Ok b'.
Proof.
  intros Hk Hv. pose proof (Put_ok k v b Hk Hv). destruct (Put k v b); [by eexists|done..].
Qed.

(** With increasing numbers as big-endian keys, a traversal is the list itself. *)
Lemma entries_of_list (num : B → Z) (val : B → bytes) (b : bucket) (l : list B) :
  (∀ x, x ∈ l → is_u64 (num x)) → StronglySorted (λ x y, num x < num y) l →
  (∀ k, Get k b = val <$> last_match (λ x, be64 (num x) = k) l) →
  entries b = (λ x, (be64 (num x), val x)) <$> l.
Proof.
  intros Hu Hinc Hget. apply (strict_sorted_unique (λ x y : bytes * bytes, blt x.1 y.1 = true)).
  - intros x Hx. by rewrite blt_irrefl in Hx.
  - apply _.
  - apply entries_sorted.
  - clear Hget. induction Hinc as [|x l Hs IH Hall]; [constructor|]. rewrite fmap_cons.
    constructor; [apply IH; intros; apply Hu; by right|]. rewrite Forall_fmap. apply Forall_forall. intros y Hy.
    rewrite Forall_forall in Hall. apply be64_lt; [apply Hu; by left|apply Hu; by right|by apply Hall].
  - assert (NoDup ((λ x, be64 (num x)) <$> l)) as Hnd.
    { clear Hget. induction Hinc as [|x l Hs IH Hall]; [constructor|]. rewrite fmap_cons.
      constructor; [|apply IH; intros; apply Hu; by right]. intros (y & Heq & Hy)%list_elem_of_fmap.
      apply be64_inj in Heq; [|apply Hu; by left|apply Hu; by right].
      rewrite Forall_forall in Hall. specialize (Hall y Hy). lia. }
    intros [k v]. rewrite entries_Get, Hget, fmap_Some, list_elem_of_fmap. split.
    + intros (x & [Hx <-]%last_match_Some & ->). by exists x.
    + intros (x & Heq & Hx). simplify_eq. exists x. split; [|done]. by apply (last_match_unique (λ x, be64 (num x))).
Qed.
End Lists.

(** ** Maps with a sorted traversal

    The instance the concrete runs use. *)
Module MapBolt.
Definition ble (x y : bytes * bytes) : Prop := blt y.1 x.1 = false.
#[export] Instance ble_dec x y : Decision (ble x y) := decide (blt y.1 x.1 = false).

Definition put (k v : bytes) (b : gmap bytes bytes) : res string (gmap bytes bytes) :=
  if len k =? 0 then Err "key required"
  else if MaxKeySize <? len k then Err "key too large"
  else if MaxValueSize <? len v then Err "value too large"
  else Ok (<[k := v]> b).

#[export] Instance map_bolt : Bolt := {|
  bucket := gmap bytes bytes;
  empty_bucket := ∅;
  Get k b := b !! k;
  Put := put;
  entries b := merge_sort ble (map_to_list b)
|}.

Lemma blt_total a b : blt a b = false → blt b a = false → a = b.
Proof.
  revert b. induction a as [|x a IH]; intros [|y b]; simpl; try done.
  rewrite !orb_false_iff, !andb_false_iff, !Z.ltb_ge, !Z.eqb_neq. intros [? H1] [? H2].
  assert (ord x = ord y) as Hxy by lia. destruct H1 as [?|H1]; [lia|]. destruct H2 as [?|H2]; [lia|].
  f_equal; [|by apply IH]. rewrite <- (ascii_N_embedding x), <- (ascii_N_embedding y).
  unfold ord in Hxy. f_equal. lia.
Qed.

#[export] Instance ble_trans : Transitive ble.
Proof.
  unfold ble. intros x y z H1 H2. destruct (blt z.1 x.1) eqn:E; [|done].
  destruct (blt x.1 y.1) eqn:E1; [by rewrite (blt_trans _ _ _ E E1) in H2|].
  assert (x.1 = y.1) as Heq by (by apply blt_total). congruence.
Qed.

#[export] Instance ble_total : Total ble.
Proof.
  unfold ble. intros x y. destruct (blt y.1 x.1) eqn:E; [|by left]. right.
  destruct (blt x.1 y.1) eqn:E'; [|done]. pose proof (blt_trans _ _ _ E E') as Hc. by rewrite blt_irrefl in Hc.
Qed.

(** A sorted list whose keys are distinct is strictly sorted. *)
Lemma sorted_strict l : StronglySorted ble l → NoDup l.*1 →
  StronglySorted (λ x y : bytes * bytes, blt x.1 y.1 = true) l.
Proof.
  induction 1 as [|x l Hs IH Hall]; [constructor|]. intros Hnd. inversion Hnd as [|?? Hx Hl]; subst.
  constructor; [by apply IH|]. apply Forall_forall. intros y Hy. rewrite Forall_forall in Hall.
  pose proof (Hall y Hy) as Hb. unfold ble in Hb. destruct (blt x.1 y.1) eqn:E; [done|].
  destruct Hx. rewrite (blt_total x.1 y.1 E Hb). by apply list_elem_of_fmap_2.
Qed.

#[export] Instance map_bolt_laws : BoltLaws.
Proof.
  constructor; simpl.
  - intros k. apply lookup_empty.
  - intros k v b Hk Hv. unfold put.
    destruct (len k =? 0) eqn:?; zbool; [lia|]. destruct (MaxKeySize <? len k) eqn:?; zbool; [lia|].
    destruct (MaxValueSize <? len v) eqn:?; zbool; [lia|done].
  - intros k v b. unfold put. by repeat case_match.
  - intros k v b b' k' Hp. unfold put in Hp. destruct (len k =? 0), (MaxKeySize <? len k), (MaxValueSize <? len v); try done.
    injection Hp as <-. apply lookup_insert.
  - intros k v b. rewrite merge_sort_Permutation. apply elem_of_map_to_list.
  - intros b. apply sorted_strict; [by apply (StronglySorted_merge_sort ble)|].
    rewrite merge_sort_Permutation. apply NoDup_fst_map_to_list.
Qed.
End MapBolt.
