(* ===== verification/ReceiptStore.v ===== *)
(** * Receipt stores

    [src/internal/receipt/store.go]: the [Store] interface, its in-memory and
    its bbolt implementation, and the index rebuild of [backfillSeqBucket].  The
    class [StoreLaws] is what the rest of the system relies on; both stores
    discharge it. *)

From S2P Require Import Prelude GoJson Model Bolt.

Inductive store_err :=
| DuplicateReceiptID (id : string)
| DuplicateSequence (seqNo : Z)
| MarshalingReceipt (e : string)
| JSONError (e : string)
| BoltError (e : string).

#[export] Instance store_err_eq_dec : EqDecision store_err.
Proof. solve_decision. Defined.

Abbreviation receipt := ComplianceReceipt.

(** ** The interface

    Each call of a persistent store can meet a [fault] of the database. *)
Class Store (S : Type) := {
  store_Append : fault → receipt → S → S * res store_err unit;
  store_GetByTxID : fault → string → S → res store_err (option receipt);
  store_GetByID : fault → string → S → res store_err (option receipt);
  store_List : fault → S → res store_err (list receipt);
  store_Count : fault → S → res store_err Z;
  store_Last : fault → S → res store_err (option receipt);
  store_ListRange : fault → Z → Z → S → res store_err (list receipt)
}.

(** ** MemoryStore *)
Record MemoryStore := mkMem {
  ms_receipts : list receipt;
  ms_byID : gmap string receipt;
  ms_byTxID : gmap string receipt;
  ms_bySeq : gmap Z receipt
}.

Definition NewMemoryStore : MemoryStore := mkMem [] ∅ ∅ ∅.

Definition mem_Append (r : receipt) (s : MemoryStore) : MemoryStore * res store_err unit :=
  if bool_decide (is_Some (ms_byID s !! r_ID r)) then (s, Err (DuplicateReceiptID (r_ID r)))
  else if bool_decide (is_Some (ms_bySeq s !! r_SeqNo r)) then (s, Err (DuplicateSequence (r_SeqNo r)))
  else (mkMem (ms_receipts s ++ [r]) (<[r_ID r := r]> (ms_byID s))
          (<[r_TransactionID r := r]> (ms_byTxID s)) (<[r_SeqNo r := r]> (ms_bySeq s)), Ok tt).

Definition mem_GetByTxID (txID : string) (s : MemoryStore) : res store_err (option receipt) := Ok (ms_byTxID s !! txID).
Definition mem_GetByID (id : string) (s : MemoryStore) : res store_err (option receipt) := Ok (ms_byID s !! id).
Definition mem_List (s : MemoryStore) : res store_err (list receipt) := Ok (ms_receipts s).
Definition mem_Count (s : MemoryStore) : res store_err Z := Ok (Z.of_nat (length (ms_receipts s))).

Definition mem_Last (s : MemoryStore) : res store_err (option receipt) :=
  if bool_decide (ms_receipts s = []) then Ok None
  else match ms_receipts s !! (length (ms_receipts s) - 1)%nat with
       | Some r => Ok (Some r)
       | None => Panic
       end.

Definition mem_ListRange (fromSeq toSeq : Z) (s : MemoryStore) : res store_err (list receipt) :=
  Ok (filter (λ r, fromSeq ≤ r_SeqNo r ≤ toSeq) (ms_receipts s)).

#[export] Instance MemoryStore_Store : Store MemoryStore := {|
  store_Append _ := mem_Append;
  store_GetByTxID _ := mem_GetByTxID;
  store_GetByID _ := mem_GetByID;
  store_List _ := mem_List;
  store_Count _ := mem_Count;
  store_Last _ := mem_Last;
  store_ListRange _ := mem_ListRange
|}.

(** ** BoltStore *)
Definition receiptsBucket : bytes := "receipts".
Definition receiptsByTxBucket : bytes := "receipts_by_tx".
Definition seqBucket : bytes := "seq".

Section BoltStore.
Context `{!Bolt, !Codec receipt}.

(** The three buckets of an open database. *)
Record BoltStore := mkBS {
  bs_receipts : bucket;
  bs_byTx : bucket;
  bs_seq : bucket
}.

(** The loop of [backfillSeqBucket] over the cursor of the receipts bucket. *)
Fixpoint backfill_loop (es : list (bytes * bytes)) (seq : bucket) : res store_err bucket :=
  match es with
  | [] => Ok seq
  | (k, v) :: es' =>
    match unmarshal v with
    | Ok r =>
      let seqKey := be64 (r_SeqNo r) in
      match Get seqKey seq with
      | Some _ => Err (DuplicateSequence (r_SeqNo r))
      | None =>
        seq' ← map_err BoltError (Put seqKey k seq);
        backfill_loop es' seq'
      end
    | Err _ => backfill_loop es' seq
    | Panic => Panic
    end
  end.

Definition backfillSeqBucket (f : fault) (s : BoltStore) : BoltStore * res store_err unit :=
  Update BoltError f (λ s,
    if 0 <? KeyN (bs_seq s) then Ok (s, tt)
    else
      seq ← backfill_loop (entries (bs_receipts s)) (bs_seq s);
      Ok (mkBS (bs_receipts s) (bs_byTx s) seq, tt)) s.

Inductive open_err := OpeningDB (e : string) | CreatingBuckets (e : string) | BackfillingSeq (e : store_err).

(** [NewBoltStore]: [f1] is the fault of the bucket creation, [f2] of the
    backfill. *)
Definition NewBoltStore (opened : res string (gmap bytes bucket)) (f1 f2 : fault) : res open_err BoltStore :=
  db ← OpenAndInit OpeningDB CreatingBuckets opened f1 [receiptsBucket; receiptsByTxBucket; seqBucket];
  match db !! receiptsBucket, db !! receiptsByTxBucket, db !! seqBucket with
  | Some b1, Some b2, Some b3 =>
    let '(s, r) := backfillSeqBucket f2 (mkBS b1 b2 b3) in
    _ ← map_err BackfillingSeq r;
    Ok s
  | _, _, _ => Panic
  end.

Definition bolt_Append (f : fault) (r : receipt) (s : BoltStore) : BoltStore * res store_err unit :=
  match marshal r with
  | Err e => (s, Err (MarshalingReceipt e))
  | Panic => (s, Panic)
  | Ok data =>
    Update BoltError f (λ s,
      if bool_decide (is_Some (Get (r_ID r) (bs_receipts s))) then Err (DuplicateReceiptID (r_ID r))
      else
        let seqKey := be64 (r_SeqNo r) in
        if bool_decide (is_Some (Get seqKey (bs_seq s))) then Err (DuplicateSequence (r_SeqNo r))
        else
          receipts ← map_err BoltError (Put (r_ID r) data (bs_receipts s));
          byTx ← map_err BoltError (Put (r_TransactionID r) (r_ID r) (bs_byTx s));
          seq ← map_err BoltError (Put seqKey (r_ID r) (bs_seq s));
          Ok (mkBS receipts byTx seq, tt)) s
  end.

Definition bolt_GetByID (f : fault) (id : string) (s : BoltStore) : res store_err (option receipt) :=
  GetByKey JSONError BoltError f id (bs_receipts s).

Definition bolt_GetByTxID (f : fault) (txID : string) (s : BoltStore) : res store_err (option receipt) :=
  GetViaIndex JSONError BoltError f txID (bs_byTx s) (bs_receipts s).

Definition bolt_List (f : fault) (s : BoltStore) : res store_err (list receipt) :=
  ListAll JSONError BoltError f (bs_receipts s).

Definition bolt_Count (f : fault) (s : BoltStore) : res store_err Z := CountKeys BoltError f (bs_receipts s).

Definition bolt_Last (f : fault) (s : BoltStore) : res store_err (option receipt) :=
  View BoltError f (λ s,
    match cursor_last (bs_seq s) with
    | None => Ok None
    | Some (_, idBytes) => decode_opt JSONError (Get idBytes (bs_receipts s))
    end) s.

(** The cursor loop of [ListRange]; [Uint64] panics on a key shorter than eight
    bytes. *)
Fixpoint range_loop (toSeq : Z) (es : list (bytes * bytes)) (receipts : bucket) : res store_err (list receipt) :=
  match es with
  | [] => Ok []
  | (k, idBytes) :: es' =>
    if len k <? 8 then Panic
    else
      let seqNo := be_value (String.substring 0 8 k) in
      if toSeq <? seqNo then Ok []
      else match Get idBytes receipts with
           | None => range_loop toSeq es' receipts
           | Some data =>
             r ← map_err JSONError (unmarshal data);
             rest ← range_loop toSeq es' receipts;
             Ok (r :: rest)
           end
  end.

Definition bolt_ListRange (f : fault) (fromSeq toSeq : Z) (s : BoltStore) : res store_err (list receipt) :=
  View BoltError f (λ s,
    range_loop toSeq (seek_from (be64 fromSeq) (entries (bs_seq s))) (bs_receipts s)) s.

#[export] Instance BoltStore_Store : Store BoltStore := {|
  store_Append := bolt_Append;
  store_GetByTxID := bolt_GetByTxID;
  store_GetByID := bolt_GetByID;
  store_List := bolt_List;
  store_Count := bolt_Count;
  store_Last := bolt_Last;
  store_ListRange := bolt_ListRange
|}.
End BoltStore.

(** ** Specification

    A store is the list of its receipts in the order they were appended. *)
Definition spec_append (l : list receipt) (r : receipt) : list receipt * res store_err unit :=
  if bool_decide (r_ID r ∈ r_ID <$> l) then (l, Err (DuplicateReceiptID (r_ID r)))
  else if bool_decide (r_SeqNo r ∈ r_SeqNo <$> l) then (l, Err (DuplicateSequence (r_SeqNo r)))
  else (l ++ [r], Ok tt).

(** Sequence numbers increase along the list. *)
Definition increasing (l : list receipt) : Prop := StronglySorted (λ a b, r_SeqNo a < r_SeqNo b) l.

(** What a store promises.  [st_rep s l]: the receipts [l] were appended to [s].
    [st_readable r]: the store returns [r] unchanged, which a database only does
    for a receipt that survives its encoding, so that a read of it is specified
    under this condition on the receipt it finds.  [st_storable r]: the limits
    of the store do not refuse [r].  Sequence numbers are [uint64]. *)
Class StoreLaws (S : Type) `{!Store S} := {
  st_rep : S → list receipt → Prop;
  st_readable : receipt → Prop;
  st_storable : receipt → Prop;
  st_storable_readable : ∀ r, st_storable r → st_readable r;
  st_append : ∀ s l r, st_rep s l → st_storable r →
    ∃ s', store_Append NoFault r s = (s', (spec_append l r).2) ∧ st_rep s' (spec_append l r).1;
  st_append_ok : ∀ f s l r s', st_rep s l → is_u64 (r_SeqNo r) → store_Append f r s = (s', Ok tt) →
    st_rep s' (l ++ [r]) ∧ spec_append l r = (l ++ [r], Ok tt);
  st_append_err : ∀ f s l r s' x, st_rep s l → store_Append f r s = (s', x) → x ≠ Ok tt → s' = s;
  st_append_no_panic : ∀ f r s, (store_Append f r s).2 ≠ Panic;
  st_get_id : ∀ s l id, st_rep s l → (∀ r, last_match (λ r, r_ID r = id) l = Some r → st_readable r) →
    store_GetByID NoFault id s = Ok (last_match (λ r, r_ID r = id) l);
  st_get_tx : ∀ s l tx, st_rep s l → (∀ r, last_match (λ r, r_TransactionID r = tx) l = Some r → st_readable r) →
    store_GetByTxID NoFault tx s = Ok (last_match (λ r, r_TransactionID r = tx) l);
  st_get_id_fault : ∀ f s id x, store_GetByID f id s = Ok x → store_GetByID NoFault id s = Ok x;
  st_get_tx_fault : ∀ f s tx x, store_GetByTxID f tx s = Ok x → store_GetByTxID NoFault tx s = Ok x;
  st_list : ∀ s l, st_rep s l → (∀ r, r ∈ l → st_readable r) → ∃ l', store_List NoFault s = Ok l' ∧ l' ≡ₚ l;
  st_count : ∀ s l, st_rep s l → store_Count NoFault s = Ok (Z.of_nat (length l));
  st_last : ∀ s l, st_rep s l → increasing l → (∀ r, last l = Some r → st_readable r) →
    store_Last NoFault s = Ok (last l);
  st_range : ∀ s l a b, st_rep s l → increasing l → is_u64 a →
    (∀ r, r ∈ l → a ≤ r_SeqNo r ≤ b → st_readable r) →
    store_ListRange NoFault a b s = Ok (filter (λ r, a ≤ r_SeqNo r ≤ b) l);
  st_range_fault : ∀ f s a b rs, store_ListRange f a b s = Ok rs → store_ListRange NoFault a b s = Ok rs;
  st_nodup : ∀ s l, st_rep s l → NoDup (r_ID <$> l) ∧ NoDup (r_SeqNo <$> l)
}.

(** ** Lemmas on the specification *)
Lemma spec_append_Ok l r : (spec_append l r).2 = Ok tt ↔ (r_ID r ∉ r_ID <$> l) ∧ (r_SeqNo r ∉ r_SeqNo <$> l).
Proof. unfold spec_append. repeat case_bool_decide; simpl; split; try done; tauto. Qed.

Lemma spec_append_fresh l r : r_ID r ∉ r_ID <$> l → r_SeqNo r ∉ r_SeqNo <$> l → spec_append l r = (l ++ [r], Ok tt).
Proof. intros. unfold spec_append. by rewrite !bool_decide_false. Qed.

(** ** MemoryStore keeps its promises *)
Record mem_rep (s : MemoryStore) (l : list receipt) : Prop := {
  mr_receipts : ms_receipts s = l;
  mr_byID : ∀ k, ms_byID s !! k = last_match (λ r, r_ID r = k) l;
  mr_byTxID : ∀ k, ms_byTxID s !! k = last_match (λ r, r_TransactionID r = k) l;
  mr_bySeq : ∀ k, ms_bySeq s !! k = last_match (λ r, r_SeqNo r = k) l;
  mr_ids : NoDup (r_ID <$> l);
  mr_seqs : NoDup (r_SeqNo <$> l)
}.

Lemma NewMemoryStore_rep : mem_rep NewMemoryStore [].
Proof. split; try done; constructor. Qed.

Lemma mem_Append_spec s l r : mem_rep s l →
  ∃ s', mem_Append r s = (s', (spec_append l r).2) ∧ mem_rep s' (spec_append l r).1.
Proof.
  intros Hr. destruct Hr as [Hl Hid Htx Hseq Hnd1 Hnd2]. unfold mem_Append, spec_append.
  rewrite Hid, Hseq.
  rewrite (bool_decide_ext _ _ (last_match_Some_key r_ID (r_ID r) l)).
  rewrite (bool_decide_ext _ _ (last_match_Some_key r_SeqNo (r_SeqNo r) l)).
  case_bool_decide as H1; [by eexists|]. case_bool_decide as H2; [by eexists|].
  eexists. split; [done|]. split; simpl.
  - by rewrite Hl.
  - intros k. rewrite last_match_app, <- Hid. apply lookup_insert.
  - intros k. rewrite last_match_app, <- Htx. apply lookup_insert.
  - intros k. rewrite last_match_app, <- Hseq. apply lookup_insert.
  - rewrite fmap_app. by apply NoDup_snoc.
  - rewrite fmap_app. by apply NoDup_snoc.
Qed.

Lemma mem_Append_cases r s : mem_Append r s = (s, (mem_Append r s).2) ∨ (mem_Append r s).2 = Ok tt.
Proof. unfold mem_Append. repeat case_bool_decide; auto. Qed.

Lemma mem_Last_spec s l : ms_receipts s = l → mem_Last s = Ok (last l).
Proof.
  intros <-. unfold mem_Last. case_bool_decide as He; [by rewrite He|].
  replace (length (ms_receipts s) - 1)%nat with (pred (length (ms_receipts s))) by lia.
  rewrite <- last_lookup. destruct (last (ms_receipts s)) eqn:E; [done|]. by apply last_None in E.
Qed.

#[export] Program Instance MemoryStore_laws : StoreLaws MemoryStore := {|
  st_rep := mem_rep;
  st_readable _ := True;
  st_storable _ := True
|}.
Next Obligation. done. Qed.
Next Obligation. intros s l r Hr _. by apply mem_Append_spec. Qed.
Next Obligation.
  simpl. intros _ s l r s' Hr _ Ha. destruct (mem_Append_spec s l r Hr) as (s'' & Ha' & Hrep).
  rewrite Ha in Ha'. injection Ha' as <- Hok. symmetry in Hok. apply spec_append_Ok in Hok as [H1 H2].
  rewrite spec_append_fresh in * by done. done.
Qed.
Next Obligation. simpl. intros _ s l r s' x Hr Ha Hx. destruct (mem_Append_cases r s) as [H|H]; rewrite Ha in H; by simplify_eq/=. Qed.
Next Obligation. simpl. intros _ r s. unfold mem_Append. by repeat case_bool_decide. Qed.
Next Obligation. simpl. intros s l id Hr _. unfold mem_GetByID. by rewrite (mr_byID _ _ Hr). Qed.
Next Obligation. simpl. intros s l id Hr _. unfold mem_GetByTxID. by rewrite (mr_byTxID _ _ Hr). Qed.
Next Obligation. done. Qed.
Next Obligation. done. Qed.
Next Obligation. simpl. intros s l Hr _. exists l. unfold mem_List. by rewrite (mr_receipts _ _ Hr). Qed.
Next Obligation. simpl. intros s l Hr. unfold mem_Count. by rewrite (mr_receipts _ _ Hr). Qed.
Next Obligation. simpl. intros s l Hr _ _. apply mem_Last_spec, (mr_receipts _ _ Hr). Qed.
Next Obligation. simpl. intros s l a b Hr _ _ _. unfold mem_ListRange. by rewrite (mr_receipts _ _ Hr). Qed.
Next Obligation. done. Qed.
Next Obligation. intros s l Hr. split; [apply (mr_ids _ _ Hr)|apply (mr_seqs _ _ Hr)]. Qed.

(** ** BoltStore keeps its promises *)
Section BoltLaws.
Context `{!Bolt, !BoltLaws, !Codec receipt, !CodecLaws receipt}.
Implicit Types (l : list receipt) (r : receipt) (s : BoltStore).

(** The stored bytes of a receipt. *)
Definition mdata (r : receipt) : bytes := match marshal r with Ok d => d | _ => "" end.
Definition seq_key (r : receipt) : bytes := be64 (r_SeqNo r).

Definition bolt_storable (r : receipt) : Prop :=
  codec_ok r ∧ is_u64 (r_SeqNo r) ∧ 0 < len (r_ID r) ≤ MaxKeySize ∧ 0 < len (r_TransactionID r) ≤ MaxKeySize ∧
  len (mdata r) ≤ MaxValueSize.

(** The two buckets that have always existed, and the index added later. *)
Record data_rep (s : BoltStore) (l : list receipt) : Prop := {
  br_receipts : ∀ k, Get k (bs_receipts s) = mdata <$> last_match (λ r, r_ID r = k) l;
  br_byTx : ∀ k, Get k (bs_byTx s) = r_ID <$> last_match (λ r, r_TransactionID r = k) l;
  br_ids : NoDup (r_ID <$> l);
  br_seqs : NoDup (r_SeqNo <$> l);
  br_u64 : ∀ r, r ∈ l → is_u64 (r_SeqNo r)
}.

Definition seq_rep (b : bucket) (l : list receipt) : Prop :=
  ∀ k, Get k b = r_ID <$> last_match (λ r, seq_key r = k) l.

Definition bolt_rep (s : BoltStore) (l : list receipt) : Prop := data_rep s l ∧ seq_rep (bs_seq s) l.

Lemma unmarshal_mdata r : codec_ok r → unmarshal (mdata r) = Ok r.
Proof.
  intros Hr. unfold mdata. pose proof (marshal_ok r Hr) as Hok.
  destruct (marshal r) as [d|e|] eqn:E; [|done|done]. by apply unmarshal_marshal.
Qed.

Lemma empty_rep : bolt_rep (mkBS empty_bucket empty_bucket empty_bucket) [].
Proof.
  split; [split|]; simpl.
  - intros k. apply Get_empty.
  - intros k. apply Get_empty.
  - constructor.
  - constructor.
  - intros r []%not_elem_of_nil.
  - intros k. apply Get_empty.
Qed.

Lemma seq_keys_NoDup l : (∀ r, r ∈ l → is_u64 (r_SeqNo r)) → NoDup (r_SeqNo <$> l) → NoDup (seq_key <$> l).
Proof.
  induction l as [|r l IH]; intros Hv Hnd; simpl in *; [constructor|]. apply NoDup_cons in Hnd as [Hr Hl].
  constructor; [|apply IH; [|done]; intros; apply Hv; by right].
  intros (r' & Heq & Hr')%list_elem_of_fmap. apply Hr.
  apply be64_inj in Heq; [|apply Hv; by left|apply Hv; by right]. rewrite Heq. by apply list_elem_of_fmap_2.
Qed.

Lemma seq_key_elem l r : (∀ x, x ∈ l → is_u64 (r_SeqNo x)) → is_u64 (r_SeqNo r) →
  (seq_key r ∈ seq_key <$> l) ↔ (r_SeqNo r ∈ r_SeqNo <$> l).
Proof.
  intros Hv Hr. rewrite !list_elem_of_fmap. split; intros (r' & Heq & Hr'); exists r'; (split; [|done]).
  - apply be64_inj in Heq; [done|apply Hr|by apply Hv].
  - unfold seq_key. by rewrite Heq.
Qed.

Lemma bolt_checks s l r : bolt_rep s l → is_u64 (r_SeqNo r) →
  bool_decide (is_Some (Get (r_ID r) (bs_receipts s))) = bool_decide (r_ID r ∈ r_ID <$> l) ∧
  bool_decide (is_Some (Get (be64 (r_SeqNo r)) (bs_seq s))) = bool_decide (r_SeqNo r ∈ r_SeqNo <$> l).
Proof.
  intros [[Hid Htx _ _ Hv] Hseq] Hr. split; apply bool_decide_ext.
  - rewrite Hid, fmap_is_Some. apply (last_match_Some_key r_ID).
  - rewrite (Hseq (be64 (r_SeqNo r))), fmap_is_Some, (last_match_Some_key seq_key).
    by apply seq_key_elem.
Qed.

Lemma bolt_rep_snoc s l r b1 b2 b3 : bolt_rep s l → is_u64 (r_SeqNo r) →
  r_ID r ∉ r_ID <$> l → r_SeqNo r ∉ r_SeqNo <$> l →
  Put (r_ID r) (mdata r) (bs_receipts s) = Ok b1 → Put (r_TransactionID r) (r_ID r) (bs_byTx s) = Ok b2 →
  Put (be64 (r_SeqNo r)) (r_ID r) (bs_seq s) = Ok b3 → bolt_rep (mkBS b1 b2 b3) (l ++ [r]).
Proof.
  intros [[Hid Htx Hnd1 Hnd2 Hv] Hseq] Hr Hi Hs H1 H2 H3. split; [split|]; simpl.
  - by eapply Get_snoc.
  - by apply (Get_snoc _ _ _ _ _ _ Htx).
  - rewrite fmap_app. by apply NoDup_snoc.
  - rewrite fmap_app. by apply NoDup_snoc.
  - intros x [Hx| ->%list_elem_of_singleton]%elem_of_app; auto.
  - intros k. by apply (Get_snoc seq_key r_ID _ _ _ r Hseq).
Qed.

(** What a successful [Append] did. *)
Lemma bolt_Append_inv f r s l s' x : bolt_rep s l → bolt_Append f r s = (s', x) →
  (s' = s ∧ x ≠ Ok tt) ∨
  (x = Ok tt ∧ ∃ b1 b2 b3, marshal r = Ok (mdata r) ∧ s' = mkBS b1 b2 b3 ∧
     Get (r_ID r) (bs_receipts s) = None ∧ Get (be64 (r_SeqNo r)) (bs_seq s) = None ∧
     Put (r_ID r) (mdata r) (bs_receipts s) = Ok b1 ∧ Put (r_TransactionID r) (r_ID r) (bs_byTx s) = Ok b2 ∧
     Put (be64 (r_SeqNo r)) (r_ID r) (bs_seq s) = Ok b3).
Proof.
  intros _ Ha. unfold bolt_Append, mdata in *. destruct (marshal r) as [d|e|] eqn:Hm;
    [|left; by simplify_eq..]. unfold Update in Ha.
  destruct f as [|e|e]; [|left; by simplify_eq|].
  all: case_bool_decide as H1; [left; by simplify_eq|]; apply eq_None_not_Some in H1.
  all: case_bool_decide as H2; [left; by simplify_eq|]; apply eq_None_not_Some in H2.
  all: destruct (Put (r_ID r) d (bs_receipts s)) as [b1|e1|] eqn:P1; simpl in Ha; [|left; by simplify_eq..].
  all: destruct (Put (r_TransactionID r) (r_ID r) (bs_byTx s)) as [b2|e2|] eqn:P2; simpl in Ha; [|left; by simplify_eq..].
  all: destruct (Put (be64 (r_SeqNo r)) (r_ID r) (bs_seq s)) as [b3|e3|] eqn:P3; simpl in Ha; [|left; by simplify_eq..].
  - right. simplify_eq. split; [done|]. by exists b1, b2, b3.
  - left. by simplify_eq.
Qed.

Lemma bolt_Append_spec s l r : bolt_rep s l → bolt_storable r →
  ∃ s', bolt_Append NoFault r s = (s', (spec_append l r).2) ∧ bolt_rep s' (spec_append l r).1.
Proof.
  intros Hrep (Hc & Hv & Hid & Htx & Hd). destruct (bolt_checks s l r Hrep Hv) as [C1 C2].
  unfold bolt_Append, spec_append. pose proof (marshal_ok r Hc) as Hok.
  assert (∀ d, marshal r = Ok d → d = mdata r) as Hdata by (intros d Hm; unfold mdata; by rewrite Hm).
  destruct (marshal r) as [d|e|] eqn:Hm; [|done|done]. rewrite (Hdata d eq_refl).
  unfold Update. rewrite C1, C2.
  destruct (bool_decide (r_ID r ∈ r_ID <$> l)) eqn:H1; [by exists s|].
  destruct (bool_decide (r_SeqNo r ∈ r_SeqNo <$> l)) eqn:H2; [by exists s|]. zbool.
  destruct (Put_storable (r_ID r) (mdata r) (bs_receipts s)) as [b1 P1]; [done|done|].
  destruct (Put_storable (r_TransactionID r) (r_ID r) (bs_byTx s)) as [b2 P2];
    [done|unfold MaxKeySize, MaxValueSize in *; lia|].
  destruct (Put_storable (be64 (r_SeqNo r)) (r_ID r) (bs_seq s)) as [b3 P3];
    [rewrite length_be64; unfold MaxKeySize; lia|unfold MaxKeySize, MaxValueSize in *; lia|].
  rewrite P1, P2, P3. simpl. eexists. split; [done|]. by eapply bolt_rep_snoc.
Qed.

(** *** Reads *)
Lemma decode_last_match (P : receipt → Prop) `{∀ x, Decision (P x)} l :
  (∀ r, last_match P l = Some r → codec_ok r) → decode_opt JSONError (mdata <$> last_match P l) = Ok (last_match P l).
Proof.
  intros Hc. destruct (last_match P l) as [r|] eqn:E; [|done]. simpl. by rewrite unmarshal_mdata by (by apply Hc).
Qed.

Lemma bolt_GetByID_spec s l id : bolt_rep s l → (∀ r, last_match (λ r, r_ID r = id) l = Some r → codec_ok r) →
  bolt_GetByID NoFault id s = Ok (last_match (λ r, r_ID r = id) l).
Proof. intros [[Hid _ _ _ Hv] _] Hc. unfold bolt_GetByID, GetByKey, View. rewrite Hid. by apply decode_last_match. Qed.

Lemma bolt_GetByTxID_spec s l tx : bolt_rep s l →
  (∀ r, last_match (λ r, r_TransactionID r = tx) l = Some r → codec_ok r) →
  bolt_GetByTxID NoFault tx s = Ok (last_match (λ r, r_TransactionID r = tx) l).
Proof.
  intros [[Hid Htx Hnd _ _] _] Hc. unfold bolt_GetByTxID, GetViaIndex, View. rewrite Htx.
  destruct (last_match (λ r, r_TransactionID r = tx) l) as [r|] eqn:E; simpl; [|done].
  specialize (Hc r eq_refl). apply last_match_Some in E as [Hr _].
  rewrite Hid, (last_match_unique r_ID) by done. simpl. by rewrite unmarshal_mdata by done.
Qed.

(** The index is the receipts in sequence order. *)
Lemma seq_entries s l : bolt_rep s l → increasing l →
  entries (bs_seq s) = (λ r, (seq_key r, r_ID r)) <$> l.
Proof.
  intros [[_ _ _ _ Hv] Hseq] Hinc. apply (entries_of_list r_SeqNo r_ID); [|done|done].
  intros r Hr. apply Hv, Hr.
Qed.

Lemma bolt_Last_spec s l : bolt_rep s l → increasing l → (∀ r, last l = Some r → codec_ok r) →
  bolt_Last NoFault s = Ok (last l).
Proof.
  intros Hrep Hinc Hc. unfold bolt_Last, View, cursor_last. rewrite (seq_entries s l Hrep Hinc), fmap_last.
  destruct Hrep as [[Hid _ Hnd _ Hv] _].
  destruct (last l) as [r|] eqn:E; simpl; [|done].
  assert (r ∈ l) as Hr by (apply last_Some in E as [l' ->]; apply elem_of_app; right; by left).
  rewrite Hid, (last_match_unique r_ID) by done. simpl. by rewrite unmarshal_mdata by (by apply Hc).
Qed.

Lemma range_loop_spec s l l' b : bolt_rep s l → (∀ r, r ∈ l' → r ∈ l) → increasing l' →
  (∀ r, r ∈ l' → r_SeqNo r ≤ b → codec_ok r) →
  range_loop b ((λ r, (seq_key r, r_ID r)) <$> l') (bs_receipts s) = Ok (filter (λ r, r_SeqNo r ≤ b) l').
Proof.
  intros [[Hid _ Hnd _ Hv] _] Hsub Hinc Hc. induction Hinc as [|r l' Hs IH Hall]; [done|].
  assert (r ∈ l) as Hr by (apply Hsub; by left). pose proof (Hv r Hr) as Hu.
  assert (be_value (String.substring 0 8 (seq_key r)) = r_SeqNo r) as Hbv by (by apply be_value_be64).
  cbn [fmap list_fmap range_loop]. rewrite Hbv. change (len (seq_key r) <? 8) with false. cbv iota.
  rewrite filter_cons. destruct (b <? r_SeqNo r) eqn:E; zbool.
  - rewrite decide_False by lia. f_equal. symmetry. clear -Hall E.
    induction l' as [|r' l' IH]; [done|]. inversion Hall; subst. rewrite filter_cons_False by lia. by apply IH.
  - rewrite decide_True by lia. rewrite Hid, (last_match_unique r_ID) by done. simpl.
    rewrite unmarshal_mdata by (apply Hc; [by left|lia]). simpl.
    rewrite IH; [done|intros; apply Hsub; by right|intros; apply Hc; [by right|done]].
Qed.

Lemma increasing_filter (P : receipt → Prop) `{∀ x, Decision (P x)} l : increasing l → increasing (filter P l).
Proof.
  induction 1 as [|r l Hs IH Hall]; [constructor|]. rewrite filter_cons. case_decide; [|done].
  constructor; [done|]. rewrite Forall_forall in *. intros x [_ Hx]%list_elem_of_filter. by apply Hall.
Qed.

Lemma filter_index a l : is_u64 a → (∀ r, r ∈ l → is_u64 (r_SeqNo r)) →
  filter (λ e : bytes * bytes, blt e.1 (be64 a) = false) ((λ r, (seq_key r, r_ID r)) <$> l) =
  (λ r, (seq_key r, r_ID r)) <$> filter (λ r, a ≤ r_SeqNo r) l.
Proof.
  intros Ha Hv. induction l as [|r l IH]; [done|]. rewrite fmap_cons, !filter_cons.
  rewrite IH by (intros; apply Hv; by right). assert (is_u64 (r_SeqNo r)) as Hu by (apply Hv; by left).
  pose proof (be64_lt (r_SeqNo r) a Hu Ha) as Hlt. unfold seq_key in *.
  destruct (decide (r_SeqNo r < a)) as [Hx|Hx].
  - rewrite (decide_False (P := a ≤ r_SeqNo r)) by lia. rewrite decide_False; [done|].
    apply Hlt in Hx. cbn [fst]. congruence.
  - rewrite (decide_True (P := a ≤ r_SeqNo r)) by lia. rewrite decide_True; [done|]. cbn [fst].
    destruct (blt _ _); [|done]. by destruct Hx; apply Hlt.
Qed.

Lemma bolt_ListRange_spec s l a b : bolt_rep s l → increasing l → is_u64 a →
  (∀ r, r ∈ l → a ≤ r_SeqNo r ≤ b → codec_ok r) →
  bolt_ListRange NoFault a b s = Ok (filter (λ r, a ≤ r_SeqNo r ≤ b) l).
Proof.
  intros Hrep Hinc Ha Hc. unfold bolt_ListRange, View.
  rewrite seek_from_filter by apply entries_sorted.
  rewrite (seq_entries s l Hrep Hinc), filter_index by (done || apply (br_u64 _ _ (proj1 Hrep))).
  rewrite (range_loop_spec s l); [|done| |by apply increasing_filter|].
  - f_equal. rewrite list_filter_filter. apply list_filter_iff. intros; lia.
  - intros r [_ Hr]%list_elem_of_filter. done.
  - intros r [Hr1 Hr]%list_elem_of_filter Hr2. by apply Hc.
Qed.

Lemma decode_all_perm (ds : list bytes) l : (∀ r, r ∈ l → codec_ok r) → ds ≡ₚ mdata <$> l →
  ∃ l', decode_all JSONError ds = Ok l' ∧ l' ≡ₚ l.
Proof.
  intros Hv Hp. apply Permutation_map_inv in Hp as (l' & -> & Hp). exists l'. split; [|done].
  assert (∀ r, r ∈ l' → codec_ok r) as Hv' by (intros r Hr; apply Hv; by rewrite Hp).
  clear -Hv' CodecLaws0. induction l' as [|r l' IH]; [done|]. simpl.
  rewrite unmarshal_mdata by (apply Hv'; by left). simpl. fold (fmap mdata l'). 
  rewrite IH by (intros; apply Hv'; by right). done.
Qed.

(** *** The index rebuild *)
Lemma backfill_loop_spec l seq b : (∀ r, r ∈ l → bolt_storable r) → NoDup (r_SeqNo <$> seq ++ l) →
  (∀ r, r ∈ seq → is_u64 (r_SeqNo r)) → seq_rep b seq →
  ∃ b', backfill_loop ((λ r, (r_ID r, mdata r)) <$> l) b = Ok b' ∧ seq_rep b' (seq ++ l).
Proof.
  revert seq b. induction l as [|r l IH]; intros seq b Hst Hnd Hv Hb.
  { exists b. by rewrite app_nil_r. }
  destruct (Hst r) as (Hc & Hr & Hid & _ & _); [by left|]. cbn [fmap list_fmap backfill_loop].
  rewrite unmarshal_mdata by done.
  replace (seq ++ r :: l) with ((seq ++ [r]) ++ l) in * by (by rewrite <- app_assoc).
  assert (r_SeqNo r ∉ r_SeqNo <$> seq) as Hfresh.
  { rewrite !fmap_app in Hnd. apply NoDup_app in Hnd as (Hnd & _ & _). apply NoDup_app in Hnd as (_ & Hd & _).
    intros Hin. by apply (Hd _ Hin); left. }
  assert (Get (be64 (r_SeqNo r)) b = None) as ->.
  { rewrite (Hb (be64 (r_SeqNo r))), fmap_None, (last_match_None_key seq_key).
    change (be64 (r_SeqNo r)) with (seq_key r). by rewrite seq_key_elem. }
  destruct (Put_storable (be64 (r_SeqNo r)) (r_ID r) b) as [b' Hp];
    [rewrite length_be64; unfold MaxKeySize; lia|unfold MaxKeySize, MaxValueSize in *; lia|].
  rewrite Hp. simpl. apply (IH (seq ++ [r]) b').
  - intros x Hx. apply Hst. by right.
  - done.
  - intros x [Hx| ->%list_elem_of_singleton]%elem_of_app; auto.
  - intros k. by apply (Get_snoc seq_key r_ID _ _ _ r Hb).
Qed.

Lemma seq_rep_perm b l l' : (∀ r, r ∈ l → is_u64 (r_SeqNo r)) → NoDup (r_SeqNo <$> l) → l ≡ₚ l' →
  seq_rep b l → seq_rep b l'.
Proof.
  intros Hv Hnd Hp Hb k. rewrite Hb. f_equal.
  destruct (last_match (λ r, seq_key r = k) l) as [r|] eqn:E.
  - apply last_match_Some in E as [Hr <-]. symmetry. apply (last_match_unique seq_key); [|by rewrite <- Hp].
    rewrite <- Hp. by apply seq_keys_NoDup.
  - symmetry. apply last_match_None. intros x Hx. rewrite last_match_None in E. apply E. by rewrite Hp.
Qed.

(** The receipts bucket holds each receipt once. *)
Lemma entries_mdata s l : data_rep s l → ∃ l', l' ≡ₚ l ∧ entries (bs_receipts s) = (λ r, (r_ID r, mdata r)) <$> l'.
Proof.
  intros [Hid _ Hnd _ Hv].
  assert (entries (bs_receipts s) ≡ₚ (λ r, (r_ID r, mdata r)) <$> l) as Hp.
  { apply NoDup_Permutation.
    - apply (strict_sorted_NoDup (λ x y : bytes * bytes, blt x.1 y.1 = true)); [|apply entries_sorted].
      intros x Hx. by rewrite blt_irrefl in Hx.
    - apply (NoDup_fmap_1 fst). by rewrite <- list_fmap_compose.
    - intros [k v]. rewrite entries_Get, Hid, fmap_Some, list_elem_of_fmap. split.
      + intros (r & [Hr <-]%last_match_Some & ->). by exists r.
      + intros (r & Heq & Hr). simplify_eq. exists r. by rewrite (last_match_unique r_ID). }
  apply Permutation_map_inv in Hp as (l' & Heq & Hl'). by exists l'.
Qed.

#[export] Program Instance BoltStore_laws : StoreLaws BoltStore := {|
  st_rep := bolt_rep;
  st_readable := codec_ok;
  st_storable := bolt_storable
|}.
Next Obligation. by intros r [Hr _]. Qed.
Next Obligation. intros s l r. apply bolt_Append_spec. Qed.
Next Obligation.
  simpl. intros f s l r s' Hr Hv Ha. destruct (bolt_Append_inv f r s l s' (Ok tt) Hr Ha) as [[_ ?]|(_ & b1 & b2 & b3 & Hrest)]; [done|].
  destruct Hrest as (_ & -> & H1 & H2 & P1 & P2 & P3). destruct (bolt_checks s l r Hr Hv) as [C1 C2].
  rewrite H1, bool_decide_false in C1 by apply is_Some_None. rewrite H2, bool_decide_false in C2 by apply is_Some_None.
  symmetry in C1, C2. zbool. split; [by eapply bolt_rep_snoc|by apply spec_append_fresh].
Qed.
Next Obligation.
  simpl. intros f s l r s' x Hr Ha Hx. by destruct (bolt_Append_inv f r s l s' x Hr Ha) as [[? _]|[? _]].
Qed.
Next Obligation.
  simpl. intros f r s. unfold bolt_Append. pose proof (marshal_no_panic r) as Hm.
  destruct (marshal r) as [d|e|]; [|done|done]. unfold Update. destruct f as [|e|e]; [|done|].
  all: repeat case_bool_decide; try done.
  all: repeat match goal with |- context [Put ?k ?v ?b] =>
    pose proof (Put_no_panic k v b); destruct (Put k v b); simpl; try done end.
Qed.
Next Obligation. simpl. intros s l id. apply bolt_GetByID_spec. Qed.
Next Obligation. simpl. intros s l tx. apply bolt_GetByTxID_spec. Qed.
Next Obligation. simpl. unfold bolt_GetByID, GetByKey, View. by intros []. Qed.
Next Obligation. simpl. unfold bolt_GetByTxID, GetViaIndex, View. by intros []. Qed.
Next Obligation.
  simpl. intros s l [Hr _] Hc. destruct (entries_mdata s l Hr) as (l' & Hp & He). unfold bolt_List, ListAll, View.
  rewrite He. apply (decode_all_perm _ l); [done|]. rewrite <- list_fmap_compose. by rewrite Hp.
Qed.
Next Obligation.
  simpl. intros s l [Hr _]. destruct (entries_mdata s l Hr) as (l' & Hp & He).
  unfold bolt_Count, CountKeys, View, KeyN. by rewrite He, length_fmap, Hp.
Qed.
Next Obligation. simpl. intros s l. apply bolt_Last_spec. Qed.
Next Obligation. simpl. intros s l a b. apply bolt_ListRange_spec. Qed.
Next Obligation. simpl. unfold bolt_ListRange, View. by intros []. Qed.
Next Obligation. intros s l [[_ _ H1 H2 _] _]. done. Qed.
End BoltLaws.

(** ** Runs of a store *)
Inductive store_op :=
| OpAppend (r : receipt)
| OpGetByID (id : string)
| OpGetByTxID (tx : string)
| OpCount
| OpLast
| OpListRange (a b : Z).

Inductive reply :=
| RepUnit (x : res store_err unit)
| RepReceipt (x : res store_err (option receipt))
| RepCount (x : res store_err Z)
| RepList (x : res store_err (list receipt)).

Definition store_step {S} `{!Store S} (s : S) (op : store_op) : S * reply :=
  match op with
  | OpAppend r => let '(s', x) := store_Append NoFault r s in (s', RepUnit x)
  | OpGetByID id => (s, RepReceipt (store_GetByID NoFault id s))
  | OpGetByTxID tx => (s, RepReceipt (store_GetByTxID NoFault tx s))
  | OpCount => (s, RepCount (store_Count NoFault s))
  | OpLast => (s, RepReceipt (store_Last NoFault s))
  | OpListRange a b => (s, RepList (store_ListRange NoFault a b s))
  end.

Definition spec_step (l : list receipt) (op : store_op) : list receipt * reply :=
  match op with
  | OpAppend r => let '(l', x) := spec_append l r in (l', RepUnit x)
  | OpGetByID id => (l, RepReceipt (Ok (last_match (λ r, r_ID r = id) l)))
  | OpGetByTxID tx => (l, RepReceipt (Ok (last_match (λ r, r_TransactionID r = tx) l)))
  | OpCount => (l, RepCount (Ok (Z.of_nat (length l))))
  | OpLast => (l, RepReceipt (Ok (last l)))
  | OpListRange a b => (l, RepList (Ok (filter (λ r, a ≤ r_SeqNo r ≤ b) l)))
  end.

Fixpoint run_ops {S} (step : S → store_op → S * reply) (s : S) (ops : list store_op) : S * list reply :=
  match ops with
  | [] => (s, [])
  | op :: ops' => let '(s', x) := step s op in let '(s'', xs) := run_ops step s' ops' in (s'', x :: xs)
  end.

(** The operations the system performs: a receipt is appended with a sequence
    number above all present ones, or collides with a present receipt. *)
Definition op_ok (storable : receipt → Prop) (l : list receipt) (op : store_op) : Prop :=
  match op with
  | OpAppend r => storable r ∧
      (r_ID r ∈ r_ID <$> l ∨ r_SeqNo r ∈ r_SeqNo <$> l ∨ ∀ x, x ∈ l → r_SeqNo x < r_SeqNo r)
  | OpListRange a b => is_u64 a
  | _ => True
  end.

Fixpoint ops_ok (storable : receipt → Prop) (l : list receipt) (ops : list store_op) : Prop :=
  match ops with
  | [] => True
  | op :: ops' => op_ok storable l op ∧ ops_ok storable (spec_step l op).1 ops'
  end.

Lemma increasing_snoc l r : increasing l → (∀ x, x ∈ l → r_SeqNo x < r_SeqNo r) → increasing (l ++ [r]).
Proof.
  intros Hl Hr. apply StronglySorted_app_2; [|done|repeat constructor].
  intros x y Hx ->%list_elem_of_singleton. by apply Hr.
Qed.

Lemma spec_append_increasing l r : increasing l →
  (r_ID r ∈ r_ID <$> l ∨ r_SeqNo r ∈ r_SeqNo <$> l ∨ ∀ x, x ∈ l → r_SeqNo x < r_SeqNo r) →
  increasing (spec_append l r).1.
Proof.
  intros Hl Hr. unfold spec_append. destruct (bool_decide (r_ID r ∈ r_ID <$> l)) eqn:H1; [done|].
  destruct (bool_decide (r_SeqNo r ∈ r_SeqNo <$> l)) eqn:H2; [done|]. zbool.
  apply increasing_snoc; [done|]. intuition.
Qed.

Lemma spec_append_elem l r x : x ∈ (spec_append l r).1 → x ∈ l ∨ x = r.
Proof.
  unfold spec_append. repeat case_bool_decide; simpl; [by left..|].
  intros [?| ->%list_elem_of_singleton]%elem_of_app; auto.
Qed.

(** Any store that satisfies the laws simulates the list. *)
Lemma store_simulates {S} `{!Store S, !StoreLaws S} (ops : list store_op) : ∀ (s : S) (l : list receipt),
  st_rep s l → increasing l → (∀ r, r ∈ l → st_readable r) → ops_ok st_storable l ops →
  ∃ s', run_ops store_step s ops = (s', (run_ops spec_step l ops).2) ∧ st_rep s' (run_ops spec_step l ops).1.
Proof.
  induction ops as [|op ops IH]; intros s l Hr Hinc Hall Hok; simpl; [by exists s|].
  destruct Hok as [Hop Hok].
  assert (∃ s', store_step s op = (s', (spec_step l op).2) ∧ st_rep s' (spec_step l op).1 ∧
            increasing (spec_step l op).1 ∧ ∀ r, r ∈ (spec_step l op).1 → st_readable r)
    as (s' & -> & Hr' & Hinc' & Hall').
  { destruct op as [r|id|tx| | |a b]; simpl in *.
    - destruct Hop as [Hst Hcol]. destruct (st_append s l r Hr Hst) as (s' & -> & Hr').
      pose proof (spec_append_increasing l r Hinc Hcol). pose proof (spec_append_elem l r) as Hel.
      destruct (spec_append l r) as [l' x]. exists s'. split_and!; [done..|]. intros y Hy.
      destruct (Hel y Hy) as [?| ->]; [by apply Hall|by apply st_storable_readable].
    - rewrite (st_get_id s l id Hr) by (intros ? [? _]%last_match_Some; auto). by exists s.
    - rewrite (st_get_tx s l tx Hr) by (intros ? [? _]%last_match_Some; auto). by exists s.
    - rewrite (st_count s l Hr). by exists s.
    - rewrite (st_last s l Hr Hinc); [by exists s|]. intros r Hl. apply Hall. by apply last_Some_elem_of.
    - rewrite (st_range s l a b Hr Hinc Hop) by auto. by exists s. }
  destruct (IH s' _ Hr' Hinc' Hall' Hok) as (s'' & -> & Hr'').
  destruct (spec_step l op) as [l' x]; simpl in *. destruct (run_ops spec_step l' ops) as [l'' xs]; simpl in *. by exists s''.
Qed.

(** Opening a new database file. *)
Lemma NewBoltStore_fresh `{!Bolt, !BoltLaws, !Codec receipt} :
  NewBoltStore (Ok ∅) NoFault NoFault = Ok (mkBS empty_bucket empty_bucket empty_bucket).
Proof.
  assert (entries empty_bucket = []) as He.
  { destruct (entries empty_bucket) as [|[k v] l] eqn:E; [done|].
    assert ((k, v) ∈ entries empty_bucket) as Hin by (rewrite E; by left).
    apply entries_Get in Hin. by rewrite Get_empty in Hin. }
  unfold NewBoltStore, OpenAndInit, Update. simpl.
  unfold create_bucket_if_not_exists. rewrite !lookup_empty.
  rewrite (lookup_insert_ne _ receiptsBucket receiptsByTxBucket), lookup_empty by done.
  rewrite (lookup_insert_ne _ receiptsByTxBucket seqBucket), (lookup_insert_ne _ receiptsBucket seqBucket), lookup_empty by done.
  simpl. rewrite !(lookup_insert_ne _ seqBucket) by done.
  rewrite (lookup_insert_ne _ receiptsByTxBucket), !lookup_insert_eq by done.
  unfold backfillSeqBucket, Update, KeyN. simpl. by rewrite He.
Qed.

(** ** Properties *)

(** C15. The two stores are interchangeable.  A freshly opened [BoltStore] and a
    new [MemoryStore] answer every sequence of appends, lookups by receipt or
    transaction, counts, [Last] and [ListRange] with the same replies, duplicate
    errors included: those of a list of receipts, as long as appended receipts
    survive their encoding, fit the limits of the database and either collide
    with a present receipt or continue the numbering upwards. *)
Theorem stores_refine_list `{!Bolt, !BoltLaws, !Codec receipt, !CodecLaws receipt} (ops : list store_op) :
  ops_ok bolt_storable [] ops →
  ∃ bs, NewBoltStore (Ok ∅) NoFault NoFault = Ok bs ∧
    (run_ops store_step bs ops).2 = (run_ops spec_step [] ops).2 ∧
    (run_ops store_step NewMemoryStore ops).2 = (run_ops spec_step [] ops).2.
Proof.
  intros Hok. eexists. split; [apply NewBoltStore_fresh|]. split.
  - destruct (store_simulates ops (mkBS empty_bucket empty_bucket empty_bucket) []) as (s' & -> & _);
      [apply empty_rep|constructor|by intros r []%not_elem_of_nil|done|done].
  - destruct (store_simulates ops NewMemoryStore []) as (s' & -> & _);
      [apply NewMemoryStore_rep|constructor|done| |done].
    clear -Hok. revert Hok. generalize (@nil receipt) as l. induction ops as [|op ops IH]; intros l; simpl; [done|].
    intros [Hop Hops]. split; [|by apply IH]. destruct op; simpl in *; tauto.
Qed.

(** [Append] to the database is atomic.  Whatever fault the database reports,
    and whether the receipt is refused as a duplicate, by the encoder or by a
    limit of the second or third bucket, a failed [Append] leaves all three
    buckets as they were; a successful one adds the receipt to the receipts, to
    the transaction index and to the sequence index together. *)
Theorem bolt_append_atomic `{!Bolt, !BoltLaws, !Codec receipt, !CodecLaws receipt}
    (f : fault) (r : receipt) (s s' : BoltStore) (l : list receipt) (x : res store_err unit) :
  bolt_rep s l → codec_ok r → is_u64 (r_SeqNo r) → bolt_Append f r s = (s', x) →
  (x ≠ Ok tt ∧ s' = s) ∨
  (x = Ok tt ∧ bolt_rep s' (l ++ [r]) ∧
   bolt_GetByID NoFault (r_ID r) s' = Ok (Some r) ∧
   bolt_GetByTxID NoFault (r_TransactionID r) s' = Ok (Some r)).
Proof.
  intros Hr Hc Hu Ha. destruct (decide (x = Ok tt)) as [->|Hx].
  - right. pose proof (st_append_ok f s l r s') as Happ. simpl in Happ.
    destruct (Happ Hr Hu Ha) as [Hr' _]. split_and!; [done|done| |].
    + rewrite (bolt_GetByID_spec s' (l ++ [r])); [|done|]; rewrite last_match_app, decide_True by done; [done|].
      by intros ? [= <-].
    + rewrite (bolt_GetByTxID_spec s' (l ++ [r])); [|done|]; rewrite last_match_app, decide_True by done; [done|].
      by intros ? [= <-].
  - left. split; [done|]. pose proof (st_append_err f s l r s' x) as Herr. by apply Herr.
Qed.

(** The sequence index is rebuilt.  Opening a database written before the
    index existed (its sequence bucket is empty) rebuilds the index, after which
    the store holds the same receipts with a consistent index, so [Last] and
    [ListRange] answer for them. *)
Theorem backfill_rebuilds_index `{!Bolt, !BoltLaws, !Codec receipt, !CodecLaws receipt}
    (s : BoltStore) (l : list receipt) :
  data_rep s l → entries (bs_seq s) = [] → (∀ r, r ∈ l → bolt_storable r) → increasing l →
  ∃ s', backfillSeqBucket NoFault s = (s', Ok tt) ∧ bolt_rep s' l ∧
    bolt_Last NoFault s' = Ok (last l) ∧
    ∀ a b, is_u64 a → bolt_ListRange NoFault a b s' = Ok (filter (λ r, a ≤ r_SeqNo r ≤ b) l).
Proof.
  intros Hd He Hst Hinc. destruct (entries_mdata s l Hd) as (l' & Hp & Hent).
  assert (seq_rep (bs_seq s) []) as Hempty.
  { intros k. destruct (Get k (bs_seq s)) as [v|] eqn:E; [|done].
    apply entries_Get in E. rewrite He in E. by apply not_elem_of_nil in E. }
  assert (∀ r, r ∈ l' → bolt_storable r) as Hst' by (intros r Hr; apply Hst; by rewrite <- Hp).
  assert (NoDup (r_SeqNo <$> l')) as Hnd by (rewrite Hp; apply (br_seqs _ _ Hd)).
  destruct (backfill_loop_spec l' [] (bs_seq s)) as (b' & Hb & Hseq); [done|done|by intros r []%not_elem_of_nil|done|].
  exists (mkBS (bs_receipts s) (bs_byTx s) b'). assert (bolt_rep (mkBS (bs_receipts s) (bs_byTx s) b') l) as Hrep.
  { split; [destruct Hd; by constructor|]. apply (seq_rep_perm b' l'); [|done|done|done].
    intros r Hr. apply Hst', Hr. }
  split_and!; [|done|apply bolt_Last_spec; [done|done|]; intros r Hr; apply Hst; by apply last_Some_elem_of|].
  - unfold backfillSeqBucket, Update, KeyN. rewrite He, Hent. simpl. by rewrite Hb.
  - intros a b Ha. apply bolt_ListRange_spec; [done|done|done|]. intros r Hr _. by apply Hst.
Qed.

(** ** Witnesses

    Two receipts and a codec that knows them. *)
Module DemoStore.
Import MapBolt.

Definition demo_path : SCIONPath :=
  mkPath "raw" [mkHop "1-ff00:0:110" 1 "ff00:0:110" ""] "fp" EvidenceClassExplicitDemo ProofStatusUnverified.
Definition demo_receipt (id tx : string) (seq : Z) : receipt :=
  mkReceipt id tx "swiss-dlt-act-v1" demo_path EvidenceClassExplicitDemo ProofStatusUnverified [] seq
    (1700000000 * second) "sig" "key" None 0 0 [].
Definition r1 : receipt := demo_receipt "id-b" "tx-1" 1.
Definition r2 : receipt := demo_receipt "id-a" "tx-2" 2.

#[local] Instance demo_codec : Codec receipt := {|
  marshal r := if bool_decide (r = r1) then Ok "one" else if bool_decide (r = r2) then Ok "two" else Err "unknown";
  unmarshal d := if bool_decide (d = "one") then Ok r1 else if bool_decide (d = "two") then Ok r2 else Err "syntax";
  codec_ok r := r = r1 ∨ r = r2
|}.

#[local] Instance demo_codec_laws : CodecLaws receipt.
Proof.
  constructor; simpl.
  - intros x [->| ->]; reflexivity.
  - intros x. by repeat case_bool_decide.
  - intros x d [->| ->] Hd; injection Hd as <-; reflexivity.
  - reflexivity.
Qed.

Lemma demo_storable r : r = r1 ∨ r = r2 → bolt_storable r.
Proof. intros [->| ->]; (split; [simpl; auto|]); vm_compute; repeat split; congruence. Qed.

Definition demo_ops : list store_op :=
  [OpAppend r1; OpAppend r1; OpAppend r2; OpLast; OpGetByTxID "tx-1"; OpListRange 2 9; OpCount].

Lemma stores_refine_list_witness :
  ∃ bs, NewBoltStore (Ok ∅) NoFault NoFault = Ok bs ∧
    (run_ops store_step bs demo_ops).2 = (run_ops spec_step [] demo_ops).2 ∧
    (run_ops store_step NewMemoryStore demo_ops).2 = (run_ops spec_step [] demo_ops).2.
Proof.
  apply (stores_refine_list demo_ops). vm_compute ops_ok. split_and!; try done.
  - by apply demo_storable; left.
  - right. right. intros x Hx. by apply not_elem_of_nil in Hx.
  - by apply demo_storable; left.
  - left. by left.
  - by apply demo_storable; right.
  - right. right. intros x Hx. by apply list_elem_of_singleton in Hx as ->.
Defined.

Lemma bolt_append_atomic_witness :
  let s0 := mkBS empty_bucket empty_bucket empty_bucket in
  let s1 := (bolt_Append NoFault r1 s0).1 in
  (bolt_Append (CommitFails "disk full") r1 s0).2 = Err (BoltError "disk full") ∧
  ((bolt_Append NoFault r1 s0).2 ≠ Ok tt ∧ s1 = s0 ∨
   (bolt_Append NoFault r1 s0).2 = Ok tt ∧ bolt_rep s1 ([] ++ [r1]) ∧
   bolt_GetByID NoFault (r_ID r1) s1 = Ok (Some r1) ∧
   bolt_GetByTxID NoFault (r_TransactionID r1) s1 = Ok (Some r1)).
Proof.
  intros s0 s1. split; [vm_compute; reflexivity|].
  apply (bolt_append_atomic NoFault r1 s0 s1 []).
  - apply empty_rep.
  - apply demo_storable. by left.
  - vm_compute. split; congruence.
  - apply surjective_pairing.
Defined.

(** A database with both receipts and no sequence index. *)
Definition legacy : BoltStore :=
  mkBS (<["id-b" := "one"]> (<["id-a" := "two"]> ∅)) (<["tx-1" := "id-b"]> (<["tx-2" := "id-a"]> ∅)) ∅.

Lemma legacy_rep : data_rep legacy [r1; r2].
Proof.
  assert (∀ (key : receipt → string) (val : receipt → bytes) k, key r1 ≠ key r2 →
    (<[key r1 := val r1]> (<[key r2 := val r2]> (∅ : gmap bytes bytes))) !! k =
    val <$> last_match (λ r, key r = k) [r1; r2]) as Hg.
  { intros key val k Hne. change [r1; r2] with ([r1] ++ [r2]). rewrite last_match_app, !lookup_insert, lookup_empty.
    change [r1] with ([] ++ [r1]). rewrite last_match_app. do 2 case_decide; try done. congruence. }
  assert (mdata r1 = "one") as M1 by (vm_compute; reflexivity).
  assert (mdata r2 = "two") as M2 by (vm_compute; reflexivity).
  split.
  - intros k. specialize (Hg r_ID mdata k). rewrite M1, M2 in Hg. by apply Hg.
  - intros k. apply (Hg r_TransactionID r_ID). done.
  - apply (bool_decide_unpack _). vm_compute. done.
  - apply (bool_decide_unpack _). vm_compute. done.
  - intros r Hr. apply demo_storable. set_solver.
Qed.

Lemma backfill_rebuilds_index_witness :
  ∃ s', backfillSeqBucket NoFault legacy = (s', Ok tt) ∧ bolt_rep s' [r1; r2] ∧
    bolt_Last NoFault s' = Ok (last [r1; r2]) ∧
    ∀ a b, is_u64 a → bolt_ListRange NoFault a b s' = Ok (filter (λ r, a ≤ r_SeqNo r ≤ b) [r1; r2]).
Proof.
  apply (backfill_rebuilds_index legacy [r1; r2]).
  - apply legacy_rep.
  - vm_compute. reflexivity.
  - intros r Hr. apply demo_storable. set_solver.
  - repeat constructor.
Defined.
End DemoStore.
