(* ===== verification/Receipt.v ===== *)
(** * Receipt issuance

    [src/internal/receipt/receipt.go]: the signed payload, the generator with its
    sequence number and hash chain, restoring it from a store, and key files.
    The clock, the identifier of [uuid.New] and the seed of
    [ed25519.GenerateKey] are arguments of the operations that draw them. *)

From S2P Require Import Prelude GoJson Sha256 Model Bolt ReceiptStore.

(** ** The signed payload *)
Definition JBytes (b : bytes) : json := if is_empty b then JNull else JStr (base64 b).

Definition ISDProof_json (p : ISDProof) : json :=
  JObj ([("ia", JStr (proof_IA p)); ("isd", JNum (proof_ISD p)); ("trc_serial", JNum (proof_TRCSerial p))] ++
        omit_if (is_empty (proof_CertChain p)) "cert_chain" (JBytes (proof_CertChain p)) ++
        omit_if (is_empty (proof_VerificationStatus p)) "verification_status" (JStr (proof_VerificationStatus p)) ++
        omit_if (is_empty (proof_ProofSource p)) "proof_source" (JStr (proof_ProofSource p))).

(** The fields every payload starts with, and those it ends with. *)
Definition payload_head (r : receipt) : list (string * json) :=
  [("id", JStr (r_ID r)); ("transaction_id", JStr (r_TransactionID r)); ("policy_id", JStr (r_PolicyID r));
   ("path_fingerprint", JStr (path_Fingerprint (r_Path r)))] ++
  omit_if (is_empty (path_Raw (r_Path r))) "path_raw" (JBytes (path_Raw (r_Path r))).

Definition payload_tail (r : receipt) (ts : string) : list (string * json) :=
  [("seq_no", JNum (r_SeqNo r)); ("timestamp", JStr ts);
   ("isd_proofs", match r_ISDProofs r with [] => JNull | ps => JArr (ISDProof_json <$> ps) end)] ++
  omit_if (is_empty (default "" (r_PreviousHash r))) "previous_hash" (JBytes (default "" (r_PreviousHash r))).

Definition marshalForSigning (r : receipt) : res string bytes :=
  match rfc3339nano (r_Timestamp r) with
  | None => Err "Time.MarshalJSON: year outside of range [0,9999]"
  | Some ts =>
    Ok (render (JObj (payload_head r ++
      [("evidence_class", JStr (NormalizeEvidenceClass (r_EvidenceClass r)));
       ("proof_status", JStr (NormalizeProofStatus (r_ProofStatus r)))] ++ payload_tail r ts)))
  end.

Definition isLegacySigningPayloadCandidate (r : receipt) : bool :=
  bool_decide (r_EvidenceClass r = "") && bool_decide (r_ProofStatus r = "").

Definition marshalLegacyForSigning (r : receipt) : res string bytes :=
  match rfc3339nano (r_Timestamp r) with
  | None => Err "Time.MarshalJSON: year outside of range [0,9999]"
  | Some ts => Ok (render (JObj (payload_head r ++ payload_tail r ts)))
  end.

Definition SigningPayload (r : receipt) : res string bytes := marshalForSigning r.

Definition Verify `{!Ed25519} (r : receipt) : res string bool :=
  payload ← map_err (λ e, "marshaling receipt for verification: " +:+ e) (marshalForSigning r);
  ok ← ed25519_Verify (r_OraclePublicKey r) payload (r_Signature r);
  if (ok : bool) then Ok true
  else if negb (isLegacySigningPayloadCandidate r) then Ok false
  else
    payload ← map_err (λ e, "marshaling legacy receipt for verification: " +:+ e) (marshalLegacyForSigning r);
    ed25519_Verify (r_OraclePublicKey r) payload (r_Signature r).

(** ** The generator *)

(** [ISDProofProvider] and [ThresholdSigner]. *)
Definition ISDProofProvider : Type := ASHop → res string ISDProof.
Definition ThresholdSigner : Type := bytes → res string (list ThresholdSignature * Z * Z).

(** A nil provider or signer is [None]; [g_lastHash] is nil before the first
    receipt of a chain. *)
Record Generator := mkGen {
  g_privateKey : bytes;
  g_publicKey : bytes;
  g_seqNo : Z;
  g_lastHash : option bytes;
  g_proofs : option ISDProofProvider;
  g_threshold : option ThresholdSigner
}.

Definition set_chain (seq : Z) (h : option bytes) (g : Generator) : Generator :=
  mkGen (g_privateKey g) (g_publicKey g) seq h (g_proofs g) (g_threshold g).
Definition set_proofs (p : ISDProofProvider) (g : Generator) : Generator :=
  mkGen (g_privateKey g) (g_publicKey g) (g_seqNo g) (g_lastHash g) (Some p) (g_threshold g).
Definition set_keys (priv pub : bytes) (g : Generator) : Generator :=
  mkGen priv pub (g_seqNo g) (g_lastHash g) (g_proofs g) (g_threshold g).

Inductive gen_err :=
| BuildingProof (ia e : string)
| MarshalingForSigning (e : string)
| ThresholdSigning (e : string)
| AppendError (receiptID : string) (e : store_err)
| LoadingLast (e : store_err).

Definition PlaceholderProofProvider : ISDProofProvider := λ hop,
  Ok (mkISDProof (hop_IA hop) (hop_ISD hop) 0 "" "unverified" "placeholder").

(** [NewGenerator] leaves the proof provider nil. *)
Definition NewGenerator `{!Ed25519} (seed : res string bytes) : res string Generator :=
  s ← map_err (λ e, "generating Ed25519 key: " +:+ e) seed;
  Ok (mkGen (ed_from_seed s) (ed_public (ed_from_seed s)) 0 None None None).

Definition NewGeneratorWithKeys (priv pub : bytes) : Generator :=
  mkGen priv pub 0 None (Some PlaceholderProofProvider) None.

Definition WithProofProvider (p : option ISDProofProvider) (g : Generator) : Generator :=
  set_proofs (default PlaceholderProofProvider p) g.
Definition WithThresholdSigner (s : option ThresholdSigner) (g : Generator) : Generator :=
  mkGen (g_privateKey g) (g_publicKey g) (g_seqNo g) (g_lastHash g) (g_proofs g) s.
Definition PublicKey (g : Generator) : bytes := g_publicKey g.

(** The loop of [aggregateProofStatus]; [status] is empty until the first. *)
Fixpoint aggregate_loop (status : string) (ps : list ISDProof) : string :=
  match ps with
  | [] => status
  | p :: ps' =>
    let current := NormalizeProofStatus (proof_VerificationStatus p) in
    if bool_decide (status = "") then aggregate_loop current ps'
    else if negb (bool_decide (current = status)) then ProofStatusMixed
    else aggregate_loop status ps'
  end.

Definition aggregateProofStatus (ps : list ISDProof) : string :=
  if bool_decide (ps = []) then ProofStatusUnverified else aggregate_loop "" ps.

Fixpoint build_proofs (prov : ISDProofProvider) (hops : list ASHop) : res gen_err (list ISDProof) :=
  match hops with
  | [] => Ok []
  | h :: hops' =>
    p ← map_err (BuildingProof (hop_IA h)) (prov h);
    ps ← build_proofs prov hops';
    Ok (p :: ps)
  end.

Section Issue.
Context `{!Ed25519}.

Definition default_proofs (g : Generator) : Generator :=
  match g_proofs g with Some _ => g | None => set_proofs PlaceholderProofProvider g end.

(** The receipt before it is signed. *)
Definition unsigned (id : string) (now : Z) (txID policyID : string) (path : SCIONPath)
    (proofs : list ISDProof) (g : Generator) : receipt :=
  mkReceipt id txID policyID path (NormalizeEvidenceClass (path_EvidenceClass path)) (aggregateProofStatus proofs)
    proofs (u64 (g_seqNo g + 1)) now "" (g_publicKey g) (g_lastHash g) 0 0 [].

Definition with_signature (sig : bytes) (k n : Z) (ths : list ThresholdSignature) (r : receipt) : receipt :=
  mkReceipt (r_ID r) (r_TransactionID r) (r_PolicyID r) (r_Path r) (r_EvidenceClass r) (r_ProofStatus r)
    (r_ISDProofs r) (r_SeqNo r) (r_Timestamp r) sig (r_OraclePublicKey r) (r_PreviousHash r) k n ths.

(** [buildReceiptLocked]: the generator it returns differs only in a defaulted
    proof provider. *)
Definition buildReceiptLocked (id : string) (now : Z) (txID policyID : string) (path : SCIONPath) (g0 : Generator) :
    Generator * res gen_err (receipt * bytes) :=
  let g := default_proofs g0 in
  (g,
   proofs ← build_proofs (default PlaceholderProofProvider (g_proofs g)) (path_Hops path);
   let r := unsigned id now txID policyID path proofs g in
   payload ← map_err MarshalingForSigning (marshalForSigning r);
   sig ← ed25519_Sign (g_privateKey g) payload;
   '(ths, k, n) ← match g_threshold g with
                  | None => Ok ([], 0, 0)
                  | Some signer => map_err ThresholdSigning (signer payload)
                  end;
   Ok (with_signature sig k n ths r, sha256 sig)).

Definition Issue (id : string) (now : Z) (txID policyID : string) (path : SCIONPath) (g : Generator) :
    Generator * res gen_err receipt :=
  match buildReceiptLocked id now txID policyID path g with
  | (g', Ok (r, lastHash)) => (set_chain (r_SeqNo r) (Some lastHash) g', Ok r)
  | (g', Err e) => (g', Err e)
  | (g', Panic) => (g', Panic)
  end.

Definition IssueAndAppend {S} `{!Store S} (f : fault) (id : string) (now : Z) (txID policyID : string)
    (path : SCIONPath) (g : Generator) (store : S) : Generator * S * res gen_err receipt :=
  match buildReceiptLocked id now txID policyID path g with
  | (g', Ok (r, lastHash)) =>
    match store_Append f r store with
    | (store', Ok _) => (set_chain (r_SeqNo r) (Some lastHash) g', store', Ok r)
    | (store', Err e) => (g', store', Err (AppendError (r_ID r) e))
    | (store', Panic) => (g', store', Panic)
    end
  | (g', Err e) => (g', store, Err e)
  | (g', Panic) => (g', store, Panic)
  end.

Definition SeedChain {S} `{!Store S} (f : fault) (store : S) (g : Generator) : Generator * res gen_err unit :=
  match store_Last f store with
  | Err e => (g, Err (LoadingLast e))
  | Panic => (g, Panic)
  | Ok None => (g, Ok tt)
  | Ok (Some last) =>
    let g1 := set_chain (r_SeqNo last) (g_lastHash g) g in
    if negb (bool_decide (r_OraclePublicKey last = g_publicKey g)) then (g1, Ok tt)
    else (set_chain (r_SeqNo last) (Some (sha256 (r_Signature last))) g, Ok tt)
  end.
End Issue.

(** ** Key files *)
Definition keyMagic : bytes := "JPSK".

Section KeyFile.
Context `{!Ed25519}.

Inductive key_err :=
| KeyFileLength (got : Z)
| BadMagic
| ReadingKey (e : string)
| GeneratingKey (e : string)
| CreatingKeyDir (e : string)
| CreatingTemp (e : string)
| WritingKey (e : string)
| SettingPermissions (e : string)
| ClosingKey (e : string)
| RenamingKey (e : string)
| ArchivingKey (e : string)
| CheckingKey (e : string)
| InstallingKey (e : string)
| InstallingAndRestoring (e restore : string).

(** The files of a directory tree. *)
Abbreviation fs := (gmap string bytes).

(** What the file system answers to the calls of one operation: [None] for a call
    that succeeds.  A failed [Write] may have written a part of the bytes.  Each
    operation calls [os.Remove] at most once. *)
Record fs_faults := mkFaults {
  ff_mkdir : option string;
  ff_create : res string string;
  ff_write : option (nat * string);
  ff_chmod : option string;
  ff_close : option string;
  ff_stat : option string;
  ff_rename1 : option string;
  ff_rename2 : option string;
  ff_rename3 : option string;
  ff_remove : option string
}.

Definition key_bytes (priv : bytes) : bytes := keyMagic +:+ ed_seed priv.

(** [os.Rename] *)
Definition rename (flt : option string) (src dst : string) (files : fs) : fs * option string :=
  match flt, files !! src with
  | Some e, _ => (files, Some e)
  | None, None => (files, Some "no such file or directory")
  | None, Some b => (<[dst := b]> (delete src files), None)
  end.

(** [os.Remove]; every caller ignores its error. *)
Definition remove (flt : option string) (name : string) (files : fs) : fs :=
  match flt with Some _ => files | None => delete name files end.

(** When a step after the creation of the temporary file fails, its removal is
    attempted. *)
Definition writeTempKeyFile (ff : fs_faults) (priv : bytes) (files : fs) : fs * res key_err string :=
  match ff_create ff with
  | Err e => (files, Err (CreatingTemp e))
  | Panic => (files, Panic)
  | Ok tmpPath =>
    let buf := key_bytes priv in
    match ff_write ff with
    | Some (n, e) =>
      (remove (ff_remove ff) tmpPath (<[tmpPath := String.substring 0 n buf]> files), Err (WritingKey e))
    | None =>
      let files1 := <[tmpPath := buf]> files in
      match ff_chmod ff with
      | Some e => (remove (ff_remove ff) tmpPath files1, Err (SettingPermissions e))
      | None =>
        match ff_close ff with
        | Some e => (remove (ff_remove ff) tmpPath files1, Err (ClosingKey e))
        | None => (files1, Ok tmpPath)
        end
      end
    end
  end.

Definition writeKeyFile (ff : fs_faults) (path : string) (priv : bytes) (files : fs) : fs * res key_err unit :=
  match ff_mkdir ff with
  | Some e => (files, Err (CreatingKeyDir e))
  | None =>
    match writeTempKeyFile ff priv files with
    | (files1, Ok tmpPath) =>
      match rename (ff_rename1 ff) tmpPath path files1 with
      | (files2, None) => (files2, Ok tt)
      | (files2, Some e) => (remove (ff_remove ff) tmpPath files2, Err (RenamingKey e))
      end
    | (files1, Err e) => (files1, Err e)
    | (files1, Panic) => (files1, Panic)
    end
  end.

(** [NewGeneratorFromFile]; [readFault] is an error of [ReadFile] other than a
    missing file, [seed] the outcome of [GenerateKey]. *)
Definition NewGeneratorFromFile (readFault : option string) (seed : res string bytes) (ff : fs_faults)
    (path : string) (files : fs) : fs * res key_err Generator :=
  match readFault, files !! path with
  | Some e, _ => (files, Err (ReadingKey e))
  | None, Some data =>
    if negb (len data =? 36) then (files, Err (KeyFileLength (len data)))
    else if negb (bool_decide (String.substring 0 4 data = keyMagic)) then (files, Err BadMagic)
    else
      let priv := ed_from_seed (String.substring 4 32 data) in
      (files, Ok (NewGeneratorWithKeys priv (ed_public priv)))
  | None, None =>
    match seed with
    | Err e => (files, Err (GeneratingKey e))
    | Panic => (files, Panic)
    | Ok s =>
      let priv := ed_from_seed s in
      match writeKeyFile ff path priv files with
      | (files', Ok _) => (files', Ok (NewGeneratorWithKeys priv (ed_public priv)))
      | (files', Err e) => (files', Err e)
      | (files', Panic) => (files', Panic)
      end
    end
  end.

(** [rotationArchivePath]; [stamp] is the formatted clock reading. *)
Definition rotationArchivePath (path stamp : string) : string := path +:+ "." +:+ stamp +:+ ".rotated".

(** [RotateKeyFile]; the deferred [os.Remove] tries to remove the temporary file
    on return, its error is ignored. *)
Definition RotateKeyFile (seed : res string bytes) (stamp : string) (ff : fs_faults) (path : string)
    (g : Generator) (files : fs) : Generator * fs * res key_err string :=
  match seed with
  | Err e => (g, files, Err (GeneratingKey e))
  | Panic => (g, files, Panic)
  | Ok s =>
    let priv := ed_from_seed s in
    match ff_mkdir ff with
    | Some e => (g, files, Err (CreatingKeyDir e))
    | None =>
      match writeTempKeyFile ff priv files with
      | (files1, Err e) => (g, files1, Err e)
      | (files1, Panic) => (g, files1, Panic)
      | (files1, Ok tmpPath) =>
        let cleanup := remove (ff_remove ff) tmpPath in
        let archived :=
          match ff_stat ff, files1 !! path with
          | Some e, _ => (files1, Err (CheckingKey e))
          | None, None => (files1, Ok "")
          | None, Some _ =>
            match rename (ff_rename1 ff) path (rotationArchivePath path stamp) files1 with
            | (f, Some e) => (f, Err (ArchivingKey e))
            | (f, None) => (f, Ok (rotationArchivePath path stamp))
            end
          end in
        match archived with
        | (files2, Err e) => (g, cleanup files2, Err e)
        | (files2, Panic) => (g, cleanup files2, Panic)
        | (files2, Ok archivePath) =>
          match rename (ff_rename2 ff) tmpPath path files2 with
          | (files3, Some e) =>
            if bool_decide (archivePath = "") then (g, cleanup files3, Err (InstallingKey e))
            else match rename (ff_rename3 ff) archivePath path files3 with
                 | (files4, Some e3) => (g, cleanup files4, Err (InstallingAndRestoring e e3))
                 | (files4, None) => (g, cleanup files4, Err (InstallingKey e))
                 end
          | (files3, None) => (set_keys priv (ed_public priv) g, cleanup files3, Ok archivePath)
          end
        end
      end
    end
  end.
End KeyFile.

(** ** Lemmas on issuance *)
Section IssueLemmas.
Context `{!Ed25519, !Ed25519Laws}.

(** The key pair of a generator belongs together. *)
Definition keys_ok (g : Generator) : Prop :=
  len (g_privateKey g) = PrivateKeySize ∧ g_publicKey g = ed_public (g_privateKey g).

(** Signatures are not part of the payload. *)
Lemma payload_with_signature sig k n ths r : marshalForSigning (with_signature sig k n ths r) = marshalForSigning r.
Proof. done. Qed.

Lemma default_proofs_keep g :
  g_privateKey (default_proofs g) = g_privateKey g ∧ g_publicKey (default_proofs g) = g_publicKey g ∧
  g_seqNo (default_proofs g) = g_seqNo g ∧ g_lastHash (default_proofs g) = g_lastHash g ∧
  g_threshold (default_proofs g) = g_threshold g.
Proof. unfold default_proofs. by destruct (g_proofs g). Qed.

(** What is in a built receipt. *)
Record built (now : Z) (id txID policyID : string) (path : SCIONPath) (g : Generator) (r : receipt) (h : bytes) : Prop := {
  b_id : r_ID r = id;
  b_tx : r_TransactionID r = txID;
  b_policy : r_PolicyID r = policyID;
  b_path : r_Path r = path;
  b_class : r_EvidenceClass r = NormalizeEvidenceClass (path_EvidenceClass path);
  b_time : r_Timestamp r = now;
  b_status : r_ProofStatus r = aggregateProofStatus (r_ISDProofs r);
  b_proofs : build_proofs (default PlaceholderProofProvider (g_proofs g)) (path_Hops path) = Ok (r_ISDProofs r);
  b_seq : r_SeqNo r = u64 (g_seqNo g + 1);
  b_prev : r_PreviousHash r = g_lastHash g;
  b_key : r_OraclePublicKey r = g_publicKey g;
  b_hash : h = sha256 (r_Signature r);
  b_sig : ∃ payload, marshalForSigning r = Ok payload ∧ r_Signature r = ed_sign (g_privateKey g) payload ∧
    match g_threshold g with
    | None => r_ThresholdK r = 0 ∧ r_ThresholdN r = 0 ∧ r_ThresholdSignatures r = []
    | Some signer => signer payload = Ok (r_ThresholdSignatures r, r_ThresholdK r, r_ThresholdN r)
    end
}.

Lemma buildReceiptLocked_Ok id now txID policyID path g g' r h :
  buildReceiptLocked id now txID policyID path g = (g', Ok (r, h)) →
  g' = default_proofs g ∧ built now id txID policyID path g r h.
Proof.
  unfold buildReceiptLocked. intros Hb. injection Hb as <- Hb. split; [done|].
  destruct (default_proofs_keep g) as (Hk & Hp & Hs & Hl & Ht).
  apply bind_Ok in Hb as (proofs & Hproofs & Hb). apply bind_Ok in Hb as (payload & Hm & Hb). apply map_err_Ok in Hm.
  apply bind_Ok in Hb as (sig & Hsig & Hb). unfold ed25519_Sign in Hsig. rewrite Hk in Hsig.
  destruct (_ =? _); [|done]. injection Hsig as <-.
  apply bind_Ok in Hb as ([[ths k] n] & Hth & Hb). injection Hb as <- <-.
  rewrite Ht in Hth. split; simpl; try done.
  - rewrite <- Hproofs. unfold default_proofs. by destruct (g_proofs g) eqn:E; rewrite ?E.
  - by rewrite Hs.
  - exists payload. rewrite payload_with_signature. split_and!; [done|done|].
    destruct (g_threshold g); [by apply map_err_Ok in Hth|by simplify_eq].
Qed.

Lemma built_verifies now id txID policyID path g r h :
  keys_ok g → built now id txID policyID path g r h → Verify r = Ok true.
Proof.
  intros [Hlen Hpub] Hb. destruct (b_sig _ _ _ _ _ _ _ _ Hb) as (payload & Hm & Hs & _).
  unfold Verify. rewrite Hm, (b_key _ _ _ _ _ _ _ _ Hb), Hs, Hpub. simpl. unfold ed25519_Verify.
  rewrite ed_public_length, Z.eqb_refl by done. simpl. by rewrite ed_verify_sign.
Qed.

Lemma buildReceiptLocked_gen id now txID policyID path g :
  (buildReceiptLocked id now txID policyID path g).1 = default_proofs g.
Proof. done. Qed.

Lemma built_u64 now id txID policyID path g r h : built now id txID policyID path g r h → is_u64 (r_SeqNo r).
Proof. intros Hb. rewrite (b_seq _ _ _ _ _ _ _ _ Hb). apply u64_range. Qed.

(** The proof provider and the threshold signer of a generator return: a
    [BuildProof] or [Sign] that panics would take the handler with it. *)
Definition providers_ok (g : Generator) : Prop :=
  (∀ p hop, g_proofs g = Some p → p hop ≠ Panic) ∧ (∀ signer b, g_threshold g = Some signer → signer b ≠ Panic).

Lemma build_proofs_no_panic prov hops : (∀ hop, prov hop ≠ Panic) → build_proofs prov hops ≠ Panic.
Proof.
  intros Hp. induction hops as [|h hops IH]; [done|]. simpl. specialize (Hp h). destruct (prov h); simpl; [|done..].
  by destruct (build_proofs prov hops).
Qed.

Lemma buildReceiptLocked_no_panic id now txID policyID path g : keys_ok g → providers_ok g →
  (buildReceiptLocked id now txID policyID path g).2 ≠ Panic.
Proof.
  intros [Hlen _] [Hprov Hsig]. unfold buildReceiptLocked. simpl.
  destruct (default_proofs_keep g) as (Hk & _ & _ & _ & Ht).
  assert (build_proofs (default PlaceholderProofProvider (g_proofs (default_proofs g))) (path_Hops path) ≠ Panic) as Hp.
  { apply build_proofs_no_panic. intros hop. unfold default_proofs. destruct (g_proofs g) as [p|] eqn:E; [|done].
    rewrite E. by apply Hprov. }
  destruct (build_proofs _ _) as [proofs|e|]; simpl; [|done|done].
  unfold marshalForSigning. destruct (rfc3339nano _) as [ts|]; simpl; [|done].
  unfold ed25519_Sign. rewrite Hk, Hlen, Z.eqb_refl. simpl. rewrite Ht.
  destruct (g_threshold g) as [signer|] eqn:E; simpl; [|done].
  match goal with |- context [signer ?b] => specialize (Hsig signer b eq_refl); by destruct (signer b) as [[[]]| |] end.
Qed.

Lemma IssueAndAppend_no_panic {S} `{!Store S, !StoreLaws S} f id now txID policyID path (g : Generator) (s : S) :
  keys_ok g → providers_ok g → (IssueAndAppend f id now txID policyID path g s).2 ≠ Panic.
Proof.
  intros Hk Hp. pose proof (buildReceiptLocked_no_panic id now txID policyID path g Hk Hp) as Hb.
  unfold IssueAndAppend. destruct (buildReceiptLocked _ _ _ _ _ _) as [g' [[r h]|e|]]; [|done|done].
  pose proof (st_append_no_panic f r s). by destruct (store_Append f r s) as [s' [[]|e|]].
Qed.

(** The two outcomes of [IssueAndAppend] against any store that keeps its
    promises. *)
Lemma IssueAndAppend_cases {S} `{!Store S, !StoreLaws S} f id now txID policyID path (g g' : Generator) (s s' : S)
    (l : list receipt) x :
  st_rep s l →
  IssueAndAppend f id now txID policyID path g s = (g', s', x) →
  (g' = default_proofs g ∧ s' = s ∧ is_ok x = false) ∨
  ∃ r h, x = Ok r ∧ built now id txID policyID path g r h ∧ st_rep s' (l ++ [r]) ∧
    spec_append l r = (l ++ [r], Ok tt) ∧ g' = set_chain (r_SeqNo r) (Some h) (default_proofs g).
Proof.
  intros Hrep. unfold IssueAndAppend. pose proof (buildReceiptLocked_gen id now txID policyID path g) as Hg.
  destruct (buildReceiptLocked id now txID policyID path g) as [g1 [[r h]|e|]] eqn:Hb; simpl in Hg; subst g1;
    [|intros; simplify_eq; by left..].
  apply buildReceiptLocked_Ok in Hb as [_ Hbuilt]. pose proof (built_u64 _ _ _ _ _ _ _ _ Hbuilt) as Hv.
  destruct (store_Append f r s) as [s1 [[]|e|]] eqn:Ha; intros; simplify_eq.
  - right. destruct (st_append_ok f s l r s' Hrep Hv Ha) as [Hrep' Hspec]. by exists r, h.
  - left. by rewrite (st_append_err f s l r s' (Err e) Hrep Ha).
  - left. by rewrite (st_append_err f s l r s' Panic Hrep Ha).
Qed.

(** ** Properties of issuance *)

(** Issued receipts verify.  Whatever the transaction, policy and path, a
    receipt returned by [Issue] from a generator with a matching key pair passes
    [Verify]; it carries the path it was issued for, the next sequence number and
    the hash of the previous signature, and the generator remembers the hash of
    its own signature for the next one. *)
Theorem issued_receipt_verifies (id : string) (now : Z) (txID policyID : string) (path : SCIONPath)
    (g g' : Generator) (r : receipt) :
  keys_ok g → Issue id now txID policyID path g = (g', Ok r) →
  Verify r = Ok true ∧ r_Path r = path ∧ r_TransactionID r = txID ∧ r_PolicyID r = policyID ∧
  r_SeqNo r = u64 (g_seqNo g + 1) ∧ r_PreviousHash r = g_lastHash g ∧
  g_seqNo g' = r_SeqNo r ∧ g_lastHash g' = Some (sha256 (r_Signature r)) ∧ keys_ok g'.
Proof.
  intros Hk. unfold Issue. destruct (buildReceiptLocked id now txID policyID path g) as [g1 [[r1 h]|e|]] eqn:Hb;
    intros Hi; simplify_eq.
  apply buildReceiptLocked_Ok in Hb as [-> Hb]. pose proof (built_verifies _ _ _ _ _ _ _ _ Hk Hb).
  destruct Hb. destruct (default_proofs_keep g) as (Hk1 & Hk2 & _). split_and!; try done.
  - simpl. congruence.
  - unfold keys_ok in *. simpl. by rewrite Hk1, Hk2.
Qed.

(** C18. The chain advances only with the store.  [IssueAndAppend] against any
    store that keeps its promises either succeeds, and then the store holds
    exactly one more receipt, the returned one, and the generator's chain state
    is that receipt's; or it fails, by a proof, a signer, the encoder, a
    duplicate or the database, and then the store, the sequence number, the
    previous hash and the keys are all unchanged. *)
Theorem issue_and_append_atomic {S} `{!Store S, !StoreLaws S} (f : fault) (id : string) (now : Z)
    (txID policyID : string) (path : SCIONPath) (g g' : Generator) (s s' : S) (l : list receipt)
    (x : res gen_err receipt) :
  st_rep s l →
  IssueAndAppend f id now txID policyID path g s = (g', s', x) →
  g_privateKey g' = g_privateKey g ∧ g_publicKey g' = g_publicKey g ∧
  ((∃ r, x = Ok r ∧ st_rep s' (l ++ [r]) ∧ r_TransactionID r = txID ∧
      r_SeqNo r = u64 (g_seqNo g + 1) ∧ r_PreviousHash r = g_lastHash g ∧
      g_seqNo g' = r_SeqNo r ∧ g_lastHash g' = Some (sha256 (r_Signature r))) ∨
   (is_ok x = false ∧ s' = s ∧ g_seqNo g' = g_seqNo g ∧ g_lastHash g' = g_lastHash g)).
Proof.
  intros Hrep Hi. destruct (default_proofs_keep g) as (Hk1 & Hk2 & Hk3 & Hk4 & _).
  destruct (IssueAndAppend_cases f id now txID policyID path g g' s s' l x Hrep Hi)
    as [(-> & -> & Hx)|(r & h & -> & Hb & Hrep' & _ & ->)]; (split_and!; [done|done|]).
  - by right.
  - left. exists r. destruct Hb. split_and!; try done. simpl. congruence.
Qed.

(** A receipt is labelled verified only when every proof is.  The proof
    status of a receipt is verified exactly when there is at least one hop proof
    and each of them is verified; without proofs it is unverified, and proofs of
    different status make it mixed. *)
Theorem proof_status_aggregates (ps : list ISDProof) :
  (aggregateProofStatus ps = ProofStatusVerified ↔
     ps ≠ [] ∧ ∀ p, p ∈ ps → NormalizeProofStatus (proof_VerificationStatus p) = ProofStatusVerified) ∧
  (∀ p q, p ∈ ps → q ∈ ps →
     NormalizeProofStatus (proof_VerificationStatus p) ≠ NormalizeProofStatus (proof_VerificationStatus q) →
     aggregateProofStatus ps = ProofStatusMixed).
Proof.
  assert (∀ p, NormalizeProofStatus (proof_VerificationStatus p) ≠ "") as Hne.
  { intros p. unfold NormalizeProofStatus. by case_bool_decide. }
  set (st p := NormalizeProofStatus (proof_VerificationStatus p)).
  assert (∀ qs s, s ≠ "" →
    (Forall (λ q, st q = s) qs ∧ aggregate_loop s qs = s) ∨
    (¬ Forall (λ q, st q = s) qs ∧ aggregate_loop s qs = ProofStatusMixed)) as Hloop.
  { induction qs as [|q qs IH]; intros s Hs; simpl; [by left|]. rewrite (bool_decide_false (s = "")) by done.
    fold (st q). case_bool_decide as Hq; simpl.
    - destruct (IH s Hs) as [[H1 H2]|[H1 H2]]; [left|right]; rewrite Forall_cons; tauto.
    - right. rewrite Forall_cons. tauto. }
  unfold aggregateProofStatus. case_bool_decide as He.
  { subst ps. split; [split; [done|by intros [? _]]|by intros p q []%not_elem_of_nil]. }
  destruct ps as [|p0 ps]; [done|]. simpl. fold (st p0). destruct (Hloop ps (st p0) (Hne p0)) as [[H1 ->]|[H1 ->]].
  - split.
    + split; [|by intros [_ Hall]; apply Hall; left]. intros Heq. split; [done|].
      intros p [->|Hp]%elem_of_cons; [done|]. rewrite Forall_forall in H1. by etrans; [apply (H1 p Hp)|].
    + intros p q Hp Hq Hd. destruct Hd. rewrite Forall_forall in H1.
      assert (∀ x, x ∈ p0 :: ps → st x = st p0) as Hst by (intros x [->|Hx]%elem_of_cons; auto).
      by transitivity (st p0); [|symmetry]; apply Hst.
  - split; [|done]. split; [done|]. intros [_ Hall]. destruct H1. apply Forall_forall. intros q Hq.
    unfold st. rewrite (Hall p0), (Hall q); [done|by right|by left].
Qed.
End IssueLemmas.

(** ** Key files: lemmas *)
Section KeyLemmas.
Context `{!Ed25519, !Ed25519Laws}.

Lemma archive_ne path stamp : rotationArchivePath path stamp ≠ path.
Proof.
  unfold rotationArchivePath. intros Heq. apply (f_equal String.length) in Heq.
  rewrite !Toy.length_app_string in Heq. simpl in Heq. lia.
Qed.

Lemma archive_nonempty path stamp : rotationArchivePath path stamp ≠ "".
Proof. unfold rotationArchivePath. by destruct path. Qed.

Lemma substring_drop s t n : String.length t = n → String.substring (String.length s) n (s +:+ t) = t.
Proof.
  intros <-. induction s as [|a s IH]; [|exact IH].
  change (String.substring 0 (String.length t) t = t).
  induction t as [|a t IH]; [done|]. cbn [String.length String.substring]. by rewrite IH.
Qed.

(** A written key file is read back as the same key. *)
Lemma key_file_roundtrip readSeed ff path (files : gmap string bytes) s :
  len s = SeedSize → files !! path = Some (key_bytes (ed_from_seed s)) →
  NewGeneratorFromFile None readSeed ff path files =
    (files, Ok (NewGeneratorWithKeys (ed_from_seed s) (ed_public (ed_from_seed s)))).
Proof.
  intros Hs Hf. unfold NewGeneratorFromFile. rewrite Hf. unfold key_bytes. rewrite ed_seed_from_seed by done.
  rewrite Toy.length_app_string. unfold SeedSize in Hs.
  replace (Z.of_nat (String.length keyMagic + String.length s) =? 36) with true
    by (symmetry; apply Z.eqb_eq; simpl; lia).
  rewrite (Toy.substring_app_left keyMagic s : String.substring 0 4 (keyMagic +:+ s) = keyMagic).
  rewrite (substring_drop keyMagic s 32 ltac:(lia) : String.substring 4 32 (keyMagic +:+ s) = s). done.
Qed.

(** The names the operation creates are new. *)
Definition fresh_names (ff : fs_faults) (path stamp : string) (files : gmap string bytes) : Prop :=
  files !! rotationArchivePath path stamp = None ∧
  ∀ tmp, ff_create ff = Ok tmp → files !! tmp = None ∧ tmp ≠ path ∧ tmp ≠ rotationArchivePath path stamp.

Ltac map_cases :=
  apply map_eq; intros ?k; rewrite ?lookup_delete, ?lookup_insert, ?lookup_delete, ?lookup_insert;
  repeat (case_decide; subst; rewrite ?lookup_delete, ?lookup_insert; try congruence).

(** [files] up to the temporary file, which is there only when its removal
    failed. *)
Definition up_to_temp (ff : fs_faults) (files files' : gmap string bytes) : Prop :=
  files' = files ∨
  ∃ e tmp content, ff_remove ff = Some e ∧ ff_create ff = Ok tmp ∧ files' = <[tmp := content]> files.

Lemma remove_temp ff tmp content (files : gmap string bytes) : ff_create ff = Ok tmp → files !! tmp = None →
  up_to_temp ff files (remove (ff_remove ff) tmp (<[tmp := content]> files)).
Proof.
  intros Hc Hf. unfold remove. destruct (ff_remove ff) as [e|] eqn:E.
  - right. by exists e, tmp, content.
  - left. by rewrite delete_insert_id.
Qed.

Lemma remove_absent flt name (files : gmap string bytes) : files !! name = None → remove flt name files = files.
Proof. intros Hf. destruct flt; [done|]. by apply delete_id. Qed.

Lemma writeTempKeyFile_cases ff priv (files : gmap string bytes) :
  (∀ tmp, ff_create ff = Ok tmp → files !! tmp = None) →
  (∃ tmp, ff_create ff = Ok tmp ∧ writeTempKeyFile ff priv files = (<[tmp := key_bytes priv]> files, Ok tmp)) ∨
  (∃ files' e, writeTempKeyFile ff priv files = (files', e) ∧ up_to_temp ff files files' ∧ ∀ t, e ≠ Ok t).
Proof.
  intros Hfresh. unfold writeTempKeyFile. destruct (ff_create ff) as [tmp|e|] eqn:Hc.
  - specialize (Hfresh tmp eq_refl).
    destruct (ff_write ff) as [[n e]|]; [right; eexists _, _; split_and!; [done|by apply remove_temp|done]|].
    destruct (ff_chmod ff); [right; eexists _, _; split_and!; [done|by apply remove_temp|done]|].
    destruct (ff_close ff); [right; eexists _, _; split_and!; [done|by apply remove_temp|done]|]. left. eauto.
  - right. eexists _, _. split_and!; [done|by left|done].
  - right. eexists _, _. split_and!; [done|by left|done].
Qed.

(** C35. Rotating the key is all or nothing, when the names of the temporary file
    and of the archive are new.  When [RotateKeyFile] succeeds, the key file
    holds the new key, the previous key file is kept under the archive name, the
    generator signs with the new key, its sequence number and previous hash are
    untouched, and loading the file again gives the same key pair.  When it
    fails, the generator is unchanged and so is every file but the temporary one,
    which remains, with the new private key or a part of it, only when its removal
    failed as well; except that, when putting the archived key back failed too,
    the old key is still in the archive and the key file is gone. *)
Theorem rotation_all_or_nothing (s : bytes) (stamp : string) (ff : fs_faults) (path : string)
    (g g' : Generator) (files files' : gmap string bytes) (x : res key_err string) :
  len s = SeedSize → fresh_names ff path stamp files →
  RotateKeyFile (Ok s) stamp ff path g files = (g', files', x) →
  (∃ archive, x = Ok archive ∧ g_privateKey g' = ed_from_seed s ∧ keys_ok g' ∧
     g_seqNo g' = g_seqNo g ∧ g_lastHash g' = g_lastHash g ∧
     (∀ old, files !! path = Some old → files' !! archive = Some old) ∧
     NewGeneratorFromFile None (Ok s) ff path files' =
       (files', Ok (NewGeneratorWithKeys (g_privateKey g') (g_publicKey g')))) ∨
  (g' = g ∧ is_ok x = false ∧
     (up_to_temp ff files files' ∨
      ∃ e e' old, x = Err (InstallingAndRestoring e e') ∧ files !! path = Some old ∧
        up_to_temp ff (<[rotationArchivePath path stamp := old]> (delete path files)) files')).
Proof.
  intros Hs [Harch Htmp]. pose proof (archive_ne path stamp) as Hne. pose proof (archive_nonempty path stamp) as Hnz.
  set (arch := rotationArchivePath path stamp) in *. set (priv := ed_from_seed s).
  unfold RotateKeyFile. destruct (ff_mkdir ff); [intros; simplify_eq; right; split_and!; [done|done|left; by left]|].
  destruct (writeTempKeyFile_cases ff priv files) as [(tmp & Hc & Hw)|(files1 & e & Hw & Hup & He)];
    [intros tmp Hc; by destruct (Htmp tmp Hc)| |]; fold priv; rewrite Hw.
  2: { destruct e as [t|e|]; [by destruct (He t)| |]; intros; simplify_eq; right; eauto. }
  destruct (Htmp tmp Hc) as (Hft & Htp & Hta). cbv zeta.
  pose proof (remove_temp ff tmp (key_bytes priv) files Hc Hft) as Hclean.
  destruct (ff_stat ff) as [e|]; [intros; simplify_eq; right; eauto|].
  rewrite lookup_insert_ne by done. destruct (files !! path) as [old|] eqn:Hold; unfold rename.
  - destruct (ff_rename1 ff) as [e|]; [intros; simplify_eq; right; eauto|].
    rewrite lookup_insert_ne, Hold by done. fold arch.
    assert (<[arch := old]> (delete path (<[tmp := key_bytes priv]> files)) =
            <[tmp := key_bytes priv]> (<[arch := old]> (delete path files))) as -> by map_cases.
    assert (<[arch := old]> (delete path files) !! tmp = None) as Hft'
      by (by rewrite lookup_insert_ne, lookup_delete_ne by done).
    destruct (ff_rename2 ff) as [e|].
    + rewrite bool_decide_false by done. destruct (ff_rename3 ff) as [e3|].
      * intros; simplify_eq. right. split_and!; [done|done|]. right. exists e, e3, old. split_and!; [done..|].
        by apply remove_temp.
      * rewrite lookup_insert_ne, lookup_insert_eq by done. intros; simplify_eq. right. split_and!; [done|done|]. left.
        assert (<[path := old]> (delete arch (<[tmp := key_bytes priv]> (<[arch := old]> (delete path files)))) =
                <[tmp := key_bytes priv]> files) as -> by map_cases. done.
    + rewrite lookup_insert_eq, delete_insert_id by done. intros; simplify_eq.
      rewrite remove_absent by (by rewrite lookup_insert_ne).
      left. exists arch. split_and!; try done.
      * by split; [apply ed_from_seed_length|].
      * intros old' Heq. simplify_eq. by rewrite lookup_insert_ne, lookup_insert_eq by done.
      * apply key_file_roundtrip; [done|]. by rewrite lookup_insert_eq.
  - destruct (ff_rename2 ff) as [e|]; [rewrite bool_decide_true by done; intros; simplify_eq; right; eauto|].
    rewrite lookup_insert_eq, delete_insert_id by done. intros; simplify_eq.
    rewrite remove_absent by (by rewrite lookup_insert_ne). left. exists "". split_and!; try done.
    + by split; [apply ed_from_seed_length|].
    + apply key_file_roundtrip; [done|]. by rewrite lookup_insert_eq.
Qed.
End KeyLemmas.

(** ** Witnesses *)
Module DemoReceipt.
Import Toy.

Definition t0 : Z := 1700000000 * second.
Definition gen1 : Generator := NewGeneratorWithKeys key1 (ed_public key1).
Definition path1 : SCIONPath := DemoStore.demo_path.

(** The receipt of a run. *)
Definition result_of (x : res gen_err receipt) : receipt := match x with Ok r => r | _ => DemoStore.r1 end.
Definition issued1 : receipt := Eval vm_compute in result_of (Issue "id-1" t0 "tx-1" "swiss-dlt-act-v1" path1 gen1).2.

Lemma issue1_eq : Issue "id-1" t0 "tx-1" "swiss-dlt-act-v1" path1 gen1 =
  ((Issue "id-1" t0 "tx-1" "swiss-dlt-act-v1" path1 gen1).1, Ok issued1).
Proof. vm_compute. reflexivity. Qed.

Lemma gen1_keys : keys_ok gen1.
Proof. split; [vm_compute; reflexivity|reflexivity]. Qed.

Lemma issued_receipt_verifies_witness :
  let g' := (Issue "id-1" t0 "tx-1" "swiss-dlt-act-v1" path1 gen1).1 in
  Verify issued1 = Ok true ∧ r_Path issued1 = path1 ∧ r_TransactionID issued1 = "tx-1" ∧
  r_PolicyID issued1 = "swiss-dlt-act-v1" ∧
  r_SeqNo issued1 = u64 (g_seqNo gen1 + 1) ∧ r_PreviousHash issued1 = g_lastHash gen1 ∧
  g_seqNo g' = r_SeqNo issued1 ∧ g_lastHash g' = Some (sha256 (r_Signature issued1)) ∧ keys_ok g'.
Proof.
  apply (issued_receipt_verifies "id-1" t0 "tx-1" "swiss-dlt-act-v1" path1 gen1); [apply gen1_keys|apply issue1_eq].
Defined.

Lemma issue_and_append_atomic_witness :
  let step := IssueAndAppend NoFault "id-1" t0 "tx-1" "swiss-dlt-act-v1" path1 gen1 NewMemoryStore in
  is_ok step.2 = true ∧
  g_privateKey step.1.1 = g_privateKey gen1 ∧ g_publicKey step.1.1 = g_publicKey gen1 ∧
  ((∃ r, step.2 = Ok r ∧ st_rep step.1.2 ([] ++ [r]) ∧ r_TransactionID r = "tx-1" ∧
      r_SeqNo r = u64 (g_seqNo gen1 + 1) ∧ r_PreviousHash r = g_lastHash gen1 ∧
      g_seqNo step.1.1 = r_SeqNo r ∧ g_lastHash step.1.1 = Some (sha256 (r_Signature r))) ∨
   (is_ok step.2 = false ∧ step.1.2 = NewMemoryStore ∧ g_seqNo step.1.1 = g_seqNo gen1 ∧
      g_lastHash step.1.1 = g_lastHash gen1)).
Proof.
  intros step. split; [vm_compute; reflexivity|].
  apply (issue_and_append_atomic NoFault "id-1" t0 "tx-1" "swiss-dlt-act-v1" path1 gen1 step.1.1
    NewMemoryStore step.1.2 [] step.2).
  - apply NewMemoryStore_rep.
  - unfold step. destruct (IssueAndAppend _ _ _ _ _ _ _ _) as [[g s] x]. reflexivity.
Defined.

Definition seed2 : bytes := "bbbbbbbbbbbbbbbbbbbbbbbbbbbbbbbb".
Definition no_faults : fs_faults := mkFaults None (Ok "/keys/.oracle-key-1") None None None None None None None None.
Definition key_files : gmap string bytes := {["/keys/oracle.key" := key_bytes (ed_from_seed "aaaaaaaaaaaaaaaaaaaaaaaaaaaaaaaa")]}.
Definition stamp : string := "20231114T221320.000000000Z".

Lemma rotation_all_or_nothing_witness :
  let step := RotateKeyFile (Ok seed2) stamp no_faults "/keys/oracle.key" gen1 key_files in
  let g' := step.1.1 in let files' := step.1.2 in
  is_ok step.2 = true ∧
  ((∃ archive, step.2 = Ok archive ∧ g_privateKey g' = ed_from_seed seed2 ∧ keys_ok g' ∧
     g_seqNo g' = g_seqNo gen1 ∧ g_lastHash g' = g_lastHash gen1 ∧
     (∀ old, key_files !! "/keys/oracle.key" = Some old → files' !! archive = Some old) ∧
     NewGeneratorFromFile None (Ok seed2) no_faults "/keys/oracle.key" files' =
       (files', Ok (NewGeneratorWithKeys (g_privateKey g') (g_publicKey g')))) ∨
   (g' = gen1 ∧ is_ok step.2 = false ∧
     (up_to_temp no_faults key_files files' ∨
      ∃ e e' old, step.2 = Err (InstallingAndRestoring e e') ∧ key_files !! "/keys/oracle.key" = Some old ∧
        up_to_temp no_faults (<[rotationArchivePath "/keys/oracle.key" stamp := old]>
          (delete "/keys/oracle.key" key_files)) files'))).
Proof.
  intros step g' files'. split; [vm_compute; reflexivity|].
  apply (rotation_all_or_nothing seed2 stamp no_faults "/keys/oracle.key" gen1 g' key_files files' step.2).
  - reflexivity.
  - split; [reflexivity|]. intros tmp Htmp. injection Htmp as <-. split_and!; done.
  - unfold g', files', step. destruct (RotateKeyFile _ _ _ _ _ _) as [[a b] c]. reflexivity.
Defined.
End DemoReceipt.
