(* ===== verification/Codecs.v ===== *)
(** * JSON encodings of the program's types

    The encodings that the struct tags of [src/pkg/model] and
    [src/internal/dlt/types.go] prescribe, their decoders, and that every
    well-formed value survives the trip.  They discharge the [Codec] interface of
    the stores and of the transport.  An empty slice and a nil one are the same
    value here, encoded as null, which decodes to it.

    [src/internal/scion/mock.go] is the demo form of a raw path: the JSON text of
    its hops. *)

From S2P Require Import Prelude GoJson Json GoDecode Ledger.
From S2P Require Import Model Scion Bolt ReceiptStore Receipt.

Local Open Scope string_scope.
Local Open Scope Z_scope.

(** Field updates of [ASHop]. *)
Definition set_hop_IA v (x : ASHop) : ASHop := let '(mkHop _ b c d) := x in mkHop v b c d.
Definition set_hop_ISD v (x : ASHop) : ASHop := let '(mkHop a _ c d) := x in mkHop a v c d.
Definition set_hop_AS v (x : ASHop) : ASHop := let '(mkHop a b _ d) := x in mkHop a b v d.
Definition set_hop_MAC v (x : ASHop) : ASHop := let '(mkHop a b c _) := x in mkHop a b c v.

(** Field updates of [SCIONPath]. *)
Definition set_path_Raw v (x : SCIONPath) : SCIONPath := let '(mkPath _ b c d e) := x in mkPath v b c d e.
Definition set_path_Hops v (x : SCIONPath) : SCIONPath := let '(mkPath a _ c d e) := x in mkPath a v c d e.
Definition set_path_Fingerprint v (x : SCIONPath) : SCIONPath := let '(mkPath a b _ d e) := x in mkPath a b v d e.
Definition set_path_EvidenceClass v (x : SCIONPath) : SCIONPath := let '(mkPath a b c _ e) := x in mkPath a b c v e.
Definition set_path_ProofStatus v (x : SCIONPath) : SCIONPath := let '(mkPath a b c d _) := x in mkPath a b c d v.

(** Field updates of [ISDProof]. *)
Definition set_proof_IA v (x : ISDProof) : ISDProof := let '(mkISDProof _ b c d e f) := x in mkISDProof v b c d e f.
Definition set_proof_ISD v (x : ISDProof) : ISDProof := let '(mkISDProof a _ c d e f) := x in mkISDProof a v c d e f.
Definition set_proof_TRCSerial v (x : ISDProof) : ISDProof := let '(mkISDProof a b _ d e f) := x in mkISDProof a b v d e f.
Definition set_proof_CertChain v (x : ISDProof) : ISDProof := let '(mkISDProof a b c _ e f) := x in mkISDProof a b c v e f.
Definition set_proof_VerificationStatus v (x : ISDProof) : ISDProof := let '(mkISDProof a b c d _ f) := x in mkISDProof a b c d v f.
Definition set_proof_ProofSource v (x : ISDProof) : ISDProof := let '(mkISDProof a b c d e _) := x in mkISDProof a b c d e v.

(** Field updates of [ThresholdSignature]. *)
Definition set_ts_OracleID v (x : ThresholdSignature) : ThresholdSignature := let '(mkThSig _ b c) := x in mkThSig v b c.
Definition set_ts_Signature v (x : ThresholdSignature) : ThresholdSignature := let '(mkThSig a _ c) := x in mkThSig a v c.
Definition set_ts_PublicKey v (x : ThresholdSignature) : ThresholdSignature := let '(mkThSig a b _) := x in mkThSig a b v.

(** Field updates of [ComplianceReceipt]. *)
Definition set_r_ID v (x : ComplianceReceipt) : ComplianceReceipt := let '(mkReceipt _ b c d e f g h i j k l m n o) := x in mkReceipt v b c d e f g h i j k l m n o.
Definition set_r_TransactionID v (x : ComplianceReceipt) : ComplianceReceipt := let '(mkReceipt a _ c d e f g h i j k l m n o) := x in mkReceipt a v c d e f g h i j k l m n o.
Definition set_r_PolicyID v (x : ComplianceReceipt) : ComplianceReceipt := let '(mkReceipt a b _ d e f g h i j k l m n o) := x in mkReceipt a b v d e f g h i j k l m n o.
Definition set_r_Path v (x : ComplianceReceipt) : ComplianceReceipt := let '(mkReceipt a b c _ e f g h i j k l m n o) := x in mkReceipt a b c v e f g h i j k l m n o.
Definition set_r_EvidenceClass v (x : ComplianceReceipt) : ComplianceReceipt := let '(mkReceipt a b c d _ f g h i j k l m n o) := x in mkReceipt a b c d v f g h i j k l m n o.
Definition set_r_ProofStatus v (x : ComplianceReceipt) : ComplianceReceipt := let '(mkReceipt a b c d e _ g h i j k l m n o) := x in mkReceipt a b c d e v g h i j k l m n o.
Definition set_r_ISDProofs v (x : ComplianceReceipt) : ComplianceReceipt := let '(mkReceipt a b c d e f _ h i j k l m n o) := x in mkReceipt a b c d e f v h i j k l m n o.
Definition set_r_SeqNo v (x : ComplianceReceipt) : ComplianceReceipt := let '(mkReceipt a b c d e f g _ i j k l m n o) := x in mkReceipt a b c d e f g v i j k l m n o.
Definition set_r_Timestamp v (x : ComplianceReceipt) : ComplianceReceipt := let '(mkReceipt a b c d e f g h _ j k l m n o) := x in mkReceipt a b c d e f g h v j k l m n o.
Definition set_r_Signature v (x : ComplianceReceipt) : ComplianceReceipt := let '(mkReceipt a b c d e f g h i _ k l m n o) := x in mkReceipt a b c d e f g h i v k l m n o.
Definition set_r_OraclePublicKey v (x : ComplianceReceipt) : ComplianceReceipt := let '(mkReceipt a b c d e f g h i j _ l m n o) := x in mkReceipt a b c d e f g h i j v l m n o.
Definition set_r_PreviousHash v (x : ComplianceReceipt) : ComplianceReceipt := let '(mkReceipt a b c d e f g h i j k _ m n o) := x in mkReceipt a b c d e f g h i j k v m n o.
Definition set_r_ThresholdK v (x : ComplianceReceipt) : ComplianceReceipt := let '(mkReceipt a b c d e f g h i j k l _ n o) := x in mkReceipt a b c d e f g h i j k l v n o.
Definition set_r_ThresholdN v (x : ComplianceReceipt) : ComplianceReceipt := let '(mkReceipt a b c d e f g h i j k l m _ o) := x in mkReceipt a b c d e f g h i j k l m v o.
Definition set_r_ThresholdSignatures v (x : ComplianceReceipt) : ComplianceReceipt := let '(mkReceipt a b c d e f g h i j k l m n _) := x in mkReceipt a b c d e f g h i j k l m n v.

(** Field updates of [Transaction]. *)
Definition set_tx_ID v (x : Transaction) : Transaction := let '(mkTx _ b c d e f g h i j k l) := x in mkTx v b c d e f g h i j k l.
Definition set_tx_From v (x : Transaction) : Transaction := let '(mkTx a _ c d e f g h i j k l) := x in mkTx a v c d e f g h i j k l.
Definition set_tx_To v (x : Transaction) : Transaction := let '(mkTx a b _ d e f g h i j k l) := x in mkTx a b v d e f g h i j k l.
Definition set_tx_Amount v (x : Transaction) : Transaction := let '(mkTx a b c _ e f g h i j k l) := x in mkTx a b c v e f g h i j k l.
Definition set_tx_Currency v (x : Transaction) : Transaction := let '(mkTx a b c d _ f g h i j k l) := x in mkTx a b c d v f g h i j k l.
Definition set_tx_PolicyID v (x : Transaction) : Transaction := let '(mkTx a b c d e _ g h i j k l) := x in mkTx a b c d e v g h i j k l.
Definition set_tx_PathFingerprint v (x : Transaction) : Transaction := let '(mkTx a b c d e f _ h i j k l) := x in mkTx a b c d e f v h i j k l.
Definition set_tx_RequestDigest v (x : Transaction) : Transaction := let '(mkTx a b c d e f g _ i j k l) := x in mkTx a b c d e f g v i j k l.
Definition set_tx_ReceiptID v (x : Transaction) : Transaction := let '(mkTx a b c d e f g h _ j k l) := x in mkTx a b c d e f g h v j k l.
Definition set_tx_Status v (x : Transaction) : Transaction := let '(mkTx a b c d e f g h i _ k l) := x in mkTx a b c d e f g h i v k l.
Definition set_tx_Timestamp v (x : Transaction) : Transaction := let '(mkTx a b c d e f g h i j _ l) := x in mkTx a b c d e f g h i j v l.
Definition set_tx_Nonce v (x : Transaction) : Transaction := let '(mkTx a b c d e f g h i j k _) := x in mkTx a b c d e f g h i j k v.

(** Field updates of [ConsensusMessage]. *)
Definition set_m_Type v (x : ConsensusMessage) : ConsensusMessage := let '(mkMsg _ b c d e f) := x in mkMsg v b c d e f.
Definition set_m_TxID v (x : ConsensusMessage) : ConsensusMessage := let '(mkMsg a _ c d e f) := x in mkMsg a v c d e f.
Definition set_m_ValidatorID v (x : ConsensusMessage) : ConsensusMessage := let '(mkMsg a b _ d e f) := x in mkMsg a b v d e f.
Definition set_m_Round v (x : ConsensusMessage) : ConsensusMessage := let '(mkMsg a b c _ e f) := x in mkMsg a b c v e f.
Definition set_m_Payload v (x : ConsensusMessage) : ConsensusMessage := let '(mkMsg a b c d _ f) := x in mkMsg a b c d v f.
Definition set_m_Timestamp v (x : ConsensusMessage) : ConsensusMessage := let '(mkMsg a b c d e _) := x in mkMsg a b c d e v.

(** ** Encoders *)
Definition JSlice {T} (enc : T → json) (l : list T) : json := match l with [] => JNull | _ => JArr (enc <$> l) end.

Definition ASHop_json (h : ASHop) : json :=
  JObj ([("ia", JStr (hop_IA h)); ("isd", JNum (hop_ISD h)); ("as", JStr (hop_AS h))] ++
        omit_if (is_empty (hop_MAC h)) "hop_mac" (JBytes (hop_MAC h))).

Definition SCIONPath_json (p : SCIONPath) : json :=
  JObj (omit_if (is_empty (path_Raw p)) "raw" (JBytes (path_Raw p)) ++
        ("hops", JSlice ASHop_json (path_Hops p)) :: ("fingerprint", JStr (path_Fingerprint p)) ::
        omit_if (is_empty (path_EvidenceClass p)) "evidence_class" (JStr (path_EvidenceClass p)) ++
        omit_if (is_empty (path_ProofStatus p)) "proof_status" (JStr (path_ProofStatus p))).

Definition ThresholdSignature_json (s : ThresholdSignature) : json :=
  JObj [("oracle_id", JStr (ts_OracleID s)); ("signature", JBytes (ts_Signature s)); ("public_key", JBytes (ts_PublicKey s))].

(** [ts] is the text of the timestamp. *)
Definition ComplianceReceipt_json (r : receipt) (ts : string) : json :=
  let prev := default "" (r_PreviousHash r) in
  JObj ([("id", JStr (r_ID r)); ("transaction_id", JStr (r_TransactionID r)); ("policy_id", JStr (r_PolicyID r));
         ("path", SCIONPath_json (r_Path r)); ("evidence_class", JStr (r_EvidenceClass r));
         ("proof_status", JStr (r_ProofStatus r)); ("isd_proofs", JSlice ISDProof_json (r_ISDProofs r));
         ("seq_no", JNum (r_SeqNo r)); ("timestamp", JStr ts); ("signature", JBytes (r_Signature r));
         ("oracle_public_key", JBytes (r_OraclePublicKey r))] ++
        omit_if (is_empty prev) "previous_hash" (JBytes prev) ++
        omit_if (r_ThresholdK r =? 0) "threshold_k" (JNum (r_ThresholdK r)) ++
        omit_if (r_ThresholdN r =? 0) "threshold_n" (JNum (r_ThresholdN r)) ++
        omit_if (bool_decide (r_ThresholdSignatures r = [])) "threshold_signatures"
          (JSlice ThresholdSignature_json (r_ThresholdSignatures r))).

Definition Transaction_json (x : Transaction) (ts : string) : json :=
  JObj ([("id", JStr (tx_ID x)); ("from", JStr (tx_From x)); ("to", JStr (tx_To x)); ("amount", JNum (tx_Amount x));
         ("currency", JStr (tx_Currency x))] ++
        omit_if (is_empty (tx_PolicyID x)) "policy_id" (JStr (tx_PolicyID x)) ++
        omit_if (is_empty (tx_PathFingerprint x)) "path_fingerprint" (JStr (tx_PathFingerprint x)) ++
        omit_if (is_empty (tx_RequestDigest x)) "request_digest" (JStr (tx_RequestDigest x)) ++
        omit_if (is_empty (tx_ReceiptID x)) "receipt_id" (JStr (tx_ReceiptID x)) ++
        [("status", JStr (tx_Status x)); ("timestamp", JStr ts); ("nonce", JNum (tx_Nonce x))]).

Definition ConsensusMessage_json (m : ConsensusMessage) (ts : string) : json :=
  JObj ([("type", JStr (m_Type m)); ("tx_id", JStr (m_TxID m)); ("validator_id", JStr (m_ValidatorID m));
         ("round", JNum (m_Round m))] ++
        omit_if (is_empty (m_Payload m)) "payload" (JBytes (m_Payload m)) ++
        [("timestamp", JStr ts)]).

(** [json.Marshal]: a time outside of years 0 to 9999 is its only error. *)
Definition marshal_at (t : Z) (enc : string → json) : res string bytes :=
  match rfc3339nano t with
  | None => Err "Time.MarshalJSON: year outside of range [0,9999]"
  | Some ts => Ok (render (enc ts))
  end.

(** ** Decoders *)
Definition zero_hop : ASHop := mkHop "" 0 "" "".
Definition store_ASHop : store ASHop := store_struct
  [("ia", field hop_IA set_hop_IA store_string); ("isd", field hop_ISD set_hop_ISD (store_uint 16));
   ("as", field hop_AS set_hop_AS store_string); ("hop_mac", field hop_MAC set_hop_MAC store_bytes)].

Definition zero_path : SCIONPath := mkPath "" [] "" "" "".
Definition store_SCIONPath : store SCIONPath := store_struct
  [("raw", field path_Raw set_path_Raw store_bytes);
   ("hops", field path_Hops set_path_Hops (store_slice zero_hop store_ASHop));
   ("fingerprint", field path_Fingerprint set_path_Fingerprint store_string);
   ("evidence_class", field path_EvidenceClass set_path_EvidenceClass store_string);
   ("proof_status", field path_ProofStatus set_path_ProofStatus store_string)].

Definition zero_proof : ISDProof := mkISDProof "" 0 0 "" "" "".
Definition store_ISDProof : store ISDProof := store_struct
  [("ia", field proof_IA set_proof_IA store_string); ("isd", field proof_ISD set_proof_ISD (store_uint 16));
   ("trc_serial", field proof_TRCSerial set_proof_TRCSerial (store_uint 64));
   ("cert_chain", field proof_CertChain set_proof_CertChain store_bytes);
   ("verification_status", field proof_VerificationStatus set_proof_VerificationStatus store_string);
   ("proof_source", field proof_ProofSource set_proof_ProofSource store_string)].

Definition zero_thsig : ThresholdSignature := mkThSig "" "" "".
Definition store_ThresholdSignature : store ThresholdSignature := store_struct
  [("oracle_id", field ts_OracleID set_ts_OracleID store_string);
   ("signature", field ts_Signature set_ts_Signature store_bytes);
   ("public_key", field ts_PublicKey set_ts_PublicKey store_bytes)].

(** A byte slice whose nil is told from a value. *)
Definition store_bytes_opt : store (option bytes) := λ _ v,
  match v with VNull => Ok None | _ => b ← store_bytes "" v; Ok (Some b) end.

Section Times.
Context (lenient : string → option Z).

Definition zero_receipt : receipt := mkReceipt "" "" "" zero_path "" "" [] 0 zero_time "" "" None 0 0 [].
Definition store_ComplianceReceipt : store receipt := store_struct
  [("id", field r_ID set_r_ID store_string); ("transaction_id", field r_TransactionID set_r_TransactionID store_string);
   ("policy_id", field r_PolicyID set_r_PolicyID store_string); ("path", field r_Path set_r_Path store_SCIONPath);
   ("evidence_class", field r_EvidenceClass set_r_EvidenceClass store_string);
   ("proof_status", field r_ProofStatus set_r_ProofStatus store_string);
   ("isd_proofs", field r_ISDProofs set_r_ISDProofs (store_slice zero_proof store_ISDProof));
   ("seq_no", field r_SeqNo set_r_SeqNo (store_uint 64));
   ("timestamp", field r_Timestamp set_r_Timestamp (store_time lenient));
   ("signature", field r_Signature set_r_Signature store_bytes);
   ("oracle_public_key", field r_OraclePublicKey set_r_OraclePublicKey store_bytes);
   ("previous_hash", field r_PreviousHash set_r_PreviousHash store_bytes_opt);
   ("threshold_k", field r_ThresholdK set_r_ThresholdK (store_int 64));
   ("threshold_n", field r_ThresholdN set_r_ThresholdN (store_int 64));
   ("threshold_signatures", field r_ThresholdSignatures set_r_ThresholdSignatures
      (store_slice zero_thsig store_ThresholdSignature))].

Definition zero_tx : Transaction := mkTx "" "" "" 0 "" "" "" "" "" "" zero_time 0.
Definition store_Transaction : store Transaction := store_struct
  [("id", field tx_ID set_tx_ID store_string); ("from", field tx_From set_tx_From store_string);
   ("to", field tx_To set_tx_To store_string); ("amount", field tx_Amount set_tx_Amount (store_int 64));
   ("currency", field tx_Currency set_tx_Currency store_string);
   ("policy_id", field tx_PolicyID set_tx_PolicyID store_string);
   ("path_fingerprint", field tx_PathFingerprint set_tx_PathFingerprint store_string);
   ("request_digest", field tx_RequestDigest set_tx_RequestDigest store_string);
   ("receipt_id", field tx_ReceiptID set_tx_ReceiptID store_string);
   ("status", field tx_Status set_tx_Status store_string);
   ("timestamp", field tx_Timestamp set_tx_Timestamp (store_time lenient));
   ("nonce", field tx_Nonce set_tx_Nonce (store_uint 64))].

Definition zero_msg : ConsensusMessage := mkMsg "" "" "" 0 "" zero_time.
Definition store_ConsensusMessage : store ConsensusMessage := store_struct
  [("type", field m_Type set_m_Type store_string); ("tx_id", field m_TxID set_m_TxID store_string);
   ("validator_id", field m_ValidatorID set_m_ValidatorID store_string);
   ("round", field m_Round set_m_Round (store_uint 64)); ("payload", field m_Payload set_m_Payload store_bytes);
   ("timestamp", field m_Timestamp set_m_Timestamp (store_time lenient))].
End Times.

(** ** Reading back one value *)
Lemma reads_string old s : store_string old (jv (JStr s)) = Ok s.
Proof. done. Qed.

Lemma reads_uint bits old z : 0 ≤ z < 2 ^ bits → store_uint bits old (jv (JNum z)) = Ok z.
Proof. intros Hz. cbn [jv store_uint]. by rewrite ParseUint_pretty. Qed.

Lemma reads_int bits old z : - 2 ^ (bits - 1) ≤ z < 2 ^ (bits - 1) → store_int bits old (jv (JNum z)) = Ok z.
Proof. intros Hz. cbn [jv store_int]. by rewrite ParseInt_pretty. Qed.

Lemma reads_bytes old b : store_bytes old (jv (JBytes b)) = Ok b.
Proof.
  unfold JBytes, is_empty. case_bool_decide as Hb; [by subst|]. cbn [jv store_bytes]. by rewrite base64_roundtrip.
Qed.

Lemma reads_bytes_opt old o : o ≠ Some "" → store_bytes_opt old (jv (JBytes (default "" o))) = Ok o.
Proof.
  intros Ho. destruct o as [b|]; [|done]. change (default "" (Some b)) with b. unfold JBytes, is_empty.
  case_bool_decide as Hb; [by subst|]. cbn [jv store_bytes_opt store_bytes]. by rewrite base64_roundtrip.
Qed.

Lemma reads_time lenient old t ts : rfc3339nano t = Some ts → store_time lenient old (jv (JStr ts)) = Ok t.
Proof. intros Ht. cbn [jv store_time]. by rewrite (rfc3339_roundtrip t ts Ht). Qed.

Lemma reads_slice {T} (zero : T) st enc old l : Forall (λ x, st zero (jv (enc x)) = Ok x) l →
  store_slice zero st old (jv (JSlice enc l)) = Ok l.
Proof.
  intros Hl. unfold JSlice. destruct l as [|x l]; [done|]. cbn [jv store_slice].
  induction Hl as [|y l' Hy _ IH]; [done|]. cbn [fmap list_fmap map store_elems]. rewrite Hy.
  change (list_fmap T json enc l') with (enc <$> l'). by rewrite IH.
Qed.

Create HintDb codec.
#[export] Hint Resolve reads_string reads_uint reads_int reads_bytes reads_bytes_opt reads_time reads_slice : codec.

(** ** Reading back the members of a struct *)
Abbreviation jvm l := (map (λ kj, (kj.1, jv kj.2)) l).

Section Members.
Context {T : Type} (fields : list (string * store T)).

Lemma read_member {F} k get set (st : store F) j y x l r : field_of fields k = Some (field get set st) →
  st (get x) (jv j) = Ok y → store_members fields (set y x) (jvm l) = r →
  store_members fields x (jvm ((k, j) :: l)) = r.
Proof. intros Hk Hr <-. cbn [map store_members fst snd]. rewrite Hk. unfold field. by rewrite Hr. Qed.

(** An omitted member leaves the field at the value it stands for. *)
Lemma read_omitted {F} (empty : bool) k get set (st : store F) j y x l r : field_of fields k = Some (field get set st) →
  st (get x) (jv j) = Ok y → (empty = true → set y x = x) → store_members fields (set y x) (jvm l) = r →
  store_members fields x (jvm (omit_if empty k j ++ l)) = r.
Proof.
  intros Hk Hr He Hl. unfold omit_if. destruct empty; [|by eapply read_member]. by rewrite He in Hl.
Qed.

Lemma read_omitted_last {F} (empty : bool) k get set (st : store F) j y x r : field_of fields k = Some (field get set st) →
  st (get x) (jv j) = Ok y → (empty = true → set y x = x) → Ok (set y x) = r →
  store_members fields x (jvm (omit_if empty k j)) = r.
Proof. intros. rewrite <- (app_nil_r (omit_if _ _ _)). by eapply read_omitted. Qed.
End Members.

(** Walks over the members of a struct with its table. *)
Ltac absent := let H := fresh in intros H; unfold is_empty in H;
  first [apply bool_decide_eq_true_1 in H|apply Z.eqb_eq in H]; simpl in H; subst; first [reflexivity|congruence].
Ltac projections := cbn [
    hop_IA hop_ISD hop_AS hop_MAC path_Raw path_Hops path_Fingerprint path_EvidenceClass path_ProofStatus
    proof_IA proof_ISD proof_TRCSerial proof_CertChain proof_VerificationStatus proof_ProofSource ts_OracleID
    ts_Signature ts_PublicKey r_ID r_TransactionID r_PolicyID r_Path r_EvidenceClass r_ProofStatus r_ISDProofs
    r_SeqNo r_Timestamp r_Signature r_OraclePublicKey r_PreviousHash r_ThresholdK r_ThresholdN
    r_ThresholdSignatures tx_ID tx_From tx_To tx_Amount tx_Currency tx_PolicyID tx_PathFingerprint
    tx_RequestDigest tx_ReceiptID tx_Status tx_Timestamp tx_Nonce m_Type m_TxID m_ValidatorID m_Round
    m_Payload m_Timestamp] in *.
Ltac read_members := projections; cbn [jv store_struct app];
  repeat first
    [ eapply read_omitted_last; [reflexivity|eauto with codec|absent|]
    | eapply read_omitted; [reflexivity|eauto with codec|absent|]
    | eapply read_member; [reflexivity|eauto with codec|] ];
  try reflexivity.

(** ** The values that survive *)
Definition hop_ok (h : ASHop) : Prop :=
  utf8_valid (hop_IA h) = true ∧ utf8_valid (hop_AS h) = true ∧ 0 ≤ hop_ISD h < 2 ^ 16.

Definition path_ok (p : SCIONPath) : Prop :=
  Forall hop_ok (path_Hops p) ∧ utf8_valid (path_Fingerprint p) = true ∧ utf8_valid (path_EvidenceClass p) = true ∧
  utf8_valid (path_ProofStatus p) = true.

Definition proof_ok (p : ISDProof) : Prop :=
  utf8_valid (proof_IA p) = true ∧ 0 ≤ proof_ISD p < 2 ^ 16 ∧ 0 ≤ proof_TRCSerial p < 2 ^ 64 ∧
  utf8_valid (proof_VerificationStatus p) = true ∧ utf8_valid (proof_ProofSource p) = true.

(** [previous_hash] is omitted when empty, so an empty one would come back nil. *)
Definition receipt_codec_ok (r : receipt) : Prop :=
  (utf8_valid (r_ID r) = true ∧ utf8_valid (r_TransactionID r) = true ∧ utf8_valid (r_PolicyID r) = true ∧
   utf8_valid (r_EvidenceClass r) = true ∧ utf8_valid (r_ProofStatus r) = true) ∧
  path_ok (r_Path r) ∧ Forall proof_ok (r_ISDProofs r) ∧
  Forall (λ s, utf8_valid (ts_OracleID s) = true) (r_ThresholdSignatures r) ∧
  0 ≤ r_SeqNo r < 2 ^ 64 ∧ - 2 ^ 63 ≤ r_ThresholdK r < 2 ^ 63 ∧ - 2 ^ 63 ≤ r_ThresholdN r < 2 ^ 63 ∧
  is_Some (rfc3339nano (r_Timestamp r)) ∧ r_PreviousHash r ≠ Some "".

Definition tx_ok (x : Transaction) : Prop :=
  (utf8_valid (tx_ID x) = true ∧ utf8_valid (tx_From x) = true ∧ utf8_valid (tx_To x) = true ∧
   utf8_valid (tx_Currency x) = true ∧ utf8_valid (tx_PolicyID x) = true ∧ utf8_valid (tx_PathFingerprint x) = true ∧
   utf8_valid (tx_RequestDigest x) = true ∧ utf8_valid (tx_ReceiptID x) = true ∧ utf8_valid (tx_Status x) = true) ∧
  - 2 ^ 63 ≤ tx_Amount x < 2 ^ 63 ∧ 0 ≤ tx_Nonce x < 2 ^ 64 ∧ is_Some (rfc3339nano (tx_Timestamp x)).

Definition msg_ok (m : ConsensusMessage) : Prop :=
  (utf8_valid (m_Type m) = true ∧ utf8_valid (m_TxID m) = true ∧ utf8_valid (m_ValidatorID m) = true) ∧
  0 ≤ m_Round m < 2 ^ 64 ∧ is_Some (rfc3339nano (m_Timestamp m)).

Lemma reads_hop h : hop_ok h → store_ASHop zero_hop (jv (ASHop_json h)) = Ok h.
Proof. destruct h. intros (_ & _ & ?). unfold store_ASHop, ASHop_json. read_members. Qed.

Lemma reads_hops old l : Forall hop_ok l → store_slice zero_hop store_ASHop old (jv (JSlice ASHop_json l)) = Ok l.
Proof. intros Hl. apply reads_slice. eapply Forall_impl; [done|apply reads_hop]. Qed.
#[export] Hint Resolve reads_hop reads_hops : codec.

Lemma reads_path p : path_ok p → store_SCIONPath zero_path (jv (SCIONPath_json p)) = Ok p.
Proof. destruct p. intros (? & _). unfold store_SCIONPath, SCIONPath_json. read_members. Qed.

Lemma reads_proof p : proof_ok p → store_ISDProof zero_proof (jv (ISDProof_json p)) = Ok p.
Proof. destruct p. intros (_ & ? & ? & _). unfold store_ISDProof, ISDProof_json. read_members. Qed.

Lemma reads_proofs old l : Forall proof_ok l →
  store_slice zero_proof store_ISDProof old (jv (JSlice ISDProof_json l)) = Ok l.
Proof. intros Hl. apply reads_slice. eapply Forall_impl; [done|apply reads_proof]. Qed.

Lemma reads_thsig s : store_ThresholdSignature zero_thsig (jv (ThresholdSignature_json s)) = Ok s.
Proof. destruct s. unfold store_ThresholdSignature, ThresholdSignature_json. read_members. Qed.

Lemma reads_thsigs old l :
  store_slice zero_thsig store_ThresholdSignature old (jv (JSlice ThresholdSignature_json l)) = Ok l.
Proof. apply reads_slice, Forall_forall. intros s _. apply reads_thsig. Qed.
#[export] Hint Resolve reads_path reads_proofs reads_thsigs : codec.

Lemma reads_receipt lenient r ts : receipt_codec_ok r → rfc3339nano (r_Timestamp r) = Some ts →
  store_ComplianceReceipt lenient zero_receipt (jv (ComplianceReceipt_json r ts)) = Ok r.
Proof.
  destruct r. intros (_ & ? & ? & _ & ? & ? & ? & _ & ?) ?. unfold store_ComplianceReceipt, ComplianceReceipt_json.
  cbv zeta. destruct r_PreviousHash; read_members.
Qed.

Lemma reads_tx lenient x ts : tx_ok x → rfc3339nano (tx_Timestamp x) = Some ts →
  store_Transaction lenient zero_tx (jv (Transaction_json x ts)) = Ok x.
Proof. destruct x. intros (_ & ? & ? & _) ?. unfold store_Transaction, Transaction_json. read_members. Qed.

Lemma reads_msg lenient m ts : msg_ok m → rfc3339nano (m_Timestamp m) = Some ts →
  store_ConsensusMessage lenient zero_msg (jv (ConsensusMessage_json m ts)) = Ok m.
Proof. destruct m. intros (_ & ? & _) ?. unfold store_ConsensusMessage, ConsensusMessage_json. read_members. Qed.

(** ** The encodings are texts the scanner accepts *)
Definition fine (n : Z) (j : json) : Prop := json_ok j = true ∧ jdepth j ≤ n.

Lemma fine_str n s : 0 ≤ n → utf8_valid s = true → fine n (JStr s).
Proof. done. Qed.
Lemma fine_num n z : 0 ≤ n → fine n (JNum z).
Proof. done. Qed.
Lemma fine_bytes n b : 0 ≤ n → fine n (JBytes b).
Proof.
  intros Hn. unfold JBytes. destruct (is_empty b); [done|]. apply fine_str; [done|]. apply utf8_valid_ascii, all_ascii_base64.
Qed.

Lemma foldr_max_le {A} (f : A → Z) n l : 0 ≤ n → Forall (λ x, f x ≤ n) l → foldr (λ x d, Z.max (f x) d) 0 l ≤ n.
Proof. intros Hn. induction 1; simpl; lia. Qed.

Definition member_fine (n : Z) (kj : string * json) : Prop := utf8_valid kj.1 = true ∧ fine n kj.2.

Lemma fine_obj m l : 1 ≤ m → Forall (member_fine (m - 1)) l → fine m (JObj l).
Proof.
  intros Hm Hl. split.
  - cbn [json_ok]. apply forallb_forall. intros kj Hin%list_elem_of_In. rewrite Forall_forall in Hl.
    destruct (Hl kj Hin) as (-> & -> & _). done.
  - cbn [jdepth]. assert (foldr (λ kj d, Z.max (jdepth kj.2) d) 0 l ≤ m - 1); [|lia].
    apply (foldr_max_le (λ kj, jdepth kj.2)); [lia|]. eapply Forall_impl; [done|by intros kj (_ & _ & ?)].
Qed.

Lemma fine_slice {T} (enc : T → json) m l : 1 ≤ m → Forall (λ x, fine (m - 1) (enc x)) l → fine m (JSlice enc l).
Proof.
  intros Hm Hl. unfold JSlice. destruct l as [|x l']; [split; [done|cbn; lia]|].
  generalize dependent (x :: l'). intros l Hl. split.
  - cbn [json_ok]. apply forallb_forall. intros j (y & -> & Hy)%list_elem_of_In%list_elem_of_fmap.
    rewrite Forall_forall in Hl. by destruct (Hl y Hy).
  - cbn [jdepth]. assert (foldr (λ j d, Z.max (jdepth j) d) 0 (enc <$> l) ≤ m - 1); [|lia].
    apply foldr_max_le; [lia|]. apply Forall_fmap. eapply Forall_impl; [done|by intros y []].
Qed.

Lemma fine_omit n b k j : (b = false → member_fine n (k, j)) → Forall (member_fine n) (omit_if b k j).
Proof. intros H. destruct b; [constructor|]. constructor; [by apply H|constructor]. Qed.

#[export] Hint Resolve fine_str fine_num fine_bytes rfc3339nano_valid : codec.

Ltac fine_members :=
  projections; apply fine_obj; [lia|];
  repeat first [apply Forall_nil; exact I|apply Forall_app; split|apply fine_omit; intros _|apply Forall_cons; split];
  try (split; [reflexivity|cbn [snd]; eauto with codec lia]).

Lemma fine_hop m h : 1 ≤ m → hop_ok h → fine m (ASHop_json h).
Proof. destruct h. intros Hm (? & ? & _). unfold ASHop_json. fine_members. Qed.

Lemma fine_hops m l : 2 ≤ m → Forall hop_ok l → fine m (JSlice ASHop_json l).
Proof.
  intros Hm Hl. apply fine_slice; [lia|]. eapply Forall_impl; [done|]. intros h. apply fine_hop. lia.
Qed.
#[export] Hint Resolve fine_hops : codec.

Lemma fine_path m p : 3 ≤ m → path_ok p → fine m (SCIONPath_json p).
Proof. destruct p. intros Hm (? & ? & ? & ?). unfold SCIONPath_json. fine_members. Qed.

Lemma fine_proofs m l : 2 ≤ m → Forall proof_ok l → fine m (JSlice ISDProof_json l).
Proof.
  intros Hm Hl. apply fine_slice; [lia|]. eapply Forall_impl; [done|]. intros [] (? & _ & _ & ? & ?).
  unfold ISDProof_json. fine_members.
Qed.

Lemma fine_thsigs m l : 2 ≤ m → Forall (λ s, utf8_valid (ts_OracleID s) = true) l →
  fine m (JSlice ThresholdSignature_json l).
Proof.
  intros Hm Hl. apply fine_slice; [lia|]. eapply Forall_impl; [done|]. intros [] ?. unfold ThresholdSignature_json.
  fine_members.
Qed.
#[export] Hint Resolve fine_path fine_proofs fine_thsigs : codec.

Lemma fine_receipt r ts : receipt_codec_ok r → rfc3339nano (r_Timestamp r) = Some ts → fine 4 (ComplianceReceipt_json r ts).
Proof.
  destruct r. intros ((? & ? & ? & ? & ?) & ? & ? & ? & _) ?. unfold ComplianceReceipt_json. cbv zeta. fine_members.
Qed.

Lemma fine_tx x ts : tx_ok x → rfc3339nano (tx_Timestamp x) = Some ts → fine 1 (Transaction_json x ts).
Proof.
  destruct x. intros ((? & ? & ? & ? & ? & ? & ? & ? & ?) & _) ?. unfold Transaction_json. fine_members.
Qed.

Lemma fine_msg m ts : msg_ok m → rfc3339nano (m_Timestamp m) = Some ts → fine 1 (ConsensusMessage_json m ts).
Proof. destruct m. intros ((? & ? & ?) & _) ?. unfold ConsensusMessage_json. fine_members. Qed.

(** ** The codecs *)
Lemma Unmarshal_fine {T} (zero : T) st j y n : fine n j → n ≤ maxNestingDepth → st zero (jv j) = Ok y →
  Unmarshal zero st (render j) = Ok y.
Proof. intros [Hj Hd] Hn Hy. unfold Unmarshal. rewrite parse_render; [done|done|lia]. Qed.

Section Instances.
Context (lenient : string → option Z).

Definition receipt_codec : Codec receipt := {|
  marshal r := marshal_at (r_Timestamp r) (ComplianceReceipt_json r);
  unmarshal := Unmarshal zero_receipt (store_ComplianceReceipt lenient);
  codec_ok := receipt_codec_ok
|}.

Definition tx_codec : Codec Transaction := {|
  marshal x := marshal_at (tx_Timestamp x) (Transaction_json x);
  unmarshal := Unmarshal zero_tx (store_Transaction lenient);
  codec_ok := tx_ok
|}.

Definition msg_codec : Codec ConsensusMessage := {|
  marshal m := marshal_at (m_Timestamp m) (ConsensusMessage_json m);
  unmarshal := Unmarshal zero_msg (store_ConsensusMessage lenient);
  codec_ok := msg_ok
|}.
End Instances.

Section Laws.
Context {T : Type} (time : T → Z) (enc : T → string → json) (zero : T) (st : store T) (ok : T → Prop) (n : Z).
Context (Hn : n ≤ maxNestingDepth) (Htime : ∀ x, ok x → is_Some (rfc3339nano (time x))).
Context (Hfine : ∀ x ts, ok x → rfc3339nano (time x) = Some ts → fine n (enc x ts)).
Context (Hread : ∀ x ts, ok x → rfc3339nano (time x) = Some ts → st zero (jv (enc x ts)) = Ok x).

Lemma time_codec_laws :
  @CodecLaws T {| marshal x := marshal_at (time x) (enc x); unmarshal := Unmarshal zero st; codec_ok := ok |}.
Proof.
  constructor; cbn [marshal unmarshal codec_ok]; unfold marshal_at.
  - intros x Hx. by destruct (Htime x Hx) as [ts ->].
  - intros x. by destruct (rfc3339nano (time x)).
  - intros x d Hx. destruct (rfc3339nano (time x)) as [ts|] eqn:Ht; [|done]. intros [= <-]. eapply Unmarshal_fine; eauto.
  - done.
Qed.
End Laws.

(** The interface of the stores and of the transport is met by the encodings. *)
#[export] Instance receipt_codec_laws lenient : @CodecLaws receipt (receipt_codec lenient).
Proof.
  eapply (time_codec_laws r_Timestamp ComplianceReceipt_json _ _ _ 4);
    [done|by intros x (_ & _ & _ & _ & _ & _ & _ & ? & _)|apply fine_receipt|apply reads_receipt].
Qed.

#[export] Instance tx_codec_laws lenient : @CodecLaws Transaction (tx_codec lenient).
Proof.
  eapply (time_codec_laws tx_Timestamp Transaction_json _ _ _ 1); [done|by intros x (_ & _ & _ & ?)|apply fine_tx|apply reads_tx].
Qed.

#[export] Instance msg_codec_laws lenient : @CodecLaws ConsensusMessage (msg_codec lenient).
Proof.
  eapply (time_codec_laws m_Timestamp ConsensusMessage_json _ _ _ 1); [done|by intros x (_ & _ & ?)|apply fine_msg|apply reads_msg].
Qed.

(** ** Raw paths of the demo *)
Definition unmarshalHops : bytes → res string (list ASHop) := Unmarshal [] (store_slice zero_hop store_ASHop).

(** Encoding hops has no error. *)
Definition NewMockPath (hops : list ASHop) : res string bytes := Ok (render (JSlice ASHop_json hops)).

Lemma unmarshalHops_fine hops : Forall hop_ok hops → unmarshalHops (render (JSlice ASHop_json hops)) = Ok hops.
Proof.
  intros Hh. apply (Unmarshal_fine _ _ _ _ 2); [by apply fine_hops|done|by apply reads_hops].
Qed.

(** The raw path that [NewMockPath] makes of hops is read back by the demo's
    extractor: building a path from it gives exactly those hops, with their
    fingerprint and the labels of unverified demo evidence, and an empty list of
    hops is refused. *)
Theorem mock_path_roundtrip (hops : list ASHop) (raw : bytes) :
  Forall hop_ok hops → NewMockPath hops = Ok raw →
  BuildSCIONPath (MockPathExtractor unmarshalHops) raw =
    if bool_decide (hops = []) then Err NoHopsInRawPath
    else Ok (mkPath raw hops (FingerprintHops hops) EvidenceClassExplicitDemo ProofStatusUnverified).
Proof.
  intros Hh [= <-]. unfold BuildSCIONPath. cbn [ExtractHops MockPathExtractor EvidenceMetadata].
  by rewrite unmarshalHops_fine.
Qed.

Definition demo_hops : list ASHop :=
  [mkHop "1-ff00:0:110" 1 "ff00:0:110" ""; mkHop "2-ff00:0:210" 2 "ff00:0:210" (string_of [1; 255; 0])].

Lemma demo_hops_ok : Forall hop_ok demo_hops.
Proof. repeat constructor; by vm_compute. Defined.

Lemma mock_path_roundtrip_witness : ∃ raw, NewMockPath demo_hops = Ok raw ∧
  BuildSCIONPath (MockPathExtractor unmarshalHops) raw =
    Ok (mkPath raw demo_hops (FingerprintHops demo_hops) EvidenceClassExplicitDemo ProofStatusUnverified).
Proof. eexists. split; [reflexivity|]. apply (mock_path_roundtrip demo_hops _ demo_hops_ok eq_refl). Defined.

(** C30. A receipt with valid strings, numbers in the range of their types, a time
    of years 0 to 9999 and no empty non-nil chain link is encoded without an
    error, and its text decodes to it, field by field: what the durable store
    writes is what it reads back. *)
Theorem receipt_json_roundtrip (lenient : string → option Z) (r : receipt) : receipt_codec_ok r →
  ∃ d, marshal_at (r_Timestamp r) (ComplianceReceipt_json r) = Ok d ∧
       Unmarshal zero_receipt (store_ComplianceReceipt lenient) d = Ok r.
Proof.
  intros Hr. assert (is_Some (rfc3339nano (r_Timestamp r))) as [ts Hts] by apply Hr.
  exists (render (ComplianceReceipt_json r ts)). unfold marshal_at. rewrite Hts. split; [done|].
  eapply Unmarshal_fine; [by apply fine_receipt|done|by apply reads_receipt].
Qed.

Definition demo_receipt : receipt :=
  mkReceipt "r-1" "tx-1" "policy-eu" (mkPath "raw" demo_hops "fp" EvidenceClassExplicitDemo "")
    EvidenceClassExplicitDemo ProofStatusUnverified [mkISDProof "1-ff00:0:110" 1 (2 ^ 64 - 1) "chain" "" "demo"]
    7 1700000000123400000 "sig" "key" (Some "prev") 2 3 [mkThSig "oracle-1" "s" "k"].

Lemma demo_receipt_ok : receipt_codec_ok demo_receipt.
Proof.
  unfold receipt_codec_ok, path_ok. cbn [demo_receipt r_Path path_Hops r_ISDProofs r_ThresholdSignatures].
  split_and!; try apply demo_hops_ok; try (repeat constructor; by vm_compute); by vm_compute; eauto.
Defined.

Lemma receipt_json_roundtrip_witness :
  ∃ d, marshal_at (r_Timestamp demo_receipt) (ComplianceReceipt_json demo_receipt) = Ok d ∧
       Unmarshal zero_receipt (store_ComplianceReceipt (λ _, None)) d = Ok demo_receipt.
Proof. exact (receipt_json_roundtrip _ demo_receipt demo_receipt_ok). Defined.
