(* ===== verification/Config.v ===== *)
(** * Configuration

    [src/config/config.go]: the settings read from the environment, their
    validation, and the validators file.  The environment is a function that
    gives the empty string for an unset variable, [stat] is the error of
    [os.Stat] at a path, and the YAML decoder is a parameter. *)

From S2P Require Import Prelude GoJson Json GoDecode.

Local Open Scope string_scope.
Local Open Scope Z_scope.

Abbreviation environ := (string → string).

Record Config := mkConfig {
  ListenAddr : string;
  PolicyDir : string;
  DashboardDir : string;
  DataDir : string;
  LogLevel : string;
  OracleKeyPath : string;
  TRCDir : string;
  TLSCert : string;
  TLSKey : string;
  AllowInsecure : bool;
  APIToken : string;
  AdminToken : string;
  AllowUnauthAPI : bool;
  ValidatorsFile : string;
  SCIONMode : bool;
  SCIONDaemon : string;
  ValidatorID : string;
  ThresholdK : Z;
  ThresholdN : Z
}.

Definition envOr (env : environ) (key fallback : string) : string :=
  if negb (is_empty (env key)) then env key else fallback.

(** [strconv.Atoi] on a 64-bit machine. *)
Definition Atoi (s : string) : option Z := ParseInt 64 s.

Definition envIntOrInvalid (env : environ) (key : string) : Z :=
  if is_empty (env key) then 0 else match Atoi (env key) with None => -1 | Some n => n end.

Definition Load (env : environ) : Config := {|
  ListenAddr := envOr env "JURISPATH_LISTEN" ":8080";
  PolicyDir := envOr env "JURISPATH_POLICY_DIR" "policies";
  DashboardDir := envOr env "JURISPATH_DASHBOARD_DIR" "dashboard";
  DataDir := envOr env "JURISPATH_DATA_DIR" "data/";
  LogLevel := envOr env "JURISPATH_LOG_LEVEL" "info";
  OracleKeyPath := envOr env "JURISPATH_ORACLE_KEY" "data/oracle.key";
  TRCDir := env "JURISPATH_TRC_DIR";
  TLSCert := env "JURISPATH_TLS_CERT";
  TLSKey := env "JURISPATH_TLS_KEY";
  AllowInsecure := bool_decide (env "JURISPATH_INSECURE" = "true");
  APIToken := env "JURISPATH_API_TOKEN";
  AdminToken := env "JURISPATH_ADMIN_TOKEN";
  AllowUnauthAPI := bool_decide (env "JURISPATH_UNAUTHENTICATED_API" = "true");
  ValidatorsFile := envOr env "JURISPATH_VALIDATORS" "validators.yaml";
  SCIONMode := bool_decide (env "JURISPATH_SCION_MODE" = "true");
  SCIONDaemon := envOr env "JURISPATH_SCION_DAEMON" "127.0.0.1:30255";
  ValidatorID := env "JURISPATH_VALIDATOR_ID";
  ThresholdK := envIntOrInvalid env "JURISPATH_THRESHOLD_K";
  ThresholdN := envIntOrInvalid env "JURISPATH_THRESHOLD_N"
|}.

Definition TLSEnabled (c : Config) : bool := negb (is_empty (TLSCert c)) && negb (is_empty (TLSKey c)).

Inductive config_err :=
| PolicyDirectory (dir e : string)
| TLSPairIncomplete
| TLSCertificate (path e : string)
| TLSKeyFile (path e : string)
| TLSNotConfigured
| AuthNotConfigured
| ThresholdKNegative
| ThresholdNNegative
| ThresholdPairIncomplete
| ThresholdKExceedsN (k n : Z)
| ReadingValidators (path e : string)
| ParsingValidators (path e : string)
| NoValidators (path : string)
| ValidatorNoID (i : Z) (path : string)
| ValidatorNoAddress (id path : string)
| DuplicateValidator (id path : string).

Definition Validate (stat : string → option string) (c : Config) : res config_err unit :=
  _ ← match stat (PolicyDir c) with Some e => Err (PolicyDirectory (PolicyDir c) e) | None => Ok tt end;
  _ ← if xorb (negb (is_empty (TLSCert c))) (negb (is_empty (TLSKey c))) then Err TLSPairIncomplete else Ok tt;
  _ ← if TLSEnabled c then
        _ ← match stat (TLSCert c) with Some e => Err (TLSCertificate (TLSCert c) e) | None => Ok tt end;
        match stat (TLSKey c) with Some e => Err (TLSKeyFile (TLSKey c) e) | None => Ok tt end
      else Ok tt;
  if negb (TLSEnabled c) && negb (AllowInsecure c) then Err TLSNotConfigured
  else if is_empty (APIToken c) && negb (AllowUnauthAPI c) then Err AuthNotConfigured
  else if ThresholdK c <? 0 then Err ThresholdKNegative
  else if ThresholdN c <? 0 then Err ThresholdNNegative
  else if xorb (ThresholdK c =? 0) (ThresholdN c =? 0) then Err ThresholdPairIncomplete
  else if ThresholdN c <? ThresholdK c then Err (ThresholdKExceedsN (ThresholdK c) (ThresholdN c))
  else Ok tt.

(** ** The validators file *)
Record ValidatorConfig := mkValidatorConfig {
  vcfg_ID : string;
  vcfg_Address : string;
  vcfg_Balance : gmap string Z
}.

(** The loop of [LoadValidators]. *)
Fixpoint check_validators (path : string) (i : Z) (seen : gset string) (l : list ValidatorConfig) : res config_err unit :=
  match l with
  | [] => Ok tt
  | v :: l' =>
    if is_empty (vcfg_ID v) then Err (ValidatorNoID i path)
    else if is_empty (vcfg_Address v) then Err (ValidatorNoAddress (vcfg_ID v) path)
    else if bool_decide (vcfg_ID v ∈ seen) then Err (DuplicateValidator (vcfg_ID v) path)
    else check_validators path (i + 1) ({[vcfg_ID v]} ∪ seen) l'
  end.

Definition LoadValidators (ReadFile : string → res string bytes) (yaml : bytes → res string (list ValidatorConfig))
    (path : string) : res config_err (list ValidatorConfig) :=
  data ← map_err (ReadingValidators path) (ReadFile path);
  validators ← map_err (ParsingValidators path) (yaml data);
  if bool_decide (validators = []) then Err (NoValidators path)
  else _ ← check_validators path 0 ∅ validators; Ok validators.

(** ** What is accepted *)
Definition transport_safe (stat : string → option string) (c : Config) : Prop :=
  (TLSCert c ≠ "" ∧ TLSKey c ≠ "" ∧ stat (TLSCert c) = None ∧ stat (TLSKey c) = None) ∨
  (TLSCert c = "" ∧ TLSKey c = "" ∧ AllowInsecure c = true).

Definition threshold_safe (c : Config) : Prop :=
  (ThresholdK c = 0 ∧ ThresholdN c = 0) ∨ 1 ≤ ThresholdK c ≤ ThresholdN c.

Lemma is_empty_reflect s : reflect (s = "") (is_empty s).
Proof. unfold is_empty. case_bool_decide; by constructor. Qed.

(** The checks on the certificate pair, as one decision. *)
Lemma tls_checks stat c (r : res config_err unit) :
  (_ ← (if xorb (negb (is_empty (TLSCert c))) (negb (is_empty (TLSKey c))) then Err TLSPairIncomplete else Ok tt);
   _ ← (if TLSEnabled c then
          _ ← match stat (TLSCert c) with Some e => Err (TLSCertificate (TLSCert c) e) | None => Ok tt end;
          match stat (TLSKey c) with Some e => Err (TLSKeyFile (TLSKey c) e) | None => Ok tt end
        else Ok tt);
   if negb (TLSEnabled c) && negb (AllowInsecure c) then Err TLSNotConfigured else r) = Ok tt ↔
  transport_safe stat c ∧ r = Ok tt.
Proof.
  unfold TLSEnabled, transport_safe.
  destruct (is_empty_reflect (TLSCert c)), (is_empty_reflect (TLSKey c)), (AllowInsecure c), (stat (TLSCert c)),
    (stat (TLSKey c)); simpl; intuition congruence.
Qed.

Lemma threshold_checks c :
  (if ThresholdK c <? 0 then Err ThresholdKNegative
   else if ThresholdN c <? 0 then Err ThresholdNNegative
   else if xorb (ThresholdK c =? 0) (ThresholdN c =? 0) then Err ThresholdPairIncomplete
   else if ThresholdN c <? ThresholdK c then Err (ThresholdKExceedsN (ThresholdK c) (ThresholdN c))
   else Ok tt) = Ok tt ↔ threshold_safe c.
Proof.
  unfold threshold_safe. destruct (ThresholdK c <? 0) eqn:?, (ThresholdN c <? 0) eqn:?; zbool; try (split; [done|lia]).
  destruct (ThresholdK c =? 0) eqn:?, (ThresholdN c =? 0) eqn:?, (ThresholdN c <? ThresholdK c) eqn:?; zbool; simpl;
    split; (done || lia).
Qed.

Lemma Validate_ok (stat : string → option string) (c : Config) :
  Validate stat c = Ok tt ↔
  stat (PolicyDir c) = None ∧ transport_safe stat c ∧ (APIToken c ≠ "" ∨ AllowUnauthAPI c = true) ∧ threshold_safe c.
Proof.
  unfold Validate. destruct (stat (PolicyDir c)); simpl; [by intuition congruence|]. rewrite tls_checks.
  destruct (is_empty_reflect (APIToken c)), (AllowUnauthAPI c); cbn [negb andb]; rewrite ?threshold_checks; intuition congruence.
Qed.

(** A configuration is accepted exactly when the policy directory exists, the
    server speaks TLS with a certificate and a key that exist or plaintext was
    opted into with neither set, the API has a token or anonymous access was
    opted into, and the threshold is off or has 1 <= K <= N. *)
Theorem validate_exact (stat : string → option string) (c : Config) :
  Validate stat c = Ok tt ↔
  stat (PolicyDir c) = None ∧ transport_safe stat c ∧ (APIToken c ≠ "" ∨ AllowUnauthAPI c = true) ∧ threshold_safe c.
Proof. apply Validate_ok. Qed.

(** With no variable set the server does not start: the defaults configure
    neither TLS nor authentication, and neither is taken as consent.  Likewise a
    threshold that is not a decimal number is refused, never read as off. *)
Theorem load_fails_closed (stat : string → option string) (env : environ) :
  (env "JURISPATH_TLS_CERT" = "" → env "JURISPATH_INSECURE" ≠ "true" → is_ok (Validate stat (Load env)) = false) ∧
  (env "JURISPATH_API_TOKEN" = "" → env "JURISPATH_UNAUTHENTICATED_API" ≠ "true" → is_ok (Validate stat (Load env)) = false) ∧
  (env "JURISPATH_THRESHOLD_K" ≠ "" → Atoi (env "JURISPATH_THRESHOLD_K") = None → is_ok (Validate stat (Load env)) = false).
Proof.
  assert (∀ P : Prop, (Validate stat (Load env) = Ok tt → P) → ¬ P → is_ok (Validate stat (Load env)) = false) as H.
  { intros P HP Hn. destruct (Validate stat (Load env)) as [[]| |] eqn:Hv; [|done..]. destruct (Hn (HP eq_refl)). }
  split_and!; intros H1 H2; eapply H; try (rewrite Validate_ok; intros Hx; exact Hx);
    cbn [Load TLSCert TLSKey AllowInsecure APIToken AllowUnauthAPI ThresholdK ThresholdN].
  - intros (_ & Hs & _). unfold transport_safe in Hs. simpl in Hs. rewrite bool_decide_eq_true in Hs. naive_solver.
  - intros (_ & _ & Hs & _). rewrite bool_decide_eq_true in Hs. naive_solver.
  - intros (_ & _ & _ & Hs). unfold threshold_safe, envIntOrInvalid in Hs. simpl in Hs.
    unfold envIntOrInvalid in Hs. rewrite H2 in Hs. destruct (is_empty_reflect (env "JURISPATH_THRESHOLD_K")); [done|lia].
Qed.

(** ** The validators that are accepted *)
Definition named (v : ValidatorConfig) : Prop := vcfg_ID v ≠ "" ∧ vcfg_Address v ≠ "".

Lemma check_validators_ok path l : ∀ i seen,
  check_validators path i seen l = Ok tt ↔
  Forall named l ∧ NoDup (vcfg_ID <$> l) ∧ ∀ v, v ∈ l → vcfg_ID v ∉ seen.
Proof.
  induction l as [|v l IH]; intros i seen; cbn [check_validators fmap list_fmap].
  { split; [|done]. intros _. split_and!; [constructor|constructor|by intros v ?%elem_of_nil]. }
  rewrite Forall_cons, NoDup_cons. unfold named.
  destruct (is_empty_reflect (vcfg_ID v)); [split; [done|tauto]|].
  destruct (is_empty_reflect (vcfg_Address v)); [split; [done|tauto]|].
  case_bool_decide as Hs; [split; [done|intros (_ & _ & Hv); destruct (Hv v); [left|done]]|].
  rewrite IH. clear IH. unfold named. setoid_rewrite elem_of_cons. setoid_rewrite list_elem_of_fmap. set_solver.
Qed.

(** The validators file loads exactly when it can be read and decoded and
    lists at least one validator, each with an identifier and an address and no
    identifier twice; what is returned is the decoded list, unchanged. *)
Theorem load_validators_exact (ReadFile : string → res string bytes) (yaml : bytes → res string (list ValidatorConfig))
    (path : string) (vs : list ValidatorConfig) :
  LoadValidators ReadFile yaml path = Ok vs ↔
  (∃ data, ReadFile path = Ok data ∧ yaml data = Ok vs) ∧ vs ≠ [] ∧ Forall named vs ∧ NoDup (vcfg_ID <$> vs).
Proof.
  unfold LoadValidators. split.
  - intros H. inv_ok. case_bool_decide as Hl; [done|]. inv_ok.
    match goal with H : check_validators _ _ _ _ = Ok ?u |- _ => destruct u; apply check_validators_ok in H as (? & ? & _) end.
    eauto 10.
  - intros ((data & -> & Hy) & Hl & Hn & Hd). simpl. rewrite Hy. simpl. rewrite bool_decide_eq_false_2 by done.
    rewrite (proj2 (check_validators_ok path vs 0 ∅)); [done|]. split_and!; [done..|set_solver].
Qed.
