(* ===== verification/ScionTransport.v ===== *)
(** * The SCION transport

    [src/internal/dlt/transport_scion.go] and [src/internal/scion/conn.go]:
    consensus messages as JSON datagrams over one connection, whose reads and
    writes are serialised by a mutex, and the set-up of that connection.  The
    daemon, the network and the address parser of the SCION library are
    parameters.

    The first part models each operation as it runs alone; the second models the
    goroutines of a node that share the connection, with every acquisition of
    [connMu] a step of its own, and says exactly when they block each other. *)

From S2P Require Import Prelude GoJson Json GoDecode Ledger Model Scion.
From S2P Require Import Bolt ReceiptStore Receipt Codecs.


(** A [snet.UDPAddr]; the host is opaque. *)
Record UDPAddr `{!Snet} (Host : Type) := mkUDP {
  ua_IA : IA;
  ua_Path : option DataplanePath;
  ua_Host : Host
}.
Arguments mkUDP {_ Host}.
Arguments ua_IA {_ Host}.
Arguments ua_Path {_ Host}.
Arguments ua_Host {_ Host}.

Class SnetAddr `{!Snet} := {
  Host : Type;
  ParseUDPAddr : string → res string (UDPAddr Host);
  UDPAddr_String : UDPAddr Host → string
}.

Record PathInfo := mkPathInfo {
  pi_RawPath : bytes;
  pi_Hops : list ASHop;
  pi_PeerAddr : string
}.

Inductive scion_err :=
| ScionClosed
| UnknownPeer (id : string)
| ScionMarshaling (e : string)
| WriteDeadline (e : string)
| SendingTo (id e : string)
| ReadDeadline (e : string)
| ReadingConn (e : string)
| ScionUnmarshaling (e : string)
| ParsingPeer (id e : string)
| ParsingLocal (e : string)
| ValidatorNotFound (id : string)
| ConnectingDaemon (addr e : string)
| QueryingLocalIA (e : string)
| QueryingPortRange (e : string)
| QueryingInterfaces (e : string)
| DialFailed (e : string)
| ListenFailed (e : string).

Section Transport.
Context `{!Snet, !SnetAddr} (lenient : string → option Z).
Abbreviation UDP := (UDPAddr Host).

(** ** conn.go

    A daemon is the outcome of each call made to it. *)
Record Daemon := mkDaemon {
  dm_Connect : res string unit;
  dm_LocalIA : res string IA;
  dm_PortRange : res string (Z * Z);
  dm_Interfaces : res string (gmap Z string)
}.

Record SCIONNetwork := mkNetwork {
  nw_LocalIA : IA;
  nw_Start : Z;
  nw_End : Z;
  nw_Interface : Z → option string
}.

(** The second component tells whether the daemon connection was closed. *)
Definition NewSCIONNetwork (d : Daemon) (daemonAddr : string) : res scion_err (SCIONNetwork * IA) * bool :=
  match dm_Connect d with
  | Err e => (Err (ConnectingDaemon daemonAddr e), false)
  | Panic => (Panic, false)
  | Ok _ =>
    (localIA ← map_err QueryingLocalIA (dm_LocalIA d);
     '(portStart, portEnd) ← map_err QueryingPortRange (dm_PortRange d);
     interfaces ← map_err QueryingInterfaces (dm_Interfaces d);
     Ok (mkNetwork localIA portStart portEnd (λ id, interfaces !! id), localIA), true)
  end.

Definition Dial {Conn} (network_Dial : Host → UDP → res string Conn) (localAddr : Host) (remoteAddr : UDP) : res scion_err Conn :=
  map_err DialFailed (network_Dial localAddr remoteAddr).

Definition Listen {Conn} (network_Listen : Host → res string Conn) (localAddr : Host) : res scion_err Conn :=
  map_err ListenFailed (network_Listen localAddr).

(** ** Addresses of the validators *)
Fixpoint parse_peers (localID : string) (vs : list ValidatorState) (peers : gmap string UDP) : res scion_err (gmap string UDP) :=
  match vs with
  | [] => Ok peers
  | v :: vs' =>
    if bool_decide (v_ID v = localID) then parse_peers localID vs' peers
    else
      addr ← map_err (ParsingPeer (v_ID v)) (ParseUDPAddr (v_Address v));
      parse_peers localID vs' (<[v_ID v := addr]> peers)
  end.

Definition ParseSCIONPeers (localID : string) (vs : list ValidatorState) : res scion_err (gmap string UDP) :=
  parse_peers localID vs ∅.

Fixpoint ParseSCIONLocalAddr (localID : string) (vs : list ValidatorState) : res scion_err Host :=
  match vs with
  | [] => Err (ValidatorNotFound localID)
  | v :: vs' =>
    if bool_decide (v_ID v = localID) then
      scionAddr ← map_err ParsingLocal (ParseUDPAddr (v_Address v));
      Ok (ua_Host scionAddr)
    else ParseSCIONLocalAddr localID vs'
  end.

(** ** The operations

    [SCIONTransport] without its mutexes.  A connection is what was written to
    it, the datagrams that wait to be read, each with the address it came from
    when that is a SCION address, and the deadlines of its reads and writes,
    which stay in force until they are set again. *)
Record SCIONTransport := mkST {
  st_localID : string;
  st_peers : gmap string UDP;
  st_closed : bool
}.

Record Conn := mkConn {
  cn_out : list (bytes * UDP);
  cn_in : list (bytes * option UDP);
  cn_closed : bool;
  cn_read_deadline : option Z;
  cn_write_deadline : option Z
}.

Definition NewSCIONTransport (localID : string) (peers : gmap string UDP) : SCIONTransport := mkST localID peers false.

(** What is appended to, or taken from, a connection. *)
Definition wrote (data : bytes) (peer : UDP) (c : Conn) : Conn :=
  mkConn (cn_out c ++ [(data, peer)]) (cn_in c) (cn_closed c) (cn_read_deadline c) (cn_write_deadline c).
Definition with_in (inbox : list (bytes * option UDP)) (c : Conn) : Conn :=
  mkConn (cn_out c) inbox (cn_closed c) (cn_read_deadline c) (cn_write_deadline c).
Definition shut (c : Conn) : Conn := mkConn (cn_out c) (cn_in c) true (cn_read_deadline c) (cn_write_deadline c).

(** The deadline of a context, when it has one, replaces that of the connection. *)
Definition in_force (dl stored : option Z) : option Z := match dl with Some d => Some d | None => stored end.
Definition SetReadDeadline (dl : option Z) (c : Conn) : Conn :=
  mkConn (cn_out c) (cn_in c) (cn_closed c) (in_force dl (cn_read_deadline c)) (cn_write_deadline c).
Definition SetWriteDeadline (dl : option Z) (c : Conn) : Conn :=
  mkConn (cn_out c) (cn_in c) (cn_closed c) (cn_read_deadline c) (in_force dl (cn_write_deadline c)).
Definition expired (now : Z) (dl : option Z) : bool := match dl with Some d => d <=? now | None => false end.

(** What the calls on the connection meet: the time of the read or write, the
    deadline of the context, if it has one, with the error of setting it, and
    the error of the write. *)
Record io := mkIO {
  io_now : Z;
  io_deadline : option (Z * option string);
  io_write : option string
}.

Definition Send (i : io) (validatorID : string) (msg : ConsensusMessage) (t : SCIONTransport) (c : Conn) :
    Conn * res scion_err unit :=
  if st_closed t then (c, Err ScionClosed)
  else match st_peers t !! validatorID with
       | None => (c, Err (UnknownPeer validatorID))
       | Some peer =>
         match marshal (Codec := msg_codec lenient) msg with
         | Err e => (c, Err (ScionMarshaling e))
         | Panic => (c, Panic)
         | Ok data =>
           match io_deadline i with
           | Some (_, Some e) => (c, Err (WriteDeadline e))
           | dl =>
             let c := SetWriteDeadline (fst <$> dl) c in
             if cn_closed c then (c, Err (SendingTo validatorID "use of closed network connection"))
             else if expired (io_now i) (cn_write_deadline c) then (c, Err (SendingTo validatorID "i/o timeout"))
             else match io_write i with
                  | Some e => (c, Err (SendingTo validatorID e))
                  | None => (wrote data peer c, Ok tt)
                  end
           end
         end
       end.

(** The loop of [Broadcast]; [order] is the order of the map iteration. *)
Fixpoint broadcast_loop (i : string → io) (ids : list string) (msg : ConsensusMessage) (t : SCIONTransport) (c : Conn)
    (firstErr : option scion_err) : Conn * option scion_err :=
  match ids with
  | [] => (c, firstErr)
  | id :: ids' =>
    match Send (i id) id msg t c with
    | (c', Err e) => broadcast_loop i ids' msg t c' (match firstErr with None => Some e | _ => firstErr end)
    | (c', _) => broadcast_loop i ids' msg t c' firstErr
    end
  end.

Definition Broadcast (i : string → io) (order : list string) (msg : ConsensusMessage) (t : SCIONTransport) (c : Conn) :
    Conn * option scion_err :=
  broadcast_loop i (filter (λ id, id ≠ st_localID t) order) msg t c None.

Definition extractPathInfo (addr : UDP) : PathInfo :=
  mkPathInfo match ua_Path addr with Some (RawPath raw) => raw | _ => "" end
    [mkHop (IA_String (ua_IA addr)) (u16 (IA_ISD (ua_IA addr))) (IA_AS_String (ua_IA addr)) ""]
    (UDPAddr_String addr).

(** The buffer of [Receive]; what does not fit is lost. *)
Definition buf_size : nat := 4096.

(** [Receive] when the deadline has passed, a datagram waits, the connection is
    closed or the deadline passes; [None] when it blocks. *)
Definition Receive (i : io) (t : SCIONTransport) (c : Conn) : option (Conn * res scion_err (ConsensusMessage * option PathInfo)) :=
  if st_closed t then Some (c, Err ScionClosed)
  else match io_deadline i with
       | Some (_, Some e) => Some (c, Err (ReadDeadline e))
       | dl =>
         let c := SetReadDeadline (fst <$> dl) c in
         if cn_closed c then Some (c, Err (ReadingConn "use of closed network connection"))
         else if expired (io_now i) (cn_read_deadline c) then Some (c, Err (ReadingConn "i/o timeout"))
         else match cn_in c with
              | (data, remote) :: rest =>
                Some (with_in rest c,
                  msg ← map_err ScionUnmarshaling (unmarshal (Codec := msg_codec lenient) (String.substring 0 buf_size data));
                  Ok (msg, extractPathInfo <$> remote))
              | [] =>
                match cn_read_deadline c with
                | Some _ => Some (c, Err (ReadingConn "i/o timeout"))
                | None => None
                end
              end
       end.

(** [Close]: the first call closes the connection. *)
Definition Close (closing : option string) (t : SCIONTransport) (c : Conn) : SCIONTransport * Conn * option string :=
  if st_closed t then (t, c, None)
  else (mkST (st_localID t) (st_peers t) true, shut c, closing).

(** ** Goroutines that share the connection

    Where a goroutine stands in its operation: at its start, waiting for
    [connMu], or holding it while the connection works.  [dl] is the deadline of
    the context of a [Send] or [Receive], if it has one. *)
Inductive pc :=
| SendStart (dl : option Z) (to : string) (msg : ConsensusMessage)
| SendLock (dl : option Z) (data : bytes) (peer : UDP)
| SendIO (dl : option Z) (data : bytes) (peer : UDP)
| RecvStart (dl : option Z)
| RecvLock (dl : option Z)
| RecvIO (dl : option Z)
| CloseStart
| CloseLock
| CloseIO
| Done.

Record node := mkNode {
  nd_transport : SCIONTransport;
  nd_conn : Conn;
  nd_lock : option nat;
  nd_threads : list pc
}.

Definition set_pc (i : nat) (p : pc) (n : node) : node :=
  mkNode (nd_transport n) (nd_conn n) (nd_lock n) (<[i := p]> (nd_threads n)).

(** [connMu.Lock] blocks while another goroutine holds it. *)
Definition lock (i : nat) (p : pc) (n : node) : option node :=
  match nd_lock n with
  | Some _ => None
  | None => Some (mkNode (nd_transport n) (nd_conn n) (Some i) (<[i := p]> (nd_threads n)))
  end.

(** The call on the connection is over and the mutex is released. *)
Definition finish (i : nat) (c : Conn) (n : node) : node :=
  mkNode (nd_transport n) c None (<[i := Done]> (nd_threads n)).

(** How the calls on the connection end: they do their work, the deadline cannot
    be set, or the write or read fails. *)
Inductive outcome := Works | DeadlineError | Fails.

(** The calls of [Send] with the mutex held: no failure writes anything. *)
Definition send_io (o : outcome) (dl : option Z) (data : bytes) (peer : UDP) (c : Conn) : option Conn :=
  match o with
  | DeadlineError => match dl with Some _ => Some c | None => None end
  | Fails => Some (SetWriteDeadline dl c)
  | Works => if cn_closed c then None else Some (wrote data peer (SetWriteDeadline dl c))
  end.

(** Those of [Receive].  A read of a closed connection fails; one of an open
    connection only when a deadline is in force, this call's or an earlier one's. *)
Definition recv_io (o : outcome) (dl : option Z) (c : Conn) : option Conn :=
  match o with
  | DeadlineError => match dl with Some _ => Some c | None => None end
  | Fails => if cn_closed c || bool_decide (is_Some (in_force dl (cn_read_deadline c))) then Some (SetReadDeadline dl c) else None
  | Works =>
    if cn_closed c then None
    else match cn_in c with
         | _ :: rest => Some (with_in rest (SetReadDeadline dl c))
         | [] => None
         end
  end.

(** One step of goroutine [i], whose calls end as [o] says; [None] when it is
    blocked or over, or the calls cannot end so. *)
Definition thread_step (i : nat) (o : outcome) (n : node) : option node :=
  let t := nd_transport n in
  let c := nd_conn n in
  match nd_threads n !! i with
  | None | Some Done => None
  | Some (SendStart dl to msg) =>
    Some (set_pc i
      (if st_closed t then Done
       else match st_peers t !! to, marshal (Codec := msg_codec lenient) msg with
            | Some peer, Ok data => SendLock dl data peer
            | _, _ => Done
            end) n)
  | Some (SendLock dl data peer) => lock i (SendIO dl data peer) n
  | Some (SendIO dl data peer) => c' ← send_io o dl data peer c; Some (finish i c' n)
  | Some (RecvStart dl) => Some (set_pc i (if st_closed t then Done else RecvLock dl) n)
  | Some (RecvLock dl) => lock i (RecvIO dl) n
  | Some (RecvIO dl) => c' ← recv_io o dl c; Some (finish i c' n)
  | Some CloseStart =>
    Some (if st_closed t then set_pc i Done n
          else mkNode (mkST (st_localID t) (st_peers t) true) c (nd_lock n) (<[i := CloseLock]> (nd_threads n)))
  | Some CloseLock => lock i CloseIO n
  | Some CloseIO => Some (finish i (shut c) n)
  end.

Inductive node_step (n n' : node) : Prop :=
| NodeStep (i : nat) (o : outcome) : thread_step i o n = Some n' → node_step n n'.

(** A goroutine at the start of its operation, waiting for the mutex, holding it. *)
Definition starting (p : pc) : bool :=
  match p with SendStart _ _ _ | RecvStart _ | CloseStart => true | _ => false end.
Definition waiting (p : pc) : bool :=
  match p with SendLock _ _ _ | RecvLock _ | CloseLock => true | _ => false end.
Definition holding (p : pc) : bool :=
  match p with SendIO _ _ _ | RecvIO _ | CloseIO => true | _ => false end.

Definition node_ok (n : node) : Prop :=
  ∀ i, nd_lock n = Some i ↔ ∃ p, nd_threads n !! i = Some p ∧ holding p = true.

(** Steps a goroutine has left. *)
Definition left_of (p : pc) : nat :=
  match p with Done => 0 | SendIO _ _ _ | RecvIO _ | CloseIO => 1 | SendLock _ _ _ | RecvLock _ | CloseLock => 2 | _ => 3 end.
Definition work (n : node) : nat := sum_list (left_of <$> nd_threads n).

(** What a step does to the goroutine and the mutex. *)
Inductive step_view (n : node) : nat → node → Prop :=
| ViewStart i p q n' : nd_threads n !! i = Some p → starting p = true → (waiting q = true ∨ q = Done) →
    nd_threads n' = <[i := q]> (nd_threads n) → nd_lock n' = nd_lock n → step_view n i n'
| ViewLock i p q n' : nd_threads n !! i = Some p → waiting p = true → holding q = true →
    nd_lock n = None → nd_threads n' = <[i := q]> (nd_threads n) → nd_lock n' = Some i → step_view n i n'
| ViewFinish i p n' : nd_threads n !! i = Some p → holding p = true →
    nd_threads n' = <[i := Done]> (nd_threads n) → nd_lock n' = None → step_view n i n'.

Lemma thread_step_view i o n n' : thread_step i o n = Some n' → step_view n i n'.
Proof.
  unfold thread_step, lock. destruct (nd_threads n !! i) as [p|] eqn:Hp; [|done].
  destruct p; intros Hs; try apply bind_Some in Hs as (? & _ & Hs); repeat case_match; simplify_eq;
    first [eapply ViewStart; [done|done| |done|done]; simpl; by auto
          |eapply ViewLock; [done|done| |done|done|done]; done
          |eapply ViewFinish; [done|done|done|done]].
Qed.

Lemma step_view_work n i n' : step_view n i n' → (work n' < work n)%nat.
Proof.
  intros [? p q ? Hp Hs Hq Ht _|? p q ? Hp Hs Hq _ Ht _|? p ? Hp Hs Ht _]; unfold work; rewrite Ht;
    eapply sum_insert; try done.
  - destruct Hq as [Hq| ->]; [destruct p, q; simpl in *; try done; lia|destruct p; simpl in *; try done; lia].
  - destruct p, q; simpl in *; try done; lia.
  - destruct p; simpl in *; try done; lia.
Qed.

Lemma holding_not p : holding p = true → starting p = false ∧ waiting p = false ∧ p ≠ Done.
Proof. by destruct p. Qed.

Lemma node_ok_step n i n' : step_view n i n' → node_ok n → node_ok n'.
Proof.
  intros Hv Hok j. destruct Hv as [i p q n' Hp Hs Hq Ht Hl|i p q n' Hp Hs Hq Hno Ht Hl|i p n' Hp Hs Ht Hl];
    rewrite Ht, Hl; pose proof (lookup_lt_Some _ _ _ Hp) as Hlt.
  - rewrite (Hok j). destruct (decide (i = j)) as [->|Hij].
    + rewrite list_lookup_insert_eq by done. split; intros (r & Hr & Hh); simplify_eq.
      * by destruct p.
      * destruct Hq as [Hq| ->]; [by destruct r|done].
    + by rewrite list_lookup_insert_ne.
  - destruct (decide (i = j)) as [->|Hij].
    + rewrite list_lookup_insert_eq by done. naive_solver.
    + rewrite list_lookup_insert_ne by done. rewrite <- (Hok j), Hno. naive_solver.
  - destruct (decide (i = j)) as [->|Hij].
    + rewrite list_lookup_insert_eq by done. naive_solver.
    + rewrite list_lookup_insert_ne by done. rewrite <- (Hok j).
      assert (nd_lock n = Some i) as -> by (apply Hok; eauto). naive_solver.
Qed.

(** Nothing to read, and nothing that ends a read. *)
Definition silent (c : Conn) : Prop := cn_in c = [] ∧ cn_closed c = false ∧ cn_read_deadline c = None.

(** A goroutine in [Receive] without a deadline holds the mutex over an open
    connection that nothing has arrived at and that no deadline is set on; all
    others are over or wait for it. *)
Definition blocked (n : node) : Prop :=
  ∃ i, nd_threads n !! i = Some (RecvIO None) ∧ silent (nd_conn n) ∧
    ∀ j p, nd_threads n !! j = Some p → j ≠ i → p = Done ∨ waiting p = true.

Definition all_done (n : node) : Prop := ∀ j p, nd_threads n !! j = Some p → p = Done.

Lemma can_start n i p o : nd_threads n !! i = Some p → starting p = true → is_Some (thread_step i o n).
Proof. intros Hp Hs. unfold thread_step. rewrite Hp. by destruct p. Qed.

Lemma can_lock n i p o : nd_threads n !! i = Some p → waiting p = true → nd_lock n = None → is_Some (thread_step i o n).
Proof. intros Hp Hs Hl. unfold thread_step, lock. rewrite Hp, Hl. by destruct p. Qed.

(** A read without a deadline can end exactly when the connection is not silent. *)
Lemma recv_blocks dl c : (∀ o, recv_io o dl c = None) → dl = None ∧ silent c.
Proof.
  intros Hn. pose proof (Hn Works) as Hw. pose proof (Hn Fails) as Hf. pose proof (Hn DeadlineError) as Hd. unfold recv_io in *.
  destruct dl; [done|]. split; [done|]. unfold silent. cbn [in_force] in Hf.
  destruct (cn_closed c); [done|]. destruct (cn_in c); [|done].
  by destruct (cn_read_deadline c).
Qed.

Lemma silent_blocks o c : silent c → recv_io o None c = None.
Proof. intros (Hin & Hcl & Hd). unfold recv_io. rewrite Hin, Hcl, Hd. by destruct o. Qed.

Lemma can_finish n i p : nd_threads n !! i = Some p → holding p = true →
  (∀ o, thread_step i o n = None) → p = RecvIO None ∧ silent (nd_conn n).
Proof.
  intros Hp Hs Hn. unfold thread_step in Hn. rewrite Hp in Hn. destruct p as [| |dl data peer| | |dl| | | |]; try done.
  - specialize (Hn Fails). done.
  - destruct (recv_blocks dl (nd_conn n)) as [-> ?]; [|done]. intros o. specialize (Hn o). by destruct (recv_io o dl (nd_conn n)).
  - by specialize (Hn Works).
Qed.

(** A node that cannot move is done or blocked. *)
Lemma stuck_cases n : node_ok n → (∀ n', ¬ node_step n n') → all_done n ∨ blocked n.
Proof.
  intros Hok Hno. assert (∀ i o, ¬ is_Some (thread_step i o n)) as Hn.
  { intros i o [n' Hs]. by eapply Hno, NodeStep. }
  assert (∀ j p, nd_threads n !! j = Some p → p = Done ∨ waiting p = true ∨ holding p = true) as Hc.
  { intros j p Hp. destruct (starting p) eqn:Hs; [destruct (Hn j Works); by eapply can_start|]. destruct p; naive_solver. }
  destruct (nd_lock n) as [i|] eqn:Hl.
  - destruct (proj1 (Hok i) Hl) as (p & Hp & Hh). destruct (can_finish n i p Hp Hh) as (-> & ?).
    { intros o. by apply eq_None_not_Some. }
    right. exists i. split_and!; [done..|]. intros j q Hq Hij. destruct (Hc j q Hq) as [?|[?|Hh']]; [auto..|].
    assert (nd_lock n = Some j) by (apply Hok; eauto). congruence.
  - left. intros j p Hp. destruct (Hc j p Hp) as [?|[Hw|Hh]]; [done|destruct (Hn j Works); by eapply can_lock|].
    assert (nd_lock n = Some j) by (apply Hok; eauto). congruence.
Qed.

Lemma blocked_stuck n : node_ok n → blocked n → ∀ n', ¬ node_step n n'.
Proof.
  intros Hok (i & Hi & Hsil & Ho) n' [j o Hs]. assert (nd_lock n = Some i) as Hl by (apply Hok; eauto).
  unfold thread_step, lock in Hs. destruct (nd_threads n !! j) as [p|] eqn:Hp; [|done].
  destruct (decide (j = i)) as [->|Hij]; [simplify_eq; by rewrite silent_blocks in Hs|].
  rewrite Hl in Hs. destruct (Ho j p Hp Hij) as [->|Hw]; [done|by destruct p].
Qed.

Definition start_node (t : SCIONTransport) (c : Conn) (ops : list pc) : node := mkNode t c None ops.

Lemma start_node_ok t c ops : Forall (λ p, starting p = true) ops → node_ok (start_node t c ops).
Proof.
  intros Hs i. cbn [start_node nd_lock nd_threads]. split; [done|]. intros (p & Hp & Hh).
  pose proof (Forall_lookup_1 _ _ _ _ Hs Hp) as Hst. cbv beta in Hst. by destruct p.
Qed.

Lemma node_run k n n' : nsteps node_step k n n' → node_ok n → node_ok n' ∧ (k + work n' ≤ work n)%nat.
Proof.
  induction 1 as [n|k n n1 n' [i o Hs] _ IH]; intros Hok; [split; [done|lia]|].
  apply thread_step_view in Hs. pose proof (step_view_work _ _ _ Hs).
  destruct (IH (node_ok_step _ _ _ Hs Hok)) as [? ?]. split; [done|lia].
Qed.

(** Every [Receive] has a deadline. *)
Definition deadlined (p : pc) : bool :=
  match p with RecvStart dl | RecvLock dl | RecvIO dl => bool_decide (is_Some dl) | _ => true end.

Lemma deadlined_step i o n n' : thread_step i o n = Some n' → Forall (λ p, deadlined p = true) (nd_threads n) →
  Forall (λ p, deadlined p = true) (nd_threads n').
Proof.
  intros Hs Hd. assert (∃ q, nd_threads n' = <[i := q]> (nd_threads n) ∧ deadlined q = true) as (q & -> & Hq).
  { unfold thread_step, lock in Hs. destruct (nd_threads n !! i) as [p|] eqn:Hp; [|done].
    pose proof (Forall_lookup_1 _ _ _ _ Hd Hp) as Hdp. cbv beta in Hdp.
    destruct p; try apply bind_Some in Hs as (? & _ & Hs); repeat case_match; simplify_eq; eexists; (split; [reflexivity|done]). }
  by apply Forall_insert.
Qed.

Lemma deadlined_run k n n' : nsteps node_step k n n' → Forall (λ p, deadlined p = true) (nd_threads n) →
  Forall (λ p, deadlined p = true) (nd_threads n').
Proof. induction 1 as [|? ? ? ? [i o Hs]]; eauto using deadlined_step. Qed.

(** ** Several nodes

    A datagram that one node has written may reach any node, any number of
    times. *)
Definition arrive (d : bytes * option UDP) (n : node) : node :=
  mkNode (nd_transport n) (with_in (cn_in (nd_conn n) ++ [d]) (nd_conn n)) (nd_lock n) (nd_threads n).

Inductive sys_step (s : list node) : list node → Prop :=
| SysNode k n n' : s !! k = Some n → node_step n n' → sys_step s (<[k := n']> s)
| SysDeliver k m n n' data peer src : s !! k = Some n → (data, peer) ∈ cn_out (nd_conn n) → s !! m = Some n' →
    sys_step s (<[m := arrive (data, src) n']> s).

(** The first goroutine of the node waits in [ReadFrom] with the mutex held, and
    the node has sent nothing. *)
Definition held (n : node) : Prop :=
  nd_lock n = Some 0%nat ∧ nd_threads n !! 0%nat = Some (RecvIO None) ∧
  silent (nd_conn n) ∧ cn_out (nd_conn n) = [].

Lemma held_step n n' : held n → node_ok n → node_step n n' → held n' ∧ node_ok n'.
Proof.
  intros (Hl & Ht & Hsil & Hout) Hok [i o Hs].
  split; [|by eapply node_ok_step; [eapply thread_step_view|]].
  destruct (decide (i = 0%nat)) as [->|Hi]; [unfold thread_step in Hs; by rewrite Ht, silent_blocks in Hs|].
  unfold thread_step, lock in Hs. rewrite Hl in Hs. destruct (nd_threads n !! i) as [p|] eqn:Hp; [|done].
  assert (holding p = false) as Hh.
  { apply not_true_is_false. intros Hh. assert (nd_lock n = Some i) by (apply Hok; eauto). congruence. }
  unfold held. destruct p; try done; simplify_eq; try case_match; cbn; rewrite ?list_lookup_insert_ne by done; done.
Qed.

Lemma held_sys s s' : rtc sys_step s s' → Forall (λ n, held n ∧ node_ok n) s → Forall (λ n, held n ∧ node_ok n) s'.
Proof.
  induction 1 as [|s s1 s' Hs _ IH]; [done|]. intros Hall. apply IH. clear IH.
  destruct Hs as [k n n' Hk Hn|k m n n' data peer src Hk Hd Hm].
  - apply Forall_insert; [done|]. destruct (Forall_lookup_1 _ _ _ _ Hall Hk). by eapply held_step.
  - destruct (Forall_lookup_1 _ _ _ _ Hall Hk) as ((_ & _ & _ & Hout) & _). rewrite Hout in Hd.
    by apply not_elem_of_nil in Hd.
Qed.

(** Nodes move independently. *)
Lemma sys_cons n s s' : rtc sys_step s s' → rtc sys_step (n :: s) (n :: s').
Proof.
  apply rtc_congruence with (f := cons n). intros s1 s2 [k n1 n2 Hk Hn|k m n1 n2 data peer src Hk Hd Hm].
  - exact (SysNode (n :: s1) (S k) n1 n2 Hk Hn).
  - exact (SysDeliver (n :: s1) (S k) (S m) n1 n2 data peer src Hk Hd Hm).
Qed.

Lemma sys_runs s s' : Forall2 (rtc node_step) s s' → rtc sys_step s s'.
Proof.
  induction 1 as [|n n' s s' Hn _ IH]; [done|]. etrans; [|by apply sys_cons].
  induction Hn as [|n1 n2 n3 H12 _ IHn]; [done|]. eapply rtc_l; [|done].
  exact (SysNode (n1 :: s) 0 n1 n2 eq_refl H12).
Qed.

Definition fresh_conn : Conn := mkConn [] [] false None None.

(** The listener goes first. *)
Definition listening (t : SCIONTransport) (ops : list pc) : node := start_node t fresh_conn (RecvStart None :: ops).
Definition listener_held (t : SCIONTransport) (ops : list pc) : node :=
  mkNode t fresh_conn (Some 0%nat) (RecvIO None :: ops).

Lemma listener_runs t ops : st_closed t = false → rtc node_step (listening t ops) (listener_held t ops).
Proof.
  intros Ht. eapply rtc_l; [apply (NodeStep _ (start_node t fresh_conn (RecvLock None :: ops)) 0 Works)|
    eapply rtc_l; [apply (NodeStep _ (listener_held t ops) 0 Works)|constructor]]; [|done].
  unfold thread_step. simpl. by rewrite Ht.
Qed.

Lemma listener_held_ok t ops : Forall (λ p, starting p = true) ops → node_ok (listener_held t ops).
Proof.
  intros Hs [|i]; cbn [listener_held nd_lock nd_threads]; [split; eauto|]. split; [done|]. intros (p & Hp & Hh).
  pose proof (Forall_lookup_1 _ _ _ _ Hs Hp) as Hst. cbv beta in Hst. by destruct p.
Qed.

(** ** Theorems *)
Lemma substring_fits n (s : string) : (String.length s ≤ n)%nat → String.substring 0 n s = s.
Proof. revert n. induction s as [|a s IH]; intros [|n] Hn; simpl in *; try done; [lia|]. f_equal. apply IH. lia. Qed.


(** C27. Operations on the SCION transport end when every [Receive] has a deadline.
    However the goroutines of a node interleave, a run has at most three steps
    per operation, and a state that cannot move has every operation over, so no
    [Send], [Receive] or [Close] waits forever; without that condition the only
    other such state is one where a [Receive] without a deadline keeps the mutex
    of an open connection that no datagram waits at and no earlier call has left
    a read deadline on.  Writes, reads and the setting of deadlines may fail at
    any step; a read without a deadline on an open connection ends only with a
    datagram. *)
Theorem scion_operations_end (t : SCIONTransport) (c : Conn) (ops : list pc) (k : nat) (n : node) :
  Forall (λ p, starting p = true) ops → nsteps node_step k (start_node t c ops) n →
  (k ≤ 3 * length ops)%nat ∧
  ((∀ n', ¬ node_step n n') → all_done n ∨ blocked n) ∧
  (Forall (λ p, deadlined p = true) ops → (∀ n', ¬ node_step n n') → all_done n).
Proof.
  intros Hs Hrun. destruct (node_run _ _ _ Hrun (start_node_ok t c ops Hs)) as [Hok Hk]. split_and!.
  - assert (work (start_node t c ops) = 3 * length ops)%nat; [|lia]. unfold work. cbn [start_node nd_threads]. clear -Hs.
    induction Hs as [|p ops Hp _ IH]; [done|]. cbn [fmap list_fmap sum_list length]. rewrite IH. destruct p; simpl in *; try done; lia.
  - by apply stuck_cases.
  - intros Hd Hno. destruct (stuck_cases n Hok Hno) as [?|(i & Hi & _)]; [done|].
    pose proof (Forall_lookup_1 _ _ _ _ (deadlined_run _ _ _ Hrun Hd) Hi) as Hf. by simpl in Hf.
Qed.

(** C38. Listening nodes deadlock.  When every node runs a [Receive] without a
    deadline beside any other operations, there is a run after which no node ever
    sends a datagram, finishes its [Receive] or closes its connection, whatever
    happens next: each listener holds the mutex that the [Send] of its own node
    waits for. *)
Theorem scion_listeners_deadlock (ts : list (SCIONTransport * list pc)) :
  Forall (λ x, st_closed x.1 = false ∧ Forall (λ p, starting p = true) x.2) ts →
  ∃ s, rtc sys_step ((λ x, listening x.1 x.2) <$> ts) s ∧ ∀ s', rtc sys_step s s' → length s' = length ts ∧ Forall held s'.
Proof.
  intros Hts. exists ((λ x, listener_held x.1 x.2) <$> ts). split.
  - apply sys_runs. apply Forall2_fmap. apply Forall_Forall2_diag. eapply Forall_impl; [done|].
    intros x [Hx _]. by apply listener_runs.
  - intros s' Hs'. split.
    + rewrite <- (length_fmap (λ x, listener_held x.1 x.2) ts). clear Hts. induction Hs' as [|s s1 s' Hstep _ IH]; [done|]. rewrite IH.
      destruct Hstep; apply length_insert.
    + eapply Forall_impl; [apply (held_sys _ _ Hs')|by intros n []].
      apply Forall_fmap. eapply Forall_impl; [done|]. intros x [_ Hx]. split; [done|]. by apply listener_held_ok.
Qed.

(** C32. What one node sends another receives.  A message whose text fits the
    buffer of 4096 octets is read back field by field by the node its datagram
    reaches, together with the sender's address and the one hop of its AS, when
    the read deadline in force there, that of the context or the one left on the
    connection, can be set and has not passed; once it has passed the waiting
    datagram stays and the read times out. *)
Theorem scion_delivery (i j : io) (to : string) (msg : ConsensusMessage) (t t' : SCIONTransport) (c c' cr : Conn)
    (src : UDP) (rest : list (bytes * option UDP)) :
  msg_ok msg → Send i to msg t c = (c', Ok tt) → st_closed t' = false → (∀ d e, io_deadline j ≠ Some (d, Some e)) →
  ∃ data peer, st_peers t !! to = Some peer ∧ cn_out c' = cn_out c ++ [(data, peer)] ∧
    (cn_in cr = (data, Some src) :: rest → cn_closed cr = false →
     let cr' := SetReadDeadline (fst <$> io_deadline j) cr in
     (expired (io_now j) (cn_read_deadline cr') = true → Receive j t' cr = Some (cr', Err (ReadingConn "i/o timeout"))) ∧
     (expired (io_now j) (cn_read_deadline cr') = false → (String.length data ≤ buf_size)%nat →
      Receive j t' cr = Some (with_in rest cr', Ok (msg, Some (extractPathInfo src))))).
Proof.
  intros Hm Hs Ht' Hj. unfold Send in Hs. destruct (st_closed t); [done|].
  destruct (st_peers t !! to) as [peer|]; [|done].
  destruct (marshal (Codec := msg_codec lenient) msg) as [data| |] eqn:Hd; [|done..]. exists data, peer.
  assert (cn_out c' = cn_out c ++ [(data, peer)]) as -> by (by repeat case_match; simplify_eq).
  do 2 (split; [done|]). intros Hin Hcl cr'.
  assert (Receive j t' cr = if expired (io_now j) (cn_read_deadline cr') then Some (cr', Err (ReadingConn "i/o timeout"))
    else Some (with_in rest cr', msg ← map_err ScionUnmarshaling
      (unmarshal (Codec := msg_codec lenient) (String.substring 0 buf_size data)); Ok (msg, Some (extractPathInfo src)))) as ->.
  { unfold Receive, cr'. rewrite Ht'.
    destruct (io_deadline j) as [[d [e|]]|] eqn:Hdl; [by destruct (Hj d e)|..];
      cbn [SetReadDeadline cn_closed cn_in]; rewrite Hcl, Hin; done. }
  split; intros ->; [done|]. intros Hlen. rewrite substring_fits by done.
  by rewrite (unmarshal_marshal (CodecLaws := msg_codec_laws lenient) msg data Hm Hd).
Qed.

(** *** Peers *)
Lemma parse_peers_lookup localID vs : ∀ peers0 peers, NoDup (v_ID <$> vs) → parse_peers localID vs peers0 = Ok peers →
  (∀ v, v ∈ vs → peers0 !! v_ID v = None) →
  ∀ id addr, peers !! id = Some addr ↔
    peers0 !! id = Some addr ∨ (id ≠ localID ∧ ∃ v, v ∈ vs ∧ v_ID v = id ∧ ParseUDPAddr (v_Address v) = Ok addr).
Proof.
  induction vs as [|v vs IH]; intros peers0 peers Hnd Hp Hfresh id addr; cbn [parse_peers fmap list_fmap] in *.
  { inv_ok. split; [auto|]. intros [?|(_ & v & []%not_elem_of_nil & _)]; [done]. }
  apply NoDup_cons in Hnd as [Hv Hnd]. case_bool_decide as Hl.
  - rewrite (IH peers0 peers Hnd Hp) by (intros w Hw; apply Hfresh; by right). setoid_rewrite elem_of_cons. naive_solver.
  - inv_ok. rewrite (IH _ peers Hnd Hp).
    + setoid_rewrite elem_of_cons. rewrite lookup_insert_Some. specialize (Hfresh v). split.
      * intros [[[<- <-]|[Hne ?]]|(? & w & ? & ? & ?)]; [right; split; [done|]; exists v; auto|auto|].
        right. split; [done|]. exists w. auto.
      * intros [Hin|(Hne & w & [->|Hw] & <- & Hw')].
        -- left. right. split; [|done]. intros <-. rewrite Hfresh in Hin by (by left). done.
        -- left. left. split; congruence.
        -- right. split; [done|]. exists w. auto.
    + intros w Hw. rewrite lookup_insert_ne; [apply Hfresh; by right|].
      intros Heq. apply Hv. rewrite Heq. apply list_elem_of_fmap. eauto.
Qed.

Lemma parse_peers_all localID vs : ∀ peers0 peers v, parse_peers localID vs peers0 = Ok peers →
  v ∈ vs → v_ID v ≠ localID → ∃ addr, ParseUDPAddr (v_Address v) = Ok addr.
Proof.
  induction vs as [|w vs IH]; intros peers0 peers v Hp Hv Hne; [by apply not_elem_of_nil in Hv|]. cbn [parse_peers] in Hp.
  apply elem_of_cons in Hv as [->|Hv].
  - rewrite bool_decide_eq_false_2 in Hp by done. inv_ok. eauto.
  - case_bool_decide; [eauto|]. inv_ok. eauto.
Qed.

(** Writes that all succeed. *)
Lemma broadcast_loop_ok i msg data t : marshal (Codec := msg_codec lenient) msg = Ok data → st_closed t = false →
  ∀ ids c, cn_closed c = false → cn_write_deadline c = None → (∀ id, id ∈ ids → is_Some (st_peers t !! id) ∧ io_deadline (i id) = None ∧ io_write (i id) = None) →
  broadcast_loop i ids msg t c None =
    (mkConn (cn_out c ++ omap (λ id, pair data <$> st_peers t !! id) ids) (cn_in c) false (cn_read_deadline c) None, None).
Proof.
  intros Hd Ht ids. induction ids as [|id ids IH]; intros c Hcl Hwd Hids; cbn [broadcast_loop omap list_omap].
  { rewrite app_nil_r. by destruct c; simpl in *; subst. }
  destruct (Hids id) as ([peer Hp] & Hdl & Hw); [by left|]. unfold Send. rewrite Ht, Hp, Hd, Hdl, Hw.
  cbn [SetWriteDeadline in_force fmap option_fmap option_map cn_closed cn_write_deadline]. rewrite Hcl, Hwd. cbn [expired].
  rewrite IH; [|done|done|]; [|intros id' Hid'; apply Hids; by right]. cbn [wrote cn_out cn_in cn_closed cn_read_deadline].
  by rewrite <- app_assoc.
Qed.

(** Set-up and broadcast agree.  With the peers that [ParseSCIONPeers] makes of
    distinct validators, an open connection and writes that succeed, [Broadcast] reports no error
    and writes the message once to the address of every validator but the node's
    own, in the order of the map, and to nobody else. *)
Theorem scion_broadcast_reaches_peers (localID : string) (vs : list ValidatorState) (peers : gmap string UDP)
    (order : list string) (i : string → io) (msg : ConsensusMessage) (c : Conn) :
  NoDup (v_ID <$> vs) → ParseSCIONPeers localID vs = Ok peers → order ≡ₚ (map_to_list peers).*1 → msg_ok msg →
  cn_closed c = false → cn_write_deadline c = None → (∀ id, io_deadline (i id) = None ∧ io_write (i id) = None) →
  ∃ data c', Broadcast i order msg (NewSCIONTransport localID peers) c = (c', None) ∧
    cn_out c' = cn_out c ++ omap (λ id, pair data <$> peers !! id) order ∧
    ∀ id, id ∈ order ↔ id ≠ localID ∧ ∃ v, v ∈ vs ∧ v_ID v = id.
Proof.
  intros Hnd Hp Hord Hm Hcl Hwd Hio.
  pose proof (λ id, parse_peers_lookup localID vs ∅ peers Hnd Hp (λ v _, lookup_empty _) id) as Hl.
  assert (∀ id, id ∈ order ↔ is_Some (peers !! id)) as Hin .
  { intros id. rewrite Hord, list_elem_of_fmap. split.
    - intros ([k a] & -> & Ha%elem_of_map_to_list). eauto.
    - intros [a Ha]. exists (id, a). by rewrite elem_of_map_to_list. }
  destruct (marshal (Codec := msg_codec lenient) msg) as [data| |] eqn:Hd.
  2-3: pose proof (marshal_ok (CodecLaws := msg_codec_laws lenient) msg Hm) as Hok; by rewrite Hd in Hok.
  assert (∀ id, id ∈ order → id ≠ localID) as Hloc.
  { intros id [addr Ha]%Hin. rewrite Hl, lookup_empty in Ha. by destruct Ha as [?|[? _]]. }
  assert (filter (λ id, id ≠ localID) order = order) as Hf by (by apply filter_all, Forall_forall).
  exists data. eexists. unfold Broadcast. cbn [st_localID NewSCIONTransport]. rewrite Hf.
  erewrite broadcast_loop_ok; [|done|done|done|done|].
  - split; [reflexivity|]. split; [reflexivity|]. intros id. rewrite Hin. split.
    + intros [addr Ha]. rewrite Hl, lookup_empty in Ha. naive_solver.
    + intros (Hne & v & Hv & <-).
      destruct (parse_peers_all localID vs ∅ peers v Hp Hv Hne) as [addr Ha]. exists addr. apply Hl. eauto 10.
  - intros id Hid. cbn [st_peers NewSCIONTransport]. split; [by apply Hin|apply Hio].
Qed.
End Transport.

(** ** Witnesses *)
Module DemoTransport.

(** A world of two ASes, one in each of two ISDs. *)
#[local] Instance two_ases : Snet := {|
  IA := bool;
  IA_String ia := if ia then "1-ff00:0:110" else "2-ff00:0:210";
  IA_ISD ia := if ia then 1 else 2;
  IA_AS_String ia := if ia then "ff00:0:110" else "ff00:0:210";
  SnetPath := unit;
  Metadata _ := None;
  Dataplane _ := None;
  DecodeHopFields _ := None
|}.

Definition addr_of (ia : bool) : UDPAddr unit := mkUDP (ia : IA) (Some (RawPath "raw")) tt.

#[local] Instance demo_addr : SnetAddr := {|
  Host := unit;
  ParseUDPAddr s := match s with "ch" => Ok (addr_of true) | "eu" => Ok (addr_of false) | _ => Err "invalid address" end;
  UDPAddr_String a := if ua_IA a then "1-ff00:0:110,[127.0.0.1]:30100" else "2-ff00:0:210,[127.0.0.1]:30200"
|}.

Definition no_parser : string → option Z := λ _, None.
Definition vals : list ValidatorState := [mkVal "CH" "ch" ∅ 0; mkVal "EU" "eu" ∅ 0].
Definition peers : gmap string (UDPAddr Host) := {[ "EU" := addr_of false ]}.
Definition tr : SCIONTransport := NewSCIONTransport "CH" peers.
Definition conn0 : Conn := fresh_conn.
Definition good_io : io := mkIO 0 None None.
Definition vote : ConsensusMessage := mkMsg "vote" "tx-1" "CH" 1 "payload" 1700000000000000000.

Lemma vote_ok : msg_ok vote.
Proof. split_and!; try (by vm_compute). by eexists. Defined.

Definition left_deadline (data : bytes) (peer : UDPAddr Host) : Conn := mkConn [] [(data, Some peer)] false (Some 5) None.

(** A datagram that waits is read before a deadline, and not after it, even when
    the deadline was left by an earlier call. *)
Lemma scion_delivery_witness :
  ∃ data peer, let cr := left_deadline data peer in
    Receive no_parser good_io tr cr = Some (with_in [] cr, Ok (vote, Some (extractPathInfo peer))) ∧
    Receive no_parser (mkIO 9 None None) tr cr = Some (cr, Err (ReadingConn "i/o timeout")).
Proof.
  set (data := match cn_out (Send no_parser good_io "EU" vote tr conn0).1 with (d, _) :: _ => d | [] => "" end).
  set (cr := left_deadline data (addr_of true)).
  exists data, (addr_of true). split.
  - destruct (scion_delivery no_parser good_io good_io "EU" vote tr tr conn0
                (Send no_parser good_io "EU" vote tr conn0).1 cr (addr_of true) [] vote_ok) as (d & peer & Hp & Hout & H).
    + vm_compute. reflexivity.
    + reflexivity.
    + discriminate.
    + vm_compute in Hout. injection Hout as <- <-. apply H; [reflexivity..|]. vm_compute. lia.
  - destruct (scion_delivery no_parser good_io (mkIO 9 None None) "EU" vote tr tr conn0
                (Send no_parser good_io "EU" vote tr conn0).1 cr (addr_of true) [] vote_ok) as (d & peer & Hp & Hout & H).
    + vm_compute. reflexivity.
    + reflexivity.
    + discriminate.
    + vm_compute in Hout. injection Hout as <- <-. apply H; reflexivity.
Defined.

(** A message longer than the buffer is cut and then refused. *)
Definition long_vote : ConsensusMessage :=
  mkMsg "vote" "tx-1" "CH" 1 (string_of (repeat 65 3000)) 1700000000000000000.
Example long_message_lost :
  match cn_out (Send no_parser good_io "EU" long_vote tr conn0).1 with
  | [(data, peer)] =>
    match Receive no_parser good_io tr (with_in [(data, Some peer)] conn0) with
    | Some (_, Err (ScionUnmarshaling _)) => true
    | _ => false
    end
  | _ => false
  end = true.
Proof. vm_compute. reflexivity. Qed.

Definition demo_ops : list (pc (H := two_ases) (H0 := demo_addr)) := [SendStart None "EU" vote; RecvStart (Some 5); CloseStart].

(** One run: the send, then the receive that times out, then the close. *)
Definition demo_steps : list (nat * outcome) :=
  [(0%nat, Works); (0%nat, Works); (0%nat, Works); (1%nat, Works); (1%nat, Works); (1%nat, Fails);
   (2%nat, Works); (2%nat, Works); (2%nat, Works)].
Definition run_steps (n : node) (steps : list (nat * outcome)) : option node :=
  foldl (λ o x, n ← o; thread_step no_parser x.1 x.2 n) (Some n) steps.
Definition demo_run : node := Eval vm_compute in
  match run_steps (start_node tr conn0 demo_ops) demo_steps with Some n => n | None => start_node tr conn0 [] end.

Lemma run_nsteps steps : ∀ n n', run_steps n steps = Some n' →
  nsteps (node_step no_parser) (length steps) n n'.
Proof.
  unfold run_steps. induction steps as [|[i o] steps IH]; intros n n'; cbn [foldl length]; [intros [= ->]; constructor|].
  cbn [mbind option_bind fst snd]. destruct (thread_step no_parser i o n) as [n1|] eqn:Hs; intros Hr.
  - eapply nsteps_l; [by eapply NodeStep|by apply IH].
  - exfalso. clear -Hr. by induction steps.
Qed.

Lemma scion_operations_end_witness :
  nd_threads demo_run = [Done; Done; Done] ∧ length (cn_out (nd_conn demo_run)) = 1%nat ∧ (9 ≤ 3 * length demo_ops)%nat.
Proof.
  split; [reflexivity|]. split; [reflexivity|].
  apply (scion_operations_end no_parser tr conn0 demo_ops 9 demo_run); [repeat constructor|].
  apply (run_nsteps demo_steps). vm_compute. reflexivity.
Defined.

Lemma scion_listeners_deadlock_witness :
  ∃ s, rtc (sys_step no_parser) [listening tr [SendStart None "EU" vote; CloseStart]; listening tr [SendStart None "EU" vote]] s ∧
    ∀ s', rtc (sys_step no_parser) s s' → length s' = 2%nat ∧ Forall held s'.
Proof.
  apply (scion_listeners_deadlock no_parser [(tr, [SendStart None "EU" vote; CloseStart]); (tr, [SendStart None "EU" vote])]).
  repeat constructor.
Defined.

Lemma scion_broadcast_reaches_peers_witness :
  ∃ data c', Broadcast no_parser (λ _, good_io) ["EU"] vote tr conn0 = (c', None) ∧ cn_out c' = [(data, addr_of false)].
Proof.
  destruct (scion_broadcast_reaches_peers no_parser "CH" vals peers ["EU"] (λ _, good_io) vote conn0) as (data & c' & Hb & Hout & _).
  - apply (bool_decide_unpack _). vm_compute. exact I.
  - vm_compute. reflexivity.
  - vm_compute. reflexivity.
  - exact vote_ok.
  - reflexivity.
  - reflexivity.
  - intros id. split; reflexivity.
  - exists data, c'. split; [exact Hb|]. rewrite Hout. vm_compute. reflexivity.
Defined.
End DemoTransport.
