(* ===== verification/Validator.v ===== *)
(** * Threshold attestations and receipt validation

    [src/internal/security/threshold.go] and [validator.go]. *)

From S2P Require Import Prelude GoJson Sha256 Model Replay Bolt ReceiptStore Receipt.

(** ** threshold.go *)
Record OracleInstance := mkOracle {
  o_ID : string;
  o_PrivateKey : bytes;
  o_PublicKey : bytes
}.

Record ThresholdOracle := mkTO {
  to_K : Z;
  to_N : Z;
  to_Oracles : list OracleInstance
}.

Inductive threshold_err :=
| ThresholdTooSmall (k : Z)
| ThresholdExceedsTotal (k n : Z)
| GeneratingOracleKey (i : Z) (e : string)
| OracleIndexOutOfRange (i n : Z)
| InsufficientSignatures (got need : Z)
| TooFewValidSignatures (valid need : Z).

Section Threshold.
Context `{!Ed25519}.

(** The key generation loop; [seeds i] is the outcome of the [i]th
    [GenerateKey]. *)
Fixpoint gen_oracles (seeds : nat → res string bytes) (i n : nat) : res threshold_err (list OracleInstance) :=
  match n with
  | O => Ok []
  | S n' =>
    s ← map_err (GeneratingOracleKey (Z.of_nat i)) (seeds i);
    rest ← gen_oracles seeds (S i) n';
    Ok (mkOracle ("oracle-" +:+ pretty (Z.of_nat i)) (ed_from_seed s) (ed_public (ed_from_seed s)) :: rest)
  end.

Definition NewThresholdOracle (seeds : nat → res string bytes) (k n : Z) : res threshold_err ThresholdOracle :=
  if k <? 1 then Err (ThresholdTooSmall k)
  else if n <? k then Err (ThresholdExceedsTotal k n)
  else
    oracles ← gen_oracles seeds 0 (Z.to_nat n);
    Ok (mkTO k n oracles).

Definition PartialSign (to : ThresholdOracle) (oracleIdx : Z) (data : bytes) : res threshold_err ThresholdSignature :=
  if (oracleIdx <? 0) || (to_N to <=? oracleIdx) then Err (OracleIndexOutOfRange oracleIdx (to_N to))
  else match to_Oracles to !! Z.to_nat oracleIdx with
       | None => Panic
       | Some o =>
         sig ← ed25519_Sign (o_PrivateKey o) data;
         Ok (mkThSig (o_ID o) sig (o_PublicKey o))
       end.

(** The loop of [SignThreshold] from index [i], [n] rounds left. *)
Fixpoint sign_loop (to : ThresholdOracle) (data : bytes) (i n : nat) : res threshold_err (list ThresholdSignature) :=
  match n with
  | O => Ok []
  | S n' =>
    sig ← PartialSign to (Z.of_nat i) data;
    rest ← sign_loop to data (S i) n';
    Ok (sig :: rest)
  end.

Definition SignThreshold (to : ThresholdOracle) (data : bytes) :
    res threshold_err (list ThresholdSignature * Z * Z) :=
  sigs ← sign_loop to data 0 (Z.to_nat (to_K to));
  Ok (sigs, to_K to, to_N to).

(** The loop of [ThresholdOracle.Verify]. *)
Fixpoint count_valid (known seen : gset string) (data : bytes) (sigs : list ThresholdSignature) : res threshold_err Z :=
  match sigs with
  | [] => Ok 0
  | ps :: sigs' =>
    if bool_decide (ts_OracleID ps ∈ seen) then count_valid known seen data sigs'
    else
      let seen' := {[ts_OracleID ps]} ∪ seen in
      if negb (bool_decide (ts_PublicKey ps ∈ known)) then count_valid known seen' data sigs'
      else
        ok ← ed25519_Verify (ts_PublicKey ps) data (ts_Signature ps);
        n ← count_valid known seen' data sigs';
        Ok (if (ok : bool) then 1 + n else n)
  end.

Definition ThresholdVerify (to : ThresholdOracle) (data : bytes) (sigs : list ThresholdSignature) : res threshold_err bool :=
  if Z.of_nat (length sigs) <? to_K to then Err (InsufficientSignatures (Z.of_nat (length sigs)) (to_K to))
  else
    n ← count_valid (list_to_set (o_PublicKey <$> to_Oracles to)) ∅ data sigs;
    if to_K to <=? n then Ok true else Err (TooFewValidSignatures n (to_K to)).

(** ** validator.go *)
Record ReceiptValidator := mkRV {
  rv_replayDetector : ReplayDetector;
  rv_maxAge : Z;
  rv_trustedKeys : gset bytes;
  rv_thresholdKeys : gset bytes
}.

Definition NewReceiptValidator (maxAge : Z) : ReceiptValidator := mkRV (NewReplayDetector maxAge) maxAge ∅ ∅.

Definition TrustOracleKey (key : bytes) (rv : ReceiptValidator) : ReceiptValidator :=
  mkRV (rv_replayDetector rv) (rv_maxAge rv) ({[key]} ∪ rv_trustedKeys rv) (rv_thresholdKeys rv).
Definition TrustThresholdOracleKey (key : bytes) (rv : ReceiptValidator) : ReceiptValidator :=
  mkRV (rv_replayDetector rv) (rv_maxAge rv) (rv_trustedKeys rv) ({[key]} ∪ rv_thresholdKeys rv).

(** An empty set of keys trusts every key. *)
Definition isTrustedKey (rv : ReceiptValidator) (key : bytes) : bool :=
  bool_decide (rv_trustedKeys rv = ∅) || bool_decide (key ∈ rv_trustedKeys rv).
Definition isTrustedThresholdKey (rv : ReceiptValidator) (key : bytes) : bool :=
  bool_decide (rv_thresholdKeys rv = ∅) || bool_decide (key ∈ rv_thresholdKeys rv).

Inductive valid_err :=
| SignatureVerificationError (e : string)
| InvalidSignature (id : string)
| UntrustedOracleKey (id : string)
| InvalidThresholdK (id : string) (k : Z)
| InvalidThresholdN (id : string) (n : Z)
| ThresholdKExceedsN (id : string) (k n : Z)
| InsufficientThresholdSignatures (id : string) (got need : Z)
| TooManyThresholdSignatures (id : string) (got n : Z)
| ThresholdPayloadError (id e : string)
| EmptyOracleID (id : string)
| DuplicateThresholdOracle (id oracle : string)
| ThresholdKeyLength (id oracle : string)
| UntrustedThresholdKey (id oracle : string)
| InvalidThresholdSignature (id oracle : string)
| ReceiptExpired (id : string) (age maxAge : Z)
| ReplayCheckFailed (id : string) (e : replay_err)
| EmptyChain
| ChainSeqBroken (i expected got : Z)
| ChainNilPrevious (i : Z)
| ChainHashMismatch (i : Z)
| ChainUntrustedRotation (i : Z)
| ChainReceiptError (i : Z) (id : string) (e : valid_err).

(** The loop over the threshold signatures. *)
Fixpoint threshold_loop (rv : ReceiptValidator) (id : string) (payload : bytes) (seen : gset string)
    (sigs : list ThresholdSignature) : res valid_err unit :=
  match sigs with
  | [] => Ok tt
  | sig :: sigs' =>
    if bool_decide (ts_OracleID sig = "") then Err (EmptyOracleID id)
    else if bool_decide (ts_OracleID sig ∈ seen) then Err (DuplicateThresholdOracle id (ts_OracleID sig))
    else if negb (len (ts_PublicKey sig) =? PublicKeySize) then Err (ThresholdKeyLength id (ts_OracleID sig))
    else if negb (isTrustedThresholdKey rv (ts_PublicKey sig)) then Err (UntrustedThresholdKey id (ts_OracleID sig))
    else
      ok ← ed25519_Verify (ts_PublicKey sig) payload (ts_Signature sig);
      if negb ok then Err (InvalidThresholdSignature id (ts_OracleID sig))
      else threshold_loop rv id payload ({[ts_OracleID sig]} ∪ seen) sigs'
  end.

Definition validateThresholdAttestations (rv : ReceiptValidator) (r : receipt) : res valid_err unit :=
  let k := r_ThresholdK r in
  let n := r_ThresholdN r in
  let sigs := r_ThresholdSignatures r in
  let count := Z.of_nat (length sigs) in
  if (k =? 0) && (n =? 0) && (count =? 0) then Ok tt
  else if k <? 1 then Err (InvalidThresholdK (r_ID r) k)
  else if n <? 1 then Err (InvalidThresholdN (r_ID r) n)
  else if n <? k then Err (ThresholdKExceedsN (r_ID r) k n)
  else if count <? k then Err (InsufficientThresholdSignatures (r_ID r) count k)
  else if n <? count then Err (TooManyThresholdSignatures (r_ID r) count n)
  else
    payload ← map_err (ThresholdPayloadError (r_ID r)) (SigningPayload r);
    threshold_loop rv (r_ID r) payload ∅ sigs.

(** [ValidateReceipt]; [since] is the clock reading of [time.Since], [now] and
    [now'] those of the replay check. *)
Definition ValidateReceipt (since now now' : Z) (r : receipt) (rv : ReceiptValidator) : ReceiptValidator * res valid_err unit :=
  let checks : res valid_err unit :=
    valid ← map_err SignatureVerificationError (Verify r);
    if negb valid then Err (InvalidSignature (r_ID r))
    else if negb (isTrustedKey rv (r_OraclePublicKey r)) then Err (UntrustedOracleKey (r_ID r))
    else
      _ ← validateThresholdAttestations rv r;
      let age := time_sub since (r_Timestamp r) in
      if rv_maxAge rv <? age then Err (ReceiptExpired (r_ID r) age (rv_maxAge rv)) else Ok tt in
  match checks with
  | Ok _ =>
    let '(rd, x) := Check now now' (hex (r_OraclePublicKey r)) (r_SeqNo r) (r_Timestamp r) (rv_replayDetector rv) in
    (mkRV rd (rv_maxAge rv) (rv_trustedKeys rv) (rv_thresholdKeys rv), map_err (ReplayCheckFailed (r_ID r)) x)
  | Err e => (rv, Err e)
  | Panic => (rv, Panic)
  end.

(** The checks between adjacent receipts. *)
Definition check_link (rv : ReceiptValidator) (i : Z) (prev r : receipt) : res valid_err unit :=
  if negb (r_SeqNo r =? u64 (r_SeqNo prev + 1)) then Err (ChainSeqBroken i (u64 (r_SeqNo prev + 1)) (r_SeqNo r))
  else match r_PreviousHash r with
       | None => Err (ChainNilPrevious i)
       | Some h =>
         if negb (bool_decide (h = sha256 (r_Signature prev))) then Err (ChainHashMismatch i)
         else if negb (bool_decide (r_OraclePublicKey r = r_OraclePublicKey prev)) &&
                 (negb (isTrustedKey rv (r_OraclePublicKey prev)) || negb (isTrustedKey rv (r_OraclePublicKey r)))
         then Err (ChainUntrustedRotation i)
         else Ok tt
       end.

(** The checks of one receipt of a chain. *)
Definition check_one (rv : ReceiptValidator) (i : Z) (r : receipt) : res valid_err unit :=
  valid ← map_err (λ e, ChainReceiptError i (r_ID r) (SignatureVerificationError e)) (Verify r);
  if negb valid then Err (ChainReceiptError i (r_ID r) (InvalidSignature (r_ID r)))
  else if negb (isTrustedKey rv (r_OraclePublicKey r)) then Err (ChainReceiptError i (r_ID r) (UntrustedOracleKey (r_ID r)))
  else map_err (ChainReceiptError i (r_ID r)) (validateThresholdAttestations rv r).

Fixpoint chain_loop (rv : ReceiptValidator) (i : Z) (prev : option receipt) (rs : list receipt) : res valid_err unit :=
  match rs with
  | [] => Ok tt
  | r :: rs' =>
    _ ← match prev with None => Ok tt | Some p => check_link rv i p r end;
    _ ← check_one rv i r;
    chain_loop rv (i + 1) (Some r) rs'
  end.

Definition ValidateReceiptChain (rv : ReceiptValidator) (rs : list receipt) : res valid_err unit :=
  if bool_decide (rs = []) then Err EmptyChain else chain_loop rv 0 None rs.
End Threshold.

(** ** Specification of a valid chain *)
Section Chain.
Context `{!Ed25519}.

(** A receipt that stands on its own. *)
Definition authentic (rv : ReceiptValidator) (r : receipt) : Prop :=
  Verify r = Ok true ∧ isTrustedKey rv (r_OraclePublicKey r) = true ∧ validateThresholdAttestations rv r = Ok tt.

(** A receipt that continues another. *)
Definition continues (a b : receipt) : Prop :=
  r_SeqNo b = u64 (r_SeqNo a + 1) ∧ r_PreviousHash b = Some (sha256 (r_Signature a)).

Fixpoint linked (rs : list receipt) : Prop :=
  match rs with
  | a :: (b :: _) as rs' => continues a b ∧ linked rs'
  | _ => True
  end.

Lemma check_one_Ok rv i r : check_one rv i r = Ok tt ↔ authentic rv r.
Proof.
  unfold check_one, authentic. destruct (Verify r) as [[]|e|]; simpl; [|split; [done|by intros (? & _)]..].
  destruct (isTrustedKey rv _); simpl; [|split; [done|by intros (_ & ? & _)]].
  rewrite map_err_Ok. tauto.
Qed.

Lemma check_link_Ok rv i a b : authentic rv a → authentic rv b → check_link rv i a b = Ok tt ↔ continues a b.
Proof.
  intros (_ & Ha & _) (_ & Hb & _). unfold check_link, continues. rewrite Ha, Hb. simpl. rewrite andb_false_r.
  destruct (_ =? _) eqn:E; zbool; simpl; [|split; [done|by intros [? _]]].
  destruct (r_PreviousHash b) as [h|]; [|split; [done|by intros [_ ?]]].
  case_bool_decide as Hh; simpl; split; intros; try done.
  - by subst.
  - by simplify_eq; intuition congruence.
Qed.

Lemma chain_loop_Ok rv i prev rs : (∀ p, prev = Some p → authentic rv p) →
  chain_loop rv i prev rs = Ok tt ↔
  (∀ r, r ∈ rs → authentic rv r) ∧ linked (match prev with Some p => p :: rs | None => rs end).
Proof.
  revert i prev. induction rs as [|r rs IH]; intros i prev Hprev; simpl.
  - split; [|done]. intros _. split; [by intros r []%not_elem_of_nil|by destruct prev].
  - split.
    + intros Hc. inv_ok. destruct x0. apply check_one_Ok in Hm0. apply IH in Hc as [Hall Hl]; [|by intros p [= <-]].
      split; [intros y [->|Hy]%elem_of_cons; auto|]. destruct prev as [p|]; [|done].
      split; [|done]. destruct x. apply (check_link_Ok rv i p r); auto.
    + intros [Hall Hl]. assert (authentic rv r) as Hr by (apply Hall; by left).
      assert (match prev with None => Ok tt | Some p => check_link rv i p r end = Ok tt) as ->.
      { destruct prev as [p|]; [|done]. apply check_link_Ok; [auto|auto|apply Hl]. }
      simpl. rewrite (proj2 (check_one_Ok rv i r) Hr). simpl. apply IH; [by intros p [= <-]|].
      split; [intros; apply Hall; by right|]. destruct prev; [apply Hl|done].
Qed.

Lemma ValidateReceiptChain_Ok rv rs :
  ValidateReceiptChain rv rs = Ok tt ↔ rs ≠ [] ∧ (∀ r, r ∈ rs → authentic rv r) ∧ linked rs.
Proof.
  unfold ValidateReceiptChain. case_bool_decide; [split; [done|tauto]|].
  rewrite chain_loop_Ok by done. tauto.
Qed.

Lemma linked_snoc l a b : linked (l ++ [a]) → continues a b → linked ((l ++ [a]) ++ [b]).
Proof.
  induction l as [|x l IH]; [done|]. destruct l as [|y l]; simpl in *; [tauto|].
  intros [Hx Hl] Hc. split; [done|]. by apply IH.
Qed.

Lemma linked_lookup rs : linked rs ↔ ∀ i a b, rs !! i = Some a → rs !! S i = Some b → continues a b.
Proof.
  induction rs as [|a rs IH]; [done|]. destruct rs as [|b rs].
  - split; [|done]. intros _ [|i] x y; simpl; done.
  - change (linked (a :: b :: rs)) with (continues a b ∧ linked (b :: rs)). rewrite IH. split.
    + intros [Hab Hl] [|i] x y Hx Hy; simpl in Hx, Hy; [by simplify_eq|by apply (Hl i)].
    + intros Hl. split; [by apply (Hl 0%nat)|]. intros i x y Hx Hy. by apply (Hl (S i)).
Qed.

(** A range of sequence numbers cuts a linked piece out of an increasing chain. *)
Lemma linked_range l a b : increasing l → linked l → linked (filter (λ r, a ≤ r_SeqNo r ≤ b) l).
Proof.
  induction l as [|x l IH]; intros Hinc Hl; [done|]. inversion Hinc as [|?? Hs Hall]; subst.
  assert (linked l) as Hl' by (destruct l; [done|apply Hl]). specialize (IH Hs Hl').
  rewrite filter_cons. case_decide as Hx; [|done]. destruct l as [|y l]; [done|].
  inversion Hs as [|?? Hs' Hall']; subst. inversion Hall as [|?? Hxy _]; subst.
  rewrite filter_cons in *. case_decide as Hy; [split; [apply Hl|done]|].
  assert (filter (λ r, a ≤ r_SeqNo r ≤ b) l = []) as ->; [|done].
  clear -Hall' Hy Hx Hxy. induction Hall' as [|z l Hz _ IH]; [done|]. rewrite filter_cons_False by lia. exact IH.
Qed.

Lemma authentic_range rv (l : list receipt) a b : (∀ r, r ∈ l → authentic rv r) →
  ∀ r, r ∈ filter (λ r, a ≤ r_SeqNo r ≤ b) l → authentic rv r.
Proof. intros Hall r [_ Hr]%list_elem_of_filter. by apply Hall. Qed.

(** ** The oracle at work *)

(** A signer whose signatures pass the validator's threshold checks. *)
Definition signer_ok (rv : ReceiptValidator) (sg : option ThresholdSigner) : Prop :=
  ∀ signer payload r, sg = Some signer → marshalForSigning r = Ok payload →
    signer payload = Ok (r_ThresholdSignatures r, r_ThresholdK r, r_ThresholdN r) →
    validateThresholdAttestations rv r = Ok tt.

(** The steps of an oracle process over a store: issuing with any fault, where a
    receipt that was appended survives the encoding of the store, rotating
    the key to one the validator trusts, configuring providers, and restarting
    with the current key file, whose key must have signed the last receipt. *)
Inductive oracle_step {S} `{!Store S, !StoreLaws S} (rv : ReceiptValidator) : Generator * S → Generator * S → Prop :=
| StepIssue f id now txID policyID path g s g' s' x :
    g_seqNo g < 2 ^ 64 - 1 →
    IssueAndAppend f id now txID policyID path g s = (g', s', x) →
    (∀ r, x = Ok r → st_readable r) →
    oracle_step rv (g, s) (g', s')
| StepRotate seed stamp ff path files g s g' files' x :
    len seed = SeedSize → isTrustedKey rv (ed_public (ed_from_seed seed)) = true →
    RotateKeyFile (Ok seed) stamp ff path g files = (g', files', x) →
    oracle_step rv (g, s) (g', s)
| StepConfigure p sg g s :
    signer_ok rv sg → oracle_step rv (g, s) (WithThresholdSigner sg (WithProofProvider p g), s)
| StepRestart g s g1 x :
    (∀ r, store_Last NoFault s = Ok (Some r) → r_OraclePublicKey r = g_publicKey g) →
    SeedChain NoFault s (NewGeneratorWithKeys (g_privateKey g) (g_publicKey g)) = (g1, x) →
    oracle_step rv (g, s) (g1, s).

(** The chain state of the generator is that of the last stored receipt. *)
Record oracle_inv {S} `{!Store S, !StoreLaws S} (rv : ReceiptValidator) (g : Generator) (s : S) (l : list receipt) : Prop := {
  oi_rep : st_rep s l;
  oi_readable : ∀ r, r ∈ l → st_readable r;
  oi_increasing : increasing l;
  oi_below : ∀ r, r ∈ l → r_SeqNo r ≤ g_seqNo g;
  oi_seq : 0 ≤ g_seqNo g < 2 ^ 64;
  oi_keys : keys_ok g;
  oi_trusted : isTrustedKey rv (g_publicKey g) = true;
  oi_signer : signer_ok rv (g_threshold g);
  oi_authentic : ∀ r, r ∈ l → authentic rv r;
  oi_linked : linked l;
  oi_last : match last l with
            | None => True
            | Some r => g_seqNo g = r_SeqNo r ∧ g_lastHash g = Some (sha256 (r_Signature r))
            end
}.

Context `{!Ed25519Laws}.

Lemma RotateKeyFile_gen seed stamp ff path g files :
  (RotateKeyFile (Ok seed) stamp ff path g files).1.1 = g ∨
  (RotateKeyFile (Ok seed) stamp ff path g files).1.1 = set_keys (ed_from_seed seed) (ed_public (ed_from_seed seed)) g.
Proof.
  unfold RotateKeyFile. destruct (ff_mkdir ff); [by left|].
  destruct (writeTempKeyFile _ _ _) as [files1 [tmp|e|]]; [|by left..]. cbv zeta.
  destruct (match ff_stat ff with Some _ => _ | None => _ end) as [files2 [arch|e|]]; [|by left..].
  destruct (rename (ff_rename2 ff) tmp path files2) as [files3 [e|]]; [|by right].
  destruct (bool_decide _); [by left|]. destruct (rename _ _ _ _) as [files4 [e3|]]; by left.
Qed.

Section Steps.
Context {S : Type} `{!Store S, !StoreLaws S} (rv : ReceiptValidator).

Lemma built_authentic now id txID policyID path g r h :
  keys_ok g → isTrustedKey rv (g_publicKey g) = true → signer_ok rv (g_threshold g) →
  built now id txID policyID path g r h → authentic rv r.
Proof.
  intros Hk Ht Hs Hb. split_and!.
  - by eapply built_verifies.
  - by rewrite (b_key _ _ _ _ _ _ _ _ Hb).
  - destruct (b_sig _ _ _ _ _ _ _ _ Hb) as (payload & Hm & _ & Hth). destruct (g_threshold g) as [signer|] eqn:E.
    + by apply (Hs signer payload).
    + destruct Hth as (H1 & H2 & H3). unfold validateThresholdAttestations. by rewrite H1, H2, H3.
Qed.

Lemma inv_issue f id now txID policyID path g g' (s s' : S) l x :
  oracle_inv rv g s l → g_seqNo g < 2 ^ 64 - 1 →
  IssueAndAppend f id now txID policyID path g s = (g', s', x) → (∀ r, x = Ok r → st_readable r) →
  oracle_inv rv g' s' (l ++ match x with Ok r => [r] | _ => [] end).
Proof.
  intros [Hrep Hread Hinc Hbelow Hseq Hk Ht Hsg Hauth Hl Hlast] Hmax Hi Hv.
  destruct (default_proofs_keep g) as (K1 & K2 & K3 & K4 & K5).
  destruct (IssueAndAppend_cases f id now txID policyID path g g' s s' l x Hrep Hi)
    as [(-> & -> & Hx)|(r & h & -> & Hb & Hrep' & _ & ->)].
  - assert (match x with Ok r => [r] | _ => [] end = []) as -> by (by destruct x).
    rewrite app_nil_r. split; unfold keys_ok in *; rewrite ?K1, ?K2, ?K3, ?K4, ?K5; done.
  - pose proof (built_authentic _ _ _ _ _ _ _ _ Hk Ht Hsg Hb) as Hr.
    destruct Hb as [_ _ _ _ _ _ _ _ Hs Hp Hkey Hh _]. rewrite u64_id in Hs by (unfold is_u64; lia).
    split; simpl; rewrite ?K1, ?K2, ?K5; try done.
    + intros y [Hy| ->%list_elem_of_singleton]%elem_of_app; auto.
    + apply increasing_snoc; [done|]. intros y Hy%Hbelow. lia.
    + intros y [Hy%Hbelow| ->%list_elem_of_singleton]%elem_of_app; lia.
    + lia.
    + unfold keys_ok in *. simpl. by rewrite K1, K2.
    + intros y [Hy| ->%list_elem_of_singleton]%elem_of_app; auto.
    + destruct (last l) as [p|] eqn:E; [|apply last_None in E as ->; done].
      destruct Hlast as [Hls Hlh]. apply last_Some in E as [l' ->]. apply linked_snoc; [done|].
      split; [rewrite u64_id by (unfold is_u64; lia); congruence|congruence].
    + rewrite last_snoc. split; [done|]. by rewrite Hh.
Qed.

Lemma inv_rotate seed g g' (s : S) l : len seed = SeedSize → isTrustedKey rv (ed_public (ed_from_seed seed)) = true →
  g' = g ∨ g' = set_keys (ed_from_seed seed) (ed_public (ed_from_seed seed)) g →
  oracle_inv rv g s l → oracle_inv rv g' s l.
Proof.
  intros Hlen Ht [->| ->]; [done|]. intros []. split; simpl; try done.
  split; [by apply ed_from_seed_length|done].
Qed.

Lemma inv_restart g g1 (s : S) l x :
  (∀ r, store_Last NoFault s = Ok (Some r) → r_OraclePublicKey r = g_publicKey g) →
  SeedChain NoFault s (NewGeneratorWithKeys (g_privateKey g) (g_publicKey g)) = (g1, x) →
  oracle_inv rv g s l → oracle_inv rv g1 s l.
Proof.
  intros Hkey Hseed [Hrep Hread Hinc Hbelow Hseq Hk Ht Hsg Hauth Hl Hlast].
  assert (signer_ok rv None) as Hno by (by intros ? ? ? ?).
  unfold SeedChain in Hseed.
  assert (store_Last NoFault s = Ok (last l)) as Hsl
    by (apply st_last; [done|done|]; intros r Hr; by apply Hread, last_Some_elem_of).
  rewrite Hsl in Hseed. rewrite Hsl in Hkey.
  destruct (last l) as [r|] eqn:E.
  - rewrite (Hkey r eq_refl) in Hseed. simpl in Hseed. rewrite bool_decide_true in Hseed by done.
    injection Hseed as <- <-. destruct Hlast as [Hls Hlh]. split; simpl; try done.
    + intros y Hy. rewrite <- Hls. by apply Hbelow.
    + lia.
    + by rewrite E.
  - injection Hseed as <- <-. apply last_None in E as ->. split; simpl; try done.
    intros y []%not_elem_of_nil.
Qed.

(** Every reachable state satisfies the invariant. *)
Lemma oracle_reachable g0 s0 g s :
  oracle_inv rv g0 s0 [] → rtc (oracle_step rv) (g0, s0) (g, s) → ∃ l, oracle_inv rv g s l.
Proof.
  intros Hinit Hr. assert (∃ l, oracle_inv rv (g, s).1 (g, s).2 l) as Hg; [|exact Hg].
  revert Hr. generalize (g, s) as st. intros st Hr. remember (g0, s0) as st0 eqn:Hst0.
  assert (∃ l, oracle_inv rv st0.1 st0.2 l) as Hinv by (subst; eauto). clear Hinit Hst0 g0 s0 g s.
  induction Hr as [st|st1 st2 st3 Hstep _ IH]; [done|]. apply IH. destruct Hinv as [l Hinv].
  destruct Hstep as [f id now txID policyID path g s g' s' x Hmax Hi Hv
    |seed stamp ff path files g s g' files' x Hlen Ht Hrot|p sg g s Hsg|g s g1 x Hkey Hseed]; cbn [fst snd] in *.
  - eexists. by eapply inv_issue.
  - exists l. apply (inv_rotate seed g); try done.
    pose proof (RotateKeyFile_gen seed stamp ff path g files) as Hg. by rewrite Hrot in Hg.
  - exists l. by destruct Hinv; split.
  - exists l. by eapply inv_restart.
Qed.
End Steps.
End Chain.

(** ** Properties of chains *)
Section Properties.
Context `{!Ed25519, !Ed25519Laws}.

(** C1. The oracle's chain always validates.  Start from any store that is empty
    and keeps its promises and a generator with a trusted key pair; issue
    receipts in any number, with any fault of the database, rotate the key to
    trusted keys, reconfigure proof providers and threshold signers, restart and
    reseed from the store as long as the current key signed the last receipt.
    The appended receipts survive the encoding of the store, the sequence number
    stays below 2^64-1, and a configured threshold signer produces attestations
    the validator accepts (see [threshold_signing_accepted]).  Whatever range of sequence numbers is then read back, the receipts pass
    [ValidateReceiptChain], or the range is empty. *)
Theorem oracle_chain_validates {S} `{!Store S, !StoreLaws S} (rv : ReceiptValidator) (g0 g : Generator) (s0 s : S)
    (a b : Z) (rs : list receipt) :
  st_rep s0 [] → keys_ok g0 → g_seqNo g0 = 0 → isTrustedKey rv (g_publicKey g0) = true →
  signer_ok rv (g_threshold g0) → is_u64 a →
  rtc (oracle_step rv) (g0, s0) (g, s) →
  store_ListRange NoFault a b s = Ok rs → rs = [] ∨ ValidateReceiptChain rv rs = Ok tt.
Proof.
  intros Hrep Hk Hs Ht Hsg Ha Hr Hrs. destruct (oracle_reachable rv g0 s0 g s) as [l Hinv]; [|done|].
  { split; try done; [by intros r []%not_elem_of_nil|constructor|by intros r []%not_elem_of_nil|lia|by intros r []%not_elem_of_nil]. }
  destruct Hinv as [Hrep' Hread Hinc _ _ _ _ _ Hauth Hl _]. rewrite (st_range s l a b Hrep' Hinc Ha) in Hrs by auto. simplify_eq.
  destruct (decide (filter (λ r, a ≤ r_SeqNo r ≤ b) l = [])) as [|Hne]; [by left|]. right.
  apply ValidateReceiptChain_Ok. split_and!; [done|by apply authentic_range|by apply linked_range].
Qed.

(** C16. What a validated chain means.  [ValidateReceiptChain] accepts exactly the
    nonempty sequences in which every receipt carries a valid signature of a
    trusted key with valid threshold attestations, every sequence number is one
    above the previous one, and every previous hash is the SHA-256 of the
    previous signature; the separate rotation rule adds nothing to these. *)
Theorem validated_chain_iff (rv : ReceiptValidator) (rs : list receipt) :
  ValidateReceiptChain rv rs = Ok tt ↔
  rs ≠ [] ∧ (∀ r, r ∈ rs → authentic rv r) ∧
  ∀ i a b, rs !! i = Some a → rs !! S i = Some b →
    r_SeqNo b = u64 (r_SeqNo a + 1) ∧ r_PreviousHash b = Some (sha256 (r_Signature a)).
Proof. rewrite ValidateReceiptChain_Ok, linked_lookup. done. Qed.

Lemma chain_loop_app rv i prev l r p : chain_loop rv i prev l = Ok tt → last l = Some p →
  chain_loop rv i prev (l ++ [r]) = chain_loop rv (i + Z.of_nat (length l)) (Some p) [r].
Proof.
  revert i prev. induction l as [|x l IH]; intros i prev Hc Hp; [done|]. cbn [chain_loop] in Hc. inv_ok.
  cbn [app]. cbn [chain_loop]. rewrite Hm, Hm0. cbn [mbind res_bind]. destruct l as [|y l].
  - injection Hp as <-. done.
  - assert (i + Z.of_nat (length (x :: y :: l)) = i + 1 + Z.of_nat (length (y :: l))) as -> by (cbn [length]; lia).
    apply (IH (i + 1) (Some x) Hc Hp).
Qed.

(** C36. A rotation followed by a restart breaks the chain.  If the key file was
    rotated and the process restarts before issuing a receipt, [SeedChain] finds
    the last receipt signed by another key and leaves the previous hash nil; the
    next receipt of a chain that validated so far then fails validation at its
    position, for every validator, trusted keys or not. *)
Theorem rotation_then_restart_breaks_chain {S} `{!Store S, !StoreLaws S} (rv : ReceiptValidator) (s : S)
    (l : list receipt) (p : receipt) (priv pub : bytes) (g1 g2 : Generator) (id : string) (now : Z)
    (txID policyID : string) (path : SCIONPath) (r : receipt) :
  st_rep s l → increasing l → last l = Some p → st_readable p → ValidateReceiptChain rv l = Ok tt →
  r_OraclePublicKey p ≠ pub →
  SeedChain NoFault s (NewGeneratorWithKeys priv pub) = (g1, Ok tt) →
  Issue id now txID policyID path g1 = (g2, Ok r) →
  ValidateReceiptChain rv (l ++ [r]) = Err (ChainNilPrevious (Z.of_nat (length l))).
Proof.
  intros Hrep Hinc Hp Hread Hval Hne Hseed Hi. unfold SeedChain in Hseed.
  rewrite (st_last s l Hrep Hinc), Hp in Hseed by (intros ? Hq; by rewrite Hp in Hq; simplify_eq).
  simpl in Hseed. rewrite bool_decide_false in Hseed by done. injection Hseed as <-.
  unfold Issue in Hi. destruct (buildReceiptLocked _ _ _ _ _ _) as [g3 [[r3 h]|e|]] eqn:Hb; simplify_eq.
  apply buildReceiptLocked_Ok in Hb as [_ Hb]. unfold ValidateReceiptChain in *.
  rewrite bool_decide_false by (by destruct l). case_bool_decide; [done|].
  rewrite (chain_loop_app rv 0 None l r p Hval Hp). cbn [chain_loop]. unfold check_link.
  rewrite (b_seq _ _ _ _ _ _ _ _ Hb), (b_prev _ _ _ _ _ _ _ _ Hb). simpl.
  by rewrite Z.eqb_refl.
Qed.

(** A receipt validates once.  After [ValidateReceipt] has accepted a
    receipt, presenting it to the same validator again is refused at every later
    time: it is expired by age or found by the replay detector. *)
Theorem receipt_validates_once (since now now' : Z) (r : receipt) (rv rv' : ReceiptValidator)
    (since2 now2 now2' : Z) :
  window_ok (rv_replayDetector rv) → now' ≤ now2 →
  ValidateReceipt since now now' r rv = (rv', Ok tt) →
  authentic rv r ∧ is_ok (ValidateReceipt since2 now2 now2' r rv').2 = false.
Proof.
  intros Hw Hle Hv. unfold ValidateReceipt in Hv. cbv zeta in Hv.
  destruct (Verify r) as [valid|e|] eqn:E1; simpl in Hv; try done. destruct valid; [|done]. simpl in Hv.
  destruct (isTrustedKey rv _) eqn:E2; [|done]. simpl in Hv.
  destruct (validateThresholdAttestations rv r) as [[]|e|] eqn:E3; simpl in Hv; try done.
  destruct (rv_maxAge rv <? _); [done|].
  pose proof (Check_Ok_remembers now now' (hex (r_OraclePublicKey r)) (r_SeqNo r) (r_Timestamp r) _ Hw) as Hrem.
  pose proof (Check_window now now' (hex (r_OraclePublicKey r)) (r_SeqNo r) (r_Timestamp r) (rv_replayDetector rv)) as Hwin.
  destruct (Check now now' _ _ _ _) as [rd x]; simpl in *. injection Hv as <- Hx.
  apply map_err_Ok in Hx as ->. specialize (Hrem eq_refl). split; [done|].
  unfold ValidateReceipt. cbv zeta. destruct (_ ≫= _); [|done..]. cbn [rv_replayDetector].
  assert (is_ok (Check now2 now2' (hex (r_OraclePublicKey r)) (r_SeqNo r) (r_Timestamp r) rd).2 = false) as Hno.
  { apply remembers_refused; [unfold window_ok in *; by rewrite Hwin|]. unfold remembers in *. intuition lia. }
  destruct (Check now2 now2' _ _ _ rd) as [rd2 [[]|e|]]; done.
Qed.

(** What the signature leaves open.  Neither the hop list of the path nor
    the threshold fields are covered by the oracle's signature: replacing the
    hops and dropping all threshold attestations leaves [Verify] unchanged, and a
    receipt with its attestations removed passes chain validation even when the
    validator has threshold keys configured. *)
Theorem signature_omits_hops_and_thresholds (rv : ReceiptValidator) (r : receipt) (hops : list ASHop) :
  let p := r_Path r in
  let r' := mkReceipt (r_ID r) (r_TransactionID r) (r_PolicyID r)
    (mkPath (path_Raw p) hops (path_Fingerprint p) (path_EvidenceClass p) (path_ProofStatus p))
    (r_EvidenceClass r) (r_ProofStatus r) (r_ISDProofs r) (r_SeqNo r) (r_Timestamp r) (r_Signature r)
    (r_OraclePublicKey r) (r_PreviousHash r) 0 0 [] in
  Verify r' = Verify r ∧ (authentic rv r → ValidateReceiptChain rv [r'] = Ok tt).
Proof.
  intros p r'. assert (Verify r' = Verify r) as Hv by done. split; [done|]. intros (H1 & H2 & _).
  apply ValidateReceiptChain_Ok. split_and!; [done| |done]. intros x ->%list_elem_of_singleton.
  split_and!; [by rewrite Hv|done|done].
Qed.

(** A malformed key panics the verifier.  [Verify] returns for every receipt
    whose public key has 32 bytes, and panics for every other key length when the
    timestamp can be encoded, since it hands the key to [ed25519.Verify]
    unchecked. *)
Theorem verify_panics_iff_key_length (r : receipt) (payload : bytes) :
  marshalForSigning r = Ok payload → Verify r = Panic ↔ len (r_OraclePublicKey r) ≠ PublicKeySize.
Proof.
  intros Hm. unfold Verify. rewrite Hm. simpl. unfold ed25519_Verify.
  destruct (len (r_OraclePublicKey r) =? PublicKeySize) eqn:E; zbool; simpl; [|done].
  split; [|done]. destruct (ed_verify _ _ _); [done|]. destruct (negb _); [done|].
  unfold marshalLegacyForSigning, marshalForSigning in *. by destruct (rfc3339nano _).
Qed.
End Properties.

(** ** Properties of threshold attestations *)
Section ThresholdProperties.
Context `{!Ed25519, !Ed25519Laws}.

(** A signature that verifies under a key of the right length. *)
Definition sig_good (data : bytes) (sig : ThresholdSignature) : Prop :=
  len (ts_PublicKey sig) = PublicKeySize ∧ ed_verify (ts_PublicKey sig) data (ts_Signature sig) = true.

Lemma sig_good_verify {E} data sig : sig_good data sig →
  ed25519_Verify (ts_PublicKey sig) data (ts_Signature sig) = Ok (E := E) true.
Proof. intros [Hl Hv]. unfold ed25519_Verify. by rewrite Hl, Hv. Qed.

Lemma count_valid_all known seen data sigs :
  Forall (sig_good data) sigs → NoDup (ts_OracleID <$> sigs) →
  (∀ sig, sig ∈ sigs → (ts_OracleID sig ∉ seen) ∧ (ts_PublicKey sig ∈ known)) →
  count_valid known seen data sigs = Ok (Z.of_nat (length sigs)).
Proof.
  revert seen. induction sigs as [|sig sigs IH]; intros seen Hg Hnd Hin; [done|].
  apply Forall_cons in Hg as [Hs Hg]. apply NoDup_cons in Hnd as [Hn Hnd].
  destruct (Hin sig) as [H1 H2]; [by left|]. cbn [count_valid].
  rewrite bool_decide_false, bool_decide_true by done. cbn [negb]. rewrite sig_good_verify by done. cbn [mbind res_bind].
  rewrite IH; [|done|done|].
  - cbn [mbind res_bind length]. f_equal. lia.
  - intros sig' Hs'. destruct (Hin sig') as [H3 H4]; [by right|]. split; [|done].
    apply not_elem_of_union. split; [|done]. intros Heq%elem_of_singleton. destruct Hn. fold (ts_OracleID <$> sigs).
    rewrite <- Heq. by apply list_elem_of_fmap_2.
Qed.

Lemma threshold_loop_all rv id payload seen sigs :
  Forall (sig_good payload) sigs → NoDup (ts_OracleID <$> sigs) →
  (∀ sig, sig ∈ sigs → (ts_OracleID sig ∉ seen) ∧ ts_OracleID sig ≠ "" ∧ isTrustedThresholdKey rv (ts_PublicKey sig) = true) →
  threshold_loop rv id payload seen sigs = Ok tt.
Proof.
  revert seen. induction sigs as [|sig sigs IH]; intros seen Hg Hnd Hin; [done|].
  apply Forall_cons in Hg as [Hs Hg]. apply NoDup_cons in Hnd as [Hn Hnd].
  destruct (Hin sig) as (H1 & H2 & H3); [by left|]. cbn [threshold_loop].
  rewrite (bool_decide_false (_ = "")), (bool_decide_false (_ ∈ seen)), H3 by done.
  rewrite (proj1 Hs), Z.eqb_refl. cbn [negb]. rewrite sig_good_verify by done. cbn [mbind res_bind negb].
  apply IH; [done|done|]. intros sig' Hs'. destruct (Hin sig') as (H4 & H5 & H6); [by right|]. split_and!; [|done|done].
  apply not_elem_of_union. split; [|done]. intros Heq%elem_of_singleton. destruct Hn. fold (ts_OracleID <$> sigs).
  rewrite <- Heq. by apply list_elem_of_fmap_2.
Qed.

(** A threshold group as the constructor makes it. *)
Record group_ok (to : ThresholdOracle) : Prop := {
  grp_k : 1 ≤ to_K to ≤ to_N to;
  grp_n : to_N to = Z.of_nat (length (to_Oracles to));
  grp_ids : NoDup (o_ID <$> to_Oracles to);
  grp_names : ∀ o, o ∈ to_Oracles to → o_ID o ≠ "";
  grp_keys : ∀ o, o ∈ to_Oracles to → len (o_PrivateKey o) = PrivateKeySize ∧ o_PublicKey o = ed_public (o_PrivateKey o)
}.

Definition oracle_sig (data : bytes) (o : OracleInstance) : ThresholdSignature :=
  mkThSig (o_ID o) (ed_sign (o_PrivateKey o) data) (o_PublicKey o).

Lemma gen_oracles_spec seeds i n os : (∀ j s, seeds j = Ok s → len s = SeedSize) → gen_oracles seeds i n = Ok os →
  o_ID <$> os = (λ j, "oracle-" +:+ pretty (Z.of_nat j)) <$> seq i n ∧
  ∀ o, o ∈ os → len (o_PrivateKey o) = PrivateKeySize ∧ o_PublicKey o = ed_public (o_PrivateKey o).
Proof.
  intros Hseeds. revert i os. induction n as [|n IH]; intros i os Hg; simpl in Hg.
  - inv_ok. split; [done|]. by intros o []%not_elem_of_nil.
  - inv_ok. destruct (IH _ _ Hm0) as [IH1 IH2]. split; [cbn [seq]; rewrite !fmap_cons; by f_equal|].
    intros o [->|Ho]%elem_of_cons; [|by apply IH2]. split; [|done]. by apply ed_from_seed_length, (Hseeds i).
Qed.

Lemma NewThresholdOracle_ok seeds k n to : (∀ j s, seeds j = Ok s → len s = SeedSize) →
  NewThresholdOracle seeds k n = Ok to → group_ok to ∧ to_K to = k ∧ to_N to = n.
Proof.
  intros Hseeds Hn. unfold NewThresholdOracle in Hn. destruct (k <? 1) eqn:?; [done|]. destruct (n <? k) eqn:?; [done|].
  zbool. inv_ok. destruct (gen_oracles_spec seeds 0 (Z.to_nat n) x Hseeds Hm) as [H1 H2].
  split; [|done]. assert (length x = Z.to_nat n) as Hlen
    by (rewrite <- (length_fmap o_ID), H1, length_fmap, length_seq; done).
  split; simpl; [lia|lia| | |done].
  - rewrite H1. apply NoDup_fmap_2; [|apply NoDup_seq]. by intros a b Heq; simplify_eq.
  - intros o Ho. assert (o_ID o ∈ o_ID <$> x) as Hin by (by apply list_elem_of_fmap_2).
    rewrite H1 in Hin. by apply list_elem_of_fmap in Hin as (j & -> & _).
Qed.

Lemma sign_loop_spec to data i n : group_ok to → (i + n ≤ length (to_Oracles to))%nat →
  sign_loop to data i n = Ok (oracle_sig data <$> take n (drop i (to_Oracles to))).
Proof.
  intros Hg. revert i. induction n as [|n IH]; intros i Hi; [done|]. cbn [sign_loop].
  destruct (lookup_lt_is_Some_2 (to_Oracles to) i) as [o Ho]; [lia|].
  assert (PartialSign to (Z.of_nat i) data = Ok (oracle_sig data o)) as ->.
  { unfold PartialSign. destruct (Z.of_nat i <? 0) eqn:?; zbool; [lia|].
    destruct (to_N to <=? Z.of_nat i) eqn:?; zbool; [rewrite (grp_n to Hg) in *; lia|]. simpl. rewrite Nat2Z.id, Ho.
    destruct (grp_keys to Hg o) as [Hl _]; [by eapply list_elem_of_lookup_2|]. unfold ed25519_Sign. by rewrite Hl. }
  cbn [mbind res_bind]. rewrite IH by lia. cbn [mbind res_bind].
  rewrite (drop_S (to_Oracles to) o i) by done. done.
Qed.

Lemma oracle_sigs_good data os : (∀ o, o ∈ os → len (o_PrivateKey o) = PrivateKeySize ∧ o_PublicKey o = ed_public (o_PrivateKey o)) →
  Forall (sig_good data) (oracle_sig data <$> os).
Proof.
  intros Hk. rewrite Forall_fmap. apply Forall_forall. intros o Ho. destruct (Hk o Ho) as [Hl Hp].
  split; simpl; rewrite Hp; [by apply ed_public_length|by apply ed_verify_sign].
Qed.

(** C25. Threshold signing completes and is accepted.  For every group made by
    [NewThresholdOracle] with valid parameters, [SignThreshold] succeeds on every
    payload with [k] signatures by [k] different oracles, the group's own [Verify]
    accepts them, and so does the receipt validator when it trusts the group's
    keys: a generator with this signer issues receipts whose attestations pass
    validation. *)
Theorem threshold_signing_accepted (seeds : nat → res string bytes) (k n : Z) (to : ThresholdOracle)
    (rv : ReceiptValidator) (wrap : threshold_err → string) :
  (∀ j s, seeds j = Ok s → len s = SeedSize) →
  NewThresholdOracle seeds k n = Ok to →
  (∀ o, o ∈ to_Oracles to → isTrustedThresholdKey rv (o_PublicKey o) = true) →
  (∀ data, ∃ sigs, SignThreshold to data = Ok (sigs, k, n) ∧ Z.of_nat (length sigs) = k ∧
     NoDup (ts_OracleID <$> sigs) ∧ ThresholdVerify to data sigs = Ok true) ∧
  signer_ok rv (Some (λ data, map_err wrap (SignThreshold to data))).
Proof.
  intros Hseeds Hn Htrust. destruct (NewThresholdOracle_ok seeds k n to Hseeds Hn) as (Hg & <- & <-).
  pose proof Hg as [Hk Hnn Hids Hnames Hkeys]. set (os := take (Z.to_nat (to_K to)) (to_Oracles to)).
  assert (∀ o, o ∈ os → o ∈ to_Oracles to) as Hsub
    by (intros o Ho; rewrite <- (take_drop (Z.to_nat (to_K to))); apply elem_of_app; by left).
  assert (∀ data, SignThreshold to data = Ok (oracle_sig data <$> os, to_K to, to_N to)) as Hsign.
  { intros data. unfold SignThreshold. rewrite sign_loop_spec by (done || lia). done. }
  assert (∀ data, Forall (sig_good data) (oracle_sig data <$> os)) as Hgood
    by (intros data; apply oracle_sigs_good; auto).
  assert (∀ data, NoDup (ts_OracleID <$> (oracle_sig data <$> os))) as Hnd.
  { intros data. rewrite <- list_fmap_compose. change (NoDup (o_ID <$> os)).
    rewrite <- (take_drop (Z.to_nat (to_K to)) (to_Oracles to)), fmap_app in Hids.
    by apply NoDup_app in Hids as [Hids _]. }
  assert (∀ data, Z.of_nat (length (oracle_sig data <$> os)) = to_K to) as Hlen.
  { intros data. rewrite length_fmap. unfold os. rewrite length_take. lia. }
  split.
  - intros data. exists (oracle_sig data <$> os). split_and!; [done|done|done|]. unfold ThresholdVerify.
    rewrite Hlen, Z.ltb_irrefl, count_valid_all; [|done|done|].
    + simpl. by rewrite Hlen, Z.leb_refl.
    + intros sig (o & -> & Ho)%list_elem_of_fmap. split; [set_solver|]. simpl.
      apply elem_of_list_to_set, list_elem_of_fmap_2. auto.
  - intros signer payload r [= <-] Hm Hs. rewrite Hsign in Hs. injection Hs as H1 H2 H3.
    unfold validateThresholdAttestations, SigningPayload. rewrite <- H1, <- H2, <- H3, Hlen, Hm. simpl.
    destruct (to_K to =? 0) eqn:?; zbool; [lia|]. simpl. destruct (to_K to <? 1) eqn:?; zbool; [lia|].
    destruct (to_N to <? 1) eqn:?; zbool; [lia|]. destruct (to_N to <? to_K to) eqn:?; zbool; [lia|].
    rewrite Z.ltb_irrefl. apply threshold_loop_all; [done|done|].
    intros sig (o & -> & Ho)%list_elem_of_fmap. split_and!; [set_solver|by apply Hnames, Hsub|by apply Htrust, Hsub].
Qed.

(** One oracle can fill the quorum.  Duplicates are recognised by the oracle
    identifier of a signature, which is not signed, and never by its key: a
    single key of the group, signing once, satisfies a [k]-of-[n] check under [k]
    different names, both in [ThresholdOracle.Verify] and in the receipt
    validator's threshold check. *)
Theorem one_key_fills_quorum (to : ThresholdOracle) (o : OracleInstance) (data : bytes) (names : list string)
    (rv : ReceiptValidator) (r : receipt) :
  group_ok to → o ∈ to_Oracles to → NoDup names → Forall (λ x, x ≠ "") names → Z.of_nat (length names) = to_K to →
  isTrustedThresholdKey rv (o_PublicKey o) = true → marshalForSigning r = Ok data →
  let sigs := (λ x, mkThSig x (ed_sign (o_PrivateKey o) data) (o_PublicKey o)) <$> names in
  ThresholdVerify to data sigs = Ok true ∧
  validateThresholdAttestations rv (with_signature (r_Signature r) (to_K to) (to_N to) sigs r) = Ok tt.
Proof.
  intros [Hk Hn _ _ Hkeys] Ho Hnd Hne Hlen Ht Hm sigs.
  assert (Forall (sig_good data) sigs) as Hgood.
  { unfold sigs. rewrite Forall_fmap. apply Forall_forall. intros x _. destruct (Hkeys o Ho) as [Hl Hp].
    split; simpl; rewrite Hp; [by apply ed_public_length|by apply ed_verify_sign]. }
  assert (ts_OracleID <$> sigs = names) as Hids by (unfold sigs; rewrite <- list_fmap_compose; apply list_fmap_id).
  assert (Z.of_nat (length sigs) = to_K to) as Hlen' by (unfold sigs; by rewrite length_fmap).
  split.
  - unfold ThresholdVerify. rewrite Hlen', Z.ltb_irrefl, count_valid_all; [|done|by rewrite Hids|].
    + simpl. by rewrite Hlen', Z.leb_refl.
    + intros sig (x & -> & Hx)%list_elem_of_fmap. split; [set_solver|]. simpl.
      by apply elem_of_list_to_set, list_elem_of_fmap_2.
  - unfold validateThresholdAttestations, SigningPayload. rewrite payload_with_signature, Hm. cbn [with_signature
      r_ThresholdK r_ThresholdN r_ThresholdSignatures r_ID]. rewrite Hlen'.
    destruct (to_K to =? 0) eqn:?; zbool; [lia|]. simpl. destruct (to_K to <? 1) eqn:?; zbool; [lia|].
    destruct (to_N to <? 1) eqn:?; zbool; [lia|]. destruct (to_N to <? to_K to) eqn:?; zbool; [lia|].
    rewrite Z.ltb_irrefl. apply threshold_loop_all; [done|by rewrite Hids|].
    intros sig (x & -> & Hx)%list_elem_of_fmap. split_and!; [set_solver| |done].
    rewrite Forall_forall in Hne. by apply Hne.
Qed.
End ThresholdProperties.

(** ** Witnesses *)
Module DemoChain.
Import Toy DemoReceipt.

Definition pol : string := "swiss-dlt-act-v1".
Definition rv0 : ReceiptValidator := NewReceiptValidator (30 * second).

(** Issue, rotate, issue. *)
Definition st1 : Generator * MemoryStore := (IssueAndAppend NoFault "id-1" t0 "tx-1" pol path1 gen1 NewMemoryStore).1.
Definition st2 : Generator * MemoryStore :=
  ((RotateKeyFile (Ok seed2) stamp no_faults "/keys/oracle.key" st1.1 key_files).1.1, st1.2).
Definition st3 : Generator * MemoryStore :=
  (IssueAndAppend NoFault "id-2" (t0 + second) "tx-2" pol path1 st2.1 st1.2).1.

Lemma triple {A B C} (t : A * B * C) : t = (t.1.1, t.1.2, t.2).
Proof. by destruct t as [[a b] c]. Qed.

Lemma no_signer : signer_ok rv0 None.
Proof. by intros signer payload r Hs. Qed.

Lemma demo_run : rtc (oracle_step rv0) (gen1, NewMemoryStore) (st3.1, st3.2).
Proof.
  eapply rtc_l.
  { eapply (StepIssue rv0 NoFault "id-1" t0 "tx-1" pol path1 gen1 NewMemoryStore st1.1 st1.2); [vm_compute; reflexivity|apply triple|done]. }
  eapply rtc_l.
  { eapply (StepRotate rv0 seed2 stamp no_faults "/keys/oracle.key" key_files st1.1 st1.2 st2.1); [done|done|].
    apply triple. }
  eapply rtc_l; [|apply rtc_refl].
  eapply (StepIssue rv0 NoFault "id-2" (t0 + second) "tx-2" pol path1 st2.1 st1.2 st3.1 st3.2
    (IssueAndAppend NoFault "id-2" (t0 + second) "tx-2" pol path1 st2.1 st1.2).2);
    [vm_compute; reflexivity| |done].
  unfold st3. generalize (IssueAndAppend NoFault "id-2" (t0 + second) "tx-2" pol path1 st2.1 st1.2). apply triple.
Qed.

Lemma oracle_chain_validates_witness :
  length (ms_receipts st3.2) = 2%nat ∧
  (ms_receipts st3.2 = [] ∨ ValidateReceiptChain rv0 (ms_receipts st3.2) = Ok tt).
Proof.
  split; [vm_compute; reflexivity|].
  apply (oracle_chain_validates rv0 gen1 st3.1 NewMemoryStore st3.2 0 9).
  - apply NewMemoryStore_rep.
  - apply gen1_keys.
  - reflexivity.
  - reflexivity.
  - apply no_signer.
  - vm_compute. split; congruence.
  - apply demo_run.
  - vm_compute. reflexivity.
Defined.

(** Restart with the rotated key before the second receipt. *)
Definition reseeded : Generator := (SeedChain NoFault st1.2 (NewGeneratorWithKeys (g_privateKey st2.1) (g_publicKey st2.1))).1.
Definition issued_after : receipt := Eval vm_compute in
  result_of (Issue "id-2" (t0 + second) "tx-2" pol path1 reseeded).2.

Lemma issued_after_eq : (Issue "id-2" (t0 + second) "tx-2" pol path1 reseeded).2 = Ok issued_after.
Proof. vm_compute. reflexivity. Qed.

Lemma rotation_then_restart_breaks_chain_witness :
  ValidateReceiptChain rv0 ([issued1] ++ [issued_after]) = Err (ChainNilPrevious 1).
Proof.
  apply (rotation_then_restart_breaks_chain rv0 st1.2 [issued1] issued1 (g_privateKey st2.1) (g_publicKey st2.1)
    reseeded (Issue "id-2" (t0 + second) "tx-2" pol path1 reseeded).1 "id-2" (t0 + second) "tx-2" pol path1 issued_after).
  - assert (st1.2 = (mem_Append issued1 NewMemoryStore).1) as -> by (vm_compute; reflexivity).
    destruct (mem_Append_spec NewMemoryStore [] issued1 NewMemoryStore_rep) as (s' & -> & Hrep). exact Hrep.
  - repeat constructor.
  - reflexivity.
  - exact I.
  - vm_compute. reflexivity.
  - vm_compute. discriminate.
  - vm_compute. reflexivity.
  - rewrite <- issued_after_eq. apply surjective_pairing.
Defined.

Lemma receipt_validates_once_witness :
  let rv' := (ValidateReceipt t0 t0 t0 issued1 rv0).1 in
  authentic rv0 issued1 ∧ is_ok (ValidateReceipt (t0 + second) (t0 + second) (t0 + second) issued1 rv').2 = false.
Proof.
  apply (receipt_validates_once t0 t0 t0 issued1 rv0).
  - vm_compute. split; reflexivity.
  - vm_compute. discriminate.
  - vm_compute. reflexivity.
Defined.

Lemma signature_omits_hops_and_thresholds_witness :
  let r' := mkReceipt (r_ID issued1) (r_TransactionID issued1) (r_PolicyID issued1)
    (mkPath "raw" [mkHop "2-ff00:0:220" 2 "ff00:0:220" ""] "fp" EvidenceClassExplicitDemo ProofStatusUnverified)
    (r_EvidenceClass issued1) (r_ProofStatus issued1) (r_ISDProofs issued1) (r_SeqNo issued1) (r_Timestamp issued1)
    (r_Signature issued1) (r_OraclePublicKey issued1) (r_PreviousHash issued1) 0 0 [] in
  ValidateReceiptChain (TrustThresholdOracleKey (ed_public key2) rv0) [r'] = Ok tt.
Proof.
  apply (signature_omits_hops_and_thresholds (TrustThresholdOracleKey (ed_public key2) rv0) issued1
    [mkHop "2-ff00:0:220" 2 "ff00:0:220" ""]).
  split_and!; vm_compute; reflexivity.
Defined.

Lemma verify_panics_iff_key_length_witness :
  let r := mkReceipt "id" "tx" pol path1 "" "" [] 1 t0 "sig" "short" None 0 0 [] in
  Verify r = Panic ↔ len (r_OraclePublicKey r) ≠ PublicKeySize.
Proof. intros r. eapply (verify_panics_iff_key_length r). vm_compute. reflexivity. Defined.

Definition demo_seeds (i : nat) : res string bytes := Ok (sha256 (pretty (Z.of_nat i))).

Lemma demo_seeds_len j s : demo_seeds j = Ok s → len s = SeedSize.
Proof. intros [= <-]. by rewrite sha256_length. Qed.

Definition demo_group : ThresholdOracle := match NewThresholdOracle demo_seeds 2 3 with Ok to => to | _ => mkTO 0 0 [] end.

Lemma demo_group_eq : NewThresholdOracle demo_seeds 2 3 = Ok demo_group.
Proof. reflexivity. Qed.

Lemma threshold_signing_accepted_witness :
  (∀ data, ∃ sigs, SignThreshold demo_group data = Ok (sigs, 2, 3) ∧ Z.of_nat (length sigs) = 2 ∧
     NoDup (ts_OracleID <$> sigs) ∧ ThresholdVerify demo_group data sigs = Ok true) ∧
  signer_ok rv0 (Some (λ data, map_err (λ _, "threshold") (SignThreshold demo_group data))).
Proof.
  apply (threshold_signing_accepted demo_seeds 2 3 demo_group rv0 (λ _, "threshold")).
  - apply demo_seeds_len.
  - apply demo_group_eq.
  - intros o _. reflexivity.
Defined.

Definition oracle0 : OracleInstance :=
  mkOracle "oracle-0" (ed_from_seed (sha256 "0")) (ed_public (ed_from_seed (sha256 "0"))).
Definition data1 : bytes := match marshalForSigning issued1 with Ok d => d | _ => "" end.

Lemma one_key_fills_quorum_witness :
  let sigs := (λ x, mkThSig x (ed_sign (o_PrivateKey oracle0) data1) (o_PublicKey oracle0)) <$> ["oracle-0"; "oracle-1"] in
  ThresholdVerify demo_group data1 sigs = Ok true ∧
  validateThresholdAttestations rv0 (with_signature (r_Signature issued1) (to_K demo_group) (to_N demo_group) sigs issued1) = Ok tt.
Proof.
  apply (one_key_fills_quorum demo_group oracle0 data1 ["oracle-0"; "oracle-1"] rv0 issued1).
  - apply (NewThresholdOracle_ok demo_seeds 2 3); [apply demo_seeds_len|apply demo_group_eq].
  - left.
  - apply (bool_decide_unpack _). vm_compute. exact I.
  - repeat constructor; discriminate.
  - reflexivity.
  - reflexivity.
  - vm_compute. reflexivity.
Defined.
End DemoChain.
