(* ===== verification/AuditTrail.v ===== *)
(** * The audit log

    [src/internal/audit/log.go]: entries keyed by the bucket's own sequence, and
    paginated listing. *)

From S2P Require Import Prelude GoJson Bolt.

Record AuditEntry := mkAudit {
  ae_Timestamp : Z;
  ae_EventType : string;
  ae_Details : bytes
}.

#[export] Instance AuditEntry_eq_dec : EqDecision AuditEntry.
Proof. solve_decision. Defined.

Definition auditBucket : bytes := "audit".

Inductive audit_err :=
| OpeningAuditDB (e : string)
| CreatingAuditBucket (e : string)
| MarshalingAudit (e : string)
| AuditJSON (e : string)
| AuditDB (e : string).

Section Audit.
Context `{!Bolt, !Codec AuditEntry}.

(** The bucket and the counter of its [NextSequence]. *)
Record AuditLog := mkLog {
  al_bucket : bucket;
  al_sequence : Z
}.

(** [NewAuditLog]: [opened] is the outcome of [bolt.Open], with the bucket if the
    file has one. *)
Definition NewAuditLog (opened : res string (option AuditLog)) (f : fault) : res audit_err AuditLog :=
  db ← map_err OpeningAuditDB opened;
  (Update CreatingAuditBucket f (λ db : option AuditLog,
     let log := default (mkLog empty_bucket 0) db in Ok (Some log, log)) db).2.

Definition Append (f : fault) (entry : AuditEntry) (a : AuditLog) : AuditLog * res audit_err unit :=
  match marshal entry with
  | Err e => (a, Err (MarshalingAudit e))
  | Panic => (a, Panic)
  | Ok data =>
    Update AuditDB f (λ a,
      let seq := u64 (al_sequence a + 1) in
      b ← map_err AuditDB (Put (be64 seq) data (al_bucket a));
      Ok (mkLog b seq, tt)) a
  end.

(** The loop of [List]; [i] counts the skipped entries and [n] the collected
    ones. *)
Fixpoint list_loop (offset limit i n : Z) (es : list (bytes * bytes)) : res audit_err (list AuditEntry) :=
  match es with
  | [] => Ok []
  | (_, v) :: es' =>
    if i <? offset then list_loop offset limit (i + 1) n es'
    else if limit <=? n then Ok []
    else
      entry ← map_err AuditJSON (unmarshal v);
      rest ← list_loop offset limit (i + 1) (n + 1) es';
      Ok (entry :: rest)
  end.

Definition List (f : fault) (offset limit : Z) (a : AuditLog) : res audit_err (list AuditEntry) :=
  View AuditDB f (λ a, list_loop offset limit 0 0 (entries (al_bucket a))) a.

Definition Count (f : fault) (a : AuditLog) : res audit_err Z :=
  View AuditDB f (λ a, Ok (KeyN (al_bucket a))) a.

(** ** Specification: the entries in the order they were appended *)
Definition adata (e : AuditEntry) : bytes := match marshal e with Ok d => d | _ => "" end.

(** Entries numbered from 1. *)
Definition numbered (l : list AuditEntry) : list (Z * AuditEntry) := zip (seqZ 1 (Z.of_nat (length l))) l.

Definition audit_rep (a : AuditLog) (l : list AuditEntry) : Prop :=
  al_sequence a = Z.of_nat (length l) ∧ Z.of_nat (length l) < 2 ^ 64 ∧
  (∀ e, e ∈ l → codec_ok e) ∧
  ∀ k, Get k (al_bucket a) = adata ∘ snd <$> last_match (λ p, be64 p.1 = k) (numbered l).

Lemma numbered_snoc l e : numbered (l ++ [e]) = numbered l ++ [(Z.of_nat (length l) + 1, e)].
Proof.
  unfold numbered. rewrite length_app. simpl. rewrite Nat2Z.inj_add, seqZ_app by lia.
  rewrite zip_with_app by (rewrite length_seqZ; lia). f_equal.
  change (Z.of_nat 1) with 1. rewrite (seqZ_cons _ 1) by lia. simpl. f_equal. f_equal. lia.
Qed.

Lemma numbered_snd l : snd <$> numbered l = l.
Proof. apply snd_zip. rewrite length_seqZ. lia. Qed.

Lemma numbered_sorted l : StronglySorted (λ p q : Z * AuditEntry, p.1 < q.1) (numbered l).
Proof.
  induction l as [|e l IH] using rev_ind; [constructor|]. rewrite numbered_snoc.
  apply StronglySorted_app_2; [|done|repeat constructor].
  intros [i x] y Hx ->%list_elem_of_singleton. apply elem_of_zip_l, elem_of_seqZ in Hx. simpl. lia.
Qed.

Context `{!BoltLaws, !CodecLaws AuditEntry}.

Lemma audit_entries a l : audit_rep a l →
  entries (al_bucket a) = (λ p, (be64 p.1, adata p.2)) <$> numbered l.
Proof.
  intros (_ & Hlen & _ & Hget). apply (entries_of_list fst (adata ∘ snd)); [|apply numbered_sorted|done].
  intros [i x] Hx. apply elem_of_zip_l, elem_of_seqZ in Hx. unfold is_u64. simpl. lia.
Qed.

Lemma unmarshal_adata e : codec_ok e → unmarshal (adata e) = Ok e.
Proof.
  intros He. unfold adata. pose proof (marshal_ok e He). destruct (marshal e) eqn:E; [|done..].
  by apply unmarshal_marshal.
Qed.

Lemma list_loop_spec offset limit i n ps : (∀ p : Z * AuditEntry, p ∈ ps → codec_ok p.2) → 0 ≤ n →
  list_loop offset limit i n ((λ p, (be64 p.1, adata p.2)) <$> ps) =
  Ok (take (Z.to_nat (limit - n)) (drop (Z.to_nat (offset - i)) ps.*2)).
Proof.
  revert i n. induction ps as [|[k e] ps IH]; intros i n Hok Hn; [simpl; by rewrite drop_nil, take_nil|].
  rewrite !fmap_cons. cbn [list_loop fst snd].
  assert (∀ p : Z * AuditEntry, p ∈ ps → codec_ok p.2) as Hok' by (intros; apply Hok; by right).
  destruct (i <? offset) eqn:E; zbool.
  - rewrite IH by done. replace (Z.to_nat (offset - i)) with (S (Z.to_nat (offset - (i + 1)))) by lia. done.
  - replace (Z.to_nat (offset - i)) with 0%nat by lia. rewrite drop_0.
    destruct (limit <=? n) eqn:E2; zbool; [by replace (Z.to_nat (limit - n)) with 0%nat by lia|].
    rewrite unmarshal_adata by (apply (Hok (k, e)); by left). cbn [map_err mbind res_bind].
    rewrite IH by (done || lia). cbn [mbind res_bind].
    replace (Z.to_nat (limit - n)) with (S (Z.to_nat (limit - (n + 1)))) by lia.
    by replace (Z.to_nat (offset - (i + 1))) with 0%nat by lia.
Qed.

Lemma List_spec a l offset limit : audit_rep a l →
  List NoFault offset limit a = Ok (take (Z.to_nat limit) (drop (Z.to_nat offset) l)).
Proof.
  intros Hr. unfold List, View. rewrite (audit_entries a l Hr), list_loop_spec; [|clear -Hr|lia].
  - by rewrite !Z.sub_0_r, numbered_snd.
  - destruct Hr as (_ & _ & Hok & _). intros [i e] Hin. apply elem_of_zip_r in Hin. by apply Hok.
Qed.

Lemma Append_spec f e a a' l x : audit_rep a l → codec_ok e → Z.of_nat (length l) < 2 ^ 64 - 1 →
  Append f e a = (a', x) → (x = Ok tt ∧ audit_rep a' (l ++ [e])) ∨ (x ≠ Ok tt ∧ a' = a).
Proof.
  intros (Hs & Hlen & Hok & Hget) He Hmax Ha. unfold Append in Ha. unfold adata in Hget.
  pose proof (marshal_ok e He) as Hm. destruct (marshal e) as [d|err|] eqn:Em; [|done|done].
  unfold Update in Ha. destruct f as [|er|er]; [|right; by simplify_eq|].
  - destruct (Put _ d (al_bucket a)) as [b|er|] eqn:Hp; simpl in Ha; [|right; by simplify_eq..].
    left. simplify_eq. split; [done|]. rewrite Hs, u64_id in * by (unfold is_u64; lia).
    split_and!; simpl; rewrite ?length_app; simpl; [lia|lia| |].
    + intros y [Hy| ->%list_elem_of_singleton]%elem_of_app; auto.
    + rewrite numbered_snoc. apply (Get_snoc (λ p, be64 p.1) (adata ∘ snd) _ _ _ _ Hget).
      simpl. unfold adata. by rewrite Em.
  - right. destruct (Put _ d (al_bucket a)) as [b|er'|] eqn:Hp; simpl in Ha; by simplify_eq.
Qed.

(** ** Properties *)

(** Appending a batch, each with its own fault; the accepted entries. *)
Fixpoint append_all (a : AuditLog) (batch : list (fault * AuditEntry)) : AuditLog * list AuditEntry :=
  match batch with
  | [] => (a, [])
  | (f, e) :: batch' =>
    let '(a1, x) := Append f e a in
    let '(a2, acc) := append_all a1 batch' in
    (a2, if is_ok x then e :: acc else acc)
  end.

Lemma append_all_spec batch : ∀ a l, audit_rep a l → (∀ f e, (f, e) ∈ batch → codec_ok e) →
  Z.of_nat (length l) + Z.of_nat (length batch) < 2 ^ 64 →
  audit_rep (append_all a batch).1 (l ++ (append_all a batch).2).
Proof.
  induction batch as [|[f e] batch IH]; intros a l Hr Hok Hlen; simpl; [by rewrite app_nil_r|]. cbn [length] in Hlen.
  destruct (Append f e a) as [a1 x] eqn:Ha.
  assert (codec_ok e) as He by (apply (Hok f); by left).
  assert (∀ f' e', (f', e') ∈ batch → codec_ok e') as Hok' by (intros f' e' Hin; apply (Hok f'); by right).
  destruct (Append_spec f e a a1 l x Hr He ltac:(lia) Ha) as [[-> Hr1]|[Hx ->]].
  - specialize (IH a1 (l ++ [e]) Hr1 Hok'). rewrite length_app in IH. cbn [length] in IH. specialize (IH ltac:(lia)).
    destruct (append_all a1 batch) as [a2 acc]; simpl in *. by rewrite <- app_assoc in IH.
  - specialize (IH a l Hr Hok' ltac:(lia)). destruct (append_all a batch) as [a2 acc]; simpl in *.
    destruct x as [[]|er|]; done.
Qed.

(** The audit log is append-only and pages in order.  From a new log, after
    any number of appends of which some fail on database faults, [Count] is the
    number of accepted entries and [List offset limit] is the corresponding slice
    of the accepted entries in the order they were appended, so consecutive pages
    neither repeat nor skip an entry; a negative offset counts as zero and a
    limit below one gives no entries. *)
Theorem audit_log_pages (batch : list (fault * AuditEntry)) (offset limit : Z) :
  (∀ f e, (f, e) ∈ batch → codec_ok e) → Z.of_nat (length batch) < 2 ^ 64 →
  ∃ a0, NewAuditLog (Ok None) NoFault = Ok a0 ∧
    let '(a, accepted) := append_all a0 batch in
    Count NoFault a = Ok (Z.of_nat (length accepted)) ∧
    List NoFault offset limit a = Ok (take (Z.to_nat limit) (drop (Z.to_nat offset) accepted)).
Proof.
  intros Hok Hlen. exists (mkLog empty_bucket 0). split; [done|].
  assert (audit_rep (mkLog empty_bucket 0) []) as Hnew.
  { split_and!; [done|done|by intros e []%not_elem_of_nil|]. intros k. apply Get_empty. }
  pose proof (append_all_spec batch _ _ Hnew Hok ltac:(simpl; lia)) as Hr.
  destruct (append_all (mkLog empty_bucket 0) batch) as [a acc]; simpl in Hr. split; [|by apply List_spec].
  unfold Count, View, KeyN. rewrite (audit_entries a acc Hr), length_fmap.
  by rewrite <- (length_fmap snd (numbered acc)), numbered_snd.
Qed.
End Audit.

(** ** Witness *)
Module DemoAudit.
Import MapBolt.
Definition e1 : AuditEntry := mkAudit 1 "check" "{}".
Definition e2 : AuditEntry := mkAudit 2 "settle" "{}".

#[local] Instance demo_codec : Codec AuditEntry := {|
  marshal e := if bool_decide (e = e1) then Ok "one" else if bool_decide (e = e2) then Ok "two" else Err "unknown";
  unmarshal d := if bool_decide (d = "one") then Ok e1 else if bool_decide (d = "two") then Ok e2 else Err "syntax";
  codec_ok e := e = e1 ∨ e = e2
|}.

#[local] Instance demo_codec_laws : CodecLaws AuditEntry.
Proof.
  constructor; simpl.
  - intros x [->| ->]; reflexivity.
  - intros x. by repeat case_bool_decide.
  - intros x d [->| ->] Hd; injection Hd as <-; reflexivity.
  - reflexivity.
Qed.

Definition demo_batch : list (fault * AuditEntry) := [(NoFault, e1); (CommitFails "disk full", e1); (NoFault, e2)].

Lemma audit_log_pages_witness :
  ∃ a0, NewAuditLog (Ok None) NoFault = Ok a0 ∧
    let '(a, accepted) := append_all a0 demo_batch in
    Count NoFault a = Ok (Z.of_nat (length accepted)) ∧
    List NoFault 1 5 a = Ok (take (Z.to_nat 5) (drop (Z.to_nat 1) accepted)).
Proof.
  apply (audit_log_pages demo_batch 1 5).
  - intros f e Hin. simpl. set_solver.
  - vm_compute. reflexivity.
Defined.
End DemoAudit.
