(* ===== verification/AuditQueue.v ===== *)
(** * The audit queue of the server

    The audit side of [src/internal/api/server.go]: handlers put entries into a
    channel of 4096, one goroutine appends them to the log, an entry that finds no
    room for 50 ms or that the log refuses is counted, and [Close] closes the
    channel and waits for the goroutine to drain it; a handler that audits after
    that panics, and its entry is neither queued nor counted.  The interleavings of
    the handlers, the writer and [Close] are the runs of [exec]. *)

From S2P Require Import Prelude GoJson Bolt AuditTrail.

Definition auditCh_cap : nat := 4096.

(** What can happen next: a handler calls [audit], with room or after the
    timeout; the writer takes an entry, with the fault of its transaction; [Close]
    is called; the writer sees the closed, empty channel. *)
Inductive action :=
| HandlerAudits (e : AuditEntry) (timeout : bool)
| WriterTakes (f : fault)
| CloseCalled
| WriterExits.

Section Queue.
Context `{!Bolt, !Codec AuditEntry}.

Record AuditState := mkAS {
  as_ch : list AuditEntry;
  as_closed : bool;
  as_writer : bool;
  as_log : AuditLog;
  as_failures : Z
}.

(** [audit] with its details already encoded: the new state and whether the call
    returned; [None] when it has to wait.  A send on a closed channel panics
    and changes nothing; closing wakes a waiting sender before its timer does. *)
Definition audit (e : AuditEntry) (timeout : bool) (s : AuditState) : option (AuditState * res unit unit) :=
  if as_closed s then Some (s, Panic)
  else if timeout
  then Some (mkAS (as_ch s) (as_closed s) (as_writer s) (as_log s) (u64 (as_failures s + 1)), Ok tt)
  else if bool_decide (length (as_ch s) < auditCh_cap)%nat
  then Some (mkAS (as_ch s ++ [e]) (as_closed s) (as_writer s) (as_log s) (as_failures s), Ok tt)
  else None.

(** One iteration of [auditWriter]. *)
Definition auditWriter (f : fault) (s : AuditState) : option AuditState :=
  match as_writer s, as_ch s with
  | true, e :: ch =>
    match Append f e (as_log s) with
    | (log, Ok _) => Some (mkAS ch (as_closed s) true log (as_failures s))
    | (log, Err _) => Some (mkAS ch (as_closed s) true log (u64 (as_failures s + 1)))
    | (_, Panic) => None
    end
  | _, _ => None
  end.

Definition auditWriter_exit (s : AuditState) : option AuditState :=
  match as_writer s, as_closed s, as_ch s with
  | true, true, [] => Some (mkAS [] true false (as_log s) (as_failures s))
  | _, _, _ => None
  end.

(** [Close] up to its wait; [closeOnce] makes later calls do nothing. *)
Definition Close (s : AuditState) : AuditState := mkAS (as_ch s) true (as_writer s) (as_log s) (as_failures s).

Definition exec (a : action) (s : AuditState) : option AuditState :=
  match a with
  | HandlerAudits e timeout => fst <$> audit e timeout s
  | WriterTakes f => auditWriter f s
  | CloseCalled => Some (Close s)
  | WriterExits => auditWriter_exit s
  end.

Fixpoint run (acts : list action) (s : AuditState) : option AuditState :=
  match acts with [] => Some s | a :: acts' => s1 ← exec a s; run acts' s1 end.

Definition start (log : AuditLog) : AuditState := mkAS [] false true log 0.

(** [handleHealth], the audit part: whether nothing was lost, and how much. *)
Definition health (s : AuditState) : bool * Z := (as_failures s =? 0, as_failures s).

(** ** What a run did *)

(** The entries that handlers put into the channel ([false]) or dropped after the
    timeout ([true]) before [Close], those they lost to a panic after it, and all
    of them. *)
Fixpoint audited (timeout closed : bool) (acts : list action) : list AuditEntry :=
  match acts with
  | [] => []
  | HandlerAudits e b :: acts' =>
    if negb closed && Bool.eqb b timeout then e :: audited timeout closed acts' else audited timeout closed acts'
  | CloseCalled :: acts' => audited timeout true acts'
  | _ :: acts' => audited timeout closed acts'
  end.
Abbreviation accepted := (audited false false).
Abbreviation dropped := (audited true false).

Fixpoint lost_to_panic (closed : bool) (acts : list action) : list AuditEntry :=
  match acts with
  | [] => []
  | HandlerAudits e _ :: acts' => if closed then e :: lost_to_panic closed acts' else lost_to_panic closed acts'
  | CloseCalled :: acts' => lost_to_panic true acts'
  | _ :: acts' => lost_to_panic closed acts'
  end.
Abbreviation late := (lost_to_panic false).

Fixpoint attempted (acts : list action) : list AuditEntry :=
  match acts with
  | [] => []
  | HandlerAudits e _ :: acts' => e :: attempted acts'
  | _ :: acts' => attempted acts'
  end.

Lemma attempted_split closed acts :
  attempted acts ≡ₚ audited false closed acts ++ audited true closed acts ++ lost_to_panic closed acts.
Proof.
  revert closed. induction acts as [|[e b|f| |] acts IH]; intros closed; cbn [attempted audited lost_to_panic]; [done| |done..].
  destruct closed, b; cbn [negb andb Bool.eqb].
  - rewrite (IH true), !app_assoc. apply Permutation_middle.
  - rewrite (IH true), !app_assoc. apply Permutation_middle.
  - rewrite (IH false). apply Permutation_middle.
  - by rewrite (IH false).
Qed.

(** The entries taken from the channel, with the fate of each. *)
Fixpoint fates (acts : list action) (s : AuditState) : list (AuditEntry * bool) :=
  match acts with
  | [] => []
  | a :: acts' =>
    match exec a s with
    | None => []
    | Some s1 =>
      match a, as_ch s with
      | WriterTakes f, e :: _ => (e, is_ok (Append f e (as_log s)).2) :: fates acts' s1
      | _, _ => fates acts' s1
      end
    end
  end.
Fixpoint with_fate (fate : bool) (l : list (AuditEntry * bool)) : list AuditEntry :=
  match l with
  | [] => []
  | (e, b) :: l' => if Bool.eqb b fate then e :: with_fate fate l' else with_fate fate l'
  end.
Abbreviation stored := (with_fate true).
Abbreviation refused := (with_fate false).

Context `{!BoltLaws, !CodecLaws AuditEntry}.

Lemma Append_no_panic f e a : (Append f e a).2 ≠ Panic.
Proof.
  unfold Append. pose proof (marshal_no_panic e). destruct (marshal e) as [d| |]; [|done..]. unfold Update.
  pose proof (Put_no_panic (be64 (u64 (al_sequence a + 1))) d (al_bucket a)) as Hp.
  destruct f; [|done|]; destruct (Put _ _ _); done.
Qed.

(** The accounting of one run, from any state. *)
Lemma run_accounts acts : ∀ s s' l, run acts s = Some s' → (length (as_ch s) ≤ auditCh_cap)%nat →
  audit_rep (as_log s) l → (∀ e, e ∈ as_ch s ++ audited false (as_closed s) acts → codec_ok e) →
  0 ≤ as_failures s → as_failures s + Z.of_nat (length acts) < 2 ^ 64 → Z.of_nat (length l) + Z.of_nat (length acts) < 2 ^ 64 →
  as_ch s ++ audited false (as_closed s) acts = (fates acts s).*1 ++ as_ch s' ∧ (length (as_ch s') ≤ auditCh_cap)%nat ∧
  audit_rep (as_log s') (l ++ stored (fates acts s)) ∧
  as_failures s' = as_failures s + Z.of_nat (length (audited true (as_closed s) acts)) + Z.of_nat (length (refused (fates acts s))).
Proof.
  induction acts as [|a acts IH]; intros s s' l Hrun Hcap Hrep Hok Hf0 Hf Hl; cbn [run] in Hrun.
  { injection Hrun as <-. cbn. rewrite !app_nil_r. split_and!; try done; lia. }
  destruct (exec a s) as [s1|] eqn:Ha; [|done]. cbn [mbind option_bind] in Hrun. cbn [length] in Hf, Hl. cbn [fates]. rewrite Ha.
  destruct a as [e timeout|f| |]; cbn [exec] in Ha.
  - unfold audit in Ha. destruct (as_closed s) eqn:Hcl.
    { injection Ha as <-. cbn [audited negb andb] in *. rewrite <- Hcl in *.
      destruct (IH s s' l Hrun) as (E1 & E2 & E3 & E4); try done; lia. }
    destruct timeout.
    + injection Ha as <-. cbn [audited negb andb Bool.eqb length] in *.
      destruct (IH _ s' l Hrun) as (E1 & E2 & E3 & E4); try done; cbn [as_ch as_closed as_failures] in *; rewrite ?Hcl in *;
        rewrite ?u64_id in * by (unfold is_u64; lia); try lia. split_and!; try done. lia.
    + case_bool_decide as Hlen; [|done]. injection Ha as <-. cbn [audited negb andb Bool.eqb length] in *.
      destruct (IH _ s' l Hrun) as (E1 & E2 & E3 & E4); try done; cbn [as_ch as_closed as_failures as_log] in *;
        rewrite ?Hcl in *; try lia.
      1: rewrite length_app; cbn; lia. 1: intros x; rewrite <- app_assoc; apply Hok.
      split_and!; try done. rewrite <- E1, <- app_assoc. done.
  - unfold auditWriter in Ha. destruct (as_writer s); [|done]. destruct (as_ch s) as [|e ch] eqn:Hch; [done|].
    pose proof (Append_no_panic f e (as_log s)) as Hnp. destruct (Append f e (as_log s)) as [log x] eqn:Happ.
    assert (codec_ok e) as He by (apply Hok; by left).
    assert (∀ y, y ∈ ch ++ audited false (as_closed s) acts → codec_ok y) as Hok' by (intros y Hy; apply Hok; by right).
    cbn [audited Bool.eqb length] in *.
    destruct (Append_spec f e _ _ l x Hrep He ltac:(lia) Happ) as [[-> Hrep']|[Hx ->]].
    + injection Ha as <-. destruct (IH _ s' (l ++ [e]) Hrun) as (E1 & E2 & E3 & E4); try done; cbn [as_ch as_closed as_failures as_log] in *; try lia.
      1: rewrite length_app; cbn; lia.
      cbn [snd is_ok fmap list_fmap fst app with_fate Bool.eqb length] in *.
      split_and!; [by f_equal|done|by rewrite <- app_assoc in E3|lia].
    + destruct x as [[]| |]; [done| |done]. injection Ha as <-.
      destruct (IH _ s' l Hrun) as (E1 & E2 & E3 & E4); try done; cbn [as_ch as_closed as_failures as_log] in *;
        rewrite ?u64_id in * by (unfold is_u64; lia); try lia.
      cbn [snd is_ok fmap list_fmap fst app with_fate Bool.eqb length] in *.
      split_and!; [by f_equal|done|done|lia].
  - injection Ha as <-. destruct (IH _ s' l Hrun) as (E1 & E2 & E3 & E4); try done. 1-2: cbn [as_failures as_closed Close] in *; lia.
  - unfold auditWriter_exit in Ha. destruct (as_writer s), (as_closed s), (as_ch s) eqn:Hch; try done. injection Ha as <-.
    destruct (IH _ s' l Hrun) as (E1 & E2 & E3 & E4); try done. 1-2: cbn [as_failures as_closed] in *; lia.
Qed.

(** Nothing refused is everything stored. *)
Lemma no_refused t : length (refused t) = 0%nat ↔ stored t = t.*1.
Proof.
  assert (∀ t, (length (stored t) ≤ length t.*1)%nat) as Hle.
  { clear. induction t as [|[e []] t IHt]; cbn [with_fate Bool.eqb length fmap list_fmap]; [done|simpl; lia|simpl; lia]. }
  induction t as [|[e []] t IH]; [done|..]; cbn [with_fate Bool.eqb length fmap list_fmap fst].
  - rewrite IH. split; congruence.
  - split; [done|]. intros Heq. specialize (Hle t). apply (f_equal length) in Heq. simpl in Heq. lia.
Qed.

(** The writer exits only from an empty channel. *)
Lemma run_writer acts : ∀ s s', run acts s = Some s' → (as_writer s = false → as_closed s = true ∧ as_ch s = []) →
  as_writer s' = false → as_closed s' = true ∧ as_ch s' = [].
Proof.
  induction acts as [|a acts IH]; intros s s' Hrun Hw; cbn [run] in Hrun; [by injection Hrun as <-|].
  destruct (exec a s) as [s1|] eqn:Ha; [|done]. cbn [mbind option_bind] in Hrun. apply (IH s1 s' Hrun).
  destruct a as [e t|f| |]; cbn [exec] in Ha.
  - unfold audit in Ha. destruct (as_closed s) eqn:Hc; [injection Ha as <-; rewrite Hc; by apply Hw|].
    destruct t; [|case_bool_decide; [|done]]; injection Ha as <-;
      cbn [as_writer as_closed as_ch]; intros Hf; destruct (Hw Hf); congruence.
  - unfold auditWriter in Ha. destruct (as_writer s); [|done]. destruct (as_ch s); [done|].
    destruct (Append f a (as_log s)) as [log []]; [..|done]; by injection Ha as <-.
  - injection Ha as <-. cbn [Close as_writer as_closed as_ch]. intros Hf. split; [done|]. by apply Hw.
  - unfold auditWriter_exit in Ha. destruct (as_writer s), (as_closed s), (as_ch s); try done. by injection Ha as <-.
Qed.

(** ** Properties *)

(** C28. No audit event is lost unnoticed before [Close].  After any interleaving of
    handlers, the writer and [Close], every entry that a handler tried to queue was
    put into the channel, dropped after the timeout, or lost to the panic of a send
    after [Close].  Those put into the channel are, in order, the ones the writer
    took followed by those still waiting, at most 4096; the log has grown by
    exactly the taken entries it did not refuse, in order; and the failure count
    that the health endpoint reports is the number of dropped plus refused
    entries.  So it reports healthy exactly when nothing was dropped or refused;
    what a handler audits after [Close] is lost and not counted. *)
Theorem audit_accounting (log : AuditLog) (l : list AuditEntry) (acts : list action) (s : AuditState) :
  audit_rep log l → run acts (start log) = Some s → (∀ e, e ∈ accepted acts → codec_ok e) →
  Z.of_nat (length l) + Z.of_nat (length acts) < 2 ^ 64 →
  let taken := fates acts (start log) in
  attempted acts ≡ₚ accepted acts ++ dropped acts ++ late acts ∧
  accepted acts = taken.*1 ++ as_ch s ∧ (length (as_ch s) ≤ auditCh_cap)%nat ∧
  audit_rep (as_log s) (l ++ stored taken) ∧
  (health s).2 = Z.of_nat (length (dropped acts)) + Z.of_nat (length (refused taken)) ∧
  ((health s).1 = true ↔ dropped acts = [] ∧ stored taken = taken.*1).
Proof.
  intros Hrep Hrun Hok Hlen taken.
  destruct (run_accounts acts (start log) s l Hrun) as (E1 & E2 & E3 & E4); try done; cbn [start as_ch as_closed as_failures] in *; try lia.
  { apply Nat.le_0_l. }
  split; [apply attempted_split|]. split; [exact E1|]. split; [exact E2|]. split; [exact E3|]. split; [exact E4|]. cbn [health fst]. fold taken in E4. rewrite Z.eqb_eq, E4.
  rewrite <- no_refused. destruct (dropped acts); cbn [length]; [|split; [lia|by intros []]]. split; [intros; split; [done|lia]|lia].
Qed.

Definition by_writer (a : action) : bool := match a with WriterTakes _ | WriterExits => true | _ => false end.

(** Once closed, only the writer changes the state, and it exits with nothing
    waiting. *)
Lemma closed_step a s s1 : exec a s = Some s1 → as_closed s = true → (as_writer s = false → as_ch s = []) →
  as_closed s1 = true ∧ (as_writer s1 = false → as_ch s1 = []) ∧
  ((if by_writer a then 1 else 0) + length (as_ch s1) + (if as_writer s1 then 1 else 0) =
   length (as_ch s) + (if as_writer s then 1 else 0))%nat.
Proof.
  intros Ha Hc Hw. destruct a as [e t|f| |]; cbn [exec] in Ha; cbn [by_writer].
  - unfold audit in Ha. rewrite Hc in Ha. by injection Ha as <-.
  - unfold auditWriter in Ha. destruct (as_writer s); [|done]. destruct (as_ch s) as [|e ch]; [done|].
    destruct (Append f e (as_log s)) as [log []]; [..|done]; injection Ha as <-; cbn [as_closed as_writer as_ch length]; by split_and!.
  - injection Ha as <-. by split_and!.
  - unfold auditWriter_exit in Ha. rewrite Hc in Ha. destruct (as_writer s), (as_ch s); try done. injection Ha as <-. by split_and!.
Qed.

Definition writer_steps (acts : list action) : nat := length (filter (λ a, by_writer a = true) acts).

Lemma closed_run acts : ∀ s s', run acts s = Some s' → as_closed s = true → (as_writer s = false → as_ch s = []) →
  as_closed s' = true ∧ (as_writer s' = false → as_ch s' = []) ∧
  (writer_steps acts + length (as_ch s') + (if as_writer s' then 1 else 0) = length (as_ch s) + (if as_writer s then 1 else 0))%nat.
Proof.
  induction acts as [|a acts IH]; intros s s' Hrun Hc Hw; cbn [run] in Hrun; [injection Hrun as <-; by split_and!|].
  destruct (exec a s) as [s1|] eqn:Ha; [|done]. cbn [mbind option_bind] in Hrun.
  destruct (closed_step a s s1 Ha Hc Hw) as (Hc1 & Hw1 & Hn1). destruct (IH s1 s' Hrun Hc1 Hw1) as (? & ? & Hn). split_and!; try done.
  unfold writer_steps in *. destruct (by_writer a) eqn:Hcl;
    [rewrite filter_cons_True by done|rewrite filter_cons_False by congruence]; cbn [length]; lia.
Qed.

(** C29. [Close] ends with the queue drained.  Once the channel is closed no handler
    adds an entry, the writer takes at most one step per waiting entry and one
    more, and when it can take none it has exited with an empty channel: the wait
    of [Close] is over after exactly the waiting entries were taken. *)
Theorem close_drains_queue (s s' : AuditState) (acts : list action) :
  as_closed s = true → as_writer s = true → run acts s = Some s' →
  (writer_steps acts ≤ length (as_ch s) + 1)%nat ∧
  ((∀ f, exec (WriterTakes f) s' = None) → exec WriterExits s' = None → as_writer s' = false ∧ as_ch s' = []).
Proof.
  intros Hc Hw Hrun. destruct (closed_run acts s s' Hrun Hc ltac:(congruence)) as (Hc' & Hw0 & Hn). rewrite Hw in Hn. split; [lia|].
  intros Htake Hexit. specialize (Htake NoFault). cbn [exec] in *. unfold auditWriter, auditWriter_exit in *. rewrite Hc' in Hexit.
  destruct (as_writer s') eqn:Hw'.
  - destruct (as_ch s') as [|e ch]; [done|]. pose proof (Append_no_panic NoFault e (as_log s')) as Hp.
    by destruct (Append NoFault e (as_log s')) as [log []].
  - split; [done|]. by apply Hw0.
Qed.
End Queue.

(** ** Witnesses *)
Module DemoQueue.
Import MapBolt DemoAudit.
#[local] Existing Instance demo_codec.
#[local] Existing Instance demo_codec_laws.

Definition log0 : AuditLog := mkLog empty_bucket 0.
Lemma log0_rep : audit_rep log0 [].
Proof. split_and!; [done|done|by intros e []%not_elem_of_nil|]. intros k. apply Get_empty. Defined.

(** Two entries, of which the database refuses the first; a third is dropped, and a
    fourth comes after [Close]. *)
Definition demo_acts : list action :=
  [HandlerAudits e1 false; HandlerAudits e2 false; WriterTakes (CommitFails "disk full"); HandlerAudits e1 true; CloseCalled;
   HandlerAudits e2 false; WriterTakes NoFault; WriterExits].

Lemma audit_accounting_witness :
  lost_to_panic false demo_acts = [e2] ∧
  ∃ s, run demo_acts (start log0) = Some s ∧ health s = (false, 2) ∧ audit_rep (as_log s) [e2].
Proof.
  split; [reflexivity|].
  assert (health <$> run demo_acts (start log0) = Some (false, 2)) as Hh by (vm_compute; reflexivity).
  destruct (run demo_acts (start log0)) as [s|] eqn:Hrun; [|discriminate]. exists s. injection Hh as Hh1 Hh2.
  split; [reflexivity|]. split; [exact (f_equal2 pair Hh1 Hh2)|].
  destruct (audit_accounting log0 [] demo_acts s log0_rep Hrun) as (_ & _ & _ & Hrep & _).
  - intros e He. cbn in *. set_solver.
  - vm_compute. reflexivity.
  - exact Hrep.
Defined.

Definition demo_closed : AuditState := mkAS [e1; e2] true true log0 0.
Definition drain_acts : list action := [WriterTakes NoFault; HandlerAudits e1 false; CloseCalled; WriterTakes NoFault; WriterExits].

Lemma close_drains_queue_witness :
  ∃ s, run drain_acts demo_closed = Some s ∧ (writer_steps drain_acts ≤ length (as_ch demo_closed) + 1)%nat ∧ as_ch s = [].
Proof.
  assert ((λ s, (as_writer s, as_ch s)) <$> run drain_acts demo_closed = Some (false, [])) as Hh by (vm_compute; reflexivity).
  destruct (run drain_acts demo_closed) as [s|] eqn:Hrun; [|discriminate]. exists s. injection Hh as Hw Hch.
  destruct (close_drains_queue demo_closed s drain_acts eq_refl eq_refl Hrun) as [Hn Hd].
  split; [reflexivity|]. split; [exact Hn|]. apply Hd.
  - intros f. unfold exec, auditWriter. by rewrite Hw.
  - unfold exec, auditWriter_exit. by rewrite Hw.
Defined.
End DemoQueue.
