(* ===== verification/Violation.v ===== *)
(** * Violations

    [src/internal/violation/store.go] and [detector.go]: the two stores, and the
    detector with its subscribers.  A channel is a bounded buffer with a closed
    flag; [Record] runs concurrently with subscriptions, so its sends are
    separate steps. *)

From S2P Require Import Prelude GoJson Model Replay Bolt.

Record Violation := mkViolation {
  v_ID : string;
  v_TransactionID : string;
  v_PolicyID : string;
  v_Path : SCIONPath;
  v_EvidenceClass : string;
  v_ProofStatus : string;
  v_ViolatedClause : option (clause replay_err);
  v_Severity : string;
  v_OffendingHops : list ASHop;
  v_Timestamp : Z
}.

#[export] Instance clause_eq_dec {R} `{EqDecision R} : EqDecision (clause R).
Proof. solve_decision. Defined.
#[export] Instance Violation_eq_dec : EqDecision Violation.
Proof. solve_decision. Defined.

Inductive vstore_err :=
| MarshalingViolation (e : string)
| ViolationJSON (e : string)
| ViolationDB (e : string).

(** ** The store interface *)
Class ViolationStore (S : Type) := {
  vs_Append : fault → Violation → S → S * res vstore_err unit;
  vs_GetByID : fault → string → S → res vstore_err (option Violation);
  vs_GetByTxID : fault → string → S → res vstore_err (option Violation);
  vs_List : fault → S → res vstore_err (list Violation);
  vs_Count : fault → S → res vstore_err Z
}.

(** ** MemoryViolationStore *)
Record MemoryViolationStore := mkMVS {
  mv_violations : list Violation;
  mv_byID : gmap string Violation;
  mv_byTxID : gmap string Violation
}.

Definition NewMemoryViolationStore : MemoryViolationStore := mkMVS [] ∅ ∅.

Definition mv_Append (v : Violation) (s : MemoryViolationStore) : MemoryViolationStore :=
  mkMVS (mv_violations s ++ [v]) (<[v_ID v := v]> (mv_byID s)) (<[v_TransactionID v := v]> (mv_byTxID s)).

#[export] Instance MemoryViolationStore_Store : ViolationStore MemoryViolationStore := {|
  vs_Append _ v s := (mv_Append v s, Ok tt);
  vs_GetByID _ id s := Ok (mv_byID s !! id);
  vs_GetByTxID _ tx s := Ok (mv_byTxID s !! tx);
  vs_List _ s := Ok (mv_violations s);
  vs_Count _ s := Ok (Z.of_nat (length (mv_violations s)))
|}.

(** ** BoltViolationStore *)
Definition violationsBucket : bytes := "violations".
Definition violationsByTxBucket : bytes := "violations_by_tx".

Section BoltViolationStore.
Context `{!Bolt, !Codec Violation}.

Record BoltViolationStore := mkBVS {
  bv_violations : bucket;
  bv_byTx : bucket
}.

Definition NewBoltViolationStore (opened : res string (gmap bytes bucket)) (f : fault) : res vstore_err BoltViolationStore :=
  db ← OpenAndInit ViolationDB ViolationDB opened f [violationsBucket; violationsByTxBucket];
  match db !! violationsBucket, db !! violationsByTxBucket with
  | Some b1, Some b2 => Ok (mkBVS b1 b2)
  | _, _ => Panic
  end.

Definition bv_Append (f : fault) (v : Violation) (s : BoltViolationStore) : BoltViolationStore * res vstore_err unit :=
  match marshal v with
  | Err e => (s, Err (MarshalingViolation e))
  | Panic => (s, Panic)
  | Ok data =>
    Update ViolationDB f (λ s,
      b1 ← map_err ViolationDB (Put (v_ID v) data (bv_violations s));
      b2 ← map_err ViolationDB (Put (v_TransactionID v) (v_ID v) (bv_byTx s));
      Ok (mkBVS b1 b2, tt)) s
  end.

#[export] Instance BoltViolationStore_Store : ViolationStore BoltViolationStore := {|
  vs_Append := bv_Append;
  vs_GetByID f id s := GetByKey ViolationJSON ViolationDB f id (bv_violations s);
  vs_GetByTxID f tx s := GetViaIndex ViolationJSON ViolationDB f tx (bv_byTx s) (bv_violations s);
  vs_List f s := ListAll ViolationJSON ViolationDB f (bv_violations s);
  vs_Count f s := CountKeys ViolationDB f (bv_violations s)
|}.
End BoltViolationStore.

(** ** The detector *)
Record chan := mkChan { ch_buf : list Violation; ch_closed : bool }.

Definition chan_cap : nat := 64.

Record Detector (S : Type) := mkDetector {
  d_store : S;
  d_listeners : list nat;
  d_chans : gmap nat chan
}.
Arguments mkDetector {S}.
Arguments d_store {S}.
Arguments d_listeners {S}.
Arguments d_chans {S}.

Definition NewDetector {S} (store : S) : Detector S := mkDetector store [] ∅.

Definition classifySeverity (offending : list ASHop) : string :=
  if 3 <=? Z.of_nat (length offending) then "critical"
  else if 1 <=? Z.of_nat (length offending) then "high"
  else "medium".

Definition new_violation (id : string) (now : Z) (txID policyID : string) (violatedClause : option (clause replay_err))
    (path : SCIONPath) (offending : list ASHop) : Violation :=
  mkViolation id txID policyID path (NormalizeEvidenceClass (path_EvidenceClass path))
    (NormalizeProofStatus (path_ProofStatus path)) violatedClause (classifySeverity offending) offending now.

Section Detector.
Context {S : Type} `{!ViolationStore S}.

(** [Record] up to its snapshot of the listeners: a failed append is only
    logged. *)
Definition record_begin (f : fault) (v : Violation) (d : Detector S) : Detector S * list nat :=
  (mkDetector (vs_Append f v (d_store d)).1 (d_listeners d) (d_chans d), d_listeners d).

(** One iteration of the notification loop: a send that never blocks, but panics
    on a closed channel. *)
Definition send (v : Violation) (ch : nat) (d : Detector S) : res unit (Detector S) :=
  match d_chans d !! ch with
  | None => Panic
  | Some c =>
    if ch_closed c then Panic
    else if bool_decide (length (ch_buf c) < chan_cap)%nat
    then Ok (mkDetector (d_store d) (d_listeners d) (<[ch := mkChan (ch_buf c ++ [v]) false]> (d_chans d)))
    else Ok d
  end.

Fixpoint notify (v : Violation) (chs : list nat) (d : Detector S) : res unit (Detector S) :=
  match chs with
  | [] => Ok d
  | ch :: chs' => d' ← send v ch d; notify v chs' d'
  end.

(** [Record] when nothing else runs in between. *)
Definition RecordViolation (f : fault) (id : string) (now : Z) (txID policyID : string)
    (violatedClause : option (clause replay_err)) (path : SCIONPath) (offending : list ASHop) (d : Detector S) :
    res unit (Detector S * Violation) :=
  let v := new_violation id now txID policyID violatedClause path offending in
  let '(d1, listeners) := record_begin f v d in
  d2 ← notify v listeners d1;
  Ok (d2, v).

Definition Subscribe (d : Detector S) : Detector S * nat :=
  let ch := fresh (dom (d_chans d)) in
  (mkDetector (d_store d) (d_listeners d ++ [ch]) (<[ch := mkChan [] false]> (d_chans d)), ch).

(** Remove the first occurrence. *)
Fixpoint remove_first (ch : nat) (l : list nat) : list nat :=
  match l with
  | [] => []
  | x :: l' => if bool_decide (x = ch) then l' else x :: remove_first ch l'
  end.

Definition Unsubscribe (ch : nat) (d : Detector S) : res unit (Detector S) :=
  if bool_decide (ch ∈ d_listeners d) then
    match d_chans d !! ch with
    | None => Panic
    | Some c =>
      if ch_closed c then Panic
      else Ok (mkDetector (d_store d) (remove_first ch (d_listeners d)) (<[ch := mkChan (ch_buf c) true]> (d_chans d)))
    end
  else Ok d.

(** ** Concurrent use

    The calls of [Record] in flight are pairs of a violation and the channels it
    has still to send to. *)
Abbreviation flight := (list (Violation * list nat)).

(** The steps of concurrent callers; [quiet] restricts [Unsubscribe] to moments
    when no [Record] is in flight. *)
Inductive dstep (quiet : bool) : Detector S * flight → Detector S * flight → Prop :=
| DBegin f v d fl : dstep quiet (d, fl) ((record_begin f v d).1, fl ++ [(v, (record_begin f v d).2)])
| DSend i v ch chs d d' fl :
    fl !! i = Some (v, ch :: chs) → send v ch d = Ok d' → dstep quiet (d, fl) (d', <[i := (v, chs)]> fl)
| DEnd d fl1 v fl2 : dstep quiet (d, fl1 ++ (v, []) :: fl2) (d, fl1 ++ fl2)
| DSubscribe d fl : dstep quiet (d, fl) ((Subscribe d).1, fl)
| DUnsubscribe ch d d' fl : (quiet = true → fl = []) → Unsubscribe ch d = Ok d' → dstep quiet (d, fl) (d', fl)
| DReceive ch v buf cl d fl :
    d_chans d !! ch = Some (mkChan (v :: buf) cl) →
    dstep quiet (d, fl) (mkDetector (d_store d) (d_listeners d) (<[ch := mkChan buf cl]> (d_chans d)), fl).

(** Some call would panic now. *)
Definition panics (st : Detector S * flight) : Prop :=
  (∃ i v ch chs, st.2 !! i = Some (v, ch :: chs) ∧ send v ch st.1 = Panic) ∨ ∃ ch, Unsubscribe ch st.1 = Panic.

Definition open_chan (d : Detector S) (ch : nat) : Prop :=
  ∃ buf, d_chans d !! ch = Some (mkChan buf false).

(** Listeners are distinct open channels; buffers stay within their capacity. *)
Record det_ok (d : Detector S) : Prop := {
  dt_nodup : NoDup (d_listeners d);
  dt_open : ∀ ch, ch ∈ d_listeners d → open_chan d ch;
  dt_cap : ∀ ch c, d_chans d !! ch = Some c → (length (ch_buf c) ≤ chan_cap)%nat
}.

Lemma NewDetector_ok s : det_ok (NewDetector s).
Proof.
  split; simpl; [constructor|by intros ch []%not_elem_of_nil|].
  intros ch c. by rewrite lookup_empty.
Qed.

(** What a send does to an open channel. *)
Lemma send_open v ch d : open_chan d ch → (∀ c, d_chans d !! ch = Some c → (length (ch_buf c) ≤ chan_cap)%nat) →
  ∃ d', send v ch d = Ok d' ∧ d_store d' = d_store d ∧ d_listeners d' = d_listeners d ∧
    (∀ ch', ch' ≠ ch → d_chans d' !! ch' = d_chans d !! ch') ∧
    ∃ buf, d_chans d !! ch = Some (mkChan buf false) ∧
      d_chans d' !! ch = Some (mkChan (if decide (length buf < chan_cap)%nat then buf ++ [v] else buf) false).
Proof.
  intros [buf Hb] Hcap. unfold send. rewrite Hb. simpl. case_bool_decide as Hl.
  - eexists. split_and!; [done..| |].
    + intros ch' Hne. simpl. by rewrite lookup_insert_ne.
    + exists buf. simpl. by rewrite lookup_insert_eq, decide_True.
  - exists d. split_and!; [done..|]. exists buf. by rewrite decide_False.
Qed.

Lemma send_ok v ch d d' : det_ok d → open_chan d ch → send v ch d = Ok d' →
  det_ok d' ∧ ∀ ch', open_chan d ch' → open_chan d' ch'.
Proof.
  intros [Hnd Hop Hcap] Ho Hs. destruct (send_open v ch d Ho (Hcap ch)) as (d1 & Hs1 & _ & Hl & Hother & buf & Hb & Hb').
  rewrite Hs in Hs1. injection Hs1 as <-.
  assert (∀ ch', open_chan d ch' → open_chan d' ch') as Hopen.
  { intros ch' [b Hb2]. destruct (decide (ch' = ch)) as [->|Hne]; [by eexists|]. exists b. by rewrite Hother. }
  split; [|done]. split; rewrite ?Hl; [done|auto|].
  intros ch' c Hc. destruct (decide (ch' = ch)) as [->|Hne]; [|rewrite Hother in Hc by done; by apply (Hcap ch')].
  rewrite Hb' in Hc. injection Hc as <-. simpl. pose proof (Hcap ch _ Hb). simpl in *.
  case_decide; rewrite ?length_app; simpl; lia.
Qed.

Lemma remove_first_elem ch l x : NoDup l → x ∈ remove_first ch l → x ∈ l ∧ x ≠ ch.
Proof.
  induction 1 as [|y l Hy Hl IH]; simpl; [intros []%not_elem_of_nil|]. case_bool_decide as Heq.
  - subst y. intros Hx. split; [by right|]. by intros ->.
  - intros [->|Hx]%elem_of_cons; [split; [by left|done]|]. destruct (IH Hx). split; [by right|done].
Qed.

Lemma remove_first_NoDup ch l : NoDup l → NoDup (remove_first ch l).
Proof.
  induction 1 as [|y l Hy Hl IH]; simpl; [constructor|]. case_bool_decide; [done|].
  constructor; [|done]. intros Hx%remove_first_elem; [|done]. by destruct Hx.
Qed.

Lemma subscribe_ok d : det_ok d → det_ok (Subscribe d).1 ∧ ∀ ch, open_chan d ch → open_chan (Subscribe d).1 ch.
Proof.
  intros [Hnd Hop Hcap]. unfold Subscribe. set (n := fresh (dom (d_chans d))). simpl.
  assert (d_chans d !! n = None) as Hn by (apply not_elem_of_dom, is_fresh).
  assert (∀ ch, open_chan d ch → ch ≠ n) as Hne by (intros ch [buf Hb] ->; congruence).
  assert (∀ ch, open_chan d ch → open_chan (mkDetector (d_store d) (d_listeners d ++ [n]) (<[n:=mkChan [] false]> (d_chans d))) ch) as Hkeep.
  { intros ch Ho. destruct (Ho) as [buf Hb]. exists buf. simpl. rewrite lookup_insert_ne; [done|]. intros <-. by apply (Hne n). }
  split; [|done]. split; simpl.
  - apply NoDup_snoc; [done|]. intros Hin. by apply (Hne n (Hop n Hin)).
  - intros ch [Hin| ->%list_elem_of_singleton]%elem_of_app; [auto|]. exists []. simpl. by rewrite lookup_insert_eq.
  - intros ch c. rewrite lookup_insert_Some. intros [[<- <-]|[_ Hc]]; [simpl; unfold chan_cap; lia|eauto].
Qed.

Lemma unsubscribe_ok ch d d' : det_ok d → Unsubscribe ch d = Ok d' → det_ok d'.
Proof.
  intros [Hnd Hop Hcap] Hu. unfold Unsubscribe in Hu. case_bool_decide as Hin; [|by simplify_eq].
  destruct (Hop ch Hin) as [buf Hb]. rewrite Hb in Hu. injection Hu as <-. split; simpl.
  - by apply remove_first_NoDup.
  - intros ch' Hin'. apply remove_first_elem in Hin' as [Hin' Hne]; [|done]. destruct (Hop ch' Hin') as [b Hb'].
    exists b. simpl. by rewrite lookup_insert_ne.
  - intros ch' c. rewrite lookup_insert_Some. intros [[<- <-]|[_ Hc]]; [apply (Hcap ch _ Hb)|eauto].
Qed.

Lemma receive_ok ch v buf cl d : det_ok d → d_chans d !! ch = Some (mkChan (v :: buf) cl) →
  let d' := mkDetector (d_store d) (d_listeners d) (<[ch := mkChan buf cl]> (d_chans d)) in
  det_ok d' ∧ ∀ ch', open_chan d ch' → open_chan d' ch'.
Proof.
  intros [Hnd Hop Hcap] Hc d'. assert (∀ ch', open_chan d ch' → open_chan d' ch') as Hopen.
  { intros ch' [b Hb]. unfold open_chan; simpl. destruct (decide (ch = ch')) as [<-|]; [|exists b; by rewrite lookup_insert_ne].
    rewrite lookup_insert_eq. simplify_eq. by exists buf. }
  split; [|done]. split; simpl; [done|auto|].
  intros ch' c. rewrite lookup_insert_Some. intros [[<- <-]|[_ Hx]]; [|eauto].
  pose proof (Hcap ch _ Hc). simpl in *. lia.
Qed.

(** In a quiet run every channel still to be sent to is open. *)
Definition quiet_inv (st : Detector S * flight) : Prop :=
  det_ok st.1 ∧ ∀ v chs ch, (v, chs) ∈ st.2 → ch ∈ chs → open_chan st.1 ch.

Lemma quiet_step st st' : quiet_inv st → dstep true st st' → quiet_inv st'.
Proof.
  intros [Hd Hfl] Hs. destruct Hs as [f v d fl|i v ch chs d d' fl Hi Hsend|d fl1 v fl2|d fl|ch d d' fl Hq Hu|ch v buf cl d fl Hc];
    cbn [fst snd] in *.
  - assert (det_ok (record_begin f v d).1) as Hd' by (destruct Hd; by split). split; [done|].
    intros v' chs' ch' [Hin|Heq%list_elem_of_singleton]%elem_of_app Hch; [by apply (Hfl v' chs')|]. simplify_eq.
    by apply (dt_open d Hd).
  - assert (open_chan d ch) as Ho by (apply (Hfl v (ch :: chs)); [by eapply list_elem_of_lookup_2|by left]).
    destruct (send_ok v ch d d' Hd Ho Hsend) as [Hd' Hkeep]. split; [done|].
    intros v' chs' ch' Hin Hch. apply Hkeep.
    apply list_elem_of_lookup in Hin as [j Hj]. cbn [snd] in Hj. apply list_lookup_insert_Some in Hj as [(_ & [= <- <-] & _)|[_ Hj]];
      [|apply (Hfl v' chs'); [by eapply list_elem_of_lookup_2|done]].
    apply (Hfl v (ch :: chs)); [by eapply list_elem_of_lookup_2|by right].
  - split; [done|]. intros v' chs' ch' Hin Hch. apply (Hfl v' chs'); [|done]. cbn [snd] in Hin.
    apply elem_of_app in Hin as [Hin|Hin]; apply elem_of_app; [by left|right; by right].
  - destruct (subscribe_ok d Hd) as [Hd' Hkeep]. split; [done|]. intros v' chs' ch' Hin Hch. apply Hkeep. by apply (Hfl v' chs').
  - rewrite (Hq eq_refl) in *. split; [by eapply unsubscribe_ok|]. intros v' chs' ch' []%not_elem_of_nil.
  - destruct (receive_ok ch v buf cl d Hd Hc) as [Hd' Hkeep]. split; [done|]. intros v' chs' ch' Hin Hch.
    apply Hkeep. by apply (Hfl v' chs').
Qed.

(** [Record] without interleaving. *)
Lemma record_ok (f : fault) (id : string) (now : Z) (txID policyID : string)
    (cl : option (clause replay_err)) (path : SCIONPath) (offending : list ASHop) (d : Detector S) :
  det_ok d →
  ∃ d' v, RecordViolation f id now txID policyID cl path offending d = Ok (d', v) ∧ det_ok d' ∧
    v = new_violation id now txID policyID cl path offending ∧ d_store d' = (vs_Append f v (d_store d)).1 ∧
    ∀ ch c, d_chans d !! ch = Some c →
      d_chans d' !! ch = Some (if decide (ch ∈ d_listeners d ∧ (length (ch_buf c) < chan_cap)%nat)
                               then mkChan (ch_buf c ++ [v]) (ch_closed c) else c).
Proof.
  intros Hd. unfold RecordViolation. set (v := new_violation id now txID policyID cl path offending).
  set (d1 := (record_begin f v d).1).
  assert (∀ chs dd, NoDup chs → det_ok dd → (∀ ch, ch ∈ chs → open_chan dd ch) →
    ∃ d2, notify v chs dd = Ok d2 ∧ det_ok d2 ∧ d_store d2 = d_store dd ∧
      ∀ ch c, d_chans dd !! ch = Some c →
        d_chans d2 !! ch = Some (if decide (ch ∈ chs ∧ (length (ch_buf c) < chan_cap)%nat)
                                 then mkChan (ch_buf c ++ [v]) (ch_closed c) else c)) as Hloop.
  { induction chs as [|ch0 chs IH]; intros dd Hnd Hdd Hop.
    { exists dd. split_and!; [done..|]. intros ch c Hc. rewrite decide_False; [done|]. intros [[]%not_elem_of_nil _]. }
    apply NoDup_cons in Hnd as [Hch0 Hnd]. assert (open_chan dd ch0) as Ho by (apply Hop; by left).
    destruct (send_open v ch0 dd Ho (dt_cap dd Hdd ch0)) as (d2 & Hs & Hst & _ & Hother & buf & Hb & Hb').
    destruct (send_ok v ch0 dd d2 Hdd Ho Hs) as [Hd2 Hkeep].
    destruct (IH d2 Hnd Hd2) as (d3 & Hn & Hd3 & Hst3 & Hch3); [intros; apply Hkeep, Hop; by right|].
    exists d3. simpl. rewrite Hs. simpl. split_and!; [done|done|congruence|].
    intros ch c Hc. destruct (decide (ch = ch0)) as [->|Hne].
    - rewrite (Hch3 ch0 _ Hb'), decide_False by tauto. rewrite Hb in Hc. injection Hc as <-. simpl. f_equal.
      destruct (decide (length buf < chan_cap)%nat); [rewrite decide_True by (split; [by left|done]); done|].
      rewrite decide_False by tauto. done.
    - rewrite (Hch3 ch c) by (rewrite Hother; done). f_equal.
      apply decide_ext. rewrite elem_of_cons. tauto. }
  destruct (Hloop (d_listeners d) d1) as (d2 & Hn & Hd2 & Hst & Hch).
  - apply (dt_nodup d Hd).
  - destruct Hd; by split.
  - apply (dt_open d Hd).
  - exists d2, v. unfold record_begin. fold d1. change (mkDetector _ _ _) with d1. rewrite Hn. simpl.
    split_and!; [done..|]. intros ch c Hc. by apply Hch.
Qed.

(** ** Properties *)

(** Recording notifies every listener.  When no other call interleaves,
    [Record] on a detector whose listeners are open returns without panicking,
    stores the violation, and puts it at the end of the queue of every listener
    that has room; a full listener keeps its queue of 64 and misses the event;
    other channels are untouched. *)
Theorem record_notifies_listeners (f : fault) (id : string) (now : Z) (txID policyID : string)
    (cl : option (clause replay_err)) (path : SCIONPath) (offending : list ASHop) (d : Detector S) :
  det_ok d →
  ∃ d' v, RecordViolation f id now txID policyID cl path offending d = Ok (d', v) ∧ det_ok d' ∧
    v = new_violation id now txID policyID cl path offending ∧ d_store d' = (vs_Append f v (d_store d)).1 ∧
    ∀ ch c, d_chans d !! ch = Some c →
      d_chans d' !! ch = Some (if decide (ch ∈ d_listeners d ∧ (length (ch_buf c) < chan_cap)%nat)
                               then mkChan (ch_buf c ++ [v]) (ch_closed c) else c).
Proof. apply record_ok. Qed.

(** Quiet use never panics.  In every run of concurrent [Record],
    [Subscribe] and receiving in which [Unsubscribe] is called only while no
    [Record] is between its snapshot and its last send, no send meets a closed
    channel and no channel is closed twice. *)
Theorem quiet_runs_never_panic (s : S) (st : Detector S * flight) :
  rtc (dstep true) (NewDetector s, []) st → ¬ panics st.
Proof.
  intros Hr. assert (quiet_inv st) as [Hd Hfl].
  { assert (quiet_inv (NewDetector s, [])) as H0 by (split; [apply NewDetector_ok|by intros ? ? ? []%not_elem_of_nil]).
    induction Hr as [|st1 st2 st3 Hs _ IH]; [done|]. apply IH. by eapply quiet_step. }
  intros [(i & v & ch & chs & Hi & Hp)|[ch Hu]].
  - assert (open_chan st.1 ch) as Ho by (apply (Hfl v (ch :: chs)); [by eapply list_elem_of_lookup_2|by left]).
    destruct (send_open v ch st.1 Ho (dt_cap _ Hd ch)) as (d' & Hs & _). congruence.
  - unfold Unsubscribe in Hu. case_bool_decide as Hin; [|done]. destruct (dt_open _ Hd ch Hin) as [buf Hb].
    by rewrite Hb in Hu.
Qed.

(** C39. Unsubscribing during a record panics.  From every state with one
    listener, a [Record] that has taken its snapshot followed by [Unsubscribe] of
    that listener leads to a send on a closed channel, which panics: the send is
    not protected by the lock under which the channel is closed. *)
Theorem unsubscribe_race_panics (d : Detector S) (ch : nat) (f : fault) (v : Violation) :
  det_ok d → d_listeners d = [ch] →
  ∃ st, rtc (dstep false) (d, []) st ∧ panics st.
Proof.
  intros Hd Hl. set (d1 := (record_begin f v d).1).
  assert (det_ok d1) as Hd1 by (destruct Hd; by split).
  destruct (dt_open d Hd ch) as [buf Hb]; [rewrite Hl; by left|].
  assert (Unsubscribe ch d1 = Ok (mkDetector (d_store d1) [] (<[ch := mkChan buf true]> (d_chans d)))) as Hu.
  { unfold Unsubscribe, d1, record_begin; simpl. rewrite Hl, bool_decide_true by (by left). rewrite Hb. simpl.
    by rewrite bool_decide_true. }
  eexists. split.
  - eapply rtc_l; [apply (DBegin false f v)|]. eapply rtc_l; [|apply rtc_refl].
    eapply (DUnsubscribe false ch); [done|exact Hu].
  - left. exists 0%nat, v, ch, []. simpl. rewrite Hl. split; [done|]. unfold send; simpl. by rewrite lookup_insert_eq.
Qed.
End Detector.

(** ** The two stores agree *)
Section Stores.
Context `{!Bolt, !BoltLaws, !Codec Violation, !CodecLaws Violation}.

Definition vdata (v : Violation) : bytes := match marshal v with Ok d => d | _ => "" end.

Definition v_storable (v : Violation) : Prop :=
  codec_ok v ∧ 0 < len (v_ID v) ≤ MaxKeySize ∧ 0 < len (v_TransactionID v) ≤ MaxKeySize ∧ len (vdata v) ≤ MaxValueSize.

Definition append_violations {S} `{!ViolationStore S} (s : S) (vs : list Violation) : S :=
  foldl (λ s v, (vs_Append NoFault v s).1) s vs.

Lemma unmarshal_vdata v : codec_ok v → unmarshal (vdata v) = Ok v.
Proof.
  intros Hv. unfold vdata. pose proof (marshal_ok v Hv). destruct (marshal v) eqn:E; [|done..].
  by apply unmarshal_marshal.
Qed.

(** The buckets hold the violations appended so far. *)
Definition bv_rep (s : BoltViolationStore) (l : list Violation) : Prop :=
  (∀ k, Get k (bv_violations s) = vdata <$> last_match (λ v, v_ID v = k) l) ∧
  (∀ k, Get k (bv_byTx s) = v_ID <$> last_match (λ v, v_TransactionID v = k) l).

Definition mv_rep (s : MemoryViolationStore) (l : list Violation) : Prop :=
  mv_violations s = l ∧ (∀ k, mv_byID s !! k = last_match (λ v, v_ID v = k) l) ∧
  (∀ k, mv_byTxID s !! k = last_match (λ v, v_TransactionID v = k) l).

Lemma bv_append_rep s l v : bv_rep s l → v_storable v →
  ∃ s', bv_Append NoFault v s = (s', Ok tt) ∧ bv_rep s' (l ++ [v]).
Proof.
  intros [Hid Htx] (Hc & H1 & H2 & H3). unfold bv_Append. pose proof (marshal_ok v Hc) as Hm.
  assert (∀ d, marshal v = Ok d → d = vdata v) as Hd by (intros d Hmd; unfold vdata; by rewrite Hmd).
  destruct (marshal v) as [d|e|] eqn:Em; [|done|done]. rewrite (Hd d eq_refl).
  destruct (Put_storable (v_ID v) (vdata v) (bv_violations s)) as [b1 P1]; [done|done|].
  destruct (Put_storable (v_TransactionID v) (v_ID v) (bv_byTx s)) as [b2 P2];
    [done|unfold MaxKeySize, MaxValueSize in *; lia|].
  unfold Update. rewrite P1, P2. simpl. eexists. split; [done|]. split; simpl.
  - apply (Get_snoc v_ID vdata _ _ _ _ Hid P1).
  - apply (Get_snoc v_TransactionID v_ID _ _ _ _ Htx P2).
Qed.

Lemma append_reps vs : ∀ sm sb l, mv_rep sm l → bv_rep sb l → Forall v_storable vs →
  mv_rep (append_violations sm vs) (l ++ vs) ∧ bv_rep (append_violations sb vs) (l ++ vs).
Proof.
  induction vs as [|v vs IH]; intros sm sb l Hm Hb Hs; simpl; [by rewrite app_nil_r|].
  apply Forall_cons in Hs as [Hv Hs]. destruct (bv_append_rep sb l v Hb Hv) as (sb' & -> & Hb').
  replace (l ++ v :: vs) with ((l ++ [v]) ++ vs) by (by rewrite <- app_assoc). apply IH; [|done|done].
  destruct Hm as (H1 & H2 & H3). split_and!; simpl; [by rewrite H1| |].
  - intros k. rewrite last_match_app, <- H2. apply lookup_insert.
  - intros k. rewrite last_match_app, <- H3. apply lookup_insert.
Qed.

(** The two violation stores agree.  After appending the same violations,
    with different identifiers and within the limits of the database, the
    in-memory and the bbolt store give the same answer to every lookup by
    identifier and by transaction, the most recent violation of a transaction
    winning, and to [Count]. *)
Theorem violation_stores_agree (vs : list Violation) (id tx : string) :
  NoDup (v_ID <$> vs) → Forall v_storable vs →
  let sm := append_violations NewMemoryViolationStore vs in
  let sb := append_violations (mkBVS empty_bucket empty_bucket) vs in
  vs_GetByID NoFault id sm = vs_GetByID NoFault id sb ∧
  vs_GetByTxID NoFault tx sm = vs_GetByTxID NoFault tx sb ∧
  vs_GetByTxID NoFault tx sm = Ok (last_match (λ v, v_TransactionID v = tx) vs) ∧
  vs_Count NoFault sm = vs_Count NoFault sb.
Proof.
  intros Hnd Hst sm sb.
  destruct (append_reps vs NewMemoryViolationStore (mkBVS empty_bucket empty_bucket) []) as [(H1 & H2 & H3) (H4 & H5)];
    [done|by split; intros k; apply Get_empty|done|]. fold sm sb in H1, H2, H3, H4, H5. simpl in H1, H2, H3, H4, H5.
  assert (∀ v, v ∈ vs → codec_ok v) as Hok by (intros v Hv; rewrite Forall_forall in Hst; apply (Hst v Hv)).
  simpl. unfold GetByKey, GetViaIndex, CountKeys, View, KeyN. rewrite H2, H3, H4, H5. split_and!.
  - destruct (last_match (λ v, v_ID v = id) vs) as [v|] eqn:E; [|done]. simpl.
    apply last_match_Some in E as [Hv _]. by rewrite unmarshal_vdata by auto.
  - destruct (last_match (λ v, v_TransactionID v = tx) vs) as [v|] eqn:E; [|done]. simpl.
    apply last_match_Some in E as [Hv _]. rewrite H4, (last_match_unique v_ID) by done. simpl.
    by rewrite unmarshal_vdata by auto.
  - done.
  - rewrite H1. do 2 f_equal. rewrite <- (length_fmap (λ v, (v_ID v, vdata v)) vs). symmetry.
    apply Permutation_length, NoDup_Permutation.
    + apply (strict_sorted_NoDup (λ x y : bytes * bytes, blt x.1 y.1 = true)); [|apply entries_sorted].
      intros x Hx. by rewrite blt_irrefl in Hx.
    + apply (NoDup_fmap_1 fst). by rewrite <- list_fmap_compose.
    + intros [k d]. rewrite entries_Get, H4, fmap_Some, list_elem_of_fmap. split.
      * intros (v & [Hv <-]%last_match_Some & ->). by exists v.
      * intros (v & Heq & Hv). simplify_eq. exists v. by rewrite (last_match_unique v_ID).
Qed.
End Stores.

(** ** Witnesses *)
Module DemoViolation.
Import MapBolt.
Definition bad_hop : ASHop := mkHop "3-ff00:0:330" 3 "ff00:0:330" "".
Definition bad_path : SCIONPath := mkPath "" [bad_hop] "fp" "" "".
Definition v1 : Violation := new_violation "v-1" 5 "tx-1" "swiss" None bad_path [bad_hop].
Definition v2 : Violation := new_violation "v-2" 6 "tx-1" "swiss" None bad_path [bad_hop].

(** A detector with one subscriber. *)
Definition d0 : Detector MemoryViolationStore := (Subscribe (NewDetector NewMemoryViolationStore)).1.

Lemma d0_ok : det_ok d0.
Proof. apply subscribe_ok, NewDetector_ok. Qed.

Lemma record_notifies_listeners_witness :
  ∃ d' v, RecordViolation NoFault "v-1" 5 "tx-1" "swiss" None bad_path [bad_hop] d0 = Ok (d', v) ∧ det_ok d' ∧
    v = new_violation "v-1" 5 "tx-1" "swiss" None bad_path [bad_hop] ∧
    d_store d' = (vs_Append NoFault v (d_store d0)).1 ∧
    ∀ ch c, d_chans d0 !! ch = Some c →
      d_chans d' !! ch = Some (if decide (ch ∈ d_listeners d0 ∧ (length (ch_buf c) < chan_cap)%nat)
                               then mkChan (ch_buf c ++ [v]) (ch_closed c) else c).
Proof. apply (record_notifies_listeners NoFault "v-1" 5 "tx-1" "swiss" None bad_path [bad_hop] d0). apply d0_ok. Defined.

Lemma quiet_runs_never_panic_witness :
  ¬ panics ((record_begin NoFault v1 d0).1, [(v1, d_listeners d0)]).
Proof.
  apply (quiet_runs_never_panic NewMemoryViolationStore). eapply rtc_l; [apply DSubscribe|].
  eapply rtc_l; [apply (DBegin true NoFault v1)|]. apply rtc_refl.
Defined.

Lemma unsubscribe_race_panics_witness :
  ∃ st, rtc (dstep false) (d0, []) st ∧ panics st.
Proof. apply (unsubscribe_race_panics d0 0 NoFault v1); [apply d0_ok|vm_compute; reflexivity]. Defined.

#[local] Instance demo_codec : Codec Violation := {|
  marshal v := if bool_decide (v_ID v = "v-1") then Ok "one" else if bool_decide (v_ID v = "v-2") then Ok "two" else Err "unknown";
  unmarshal d := if bool_decide (d = "one") then Ok v1 else if bool_decide (d = "two") then Ok v2 else Err "syntax";
  codec_ok v := v = v1 ∨ v = v2
|}.

#[local] Instance demo_codec_laws : CodecLaws Violation.
Proof.
  constructor; simpl.
  - intros x [->| ->]; reflexivity.
  - intros x. by repeat case_bool_decide.
  - intros x d [->| ->] Hd; injection Hd as <-; reflexivity.
  - reflexivity.
Qed.

Lemma violation_stores_agree_witness :
  let sm := append_violations NewMemoryViolationStore [v1; v2] in
  let sb := append_violations (mkBVS empty_bucket empty_bucket) [v1; v2] in
  vs_GetByID NoFault "v-1" sm = vs_GetByID NoFault "v-1" sb ∧
  vs_GetByTxID NoFault "tx-1" sm = vs_GetByTxID NoFault "tx-1" sb ∧
  vs_GetByTxID NoFault "tx-1" sm = Ok (last_match (λ v, v_TransactionID v = "tx-1") [v1; v2]) ∧
  vs_Count NoFault sm = vs_Count NoFault sb.
Proof.
  apply (violation_stores_agree [v1; v2] "v-1" "tx-1").
  - apply (bool_decide_unpack _). vm_compute. exact I.
  - repeat constructor; simpl; auto; vm_compute; discriminate.
Defined.
End DemoViolation.
