(* ===== verification/Node.v ===== *)
(** * Validator nodes

    [src/internal/dlt/node.go] and [transport_local.go]: a validator that votes
    on the proposals of others and proposes settlements itself, and the
    in-process transport.  The messages a proposer receives before its deadline
    are an argument of [ProposeSettlement]; what a node sends is part of its
    result. *)

From S2P Require Import Prelude GoJson Ledger Consensus Bolt.

(** ** LocalTransport

    The inboxes of all validators are shared; a transport adds its own closed
    flag and blocked peers. *)
Record LocalTransport := mkLT {
  lt_localID : string;
  lt_blocked : gset string;
  lt_closed : bool
}.

(** A channel: the messages in it, and whether its owner has closed it. *)
Record inbox := mkInbox { q_msgs : list ConsensusMessage; q_closed : bool }.

(** Inboxes hold at most 64 messages; a full one blocks the sender until its
    context is done. *)
Abbreviation inboxes := (gmap string inbox).
Definition inbox_cap : nat := 64.

Inductive transport_err :=
| TransportClosed
| ValidatorBlocked (id : string)
| UnknownValidator (id : string)
| MarshalingMessage (e : string)
| UnmarshalingMessage (e : string)
| ContextDone.

Definition NewLocalTransport (localID : string) : LocalTransport := mkLT localID ∅ false.

Definition NewLocalTransportSet (ids : list string) : gmap string LocalTransport * inboxes :=
  (list_to_map ((λ id, (id, NewLocalTransport id)) <$> ids), list_to_map ((λ id, (id, mkInbox [] false)) <$> ids)).

Section Transport.
Context `{!Codec ConsensusMessage}.

(** [Send]; sending on a closed channel panics. *)
Definition Send (t : LocalTransport) (to : string) (msg : ConsensusMessage) (peers : inboxes) :
    inboxes * res transport_err unit :=
  if lt_closed t then (peers, Err TransportClosed)
  else if bool_decide (to ∈ lt_blocked t) then (peers, Err (ValidatorBlocked to))
  else match peers !! to with
       | None => (peers, Err (UnknownValidator to))
       | Some q =>
         match marshal msg with
         | Err e => (peers, Err (MarshalingMessage e))
         | Panic => (peers, Panic)
         | Ok data =>
           match unmarshal data with
           | Err e => (peers, Err (UnmarshalingMessage e))
           | Panic => (peers, Panic)
           | Ok clone =>
             if q_closed q then (peers, Panic)
             else if bool_decide (length (q_msgs q) < inbox_cap)%nat
             then (<[to := mkInbox (q_msgs q ++ [clone]) false]> peers, Ok tt)
             else (peers, Err ContextDone)
           end
         end
       end.

(** [Broadcast] to the peers in the order of the map iteration; the first error
    is kept. *)
Fixpoint broadcast_loop (t : LocalTransport) (ids : list string) (msg : ConsensusMessage) (peers : inboxes)
    (firstErr : option transport_err) : inboxes * res transport_err unit :=
  match ids with
  | [] => (peers, match firstErr with None => Ok tt | Some e => Err e end)
  | id :: ids' =>
    match Send t id msg peers with
    | (peers', Err e) => broadcast_loop t ids' msg peers' (match firstErr with None => Some e | _ => firstErr end)
    | (peers', Ok _) => broadcast_loop t ids' msg peers' firstErr
    | (peers', Panic) => (peers', Panic)
    end
  end.

Definition Broadcast (t : LocalTransport) (order : list string) (msg : ConsensusMessage) (peers : inboxes) :
    inboxes * res transport_err unit :=
  broadcast_loop t (filter (λ id, id ≠ lt_localID t) order) msg peers None.

(** [Receive] when a message is there, the inbox is closed and drained, or the
    context ends. *)
Definition Receive (t : LocalTransport) (peers : inboxes) : inboxes * res transport_err ConsensusMessage :=
  match peers !! lt_localID t with
  | Some (mkInbox (m :: q) c) => (<[lt_localID t := mkInbox q c]> peers, Ok m)
  | Some (mkInbox [] true) => (peers, Err TransportClosed)
  | _ => (peers, Err ContextDone)
  end.

Definition Close (t : LocalTransport) (peers : inboxes) : LocalTransport * inboxes :=
  if lt_closed t then (t, peers)
  else (mkLT (lt_localID t) (lt_blocked t) true,
        alter (λ q, mkInbox (q_msgs q) true) (lt_localID t) peers).
Definition BlockValidator (id : string) (t : LocalTransport) : LocalTransport :=
  mkLT (lt_localID t) ({[id]} ∪ lt_blocked t) (lt_closed t).
Definition UnblockValidator (id : string) (t : LocalTransport) : LocalTransport :=
  mkLT (lt_localID t) (lt_blocked t ∖ {[id]}) (lt_closed t).
End Transport.

(** ** ValidatorNode *)
Record ValidatorNode := mkNode {
  n_ID : string;
  n_Ledger : Ledger;
  n_validators : list ValidatorState;
  n_pendingMsgs : gmap string (list ConsensusMessage)
}.

Definition NewValidatorNode (id : string) (vs : list ValidatorState) : ValidatorNode :=
  mkNode id (NewLedger vs) vs ∅.

Definition set_ledger (l : Ledger) (n : ValidatorNode) : ValidatorNode :=
  mkNode (n_ID n) l (n_validators n) (n_pendingMsgs n).
Definition with_payload (d : bytes) (m : ConsensusMessage) : ConsensusMessage :=
  mkMsg (m_Type m) (m_TxID m) (m_ValidatorID m) (m_Round m) d (m_Timestamp m).

Section Node.
Context `{!Codec Transaction}.

(** The second half of [handleProposal]: vote and answer the proposer. *)
Definition vote_on (now : Z) (proposal : ConsensusMessage) (n : ValidatorNode) : option ConsensusMessage :=
  match Vote now (ballot_for (n_ID n) proposal) (n_Ledger n) with
  | Ok vote => Some (ballot_for (n_ID n) vote)
  | _ => None
  end.

(** [handleProposal]: the vote it sends to the proposer, if any. *)
Definition handleProposal (now now' : Z) (proposal : ConsensusMessage) (n : ValidatorNode) :
    ValidatorNode * option ConsensusMessage :=
  if 0 <? len (m_Payload proposal) then
    match unmarshal (m_Payload proposal) with
    | Ok tx =>
      let '(l1, p) := new_tx tx (n_Ledger n) in
      match SubmitTransactionIfAbsent now p l1 with
      | (l2, Ok _) => (set_ledger l2 n, vote_on now' proposal (set_ledger l2 n))
      | (l2, _) => (set_ledger l2 n, None)
      end
    | _ => (n, None)
    end
  else (n, vote_on now' proposal n).

Definition handleCommit (msg : ConsensusMessage) (n : ValidatorNode) : ValidatorNode :=
  set_ledger (Commit msg (n_Ledger n)).1 n.

(** The dispatch of [Run] on one received message: the vote it sends, if any. *)
Definition dispatch (now now' : Z) (msg : ConsensusMessage) (n : ValidatorNode) :
    ValidatorNode * option ConsensusMessage :=
  if bool_decide (m_Type msg = MsgPropose) then handleProposal now now' msg n
  else if bool_decide (m_Type msg = MsgCommit) then (handleCommit msg n, None)
  else (n, None).

Definition is_yes (m : ConsensusMessage) : Z := if bool_decide (m_Payload m = "yes") then 1 else 0.

(** Votes buffered for the transaction: how many, and how many say yes. *)
Fixpoint drain (ms : list ConsensusMessage) (collected yes : Z) : Z * Z :=
  match ms with
  | [] => (collected, yes)
  | m :: ms' => if bool_decide (m_Type m = MsgVote) then drain ms' (collected + 1) (yes + is_yes m)
                else drain ms' collected yes
  end.

(** The collection loop over the messages received before the deadline. *)
Fixpoint collect_loop (txID : string) (needed : Z) (inbox : list ConsensusMessage) (collected yes : Z)
    (buf : gmap string (list ConsensusMessage)) : Z * gmap string (list ConsensusMessage) :=
  if collected <? needed then
    match inbox with
    | [] => (yes, buf)
    | m :: inbox' =>
      if negb (bool_decide (m_Type m = MsgVote)) || negb (bool_decide (m_TxID m = txID)) then
        collect_loop txID needed inbox' collected yes (<[m_TxID m := default [] (buf !! m_TxID m) ++ [m]]> buf)
      else collect_loop txID needed inbox' (collected + 1) (yes + is_yes m) buf
    end
  else (yes, buf).

(** [ProposeSettlement] of the transaction at [p]: the node, the messages
    broadcast, the result and the error. *)
Definition ProposeSettlement (clk : clock) (first : string) (p : loc) (inbox : list ConsensusMessage)
    (n : ValidatorNode) : ValidatorNode * list ConsensusMessage * (option ConsensusResult * res ledger_err unit) :=
  let fail (l : Ledger) (txID : string) (sent : list ConsensusMessage) (round votes : Z) (e : ledger_err) :=
    (set_ledger l n, sent, (Some (mkCR false round votes txID), Err e)) in
  match heap (n_Ledger n) !! p with
  | None => (n, [], (None, Panic))
  | Some tx =>
    let txID := tx_ID tx in
    match SubmitTransaction (clk 0%nat) p (n_Ledger n) with
    | (l1, Panic) => (set_ledger l1 n, [], (None, Panic))
    | (l1, Err e) => fail l1 txID [] 0 0 e
    | (l1, Ok _) =>
      match ProposeBlock (clk 1%nat) first (n_ID n) l1 with
      | (l2, Panic) => (set_ledger l2 n, [], (None, Panic))
      | (l2, Err e) => fail (CleanupPending txID l2) txID [] 0 0 e
      | (l2, Ok proposal0) =>
        match (t ← heap l2 !! p; Some (marshal t)) with
        | None | Some Panic => (set_ledger l2 n, [], (None, Panic))
        | Some (Err _) => fail (CleanupPending txID l2) txID [] 0 0 MarshalTxFailed
        | Some (Ok txData) =>
          let proposal := with_payload txData proposal0 in
          match Vote (clk 2%nat) (ballot_for (n_ID n) proposal) l2 with
          | Panic => (set_ledger l2 n, [proposal], (None, Panic))
          | Err e => fail (CleanupPending txID l2) txID [proposal] (m_Round proposal) 0 e
          | Ok selfVote =>
            let totalVotes := Z.of_nat (length (n_validators n)) in
            let '(collected, yes) := drain (default [] (n_pendingMsgs n !! txID)) 0 (is_yes selfVote) in
            let '(yesVotes, buf) := collect_loop txID (totalVotes - 1) inbox collected yes (delete txID (n_pendingMsgs n)) in
            let finish (l : Ledger) := mkNode (n_ID n) l (n_validators n) buf in
            let majority := totalVotes `quot` 2 + 1 in
            if majority <=? yesVotes then
              let commitMsg := mkMsg MsgCommit txID (n_ID n) (m_Round proposal) "" (clk 3%nat) in
              match Commit commitMsg l2 with
              | (l3, Panic) => (finish l3, [proposal], (None, Panic))
              | (l3, Err e) => (finish (CleanupPending txID l3), [proposal],
                                (Some (mkCR false (m_Round proposal) yesVotes txID), Err e))
              | (l3, Ok _) => (finish l3, [proposal; commitMsg],
                               (Some (mkCR true (m_Round proposal) yesVotes txID), Ok tt))
              end
            else
              (finish (CleanupPending txID l2), [proposal],
               (Some (mkCR false (m_Round proposal) yesVotes txID), Err (InsufficientVotes yesVotes majority)))
          end
        end
      end
    end
  end.

(** ** Lemmas on one ledger *)

(** A ledger between settlements. *)
Definition ready (l : Ledger) : Prop := pending_ok l ∧ solvent (validators l) ∧ pending l = ∅.

(** The ledger after the only pending transaction was submitted. *)
Lemma submit_ready now p l tx : ready l → heap l !! p = Some tx → bank_error tx (accounts (abs l)) = None →
  ∃ l1 s n, submitLocked now p l = (l1, Ok tt) ∧ pending l1 = {[tx_ID tx := p]} ∧
    heap l1 !! p = Some (set_submitted n now tx) ∧ validators l1 !! tx_From tx = Some s ∧
    tx_Amount tx ≤ bal s (tx_Currency tx) ∧ pending_ok l1 ∧ solvent (validators l1) ∧
    accounts (abs l1) = accounts (abs l) ∧ dom (validators l1) = dom (validators l) ∧ is_u64 n.
Proof.
  intros (Hok & Hsolv & Hidle) Hp He. pose proof (submitLocked_cases now p l tx Hp) as Hs. rewrite He in Hs.
  destruct Hs as (s & n & Hs & _ & Ham & Hn & Hsub). eexists _, (set_nonce n s), n. split; [exact Hsub|].
  assert (pending_ok (submitLocked now p l).1) as Hok1 by (apply (exec_pending_ok (OpSubmit now p)); done).
  rewrite Hsub in Hok1. split_and!; simpl.
  - by rewrite Hidle.
  - by rewrite lookup_insert_eq.
  - by rewrite lookup_insert_eq.
  - rewrite bal_set_nonce. lia.
  - done.
  - by apply solvent_set_nonce.
  - rewrite fmap_insert. apply insert_id. by rewrite lookup_fmap, Hs.
  - rewrite dom_insert_L. apply (elem_of_dom_2 (D := gset string)) in Hs. set_solver.
  - done.
Qed.

(** Committing it pays. *)
Lemma commit_ready msg l1 p tx s : pending_ok l1 → solvent (validators l1) → pending l1 = {[tx_ID tx := p]} →
  heap l1 !! p = Some tx → validators l1 !! tx_From tx = Some s → tx_Amount tx ≤ bal s (tx_Currency tx) →
  m_TxID msg = tx_ID tx →
  ∃ l2, Commit msg l1 = (l2, Ok tt) ∧ accounts (abs l2) = pay tx (accounts (abs l1)) ∧ pending l2 = ∅.
Proof.
  intros Hok Hsolv Hpend Htx Hs Hb Hid. pose proof (Commit_spec msg l1 Hok) as Hc.
  assert (pending l1 !! m_TxID msg = Some p) as Hp by (by rewrite Hpend, Hid, lookup_singleton_eq).
  destruct (Commit msg l1) as [l2 rc]; simpl in *.
  destruct Hc as [|q t s' Hq Ht Hidt Hs'|q t s' rcp vs1 vs2 Hq Ht Hidt Hs' Ham Hvs1 Hrl Hvs2]; simplify_eq; [lia|].
  eexists. split_and!; [done| |].
  - unfold abs; simpl. by eapply abs_transfer.
  - simpl. rewrite Hpend, Hid. apply delete_singleton_eq.
Qed.

Lemma vote_yes now msg l1 p tx s : m_Type msg = MsgPropose → pending l1 !! m_TxID msg = Some p → heap l1 !! p = Some tx →
  validators l1 !! tx_From tx = Some s → tx_Amount tx ≤ bal s (tx_Currency tx) →
  Vote now msg l1 = Ok (mkMsg MsgVote (m_TxID msg) (m_ValidatorID msg) (m_Round msg) "yes" now).
Proof.
  intros Hty Hp Htx Hs Hb. unfold Vote. rewrite Hty, Hp, Htx, Hs. simpl. by rewrite (proj2 (Z.leb_le _ _) Hb).
Qed.

Lemma set_submitted_pay n now tx b : pay (set_submitted n now tx) b = pay tx b.
Proof. done. Qed.

(** The proposer's round up to the count of votes: the proposal it sends and the
    ledger it holds. *)
Lemma proposer_round clk first p n tx :
  ready (n_Ledger n) → heap (n_Ledger n) !! p = Some tx → bank_error tx (accounts (abs (n_Ledger n))) = None →
  is_Some (validators (n_Ledger n) !! n_ID n) →
  ∃ l2 nn s, SubmitTransaction (clk 0%nat) p (n_Ledger n) = (l2, Ok tt) ∧
    let r := u64 (currentRound l2 + 1) in
    let l3 := mkLedger (heap l2) (validators l2) (pending l2) (confirmed l2) (allTxs l2) (seen l2) r in
    ProposeBlock (clk 1%nat) first (n_ID n) l2 = (l3, Ok (mkMsg MsgPropose (tx_ID tx) (n_ID n) r "" (clk 1%nat))) ∧
    heap l3 !! p = Some (set_submitted nn (clk 0%nat) tx) ∧ pending l3 = {[tx_ID tx := p]} ∧
    pending_ok l3 ∧ solvent (validators l3) ∧ validators l3 !! tx_From tx = Some s ∧
    tx_Amount tx ≤ bal s (tx_Currency tx) ∧ accounts (abs l3) = accounts (abs (n_Ledger n)) ∧ is_u64 nn.
Proof.
  intros Hready Hp He Hn. destruct (submit_ready (clk 0%nat) p (n_Ledger n) tx Hready Hp He)
    as (l1 & s & nn & Hsub & Hpend & Hheap & Hs & Hb & Hok1 & Hsolv1 & Hacc & Hdom & Hnn).
  exists l1, nn, s. split; [done|]. cbv zeta.
  assert (is_Some (validators l1 !! n_ID n)) as [w Hw].
  { apply elem_of_dom. rewrite Hdom. by apply elem_of_dom. }
  split_and!; try done. unfold ProposeBlock. rewrite Hw, Hpend, range_first_singleton, Hheap. done.
Qed.

Context `{!CodecLaws Transaction}.

(** An encoded transaction decodes and is not empty. *)
Lemma encoded_tx (x : Transaction) d : codec_ok x → marshal x = Ok d → unmarshal d = Ok x ∧ 0 < len d.
Proof.
  intros Hx Hd. pose proof (unmarshal_marshal x d Hx Hd) as Hun. split; [done|].
  destruct d as [|a d]; [|simpl; lia]. pose proof (unmarshal_empty (T := Transaction)) as He. by rewrite Hun in He.
Qed.

Lemma handleProposal_ID now now' prop r : n_ID (handleProposal now now' prop r).1 = n_ID r.
Proof.
  unfold handleProposal. destruct (0 <? _); [|done]. destruct (unmarshal _) as [x|e|]; [|done..].
  destruct (new_tx x _) as [l1 q]. by destruct (SubmitTransactionIfAbsent now q l1) as [l2 [?|?|]].
Qed.

(** The proposer's round, reduced to its count of votes. *)
Lemma ProposeSettlement_eq clk first p n tx :
  ready (n_Ledger n) → heap (n_Ledger n) !! p = Some tx → bank_error tx (accounts (abs (n_Ledger n))) = None →
  is_Some (validators (n_Ledger n) !! n_ID n) → (∀ nn, is_u64 nn → codec_ok (set_submitted nn (clk 0%nat) tx)) →
  ∃ l3 nn r d, (is_u64 nn ∧ is_u64 r) ∧ marshal (set_submitted nn (clk 0%nat) tx) = Ok d ∧
    heap l3 !! p = Some (set_submitted nn (clk 0%nat) tx) ∧ pending l3 = {[tx_ID tx := p]} ∧ pending_ok l3 ∧
    accounts (abs l3) = accounts (abs (n_Ledger n)) ∧
    ∀ inbox, let proposal := mkMsg MsgPropose (tx_ID tx) (n_ID n) r d (clk 1%nat) in
    let total := Z.of_nat (length (n_validators n)) in
    let '(collected, yes) := drain (default [] (n_pendingMsgs n !! tx_ID tx)) 0 1 in
    let '(yesVotes, buf) := collect_loop (tx_ID tx) (total - 1) inbox collected yes (delete (tx_ID tx) (n_pendingMsgs n)) in
    let commitMsg := mkMsg MsgCommit (tx_ID tx) (n_ID n) r "" (clk 3%nat) in
    if total `quot` 2 + 1 <=? yesVotes then
      ∃ l4, accounts (abs l4) = pay tx (accounts (abs (n_Ledger n))) ∧ pending l4 = ∅ ∧
      ProposeSettlement clk first p inbox n =
        (mkNode (n_ID n) l4 (n_validators n) buf, [proposal; commitMsg], (Some (mkCR true r yesVotes (tx_ID tx)), Ok tt))
    else
      ProposeSettlement clk first p inbox n =
        (mkNode (n_ID n) (CleanupPending (tx_ID tx) l3) (n_validators n) buf, [proposal],
         (Some (mkCR false r yesVotes (tx_ID tx)), Err (InsufficientVotes yesVotes (total `quot` 2 + 1)))).
Proof.
  intros Hready Hp He Hn Hcodec.
  destruct (proposer_round clk first p n tx Hready Hp He Hn) as (l2 & nn & s & Hsub & Hprop & Hheap & Hpend & Hok & Hsolv & Hs & Hb & Hacc & Hnn).
  set (r := u64 (currentRound l2 + 1)) in *.
  set (l3 := mkLedger _ _ _ _ _ _ r) in *. pose proof (marshal_ok _ (Hcodec nn Hnn)) as Hm.
  destruct (marshal (set_submitted nn (clk 0%nat) tx)) as [d|e|] eqn:Em; [|done|done].
  exists l3, nn, r, d. split_and!; [done|apply u64_range|done..|]. intros inbox. cbv zeta.
  unfold ProposeSettlement. rewrite Hp, Hsub, Hprop. cbv zeta. rewrite Hheap. cbn [mbind option_bind]. rewrite Em.
  erewrite (vote_yes _ _ l3 p (set_submitted nn (clk 0%nat) tx) s);
    [|done|change (pending l3 !! tx_ID tx = Some p); by rewrite Hpend, lookup_singleton_eq|done|done|done].
  change (is_yes _) with 1.
  destruct (drain _ 0 1) as [collected yes]. destruct (collect_loop _ _ _ _ _ _) as [yesVotes buf].
  destruct (_ <=? yesVotes); [|done].
  destruct (commit_ready (mkMsg MsgCommit (tx_ID tx) (n_ID n) r "" (clk 3%nat)) l3 p (set_submitted nn (clk 0%nat) tx) s)
    as (l4 & Hc & Hacc4 & Hpend4); try done.
  exists l4. split_and!; [by rewrite Hacc4, Hacc|done|]. simpl. by rewrite Hc.
Qed.

(** A replica that handles the proposal and then the commit pays too. *)
Lemma replica_settles now now' r d tx' prop com :
  ready (n_Ledger r) → m_Type prop = MsgPropose → m_Payload prop = d → 0 < len d → unmarshal d = Ok tx' →
  m_TxID prop = tx_ID tx' → m_TxID com = tx_ID tx' →
  tx_ID tx' ∉ seen (n_Ledger r) → bank_error tx' (accounts (abs (n_Ledger r))) = None →
  (handleProposal now now' prop r).2 = Some (mkMsg MsgVote (tx_ID tx') (n_ID r) (m_Round prop) "yes" now') ∧
  accounts (abs (n_Ledger (handleCommit com (handleProposal now now' prop r).1))) =
    pay tx' (accounts (abs (n_Ledger r))) ∧
  pending (n_Ledger (handleCommit com (handleProposal now now' prop r).1)) = ∅.
Proof.
  intros (Hok & Hsolv & Hidle) Hty Hd Hlen Hun Hidp Hidc Hns He. unfold handleProposal.
  rewrite Hd, (proj2 (Z.ltb_lt _ _) Hlen), Hun.
  set (l1 := (new_tx tx' (n_Ledger r)).1). set (p := (new_tx tx' (n_Ledger r)).2).
  change (new_tx tx' (n_Ledger r)) with (l1, p). cbv iota beta.
  assert (heap l1 !! p = Some tx') as Hp by apply lookup_insert_eq.
  assert (ready l1) as Hready.
  { split_and!; [|done|done]. by apply (exec_pending_ok (OpNew tx')). }
  destruct (submit_ready now p l1 tx' Hready Hp He) as (l2 & s & nn & Hsub & Hpend & Hheap & Hs & Hb & Hok2 & Hsolv2 & Hacc & _ & _).
  assert (SubmitTransactionIfAbsent now p l1 = (l2, Ok None)) as ->.
  { unfold SubmitTransactionIfAbsent. rewrite Hp, bool_decide_false by done. by rewrite Hsub. }
  cbn [fst snd]. split.
  - unfold vote_on. cbn [set_ledger n_Ledger n_ID].
    erewrite (vote_yes _ _ l2 p (set_submitted nn now tx') s);
      [|done|simpl; by rewrite Hidp, Hpend, lookup_singleton_eq|done|done|done].
    simpl. by rewrite Hidp.
  - unfold handleCommit. cbn [set_ledger n_Ledger].
    destruct (commit_ready com l2 p (set_submitted nn now tx') s) as (l3 & -> & Hacc3 & Hpend3); try done.
    split; [|done]. cbn [fst]. by rewrite Hacc3, Hacc.
Qed.

(** No message but its own commit touches a pending transaction the ledger has
    seen. *)
Lemma dispatch_keeps now now' msg a id p :
  pending_ok (n_Ledger a) → pending (n_Ledger a) !! id = Some p → id ∈ seen (n_Ledger a) →
  (m_Type msg = MsgCommit → m_TxID msg ≠ id) →
  let b := (dispatch now now' msg a).1 in
  pending_ok (n_Ledger b) ∧ pending (n_Ledger b) !! id = Some p ∧ id ∈ seen (n_Ledger b).
Proof.
  intros Hok Hp Hseen Hc. unfold dispatch. case_bool_decide; [|case_bool_decide as Hcm; [|done]].
  - unfold handleProposal. destruct (0 <? _); [|done]. destruct (unmarshal _) as [tx| |]; [|done|done].
    pose proof (exec_pending_ok (OpNew tx) (n_Ledger a) Hok) as Hok1. cbn [exec] in Hok1. unfold new_tx in *.
    set (q := fresh _) in *. set (l1 := upd_heap _ _) in *. cbn [fst] in Hok1.
    assert (pending l1 !! id = Some p ∧ id ∈ seen l1) as [Hp1 Hs1] by done.
    pose proof (exec_pending_ok (OpSubmitIfAbsent now q) l1 Hok1) as Hok2. cbn [exec] in Hok2.
    assert (pending (SubmitTransactionIfAbsent now q l1).1 !! id = Some p ∧
            id ∈ seen (SubmitTransactionIfAbsent now q l1).1) as [Hp2 Hs2].
    { destruct (SubmitTransactionIfAbsent_spec now q l1) as [| |t l' x x' Ht Hns Hs Hx]; [done|done|].
      destruct Hs; [done|]. simplify_eq. split; simpl; [|set_solver]. rewrite lookup_insert_ne; [done|]. by intros <-. }
    by destruct (SubmitTransactionIfAbsent now q l1) as [l2 [?| |]].
  - pose proof (exec_pending_ok (OpCommit msg) (n_Ledger a) Hok) as Hok1. specialize (Hc Hcm).
    simpl in *. pose proof (Commit_spec msg (n_Ledger a) Hok) as Hs.
    destruct (Commit msg (n_Ledger a)) as [l2 rc]; simpl in *. split; [done|].
    destruct Hs; simpl; by rewrite ?lookup_delete_ne.
Qed.

(** ** Properties *)

(** Replicas that follow the proposer settle alike.  Take a proposer and a
    replica with the same balances and nothing pending, and a transaction whose
    parties and funds are in order and that the replica has not seen.  If
    [ProposeSettlement] confirms, it has broadcast a proposal and a commit; a
    replica that processes these two messages answers the proposal with a yes
    vote under its own name and ends with exactly the balances of the proposer,
    which are the old ones with the payment applied. *)
Theorem replicas_settle_alike (clk : clock) (first : string) (p : loc) (inbox : list ConsensusMessage)
    (n n' r : ValidatorNode) (tx : Transaction) (sent : list ConsensusMessage) (cr : ConsensusResult) (now now' : Z) :
  ready (n_Ledger n) → ready (n_Ledger r) → accounts (abs (n_Ledger r)) = accounts (abs (n_Ledger n)) →
  heap (n_Ledger n) !! p = Some tx → bank_error tx (accounts (abs (n_Ledger n))) = None →
  tx_ID tx ∉ seen (n_Ledger r) → is_Some (validators (n_Ledger n) !! n_ID n) →
  (∀ nn, is_u64 nn → codec_ok (set_submitted nn (clk 0%nat) tx)) →
  ProposeSettlement clk first p inbox n = (n', sent, (Some cr, Ok tt)) →
  ∃ prop com, sent = [prop; com] ∧
    (∃ vote, (handleProposal now now' prop r).2 = Some vote ∧ m_ValidatorID vote = n_ID r ∧ m_Payload vote = "yes") ∧
    let r' := handleCommit com (handleProposal now now' prop r).1 in
    accounts (abs (n_Ledger r')) = accounts (abs (n_Ledger n')) ∧
    accounts (abs (n_Ledger r')) = pay tx (accounts (abs (n_Ledger n))).
Proof.
  intros Hn Hr Hacc Hp He Hns Hid Hcodec Hrun.
  destruct (ProposeSettlement_eq clk first p n tx Hn Hp He Hid Hcodec)
    as (l3 & nn & rd & d & [Hnn _] & Hm & _ & _ & _ & _ & Hcase). specialize (Hcase inbox). cbv zeta in Hcase.
  destruct (drain _ 0 1) as [collected yes]. destruct (collect_loop _ _ _ _ _ _) as [yesVotes buf].
  destruct (_ <=? yesVotes); [|rewrite Hrun in Hcase; by simplify_eq].
  destruct Hcase as (l4 & Hacc4 & _ & Heq). rewrite Hrun in Heq. injection Heq as -> -> _.
  destruct (encoded_tx _ d (Hcodec nn Hnn) Hm) as [Hun Hlen].
  destruct (replica_settles now now' r d (set_submitted nn (clk 0%nat) tx)
    (mkMsg MsgPropose (tx_ID tx) (n_ID n) rd d (clk 1%nat)) (mkMsg MsgCommit (tx_ID tx) (n_ID n) rd "" (clk 3%nat)))
    as (Hv & Hpay & _); try done; [by rewrite Hacc|].
  eexists _, _. split; [done|]. split; [by eexists|]. cbv zeta.
  rewrite Hpay. cbn [n_Ledger]. by rewrite Hacc4, Hacc, set_submitted_pay.
Qed.

Lemma collect_yes txID needed inbox collected yes buf :
  Forall (λ m, m_Type m = MsgVote ∧ m_TxID m = txID ∧ m_Payload m = "yes") inbox → collected ≤ needed →
  (collect_loop txID needed inbox collected yes buf).1 =
    yes + Z.min (needed - collected) (Z.of_nat (length inbox)).
Proof.
  intros Hall. revert collected yes. induction Hall as [|m inbox (H1 & H2 & H3) _ IH]; intros collected yes Hle; simpl.
  - destruct (collected <? needed); simpl; lia.
  - destruct (collected <? needed) eqn:E; zbool; simpl; [|lia].
    rewrite H1, H2. rewrite !bool_decide_true by done. simpl. rewrite IH by lia.
    unfold is_yes. rewrite H3. simpl. lia.
Qed.

(** A settlement is confirmed by the number of yes messages.  With nothing
    buffered for the transaction, a proposer that receives at least a majority
    less one of yes votes for it settles: the outcome depends on how many such
    messages arrive and on nothing else, in particular not on which validators
    they name, so one validator that repeats its vote is enough. *)
Theorem yes_messages_confirm (clk : clock) (first : string) (p : loc) (inbox : list ConsensusMessage)
    (n : ValidatorNode) (tx : Transaction) :
  ready (n_Ledger n) → heap (n_Ledger n) !! p = Some tx → bank_error tx (accounts (abs (n_Ledger n))) = None →
  is_Some (validators (n_Ledger n) !! n_ID n) → (∀ nn, is_u64 nn → codec_ok (set_submitted nn (clk 0%nat) tx)) →
  n_pendingMsgs n !! tx_ID tx = None → n_validators n ≠ [] →
  Forall (λ m, m_Type m = MsgVote ∧ m_TxID m = tx_ID tx ∧ m_Payload m = "yes") inbox →
  Z.of_nat (length (n_validators n)) `quot` 2 ≤ Z.of_nat (length inbox) →
  ∃ n' sent cr, ProposeSettlement clk first p inbox n = (n', sent, (Some cr, Ok tt)) ∧ cr_Confirmed cr = true ∧
    accounts (abs (n_Ledger n')) = pay tx (accounts (abs (n_Ledger n))).
Proof.
  intros Hn Hp He Hid Hcodec Hbuf Hne Hall Hlen.
  destruct (ProposeSettlement_eq clk first p n tx Hn Hp He Hid Hcodec)
    as (l3 & nn & rd & d & _ & _ & _ & _ & _ & _ & Hcase). specialize (Hcase inbox). cbv zeta in Hcase.
  rewrite Hbuf in Hcase. cbn [default drain] in Hcase.
  assert (1 ≤ Z.of_nat (length (n_validators n))) as Hpos by (destruct (n_validators n); [done|simpl; lia]).
  pose proof (collect_yes (tx_ID tx) (Z.of_nat (length (n_validators n)) - 1) inbox 0 1
    (delete (tx_ID tx) (n_pendingMsgs n)) Hall ltac:(lia)) as Hyes.
  destruct (collect_loop _ _ _ _ _ _) as [yesVotes buf]. simpl in Hyes.
  pose proof (majority_le _ Hpos). rewrite (proj2 (Z.leb_le _ _)) in Hcase by lia.
  destruct Hcase as (l4 & Hacc4 & _ & ->). eexists _, _, _. split; [done|]. by split.
Qed.

(** A settlement without a majority changes no balance.  When the yes votes
    stay below the majority, [ProposeSettlement] fails with the votes it counted,
    has broadcast only the proposal, and leaves every balance of the proposer and
    its pool of pending transactions as before. *)
Theorem rejected_settlement_keeps_balances (clk : clock) (first : string) (p : loc) (inbox : list ConsensusMessage)
    (n n' : ValidatorNode) (tx : Transaction) (sent : list ConsensusMessage) (cr : ConsensusResult) (e : ledger_err) :
  ready (n_Ledger n) → heap (n_Ledger n) !! p = Some tx → bank_error tx (accounts (abs (n_Ledger n))) = None →
  is_Some (validators (n_Ledger n) !! n_ID n) → (∀ nn, is_u64 nn → codec_ok (set_submitted nn (clk 0%nat) tx)) →
  ProposeSettlement clk first p inbox n = (n', sent, (Some cr, Err e)) →
  accounts (abs (n_Ledger n')) = accounts (abs (n_Ledger n)) ∧ pending (n_Ledger n') = ∅ ∧
  cr_Confirmed cr = false ∧ length sent = 1%nat ∧
  e = InsufficientVotes (cr_Votes cr) (Z.of_nat (length (n_validators n)) `quot` 2 + 1) ∧
  cr_Votes cr < Z.of_nat (length (n_validators n)) `quot` 2 + 1.
Proof.
  intros Hn Hp He Hid Hcodec Hrun.
  destruct (ProposeSettlement_eq clk first p n tx Hn Hp He Hid Hcodec)
    as (l3 & nn & rd & d & _ & _ & Hheap & Hpend & Hok & Hacc & Hcase). specialize (Hcase inbox). cbv zeta in Hcase.
  destruct (drain _ 0 1) as [collected yes]. destruct (collect_loop _ _ _ _ _ _) as [yesVotes buf].
  destruct (_ <=? yesVotes) eqn:Hmaj; [destruct Hcase as (l4 & _ & _ & Heq); rewrite Hrun in Heq; by simplify_eq|].
  rewrite Hrun in Hcase. injection Hcase as -> -> -> ->. zbool. cbn [n_Ledger cr_Confirmed cr_Votes length].
  pose proof (CleanupPending_spec (tx_ID tx) l3 Hok) as Hclean.
  destruct Hclean as [Habs|q t s Hq Ht Hidt Hs]; [by rewrite Hpend, lookup_singleton_eq in Habs|].
  split_and!; try done.
  - rewrite <- Hacc. unfold abs; simpl. rewrite fmap_insert. apply insert_id. by rewrite lookup_fmap, Hs.
  - simpl. rewrite Hpend. apply delete_singleton_eq.
Qed.

(** A replica keeps a proposal that was never committed.  After voting for a
    proposal whose commit does not come, a replica still holds the transaction
    as pending whatever proposals, repeated ones included, and whatever commits of
    other transactions it processes: no message of the protocol withdraws a
    proposal. *)
Theorem uncommitted_proposal_stays_pending (n n' : ValidatorNode) (id : string) (p : loc) :
  pending_ok (n_Ledger n) → pending (n_Ledger n) !! id = Some p → id ∈ seen (n_Ledger n) →
  rtc (λ a b, ∃ now now' msg, b = (dispatch now now' msg a).1 ∧ (m_Type msg = MsgCommit → m_TxID msg ≠ id)) n n' →
  pending (n_Ledger n') !! id = Some p.
Proof.
  intros Hok Hp Hseen Hr. induction Hr as [|a b c (now & now' & msg & -> & Hc) _ IH]; [done|].
  destruct (dispatch_keeps now now' msg a id p Hok Hp Hseen Hc) as (H1 & H2 & H3). by apply IH.
Qed.
End Node.

(** ** Witnesses

    Five validators, and transactions encoded by their identifier alone. *)
Module DemoNode.
Definition vals5 : list ValidatorState :=
  (λ id, mkVal id "" {["CHF" := 1000]} 0) <$> ["A"; "B"; "C"; "D"; "E"].
Definition tx1 : Transaction := mkTx "tx-1" "A" "B" 10 "CHF" "swiss" "fp" "" "" "" 0 0.
Definition clk0 : clock := λ _, 5.

#[local] Instance demo_codec : Codec Transaction := {|
  marshal t := Ok ("t" +:+ be64 (tx_Nonce t));
  unmarshal d := match d with String _ d' => Ok (set_submitted (be_value d') 5 tx1) | _ => Err "syntax" end;
  codec_ok t := ∃ nn, is_u64 nn ∧ t = set_submitted nn 5 tx1
|}.

#[local] Instance demo_codec_laws : CodecLaws Transaction.
Proof.
  constructor.
  - done.
  - done.
  - intros x d (nn & Hn & ->) Hd. injection Hd as <-. change (Ok (E := string) (set_submitted (be_value (be64 nn)) 5 tx1) = Ok (set_submitted nn 5 tx1)).
    by rewrite be_value_be64.
  - reflexivity.
Qed.

Lemma tx1_ok nn : is_u64 nn → codec_ok (set_submitted nn (clk0 0%nat) tx1).
Proof. intros Hn. by exists nn. Qed.

Definition nodeA : ValidatorNode := let n := NewValidatorNode "A" vals5 in set_ledger (new_tx tx1 (n_Ledger n)).1 n.
Definition nodeB : ValidatorNode := NewValidatorNode "B" vals5.
Definition voteB : ConsensusMessage := mkMsg MsgVote "tx-1" "B" 1 "yes" 6.

Lemma ready_ledger : ready (NewLedger vals5).
Proof.
  split_and!; [apply NewLedger_pending_ok| |done]. apply (solvent_check_sound (2 ^ 50)). vm_compute. reflexivity.
Qed.

Lemma ready_A : ready (n_Ledger nodeA).
Proof.
  destruct ready_ledger as (H1 & H2 & H3). split_and!; [|done|done].
  apply (exec_pending_ok (OpNew tx1) (NewLedger vals5) H1).
Qed.

(** B votes twice. *)
Definition runA := ProposeSettlement clk0 "" 0 [voteB; voteB] nodeA.
Definition balances_of (n : ValidatorNode) : gmap string (gmap string Z) := accounts (abs (n_Ledger n)).

Lemma yes_messages_confirm_witness :
  ∃ n' sent cr, runA = (n', sent, (Some cr, Ok tt)) ∧ cr_Confirmed cr = true ∧
    accounts (abs (n_Ledger n')) = pay tx1 (accounts (abs (n_Ledger nodeA))).
Proof.
  apply (yes_messages_confirm clk0 "" 0 [voteB; voteB] nodeA tx1).
  - apply ready_A.
  - vm_compute. reflexivity.
  - vm_compute. reflexivity.
  - vm_compute. eauto.
  - apply tx1_ok.
  - reflexivity.
  - discriminate.
  - repeat constructor.
  - vm_compute. discriminate.
Defined.

Lemma replicas_settle_alike_witness :
  ∃ prop com, runA.1.2 = [prop; com] ∧
    (∃ vote, (handleProposal 7 8 prop nodeB).2 = Some vote ∧ m_ValidatorID vote = n_ID nodeB ∧ m_Payload vote = "yes") ∧
    let r' := handleCommit com (handleProposal 7 8 prop nodeB).1 in
    accounts (abs (n_Ledger r')) = accounts (abs (n_Ledger runA.1.1)) ∧
    accounts (abs (n_Ledger r')) = pay tx1 (accounts (abs (n_Ledger nodeA))).
Proof.
  apply (replicas_settle_alike clk0 "" 0 [voteB; voteB] nodeA runA.1.1 nodeB tx1 runA.1.2 (mkCR true 1 3 "tx-1") 7 8).
  - apply ready_A.
  - apply ready_ledger.
  - reflexivity.
  - vm_compute. reflexivity.
  - vm_compute. reflexivity.
  - apply not_elem_of_empty.
  - vm_compute. eauto.
  - apply tx1_ok.
  - vm_compute. reflexivity.
Defined.

Definition runA_alone := ProposeSettlement clk0 "" 0 [voteB] nodeA.

Lemma rejected_settlement_keeps_balances_witness :
  let cr := mkCR false 1 2 "tx-1" in
  let n' := runA_alone.1.1 in
  accounts (abs (n_Ledger n')) = accounts (abs (n_Ledger nodeA)) ∧ pending (n_Ledger n') = ∅ ∧
  cr_Confirmed cr = false ∧ length runA_alone.1.2 = 1%nat ∧
  InsufficientVotes 2 3 = InsufficientVotes (cr_Votes cr) (Z.of_nat (length (n_validators nodeA)) `quot` 2 + 1) ∧
  cr_Votes cr < Z.of_nat (length (n_validators nodeA)) `quot` 2 + 1.
Proof.
  apply (rejected_settlement_keeps_balances clk0 "" 0 [voteB] nodeA runA_alone.1.1 tx1 runA_alone.1.2).
  - apply ready_A.
  - vm_compute. reflexivity.
  - vm_compute. reflexivity.
  - vm_compute. eauto.
  - apply tx1_ok.
  - vm_compute. reflexivity.
Defined.

(** B has voted for the proposal and never hears of it again. *)
Definition propA : ConsensusMessage := mkMsg MsgPropose "tx-1" "A" 1 ("t" +:+ be64 1) 5.
Definition nodeB1 : ValidatorNode := (handleProposal 7 8 propA nodeB).1.
Definition other_commit : ConsensusMessage := mkMsg MsgCommit "tx-2" "A" 2 "" 9.

Lemma uncommitted_proposal_stays_pending_witness :
  pending (n_Ledger (dispatch 9 9 other_commit (dispatch 8 8 propA nodeB1).1).1) !! "tx-1" = Some 0%nat.
Proof.
  apply (uncommitted_proposal_stays_pending nodeB1 _ "tx-1" 0).
  - assert (n_Ledger nodeB1 = exec (OpSubmitIfAbsent 7 0) (exec (OpNew (set_submitted 1 5 tx1)) (NewLedger vals5))) as ->
      by (vm_compute; reflexivity).
    apply exec_pending_ok, exec_pending_ok, NewLedger_pending_ok.
  - vm_compute. reflexivity.
  - assert (bool_decide ("tx-1" ∈ seen (n_Ledger nodeB1)) = true) as Hs by (vm_compute; reflexivity).
    by apply bool_decide_eq_true_1 in Hs.
  - eapply rtc_l; [exists 8, 8, propA; split; [reflexivity|discriminate]|].
    eapply rtc_l; [exists 9, 9, other_commit; split; [reflexivity|discriminate]|]. apply rtc_refl.
Defined.
End DemoNode.
