(* ===== verification/Network.v ===== *)
(** * Nodes on a network

    [Run] and [Stop] of [src/internal/dlt/node.go], and validator nodes composed
    over the shared inboxes of [transport_local.go]: one iteration of the message
    loop as a function, the loop with its context as a step relation, and a whole
    settlement from the broadcast of the proposal to the last replica's commit. *)

From S2P Require Import Prelude GoJson Ledger Consensus Bolt Codecs Node.

Section Network.
Context `{!Codec Transaction, !Codec ConsensusMessage}.

(** ** The message loop *)

(** The part of an iteration of [Run] after a message was received: the vote goes
    to the sender of the proposal, and a failure to send it is logged. *)
Definition handle (now now' : Z) (t : LocalTransport) (msg : ConsensusMessage) (n : ValidatorNode) (peers : inboxes) :
    res transport_err (ValidatorNode * inboxes) :=
  match dispatch now now' msg n with
  | (n', None) => Ok (n', peers)
  | (n', Some vote) =>
    match Send t (m_ValidatorID msg) vote peers with
    | (_, Panic) => Panic
    | (peers', _) => Ok (n', peers')
    end
  end.

(** One iteration while the context is not cancelled; [Err ContextDone] is a loop
    that waits. *)
Definition run_once (now now' : Z) (t : LocalTransport) (n : ValidatorNode) (peers : inboxes) :
    res transport_err (ValidatorNode * inboxes) :=
  match Receive t peers with
  | (peers', Ok msg) => handle now now' t msg n peers'
  | (_, Err TransportClosed) => Ok (n, peers)
  | (_, Err e) => Err e
  | (_, Panic) => Panic
  end.

(** A node in [Run]: its context is cancelled or not, and it runs, has returned,
    or has crashed. *)
Inductive run_status := Running | Returned | Crashed.

Record run_state := mkRun {
  rs_node : ValidatorNode;
  rs_inboxes : inboxes;
  rs_cancelled : bool;
  rs_status : run_status
}.

(** [Stop] *)
Definition Stop (st : run_state) : run_state := mkRun (rs_node st) (rs_inboxes st) true (rs_status st).

(** The [select]s of [Receive] and [Send] take any case that is ready: with a
    cancelled context a message may still be received, and its vote may be
    dropped.  An error of [Receive] with a cancelled context ends the loop, any
    other error starts it again. *)
Inductive run_step (t : LocalTransport) : run_state → run_state → Prop :=
| RunMessage now now' n peers peers' c msg :
    Receive t peers = (peers', Ok msg) →
    run_step t (mkRun n peers c Running)
      match handle now now' t msg n peers' with
      | Ok (n', peers'') => mkRun n' peers'' c Running
      | _ => mkRun n peers' c Crashed
      end
| RunDropsVote now now' n peers peers' msg :
    Receive t peers = (peers', Ok msg) →
    run_step t (mkRun n peers true Running) (mkRun (dispatch now now' msg n).1 peers' true Running)
| RunCancelled n peers : run_step t (mkRun n peers true Running) (mkRun n peers true Returned)
| RunClosed n peers :
    Receive t peers = (peers, Err TransportClosed) →
    run_step t (mkRun n peers false Running) (mkRun n peers false Running).

(** Messages waiting for a transport. *)
Definition waiting (t : LocalTransport) (peers : inboxes) : list ConsensusMessage :=
  match peers !! lt_localID t with Some q => q_msgs q | None => [] end.

(** ** Lemmas on the transport *)
Lemma Receive_Ok t peers peers' msg : Receive t peers = (peers', Ok msg) →
  waiting t peers = msg :: waiting t peers' ∧ ∀ id, id ≠ lt_localID t → peers' !! id = peers !! id.
Proof.
  unfold Receive, waiting. destruct (peers !! lt_localID t) as [[[|m q] c]|]; [by destruct c| |done].
  intros [= <- <-]. rewrite lookup_insert_eq. split; [done|]. intros id Hid. by rewrite lookup_insert_ne.
Qed.

Lemma Send_other t to msg peers id : id ≠ to → (Send t to msg peers).1 !! id = peers !! id.
Proof.
  intros Hid. unfold Send. destruct (lt_closed t); [done|]. case_bool_decide; [done|].
  destruct (peers !! to) as [q|]; [|done]. destruct (marshal msg) as [d|e|]; [|done..].
  destruct (unmarshal d); [|done..]. destruct (q_closed q); [done|]. case_bool_decide; [|done]. by apply lookup_insert_ne.
Qed.

Lemma handle_waiting now now' t msg n peers n' peers' : m_ValidatorID msg ≠ lt_localID t →
  handle now now' t msg n peers = Ok (n', peers') → waiting t peers' = waiting t peers.
Proof.
  intros Hm. unfold handle. destruct (dispatch _ _ _ _) as [n1 [v|]]; [|by intros [= <- <-]].
  pose proof (Send_other t (m_ValidatorID msg) v peers (lt_localID t) ltac:(done)) as Hs.
  destruct (Send _ _ _ _) as [p1 [?|e|]]; [| |done]; intros [= <- <-]; unfold waiting; simpl in Hs; by rewrite Hs.
Qed.

(** ** Stopping *)

(** What a stopped loop may still do. *)
Definition run_work (t : LocalTransport) (st : run_state) : nat :=
  match rs_status st with Running => S (length (waiting t (rs_inboxes st))) | _ => 0 end.

(** The messages waiting come from other nodes. *)
Definition from_others (t : LocalTransport) (st : run_state) : Prop :=
  Forall (λ m, m_ValidatorID m ≠ lt_localID t) (waiting t (rs_inboxes st)).

Lemma stopped_step t st st' : run_step t st st' → rs_cancelled st = true → from_others t st →
  rs_cancelled st' = true ∧ from_others t st' ∧ (run_work t st' < run_work t st)%nat.
Proof.
  intros Hs. destruct Hs as [now now' n peers peers' c msg Hr|now now' n peers peers' msg Hr|n peers|n peers Hr]; simpl; intros Hc Hf;
    [| |split_and!; [done|done|cbn; lia]|done].
  all: destruct (Receive_Ok _ _ _ _ Hr) as [Hw _]; unfold from_others in *; simpl in Hf; rewrite Hw in Hf; apply Forall_cons in Hf as [Hm Hf].
  2:{ split_and!; [done|done|]. unfold run_work. simpl. rewrite Hw. simpl. lia. }
  destruct (handle now now' t msg n peers') as [[n' p']|e|] eqn:Hh; simpl.
  - rewrite (handle_waiting _ _ _ _ _ _ _ _ Hm Hh). split_and!; [done|done|]. unfold run_work. simpl.
    rewrite (handle_waiting _ _ _ _ _ _ _ _ Hm Hh), Hw. simpl. lia.
  - split_and!; [done|done|]. unfold run_work. simpl. lia.
  - split_and!; [done|done|]. unfold run_work. simpl. lia.
Qed.

(** A stopped node returns.  After [Stop], whatever the loop picks between the
    messages still waiting, which come from other nodes, and its cancelled
    context, it takes at most one step more than there are messages, and a loop that
    runs can always take a step; so it ends, by returning or by the panic of a
    send to a closed peer. *)
Theorem stopped_node_returns (t : LocalTransport) (st : run_state) (k : nat) (st' : run_state) :
  from_others t st → nsteps (run_step t) k (Stop st) st' →
  (k ≤ S (length (waiting t (rs_inboxes st))))%nat ∧ (rs_status st' = Running → ∃ st'', run_step t st' st'').
Proof.
  intros Hf Hn.
  assert (∀ a b, nsteps (run_step t) k a b → rs_cancelled a = true → from_others t a →
    (k + run_work t b ≤ run_work t a)%nat ∧ rs_cancelled b = true) as Hall.
  { clear. intros a b Hn. induction Hn as [a|k a b c Hs _ IH]; intros Hc Hf; [split; [lia|done]|].
    destruct (stopped_step _ _ _ Hs Hc Hf) as (Hc' & Hf' & Hw). destruct (IH Hc' Hf') as [H1 H2]. split; [lia|done]. }
  destruct (Hall _ _ Hn eq_refl Hf) as [Hk Hc]. split.
  - unfold run_work, Stop in Hk. simpl in Hk. destruct (rs_status st); lia.
  - intros Hr. destruct st' as [n peers c s]. simpl in *. subst. eexists. apply RunCancelled.
Qed.

(** Without [Stop] a closed transport keeps the loop busy for ever: once its inbox
    is closed and drained, every step leads back to the same running state. *)
Theorem closed_transport_spins (t : LocalTransport) (n : ValidatorNode) (peers : inboxes) (st : run_state) :
  Receive t peers = (peers, Err TransportClosed) →
  rtc (run_step t) (mkRun n peers false Running) st →
  st = mkRun n peers false Running ∧ run_step t st st.
Proof.
  intros Hr Hs. assert (st = mkRun n peers false Running) as ->; [|split; [done|by apply RunClosed]].
  remember (mkRun n peers false Running) as st0 eqn:E. induction Hs as [st|a b c Hab _ IH]; [done|]. subst a.
  assert (b = mkRun n peers false Running) as ->; [|by apply IH].
  inversion Hab as [? ? ? ? ? ? ? Hm| | |]; subst; [|done]. by rewrite Hr in Hm.
Qed.

(** Closing one transport crashes its peers.  After a validator closed its
    transport, any other validator whose own transport is open and does not block
    it panics when it sends it a message that can be encoded, and so does its
    broadcast when that peer is next in turn. *)
Theorem send_to_closed_peer_panics `{!CodecLaws ConsensusMessage} (t u : LocalTransport) (peers : inboxes) (q : inbox)
    (msg : ConsensusMessage) (rest : list string) :
  lt_closed t = false → lt_closed u = false → lt_localID u ∉ lt_blocked t → peers !! lt_localID u = Some q → codec_ok msg →
  (Send t (lt_localID u) msg (Close u peers).2).2 = Panic ∧
  (broadcast_loop t (lt_localID u :: rest) msg (Close u peers).2 None).2 = Panic.
Proof.
  intros Ht Hu Hb Hq Hm. assert ((Send t (lt_localID u) msg (Close u peers).2).2 = Panic) as Hs.
  { unfold Send, Close. rewrite Ht, Hu, bool_decide_false by done. simpl. rewrite lookup_alter_eq, Hq. simpl.
    pose proof (marshal_ok msg Hm) as Hok. destruct (marshal msg) as [d|e|] eqn:Hd; [|done..].
    by rewrite (unmarshal_marshal msg d Hm Hd). }
  split; [done|]. cbn [broadcast_loop]. by destruct (Send _ _ _ _) as [? [?|?|]].
Qed.

(** ** A settlement over the transport *)
Section Settlement.
Context `{!CodecLaws Transaction, !CodecLaws ConsensusMessage}.
Context (ts : string → LocalTransport) (now now' : string → Z).

(** The replicas run one iteration each, in the given order. *)
Fixpoint serve_all (rs : list ValidatorNode) (peers : inboxes) : res transport_err (list ValidatorNode * inboxes) :=
  match rs with
  | [] => Ok ([], peers)
  | r :: rs' =>
    '(r', peers') ← run_once (now (n_ID r)) (now' (n_ID r)) (ts (n_ID r)) r peers;
    '(rs'', peers'') ← serve_all rs' peers';
    Ok (r' :: rs'', peers'')
  end.

(** [k] calls of [Receive]. *)
Fixpoint receive_n (k : nat) (t : LocalTransport) (peers : inboxes) : res transport_err (list ConsensusMessage * inboxes) :=
  match k with
  | O => Ok ([], peers)
  | S k' =>
    match Receive t peers with
    | (peers', Ok m) => '(ms, peers'') ← receive_n k' t peers'; Ok (m :: ms, peers'')
    | (_, Err e) => Err e
    | (_, Panic) => Panic
    end
  end.

(** An open transport that blocks no one. *)
Definition connected (id : string) : Prop := ts id = mkLT id ∅ false.

Lemma Send_ok id to msg peers q : connected id → peers !! to = Some (mkInbox q false) → (length q < inbox_cap)%nat → codec_ok msg →
  Send (ts id) to msg peers = (<[to := mkInbox (q ++ [msg]) false]> peers, Ok tt).
Proof.
  intros Hc Hq Hl Hm. unfold Send. rewrite Hc, Hq. cbn [lt_closed lt_blocked]. rewrite bool_decide_false by set_solver.
  pose proof (marshal_ok msg Hm) as Hok. destruct (marshal msg) as [d|e|] eqn:Hd; [|done..].
  rewrite (unmarshal_marshal msg d Hm Hd). cbn [q_closed q_msgs]. by rewrite bool_decide_true.
Qed.

(** A broadcast appends the message to the inbox of every peer. *)
Lemma local_broadcast_ok id ids msg peers : connected id → codec_ok msg → NoDup ids →
  (∀ to, to ∈ ids → peers !! to = Some (mkInbox [] false)) →
  ∃ peers', broadcast_loop (ts id) ids msg peers None = (peers', Ok tt) ∧
    (∀ to, to ∈ ids → peers' !! to = Some (mkInbox [msg] false)) ∧ (∀ to, to ∉ ids → peers' !! to = peers !! to).
Proof.
  intros Hc Hm. revert peers. induction ids as [|to ids IH]; intros peers Hnd Hin.
  { exists peers. split_and!; [done|by intros ? ?%not_elem_of_nil|done]. }
  apply NoDup_cons in Hnd as [Hn Hnd]. cbn [broadcast_loop].
  rewrite (Send_ok id to msg peers []); [|done|apply Hin; by left|simpl; unfold inbox_cap; lia|done].
  destruct (IH (<[to := mkInbox ([] ++ [msg]) false]> peers) Hnd) as (peers' & Hb & H1 & H2).
  { intros x Hx. rewrite lookup_insert_ne by (by intros ->). apply Hin. by right. }
  exists peers'. split_and!; [done| |].
  - intros x [->|Hx]%elem_of_cons; [|by apply H1]. rewrite H2 by done. by rewrite lookup_insert_eq.
  - intros x Hx. rewrite not_elem_of_cons in Hx. destruct Hx as [Hx1 Hx2]. rewrite H2 by done. by rewrite lookup_insert_ne.
Qed.

Lemma receive_n_all id q peers : connected id → peers !! id = Some (mkInbox q false) →
  receive_n (length q) (ts id) peers = Ok (q, <[id := mkInbox [] false]> peers).
Proof.
  intros Hc. revert peers. induction q as [|m q IH]; intros peers Hq.
  - cbn. by rewrite insert_id.
  - cbn [length receive_n]. unfold Receive. rewrite Hc. cbn [lt_localID]. rewrite Hq. rewrite <- Hc.
    rewrite IH by apply lookup_insert_eq. simpl. by rewrite insert_insert_eq.
Qed.

Lemma run_once_message r msg q peers : connected (n_ID r) → peers !! n_ID r = Some (mkInbox (msg :: q) false) →
  run_once (now (n_ID r)) (now' (n_ID r)) (ts (n_ID r)) r peers =
  handle (now (n_ID r)) (now' (n_ID r)) (ts (n_ID r)) msg r (<[n_ID r := mkInbox q false]> peers).
Proof. intros Hc Hq. unfold run_once, Receive. rewrite Hc. cbn [lt_localID]. by rewrite Hq. Qed.

(** The replicas handle the proposal: each takes it from its inbox and adds its
    vote to the proposer's. *)
Lemma serve_proposal (me : string) prop rs peers vs :
  m_Type prop = MsgPropose → m_ValidatorID prop = me → NoDup (me :: (n_ID <$> rs)) →
  (∀ r, r ∈ rs → connected (n_ID r) ∧ peers !! n_ID r = Some (mkInbox [prop] false) ∧
     ∃ v, (handleProposal (now (n_ID r)) (now' (n_ID r)) prop r).2 = Some v ∧ codec_ok v) →
  peers !! me = Some (mkInbox vs false) → (length vs + length rs ≤ inbox_cap)%nat →
  ∃ votes peers', serve_all rs peers =
      Ok ((λ r, (handleProposal (now (n_ID r)) (now' (n_ID r)) prop r).1) <$> rs, peers') ∧
    Forall2 (λ r v, (handleProposal (now (n_ID r)) (now' (n_ID r)) prop r).2 = Some v) rs votes ∧
    peers' !! me = Some (mkInbox (vs ++ votes) false) ∧
    (∀ r, r ∈ rs → peers' !! n_ID r = Some (mkInbox [] false)) ∧
    (∀ id, id ≠ me → id ∉ n_ID <$> rs → peers' !! id = peers !! id).
Proof.
  intros Hty Hme. revert peers vs. induction rs as [|r rs IH]; intros peers vs Hnd Hrs Hq Hlen.
  { exists [], peers. rewrite app_nil_r. split_and!; [done|constructor|done|by intros ? ?%not_elem_of_nil|done]. }
  apply NoDup_cons in Hnd as [Hme' Hnd]. rewrite fmap_cons in Hme', Hnd. apply NoDup_cons in Hnd as [Hr Hnd].
  rewrite not_elem_of_cons in Hme'. destruct Hme' as [Hmr Hme'].
  destruct (Hrs r) as (Hc & Hin & v & Hv & Hvok); [by left|]. cbn [serve_all].
  rewrite (run_once_message r prop []) by done. unfold handle, dispatch. rewrite bool_decide_true by done.
  destruct (handleProposal _ _ prop r) as [r' v'] eqn:Hh. simpl in Hv. subst v'. rewrite Hme.
  rewrite (Send_ok (n_ID r) me v _ vs); [|done|by rewrite lookup_insert_ne|simpl in Hlen; lia|done].
  set (peers1 := <[me := _]> _). cbn [mbind res_bind].
  destruct (IH peers1 (vs ++ [v])) as (votes & peers' & Hs & Hvotes & H1 & H2 & H3).
  - by apply NoDup_cons.
  - intros x Hx. destruct (Hrs x) as (Hcx & Hinx & Hvx); [by right|]. split_and!; [done| |done]. subst peers1.
    rewrite lookup_insert_ne by (intros ->; destruct Hme'; by apply list_elem_of_fmap_2).
    rewrite lookup_insert_ne; [done|]. intros Heq. destruct Hr. rewrite Heq. by apply list_elem_of_fmap_2.
  - apply lookup_insert_eq.
  - rewrite length_app. simpl in *. lia.
  - exists (v :: votes), peers'. rewrite Hs. cbn [mbind res_bind]. split_and!.
    + rewrite fmap_cons, Hh. done.
    + constructor; [by rewrite Hh|done].
    + rewrite H1. by rewrite <- app_assoc.
    + intros x [->|Hx]%elem_of_cons; [|by apply H2]. rewrite H3 by done. subst peers1.
      rewrite lookup_insert_ne by done. apply lookup_insert_eq.
    + intros id Hid Hnin. rewrite fmap_cons, not_elem_of_cons in Hnin. destruct Hnin as [Hn1 Hn2]. rewrite H3 by done.
      subst peers1. by rewrite !lookup_insert_ne.
Qed.

(** The replicas handle the commit: each takes it from its inbox. *)
Lemma serve_commit com rs peers : m_Type com = MsgCommit → NoDup (n_ID <$> rs) →
  (∀ r, r ∈ rs → connected (n_ID r) ∧ peers !! n_ID r = Some (mkInbox [com] false)) →
  ∃ peers', serve_all rs peers = Ok (handleCommit com <$> rs, peers') ∧
    (∀ r, r ∈ rs → peers' !! n_ID r = Some (mkInbox [] false)) ∧
    (∀ id, id ∉ n_ID <$> rs → peers' !! id = peers !! id).
Proof.
  intros Hty. revert peers. induction rs as [|r rs IH]; intros peers Hnd Hrs.
  { exists peers. split_and!; [done|by intros ? ?%not_elem_of_nil|done]. }
  rewrite fmap_cons in Hnd. apply NoDup_cons in Hnd as [Hr Hnd]. destruct (Hrs r) as (Hc & Hin); [by left|]. cbn [serve_all].
  rewrite (run_once_message r com []) by done. unfold handle, dispatch.
  rewrite bool_decide_false, bool_decide_true by (by rewrite Hty). cbn [mbind res_bind].
  destruct (IH (<[n_ID r := mkInbox [] false]> peers) Hnd) as (peers' & Hs & H1 & H2).
  { intros x Hx. destruct (Hrs x) as [Hcx Hinx]; [by right|]. split; [done|]. rewrite lookup_insert_ne; [done|].
    intros Heq. destruct Hr. rewrite Heq. by apply list_elem_of_fmap_2. }
  exists peers'. rewrite Hs. cbn [mbind res_bind]. split_and!; [done| |].
  - intros x [->|Hx]%elem_of_cons; [|by apply H1]. rewrite H2 by done. apply lookup_insert_eq.
  - intros id Hid. rewrite fmap_cons, not_elem_of_cons in Hid. destruct Hid as [Hid1 Hid2]. rewrite H2 by done.
    by rewrite lookup_insert_ne.
Qed.

(** A network at rest that can settle the transaction at [p]. *)
Record network_ready (clk : clock) (p : loc) (tx : Transaction) (n : ValidatorNode) (rs : list ValidatorNode)
    (order : list string) (peers : inboxes) : Prop := {
  nr_proposer : ready (n_Ledger n);
  nr_tx : heap (n_Ledger n) !! p = Some tx;
  nr_funds : bank_error tx (accounts (abs (n_Ledger n))) = None;
  nr_self : is_Some (validators (n_Ledger n) !! n_ID n);
  nr_replicas : ∀ r, r ∈ rs →
    ready (n_Ledger r) ∧ accounts (abs (n_Ledger r)) = accounts (abs (n_Ledger n)) ∧ tx_ID tx ∉ seen (n_Ledger r);
  nr_ids : NoDup (n_ID n :: (n_ID <$> rs));
  nr_order : order ≡ₚ n_ID n :: (n_ID <$> rs);
  nr_inboxes : ∀ id, id ∈ order → connected id ∧ peers !! id = Some (mkInbox [] false);
  nr_size : length (n_validators n) = S (length rs);
  nr_cap : (length rs ≤ inbox_cap)%nat;
  nr_buffer : n_pendingMsgs n !! tx_ID tx = None;
  nr_tx_codec : ∀ nn, is_u64 nn → codec_ok (set_submitted nn (clk 0%nat) tx);
  nr_msg_codec : ∀ ty who round pay time, ty ∈ [MsgPropose; MsgVote; MsgCommit] → who ∈ order → is_u64 round →
    (time = clk 1%nat ∨ time = clk 3%nat ∨ ∃ id, id ∈ order ∧ time = now' id) →
    codec_ok (mkMsg ty (tx_ID tx) who round pay time)
}.

Lemma Broadcast_ok clk p tx n rs order peers peers0 msg : network_ready clk p tx n rs order peers0 → codec_ok msg →
  (∀ r, r ∈ rs → peers !! n_ID r = Some (mkInbox [] false)) →
  ∃ peers', Broadcast (ts (n_ID n)) order msg peers = (peers', Ok tt) ∧
    (∀ r, r ∈ rs → peers' !! n_ID r = Some (mkInbox [msg] false)) ∧
    (∀ id, id ∉ n_ID <$> rs → peers' !! id = peers !! id).
Proof.
  intros Hr Hm Hin. pose proof (nr_ids _ _ _ _ _ _ _ Hr) as Hnd. apply NoDup_cons in Hnd as [Hme Hnd].
  destruct (nr_inboxes _ _ _ _ _ _ _ Hr (n_ID n)) as [Hc _]; [rewrite (nr_order _ _ _ _ _ _ _ Hr); by left|].
  set (ids := filter (λ id, id ≠ n_ID n) order).
  assert (ids ≡ₚ n_ID <$> rs) as Hids.
  { unfold ids. rewrite (nr_order _ _ _ _ _ _ _ Hr), filter_cons_False by naive_solver.
    rewrite filter_all; [done|]. apply Forall_forall. by intros x Hx ->. }
  destruct (local_broadcast_ok (n_ID n) ids msg peers Hc Hm) as (peers' & Hb & H1 & H2).
  - by rewrite Hids.
  - intros to Hto. rewrite Hids in Hto. apply list_elem_of_fmap in Hto as (r & -> & Hr'). by apply Hin.
  - exists peers'. unfold Broadcast. replace (lt_localID (ts (n_ID n))) with (n_ID n) by (by rewrite Hc). fold ids. split_and!; [done| |].
    + intros r Hr'. apply H1. rewrite Hids. by apply list_elem_of_fmap_2.
    + intros id Hid. apply H2. by rewrite Hids.
Qed.

(** The three phases of a settlement, for a network at rest. *)
Section Phases.
Context (clk : clock) (first : string) (p : loc) (tx : Transaction) (n : ValidatorNode) (rs : list ValidatorNode).
Context (order : list string) (peers : inboxes) (Hr : network_ready clk p tx n rs order peers).

Lemma replica_in_order x : x ∈ rs → n_ID x ∈ order.
Proof. intros Hx. rewrite (nr_order _ _ _ _ _ _ _ Hr). right. by apply list_elem_of_fmap_2. Qed.

Lemma proposer_in_order : n_ID n ∈ order.
Proof. rewrite (nr_order _ _ _ _ _ _ _ Hr). by left. Qed.

(** The proposal and the commit of a round, and what they do to a replica. *)
Definition proposes (r : Z) (d : bytes) : ConsensusMessage := mkMsg MsgPropose (tx_ID tx) (n_ID n) r d (clk 1%nat).
Definition commits (r : Z) : ConsensusMessage := mkMsg MsgCommit (tx_ID tx) (n_ID n) r "" (clk 3%nat).
Definition follow (msg : ConsensusMessage) (x : ValidatorNode) : ValidatorNode * option ConsensusMessage :=
  handleProposal (now (n_ID x)) (now' (n_ID x)) msg x.

Lemma follows nn r d x : is_u64 nn → marshal (set_submitted nn (clk 0%nat) tx) = Ok d → x ∈ rs →
  (follow (proposes r d) x).2 = Some (mkMsg MsgVote (tx_ID tx) (n_ID x) r "yes" (now' (n_ID x))) ∧
  let x' := handleCommit (commits r) (follow (proposes r d) x).1 in
  accounts (abs (n_Ledger x')) = pay tx (accounts (abs (n_Ledger n))) ∧ pending (n_Ledger x') = ∅.
Proof.
  intros Hnn Hm Hx. destruct (encoded_tx _ d (nr_tx_codec _ _ _ _ _ _ _ Hr nn Hnn) Hm) as [Hun Hlen].
  destruct (nr_replicas _ _ _ _ _ _ _ Hr x Hx) as (Hready & Hacc & Hns).
  destruct (replica_settles (now (n_ID x)) (now' (n_ID x)) x d (set_submitted nn (clk 0%nat) tx) (proposes r d) (commits r))
    as (Hv & Hpay & Hpend); try done; [rewrite Hacc; by apply (nr_funds _ _ _ _ _ _ _ Hr)|].
  cbv zeta. unfold follow. split_and!; [done| |done]. by rewrite Hpay, Hacc, set_submitted_pay.
Qed.

(** The proposal reaches the replicas, and their votes the proposer. *)
Lemma voting_phase nn r d : is_u64 nn → is_u64 r → marshal (set_submitted nn (clk 0%nat) tx) = Ok d →
  ∃ votes peers1 peers2, Broadcast (ts (n_ID n)) order (proposes r d) peers = (peers1, Ok tt) ∧
    serve_all rs peers1 = Ok (fst ∘ follow (proposes r d) <$> rs, peers2) ∧
    receive_n (length rs) (ts (n_ID n)) peers2 = Ok (votes, <[n_ID n := mkInbox [] false]> peers2) ∧
    length votes = length rs ∧ Forall (λ m, m_Type m = MsgVote ∧ m_TxID m = tx_ID tx ∧ m_Payload m = "yes") votes ∧
    (∀ x, x ∈ rs → peers2 !! n_ID x = Some (mkInbox [] false)).
Proof.
  intros Hnn Hrd Hm. pose proof Hr as [_ _ _ _ _ Hnd _ Hin _ Hcap _ _ Hmc].
  destruct (Broadcast_ok clk p tx n rs order peers peers (proposes r d) Hr) as (peers1 & Hb1 & Hq1 & Ho1).
  { apply Hmc; [by left|apply proposer_in_order|done|by left]. }
  { intros x Hx. by apply Hin, replica_in_order. }
  destruct (serve_proposal (n_ID n) (proposes r d) rs peers1 []) as (votes & peers2 & Hs1 & Hvotes & Hq2 & Hr2 & _); try done.
  { intros x Hx. destruct (follows nn r d x Hnn Hm Hx) as (Hv & _).
    split_and!; [by apply Hin, replica_in_order|by apply Hq1|]. eexists. split; [exact Hv|].
    apply Hmc; [right; by left|by apply replica_in_order|done|]. right; right. exists (n_ID x). split; [by apply replica_in_order|done]. }
  { rewrite Ho1 by (by apply NoDup_cons in Hnd as [? _]). apply Hin, proposer_in_order. }
  assert (length votes = length rs) as Hlv by (symmetry; by eapply Forall2_length).
  exists votes, peers1, peers2. split_and!; [done|done| |done| |done].
  - rewrite <- Hlv. apply receive_n_all; [apply Hin, proposer_in_order|done].
  - eapply Forall2_Forall_r; [exact Hvotes|]. apply Forall_forall. intros x Hx v Hv.
    destruct (follows nn r d x Hnn Hm Hx) as (Hv' & _). unfold follow in Hv'. rewrite Hv' in Hv. by injection Hv as <-.
Qed.

(** With a yes vote of every replica the proposer confirms unanimously. *)
Lemma counting_phase : ∃ nn r d, is_u64 nn ∧ is_u64 r ∧ marshal (set_submitted nn (clk 0%nat) tx) = Ok d ∧
  ∀ votes, Forall (λ m, m_Type m = MsgVote ∧ m_TxID m = tx_ID tx ∧ m_Payload m = "yes") votes → length votes = length rs →
  ∃ n', ProposeSettlement clk first p votes n =
      (n', [proposes r d; commits r], (Some (mkCR true r (Z.of_nat (length order)) (tx_ID tx)), Ok tt)) ∧
    accounts (abs (n_Ledger n')) = pay tx (accounts (abs (n_Ledger n))) ∧ pending (n_Ledger n') = ∅.
Proof.
  pose proof Hr as [Hn Hp He Hid _ _ Hord _ Hsize _ Hbuf Htc _].
  destruct (ProposeSettlement_eq clk first p n tx Hn Hp He Hid Htc) as (l3 & nn & r & d & [Hnn Hrd] & Hm & _ & _ & _ & _ & Hcase).
  exists nn, r, d. split_and!; [done..|]. intros votes Hyes Hlv.
  specialize (Hcase votes). cbv zeta in Hcase. rewrite Hbuf in Hcase. cbn [default drain] in Hcase.
  pose proof (collect_yes (tx_ID tx) (Z.of_nat (length (n_validators n)) - 1) votes 0 1 (delete (tx_ID tx) (n_pendingMsgs n)) Hyes) as Hcount.
  destruct (collect_loop _ _ _ _ _ _) as [yes buf]. cbn [fst] in Hcount. rewrite Hcount in Hcase by lia. clear Hcount.
  assert (length order = S (length rs)) as Hlo by (rewrite Hord; simpl; by rewrite length_fmap). rewrite Hsize, Hlv, <- Hlo in Hcase.
  replace (1 + Z.min (Z.of_nat (length order) - 1 - 0) (Z.of_nat (length rs))) with (Z.of_nat (length order)) in Hcase by lia.
  destruct (_ <=? _) eqn:E; zbool; [|pose proof (Z.quot_lt (Z.of_nat (length order)) 2 ltac:(lia) ltac:(done)); lia].
  destruct Hcase as (l4 & Hacc4 & Hpend4 & Hrun). eexists. split; [exact Hrun|done].
Qed.

(** The commit reaches the replicas, which empty their inboxes again. *)
Lemma commit_phase r d peers2 : is_u64 r → (∀ x, x ∈ rs → peers2 !! n_ID x = Some (mkInbox [] false)) →
  ∃ peers4 peers5, Broadcast (ts (n_ID n)) order (commits r) (<[n_ID n := mkInbox [] false]> peers2) = (peers4, Ok tt) ∧
    serve_all (fst ∘ follow (proposes r d) <$> rs) peers4 = Ok (handleCommit (commits r) <$> (fst ∘ follow (proposes r d) <$> rs), peers5) ∧
    (∀ id, id ∈ order → peers5 !! id = Some (mkInbox [] false)).
Proof.
  intros Hrd Hr2. pose proof Hr as [_ _ _ _ _ Hnd Hord Hin _ _ _ _ Hmc]. apply NoDup_cons in Hnd as [Hme Hnd].
  destruct (Broadcast_ok clk p tx n rs order (<[n_ID n := mkInbox [] false]> peers2) peers (commits r) Hr) as (peers4 & Hb4 & Hq4 & Ho4).
  { apply Hmc; [right; right; by left|apply proposer_in_order|done|by right; left]. }
  { intros x Hx. rewrite lookup_insert_ne; [by apply Hr2|]. intros Heq. destruct Hme. rewrite Heq. by apply list_elem_of_fmap_2. }
  assert (n_ID <$> (fst ∘ follow (proposes r d) <$> rs) = n_ID <$> rs) as Hids.
  { rewrite <- list_fmap_compose. apply list_fmap_ext. intros i x _. apply handleProposal_ID. }
  destruct (serve_commit (commits r) (fst ∘ follow (proposes r d) <$> rs) peers4) as (peers5 & Hs5 & Hq5 & Ho5); [done|by rewrite Hids| |].
  { intros x1 Hx1. apply list_elem_of_fmap in Hx1 as (x & -> & Hx). cbn. unfold follow. rewrite handleProposal_ID.
    split; [by apply Hin, replica_in_order|by apply Hq4]. }
  exists peers4, peers5. split_and!; [done|done|]. rewrite Hids in Ho5.
  intros id Hid. rewrite Hord, <- Hids in Hid. apply elem_of_cons in Hid as [->|Hi].
  - rewrite Ho5, Ho4 by done. apply lookup_insert_eq.
  - apply list_elem_of_fmap in Hi as (x & -> & Hx). by apply Hq5.
Qed.
End Phases.

(** C22. A settlement over the transport reaches every validator.  Start from a network
    at rest: connected validators with empty inboxes, the same balances and nothing
    pending, a transaction in order that no replica has seen, at most 64
    replicas, the message loops of the replicas taking their messages in any order
    of the validators.  The proposer's broadcast reaches every replica, each
    iteration of their loops answers with a vote, the votes are what the proposer
    receives, all of them count and the settlement is confirmed unanimously, the
    commit reaches every replica, and after one more iteration each, the proposer
    and all replicas hold the same balances, the old ones with the payment
    applied, with nothing pending and every inbox empty. *)
Theorem network_settles (clk : clock) (first : string) (p : loc) (tx : Transaction) (n : ValidatorNode)
    (rs : list ValidatorNode) (order : list string) (peers : inboxes) :
  network_ready clk p tx n rs order peers →
  ∃ prop com votes round n' rs1 rs2 peers1 peers2 peers3 peers4 peers5,
    Broadcast (ts (n_ID n)) order prop peers = (peers1, Ok tt) ∧
    serve_all rs peers1 = Ok (rs1, peers2) ∧
    receive_n (length rs) (ts (n_ID n)) peers2 = Ok (votes, peers3) ∧
    ProposeSettlement clk first p votes n =
      (n', [prop; com], (Some (mkCR true round (Z.of_nat (length order)) (tx_ID tx)), Ok tt)) ∧
    Broadcast (ts (n_ID n)) order com peers3 = (peers4, Ok tt) ∧
    serve_all rs1 peers4 = Ok (rs2, peers5) ∧
    (∀ x, x ∈ n' :: rs2 → accounts (abs (n_Ledger x)) = pay tx (accounts (abs (n_Ledger n))) ∧ pending (n_Ledger x) = ∅) ∧
    length rs2 = length rs ∧ (∀ id, id ∈ order → peers5 !! id = Some (mkInbox [] false)).
Proof.
  intros Hr. destruct (counting_phase clk first p tx n rs order peers Hr) as (nn & r & d & Hnn & Hrd & Hm & Hcount).
  destruct (voting_phase clk p tx n rs order peers Hr nn r d Hnn Hrd Hm) as (votes & peers1 & peers2 & Hb & Hs & Hv & Hlv & Hyes & Hq).
  destruct (Hcount votes Hyes Hlv) as (n' & Hrun & Hacc & Hpend).
  destruct (commit_phase clk p tx n rs order peers Hr r d peers2 Hrd Hq) as (peers4 & peers5 & Hb4 & Hs5 & Hq5).
  do 12 eexists. split_and!; [exact Hb|exact Hs|exact Hv|exact Hrun|exact Hb4|exact Hs5| |by rewrite !length_fmap|exact Hq5].
  intros x [->|Hx]%elem_of_cons; [done|]. rewrite <- list_fmap_compose in Hx. apply list_elem_of_fmap in Hx as (y & -> & Hy).
  by destruct (follows clk p tx n rs order peers Hr nn r d y Hnn Hm Hy) as (_ & ? & ?).
Qed.
End Settlement.
End Network.

(** ** Witnesses

    The five validators of [DemoNode] with the JSON codecs of the program. *)
Module DemoNetwork.
Import DemoNode.

Definition lenient0 : string → option Z := λ _, None.
#[local] Instance tx_json : Codec Transaction := tx_codec lenient0.
#[local] Instance msg_json : Codec ConsensusMessage := msg_codec lenient0.
#[local] Instance tx_json_laws : CodecLaws Transaction := tx_codec_laws lenient0.
#[local] Instance msg_json_laws : CodecLaws ConsensusMessage := msg_codec_laws lenient0.

Definition ids5 : list string := ["A"; "B"; "C"; "D"; "E"].
Definition open_ts (id : string) : LocalTransport := NewLocalTransport id.
Definition quiet : inboxes := (NewLocalTransportSet ids5).2.
Definition replicas : list ValidatorNode := (λ id, NewValidatorNode id vals5) <$> ["B"; "C"; "D"; "E"].
Definition clk1 : string → Z := λ _, 7.

Lemma demo_network_ready : network_ready open_ts clk1 clk0 0 tx1 nodeA replicas ids5 quiet.
Proof.
  split.
  - apply ready_A.
  - vm_compute. reflexivity.
  - vm_compute. reflexivity.
  - vm_compute. eauto.
  - intros r Hr. repeat (apply elem_of_cons in Hr as [->|Hr]; [split_and!; [apply ready_ledger|reflexivity|apply not_elem_of_empty]|]).
    by apply not_elem_of_nil in Hr.
  - apply (bool_decide_unpack _). vm_compute. reflexivity.
  - reflexivity.
  - intros id Hid. split; [done|].
    repeat (apply elem_of_cons in Hid as [->|Hid]; [vm_compute; reflexivity|]). by apply not_elem_of_nil in Hid.
  - reflexivity.
  - vm_compute. lia.
  - reflexivity.
  - intros nn Hnn. split_and!; try reflexivity; try apply Hnn; try (vm_compute; congruence). vm_compute. eauto.
  - intros ty who round pay time Hty Hwho Hround Htime. split_and!; try apply Hround.
    + repeat (apply elem_of_cons in Hty as [->|Hty]; [reflexivity|]). by apply not_elem_of_nil in Hty.
    + reflexivity.
    + repeat (apply elem_of_cons in Hwho as [->|Hwho]; [reflexivity|]). by apply not_elem_of_nil in Hwho.
    + assert (time = 5 ∨ time = 7) as [-> | ->] by (destruct Htime as [->|[->|(id & _ & ->)]]; auto); vm_compute; eauto.
Qed.

Lemma network_settles_witness : ∃ prop com votes round n' rs2,
  ProposeSettlement clk0 "" 0 votes nodeA = (n', [prop; com], (Some (mkCR true round 5 "tx-1"), Ok tt)) ∧
  (∀ x, x ∈ n' :: rs2 → accounts (abs (n_Ledger x)) = pay tx1 (accounts (abs (n_Ledger nodeA))) ∧ pending (n_Ledger x) = ∅) ∧
  length rs2 = 4%nat.
Proof.
  destruct (network_settles open_ts clk1 clk1 clk0 "" 0 tx1 nodeA replicas ids5 quiet demo_network_ready)
    as (prop & com & votes & round & n' & rs1 & rs2 & p1 & p2 & p3 & p4 & p5 & _ & _ & _ & Hrun & _ & _ & Hall & Hlen & _).
  exists prop, com, votes, round, n', rs2. split; [exact Hrun|]. split; [exact Hall|exact Hlen].
Defined.

(** A node with one proposal waiting is stopped and returns. *)
Definition one_waiting : run_state := mkRun nodeB {["B" := mkInbox [propA] false]} false Running.

Lemma stopped_node_returns_witness :
  (1 ≤ 2)%nat ∧ (Returned = Running → ∃ st, run_step (open_ts "B") (mkRun nodeB {["B" := mkInbox [propA] false]} true Returned) st).
Proof.
  apply (stopped_node_returns (open_ts "B") one_waiting 1 (mkRun nodeB {["B" := mkInbox [propA] false]} true Returned)).
  - constructor; [discriminate|constructor].
  - eapply nsteps_l; [apply RunCancelled|apply nsteps_O].
Defined.

Lemma send_to_closed_peer_panics_witness :
  (Send (open_ts "A") "B" propA (Close (open_ts "B") quiet).2).2 = Panic ∧
  (broadcast_loop (open_ts "A") ["B"; "C"] propA (Close (open_ts "B") quiet).2 None).2 = Panic.
Proof.
  apply (send_to_closed_peer_panics (open_ts "A") (open_ts "B") quiet (mkInbox [] false) propA ["C"]).
  - reflexivity.
  - reflexivity.
  - apply not_elem_of_empty.
  - vm_compute. reflexivity.
  - split_and!; try reflexivity; try (vm_compute; congruence). vm_compute. eauto.
Defined.
End DemoNetwork.
