(* ===== verification/Api.v ===== *)
(** * The HTTP API

    [src/internal/api/server.go]: the handlers that change state (check, settle,
    rotate key), the read handlers with logic of their own (verify-chain,
    filter-paths), and the authentication middleware.  A request body is
    the outcome of decoding it; a response is its status and its structured
    content; the audit events carry the details of the source.  Identifiers of
    [uuid.New], clock readings, database faults, error texts and map iteration
    order are drawn from an environment. *)

From S2P Require Import Prelude GoJson Sha256 Model Replay Policy PathCheck Scion Bolt.
From S2P Require Import ReceiptStore Receipt Violation Ledger Consensus.

(** ** Requests and responses *)
Record CheckRequest := mkCheckReq {
  cq_TransactionID : string;
  cq_PolicyID : string;
  cq_RawPath : bytes
}.

(** [RawPath] is [None] when the field is absent or null. *)
Record SettleRequest := mkSettleReq {
  sq_TransactionID : string;
  sq_From : string;
  sq_To : string;
  sq_Amount : Z;
  sq_Currency : string;
  sq_PolicyID : string;
  sq_RawPath : option bytes
}.

Record FilterPathsRequest := mkFilterReq {
  fq_PolicyID : string;
  fq_Paths : list SCIONPath
}.

Record PolicyResult := mkPR {
  pr_Compliant : bool;
  pr_Receipt : option receipt;
  pr_Violation : option Violation
}.

Record SettleResponse := mkSR {
  sr_Consensus : option ConsensusResult;
  sr_Compliance : option PolicyResult;
  sr_ReceiptPersisted : option bool;
  sr_Idempotent : bool;
  sr_Code : string
}.

Record VerifyChainResponse := mkVC {
  vc_ChainLength : Z;
  vc_OraclePublicKey : bytes;
  vc_OraclePublicKeys : list bytes;
  vc_Receipts : list receipt
}.

Inductive response :=
| RError (status : Z) (code : string)
| RCheck (r : PolicyResult)
| RSettle (status : Z) (r : SettleResponse)
| RChain (r : VerifyChainResponse)
| RFilter (r : FilterResult)
| RRotated (oldKey newKey : bytes) (archive : string) (count : Z) (lastSeq : option Z).

(** The arguments of one call of [audit]: the event type, and the map literal of
    its details in the order of the source. *)
Record audit_event := mkEvent {
  ev_Type : string;
  ev_Details : list (string * json)
}.

(** What a request draws from its surroundings.  Of the error texts, [e_msg 0]
    is that of the error the handler reports, [e_msg 1] that of the error inside
    an [AppendError]. *)
Record env := mkEnv {
  e_uuid : nat → string;
  e_clk : clock;
  e_fault : nat → fault;
  e_first : string;
  e_msg : nat → string
}.

(** ** The server *)
Record Server (S V : Type) := mkServer {
  sv_policies : list Policy;
  sv_checkers : gmap string Checker;
  sv_filters : gmap string PathFilter;
  sv_receipts : S;
  sv_generator : Generator;
  sv_detector : Detector V;
  sv_extractor : PathExtractor;
  sv_ledger : Ledger;
  sv_validators : list ValidatorState;
  sv_audit : list audit_event;
  sv_apiToken : string;
  sv_adminToken : string;
  sv_oracleKeyPath : string
}.
Arguments mkServer {S V}.
Arguments sv_policies {S V}.
Arguments sv_checkers {S V}.
Arguments sv_filters {S V}.
Arguments sv_receipts {S V}.
Arguments sv_generator {S V}.
Arguments sv_detector {S V}.
Arguments sv_extractor {S V}.
Arguments sv_ledger {S V}.
Arguments sv_validators {S V}.
Arguments sv_audit {S V}.
Arguments sv_apiToken {S V}.
Arguments sv_adminToken {S V}.
Arguments sv_oracleKeyPath {S V}.

(** A [ServerOption] and the three of the source. *)
Definition WithBearerToken {S V} (token : string) (s : Server S V) : Server S V :=
  mkServer (sv_policies s) (sv_checkers s) (sv_filters s) (sv_receipts s) (sv_generator s) (sv_detector s) (sv_extractor s)
    (sv_ledger s) (sv_validators s) (sv_audit s) token (sv_adminToken s) (sv_oracleKeyPath s).
Definition WithAdminToken {S V} (token : string) (s : Server S V) : Server S V :=
  mkServer (sv_policies s) (sv_checkers s) (sv_filters s) (sv_receipts s) (sv_generator s) (sv_detector s) (sv_extractor s)
    (sv_ledger s) (sv_validators s) (sv_audit s) (sv_apiToken s) token (sv_oracleKeyPath s).
Definition WithOracleKeyPath {S V} (path : string) (s : Server S V) : Server S V :=
  mkServer (sv_policies s) (sv_checkers s) (sv_filters s) (sv_receipts s) (sv_generator s) (sv_detector s) (sv_extractor s)
    (sv_ledger s) (sv_validators s) (sv_audit s) (sv_apiToken s) (sv_adminToken s) path.

(** [NewServer]: the options are applied to the server without checkers; then
    each policy gets a checker and a filter, a later policy with the same
    identifier replacing an earlier one. *)
Definition NewServer {S V} (policies : list Policy) (gen : Generator) (ext : PathExtractor) (ledger : Ledger)
    (vals : list ValidatorState) (rs : S) (det : Detector V) (opts : list (Server S V → Server S V)) : Server S V :=
  let s := foldl (λ s opt, opt s) (mkServer policies ∅ ∅ rs gen det ext ledger vals [] "" "" "") opts in
  mkServer (sv_policies s) (foldl (λ m p, <[pol_ID p := NewChecker p]> m) (sv_checkers s) policies)
    (foldl (λ m p, <[pol_ID p := NewPathFilter p]> m) (sv_filters s) policies) (sv_receipts s) (sv_generator s)
    (sv_detector s) (sv_extractor s) (sv_ledger s) (sv_validators s) (sv_audit s) (sv_apiToken s) (sv_adminToken s)
    (sv_oracleKeyPath s).

(** ** Pure helpers *)

(** [canonicalSettleRequestDigest]; encoding strings and integers cannot fail. *)
Definition canonicalSettleRequestDigest (req : SettleRequest) (txID : string) : string :=
  let rawPathHash := sha256 (default "" (sq_RawPath req)) in
  hex (sha256 (render (JObj
    [("transaction_id", JStr txID); ("from", JStr (sq_From req)); ("to", JStr (sq_To req));
     ("amount", JNum (sq_Amount req)); ("currency", JStr (sq_Currency req)); ("policy_id", JStr (sq_PolicyID req));
     ("raw_path_sha256", JStr (hex rawPathHash))]))).

Definition settleRequestMatchesTransaction (existing : Transaction) (req : SettleRequest) (requestDigest : string) : bool :=
  if negb (bool_decide (tx_RequestDigest existing = "")) then bool_decide (tx_RequestDigest existing = requestDigest)
  else bool_decide (tx_From existing = sq_From req) && bool_decide (tx_To existing = sq_To req) &&
       bool_decide (tx_Amount existing = sq_Amount req) && bool_decide (tx_Currency existing = sq_Currency req) &&
       bool_decide (tx_PolicyID existing = sq_PolicyID req).

Definition confirmedConsensus (txID : string) : ConsensusResult := mkCR true 0 0 txID.

Definition receiptPolicyID (tx : option Transaction) (fallback : string) : string :=
  match tx with
  | Some t => if negb (bool_decide (tx_PolicyID t = "")) then tx_PolicyID t else fallback
  | None => fallback
  end.

(** [add] of [receiptPublicKeys]. *)
Definition add_key (keys : list bytes) (key : bytes) : list bytes :=
  if len key =? 0 then keys
  else if bool_decide (key ∈ keys) then keys
  else keys ++ [key].

Definition receiptPublicKeys (receipts : list receipt) (current : bytes) : list bytes :=
  add_key (foldl (λ ks r, add_key ks (r_OraclePublicKey r)) [] receipts) current.

(** [strings.CutPrefix] with the bearer scheme. *)
Definition bearer_token (header : string) : option string :=
  let pre := "Bearer " in
  if bool_decide (String.substring 0 (String.length pre) header = pre)
  then Some (String.substring (String.length pre) (String.length header - String.length pre) header) else None.

Definition has_prefix (s prefix : string) : bool :=
  bool_decide (String.substring 0 (String.length prefix) s = prefix).

(** [bearerAuthMiddleware]: whether the request reaches the router. *)
Definition authorized (token path header : string) : bool :=
  if bool_decide (token = "") then true
  else if negb (bool_decide (path = "/api")) && negb (has_prefix path "/api/") then true
  else match bearer_token header with
       | None => false
       | Some presented => (len presented =? len token) && bool_decide (presented = token)
       end.

Definition isAdminRequest {S V} (header : string) (sv : Server S V) : bool :=
  if bool_decide (sv_adminToken sv = "") then false
  else (len header =? len (sv_adminToken sv)) && bool_decide (header = sv_adminToken sv).

(** A filter and a checker of the same identifier serve the same policy. *)
Lemma NewServer_filters {S V} policies gen ext ledger vals (rs : S) (det : Detector V) b a k :
  let sv := NewServer policies gen ext ledger vals rs det [WithBearerToken b; WithAdminToken a; WithOracleKeyPath k] in
  pf_policy <$> sv_filters sv = c_policy <$> sv_checkers sv.
Proof.
  cbn [NewServer foldl WithBearerToken WithAdminToken WithOracleKeyPath sv_filters sv_checkers].
  assert (∀ (m : gmap string PathFilter) (m' : gmap string Checker), pf_policy <$> m = c_policy <$> m' →
    pf_policy <$> foldl (λ m p, <[pol_ID p := NewPathFilter p]> m) m policies =
    c_policy <$> foldl (λ m p, <[pol_ID p := NewChecker p]> m) m' policies) as Hgen.
  { induction policies as [|p ps IH]; intros m m' Hm; cbn [foldl]; [done|]. apply IH. by rewrite !fmap_insert, Hm. }
  apply Hgen. by rewrite !fmap_empty.
Qed.

Section Handlers.
Context {S V : Type} `{!Store S, !ViolationStore V, !Ed25519}.
Abbreviation srv := (Server S V).

(** *** Assignments *)
Definition set_audit (ev : audit_event) (sv : srv) : srv :=
  mkServer (sv_policies sv) (sv_checkers sv) (sv_filters sv) (sv_receipts sv) (sv_generator sv) (sv_detector sv) (sv_extractor sv)
    (sv_ledger sv) (sv_validators sv) (sv_audit sv ++ [ev]) (sv_apiToken sv) (sv_adminToken sv) (sv_oracleKeyPath sv).
Definition set_checker (id : string) (c : Checker) (sv : srv) : srv :=
  mkServer (sv_policies sv) (<[id := c]> (sv_checkers sv)) (sv_filters sv) (sv_receipts sv) (sv_generator sv) (sv_detector sv)
    (sv_extractor sv) (sv_ledger sv) (sv_validators sv) (sv_audit sv) (sv_apiToken sv) (sv_adminToken sv) (sv_oracleKeyPath sv).
Definition set_issue (g : Generator) (s : S) (sv : srv) : srv :=
  mkServer (sv_policies sv) (sv_checkers sv) (sv_filters sv) s g (sv_detector sv) (sv_extractor sv) (sv_ledger sv)
    (sv_validators sv) (sv_audit sv) (sv_apiToken sv) (sv_adminToken sv) (sv_oracleKeyPath sv).
Definition set_detector (d : Detector V) (sv : srv) : srv :=
  mkServer (sv_policies sv) (sv_checkers sv) (sv_filters sv) (sv_receipts sv) (sv_generator sv) d (sv_extractor sv) (sv_ledger sv)
    (sv_validators sv) (sv_audit sv) (sv_apiToken sv) (sv_adminToken sv) (sv_oracleKeyPath sv).
Definition set_ledger (l : Ledger) (sv : srv) : srv :=
  mkServer (sv_policies sv) (sv_checkers sv) (sv_filters sv) (sv_receipts sv) (sv_generator sv) (sv_detector sv) (sv_extractor sv) l
    (sv_validators sv) (sv_audit sv) (sv_apiToken sv) (sv_adminToken sv) (sv_oracleKeyPath sv).

(** Audit and answer with an error. *)
Definition fail (event : string) (details : list (string * json)) (status : Z) (code : string) (sv : srv) :
    srv * res unit response :=
  (set_audit (mkEvent event details) sv, Ok (RError status code)).

Definition receiptIDFromError (err : gen_err) : string :=
  match err with AppendError receiptID _ => receiptID | _ => "" end.

Definition auditReceiptPersistenceFailure (e : env) (context txID policyID receiptID : string) (err : gen_err)
    (sv : srv) : srv :=
  let errMsg := match err with AppendError _ _ => e_msg e 1 | _ => e_msg e 0 end in
  set_audit (mkEvent "receipt_persist_failure"
    [("context", JStr context); ("tx_id", JStr txID); ("policy_id", JStr policyID); ("receipt_id", JStr receiptID);
     ("outcome", JStr "error"); ("code", JStr "RECEIPT_PERSISTENCE_FAILED"); ("error", JStr errMsg)]) sv.

(** The guard of both callers. *)
Definition audit_if_persist_failed (e : env) (context txID policyID : string) (err : gen_err) (sv : srv) : srv :=
  let receiptID := receiptIDFromError err in
  if negb (bool_decide (receiptID = "")) then auditReceiptPersistenceFailure e context txID policyID receiptID err sv
  else sv.

(** [recoveryMiddleware] *)
Definition recovered (x : srv * res unit response) : srv * response :=
  match x with
  | (sv, Ok r) => (sv, r)
  | (sv, _) => (sv, RError 500 "INTERNAL_ERROR")
  end.

(** *** POST /api/check *)
Definition check_outcome (e : env) (txID policyID : string) (path : SCIONPath) (result : CheckResult) (sv : srv) :
    srv * res unit response :=
  if ck_Compliant result then
    match IssueAndAppend (e_fault e 0) (e_uuid e 1) (e_clk e 3) txID policyID path (sv_generator sv) (sv_receipts sv) with
    | (g, s, Ok r) =>
      (set_audit (mkEvent "check" [("tx_id", JStr txID); ("policy_id", JStr policyID); ("compliant", JBool true);
         ("path_fingerprint", JStr (path_Fingerprint path)); ("receipt_id", JStr (r_ID r))]) (set_issue g s sv),
       Ok (RCheck (mkPR true (Some r) None)))
    | (g, s, Err err) =>
      fail "check" [("tx_id", JStr txID); ("policy_id", JStr policyID); ("outcome", JStr "error");
                    ("code", JStr "INTERNAL_ERROR"); ("error", JStr (e_msg e 0))] 500 "INTERNAL_ERROR"
        (audit_if_persist_failed e "check" txID policyID err (set_issue g s sv))
    | (g, s, Panic) => (set_issue g s sv, Panic)
    end
  else
    match RecordViolation (e_fault e 1) (e_uuid e 1) (e_clk e 3) txID policyID (ck_ViolatedClause result) path
            (ck_OffendingHops result) (sv_detector sv) with
    | Ok (d, v) =>
      (set_audit (mkEvent "check" [("tx_id", JStr txID); ("policy_id", JStr policyID); ("compliant", JBool false);
         ("path_fingerprint", JStr (path_Fingerprint path)); ("violation_id", JStr (Violation.v_ID v))]) (set_detector d sv),
       Ok (RCheck (mkPR false None (Some v))))
    | Err _ | Panic => (sv, Panic)
    end.

Definition handleCheck (e : env) (body : res string CheckRequest) (sv : srv) : srv * res unit response :=
  match body with
  | Err _ => fail "check" [("outcome", JStr "error"); ("code", JStr "INVALID_REQUEST"); ("error", JStr (e_msg e 0))]
               400 "INVALID_REQUEST" sv
  | Panic => (sv, Panic)
  | Ok req =>
    let txID := if bool_decide (cq_TransactionID req = "") then e_uuid e 0 else cq_TransactionID req in
    if negb (bool_decide (cq_TransactionID req = "")) && bool_decide (is_Some (GetTransaction txID (sv_ledger sv)))
    then fail "check" [("tx_id", JStr txID); ("policy_id", JStr (cq_PolicyID req)); ("outcome", JStr "error");
                       ("code", JStr "TX_ID_RESERVED")] 409 "TX_ID_RESERVED" sv
    else match sv_checkers sv !! cq_PolicyID req with
         | None => fail "check" [("tx_id", JStr txID); ("policy_id", JStr (cq_PolicyID req)); ("outcome", JStr "error");
                                 ("code", JStr "UNKNOWN_POLICY")] 400 "UNKNOWN_POLICY" sv
         | Some checker =>
           match BuildSCIONPath (sv_extractor sv) (cq_RawPath req) with
           | Err _ => fail "check" [("tx_id", JStr txID); ("policy_id", JStr (cq_PolicyID req)); ("outcome", JStr "error");
                                    ("code", JStr "INVALID_REQUEST"); ("error", JStr (e_msg e 0))] 400 "INVALID_REQUEST" sv
           | Panic => (sv, Panic)
           | Ok path =>
             match PathCheck.Check (e_clk e 0) (e_clk e 1) (e_clk e 2) path checker with
             | (c, Err _) =>
               fail "check" [("tx_id", JStr txID); ("policy_id", JStr (cq_PolicyID req)); ("outcome", JStr "error");
                             ("code", JStr "INTERNAL_ERROR"); ("error", JStr (e_msg e 0))] 500 "INTERNAL_ERROR"
                 (set_checker (cq_PolicyID req) c sv)
             | (c, Panic) => (set_checker (cq_PolicyID req) c sv, Panic)
             | (c, Ok result) => check_outcome e txID (cq_PolicyID req) path result (set_checker (cq_PolicyID req) c sv)
             end
           end
         end
  end.

(** *** POST /api/settle *)

(** The path, or the code of the error. *)
Definition validateLegacySettlementPath (existing : Transaction) (req : SettleRequest) (path : option SCIONPath)
    (sv : srv) : res string (option SCIONPath) :=
  if negb (bool_decide (tx_RequestDigest existing = "")) || bool_decide (tx_PathFingerprint existing = "") then Ok path
  else
    p ← match path with
        | Some p => Ok p
        | None => map_err (λ _, "INVALID_REQUEST") (BuildSCIONPath (sv_extractor sv) (default "" (sq_RawPath req)))
        end;
    if negb (bool_decide (path_Fingerprint p = tx_PathFingerprint existing)) then Err "TX_CONFLICT" else Ok (Some p).

(** [loadLedgerReceipt]: the receipt if the transaction names one. *)
Definition loadLedgerReceipt (f : fault) (tx : Transaction) (sv : srv) : res string (option receipt) :=
  if bool_decide (tx_ReceiptID tx = "") then Ok None
  else match store_GetByID f (tx_ReceiptID tx) (sv_receipts sv) with
       | Err _ => Err "RECEIPT_LOOKUP_FAILED"
       | Panic => Panic
       | Ok None => Err "SETTLEMENT_RECEIPT_MISSING"
       | Ok (Some r) => Ok (Some r)
       end.

(** The part of [ensureSettlementReceipt] that runs before and again under the
    mutex: [Ok (inl r)] returns the receipt the ledger names, [Ok (inr tx)]
    continues with the transaction. *)
Definition settled_tx (f : fault) (txID : string) (sv : srv) : res string (receipt + Transaction) :=
  match GetTransaction txID (sv_ledger sv) with
  | None => Err "SETTLEMENT_RECEIPT_FAILED"
  | Some tx =>
    if negb (bool_decide (tx_Status tx = TxConfirmed)) then Err "SETTLEMENT_RECEIPT_FAILED"
    else
      r ← loadLedgerReceipt f tx sv;
      match r with
      | Some r => Ok (inl r)
      | None =>
        if bool_decide (tx_RequestDigest tx = "") && bool_decide (tx_PathFingerprint tx = "")
        then Err "SETTLEMENT_RECEIPT_MISSING" else Ok (inr tx)
      end
  end.

(** Issue the receipt and record it in the ledger. *)
Definition issue_for (e : env) (txID policyID : string) (path : SCIONPath) (tx : Transaction) (sv : srv) :
    srv * res string receipt :=
  if negb (bool_decide (tx_PathFingerprint tx = "")) && negb (bool_decide (path_Fingerprint path = tx_PathFingerprint tx))
  then (sv, Err "SETTLEMENT_RECEIPT_FAILED")
  else
    match IssueAndAppend (e_fault e 4) (e_uuid e 2) (e_clk e 4) txID policyID path (sv_generator sv) (sv_receipts sv) with
    | (g, s, Err err) =>
      (audit_if_persist_failed e "settle" txID policyID err (set_issue g s sv), Err "SETTLEMENT_RECEIPT_FAILED")
    | (g, s, Panic) => (set_issue g s sv, Panic)
    | (g, s, Ok r) =>
      match AttachReceipt txID (r_ID r) (sv_ledger sv) with
      | (l, _, Ok _) => (set_ledger l (set_issue g s sv), Ok r)
      | (l, _, Err _) => (set_ledger l (set_issue g s sv), Err "SETTLEMENT_RECEIPT_FAILED")
      | (l, _, Panic) => (set_ledger l (set_issue g s sv), Panic)
      end
    end.

Definition ensureSettlementReceipt (e : env) (txID policyID : string) (rawPath : bytes) (path : option SCIONPath)
    (sv : srv) : srv * res string receipt :=
  match settled_tx (e_fault e 2) txID sv with
  | Err c => (sv, Err c)
  | Panic => (sv, Panic)
  | Ok (inl r) => (sv, Ok r)
  | Ok (inr _) =>
    match settled_tx (e_fault e 3) txID sv with
    | Err c => (sv, Err c)
    | Panic => (sv, Panic)
    | Ok (inl r) => (sv, Ok r)
    | Ok (inr tx) =>
      match (match path with Some p => Ok p | None => BuildSCIONPath (sv_extractor sv) rawPath end) with
      | Err _ => (sv, Err "SETTLEMENT_RECEIPT_FAILED")
      | Panic => (sv, Panic)
      | Ok p => issue_for e txID policyID p tx sv
      end
    end
  end.

Definition writeSettlementReceiptFailure (txID : string) (consensus : option ConsensusResult) (code : string)
    (idempotent : bool) : response :=
  RSettle 500 (mkSR (Some (default (confirmedConsensus txID) consensus)) (Some (mkPR true None None)) (Some false)
                 idempotent code).

(** The events of a retry, and of the outcomes of a new settlement. *)
Definition existing_failed (e : env) (txID code : string) : audit_event :=
  mkEvent "settle" [("tx_id", JStr txID); ("outcome", JStr "error"); ("code", JStr code); ("error", JStr (e_msg e 0))].
Definition existing_settled (txID : string) : audit_event :=
  mkEvent "settle" [("tx_id", JStr txID); ("outcome", JStr "idempotent"); ("status", JStr "confirmed")].
Definition submit_failed (e : env) (txID : string) : list (string * json) :=
  [("tx_id", JStr txID); ("outcome", JStr "error"); ("code", JStr "INVALID_REQUEST"); ("error", JStr (e_msg e 0))].

Definition handleExistingSettlement (e : env) (existing : Transaction) (req : SettleRequest) (requestDigest : string)
    (path : option SCIONPath) (sv : srv) : srv * res unit response :=
  let txID := tx_ID existing in
  if negb (settleRequestMatchesTransaction existing req requestDigest) then
    fail "settle" [("tx_id", JStr txID); ("outcome", JStr "error"); ("code", JStr "TX_CONFLICT")] 409 "TX_CONFLICT" sv
  else match validateLegacySettlementPath existing req path sv with
       | Err code =>
         fail "settle" [("tx_id", JStr txID); ("outcome", JStr "error"); ("code", JStr code); ("error", JStr (e_msg e 0))]
           (if bool_decide (code = "TX_CONFLICT") then 409 else 400) code sv
       | Panic => (sv, Panic)
       | Ok path =>
         if bool_decide (tx_Status existing = TxConfirmed) then
           match ensureSettlementReceipt e txID (receiptPolicyID (Some existing) (sq_PolicyID req))
                   (default "" (sq_RawPath req)) path sv with
           | (sv', Err code) => (set_audit (existing_failed e txID code) sv',
               Ok (writeSettlementReceiptFailure txID (Some (confirmedConsensus txID)) code true))
           | (sv', Panic) => (sv', Panic)
           | (sv', Ok r) => (set_audit (existing_settled txID) sv',
               Ok (RSettle 200 (mkSR (Some (confirmedConsensus txID)) (Some (mkPR true (Some r) None)) (Some true) true "")))
           end
         else if bool_decide (tx_Status existing = TxPending) then
           fail "settle" [("tx_id", JStr txID); ("outcome", JStr "error"); ("code", JStr "TX_PENDING")] 409 "TX_PENDING" sv
         else
           fail "settle" [("tx_id", JStr txID); ("outcome", JStr "error"); ("code", JStr "DUPLICATE_TX")] 409 "DUPLICATE_TX" sv
       end.

(** The transaction of a request whose path was found compliant. *)
Definition settle_tx (req : SettleRequest) (txID requestDigest : string) (path : SCIONPath) : Transaction :=
  mkTx txID (sq_From req) (sq_To req) (sq_Amount req) (sq_Currency req) (sq_PolicyID req) (path_Fingerprint path)
    requestDigest "" "" zero_time 0.

(** Steps 2 and 3 of [handleSettle]: consensus, then the receipt. *)
Definition settle_compliant (e : env) (req : SettleRequest) (txID requestDigest : string) (path : SCIONPath) (sv : srv) :
    srv * res unit response :=
  let '(l1, p) := new_tx (settle_tx req txID requestDigest path) (sv_ledger sv) in
  match SubmitAndRunRound (λ i, e_clk e (10 + i)%nat) (e_first e) (sv_validators sv) p l1 with
  | (l2, (_, (_, Panic))) => (set_ledger l2 sv, Panic)
  | (l2, (Some existing, _)) => handleExistingSettlement e existing req requestDigest (Some path) (set_ledger l2 sv)
  | (l2, (None, (None, Err _))) => fail "settle" (submit_failed e txID) 400 "INVALID_REQUEST" (set_ledger l2 sv)
  | (l2, (None, (result, err))) =>
    if negb (is_ok err) || (match result with Some cr => negb (cr_Confirmed cr) | None => false end) then
      (set_audit (mkEvent "settle" [("tx_id", JStr txID); ("policy_id", JStr (sq_PolicyID req)); ("compliant", JBool true);
         ("outcome", JStr "consensus_rejected"); ("from", JStr (sq_From req)); ("to", JStr (sq_To req));
         ("amount", JNum (sq_Amount req)); ("currency", JStr (sq_Currency req))]) (set_ledger l2 sv),
       Ok (RSettle 200 (mkSR result None None false "")))
    else
      match ensureSettlementReceipt e txID (sq_PolicyID req) (default "" (sq_RawPath req)) (Some path) (set_ledger l2 sv) with
      | (sv', Err code) =>
        (set_audit (mkEvent "settle" [("tx_id", JStr txID); ("policy_id", JStr (sq_PolicyID req)); ("outcome", JStr "error");
           ("code", JStr code); ("error", JStr (e_msg e 0))]) sv',
         Ok (writeSettlementReceiptFailure txID result code false))
      | (sv', Panic) => (sv', Panic)
      | (sv', Ok r) =>
        match result with
        | None => (sv', Panic)
        | Some _ => (set_audit (mkEvent "settle" [("tx_id", JStr txID); ("policy_id", JStr (sq_PolicyID req));
                       ("compliant", JBool true); ("outcome", JStr "settled"); ("consensus_confirmed", JBool true);
                       ("receipt_id", JStr (r_ID r)); ("from", JStr (sq_From req)); ("to", JStr (sq_To req));
                       ("amount", JNum (sq_Amount req)); ("currency", JStr (sq_Currency req))]) sv',
                     Ok (RSettle 200 (mkSR result (Some (mkPR true (Some r) None)) (Some true) false "")))
        end
      end
  end.

Definition handleSettle (e : env) (body : res string SettleRequest) (sv : srv) : srv * res unit response :=
  match body with
  | Err _ => fail "settle" [("outcome", JStr "error"); ("code", JStr "INVALID_REQUEST"); ("error", JStr (e_msg e 0))]
               400 "INVALID_REQUEST" sv
  | Panic => (sv, Panic)
  | Ok req =>
    if bool_decide (sq_From req = "") || bool_decide (sq_To req = "") || (sq_Amount req <=? 0) ||
       bool_decide (sq_Currency req = "") then
      fail "settle" [("outcome", JStr "error"); ("code", JStr "INVALID_REQUEST"); ("from", JStr (sq_From req));
                     ("to", JStr (sq_To req))] 400 "INVALID_REQUEST" sv
    else if bool_decide (sq_PolicyID req = "") then
      fail "settle" [("outcome", JStr "error"); ("code", JStr "POLICY_REQUIRED"); ("from", JStr (sq_From req));
                     ("to", JStr (sq_To req))] 400 "POLICY_REQUIRED" sv
    else if bool_decide (sq_RawPath req = None) then
      fail "settle" [("outcome", JStr "error"); ("code", JStr "PATH_REQUIRED"); ("from", JStr (sq_From req));
                     ("to", JStr (sq_To req)); ("policy_id", JStr (sq_PolicyID req))] 400 "PATH_REQUIRED" sv
    else
      let txID := if bool_decide (sq_TransactionID req = "") then e_uuid e 0 else sq_TransactionID req in
      let requestDigest := canonicalSettleRequestDigest req txID in
      match GetTransaction txID (sv_ledger sv) with
      | Some existing => handleExistingSettlement e existing req requestDigest None sv
      | None =>
        match sv_checkers sv !! sq_PolicyID req with
        | None => fail "settle" [("outcome", JStr "error"); ("code", JStr "UNKNOWN_POLICY"); ("policy_id", JStr (sq_PolicyID req));
                                 ("from", JStr (sq_From req)); ("to", JStr (sq_To req))] 400 "UNKNOWN_POLICY" sv
        | Some checker =>
          match BuildSCIONPath (sv_extractor sv) (default "" (sq_RawPath req)) with
          | Err _ => fail "settle" [("outcome", JStr "error"); ("code", JStr "INVALID_REQUEST");
                                    ("policy_id", JStr (sq_PolicyID req)); ("error", JStr (e_msg e 0))] 400 "INVALID_REQUEST" sv
          | Panic => (sv, Panic)
          | Ok path =>
            match PathCheck.Check (e_clk e 0) (e_clk e 1) (e_clk e 2) path checker with
            | (c, Err _) =>
              fail "settle" [("outcome", JStr "error"); ("code", JStr "INTERNAL_ERROR"); ("policy_id", JStr (sq_PolicyID req));
                             ("error", JStr (e_msg e 0))] 500 "INTERNAL_ERROR" (set_checker (sq_PolicyID req) c sv)
            | (c, Panic) => (set_checker (sq_PolicyID req) c sv, Panic)
            | (c, Ok result) =>
              let sv1 := set_checker (sq_PolicyID req) c sv in
              if negb (ck_Compliant result) then
                match RecordViolation (e_fault e 1) (e_uuid e 1) (e_clk e 3) txID (sq_PolicyID req)
                        (ck_ViolatedClause result) path (ck_OffendingHops result) (sv_detector sv1) with
                | Ok (d, v) =>
                  (set_audit (mkEvent "settle" [("tx_id", JStr txID); ("policy_id", JStr (sq_PolicyID req));
                     ("compliant", JBool false); ("outcome", JStr "non_compliant"); ("violation_id", JStr (Violation.v_ID v))])
                     (set_detector d sv1),
                    Ok (RSettle 422 (mkSR None (Some (mkPR false None (Some v))) None false "")))
                | Err _ | Panic => (sv1, Panic)
                end
              else settle_compliant e req txID requestDigest path sv1
            end
          end
        end
      end
  end.

(** *** GET /api/verify-chain *)

(** A query parameter: absent, or the outcome of [ParseUint]. *)
Definition handleVerifyChain (f : fault) (from_seq to_seq : option (option Z)) (sv : srv) : srv * res unit response :=
  match from_seq, to_seq with
  | Some None, _ => (sv, Ok (RError 400 "INVALID_REQUEST"))
  | _, Some None => (sv, Ok (RError 400 "INVALID_REQUEST"))
  | _, _ =>
    let fromSeq := match from_seq with Some (Some n) => n | _ => 0 end in
    let toSeq := match to_seq with Some (Some n) => n | _ => 0 end in
    let useRange := bool_decide (is_Some from_seq) || bool_decide (is_Some to_seq) in
    if useRange && (toSeq <? fromSeq) then (sv, Ok (RError 400 "INVALID_REQUEST"))
    else if useRange && (1000 <? u64 (u64 (toSeq - fromSeq) + 1)) then (sv, Ok (RError 400 "INVALID_REQUEST"))
    else
      let a := if useRange then fromSeq else 1 in
      let b := if useRange then toSeq else 1000 in
      match store_ListRange f a b (sv_receipts sv) with
      | Err _ => (sv, Ok (RError 500 "INTERNAL_ERROR"))
      | Panic => (sv, Panic)
      | Ok rs => (sv, Ok (RChain (mkVC (Z.of_nat (length rs)) (PublicKey (sv_generator sv))
                                   (receiptPublicKeys rs (PublicKey (sv_generator sv))) rs)))
      end
  end.

(** *** POST /api/rotate-key *)
Definition handleRotateKey (e : env) (header : string) (seed : res string bytes) (stamp : string) (ff : fs_faults)
    (sv : srv) (files : gmap string bytes) : srv * gmap string bytes * res unit response :=
  if negb (isAdminRequest header sv) then (sv, files, Ok (RError 403 "FORBIDDEN"))
  else if bool_decide (sv_oracleKeyPath sv = "") then (sv, files, Ok (RError 503 "ROTATION_UNAVAILABLE"))
  else
    let oldPublicKey := PublicKey (sv_generator sv) in
    match store_Last (e_fault e 0) (sv_receipts sv) with
    | Err _ => (sv, files, Ok (RError 500 "INTERNAL_ERROR"))
    | Panic => (sv, files, Panic)
    | Ok last =>
      match RotateKeyFile seed stamp ff (sv_oracleKeyPath sv) (sv_generator sv) files with
      | (g, files', Err _) =>
        (set_audit (mkEvent "oracle_key_rotation" [("outcome", JStr "error"); ("code", JStr "KEY_ROTATION_FAILED");
           ("error", JStr (e_msg e 0))]) (set_issue g (sv_receipts sv) sv), files',
         Ok (RError 500 "INTERNAL_ERROR"))
      | (g, files', Panic) => (set_issue g (sv_receipts sv) sv, files', Panic)
      | (g, files', Ok archivePath) =>
        let count := match store_Count (e_fault e 1) (sv_receipts sv) with Ok n => n | _ => 0 end in
        (set_audit (mkEvent "oracle_key_rotation" [("outcome", JStr "rotated"); ("old_public_key", JStr (hex oldPublicKey));
           ("new_public_key", JStr (hex (PublicKey g))); ("archived_key_path", JStr archivePath);
           ("receipt_count", JNum count)]) (set_issue g (sv_receipts sv) sv), files',
         Ok (RRotated oldPublicKey (PublicKey g) archivePath count (r_SeqNo <$> last)))
      end
    end.

(** *** POST /api/filter-paths *)
Definition handleFilterPaths (e : env) (body : res string FilterPathsRequest) (sv : srv) : srv * res unit response :=
  match body with
  | Err _ => fail "filter" [("outcome", JStr "error"); ("code", JStr "INVALID_REQUEST"); ("error", JStr (e_msg e 0))]
               400 "INVALID_REQUEST" sv
  | Panic => (sv, Panic)
  | Ok req =>
    match sv_filters sv !! fq_PolicyID req with
    | None => fail "filter" [("outcome", JStr "error"); ("code", JStr "UNKNOWN_POLICY"); ("policy_id", JStr (fq_PolicyID req))]
                400 "UNKNOWN_POLICY" sv
    | Some flt =>
      let result := FilterPaths (pf_policy flt) (fq_Paths req) in
      (set_audit (mkEvent "filter" [("policy_id", JStr (fq_PolicyID req)); ("candidate", JNum (Z.of_nat (length (fq_Paths req))));
         ("compliant", JNum (Z.of_nat (length (f_Compliant result))));
         ("non_compliant", JNum (Z.of_nat (length (f_NonCompliant result))))]) sv,
       Ok (RFilter result))
    end
  end.

(** ** Invariant of the server *)
Context `{!StoreLaws S, !Ed25519Laws}.

(** The checkers serve the policies without replay detection, and the filters the
    same ones; the receipts [l] were appended to the store; the keys of the
    generator belong together; the engine is between rounds.  Nothing is asked of
    what the receipts contain: a database that garbles one on reading is covered. *)
Record server_ok (sv : srv) (l : list receipt) : Prop := {
  so_checkers : ∀ id c, sv_checkers sv !! id = Some c →
    c_replayDetector c = None ∧ c_policy c ∈ sv_policies sv ∧ pol_ID (c_policy c) = id;
  so_filters : pf_policy <$> sv_filters sv = c_policy <$> sv_checkers sv;
  so_rep : st_rep (sv_receipts sv) l;
  so_keys : keys_ok (sv_generator sv);
  so_detector : det_ok (sv_detector sv);
  so_engine : engine_ok (sv_validators sv) (sv_ledger sv)
}.

(** Changes of the server that the invariant does not see. *)
Lemma audit_ok ev sv l : server_ok (set_audit ev sv) l ↔ server_ok sv l.
Proof. split; intros []; by constructor. Qed.

Lemma persist_audit e ctx txID policyID err sv :
  let sv' := audit_if_persist_failed e ctx txID policyID err sv in
  sv' = sv ∨ ∃ ev, sv' = set_audit ev sv ∧ ev_Type ev = "receipt_persist_failure".
Proof. unfold audit_if_persist_failed. cbv zeta. destruct (negb _); [right|by left]. by eexists. Qed.

Lemma persist_audit_ok e ctx txID policyID err sv l :
  server_ok (audit_if_persist_failed e ctx txID policyID err sv) l ↔ server_ok sv l.
Proof. destruct (persist_audit e ctx txID policyID err sv) as [->|(ev & -> & _)]; [done|apply audit_ok]. Qed.

Lemma persist_audit_keeps e ctx txID policyID err sv :
  let sv' := audit_if_persist_failed e ctx txID policyID err sv in
  sv_ledger sv' = sv_ledger sv ∧ sv_receipts sv' = sv_receipts sv ∧ sv_extractor sv' = sv_extractor sv.
Proof. cbv zeta. by destruct (persist_audit e ctx txID policyID err sv) as [->|(ev & -> & _)]. Qed.

Lemma BuildSCIONPath_hops ext raw path : BuildSCIONPath ext raw = Ok path → path_Hops path ≠ [].
Proof.
  unfold BuildSCIONPath. intros Hb. inv_ok. case_bool_decide; [done|].
  destruct (match EvidenceMetadata ext with Some _ => _ | None => _ end) as [ec ps]. by inv_ok.
Qed.

(** A checker of the server and its verdict. *)
Lemma server_check sv l id c ext raw path t1 t2 t3 : server_ok sv l → sv_checkers sv !! id = Some c →
  BuildSCIONPath ext raw = Ok path →
  ∃ r, PathCheck.Check t1 t2 t3 path c = (c, Ok r) ∧ (ck_Compliant r = true ↔ compliant (c_policy c) path) ∧
    ck_OffendingHops r =
      (if decide (pol_Mode (c_policy c) = ModeStrict)
       then filter (λ h, hop_ISD h ∉ pol_AllowedISDs (c_policy c)) (path_Hops path) else path_Hops path).
Proof.
  intros Hok Hc Hb. destruct (so_checkers sv l Hok id c Hc) as (Hrd & _ & _).
  apply Check_decides; [done|]. by eapply BuildSCIONPath_hops.
Qed.

Lemma set_checker_id sv id c : sv_checkers sv !! id = Some c → set_checker id c sv = sv.
Proof. intros Hc. unfold set_checker. rewrite insert_id by done. by destruct sv. Qed.

(** Issuing through the server. *)
Lemma server_issue f id now txID policyID path sv l g s x : server_ok sv l →
  IssueAndAppend f id now txID policyID path (sv_generator sv) (sv_receipts sv) = (g, s, x) →
  keys_ok g ∧
  ((is_ok x = false ∧ s = sv_receipts sv ∧ g_seqNo g = g_seqNo (sv_generator sv) ∧ g_lastHash g = g_lastHash (sv_generator sv)) ∨
   ∃ r, x = Ok r ∧ st_rep s (l ++ [r]) ∧ Verify r = Ok true ∧ r_Path r = path ∧ r_TransactionID r = txID ∧
     r_PolicyID r = policyID ∧ r_ID r = id).
Proof.
  intros Hok Hi. destruct (default_proofs_keep (sv_generator sv)) as (K1 & K2 & K3 & K4 & _).
  assert (keys_ok (sv_generator sv)) as Hk by apply (so_keys sv l Hok).
  destruct (IssueAndAppend_cases f id now txID policyID path _ g _ s l x (so_rep sv l Hok) Hi)
    as [(-> & -> & Hx)|(r & h & -> & Hb & Hrep & _ & ->)].
  - split; [unfold keys_ok in *; by rewrite K1, K2|]. by left.
  - split; [unfold keys_ok in *; simpl; by rewrite K1, K2|]. right. exists r.
    pose proof (built_verifies _ _ _ _ _ _ _ _ Hk Hb). destruct Hb. by split_and!.
Qed.

(** Recording through the server. *)
Lemma server_record f id now txID policyID cl path off sv l : server_ok sv l →
  ∃ d, RecordViolation f id now txID policyID cl path off (sv_detector sv) =
         Ok (d, new_violation id now txID policyID cl path off) ∧ det_ok d ∧
       d_store d = (vs_Append f (new_violation id now txID policyID cl path off) (d_store (sv_detector sv))).1.
Proof.
  intros Hok. destruct (record_ok f id now txID policyID cl path off (sv_detector sv) (so_detector sv l Hok))
    as (d & v & Hr & Hd & -> & Hst & _). by exists d.
Qed.

(** ** Lemmas on the ledger side of a settlement *)
Lemma attach_confirmed vals l id rid tx : engine_ok vals l → GetTransaction id l = Some tx → tx_ReceiptID tx = "" →
  ∃ l', AttachReceipt id rid l = (l', Some (set_receipt rid tx), Ok tt) ∧ engine_ok vals l' ∧ abs l' = abs l ∧
    GetTransaction id l' = Some (set_receipt rid tx).
Proof.
  intros [Hlc Hsolv Hidle Hprop] Hg Hr. unfold GetTransaction, deref in Hg. rewrite Hidle in Hg.
  destruct (confirmed l !! id) as [p|] eqn:Hc; simpl in Hg; [|by rewrite lookup_empty in Hg].
  destruct (heap l !! p) as [t|] eqn:Hh; [|by rewrite lookup_empty in Hg]. simplify_eq.
  set (l' := upd_heap (<[p := set_receipt rid tx]>) l).
  assert (AttachReceipt id rid l = (l', Some (set_receipt rid tx), Ok tt)) as Ha
    by (unfold AttachReceipt; by rewrite Hc, Hh, Hr).
  exists l'. split_and!; [done| |done|].
  - assert (checked_step l l') as Hst by (exists (OpAttach id rid); split; [done|]; simpl; by rewrite Ha).
    constructor; try done. by apply (checked_lifecycle l); [apply rtc_once|].
  - unfold GetTransaction, deref, l'; simpl. rewrite Hc. simpl. by rewrite lookup_insert_eq.
Qed.

Lemma digest_nonempty req txID : canonicalSettleRequestDigest req txID ≠ "".
Proof.
  unfold canonicalSettleRequestDigest. generalize (render (JObj
    [("transaction_id", JStr txID); ("from", JStr (sq_From req)); ("to", JStr (sq_To req));
     ("amount", JNum (sq_Amount req)); ("currency", JStr (sq_Currency req)); ("policy_id", JStr (sq_PolicyID req));
     ("raw_path_sha256", JStr (hex (sha256 (default "" (sq_RawPath req)))))])). intros d Hd.
  pose proof (sha256_length d) as Hl. by destruct (sha256 d).
Qed.

(** A transaction that [settled_tx] finds without receipt is confirmed and has none. *)
Lemma settled_tx_missing f txID (sv : srv) tx : settled_tx f txID sv = Ok (inr tx) →
  GetTransaction txID (sv_ledger sv) = Some tx ∧ tx_Status tx = TxConfirmed ∧ tx_ReceiptID tx = "".
Proof.
  unfold settled_tx, loadLedgerReceipt. destruct (GetTransaction txID (sv_ledger sv)) as [t|]; [|done].
  case_bool_decide as Hst; simpl; [|done].
  destruct (bool_decide (tx_ReceiptID t = "")) eqn:Hrid; [apply bool_decide_eq_true in Hrid; simpl|]; last first.
  { destruct (store_GetByID _ _ _) as [[]| |]; simpl; congruence. }
  destruct (bool_decide _ && bool_decide _); [done|]. by intros [= <-].
Qed.

(** The receipt of a confirmed transaction that has none yet. *)
Lemma ensure_new e txID policyID raw opath path sv l tx : server_ok sv l →
  match opath with Some p => Ok p | None => BuildSCIONPath (sv_extractor sv) raw end = Ok path →
  GetTransaction txID (sv_ledger sv) = Some tx → tx_Status tx = TxConfirmed → tx_ReceiptID tx = "" →
  tx_RequestDigest tx ≠ "" → path_Fingerprint path = tx_PathFingerprint tx →
  let '(sv', x) := ensureSettlementReceipt e txID policyID raw opath sv in
  sv_extractor sv' = sv_extractor sv ∧ abs (sv_ledger sv') = abs (sv_ledger sv) ∧
  ((is_ok x = false ∧ (providers_ok (sv_generator sv) → x ≠ Panic) ∧ server_ok sv' l ∧
    GetTransaction txID (sv_ledger sv') = Some tx) ∨
   ∃ r, x = Ok r ∧ server_ok sv' (l ++ [r]) ∧ Verify r = Ok true ∧ r_Path r = path ∧ r_TransactionID r = txID ∧
     r_PolicyID r = policyID ∧ r_ID r = e_uuid e 2 ∧
     GetTransaction txID (sv_ledger sv') = Some (set_receipt (r_ID r) tx)).
Proof.
  intros Hok Hpath Hg Hst Hr Hd Hfp. unfold ensureSettlementReceipt.
  assert (∀ f, settled_tx f txID sv = Ok (inr tx)) as Hs.
  { intros f. unfold settled_tx, loadLedgerReceipt. rewrite Hg, Hst, Hr. simpl.
    by rewrite (bool_decide_false (tx_RequestDigest tx = "")). }
  rewrite !Hs, Hpath. unfold issue_for. rewrite Hfp, (bool_decide_true (tx_PathFingerprint tx = tx_PathFingerprint tx)), andb_false_r by done.
  pose proof (IssueAndAppend_no_panic (e_fault e 4) (e_uuid e 2) (e_clk e 4) txID policyID path (sv_generator sv)
    (sv_receipts sv) (so_keys sv l Hok)) as Hnp.
  destruct (IssueAndAppend _ _ _ _ _ _ _ _) as [[g s] x] eqn:Hi. cbn [snd] in Hnp.
  destruct (server_issue _ _ _ _ _ _ _ _ _ _ _ Hok Hi) as [Hk [(Hx & -> & _)|(r & -> & Hrep & Hv & Hp & Ht & Hpol & Hid)]].
  - assert (server_ok (set_issue g (sv_receipts sv) sv) l) as Hok' by (destruct Hok; by constructor).
    destruct x as [r|err|]; [done|..]; [|split_and!; try done; left; split_and!; [done|by intros ?%Hnp|done|done]].
    destruct (persist_audit_keeps e "settle" txID policyID err (set_issue g (sv_receipts sv) sv)) as (-> & _ & ->).
    split_and!; try done. left. rewrite persist_audit_ok. by split_and!.
  - destruct (attach_confirmed (sv_validators sv) (sv_ledger sv) txID (r_ID r) tx (so_engine sv l Hok) Hg Hr)
      as (l' & -> & Heng & Habs & Hg'). split_and!; [done|done|]. right. exists r. split_and!; try done.
    destruct Hok; by constructor.
Qed.

(** A confirmed transaction keeps the money where it is, whatever becomes of its
    receipt. *)
Lemma ensure_any e txID policyID raw path sv l sv' x : server_ok sv l →
  ensureSettlementReceipt e txID policyID raw path sv = (sv', x) →
  abs (sv_ledger sv') = abs (sv_ledger sv) ∧ ∃ ls, server_ok sv' (l ++ ls).
Proof.
  intros Hok. unfold ensureSettlementReceipt.
  assert (∀ y, (sv, y) = (sv', x) → abs (sv_ledger sv') = abs (sv_ledger sv) ∧ ∃ ls, server_ok sv' (l ++ ls)) as Hsame.
  { intros y [= <- _]. split; [done|]. exists []. by rewrite app_nil_r. }
  destruct (settled_tx (e_fault e 2) txID sv) as [[r|t0]|c|]; [apply Hsame| |apply Hsame..].
  destruct (settled_tx (e_fault e 3) txID sv) as [[r|tx]|c|] eqn:Hs; [apply Hsame| |apply Hsame..].
  destruct (match path with Some p => Ok p | None => _ end) as [p|c|]; [|apply Hsame..].
  apply settled_tx_missing in Hs as (Hg & _ & Hrid).
  unfold issue_for. destruct (negb _ && negb _); [apply Hsame|].
  destruct (IssueAndAppend _ _ _ _ _ _ _ _) as [[g s] y] eqn:Hi.
  destruct (server_issue _ _ _ _ _ _ _ _ _ _ _ Hok Hi) as [Hk [(Hy & -> & _)|(r & -> & Hrep & _)]].
  - assert (server_ok (set_issue g (sv_receipts sv) sv) (l ++ [])) as Hok1
      by (rewrite app_nil_r; destruct Hok; by constructor).
    destruct y as [r|err|]; [done|..]; intros [= <- _]; [|by split; [|exists []]].
    destruct (persist_audit_keeps e "settle" txID policyID err (set_issue g (sv_receipts sv) sv)) as (-> & _).
    split; [done|]. exists []. by rewrite persist_audit_ok.
  - destruct (attach_confirmed (sv_validators sv) (sv_ledger sv) txID (r_ID r) tx (so_engine sv l Hok) Hg Hrid)
      as (l' & -> & Heng & Habs & _). intros [= <- _]. split; [done|]. exists [r]. destruct Hok; by constructor.
Qed.

Lemma ledger_ok l2 sv l : server_ok sv l → engine_ok (sv_validators sv) l2 → server_ok (set_ledger l2 sv) l.
Proof. intros [] ?; by constructor. Qed.

Lemma existing_any e tx req dg path sv l sv' x : server_ok sv l →
  handleExistingSettlement e tx req dg path sv = (sv', x) →
  abs (sv_ledger sv') = abs (sv_ledger sv) ∧ ∃ ls, server_ok sv' (l ++ ls).
Proof.
  intros Hok. unfold handleExistingSettlement.
  assert (∀ ev y, (set_audit ev sv, y) = (sv', x) → abs (sv_ledger sv') = abs (sv_ledger sv) ∧ ∃ ls, server_ok sv' (l ++ ls)) as Hsame.
  { intros ev y [= <- _]. split; [done|]. exists []. by rewrite app_nil_r, audit_ok. }
  destruct (negb _); [apply Hsame|].
  destruct (validateLegacySettlementPath _ _ _ _) as [p|c|]; [|apply Hsame|].
  - case_bool_decide; [|case_bool_decide; apply Hsame].
    destruct (ensureSettlementReceipt _ _ _ _ _ _) as [sv1 y] eqn:He.
    destruct (ensure_any _ _ _ _ _ _ _ _ _ Hok He) as [Ha [ls Hok1]].
    destruct y; intros [= <- _]; (split; [done|]); exists ls; by rewrite ?audit_ok.
  - intros [= <- _]. split; [done|]. exists []. by rewrite app_nil_r.
Qed.

(** The identifier a request settles under. *)
Definition settle_id (e : env) (req : SettleRequest) : string :=
  if bool_decide (sq_TransactionID req = "") then e_uuid e 0 else sq_TransactionID req.

(** The guards of [handleSettle] on the request alone. *)
Definition settle_wf (req : SettleRequest) : Prop :=
  sq_From req ≠ "" ∧ sq_To req ≠ "" ∧ 0 < sq_Amount req ∧ sq_Currency req ≠ "" ∧ sq_PolicyID req ≠ "" ∧
  is_Some (sq_RawPath req).

Lemma settle_existing e req sv tx : settle_wf req → GetTransaction (settle_id e req) (sv_ledger sv) = Some tx →
  handleSettle e (Ok req) sv =
  handleExistingSettlement e tx req (canonicalSettleRequestDigest req (settle_id e req)) None sv.
Proof.
  intros (? & ? & ? & ? & ? & [raw Hraw]) Hg.
  unfold handleSettle. rewrite !bool_decide_false by (congruence || rewrite Hraw; done). simpl.
  rewrite (proj2 (Z.leb_gt _ _)) by lia. simpl. unfold settle_id in *. by rewrite Hg.
Qed.

#[export] Instance settle_wf_dec req : Decision (settle_wf req).
Proof. unfold settle_wf. apply _. Defined.

(** The path of a new request up to the consensus round. *)
Lemma settle_new e req sv l c path : server_ok sv l → settle_wf req →
  GetTransaction (settle_id e req) (sv_ledger sv) = None → sv_checkers sv !! sq_PolicyID req = Some c →
  BuildSCIONPath (sv_extractor sv) (default "" (sq_RawPath req)) = Ok path →
  if decide (compliant (c_policy c) path)
  then handleSettle e (Ok req) sv =
         settle_compliant e req (settle_id e req) (canonicalSettleRequestDigest req (settle_id e req)) path sv
  else ∃ sv' v, handleSettle e (Ok req) sv =
         (sv', Ok (RSettle 422 (mkSR None (Some (mkPR false None (Some v))) None false ""))) ∧
       server_ok sv' l ∧ sv_ledger sv' = sv_ledger sv ∧ sv_receipts sv' = sv_receipts sv ∧
       sv_generator sv' = sv_generator sv ∧ v_TransactionID v = settle_id e req ∧ v_Path v = path ∧
       d_store (sv_detector sv') = (vs_Append (e_fault e 1) v (d_store (sv_detector sv))).1.
Proof.
  intros Hok (? & ? & ? & ? & ? & [raw Hraw]) Hg Hc Hb. unfold handleSettle.
  rewrite !bool_decide_false by (congruence || rewrite Hraw; done). simpl.
  rewrite (proj2 (Z.leb_gt _ _)) by lia. simpl. fold (settle_id e req). rewrite Hg, Hc, Hb.
  destruct (server_check sv l _ _ _ _ _ (e_clk e 0) (e_clk e 1) (e_clk e 2) Hok Hc Hb) as (r & -> & Hiff & _).
  rewrite set_checker_id by done. destruct (ck_Compliant r) eqn:Hcr; simpl.
  - by rewrite decide_True by (by apply Hiff).
  - rewrite decide_False by (by intros ?%Hiff).
    destruct (server_record (e_fault e 1) (e_uuid e 1) (e_clk e 3) (settle_id e req) (sq_PolicyID req)
      (ck_ViolatedClause r) path (ck_OffendingHops r) sv l Hok) as (d & -> & Hd & Hst).
    eexists _, _. split; [reflexivity|]. split_and!; try done. apply audit_ok. destruct Hok; by constructor.
Qed.

(** The record the ledger keeps of a request settled at time [t] as number [n]. *)
Definition settled_record (e : env) (req : SettleRequest) (path : SCIONPath) (n : Z) : Transaction :=
  set_status TxConfirmed (set_submitted n (e_clk e 10)
    (settle_tx req (settle_id e req) (canonicalSettleRequestDigest req (settle_id e req)) path)).

(** The answer to a settlement with its receipt, and without it. *)
Definition settled_with (cr : ConsensusResult) (r : receipt) : response :=
  RSettle 200 (mkSR (Some cr) (Some (mkPR true (Some r) None)) (Some true) false "").
Definition settled_without (cr : ConsensusResult) (code : string) : response :=
  RSettle 500 (mkSR (Some cr) (Some (mkPR true None None)) (Some false) false code).

(** Building the transaction. *)
Lemma new_tx_built vals tx l l1 p : engine_ok vals l → new_tx tx l = (l1, p) →
  engine_ok vals l1 ∧ heap l1 !! p = Some tx ∧ seen l1 = seen l ∧ abs l1 = abs l.
Proof.
  intros Hok Hn. destruct (new_tx_engine_ok vals l tx Hok) as [Hok1 _]. rewrite Hn in Hok1. split; [done|].
  unfold new_tx in Hn. injection Hn as <- <-. split_and!; try done. apply lookup_insert_eq.
Qed.

(** A compliant request that the bank accepts. *)
Lemma settle_pays e req sv l path : server_ok sv l →
  let txID := settle_id e req in
  let tx := settle_tx req txID (canonicalSettleRequestDigest req txID) path in
  txID ∉ seen (sv_ledger sv) → bank_error tx (accounts (abs (sv_ledger sv))) = None →
  ∃ sv' x cr n, settle_compliant e req txID (canonicalSettleRequestDigest req txID) path sv = (sv', x) ∧
    cr_Confirmed cr = true ∧ cr_TxID cr = txID ∧ sv_extractor sv' = sv_extractor sv ∧
    abs (sv_ledger sv') = mkBank (pay tx (accounts (abs (sv_ledger sv)))) ({[txID]} ∪ seen (sv_ledger sv)) ∧
    ((∃ r, x = Ok (settled_with cr r) ∧ server_ok sv' (l ++ [r]) ∧ Verify r = Ok true ∧ r_Path r = path ∧
        r_TransactionID r = txID ∧ r_PolicyID r = sq_PolicyID req ∧ r_ID r = e_uuid e 2 ∧
        GetTransaction txID (sv_ledger sv') = Some (set_receipt (r_ID r) (settled_record e req path n))) ∨
     ((x = Panic ∧ (¬ providers_ok (sv_generator sv)) ∨ ∃ code, x = Ok (settled_without cr code)) ∧ server_ok sv' l ∧
        GetTransaction txID (sv_ledger sv') = Some (settled_record e req path n))).
Proof.
  intros Hok txID tx Hns He. unfold settle_compliant. fold tx.
  destruct (new_tx tx (sv_ledger sv)) as [l1 p] eqn:Hn.
  destruct (new_tx_built (sv_validators sv) tx _ l1 p (so_engine sv l Hok) Hn) as (Hok1 & Hp & Hs1 & Ha1).
  destruct (SubmitAndRunRound_settles (λ i, e_clk e (10 + i)%nat) (e_first e) (sv_validators sv) p l1 tx)
    as (l2 & n & -> & Heng & _ & Habs & _ & Hg); try done; [by rewrite Hs1|by rewrite Ha1|].
  set (cr := mkCR _ _ _ _). simpl. change (tx_ID tx) with txID in *.
  assert (server_ok (set_ledger l2 sv) l) as Hok2 by (by apply ledger_ok).
  pose proof (ensure_new e txID (sq_PolicyID req) (default "" (sq_RawPath req)) (Some path) path (set_ledger l2 sv) l _
    Hok2 eq_refl Hg
    eq_refl eq_refl (digest_nonempty req txID) eq_refl) as Hen.
  destruct (ensureSettlementReceipt _ _ _ _ _ _) as [sv1 y]. destruct Hen as (Hext & Ha & Hen). simpl in Ha, Hext.
  assert (abs (sv_ledger sv1) = mkBank (pay tx (accounts (abs (sv_ledger sv)))) ({[txID]} ∪ seen (sv_ledger sv))) as Hab
    by (by rewrite Ha, Habs, Ha1, Hs1).
  destruct Hen as [(Hy & Hnp & Hok' & Hg')|(r & -> & Hok' & ? & ? & ? & ? & ? & Hg')].
  - cbn [set_ledger sv_generator] in Hnp.
    destruct y as [?|code|]; [done|..]; eexists _, _, cr, n; (split; [reflexivity|]); split_and!; try done; right;
      split_and!; rewrite ?audit_ok; [by eauto..|left; split; [done|]; tauto|done|done].
  - eexists _, _, cr, n. split; [reflexivity|]. split_and!; try done. left. exists r. rewrite audit_ok. by split_and!.
Qed.

(** A compliant request the engine does not settle. *)
Lemma settle_declined e req sv l path : server_ok sv l →
  let txID := settle_id e req in
  let dg := canonicalSettleRequestDigest req txID in
  let tx := settle_tx req txID dg path in
  txID ∈ seen (sv_ledger sv) ∨ is_Some (bank_error tx (accounts (abs (sv_ledger sv)))) →
  ∃ l1, server_ok (set_ledger l1 sv) l ∧ abs l1 = abs (sv_ledger sv) ∧
    ((txID ∈ seen (sv_ledger sv) ∧
      ∃ t, settle_compliant e req txID dg path sv = handleExistingSettlement e t req dg (Some path) (set_ledger l1 sv)) ∨
     settle_compliant e req txID dg path sv = fail "settle" (submit_failed e txID) 400 "INVALID_REQUEST" (set_ledger l1 sv)).
Proof.
  intros Hok txID dg tx Hcase. unfold settle_compliant; fold tx. destruct (new_tx tx (sv_ledger sv)) as [l1 p] eqn:Hn.
  destruct (new_tx_built (sv_validators sv) tx _ l1 p (so_engine sv l Hok) Hn) as (Hok1 & Hp & Hs1 & Ha1).
  exists l1. split; [by apply ledger_ok|]. split; [done|].
  destruct (decide (txID ∈ seen (sv_ledger sv))) as [Hseen|Hns].
  - left. destruct (SubmitAndRunRound_duplicate (λ i, e_clk e (10 + i)%nat) (e_first e) (sv_validators sv) p l1 tx)
      as (t & -> & _); [done|by rewrite Hs1|]. split; [done|]. by exists t.
  - destruct Hcase as [|[be He]]; [done|]. right.
    by rewrite (SubmitAndRunRound_refused _ _ _ p l1 tx be) by (done || by rewrite ?Hs1, ?Ha1).
Qed.

(** The cases of [settle_declined] and [settle_pays] are complete. *)
Lemma settle_dichotomy (id : string) (ids : gset string) (err : option ledger_err) :
  (id ∈ ids ∨ is_Some err) ∨ ((id ∉ ids) ∧ err = None).
Proof. destruct (decide (id ∈ ids)), err; eauto. Qed.

(** A request that fails the guards changes nothing but the audit trail. *)
Lemma settle_malformed e req sv : ¬ settle_wf req → ∃ ev st code, handleSettle e (Ok req) sv = (set_audit ev sv, Ok (RError st code)).
Proof.
  intros Hwf. unfold handleSettle. destruct (_ || _) eqn:Hg; [unfold fail; eauto 6|].
  repeat (apply orb_false_iff in Hg as [Hg ?]). zbool.
  case_bool_decide; [unfold fail; eauto 6|]. destruct (bool_decide (sq_RawPath req = None)) eqn:Hr; [unfold fail; eauto 6|].
  apply bool_decide_eq_false in Hr. destruct Hwf. unfold settle_wf. split_and!; try done; try lia.
  by destruct (sq_RawPath req).
Qed.

(** So does one without a checker or a path. *)
Lemma settle_unchecked e req sv : settle_wf req → GetTransaction (settle_id e req) (sv_ledger sv) = None →
  sv_checkers sv !! sq_PolicyID req = None ∨ is_ok (BuildSCIONPath (sv_extractor sv) (default "" (sq_RawPath req))) = false →
  ∃ sv' y, handleSettle e (Ok req) sv = (sv', y) ∧ (sv' = sv ∨ ∃ ev, sv' = set_audit ev sv) ∧
    (y = Panic ∨ ∃ st code, y = Ok (RError st code)).
Proof.
  intros (? & ? & ? & ? & ? & [raw Hraw]) Hg Hc. unfold handleSettle.
  rewrite !bool_decide_false by (congruence || rewrite Hraw; done). simpl.
  rewrite (proj2 (Z.leb_gt _ _)) by lia. simpl. fold (settle_id e req). rewrite Hg. unfold fail.
  destruct (sv_checkers sv !! sq_PolicyID req) as [c|]; [|eauto 10]. destruct Hc as [|Hc]; [done|].
  destruct (BuildSCIONPath _ _); [done|eauto 10..].
Qed.

(** ** Properties *)

(** C21. The check endpoint issues a receipt exactly for compliant paths.  For a
    request with a known policy, a decodable path and an identifier that is not
    taken: on a compliant path the answer carries a receipt that verifies, is
    about this path, transaction and policy and was appended to the store, or
    the issuing failed and the chain is as before; on any other path the answer
    carries the recorded violation and no receipt is issued.  The ledger is not
    touched. *)
Theorem check_endpoint (e : env) (req : CheckRequest) (sv : srv) (l : list receipt) (c : Checker) (path : SCIONPath) :
  server_ok sv l → cq_TransactionID req ≠ "" → GetTransaction (cq_TransactionID req) (sv_ledger sv) = None →
  sv_checkers sv !! cq_PolicyID req = Some c → BuildSCIONPath (sv_extractor sv) (cq_RawPath req) = Ok path →
  let '(sv', x) := handleCheck e (Ok req) sv in
  sv_ledger sv' = sv_ledger sv ∧
  if decide (compliant (c_policy c) path) then
    (∃ r, x = Ok (RCheck (mkPR true (Some r) None)) ∧ server_ok sv' (l ++ [r]) ∧ Verify r = Ok true ∧
       r_Path r = path ∧ r_TransactionID r = cq_TransactionID req ∧ r_PolicyID r = cq_PolicyID req) ∨
    ((x = Panic ∨ x = Ok (RError 500 "INTERNAL_ERROR")) ∧ server_ok sv' l ∧ sv_receipts sv' = sv_receipts sv)
  else ∃ v, x = Ok (RCheck (mkPR false None (Some v))) ∧ server_ok sv' l ∧ sv_receipts sv' = sv_receipts sv ∧
    sv_generator sv' = sv_generator sv ∧ v_TransactionID v = cq_TransactionID req ∧ v_Path v = path ∧
    v_OffendingHops v =
      (if decide (pol_Mode (c_policy c) = ModeStrict)
       then filter (λ h, hop_ISD h ∉ pol_AllowedISDs (c_policy c)) (path_Hops path) else path_Hops path) ∧
    d_store (sv_detector sv') = (vs_Append (e_fault e 1) v (d_store (sv_detector sv))).1.
Proof.
  intros Hok Hid Hg Hc Hb. unfold handleCheck. rewrite (bool_decide_false (cq_TransactionID req = "")) by done.
  rewrite Hg, Hc, Hb. simpl.
  destruct (server_check sv l _ _ _ _ _ (e_clk e 0) (e_clk e 1) (e_clk e 2) Hok Hc Hb) as (r & -> & Hiff & Hoff).
  rewrite set_checker_id by done. unfold check_outcome.
  destruct (decide (compliant (c_policy c) path)) as [Hcomp|Hcomp]; rewrite <-Hiff in Hcomp.
  - rewrite Hcomp. destruct (IssueAndAppend _ _ _ _ _ _ _ _) as [[g s] y] eqn:Hi.
    destruct (server_issue _ _ _ _ _ _ _ _ _ _ _ Hok Hi) as [Hk [(Hy & -> & _)|(rc & -> & Hrep & Hv & Hp & Ht & Hpol & _)]].
    + assert (server_ok (set_issue g (sv_receipts sv) sv) l) as Hok' by (destruct Hok; by constructor).
      destruct y as [?|err|]; [done|..]; [|by split; [done|right; auto]].
      destruct (persist_audit_keeps e "check" (cq_TransactionID req) (cq_PolicyID req) err (set_issue g (sv_receipts sv) sv))
        as (Hl & Hr & _). cbn. rewrite Hl, Hr, audit_ok, persist_audit_ok. auto.
    + split; [done|]. left. exists rc. rewrite audit_ok. split_and!; try done. destruct Hok; by constructor.
  - apply not_true_is_false in Hcomp. rewrite Hcomp.
    destruct (server_record (e_fault e 1) (e_uuid e 1) (e_clk e 3) (cq_TransactionID req) (cq_PolicyID req)
      (ck_ViolatedClause r) path (ck_OffendingHops r) sv l Hok) as (d & -> & Hd & Hst).
    split; [done|]. eexists. split; [reflexivity|]. rewrite audit_ok. split_and!; try done. destruct Hok; by constructor.
Qed.

(** What any settlement request does to the bank: nothing, or one payment under
    a fresh identifier, along a compliant path. *)
Lemma settle_any e req sv sv' l x : server_ok sv l → handleSettle e (Ok req) sv = (sv', x) →
  (∃ ls, server_ok sv' (l ++ ls)) ∧
  (abs (sv_ledger sv') = abs (sv_ledger sv) ∨
   ∃ c path, sv_checkers sv !! sq_PolicyID req = Some c ∧ pol_ID (c_policy c) = sq_PolicyID req ∧
     BuildSCIONPath (sv_extractor sv) (default "" (sq_RawPath req)) = Ok path ∧ compliant (c_policy c) path ∧
     let tx := settle_tx req (settle_id e req) (canonicalSettleRequestDigest req (settle_id e req)) path in
     (settle_id e req ∉ seen (sv_ledger sv)) ∧ bank_error tx (accounts (abs (sv_ledger sv))) = None ∧
     abs (sv_ledger sv') = mkBank (pay tx (accounts (abs (sv_ledger sv)))) ({[settle_id e req]} ∪ seen (sv_ledger sv))).
Proof.
  intros Hok Hs.
  assert (∀ sv1 y, (sv1, y) = (sv', x) → (sv1 = sv ∨ ∃ ev, sv1 = set_audit ev sv) →
    (∃ ls, server_ok sv' (l ++ ls)) ∧ abs (sv_ledger sv') = abs (sv_ledger sv)) as Hsame.
  { intros sv1 y [= <- _] [->|[ev ->]]; (split; [|done]); exists []; by rewrite app_nil_r, ?audit_ok. }
  destruct (decide (settle_wf req)) as [Hwf|Hwf].
  2:{ destruct (settle_malformed e req sv Hwf) as (ev & ? & ? & Hm). rewrite Hm in Hs. apply Hsame in Hs as []; eauto. }
  destruct (GetTransaction (settle_id e req) (sv_ledger sv)) as [tx|] eqn:Hg.
  { rewrite (settle_existing e req sv tx) in Hs by done. destruct (existing_any _ _ _ _ _ _ _ _ _ Hok Hs). auto. }
  destruct (sv_checkers sv !! sq_PolicyID req) as [c|] eqn:Hc;
    [destruct (BuildSCIONPath (sv_extractor sv) (default "" (sq_RawPath req))) as [path|err|] eqn:Hb|].
  2-4: destruct (settle_unchecked e req sv Hwf Hg) as (sv1 & y & Hu & Hsv & _); [rewrite ?Hc, ?Hb; auto|];
    rewrite Hu in Hs; apply Hsame in Hs as []; auto.
  pose proof (settle_new e req sv l c path Hok Hwf Hg Hc Hb) as Hn. case_decide as Hcomp.
  - rewrite Hn in Hs. destruct (so_checkers sv l Hok _ c Hc) as (_ & _ & Hpid).
    set (tx := settle_tx req (settle_id e req) (canonicalSettleRequestDigest req (settle_id e req)) path).
    destruct (settle_dichotomy (settle_id e req) (seen (sv_ledger sv)) (bank_error tx (accounts (abs (sv_ledger sv)))))
      as [Hd|[Hns He]].
    + destruct (settle_declined e req sv l path Hok Hd) as (l1 & Hok1 & Ha1 & [[_ [t Heq]]|Heq]); rewrite Heq in Hs.
      * destruct (existing_any _ _ _ _ _ _ _ _ _ Hok1 Hs) as [Ha Hls]. split; [done|]. left. by rewrite Ha.
      * injection Hs as <- _. split; [|by left]. exists []. by rewrite app_nil_r, audit_ok.
    + destruct (settle_pays e req sv l path Hok Hns He) as (sv2 & y & cr & n & Heq & _ & _ & _ & Hab & Hcs).
      rewrite Heq in Hs. simplify_eq. split; [|right; exists c, path; by split_and!].
      destruct Hcs as [(r & _ & Hok' & _)|(_ & Hok' & _)]; [by exists [r]|exists []; by rewrite app_nil_r].
  - destruct Hn as (sv1 & v & Hn & Hok1 & Hl & _). rewrite Hn in Hs. simplify_eq. rewrite Hl.
    split; [|by left]. exists []. by rewrite app_nil_r.
Qed.

(** C6. Money moves only along compliant paths.  Whatever the request, a
    settlement keeps the invariant of the server, never loses a receipt, and
    either leaves every account as it was or moves exactly the requested amount
    for a transaction whose path complies with the policy the request names. *)
Theorem settle_only_on_compliant_paths (e : env) (req : SettleRequest) (sv sv' : srv) (l : list receipt)
    (x : res unit response) :
  server_ok sv l → handleSettle e (Ok req) sv = (sv', x) →
  (∃ ls, server_ok sv' (l ++ ls)) ∧
  (abs (sv_ledger sv') = abs (sv_ledger sv) ∨
   ∃ c path, sv_checkers sv !! sq_PolicyID req = Some c ∧ pol_ID (c_policy c) = sq_PolicyID req ∧
     BuildSCIONPath (sv_extractor sv) (default "" (sq_RawPath req)) = Ok path ∧ compliant (c_policy c) path ∧
     accounts (abs (sv_ledger sv')) =
       pay (settle_tx req (settle_id e req) (canonicalSettleRequestDigest req (settle_id e req)) path)
         (accounts (abs (sv_ledger sv)))).
Proof.
  intros Hok Hs. destruct (settle_any e req sv sv' l x Hok Hs) as [Hls [?|(c & path & ? & ? & ? & ? & _ & _ & Hab)]]; [auto|].
  split; [done|]. right. exists c, path. by rewrite Hab.
Qed.

(** Only a first attempt answers without the idempotency mark. *)
Lemma existing_idempotent e tx req dg path sv sv' st sr :
  handleExistingSettlement e tx req dg path sv = (sv', Ok (RSettle st sr)) → sr_Idempotent sr = true.
Proof.
  unfold handleExistingSettlement, fail, writeSettlementReceiptFailure. destruct (negb _); [done|].
  destruct (validateLegacySettlementPath _ _ _ _); [|done..].
  case_bool_decide; [|by case_bool_decide].
  destruct (ensureSettlementReceipt _ _ _ _ _ _) as [sv1 []]; intros; by simplify_eq.
Qed.

(** What a first attempt that reports on a receipt leaves behind. *)
Lemma first_attempt e req sv l sv1 st sr : server_ok sv l →
  handleSettle e (Ok req) sv = (sv1, Ok (RSettle st sr)) → sr_Idempotent sr = false → is_Some (sr_ReceiptPersisted sr) →
  settle_wf req ∧ sv_extractor sv1 = sv_extractor sv ∧
  ∃ path cr n, BuildSCIONPath (sv_extractor sv) (default "" (sq_RawPath req)) = Ok path ∧
    ((∃ r, RSettle st sr = settled_with cr r ∧ server_ok sv1 (l ++ [r]) ∧ r_ID r = e_uuid e 2 ∧
        GetTransaction (settle_id e req) (sv_ledger sv1) = Some (set_receipt (r_ID r) (settled_record e req path n))) ∨
     (∃ code, RSettle st sr = settled_without cr code ∧ server_ok sv1 l ∧
        GetTransaction (settle_id e req) (sv_ledger sv1) = Some (settled_record e req path n))).
Proof.
  intros Hok Hs Hidem [b Hrp].
  destruct (decide (settle_wf req)) as [Hwf|Hwf].
  2:{ destruct (settle_malformed e req sv Hwf) as (? & ? & ? & Hm). rewrite Hm in Hs. done. }
  split; [done|]. destruct (GetTransaction (settle_id e req) (sv_ledger sv)) as [tx|] eqn:Hg.
  { rewrite (settle_existing e req sv tx) in Hs by done. apply existing_idempotent in Hs. congruence. }
  destruct (sv_checkers sv !! sq_PolicyID req) as [c|] eqn:Hc;
    [destruct (BuildSCIONPath (sv_extractor sv) (default "" (sq_RawPath req))) as [path|err|] eqn:Hb|].
  2-4: destruct (settle_unchecked e req sv Hwf Hg) as (? & y & Hu & _ & Hy); [rewrite ?Hc, ?Hb; auto|];
    rewrite Hu in Hs; destruct Hy as [->|(? & ? & ->)]; by simplify_eq.
  pose proof (settle_new e req sv l c path Hok Hwf Hg Hc Hb) as Hn. case_decide; last first.
  { destruct Hn as (? & ? & Hn & _). rewrite Hn in Hs. by simplify_eq. }
  rewrite Hn in Hs.
  destruct (settle_dichotomy (settle_id e req) (seen (sv_ledger sv)) (bank_error
    (settle_tx req (settle_id e req) (canonicalSettleRequestDigest req (settle_id e req)) path)
    (accounts (abs (sv_ledger sv))))) as [Hd|[Hns He]].
  { destruct (settle_declined e req sv l path Hok Hd) as (l1 & _ & _ & [[_ [t Heq]]|Heq]); rewrite Heq in Hs; [|done].
    apply existing_idempotent in Hs. congruence. }
  destruct (settle_pays e req sv l path Hok Hns He) as (sv2 & y & cr & n & Heq & _ & _ & Hext & _ & Hcs).
  rewrite Heq in Hs. simplify_eq. split; [done|]. exists path, cr, n. split; [done|].
  destruct Hcs as [(r & Hy & ? & _ & _ & _ & _ & ? & ?)|([[Hy _]|[code Hy]] & ? & ?)]; simplify_eq; [left|right]; eauto 6.
Qed.

(** The answer to a retry of a settled request. *)
Definition retried_with (txID : string) (r : receipt) : response :=
  RSettle 200 (mkSR (Some (confirmedConsensus txID)) (Some (mkPR true (Some r) None)) (Some true) true "").

(** A retry of a confirmed request asks for its receipt. *)
Lemma retry_existing e e' req path n rid sv : settle_wf req → sq_TransactionID req ≠ "" →
  let txID := sq_TransactionID req in
  GetTransaction txID (sv_ledger sv) = Some (set_receipt rid (settled_record e req path n)) →
  handleSettle e' (Ok req) sv =
  match ensureSettlementReceipt e' txID (sq_PolicyID req) (default "" (sq_RawPath req)) None sv with
  | (sv', Err code) => (set_audit (existing_failed e' txID code) sv',
      Ok (writeSettlementReceiptFailure txID (Some (confirmedConsensus txID)) code true))
  | (sv', Panic) => (sv', Panic)
  | (sv', Ok r) => (set_audit (existing_settled txID) sv', Ok (retried_with txID r))
  end.
Proof.
  intros Hwf Hid txID Hg.
  assert (∀ e1, settle_id e1 req = txID) as Htx by (intros; unfold settle_id; by rewrite bool_decide_false).
  rewrite (settle_existing e' req sv _ Hwf) by (rewrite Htx; exact Hg).
  set (tx := set_receipt rid (settled_record e req path n)).
  assert (tx_ID tx = txID) as H1 by apply Htx.
  assert (tx_RequestDigest tx = canonicalSettleRequestDigest req txID) as H2 by (unfold tx; cbn; by rewrite Htx).
  assert (tx_Status tx = TxConfirmed ∧ tx_PolicyID tx = sq_PolicyID req) as [H3 H4] by done.
  pose proof (digest_nonempty req txID) as Hd. destruct Hwf as (_ & _ & _ & _ & Hpol & _).
  unfold handleExistingSettlement, settleRequestMatchesTransaction, validateLegacySettlementPath, receiptPolicyID.
  rewrite Htx, H1, H2, H3, H4. generalize dependent (canonicalSettleRequestDigest req txID). intros dg _ Hdg.
  rewrite (bool_decide_false (dg = "")), (bool_decide_true (dg = dg)), (bool_decide_false (sq_PolicyID req = "")) by done.
  done.
Qed.

(** C19. Settlement is idempotent for a client-supplied transaction identifier.
    When the request names its [transaction_id] and a first attempt was answered
    with its receipt, one that survives the encoding of the store, a retry of the
    same request under any clock and any fresh identifiers, that meets no database
    fault, answers with the same receipt and changes nothing but the audit trail:
    no second payment and no second receipt.  (A request without [transaction_id]
    gets a new identifier on every attempt and is outside this property.) *)
Theorem settle_retry_idempotent (e e' : env) (req : SettleRequest) (sv sv1 : srv) (l : list receipt)
    (cr : ConsensusResult) (r : receipt) :
  server_ok sv l → sq_TransactionID req ≠ "" → e_uuid e 2 ≠ "" → (∀ i, e_fault e' i = NoFault) → st_readable r →
  handleSettle e (Ok req) sv = (sv1, Ok (settled_with cr r)) →
  handleSettle e' (Ok req) sv1 =
    (set_audit (existing_settled (sq_TransactionID req)) sv1, Ok (retried_with (sq_TransactionID req) r)).
Proof.
  intros Hok Hid Huuid Hf Hread Hs.
  destruct (first_attempt e req sv l sv1 _ _ Hok Hs eq_refl ltac:(eauto)) as (Hwf & _ & path & cr' & n & _ & Hcs).
  destruct Hcs as [(r' & Hr & Hok1 & Hrid & Hg)|(code & Hr & _)]; [|done]. injection Hr as _ <-.
  assert (settle_id e req = sq_TransactionID req) as Htx by (unfold settle_id; by rewrite bool_decide_false).
  rewrite Htx in Hg. rewrite (retry_existing e e' req path n (r_ID r) sv1) by done.
  assert (∀ i, settled_tx (e_fault e' i) (sq_TransactionID req) sv1 = Ok (inl r)) as Hst.
  { intros i. unfold settled_tx, loadLedgerReceipt. rewrite Hg, Hf.
    set (tx := set_receipt (r_ID r) (settled_record e req path n)).
    assert (tx_Status tx = TxConfirmed ∧ tx_ReceiptID tx = r_ID r) as [-> ->] by done.
    rewrite Hrid, (bool_decide_true (TxConfirmed = TxConfirmed)), (bool_decide_false (e_uuid e 2 = "")), <-Hrid by done. cbn [negb].
    assert (last_match (λ x, r_ID x = r_ID r) (l ++ [r]) = Some r) as Hlm by (by rewrite last_match_app, decide_True).
    rewrite (st_get_id _ (l ++ [r])), Hlm; [done|apply (so_rep sv1 _ Hok1)|]. intros x Hx. rewrite Hlm in Hx. by simplify_eq. }
  unfold ensureSettlementReceipt. by rewrite Hst.
Qed.

(** C20. A retry repairs a settlement without receipt, for a client-supplied
    transaction identifier.  When the request names its [transaction_id] and a
    first attempt moved the money but could not persist the receipt, a retry of
    the same request, with any faults, does not pay again; it either issues the
    missing receipt, for the path of the request, and attaches it to the confirmed
    transaction, or answers that the receipt is still missing and leaves receipts
    and transaction as they were, to be retried again.  The proof provider and
    the threshold signer are assumed not to panic.  (A retry without
    [transaction_id] is a new settlement.) *)
Theorem settle_retry_repairs (e e' : env) (req : SettleRequest) (sv sv1 : srv) (l : list receipt)
    (cr : ConsensusResult) (code : string) :
  server_ok sv l → sq_TransactionID req ≠ "" →
  handleSettle e (Ok req) sv = (sv1, Ok (settled_without cr code)) → providers_ok (sv_generator sv1) →
  let txID := sq_TransactionID req in
  let '(sv2, x) := handleSettle e' (Ok req) sv1 in
  abs (sv_ledger sv2) = abs (sv_ledger sv1) ∧
  ((∃ r tx, x = Ok (retried_with txID r) ∧ server_ok sv2 (l ++ [r]) ∧ Verify r = Ok true ∧
      BuildSCIONPath (sv_extractor sv) (default "" (sq_RawPath req)) = Ok (r_Path r) ∧
      r_TransactionID r = txID ∧ r_PolicyID r = sq_PolicyID req ∧
      GetTransaction txID (sv_ledger sv2) = Some tx ∧ tx_Status tx = TxConfirmed ∧ tx_ReceiptID tx = r_ID r) ∨
   (∃ code', x = Ok (writeSettlementReceiptFailure txID None code' true) ∧ server_ok sv2 l ∧
      GetTransaction txID (sv_ledger sv2) = GetTransaction txID (sv_ledger sv1))).
Proof.
  intros Hok Hid Hs Hprov txID.
  destruct (first_attempt e req sv l sv1 _ _ Hok Hs eq_refl ltac:(eauto)) as (Hwf & Hext & path & cr' & n & Hb & Hcs).
  destruct Hcs as [(r' & Hr & _)|(code' & _ & Hok1 & Hg)]; [done|].
  assert (settle_id e req = txID) as Htx by (unfold settle_id; by rewrite bool_decide_false).
  rewrite Htx in Hg. rewrite (retry_existing e e' req path n "" sv1) by done. rewrite <-Hext in Hb.
  pose proof (ensure_new e' txID (sq_PolicyID req) (default "" (sq_RawPath req)) None path sv1 l _ Hok1 Hb Hg
    eq_refl eq_refl (digest_nonempty req _) eq_refl) as Hen. fold txID.
  destruct (ensureSettlementReceipt _ _ _ _ _ _) as [sv2 y]. destruct Hen as (_ & Ha & Hen).
  destruct Hen as [(Hy & Hnp & Hok2 & Hg')|(r & -> & Hok2 & Hv & Hp & Ht & Hpol & _ & Hg')].
  - destruct y as [?|code2|]; [done| |by destruct (Hnp Hprov)]. split; [exact Ha|]. right. exists code2.
    rewrite audit_ok, Hg. by split_and!.
  - split; [exact Ha|]. left. eexists r, _. rewrite audit_ok, <-Hext, Hp. by split_and!.
Qed.

(** C7. What a new settlement request comes to.  For a well-formed request
    with a known policy, a decodable path and a fresh identifier: a path that
    does not comply is answered 422 with the recorded violation, and ledger,
    receipts and generator are untouched; a compliant one that the bank refuses
    is answered 400 with the accounts untouched; a compliant one that the bank
    accepts is paid, confirmed, and answered with a verified, stored receipt
    whose identifier the confirmed transaction carries, or with a 500 that says
    the settlement is confirmed and its receipt missing.  No handler panics after
    the payment, provided the proof provider and the threshold signer of the
    generator, which are interfaces, do not. *)
Theorem settle_outcome (e : env) (req : SettleRequest) (sv : srv) (l : list receipt) (c : Checker) (path : SCIONPath) :
  server_ok sv l → providers_ok (sv_generator sv) → settle_wf req →
  GetTransaction (settle_id e req) (sv_ledger sv) = None →
  settle_id e req ∉ seen (sv_ledger sv) → sv_checkers sv !! sq_PolicyID req = Some c →
  BuildSCIONPath (sv_extractor sv) (default "" (sq_RawPath req)) = Ok path →
  let txID := settle_id e req in
  let tx := settle_tx req txID (canonicalSettleRequestDigest req txID) path in
  let '(sv', x) := handleSettle e (Ok req) sv in
  if decide (compliant (c_policy c) path) then
    match bank_error tx (accounts (abs (sv_ledger sv))) with
    | Some _ => x = Ok (RError 400 "INVALID_REQUEST") ∧ server_ok sv' l ∧ abs (sv_ledger sv') = abs (sv_ledger sv)
    | None =>
      accounts (abs (sv_ledger sv')) = pay tx (accounts (abs (sv_ledger sv))) ∧
      ∃ cr t, cr_Confirmed cr = true ∧ GetTransaction txID (sv_ledger sv') = Some t ∧ tx_Status t = TxConfirmed ∧
        ((∃ r, x = Ok (settled_with cr r) ∧ server_ok sv' (l ++ [r]) ∧ Verify r = Ok true ∧ r_Path r = path ∧
            r_TransactionID r = txID ∧ r_PolicyID r = sq_PolicyID req ∧ tx_ReceiptID t = r_ID r) ∨
         (∃ code, x = Ok (settled_without cr code) ∧ server_ok sv' l ∧ tx_ReceiptID t = ""))
    end
  else ∃ v, x = Ok (RSettle 422 (mkSR None (Some (mkPR false None (Some v))) None false "")) ∧ server_ok sv' l ∧
    sv_ledger sv' = sv_ledger sv ∧ sv_receipts sv' = sv_receipts sv ∧ sv_generator sv' = sv_generator sv ∧
    v_TransactionID v = txID ∧ v_Path v = path ∧
    d_store (sv_detector sv') = (vs_Append (e_fault e 1) v (d_store (sv_detector sv))).1.
Proof.
  intros Hok Hprov Hwf Hg Hns Hc Hb txID tx. pose proof (settle_new e req sv l c path Hok Hwf Hg Hc Hb) as Hn.
  destruct (decide (compliant (c_policy c) path)).
  - rewrite Hn. destruct (bank_error tx (accounts (abs (sv_ledger sv)))) as [be|] eqn:He.
    + destruct (settle_declined e req sv l path Hok) as (l1 & Hok1 & Ha1 & [[? _]| ->]); [right; exists be; exact He|done|].
      split_and!; [done|by apply audit_ok|done].
    + destruct (settle_pays e req sv l path Hok Hns He) as (sv' & x & cr & n & -> & Hcr & _ & _ & -> & Hcs).
      split; [done|]. exists cr.
      destruct Hcs as [(r & ? & ? & ? & ? & ? & ? & ? & Ht)|([[_ Hnp]|[code ?]] & ? & Ht)]; [|by destruct Hnp|];
        eexists; (split; [done|]); (split; [exact Ht|]); (split; [done|]); [left; exists r|right; exists code]; by split_and!.
  - destruct Hn as (sv' & v & -> & Hn). by exists v.
Qed.

(** Distinct sequence numbers in a range. *)
Lemma range_length (l : list receipt) a b : NoDup (r_SeqNo <$> l) →
  (length (filter (λ r, (a ≤ r_SeqNo r ≤ b)%Z) l) ≤ Z.to_nat (b - a + 1))%nat.
Proof.
  intros Hnd. set (rs := filter _ l). rewrite <-(length_fmap r_SeqNo), <-(length_seqZ a (b - a + 1)).
  apply submseteq_length, NoDup_submseteq.
  - eapply sublist_NoDup; [exact Hnd|]. apply fmap_sublist, sublist_filter.
  - intros z Hz. apply list_elem_of_fmap in Hz as (r & -> & Hr). apply list_elem_of_filter in Hr as [Hr _].
    apply elem_of_seqZ. lia.
Qed.


(** C40. The range of the chain endpoint.  For every pair of 64-bit bounds over
    receipts that survive the encoding of the store: a reversed range is refused;
    a range of at most 1000 numbers is answered with exactly the stored receipts
    of the range, at most 1000 of them; a larger one is refused, with one
    exception: for the bounds 0 and 2^64-1 the size wraps around to 0, passes the
    guard, and the whole store is answered, however many receipts it holds. *)
Theorem verify_chain_range (sv : srv) (l : list receipt) (a b : Z) :
  server_ok sv l → increasing l → (∀ r, r ∈ l → is_u64 (r_SeqNo r) ∧ st_readable r) → is_u64 a → is_u64 b →
  let '(sv', x) := handleVerifyChain NoFault (Some (Some a)) (Some (Some b)) sv in
  let rs := filter (λ r, a ≤ r_SeqNo r ≤ b) l in
  let answered l := x = Ok (RChain (mkVC (Z.of_nat (length l)) (PublicKey (sv_generator sv))
    (receiptPublicKeys l (PublicKey (sv_generator sv))) l)) in
  sv' = sv ∧
  (b < a → x = Ok (RError 400 "INVALID_REQUEST")) ∧
  (a ≤ b → b - a < 1000 → answered rs ∧ (length rs ≤ 1000)%nat) ∧
  (1000 ≤ b - a → a ≠ 0 ∨ b ≠ 2 ^ 64 - 1 → x = Ok (RError 400 "INVALID_REQUEST")) ∧
  (a = 0 → b = 2 ^ 64 - 1 → answered l).
Proof.
  intros Hok Hinc Hall Ha Hb. pose proof (so_rep sv l Hok) as Hrep. unfold handleVerifyChain.
  rewrite (bool_decide_true (is_Some (Some (Some a)))) by done. simpl.
  destruct (b <? a) eqn:Hlt; zbool; [split_and!; try done; unfold is_u64 in *; lia|].
  assert (u64 (b - a) = b - a) as -> by (apply u64_id; unfold is_u64 in *; lia).
  assert (∀ r, r ∈ l → a ≤ r_SeqNo r ≤ b → st_readable r) as Hread by (intros r Hr _; by apply Hall).
  destruct (decide (a = 0 ∧ b = 2 ^ 64 - 1)) as [[-> ->]|Hne].
  - cbn -[Z.pow]. rewrite (st_range _ l) by done. split; [done|]. split_and!; [lia|lia|by intros _ [?|?]|]. intros _ _.
    rewrite (filter_all _ l); [done|]. apply Forall_forall. intros r Hr. destruct (Hall r Hr) as [Hu _]. unfold is_u64 in Hu. lia.
  - rewrite (u64_id (b - a + 1)) by (unfold is_u64 in *; lia). destruct (1000 <? b - a + 1) eqn:Hsz; zbool.
    + split_and!; try done; lia.
    + rewrite (st_range _ l) by done. split; [done|]. split_and!; [lia| |lia|tauto]. intros _ _. split; [done|].
      etrans; [apply range_length, (st_nodup _ _ Hrep)|lia].
Qed.
End Handlers.

(** Cutting a string in two. *)
Lemma substring_all s : String.substring 0 (String.length s) s = s.
Proof. induction s as [|ch s IH]; simpl; [done|by rewrite IH]. Qed.

Lemma substring_split n : ∀ s, (n ≤ String.length s)%nat →
  s = String.substring 0 n s +:+ String.substring n (String.length s - n) s.
Proof.
  induction n as [|n IH]; intros s Hn.
  - rewrite Nat.sub_0_r, substring_all. by destruct s.
  - destruct s as [|ch s]; simpl in *; [lia|].
    change (String ch s = String ch (String.substring 0 n s +:+ String.substring n (String.length s - n) s)).
    rewrite <-IH by lia. done.
Qed.

Lemma substring_short n : ∀ s, (String.length (String.substring 0 n s) ≤ String.length s)%nat.
Proof. induction n as [|n IH]; intros [|ch s]; simpl; try lia. specialize (IH s). lia. Qed.

Lemma bearer_token_Some header t : bearer_token header = Some t ↔ header = "Bearer " +:+ t.
Proof.
  unfold bearer_token. split.
  - case_bool_decide as Hp; [|done]. intros [= <-].
    rewrite <-Hp at 1. apply substring_split.
    pose proof (substring_short (String.length "Bearer ") header) as Hl. by rewrite Hp in Hl.
  - intros ->. rewrite (bool_decide_true _) by apply Toy.substring_app_left. f_equal. apply substring_drop.
    rewrite Toy.length_app_string. lia.
Qed.

(** Bearer authentication is exact.  With a token configured, a request to
    the API reaches the router only if its header is the bearer scheme followed
    by the token; other paths, and every path when no token is configured, are
    open. *)
Lemma authorized_iff (token path header : string) :
  authorized token path header = true ↔
  token = "" ∨ (path ≠ "/api" ∧ has_prefix path "/api/" = false) ∨ header = "Bearer " +:+ token.
Proof.
  unfold authorized. destruct (decide (token = "")) as [->|Ht]; [naive_solver|].
  rewrite (bool_decide_false (token = "")) by done.
  destruct (decide (path = "/api")) as [->|Hp]; [|destruct (has_prefix path "/api/") eqn:Hpre];
    rewrite ?(bool_decide_false (path = "/api")) by done; simpl; [| |naive_solver].
  all: rewrite <-(bearer_token_Some header token); destruct (bearer_token header) as [t|]; [|naive_solver].
  all: rewrite andb_true_iff, bool_decide_eq_true, Z.eqb_eq; naive_solver.
Qed.

(** ** Witnesses *)
Module DemoApi.
Import Toy DemoReceipt.

Definition ext : PathExtractor :=
  MockPathExtractor (λ raw, if bool_decide (raw = "ch") then Ok [hop_ch]
                            else if bool_decide (raw = "mixed") then Ok [hop_ch; hop_eu] else Err "syntax").
Definition server0 : Server MemoryStore MemoryViolationStore :=
  NewServer [swiss_policy] gen1 ext (NewLedger demo_validators) demo_validators NewMemoryStore
    (NewDetector NewMemoryViolationStore) [WithBearerToken "tok"; WithAdminToken "adm"; WithOracleKeyPath "/keys/oracle.key"].
Definition env_of (f : fault) : env := mkEnv (λ i, "uuid-" +:+ pretty i) (λ _, t0) (λ _, f) "" (λ i, "error " +:+ pretty i).
Definition path_of (raw : bytes) : SCIONPath :=
  match BuildSCIONPath ext raw with Ok p => p | _ => path1 end.
Definition settle_req (amount : Z) (raw : bytes) : SettleRequest :=
  mkSettleReq "tx-1" "CH" "EU" amount "CHF" (pol_ID swiss_policy) (Some raw).
Definition check_req (raw : bytes) : CheckRequest := mkCheckReq "tx-1" (pol_ID swiss_policy) raw.

Lemma server0_ok : server_ok server0 [].
Proof.
  constructor.
  - intros id c Hc. unfold server0, NewServer in Hc; cbn [sv_checkers foldl WithBearerToken WithAdminToken WithOracleKeyPath] in Hc.
    apply lookup_insert_Some in Hc as [[<- <-]|[_ Hc]]; [|by rewrite lookup_empty in Hc].
    split_and!; [done|by constructor|done].
  - apply NewServer_filters.
  - apply NewMemoryStore_rep.
  - apply gen1_keys.
  - apply NewDetector_ok.
  - apply demo_engine_ok.
Qed.

(** The kind of an answer. *)
Definition status_of (x : res unit response) : option (Z * string) :=
  match x with
  | Ok (RError st code) => Some (st, code)
  | Ok (RCheck r) => Some (200, if pr_Compliant r then "compliant" else "violation")
  | Ok (RSettle st r) => Some (st, sr_Code r)
  | _ => None
  end.

Example check_runs :
  status_of (handleCheck (env_of NoFault) (Ok (check_req "ch")) server0).2 = Some (200, "compliant") ∧
  status_of (handleCheck (env_of NoFault) (Ok (check_req "mixed")) server0).2 = Some (200, "violation") ∧
  status_of (handleSettle (env_of NoFault) (Ok (settle_req 100 "ch")) server0).2 = Some (200, "") ∧
  status_of (handleSettle (env_of NoFault) (Ok (settle_req 100 "mixed")) server0).2 = Some (422, "") ∧
  status_of (handleSettle (env_of NoFault) (Ok (settle_req 1000000 "ch")) server0).2 = Some (400, "INVALID_REQUEST").
Proof. vm_compute. split_and!; reflexivity. Qed.

Definition check_result (raw : bytes) := handleCheck (env_of NoFault) (Ok (check_req raw)) server0.

Lemma check_endpoint_witness :
  status_of (check_result "mixed").2 = Some (200, "violation") ∧
  sv_ledger (check_result "mixed").1 = sv_ledger server0 ∧
  ∃ v, (check_result "mixed").2 = Ok (RCheck (mkPR false None (Some v))) ∧
    sv_receipts (check_result "mixed").1 = sv_receipts server0.
Proof.
  split; [vm_compute; reflexivity|].
  assert (BuildSCIONPath ext "mixed" = Ok (path_of "mixed")) as Hb by (vm_compute; reflexivity).
  pose proof (check_endpoint (env_of NoFault) (check_req "mixed") server0 [] (NewChecker swiss_policy) (path_of "mixed")
    server0_ok ltac:(discriminate) eq_refl eq_refl Hb) as Hc.
  fold (check_result "mixed") in Hc. destruct (check_result "mixed") as [sv' x].
  rewrite decide_False in Hc by (apply (bool_decide_unpack _); vm_compute; exact I).
  destruct Hc as (? & v & ? & _ & ? & _). split; [assumption|]. exists v. split; assumption.
Defined.

Definition settle_result (amount : Z) (raw : bytes) := handleSettle (env_of NoFault) (Ok (settle_req amount raw)) server0.

Lemma settle_only_on_compliant_paths_witness :
  GetBalance "EU" "CHF" (sv_ledger (settle_result 100 "mixed").1) = 5000 ∧
  GetBalance "EU" "CHF" (sv_ledger (settle_result 100 "ch").1) = 5100 ∧
  (abs (sv_ledger (settle_result 100 "ch").1) = abs (sv_ledger server0) ∨
   ∃ c path, sv_checkers server0 !! pol_ID swiss_policy = Some c ∧ compliant (c_policy c) path).
Proof.
  split; [vm_compute; reflexivity|]. split; [vm_compute; reflexivity|].
  destruct (settle_only_on_compliant_paths (env_of NoFault) (settle_req 100 "ch") server0 (settle_result 100 "ch").1 []
    (settle_result 100 "ch").2 server0_ok (surjective_pairing _)) as [_ [?|(c & path & ? & _ & _ & ? & _)]]; [left; assumption|].
  right. exists c, path. split; assumption.
Defined.

Lemma gen1_providers : providers_ok gen1.
Proof. split; [by intros p hop [= <-]|done]. Qed.

Lemma settle_outcome_witness :
  status_of (settle_result 100 "ch").2 = Some (200, "") ∧
  accounts (abs (sv_ledger (settle_result 100 "ch").1)) =
    pay (settle_tx (settle_req 100 "ch") "tx-1" (canonicalSettleRequestDigest (settle_req 100 "ch") "tx-1") (path_of "ch"))
      (accounts (abs (sv_ledger server0))) ∧
  ∃ t, GetTransaction "tx-1" (sv_ledger (settle_result 100 "ch").1) = Some t ∧ tx_Status t = TxConfirmed.
Proof.
  split; [vm_compute; reflexivity|].
  assert (BuildSCIONPath ext "ch" = Ok (path_of "ch")) as Hb by (vm_compute; reflexivity).
  assert (settle_wf (settle_req 100 "ch")) as Hwf by (apply (bool_decide_unpack _); vm_compute; exact I).
  pose proof (settle_outcome (env_of NoFault) (settle_req 100 "ch") server0 [] (NewChecker swiss_policy) (path_of "ch")
    server0_ok gen1_providers Hwf eq_refl ltac:(apply (bool_decide_unpack _); vm_compute; exact I) eq_refl Hb) as Hc.
  cbv zeta in Hc. fold (settle_result 100 "ch") in Hc. destruct (settle_result 100 "ch") as [sv' x].
  rewrite decide_True in Hc by (apply (bool_decide_unpack _); vm_compute; exact I).
  destruct (bank_error _ _) as [be|] eqn:He; [exfalso; vm_compute in He; discriminate|].
  destruct Hc as (Hacc & cr & t & _ & Ht & Hst & _). split; [exact Hacc|]. exists t. split; [exact Ht|exact Hst].
Defined.

(** The receipt and the outcome of a run. *)
Definition answer (x : res unit response) : ConsensusResult * receipt * string :=
  match x with
  | Ok (RSettle _ (mkSR (Some cr) (Some (mkPR _ (Some r) _)) _ _ code)) => (cr, r, code)
  | Ok (RSettle _ (mkSR (Some cr) _ _ _ code)) => (cr, issued1, code)
  | _ => (confirmedConsensus "", issued1, "")
  end.
Definition settled_answer := Eval vm_compute in answer (settle_result 100 "ch").2.

Lemma settle_retry_idempotent_witness :
  let sv1 := (settle_result 100 "ch").1 in
  handleSettle (env_of NoFault) (Ok (settle_req 100 "ch")) sv1 =
    (set_audit (existing_settled "tx-1") sv1, Ok (retried_with "tx-1" settled_answer.1.2)).
Proof.
  apply (settle_retry_idempotent (env_of NoFault) (env_of NoFault) (settle_req 100 "ch") server0 _ []
    settled_answer.1.1 settled_answer.1.2 server0_ok); [discriminate|discriminate|reflexivity|exact I|].
  fold (settle_result 100 "ch"). rewrite (surjective_pairing (settle_result 100 "ch")) at 1.
  apply (f_equal (pair _)). vm_compute. reflexivity.
Defined.

(** A server with one receipt stored, and an identifier that collides with it. *)
Definition issued0 := IssueAndAppend NoFault "id-1" t0 "tx-0" (pol_ID swiss_policy) path1 gen1 NewMemoryStore.
Definition stored0 : receipt := Eval vm_compute in result_of issued0.2.
Definition server1 : Server MemoryStore MemoryViolationStore := set_issue issued0.1.1 issued0.1.2 server0.

Lemma server1_ok : server_ok server1 [stored0].
Proof.
  assert (issued0 = (issued0.1.1, issued0.1.2, Ok stored0)) as Hi.
  { rewrite (surjective_pairing issued0) at 1. rewrite (surjective_pairing issued0.1) at 1. apply (f_equal (pair _)). vm_compute. reflexivity. }
  destruct (server_issue _ _ _ _ _ _ server0 [] _ _ _ server0_ok Hi) as [Hk [(Hx & _)|(r & Hr & Hrep & _)]]; [discriminate|].
  injection Hr as <-. destruct server0_ok. constructor; assumption.
Qed.

Definition env_clash : env := mkEnv (λ _, "id-1") (λ _, t0) (λ _, NoFault) "" (λ _, "error").
Definition failed := handleSettle env_clash (Ok (settle_req 100 "ch")) server1.
Definition failed_answer := Eval vm_compute in answer failed.2.
Definition repaired := handleSettle (env_of NoFault) (Ok (settle_req 100 "ch")) failed.1.

Lemma failed_providers : providers_ok (sv_generator failed.1).
Proof.
  assert (g_proofs (sv_generator failed.1) = Some PlaceholderProofProvider) as Hp by (vm_compute; reflexivity).
  assert (g_threshold (sv_generator failed.1) = None) as Ht by (vm_compute; reflexivity).
  split; [intros p hop|intros signer b]; rewrite ?Hp, ?Ht; [by intros [= <-]|done].
Qed.

Lemma settle_retry_repairs_witness :
  status_of failed.2 = Some (500, "SETTLEMENT_RECEIPT_FAILED") ∧ status_of repaired.2 = Some (200, "") ∧
  GetBalance "EU" "CHF" (sv_ledger failed.1) = 5100 ∧
  abs (sv_ledger repaired.1) = abs (sv_ledger failed.1) ∧
  ((∃ r, repaired.2 = Ok (retried_with "tx-1" r) ∧ server_ok repaired.1 ([stored0] ++ [r]) ∧ Verify r = Ok true) ∨
   server_ok repaired.1 [stored0]).
Proof.
  split; [vm_compute; reflexivity|]. split; [vm_compute; reflexivity|]. split; [vm_compute; reflexivity|].
  pose proof (settle_retry_repairs env_clash (env_of NoFault) (settle_req 100 "ch") server1 failed.1 [stored0]
    failed_answer.1.1 failed_answer.2 server1_ok ltac:(discriminate)) as Hr.
  cbv zeta in Hr. fold repaired in Hr. destruct repaired as [sv2 x]. destruct Hr as [Ha Hr].
  - fold failed. rewrite (surjective_pairing failed) at 1. apply (f_equal (pair _)). vm_compute. reflexivity.
  - apply failed_providers.
  - split; [exact Ha|]. destruct Hr as [(r & tx & ? & ? & ? & _)|(_ & _ & ? & _)]; [left; exists r; split; [|split]|right]; assumption.
Defined.

Lemma verify_chain_range_witness :
  let '(sv', x) := handleVerifyChain NoFault (Some (Some 0)) (Some (Some (2 ^ 64 - 1))) server1 in
  sv' = server1 ∧ x = Ok (RChain (mkVC 1 (PublicKey (sv_generator server1))
    (receiptPublicKeys [stored0] (PublicKey (sv_generator server1))) [stored0])).
Proof.
  pose proof (verify_chain_range server1 [stored0] 0 (2 ^ 64 - 1) server1_ok) as Hc.
  destruct (handleVerifyChain _ _ _ _) as [sv' x]. cbv zeta in Hc. destruct Hc as (Hsv & _ & _ & _ & Hx).
  - repeat constructor.
  - intros r ->%list_elem_of_singleton. split; [split; vm_compute; congruence|exact I].
  - split; vm_compute; congruence.
  - split; vm_compute; congruence.
  - split; [exact Hsv|]. apply Hx; reflexivity.
Defined.
End DemoApi.
