(* ===== verification/Http.v ===== *)
(** * The HTTP surface

    The rest of [src/internal/api/server.go]: the routes, the chain of middleware
    around them, the read-only handlers, the event stream, and the limits of the
    [http.Server] they run in.  A request is its method, its escaped path and its
    authorization header; the part of [http.ServeMux] that decides between a
    redirect and a handler is [cleanPath] and the matching of segments. *)

From S2P Require Import Prelude GoJson Json GoDecode Sha256 Model Replay Policy PathCheck Scion Bolt.
From S2P Require Import ReceiptStore Receipt Violation Ledger Consensus AuditTrail Codecs.
From S2P Require Import AuditQueue Api.

(** ** Routes *)
Inductive route :=
| HCheck | HFilterPaths | HListReceipts | HListViolations | HListPolicies | HSSE | HVerifyChain | HRotateKey
| HSettle | HLedger | HTransactions | HHealth | HStatic.

#[export] Instance route_eq_dec : EqDecision route.
Proof. solve_decision. Defined.

(** [routes]: method, path, handler. *)
Definition routes : list (string * list string * route) :=
  [("POST", ["api"; "check"], HCheck); ("POST", ["api"; "filter-paths"], HFilterPaths);
   ("GET", ["api"; "receipts"], HListReceipts); ("GET", ["api"; "violations"], HListViolations);
   ("GET", ["api"; "policies"], HListPolicies); ("GET", ["api"; "events"], HSSE);
   ("GET", ["api"; "verify-chain"], HVerifyChain); ("POST", ["api"; "rotate-key"], HRotateKey);
   ("POST", ["api"; "settle"], HSettle); ("GET", ["api"; "ledger"], HLedger);
   ("GET", ["api"; "transactions"], HTransactions); ("GET", ["api"; "health"], HHealth)].

(** [rq_path] is the path as it was sent, [URL.EscapedPath]. *)
Record http_request := mkHttp {
  rq_method : string;
  rq_path : string;
  rq_auth : string
}.

(** *** Paths *)
(** [url.PathUnescape]; an ill-formed escape, which [net/http] refuses, stays. *)
Fixpoint unescape (s : string) : string :=
  match s with
  | EmptyString => ""
  | String a s1 =>
    if ord a =? 37 then
      match s1 with
      | String b (String c s2) =>
        match hex_val b, hex_val c with
        | Some x, Some y => String (chr (16 * x + y)) (unescape s2)
        | _, _ => String a (unescape s1)
        end
      | _ => String a (unescape s1)
      end
    else String a (unescape s1)
  end.

(** [r.URL.Path] *)
Definition url_path (q : http_request) : string := unescape (rq_path q).

(** The pieces between slashes. *)
Fixpoint split_slash (s : string) : list string :=
  match s with
  | EmptyString => [""]
  | String a s' =>
    if ord a =? 47 then "" :: split_slash s'
    else match split_slash s' with p :: ps => String a p :: ps | [] => [String a ""] end
  end.

Definition join (segs : list string) : string := foldr (λ s p, "/" +:+ s +:+ p) "" segs.

(** The elements [path.Clean] keeps of a rooted path, the last one first. *)
Fixpoint clean_segs (kept segs : list string) : list string :=
  match segs with
  | [] => kept
  | seg :: segs' =>
    if bool_decide (seg = "") || bool_decide (seg = ".") then clean_segs kept segs'
    else if bool_decide (seg = "..") then clean_segs (tail kept) segs'
    else clean_segs (seg :: kept) segs'
  end.

(** [cleanPath] of [net/http]: [path.Clean] of the rooted path, with its trailing
    slash. *)
Definition cleanPath (p : string) : string :=
  match clean_segs [] (split_slash p) with
  | [] => "/"
  | kept => join (reverse kept) +:+ (if bool_decide (last (split_slash p) = Some "") then "/" else "")
  end.

(** A GET pattern also matches HEAD. *)
Definition method_matches (pat m : string) : bool := bool_decide (m = pat) || (bool_decide (pat = "GET") && bool_decide (m = "HEAD")).

Inductive outcome := Unauthorized | Redirected | NotFound | MethodNotAllowed | Runs (r : route).

#[export] Instance outcome_eq_dec : EqDecision outcome.
Proof. solve_decision. Defined.

(** [http.ServeMux] on these patterns: the path of a request is cleaned, except for
    CONNECT; its segments are matched unescaped; a path that was not clean is
    redirected to the clean one.  The pattern of the dashboard is the root of every
    path. *)
Definition mux (dashboardDir : string) (q : http_request) : outcome :=
  let path := if bool_decide (rq_method q = "CONNECT") then rq_path q else cleanPath (rq_path q) in
  let segs := unescape <$> tail (split_slash path) in
  if negb (bool_decide (path = rq_path q)) then Redirected
  else
    match list_find (λ '(m, pat, _), method_matches m (rq_method q) = true ∧ pat = segs) routes with
    | Some (_, (_, _, r)) => Runs r
    | None =>
      if negb (bool_decide (dashboardDir = "")) then
        if method_matches "GET" (rq_method q) then Runs HStatic else MethodNotAllowed
      else if existsb (λ '(_, pat, _), bool_decide (pat = segs)) routes then MethodNotAllowed
      else NotFound
    end.

(** [Handler]: the middleware around the router.  Each layer gets the header map
    that the layers before it have written. *)
Abbreviation headers := (gmap string string).

Definition contentSecurityPolicy : string :=
  "default-src 'self'; connect-src 'self'; style-src 'self' 'unsafe-inline'; script-src 'self'; object-src 'none'; base-uri 'none'; frame-ancestors 'none'".

Definition securityHeadersMiddleware (next : headers → headers * Z) (h : headers) : headers * Z :=
  next (<["Content-Security-Policy" := contentSecurityPolicy]> h).

(** [recoveryMiddleware] around a handler that may panic before it has answered. *)
Definition recoveryMiddleware (next : headers → headers * res unit Z) (h : headers) : headers * Z :=
  match next h with
  | (h', Ok status) => (h', status)
  | (h', _) => (<["Content-Type" := "application/json"]> h', 500)
  end.

Definition routed (token dashboardDir : string) (q : http_request) : outcome :=
  if authorized token (url_path q) (rq_auth q) then mux dashboardDir q else Unauthorized.

(** The reply to a request: [run] is what the handler of a route does to the
    headers, and its status or panic; [lib] the headers that the redirect, the
    not-found and the method handler of [net/http] set. *)
Definition Handler (token dashboardDir : string) (lib : outcome → headers → headers)
    (run : route → headers → headers * res unit Z) (q : http_request) : headers * Z :=
  securityHeadersMiddleware (recoveryMiddleware (λ h,
    match routed token dashboardDir q with
    | Unauthorized =>
      (<["Content-Type" := "application/json"]>
         (<["WWW-Authenticate" := "Bearer realm=" +:+ dquote +:+ "jurispath" +:+ dquote]> h), Ok 401)
    | Redirected => (lib Redirected h, Ok 301)
    | NotFound => (lib NotFound h, Ok 404)
    | MethodNotAllowed => (lib MethodNotAllowed h, Ok 405)
    | Runs r => run r h
    end)) ∅.

(** The headers that the API's own handlers set. *)
Definition sets (r : route) : list (string * string) :=
  match r with
  | HSSE => [("Content-Type", "text/event-stream"); ("Cache-Control", "no-cache"); ("Connection", "keep-alive");
             ("Access-Control-Allow-Origin", "*")]
  | HStatic => []
  | _ => [("Content-Type", "application/json")]
  end.

(** An API handler with its status; the file server of the dashboard is [static]. *)
Definition run_route (static : headers → headers) (status : route → res unit Z) (r : route) (h : headers) : headers * res unit Z :=
  (foldl (λ h '(k, v), <[k := v]> h) (if decide (r = HStatic) then static h else h) (sets r), status r).

(** ** The listener

    [http.Server] as the code configures it, durations in nanoseconds.  The two
    methods of [Server] and start-up run it in plain text or with a certificate. *)
Record HTTPServer := mkHTTPServer {
  hs_Addr : string;
  hs_ReadHeaderTimeout : Z;
  hs_ReadTimeout : Z;
  hs_WriteTimeout : Z;
  hs_IdleTimeout : Z;
  hs_MaxHeaderBytes : Z
}.

Definition second : Z := 1000000000.
Definition defaultReadHeaderTimeout : Z := 5 * second.
Definition defaultReadTimeout : Z := 30 * second.
Definition defaultWriteTimeout : Z := 30 * second.
Definition defaultIdleTimeout : Z := 120 * second.
Definition defaultMaxHeaderBytes : Z := Z.shiftl 1 20.

Definition NewHTTPServer (addr : string) : HTTPServer :=
  mkHTTPServer addr defaultReadHeaderTimeout defaultReadTimeout defaultWriteTimeout defaultIdleTimeout defaultMaxHeaderBytes.

Inductive listener := PlainListener (s : HTTPServer) | TLSListener (s : HTTPServer) (certFile keyFile : string).

Definition ListenAndServe (addr : string) : listener := PlainListener (NewHTTPServer addr).
Definition ListenAndServeTLS (addr certFile keyFile : string) : listener := TLSListener (NewHTTPServer addr) certFile keyFile.

(** ** Read-only handlers *)
Inductive listing :=
| LError (status : Z) (code : string)
| LReceipts (l : list receipt)
| LViolations (l : list Violation)
| LPolicies (l : list Policy)
| LLedger (vs : list ValidatorState) (round : Z)
| LTransactions (l : list (option Transaction))
| LHealth (healthy : bool) (failures count uptime : Z).

Section Reads.
Context {S V : Type} `{!Store S, !ViolationStore V}.

Definition handleListReceipts (f : fault) (sv : Server S V) : res unit listing :=
  match store_List f (sv_receipts sv) with
  | Ok l => Ok (LReceipts l)
  | Err _ => Ok (LError 500 "INTERNAL_ERROR")
  | Panic => Panic
  end.

Definition handleListViolations (f : fault) (sv : Server S V) : res unit listing :=
  match vs_List f (d_store (sv_detector sv)) with
  | Ok l => Ok (LViolations l)
  | Err _ => Ok (LError 500 "INTERNAL_ERROR")
  | Panic => Panic
  end.

Definition handleListPolicies (sv : Server S V) : res unit listing := Ok (LPolicies (sv_policies sv)).

Definition handleLedger (sv : Server S V) : res unit listing :=
  Ok (LLedger (GetValidators (sv_ledger sv)) (CurrentRound (sv_ledger sv))).

Definition handleTransactions (sv : Server S V) : res unit listing := Ok (LTransactions (ListTransactions (sv_ledger sv))).

(** An error of the count is ignored. *)
Definition handleHealth `{!Bolt, !Codec AuditEntry} (f : fault) (uptime : Z) (a : AuditState) (sv : Server S V) : res unit listing :=
  match store_Count f (sv_receipts sv) with
  | Panic => Panic
  | x => Ok (LHealth (health a).1 (health a).2 (match x with Ok n => n | _ => 0 end) uptime)
  end.
End Reads.

(** ** The event stream *)
Section Events.
Context (clause_text : clause replay_err → string).

(** The encoding of a violation; [ts] is the text of its time. *)
Definition Violation_json (v : Violation) (ts : string) : json :=
  JObj [("id", JStr (Violation.v_ID v)); ("transaction_id", JStr (v_TransactionID v)); ("policy_id", JStr (v_PolicyID v));
        ("path", SCIONPath_json (v_Path v)); ("evidence_class", JStr (v_EvidenceClass v));
        ("proof_status", JStr (v_ProofStatus v)); ("violated_clause", JStr (from_option clause_text "" (v_ViolatedClause v)));
        ("severity", JStr (v_Severity v)); ("offending_hops", JSlice ASHop_json (v_OffendingHops v)); ("timestamp", JStr ts)].

(** An error of the encoder is ignored and gives an empty text. *)
Definition violation_data (v : Violation) : string :=
  match rfc3339nano (v_Timestamp v) with Some ts => render (Violation_json v ts) | None => "" end.

Definition newline : string := char 10.
Definition sse_frame (data : string) : string :=
  "event: violation" +:+ newline +:+ "data: " +:+ data +:+ newline +:+ newline.

Inductive sse_event := SseViolation (v : Violation) | SseDone.

(** The loop of [handleSSE] on the events its select picks: what was written, and
    whether it has returned. *)
Fixpoint sse_loop (evs : list sse_event) : string * bool :=
  match evs with
  | [] => ("", false)
  | SseDone :: _ => ("", true)
  | SseViolation v :: evs' => let '(t, b) := sse_loop evs' in (sse_frame (violation_data v) +:+ t, b)
  end.

(** [handleSSE] when nothing else runs: [None] for a writer that cannot flush. *)
Definition handleSSE {V} `{!ViolationStore V} (flusher : bool) (evs : list sse_event) (d : Detector V) :
    res unit (Detector V) * option (string * bool) :=
  if negb flusher then (Ok d, None)
  else
    let '(d1, ch) := Subscribe d in
    let '(text, ended) := sse_loop evs in
    (if ended then Unsubscribe ch d1 else Ok d1, Some (text, ended)).

(** ** A reader of event streams

    Lines end with a line feed or a carriage return; a data line sets the data of
    the current event, an empty line dispatches it. *)
Fixpoint lines (s : string) : list string :=
  match s with
  | EmptyString => []
  | String a s' =>
    if (ord a =? 10) || (ord a =? 13) then "" :: lines s'
    else match lines s' with l :: ls => String a l :: ls | [] => [String a ""] end
  end.

Fixpoint events (cur : option string) (ls : list string) : list string :=
  match ls with
  | [] => []
  | l :: ls' =>
    if bool_decide (l = "") then match cur with Some d => d :: events None ls' | None => events None ls' end
    else match strip "data: " l with
         | Some d => events (Some d) ls'
         | None => events cur ls'
         end
  end.

Definition sse_read (s : string) : list string := events None (lines s).
End Events.

(** ** The API is behind the token *)

(** Escapes do not reach over a slash. *)
Lemma unescape_slash s t : unescape (s +:+ "/" +:+ t) = unescape s +:+ "/" +:+ unescape t.
Proof.
  remember (String.length s) as n eqn:Hn. revert s Hn. induction (lt_wf n) as [n _ IH]; intros s ->.
  assert (∀ s', (String.length s' < String.length s)%nat →
    unescape (s' +:+ "/" +:+ t) = unescape s' +:+ "/" +:+ unescape t) as IH' by (intros s' Hl; by apply (IH (String.length s'))).
  clear IH. destruct s as [|a s1]; [done|]. cbn [String.length] in IH'.
  assert (String a (unescape (s1 +:+ "/" +:+ t)) = String a (unescape s1) +:+ "/" +:+ unescape t) as Hskip
    by (rewrite IH' by lia; done).
  rewrite append_cons. cbn [unescape]. destruct (ord a =? 37); [|done].
  destruct s1 as [|b [|c s2]]; [destruct t; exact Hskip| |].
  - rewrite append_cons in *. change ("" +:+ "/" +:+ t) with (String (chr 47) t) in *. destruct (hex_val b); exact Hskip.
  - rewrite !append_cons in *. destruct (hex_val b), (hex_val c); [|exact Hskip..].
    rewrite IH' by (simpl; lia). done.
Qed.

Lemma split_slash_cons s : ∃ p ps, split_slash s = p :: ps.
Proof. induction s as [|x s (p & ps & IH)]; cbn [split_slash]; [eauto|]. rewrite IH. destruct (ord x =? 47); eauto. Qed.

Lemma split_slash_one s a : split_slash s = [a] → s = a.
Proof.
  revert a. induction s as [|x s IH]; intros a; cbn [split_slash]; [by intros [= <-]|].
  destruct (split_slash_cons s) as (p & ps & Hs). rewrite Hs in *. destruct (ord x =? 47); [done|].
  intros [= <- ->]. by rewrite (IH p).
Qed.

Lemma split_slash_two s a b : split_slash s = [a; b] → s = a +:+ "/" +:+ b.
Proof.
  revert a. induction s as [|x s IH]; intros a; cbn [split_slash]; [done|]. destruct (ord x =? 47) eqn:Hx.
  - intros [= <- Hs%split_slash_one]. subst b. apply Z.eqb_eq in Hx.
    replace x with (chr 47); [done|]. unfold chr, ord in *. rewrite <- Hx, N2Z.id. apply Ascii.ascii_N_embedding.
  - destruct (split_slash s) as [|p ps]; [done|]. intros [= <- ->]. by rewrite (IH p), append_cons.
Qed.

(** A clean path starts with a slash. *)
Lemma cleanPath_rooted p : ∃ p', cleanPath p = String (chr 47) p'.
Proof.
  unfold cleanPath. destruct (clean_segs [] (split_slash p)) as [|x kept]; [by eexists|].
  assert (reverse (x :: kept) ≠ []) as Hne by (rewrite reverse_cons; by destruct (reverse kept)).
  destruct (reverse (x :: kept)) as [|y l]; [done|]. cbn [join foldr]. by eexists.
Qed.

Lemma route_found m segs i pat r : list_find (λ '(m', pat, _), method_matches m' m = true ∧ pat = segs) routes = Some (i, (pat, r)) →
  m ≠ "CONNECT" ∧ ∃ name, segs = ["api"; name].
Proof.
  intros Hf. apply list_find_Some in Hf as (Hi & Hm & _). destruct pat as [m' pat]. destruct Hm as [Hm <-].
  assert (Forall (λ x : string * list string * route, method_matches x.1.1 "CONNECT" = false ∧ ∃ name, x.1.2 = ["api"; name]) routes)
    as Hall by (repeat constructor; eauto).
  destruct (Forall_lookup_1 _ _ _ _ Hall Hi) as [Hc Hn]. split; [|exact Hn]. intros ->. cbn [fst] in Hc. congruence.
Qed.

(** What reaches a handler of the API. *)
Lemma mux_api dir q r : mux dir q = Runs r → r ≠ HStatic →
  cleanPath (rq_path q) = rq_path q ∧ ∃ name, url_path q = "/api/" +:+ name.
Proof.
  unfold mux. cbv zeta. case_bool_decide as Heq; cbn [negb]; [|done].
  destruct (list_find _ routes) as [[i [pat r']]|] eqn:Hf; [|intros; by repeat case_match; simplify_eq].
  intros _ _. apply route_found in Hf as [Hm [name Hs]]. rewrite (bool_decide_false (rq_method q = "CONNECT")) in * by done.
  split; [done|]. destruct (cleanPath_rooted (rq_path q)) as [p Hp]. unfold url_path. rewrite <- Heq. rewrite Hp in *.
  change (tail (split_slash (String (chr 47) p))) with (split_slash p) in Hs.
  destruct (split_slash p) as [|a [|b [|? ?]]] eqn:Hsp; try done. injection Hs as Ha Hb.
  apply split_slash_two in Hsp as ->. exists (unescape b).
  change (String (chr 47) (a +:+ "/" +:+ b)) with ("" +:+ "/" +:+ (a +:+ "/" +:+ b)).
  rewrite !unescape_slash, Ha. done.
Qed.

(** CONNECT runs nothing. *)
Lemma mux_connect dir q r : rq_method q = "CONNECT" → mux dir q ≠ Runs r.
Proof.
  intros Hm. unfold mux. cbv zeta. destruct (negb _); [done|].
  destruct (list_find _ routes) as [[i [pat r']]|] eqn:Hf; [by apply route_found in Hf as [? _]|].
  rewrite Hm. repeat case_match; done.
Qed.

Definition policy_key : string := "Content-Security-Policy".

(** Handlers that leave the policy header alone; the API's do. *)
Definition keeps_policy (f : headers → headers) : Prop := ∀ h, f h !! policy_key = h !! policy_key.

Lemma run_route_keeps static status : keeps_policy static → ∀ r, keeps_policy (λ h, (run_route static status r h).1).
Proof.
  intros Hs r h. unfold run_route. cbn [fst].
  assert (∀ l (h' : headers), Forall (λ x : string * string, x.1 ≠ policy_key) l →
    foldl (λ h '(k, v), <[k := v]> h) h' l !! policy_key = h' !! policy_key) as Hfold.
  { induction l as [|[k v] l IH]; intros h' Hl; [done|]. apply Forall_cons in Hl as [Hk Hl]. cbn [foldl].
    rewrite IH by done. by apply lookup_insert_ne. }
  rewrite Hfold; [case_decide; [apply Hs|done]|]. destruct r; repeat constructor; done.
Qed.

(** C24. No route of the API runs without the token.  With a token configured, every
    request that reaches one of the API's handlers has presented exactly that
    token, on a path in canonical form.  A path that is not in canonical form
    (doubled slashes, dots) is answered with the redirect to its canonical form,
    or refused for want of the token, and CONNECT is never routed to a handler: in
    neither case does any handler run, the dashboard's included.  And every reply
    carries the content security policy, redirects, refusals and recovered panics
    included, as long as no handler overwrites that header, which the handlers of
    the API do not ([run_route_keeps]). *)
Theorem api_behind_token (token dir : string) (lib : outcome → headers → headers)
    (run : route → headers → headers * res unit Z) (q : http_request) :
  token ≠ "" → (∀ o, keeps_policy (lib o)) → (∀ r, keeps_policy (λ h, (run r h).1)) →
  (∀ r, routed token dir q = Runs r → r ≠ HStatic →
     rq_auth q = "Bearer " +:+ token ∧ cleanPath (rq_path q) = rq_path q) ∧
  (rq_method q ≠ "CONNECT" → cleanPath (rq_path q) ≠ rq_path q →
     routed token dir q = if authorized token (url_path q) (rq_auth q) then Redirected else Unauthorized) ∧
  (rq_method q = "CONNECT" → ∀ r, routed token dir q ≠ Runs r) ∧
  (Handler token dir lib run q).1 !! "Content-Security-Policy" = Some contentSecurityPolicy ∧
  (routed token dir q = Unauthorized → (Handler token dir lib run q).2 = 401) ∧
  (routed token dir q = Redirected → (Handler token dir lib run q).2 = 301).
Proof.
  intros Ht Hlib Hrun. split_and!.
  - intros r Hr Hne. unfold routed in Hr. destruct (authorized token (url_path q) (rq_auth q)) eqn:Ha; [|done].
    destruct (mux_api dir q r Hr Hne) as [Hc [name Hs]]. split; [|done].
    apply authorized_iff in Ha as [?|[[? Hp]|?]]; [done| |done]. rewrite Hs in Hp. unfold has_prefix in Hp.
    by rewrite Toy.substring_app_left in Hp.
  - intros Hm Hc. unfold routed. destruct (authorized _ _ _); [|done]. unfold mux. cbv zeta.
    by rewrite (bool_decide_false (rq_method q = "CONNECT")), (bool_decide_false (cleanPath _ = _)) by done.
  - intros Hm r. unfold routed. destruct (authorized _ _ _); [by apply mux_connect|done].
  - unfold Handler, securityHeadersMiddleware, recoveryMiddleware. fold policy_key.
    destruct (routed token dir q) as [| | | |r]; cbn [fst].
    + by rewrite !lookup_insert_ne, lookup_insert_eq by done.
    + by rewrite Hlib, lookup_insert_eq.
    + by rewrite Hlib, lookup_insert_eq.
    + by rewrite Hlib, lookup_insert_eq.
    + specialize (Hrun r (<[policy_key := contentSecurityPolicy]> ∅)). cbn beta in Hrun.
      destruct (run r _) as [h [st| |]]; cbn [fst] in *; rewrite ?(lookup_insert_ne _ "Content-Type") by done;
        by rewrite Hrun, lookup_insert_eq.
  - unfold Handler, securityHeadersMiddleware, recoveryMiddleware. by intros ->.
  - unfold Handler, securityHeadersMiddleware, recoveryMiddleware. by intros ->.
Qed.

(** ** Encodings stay on one line *)
Fixpoint printable (s : string) : bool := match s with EmptyString => true | String a s' => (32 <=? ord a) && printable s' end.

Lemma printable_app s t : printable (s +:+ t) = printable s && printable t.
Proof. induction s as [|a s IH]; [done|]. rewrite append_cons. cbn [printable]. by rewrite IH, andb_assoc. Qed.

Lemma printable_cons a s : 32 ≤ ord a → printable s = true → printable (String a s) = true.
Proof. intros Ha Hs. cbn [printable]. rewrite Hs, andb_true_r. lia. Qed.

Lemma hex_digit_printable z : 0 ≤ z < 16 → 32 ≤ ord (hex_digit z).
Proof. intros Hz. unfold hex_digit. destruct (z <? 10) eqn:?; zbool; rewrite ord_chr by lia; lia. Qed.

Lemma esc_ascii_printable z : 0 ≤ z < 128 → printable (esc_ascii z) = true.
Proof.
  intros Hz. unfold esc_ascii. repeat (destruct (z =? _) eqn:? at 1; [done|]).
  destruct (_ || _ || _ || _) eqn:Hs.
  - rewrite !printable_app. change (printable (char 92)) with true. change (printable "u00") with true. cbn [andb].
    apply printable_cons; [apply hex_digit_printable; Z.to_euclidean_division_equations; lia|].
    apply printable_cons; [apply hex_digit_printable; Z.to_euclidean_division_equations; lia|done].
  - apply orb_false_iff in Hs as [Hs _]. apply orb_false_iff in Hs as [Hs _]. apply orb_false_iff in Hs as [Hs _]. zbool.
    apply printable_cons; [|done]. rewrite ord_chr by lia. lia.
Qed.

Lemma between_high lo hi a : between lo hi (ord a) = true → 32 ≤ lo → 32 ≤ ord a.
Proof. rewrite between_spec. lia. Qed.

Lemma quote_body_printable s : printable (quote_body s) = true.
Proof.
  remember (String.length s) as n eqn:Hn. revert s Hn. induction (lt_wf n) as [n _ IH]; intros s ->.
  destruct s as [|a s1]; [done|].
  assert (∀ s', (String.length s' < String.length (String a s1))%nat → printable (quote_body s') = true) as IH'
    by (intros s' Hl; by apply (IH (String.length s'))). clear IH. pose proof (ord_range a) as Hra.
  assert (printable (char 92 +:+ "ufffd" +:+ quote_body s1) = true) as Hbad.
  { rewrite !printable_app, IH' by (simpl; lia). done. }
  cbn [quote_body]. destruct (ord a <? 128) eqn:Ha; zbool.
  { rewrite printable_app, esc_ascii_printable, IH' by (simpl; lia). done. }
  cbv zeta. destruct s1 as [|b s2]; [done|]. simpl in IH'.
  assert (∀ x : Ascii.ascii, is_cont (ord x) = true → 32 ≤ ord x) as Hcont by (intros x Hx; by eapply between_high; [exact Hx|]).
  assert (∀ u x, second_ok u (ord x) = true → 32 ≤ ord x) as Hsec.
  { intros u x Hx. unfold second_ok in Hx. repeat case_match; zbool; first [by eapply between_high; [eassumption|]|by apply Hcont|lia]. }
  destruct (between 194 223 (ord a)).
  { destruct (is_cont (ord b)) eqn:Hb; [|done]. repeat (apply printable_cons; [auto; lia|]). apply IH'. lia. }
  destruct (between 224 239 (ord a)).
  { destruct s2 as [|c s3]; [done|]. simpl in IH'. destruct (second_ok _ _ && is_cont _) eqn:Hbc; [|done].
    apply andb_true_iff in Hbc as [Hb Hc]. destruct (_ && _ && _) eqn:Hsep.
    - rewrite !andb_true_iff, between_spec in Hsep. rewrite !printable_app. change (printable (char 92)) with true.
      change (printable "u202") with true. cbn [andb]. apply printable_cons; [apply hex_digit_printable; lia|]. apply IH'. lia.
    - apply printable_cons; [lia|]. apply printable_cons; [by eapply Hsec|]. apply printable_cons; [by apply Hcont|]. apply IH'. lia. }
  destruct (between 240 244 (ord a)); [|done]. destruct s2 as [|c [|d s4]]; [done..|]. simpl in IH'.
  destruct (second_ok _ _ && is_cont _ && is_cont _) eqn:Hbcd; [|done].
  apply andb_true_iff in Hbcd as [[Hb Hc]%andb_true_iff Hd].
  apply printable_cons; [lia|]. apply printable_cons; [by eapply Hsec|]. do 2 (apply printable_cons; [by apply Hcont|]). apply IH'. lia.
Qed.

Lemma digits_printable t : all_digits t = true → printable t = true.
Proof.
  induction t as [|a t IH]; [done|]. cbn [all_digits printable]. intros [Ha Ht]%andb_true_iff. rewrite IH by done.
  apply between_spec in Ha. lia.
Qed.

Lemma pretty_printable (z : Z) : printable (pretty z) = true.
Proof.
  assert (∀ p, printable (pretty_N_go (N.pos p) "") = true) as Hp.
  { intros p. destruct (pretty_N_go_digits (N.pos p) "" ltac:(lia)) as (a & t & -> & Ha & Ht).
    apply printable_cons; [lia|]. rewrite printable_app, digits_printable by done. done. }
  destruct z as [|p|p]; [done|rewrite pretty_pos; apply Hp|].
  change (pretty (Z.neg p) : string) with (String (Ascii.Ascii true false true true false true false false) (pretty_N_go (N.pos p) "")).
  by apply printable_cons.
Qed.

Lemma quote_printable s : printable (quote s) = true.
Proof. unfold quote. by rewrite !printable_app, quote_body_printable. Qed.

Lemma render_printable j : printable (render j) = true.
Proof.
  induction j as [|[]|z|s|l IH|l IH] using json_nested_ind; [done..|apply pretty_printable|apply quote_printable| |].
  - destruct l as [|j l]; [done|]. apply Forall_cons in IH as [Hj Hl]. rewrite render_arr, !printable_app, Hj.
    assert (printable (arr_tail l) = true) as ->; [|done].
    induction Hl as [|j' l Hj' _ IHl]; [done|]. cbn [arr_tail]. by rewrite !printable_app, Hj', IHl.
  - destruct l as [|[k j] l]; [done|]. apply Forall_cons in IH as [Hj Hl]. simpl in Hj.
    rewrite render_obj, !printable_app, Hj, quote_printable. assert (printable (obj_tail l) = true) as ->; [|done].
    induction Hl as [|[k' j'] l Hj' _ IHl]; [done|]. simpl in Hj'. cbn [obj_tail]. by rewrite !printable_app, Hj', IHl, quote_printable.
Qed.

(** ** The stream is read back *)
Lemma lines_app t s : printable t = true → lines (t +:+ newline +:+ s) = t :: lines s.
Proof.
  induction t as [|a t IH]; [done|]. cbn [printable]. intros [Ha Ht]%andb_true_iff. rewrite append_cons. cbn [lines].
  rewrite (proj2 (Z.eqb_neq (ord a) 10)), (proj2 (Z.eqb_neq (ord a) 13)) by lia. cbn [orb]. by rewrite IH.
Qed.

Lemma violation_data_printable ct v : printable (violation_data ct v) = true.
Proof. unfold violation_data. destruct (rfc3339nano _); [apply render_printable|done]. Qed.

Lemma strip_app (p s : string) : strip p (p +:+ s) = Some s.
Proof. induction p as [|a p IH]; [done|]. rewrite append_cons. cbn [strip]. by rewrite Z.eqb_refl. Qed.

Lemma events_frame cur d t : printable d = true →
  events cur (lines (sse_frame d +:+ t)) = d :: events None (lines t).
Proof.
  intros Hd. unfold sse_frame. rewrite !append_assoc. rewrite lines_app by done.
  rewrite <- (append_assoc "data: " d). rewrite lines_app by (by rewrite printable_app, Hd).
  change (newline +:+ t) with ("" +:+ newline +:+ t). rewrite lines_app by done.
  cbn [events]. rewrite (bool_decide_false ("event: violation" = "")) by done.
  change (strip "data: " "event: violation") with (None : option string). cbv iota.
  rewrite (bool_decide_false ("data: " +:+ d = "")) by done. rewrite strip_app. by rewrite (bool_decide_true ("" = "")).
Qed.

(** The violations that a run of the loop has sent. *)
Fixpoint sent (evs : list sse_event) : list Violation :=
  match evs with SseViolation v :: evs' => v :: sent evs' | _ => [] end.

(** The event stream carries exactly the violations.  Whatever the violations
    contain, line breaks in identifiers of a supplied path included, a reader of
    the stream finds one event for each violation the loop has taken, in order,
    with the JSON text of that violation as its data: nothing in a violation can
    end its event early or forge another one. *)
Theorem sse_stream_exact (clause_text : clause replay_err → string) (evs : list sse_event) :
  sse_read (sse_loop clause_text evs).1 = violation_data clause_text <$> sent evs.
Proof.
  unfold sse_read. induction evs as [|[v|] evs IH]; [done| |done]. cbn [sse_loop sent].
  destruct (sse_loop clause_text evs) as [t b]. cbn [fst] in *.
  rewrite events_frame by apply violation_data_printable. by rewrite IH.
Qed.

(** The loop returns only when the request is over. *)
Lemma sse_ends clause_text evs : (sse_loop clause_text evs).2 = true ↔ SseDone ∈ evs.
Proof.
  induction evs as [|[v|] evs IH]; cbn [sse_loop]; [split; [done|by intros ?%elem_of_nil]| |split; [by left|done]].
  destruct (sse_loop clause_text evs) as [t b]. cbn [snd] in *. rewrite IH, elem_of_cons. naive_solver.
Qed.

(** ** Witness *)
Definition demo_status (r : route) : res unit Z := if decide (r = HSettle) then Panic else Ok 200.

Lemma api_behind_token_witness :
  routed "tok" "dashboard" (mkHttp "POST" "/api/settle" "Bearer tok") = Runs HSettle ∧
  routed "tok" "dashboard" (mkHttp "POST" "/%61pi/settle" "Bearer other") = Unauthorized ∧
  routed "tok" "dashboard" (mkHttp "POST" "//api/settle" "") = Redirected ∧
  routed "tok" "dashboard" (mkHttp "POST" "/x/../api/./settle" "") = Redirected ∧
  (Handler "tok" "dashboard" (λ _ h, h) (run_route (λ h, h) demo_status) (mkHttp "POST" "/api/settle" "Bearer tok")).1
    !! "Content-Security-Policy" = Some contentSecurityPolicy.
Proof.
  split; [vm_compute; reflexivity|]. split; [vm_compute; reflexivity|]. split; [vm_compute; reflexivity|].
  split; [vm_compute; reflexivity|].
  destruct (api_behind_token "tok" "dashboard" (λ _ h, h) (run_route (λ h, h) demo_status)
    (mkHttp "POST" "/api/settle" "Bearer tok")) as (_ & _ & _ & H & _).
  - discriminate.
  - intros o h. reflexivity.
  - apply run_route_keeps. intros h. reflexivity.
  - exact H.
Defined.
