(* ===== verification/Service.v ===== *)
(** * The service as a whole

    Sequences of requests to the server of [src/internal/api/server.go]: which
    handler runs, what every handler leaves alone, what it can do to the receipt
    chain, and what the ledger and the chain come to after any number of
    requests. *)

From S2P Require Import Prelude GoJson Sha256 Model Replay Policy PathCheck Scion Bolt.
From S2P Require Import ReceiptStore Receipt Validator Violation Ledger Consensus Api.

(** ** Requests *)
Inductive request :=
| ReqCheck (e : env) (body : res string CheckRequest)
| ReqSettle (e : env) (body : res string SettleRequest)
| ReqFilter (e : env) (body : res string FilterPathsRequest)
| ReqVerifyChain (f : fault) (from_seq to_seq : option (option Z))
| ReqRotate (e : env) (header : string) (seed : res string bytes) (stamp : string) (ff : fs_faults).

Create HintDb service.

Section Service.
Context {S V : Type} `{!Store S, !ViolationStore V, !Ed25519}.
Abbreviation srv := (Server S V).
Abbreviation files := (gmap string bytes).

(** The handler that a request runs, and its answer after [recoveryMiddleware]. *)
Definition handler (q : request) (st : srv * files) : srv * files * res unit response :=
  let '(sv, fs) := st in
  match q with
  | ReqCheck e body => let '(sv', x) := handleCheck e body sv in (sv', fs, x)
  | ReqSettle e body => let '(sv', x) := handleSettle e body sv in (sv', fs, x)
  | ReqFilter e body => let '(sv', x) := handleFilterPaths e body sv in (sv', fs, x)
  | ReqVerifyChain f a b => let '(sv', x) := handleVerifyChain f a b sv in (sv', fs, x)
  | ReqRotate e header seed stamp ff => handleRotateKey e header seed stamp ff sv fs
  end.

Definition serve (q : request) (st : srv * files) : srv * files * response :=
  let '(sv, fs, x) := handler q st in let '(sv', r) := recovered (sv, x) in (sv', fs, r).

(** A sequence of requests, with the answer to each. *)
Fixpoint serve_all (qs : list request) (st : srv * files) : srv * files * list (request * response) :=
  match qs with
  | [] => (st.1, st.2, [])
  | q :: qs' =>
    let '(sv1, fs1, r) := serve q st in
    let '(sv2, fs2, rs) := serve_all qs' (sv1, fs1) in (sv2, fs2, (q, r) :: rs)
  end.

(** ** Frame: what no handler changes, and what it can do to the chain *)
Definition config_of (sv : srv) :=
  (sv_policies sv, sv_filters sv, sv_extractor sv, sv_validators sv, sv_apiToken sv, sv_adminToken sv, sv_oracleKeyPath sv).

Definition oracle_of (sv : srv) : Generator * S := (sv_generator sv, sv_receipts sv).

(** What a request can do to the generator and the store, and which receipts it
    appends. *)
Inductive oracle_effect : Generator * S → Generator * S → list receipt → Prop :=
| effect_none gs : oracle_effect gs gs []
| effect_issue f id now txID policyID path g s g' s' x :
    IssueAndAppend f id now txID policyID path g s = (g', s', x) →
    oracle_effect (g, s) (g', s') match x with Ok r => [r] | _ => [] end.

(** The receipt that an answer carries. *)
Definition shown (x : res unit response) : option receipt :=
  match x with
  | Ok (RCheck pr) => pr_Receipt pr
  | Ok (RSettle _ sr) => sr_Compliance sr ≫= pr_Receipt
  | _ => None
  end.

(** The configuration is untouched, and a receipt that was appended is the one
    that is shown. *)
Definition framed (sv sv' : srv) (o : option receipt) : Prop :=
  config_of sv' = config_of sv ∧
  ∃ ls, oracle_effect (oracle_of sv) (oracle_of sv') ls ∧ ∀ r, r ∈ ls → o = Some r.

Lemma framed_refl sv o : framed sv sv o.
Proof. split; [done|]. exists []. split; [constructor|by intros r []%not_elem_of_nil]. Qed.

(** Steps that touch neither. *)
Lemma framed_l sv0 sv sv' o : config_of sv0 = config_of sv → oracle_of sv0 = oracle_of sv → framed sv0 sv' o → framed sv sv' o.
Proof. unfold framed. by intros -> ->. Qed.
Lemma framed_r sv sv0 sv' o : config_of sv' = config_of sv0 → oracle_of sv' = oracle_of sv0 → framed sv sv0 o → framed sv sv' o.
Proof. unfold framed. by intros -> ->. Qed.
Lemma framed_audit sv ev sv' o : framed sv sv' o → framed sv (set_audit ev sv') o.
Proof. by apply framed_r. Qed.
Lemma framed_persist sv sv' e ctx txID policyID err o :
  framed sv sv' o → framed sv (audit_if_persist_failed e ctx txID policyID err sv') o.
Proof. destruct (persist_audit e ctx txID policyID err sv') as [->|(ev & -> & _)]; [done|apply framed_audit]. Qed.
Lemma framed_issue sv f id now txID policyID path g s x o :
  IssueAndAppend f id now txID policyID path (sv_generator sv) (sv_receipts sv) = (g, s, x) →
  (∀ r, x = Ok r → o = Some r) → framed sv (set_issue g s sv) o.
Proof.
  intros Hi Ho. split; [done|]. eexists. split; [by eapply effect_issue|].
  intros r Hr. destruct x as [r0| |]; [|by apply not_elem_of_nil in Hr..]. apply list_elem_of_singleton in Hr as ->. auto.
Qed.
Hint Resolve framed_refl framed_audit framed_persist : service.

Lemma ensure_framed e txID policyID raw path sv sv' x : engine_ok (sv_validators sv) (sv_ledger sv) →
  ensureSettlementReceipt e txID policyID raw path sv = (sv', x) →
  framed sv sv' match x with Ok r => Some r | _ => None end.
Proof.
  intros Heng. unfold ensureSettlementReceipt.
  destruct (settled_tx (e_fault e 2) txID sv) as [[r|t]|c|]; [intros [= <- _]; auto with service| |intros [= <- _]; auto with service..].
  destruct (settled_tx (e_fault e 3) txID sv) as [[r|tx]|c|] eqn:Hs; [intros [= <- _]; auto with service| |intros [= <- _]; auto with service..].
  destruct (match path with Some p => Ok p | None => _ end) as [p|c|]; [|intros [= <- _]; auto with service..].
  unfold issue_for. destruct (negb _ && negb _); [intros [= <- _]; auto with service|].
  destruct (IssueAndAppend _ _ _ _ _ _ _ _) as [[g s] y] eqn:Hi.
  destruct y as [r|err|].
  - apply settled_tx_missing in Hs as (Hg & _ & Hr).
    destruct (attach_confirmed _ _ txID (r_ID r) tx Heng Hg Hr) as (l' & -> & _). intros [= <- <-].
    apply (framed_r _ (set_issue g s sv)); [done|done|]. eapply framed_issue; [exact Hi|]. by intros ? [= <-].
  - intros [= <- <-]. apply framed_persist. by eapply framed_issue.
  - intros [= <- <-]. by eapply framed_issue.
Qed.

Lemma existing_framed e tx req dg path sv sv' x : engine_ok (sv_validators sv) (sv_ledger sv) →
  handleExistingSettlement e tx req dg path sv = (sv', x) → framed sv sv' (shown x).
Proof.
  intros Heng. unfold handleExistingSettlement, fail. destruct (negb _); [intros [= <- _]; auto with service|].
  destruct (validateLegacySettlementPath _ _ _ _); [|intros [= <- _]; auto with service..].
  case_bool_decide; [|case_bool_decide; intros [= <- _]; auto with service].
  destruct (ensureSettlementReceipt _ _ _ _ _ _) as [sv1 y] eqn:He. apply ensure_framed in He; [|done].
  destruct y; intros [= <- <-]; auto with service.
Qed.

Lemma settle_compliant_framed e req txID dg path sv sv' x : engine_ok (sv_validators sv) (sv_ledger sv) →
  settle_compliant e req txID dg path sv = (sv', x) → framed sv sv' (shown x).
Proof.
  intros Heng. unfold settle_compliant, fail. destruct (new_tx _ _) as [l1 p] eqn:Hn.
  set (tx := settle_tx req txID dg path) in *.
  destruct (new_tx_built (sv_validators sv) tx _ l1 p Heng Hn) as (Hok1 & Hp & _ & _).
  assert (∀ l2 sv2 o, framed (set_ledger l2 sv) sv2 o → framed sv sv2 o) as Hf by (intros l2 sv2 o; by apply framed_l).
  destruct (decide (tx_ID tx ∈ seen l1)) as [Hseen|Hns].
  - destruct (SubmitAndRunRound_duplicate (λ i, e_clk e (10 + i)%nat) (e_first e) (sv_validators sv) p l1 tx Hp Hseen)
      as (t & -> & _). intros He. eapply Hf, existing_framed; [|exact He]. done.
  - destruct (bank_error tx (accounts (abs l1))) as [be|] eqn:Hbe.
    + rewrite (SubmitAndRunRound_refused _ _ _ p l1 tx be) by done. intros [= <- _]. apply framed_audit.
      eapply Hf. auto with service.
    + destruct (SubmitAndRunRound_settles (λ i, e_clk e (10 + i)%nat) (e_first e) (sv_validators sv) p l1 tx Hok1 Hp Hns Hbe)
        as (l2 & n & -> & Heng2 & _). simpl.
      destruct (ensureSettlementReceipt _ _ _ _ _ _) as [sv1 y] eqn:He. apply ensure_framed, Hf in He; [|done].
      destruct y; intros [= <- <-]; auto with service.
Qed.

Lemma handleSettle_framed e body sv sv' x : engine_ok (sv_validators sv) (sv_ledger sv) →
  handleSettle e body sv = (sv', x) → framed sv sv' (shown x).
Proof.
  intros Heng. unfold handleSettle, fail. destruct body as [req| |]; [|intros [= <- _]; auto with service..].
  repeat (destruct (bool_decide _ || _ || _ || _) || case_bool_decide); try (intros [= <- _]; by auto with service).
  all: destruct (GetTransaction _ _) as [t|]; [by apply existing_framed|].
  all: destruct (sv_checkers sv !! _) as [c|]; [|intros [= <- _]; auto with service].
  all: destruct (BuildSCIONPath _ _) as [path| |]; [|intros [= <- _]; auto with service..].
  all: destruct (PathCheck.Check _ _ _ _ _) as [c' [r| |]].
  all: assert (∀ o, framed sv (set_checker (sq_PolicyID req) c' sv) o) as Hc
    by (intros o; by apply (framed_r _ sv); auto with service).
  all: try (intros [= <- _]; by auto with service).
  all: cbv zeta; destruct (negb (ck_Compliant r)); last first.
  all: try (intros Hs; apply settle_compliant_framed in Hs; [by eapply framed_l; [..|exact Hs]|done]).
  all: destruct (RecordViolation _ _ _ _ _ _ _ _ _) as [[d v]| |]; intros [= <- _]; auto with service.
  all: apply framed_audit; by apply (framed_r _ sv); auto with service.
Qed.

Lemma handleCheck_framed e body sv sv' x : handleCheck e body sv = (sv', x) →
  framed sv sv' (shown x) ∧ sv_ledger sv' = sv_ledger sv.
Proof.
  unfold handleCheck, fail. destruct body as [req| |]; [|intros [= <- _]; auto with service..].
  cbv zeta. destruct (negb _ && _); [intros [= <- _]; auto with service|].
  destruct (sv_checkers sv !! _) as [c|]; [|intros [= <- _]; auto with service].
  destruct (BuildSCIONPath _ _) as [path| |]; [|intros [= <- _]; auto with service..].
  destruct (PathCheck.Check _ _ _ _ _) as [c' y]. set (sv1 := set_checker _ c' sv).
  assert (∀ o, framed sv sv1 o) as Hc by (intros o; by apply (framed_r _ sv); auto with service).
  destruct y as [r| |]; [|intros [= <- _]; auto with service..].
  unfold check_outcome, fail. destruct (ck_Compliant r).
  - destruct (IssueAndAppend _ _ _ _ _ _ _ _) as [[g s] z] eqn:Hi.
    assert (framed sv (set_issue g s sv1) match z with Ok r => Some r | _ => None end) as Hf
      by (apply (framed_l sv1); [done..|]; eapply framed_issue; [exact Hi|]; by intros ? ->).
    destruct z as [rc|err|]; intros [= <- <-]; (split; [by auto with service|]); try done.
    cbn [set_audit sv_ledger]. by rewrite (proj1 (persist_audit_keeps _ _ _ _ _ _)).
  - destruct (RecordViolation _ _ _ _ _ _ _ _ _) as [[d v]| |]; intros [= <- _]; (split; [|done]); [|done..].
    by apply (framed_r _ sv1).
Qed.

Lemma handleVerifyChain_state f a b (sv sv' : srv) x : handleVerifyChain f a b sv = (sv', x) → sv' = sv.
Proof. unfold handleVerifyChain. repeat case_match; by intros [= <- _]. Qed.

(** Every request but a rotation; a rotation changes the key pair at most. *)
Lemma handler_framed q sv fs sv' fs' x : engine_ok (sv_validators sv) (sv_ledger sv) → handler q (sv, fs) = (sv', fs', x) →
  match q with
  | ReqRotate _ _ seed stamp ff =>
    config_of sv' = config_of sv ∧ sv_receipts sv' = sv_receipts sv ∧ sv_ledger sv' = sv_ledger sv ∧
    (sv_generator sv' = sv_generator sv ∨
     sv_generator sv' = (RotateKeyFile seed stamp ff (sv_oracleKeyPath sv) (sv_generator sv) fs).1.1)
  | _ => framed sv sv' (shown x) ∧ fs' = fs ∧ match q with ReqSettle _ _ => True | _ => sv_ledger sv' = sv_ledger sv end
  end.
Proof.
  intros Heng. destruct q as [e body|e body|e body|f a b|e header seed stamp ff]; cbn [handler].
  - destruct (handleCheck e body sv) as [sv1 y] eqn:Hh. apply handleCheck_framed in Hh as [? ?]. by intros [= <- <- <-].
  - destruct (handleSettle e body sv) as [sv1 y] eqn:Hh. apply handleSettle_framed in Hh; [|done]. by intros [= <- <- <-].
  - destruct (handleFilterPaths e body sv) as [sv1 y] eqn:Hh. intros [= <- <- _]. revert Hh. unfold handleFilterPaths, fail.
    destruct body as [req| |]; [|intros [= <- _]; auto with service..].
    destruct (sv_filters sv !! _); intros [= <- _]; auto with service.
  - destruct (handleVerifyChain f a b sv) as [sv1 y] eqn:Hh. intros [= <- <- _].
    apply handleVerifyChain_state in Hh as ->. auto with service.
  - unfold handleRotateKey. destruct (negb _); [intros [= <- <- _]; auto|]. case_bool_decide; [intros [= <- <- _]; auto|].
    destruct (store_Last _ _); [|intros [= <- <- _]; auto..].
    destruct (RotateKeyFile _ _ _ _ _ _) as [[g f'] []]; intros [= <- <- _]; auto.
Qed.

(** ** The invariant along requests *)
Context `{!StoreLaws S, !Ed25519Laws}.

Lemma recovered_state sv x : (recovered (S := S) (V := V) (sv, x)).1 = sv.
Proof. by destruct x. Qed.


Lemma handleCheck_ok e body sv sv' x l : server_ok sv l → handleCheck e body sv = (sv', x) → ∃ ls, server_ok sv' (l ++ ls).
Proof.
  intros Hok. assert (server_ok sv (l ++ [])) as Hok0 by (by rewrite app_nil_r).
  assert (∀ ev, server_ok (set_audit ev sv) (l ++ [])) as Hev by (intros; by apply audit_ok).
  unfold handleCheck, fail. destruct body as [req| |]; [|intros [= <- _]; eauto..].
  cbv zeta. destruct (negb _ && _); [intros [= <- _]; eauto|].
  destruct (sv_checkers sv !! _) as [c|] eqn:Hc; [|intros [= <- _]; eauto].
  destruct (BuildSCIONPath _ _) as [path| |] eqn:Hb; [|intros [= <- _]; eauto..].
  destruct (server_check sv l _ _ _ _ _ (e_clk e 0) (e_clk e 1) (e_clk e 2) Hok Hc Hb) as (r & -> & _).
  rewrite set_checker_id by done. unfold check_outcome, fail. destruct (ck_Compliant r).
  - destruct (IssueAndAppend _ _ _ _ _ _ _ _) as [[g s] y] eqn:Hi.
    destruct (server_issue _ _ _ _ _ _ _ _ _ _ _ Hok Hi) as [Hk [(Hy & -> & _)|(rc & -> & Hrep & _)]].
    + assert (server_ok (set_issue g (sv_receipts sv) sv) (l ++ [])) as Hok1 by (destruct Hok0; by constructor).
      destruct y as [?|err|]; [done|..]; intros [= <- _]; exists []; by rewrite ?audit_ok, ?persist_audit_ok.
    + intros [= <- _]. exists [rc]. rewrite audit_ok. destruct Hok; by constructor.
  - destruct (server_record (e_fault e 1) (e_uuid e 1) (e_clk e 3) (if bool_decide (cq_TransactionID req = "")
      then e_uuid e 0 else cq_TransactionID req) (cq_PolicyID req) (ck_ViolatedClause r) path (ck_OffendingHops r) sv l Hok)
      as (d & -> & Hd & _).
    intros [= <- _]. exists []. rewrite audit_ok. destruct Hok0; by constructor.
Qed.

(** The seeds of rotations have the size of a seed. *)
Definition seed_ok (q : request) : Prop :=
  match q with ReqRotate _ _ (Ok seed) _ _ => len seed = SeedSize | _ => True end.

Lemma RotateKeyFile_keys (seed : res string bytes) stamp ff path g fs : (∀ s, seed = Ok s → len s = SeedSize) → keys_ok g →
  let g' := (RotateKeyFile seed stamp ff path g fs).1.1 in keys_ok g' ∧ g_seqNo g' = g_seqNo g.
Proof.
  intros Hs Hk. destruct seed as [s| |]; [|done..].
  destruct (RotateKeyFile_gen s stamp ff path g fs) as [->| ->]; [done|]. split; [|done]. split; [|done].
  by apply ed_from_seed_length, Hs.
Qed.

Lemma handler_ok q sv fs sv' fs' x l : server_ok sv l → seed_ok q → handler q (sv, fs) = (sv', fs', x) →
  ∃ ls, server_ok sv' (l ++ ls).
Proof.
  intros Hok Hseed. assert (server_ok sv (l ++ [])) as Hok0 by (by rewrite app_nil_r).
  destruct q as [e body|e body|e body|f a b|e header seed stamp ff]; cbn [handler].
  - destruct (handleCheck e body sv) as [sv1 y] eqn:Hh. intros [= <- _ _]. by eapply handleCheck_ok.
  - destruct (handleSettle e body sv) as [sv1 y] eqn:Hh. intros [= <- _ _].
    destruct body as [req| |]; [by apply (settle_any e req sv sv1 l y)|..]; injection Hh as <- _; exists []; by rewrite ?audit_ok.
  - unfold handleFilterPaths, fail. destruct body as [req| |]; [|intros [= <- _ _]; exists []; by rewrite ?audit_ok..].
    destruct (sv_filters sv !! _); intros [= <- _ _]; exists []; by rewrite audit_ok.
  - destruct (handleVerifyChain f a b sv) as [sv1 y] eqn:Hh. intros [= <- _ _]. exists [].
    by apply handleVerifyChain_state in Hh as ->.
  - assert (∀ s, seed = Ok s → len s = SeedSize) as Hs by (by intros s ->).
    destruct (RotateKeyFile_keys seed stamp ff (sv_oracleKeyPath sv) (sv_generator sv) fs Hs (so_keys sv l Hok)) as [Hk _].
    unfold handleRotateKey. destruct (negb _); [intros [= <- _ _]; eauto|]. case_bool_decide; [intros [= <- _ _]; eauto|].
    destruct (store_Last _ _); [|intros [= <- _ _]; eauto..].
    destruct (RotateKeyFile _ _ _ _ _ _) as [[g f'] []]; intros [= <- _ _]; exists []; rewrite ?audit_ok; destruct Hok0; by constructor.
Qed.

(** *** The bank along requests *)

(** One transaction the service settled: the request it comes from, the policy it
    was checked against, and the path. *)
Definition settled_by (sv : srv) (qs : list request) (tx : Transaction) : Prop :=
  ∃ e req p path, ReqSettle e (Ok req) ∈ qs ∧ p ∈ sv_policies sv ∧ pol_ID p = sq_PolicyID req ∧
    BuildSCIONPath (sv_extractor sv) (default "" (sq_RawPath req)) = Ok path ∧ compliant p path ∧
    tx = settle_tx req (settle_id e req) (canonicalSettleRequestDigest req (settle_id e req)) path.

Lemma handler_bank q sv fs sv' fs' x l : server_ok sv l → handler q (sv, fs) = (sv', fs', x) →
  abs (sv_ledger sv') = abs (sv_ledger sv) ∨
  ∃ tx, settled_by sv [q] tx ∧ (tx_ID tx ∉ seen (sv_ledger sv)) ∧ bank_error tx (accounts (abs (sv_ledger sv))) = None ∧
    abs (sv_ledger sv') = mkBank (pay tx (accounts (abs (sv_ledger sv)))) ({[tx_ID tx]} ∪ seen (sv_ledger sv)).
Proof.
  intros Hok Hh. pose proof (handler_framed q sv fs sv' fs' x (so_engine sv l Hok) Hh) as Hf.
  destruct q as [e body|e body|e body|f a b|e header seed stamp ff]; try (left; destruct_and! Hf; congruence).
  cbn [handler] in Hh. destruct (handleSettle e body sv) as [sv1 y] eqn:Hs. injection Hh as <- _ _.
  destruct body as [req| |]; [|left; injection Hs as <- _; done..].
  destruct (settle_any e req sv sv1 l y Hok Hs) as [_ [?|(c & path & Hc & Hid & Hb & Hcomp & Hns & He & Hab)]]; [by left|].
  right. exists (settle_tx req (settle_id e req) (canonicalSettleRequestDigest req (settle_id e req)) path).
  split; [|by split_and!].
  exists e, req, (c_policy c), path. destruct (so_checkers sv l Hok _ c Hc) as (_ & Hp & _).
  split; [by left|]. by split_and!.
Qed.

(** *** Money *)
Lemma msum_fmap {W} (g : W → gmap string Z) (f : gmap string Z → Z) (m : gmap string W) : msum f (g <$> m) = msum (λ v, f (g v)) m.
Proof.
  induction m as [|k v m Hk IH] using map_ind; [by rewrite fmap_empty, !msum_empty|].
  rewrite fmap_insert, !msum_insert_None, IH by (done || by rewrite lookup_fmap, Hk). done.
Qed.

Lemma msum_alter (f : gmap string Z → Z) (h : gmap string Z → gmap string Z) (m : gmap string (gmap string Z)) k v :
  m !! k = Some v → msum f (alter h k m) = msum f m - f v + f (h v).
Proof.
  intros Hk. replace (alter h k m) with (<[k := h v]> m); [by apply msum_insert_Some|].
  apply map_eq. intros j. destruct (decide (k = j)) as [<-|Hj].
  - by rewrite lookup_insert_eq, lookup_alter_eq, Hk.
  - by rewrite lookup_insert_ne, lookup_alter_ne by done.
Qed.

Definition money (cur : string) (b : gmap string (gmap string Z)) : Z := msum (λ m, default 0 (m !! cur)) b.

Lemma money_total cur (l : Ledger) : total cur (validators l) = money cur (accounts (abs l)).
Proof. unfold money. cbn [abs accounts]. by rewrite msum_fmap. Qed.

Lemma money_pay cur tx b : bank_error tx b = None → money cur (pay tx b) = money cur b.
Proof.
  unfold bank_error, money, pay. case_decide as Hf; [|done]. case_decide as Ht; [|done]. intros _.
  apply elem_of_dom in Hf as [m Hm]. set (credit amt (m : gmap string Z) := <[tx_Currency tx := default 0 (m !! tx_Currency tx) + amt]> m).
  assert (∀ a m, default 0 (credit a m !! cur) = default 0 (m !! cur) + (if decide (tx_Currency tx = cur) then a else 0)) as Hc.
  { intros a m'. unfold credit. case_decide as Hcur; [subst; by rewrite lookup_insert_eq|].
    rewrite lookup_insert_ne by done. lia. }
  apply elem_of_dom in Ht. assert (is_Some (alter (credit (- tx_Amount tx)) (tx_From tx) b !! tx_To tx)) as [m' Hm']
    by (by apply lookup_alter_is_Some).
  change (msum (λ m, default 0 (m !! cur)) (alter (credit (tx_Amount tx)) (tx_To tx) (alter (credit (- tx_Amount tx)) (tx_From tx) b)) =
    msum (λ m, default 0 (m !! cur)) b).
  rewrite (msum_alter _ _ _ _ _ Hm'), (msum_alter _ _ _ _ _ Hm), !Hc. case_decide; lia.
Qed.

(** The bank after a sequence of requests. *)
Lemma settled_by_weaken sv sv' qs qs' tx : config_of sv' = config_of sv → qs ⊆ qs' → settled_by sv' qs tx → settled_by sv qs' tx.
Proof.
  intros Hcfg Hsub (e & req & p & path & Hin & ? & ? & ? & ? & ->). injection Hcfg as Hpol _ Hext _ _ _ _.
  exists e, req, p, path. rewrite <- Hpol, <- Hext. split_and!; [by apply Hsub|done..].
Qed.

Lemma handler_config q sv fs sv' fs' x l : server_ok sv l → handler q (sv, fs) = (sv', fs', x) → config_of sv' = config_of sv.
Proof. intros Hok Hh. apply handler_framed in Hh; [|apply (so_engine sv l Hok)]. destruct q; destruct_and! Hh; by try match goal with H : framed _ _ _ |- _ => apply H end. Qed.

Lemma serve_handler q st sv fs r : serve q st = (sv, fs, r) → ∃ x, handler q st = (sv, fs, x).
Proof. unfold serve. destruct (handler q st) as [[sv1 fs1] x]. exists x. destruct x; simpl in *; congruence. Qed.

Lemma service_bank qs : ∀ sv fs sv' fs' rs l, server_ok sv l → Forall seed_ok qs → serve_all qs (sv, fs) = (sv', fs', rs) →
  config_of sv' = config_of sv ∧ (∃ ls, server_ok sv' (l ++ ls)) ∧
  (∀ cur, money cur (accounts (abs (sv_ledger sv'))) = money cur (accounts (abs (sv_ledger sv)))) ∧
  ∃ txs, accounts (abs (sv_ledger sv')) = foldl (λ b tx, pay tx b) (accounts (abs (sv_ledger sv))) txs ∧
    NoDup (tx_ID <$> txs) ∧ (∀ tx, tx ∈ txs → (tx_ID tx ∉ seen (sv_ledger sv)) ∧ settled_by sv qs tx).
Proof.
  induction qs as [|q qs IH]; intros sv fs sv' fs' rs l Hok Hseeds Hall; cbn [serve_all] in Hall.
  { injection Hall as <- _ _. split; [done|]. split; [exists []; by rewrite app_nil_r|]. split; [done|].
    exists []. split_and!; [done|constructor|by intros ? []%not_elem_of_nil]. }
  destruct (serve q (sv, fs)) as [[sv1 fs1] r] eqn:Hq. apply serve_handler in Hq as [x Hq].
  destruct (serve_all qs (sv1, fs1)) as [[sv2 fs2] rs2] eqn:Hrest. injection Hall as <- <- _.
  apply Forall_cons in Hseeds as [Hseed Hseeds].
  destruct (handler_ok q sv fs sv1 fs1 x l Hok Hseed Hq) as [l1 Hok1]. pose proof (handler_config _ _ _ _ _ _ _ Hok Hq) as Hcfg.
  destruct (IH sv1 fs1 sv2 fs2 rs2 (l ++ l1) Hok1 Hseeds Hrest) as (Hcfg2 & [l2 Hok2] & Hm & txs & Hacc & Hnd & Htxs).
  split; [congruence|]. split; [exists (l1 ++ l2); by rewrite app_assoc|].
  assert (∀ tx, settled_by sv1 qs tx → settled_by sv (q :: qs) tx) as Hw.
  { intros tx. apply settled_by_weaken; [done|]. intros y ?. by right. }
  destruct (handler_bank q sv fs sv1 fs1 x l Hok Hq) as [Hab|(tx & Hby & Hns & He & Hab)].
  - assert (seen (sv_ledger sv1) = seen (sv_ledger sv)) as Hseen by apply (f_equal used Hab). rewrite Hab in *.
    split; [done|]. exists txs. split_and!; try done. intros tx Htx. destruct (Htxs tx Htx). rewrite <- Hseen. auto.
  - assert (seen (sv_ledger sv1) = {[tx_ID tx]} ∪ seen (sv_ledger sv)) as Hseen by apply (f_equal used Hab). rewrite Hab in *.
    split; [intros cur; rewrite Hm; by apply money_pay|]. exists (tx :: txs). split_and!; [done|..].
    + rewrite fmap_cons. apply NoDup_cons. split; [|done]. intros Hin. apply list_elem_of_fmap in Hin as (tx' & Heq & Hin).
      destruct (Htxs tx' Hin) as [Hn _]. rewrite Hseen, <- Heq in Hn. set_solver.
    + intros tx' [->|Hin]%elem_of_cons.
      * split; [done|]. eapply settled_by_weaken; [reflexivity| |exact Hby]. intros y Hy%list_elem_of_singleton. subst. by left.
      * destruct (Htxs tx' Hin) as [Hn Hb]. split; [|auto]. rewrite Hseen in Hn. set_solver.
Qed.

(** *** The chain along requests *)

(** A rotation goes to a key that [rv] trusts. *)
Definition seed_trusted (rv : ReceiptValidator) (q : request) : Prop :=
  match q with ReqRotate _ _ (Ok seed) _ _ => isTrustedKey rv (ed_public (ed_from_seed seed)) = true | _ => True end.

(** Bounds of the query come from [ParseUint]. *)
Definition bounds_ok (q : request) : Prop :=
  match q with ReqVerifyChain _ (Some (Some a)) _ => is_u64 a | _ => True end.






(** ** Properties *)

(** C2. Whatever is asked of the service, money is moved once, by the book.  After
    any sequence of requests, in any order and with any faults, retries and
    panics included, the server is in a good state and has lost no receipt; the
    accounts are those at the start after a list of payments, each under an
    identifier of its own that was unused before, each for a settlement request of
    the sequence, and each along a path that complies with the policy of that
    request; and the sum of every currency is what it was. *)
Theorem service_settles_by_the_book (qs : list request) (sv sv' : srv) (fs fs' : files) (rs : list (request * response))
    (l : list receipt) :
  server_ok sv l → Forall seed_ok qs → serve_all qs (sv, fs) = (sv', fs', rs) →
  (∃ ls, server_ok sv' (l ++ ls)) ∧
  (∀ cur, total cur (validators (sv_ledger sv')) = total cur (validators (sv_ledger sv))) ∧
  ∃ txs, accounts (abs (sv_ledger sv')) = foldl (λ b tx, pay tx b) (accounts (abs (sv_ledger sv))) txs ∧
    NoDup (tx_ID <$> txs) ∧ (∀ tx, tx ∈ txs → (tx_ID tx ∉ seen (sv_ledger sv)) ∧ settled_by sv qs tx).
Proof.
  intros Hok Hseeds Hall. destruct (service_bank qs sv fs sv' fs' rs l Hok Hseeds Hall) as (_ & Hls & Hm & Htxs).
  split; [done|]. split; [|done]. intros cur. by rewrite !money_total, Hm.
Qed.

End Service.

(** ** Witnesses *)
Module DemoService.
Import Toy DemoReceipt DemoApi.

(** A settlement, its retry, one along a path that does not comply, a rotation of
    the key, a check, and a look at the chain. *)
Definition env_n (n : nat) : env :=
  mkEnv (λ i, "id-" +:+ pretty n +:+ "-" +:+ pretty i) (λ i, t0 + Z.of_nat n) (λ _, NoFault) "" (λ _, "error").
Definition demo_requests : list request :=
  [ReqSettle (env_n 1) (Ok (settle_req 100 "ch")); ReqSettle (env_n 2) (Ok (settle_req 100 "ch"));
   ReqSettle (env_n 3) (Ok (mkSettleReq "tx-2" "CH" "EU" 50 "CHF" (pol_ID swiss_policy) (Some "mixed")));
   ReqRotate (env_n 4) "adm" (Ok seed2) stamp no_faults;
   ReqCheck (env_n 5) (Ok (mkCheckReq "tx-3" (pol_ID swiss_policy) "ch")); ReqVerifyChain NoFault None None].
Definition demo_run := serve_all demo_requests (server0, key_files).

Definition rv1 : ReceiptValidator := TrustOracleKey (ed_public (ed_from_seed seed2))
  (TrustOracleKey (g_publicKey gen1) (NewReceiptValidator (30 * second))).


Lemma demo_seeds_ok : Forall (λ q, seed_ok q ∧ seed_trusted rv1 q ∧ bounds_ok q) demo_requests.
Proof. repeat apply Forall_cons_2; [..|apply Forall_nil_2]; (split; [reflexivity || exact I|split; [vm_compute; reflexivity || exact I|exact I]]). Qed.

Lemma service_settles_by_the_book_witness :
  GetBalance "EU" "CHF" (sv_ledger demo_run.1.1) = 5100 ∧
  total "CHF" (validators (sv_ledger demo_run.1.1)) = total "CHF" (validators (sv_ledger server0)) ∧
  ∃ txs, accounts (abs (sv_ledger demo_run.1.1)) = foldl (λ b tx, pay tx b) (accounts (abs (sv_ledger server0))) txs ∧
    NoDup (tx_ID <$> txs).
Proof.
  split; [vm_compute; reflexivity|].
  destruct (service_settles_by_the_book demo_requests server0 demo_run.1.1 key_files demo_run.1.2 demo_run.2 [] server0_ok)
    as (_ & Ht & txs & Ha & Hnd & _).
  - eapply Forall_impl; [exact demo_seeds_ok|]. intros q Hq. apply Hq.
  - unfold demo_run. destruct (serve_all _ _) as [[a b] c]. reflexivity.
  - split; [apply Ht|]. exists txs. split; [exact Ha|exact Hnd].
Defined.


End DemoService.
