(* ===== verification/Interleaving.v ===== *)
(** * Settlements beside each other

    [net/http] runs every request in a goroutine of its own.  This file splits
    [handleSettle] of [src/internal/api/server.go] into the steps between which
    other goroutines can run: each step touches the shared state under one mutex
    (that of the ledger, of a store, of the generator or of the detector), and the
    mutexes that are held over several steps, [ConsensusEngine.mu] and
    [Server.receiptMu], are held exactly at the points marked by [holds_engine]
    and [holds_receipts].  Recording a violation is one step ([Violation] has its
    interleavings).  The other handlers appear as their effects on the shared
    state, at any time. *)

From S2P Require Import Prelude GoJson Sha256 Model Replay Policy PathCheck Scion Bolt.
From S2P Require Import ReceiptStore Receipt Validator Violation Ledger Consensus Api Service.

(** ** Points of the program *)

(** Who called [ensureSettlementReceipt]: step 3 of [handleSettle] with the
    result of the round, or [handleExistingSettlement]. *)
Inductive caller :=
| NewSettlement (req : SettleRequest) (result : ConsensusResult)
| Retry.

(** The arguments of [ensureSettlementReceipt]. *)
Record job := mkJob {
  j_txID : string;
  j_policyID : string;
  j_rawPath : bytes;
  j_path : option SCIONPath;
  j_caller : caller
}.

(** What the goroutine does next. *)
Inductive pc :=
| PStart
| PCheck (req : SettleRequest)
| PViolation (req : SettleRequest) (path : SCIONPath) (result : CheckResult)
| PSubmit (req : SettleRequest) (path : SCIONPath)
| PPropose (req : SettleRequest) (path : SCIONPath)
| PVote (req : SettleRequest) (path : SCIONPath) (proposal : ConsensusMessage) (i : nat) (vals : list ValidatorState) (yes : Z)
| PCleanup (req : SettleRequest) (path : SCIONPath) (result : ConsensusResult) (err : res ledger_err unit)
| PEnsure (j : job)
| PLoad (j : job) (tx : Transaction)
| PLock (j : job)
| PReload (j : job) (tx : Transaction)
| PIssue (j : job) (tx : Transaction)
| PAttach (j : job) (r : receipt)
| PPersist (j : job) (err : gen_err)
| PReply (ev : audit_event) (resp : response)
| PDone (resp : response).

(** [SubmitAndRunRound] holds the mutex of the engine from its first to its last
    step, [ensureSettlementReceipt] that of the receipts from the second lookup to
    its return. *)
Definition takes_engine (c : pc) : bool := match c with PSubmit _ _ => true | _ => false end.
Definition holds_engine (c : pc) : bool :=
  match c with PPropose _ _ | PVote _ _ _ _ _ _ | PCleanup _ _ _ _ => true | _ => false end.
Definition takes_receipts (c : pc) : bool := match c with PLock _ => true | _ => false end.
Definition holds_receipts (c : pc) : bool :=
  match c with PReload _ _ | PIssue _ _ | PAttach _ _ | PPersist _ _ => true | _ => false end.

Definition is_done (c : pc) : bool := match c with PDone _ => true | _ => false end.

Section Threads.
Context {S V : Type} `{!Store S, !ViolationStore V, !Ed25519}.
Abbreviation srv := (Server S V).

(** [recoveryMiddleware]; deferred unlocks release what is held. *)
Definition panicked : pc := PDone (RError 500 "INTERNAL_ERROR").

Definition settle_error (details : list (string * json)) (status : Z) (code : string) : pc :=
  PReply (mkEvent "settle" details) (RError status code).

(** ** [ensureSettlementReceipt] *)

(** The first half of [settled_tx], under the mutex of the ledger, and the rest of
    it, under that of the store. *)
Definition lookup_settled (txID : string) (sv : srv) : res string Transaction :=
  match GetTransaction txID (sv_ledger sv) with
  | None => Err "SETTLEMENT_RECEIPT_FAILED"
  | Some tx => if negb (bool_decide (tx_Status tx = TxConfirmed)) then Err "SETTLEMENT_RECEIPT_FAILED" else Ok tx
  end.

Definition load_settled (f : fault) (tx : Transaction) (sv : srv) : res string (receipt + Transaction) :=
  r ← loadLedgerReceipt f tx sv;
  match r with
  | Some r => Ok (inl r)
  | None =>
    if bool_decide (tx_RequestDigest tx = "") && bool_decide (tx_PathFingerprint tx = "")
    then Err "SETTLEMENT_RECEIPT_MISSING" else Ok (inr tx)
  end.

(** What its callers do with the outcome. *)
Definition ensured (e : env) (j : job) (x : res string receipt) : pc :=
  match j_caller j, x with
  | _, Panic => panicked
  | Retry, Err code =>
    PReply (existing_failed e (j_txID j) code)
      (writeSettlementReceiptFailure (j_txID j) (Some (confirmedConsensus (j_txID j))) code true)
  | Retry, Ok r =>
    PReply (existing_settled (j_txID j))
      (RSettle 200 (mkSR (Some (confirmedConsensus (j_txID j))) (Some (mkPR true (Some r) None)) (Some true) true ""))
  | NewSettlement req result, Err code =>
    PReply (mkEvent "settle" [("tx_id", JStr (j_txID j)); ("policy_id", JStr (sq_PolicyID req)); ("outcome", JStr "error");
              ("code", JStr code); ("error", JStr (e_msg e 0))])
      (writeSettlementReceiptFailure (j_txID j) (Some result) code false)
  | NewSettlement req result, Ok r =>
    PReply (mkEvent "settle" [("tx_id", JStr (j_txID j)); ("policy_id", JStr (sq_PolicyID req)); ("compliant", JBool true);
              ("outcome", JStr "settled"); ("consensus_confirmed", JBool true); ("receipt_id", JStr (r_ID r));
              ("from", JStr (sq_From req)); ("to", JStr (sq_To req)); ("amount", JNum (sq_Amount req));
              ("currency", JStr (sq_Currency req))])
      (RSettle 200 (mkSR (Some result) (Some (mkPR true (Some r) None)) (Some true) false ""))
  end.

(** [handleExistingSettlement] up to [ensureSettlementReceipt]: it works on the
    clone it was given and on what never changes. *)
Definition existing_next (e : env) (existing : Transaction) (req : SettleRequest) (requestDigest : string)
    (path : option SCIONPath) (sv : srv) : pc :=
  let txID := tx_ID existing in
  if negb (settleRequestMatchesTransaction existing req requestDigest) then
    settle_error [("tx_id", JStr txID); ("outcome", JStr "error"); ("code", JStr "TX_CONFLICT")] 409 "TX_CONFLICT"
  else match validateLegacySettlementPath existing req path sv with
       | Err code =>
         settle_error [("tx_id", JStr txID); ("outcome", JStr "error"); ("code", JStr code); ("error", JStr (e_msg e 0))]
           (if bool_decide (code = "TX_CONFLICT") then 409 else 400) code
       | Panic => panicked
       | Ok path =>
         if bool_decide (tx_Status existing = TxConfirmed) then
           PEnsure (mkJob txID (receiptPolicyID (Some existing) (sq_PolicyID req)) (default "" (sq_RawPath req)) path Retry)
         else if bool_decide (tx_Status existing = TxPending) then
           settle_error [("tx_id", JStr txID); ("outcome", JStr "error"); ("code", JStr "TX_PENDING")] 409 "TX_PENDING"
         else
           settle_error [("tx_id", JStr txID); ("outcome", JStr "error"); ("code", JStr "DUPLICATE_TX")] 409 "DUPLICATE_TX"
       end.

(** After [SubmitAndRunRound] has run a round. *)
Definition round_done (e : env) (req : SettleRequest) (path : SCIONPath) (result : ConsensusResult)
    (err : res ledger_err unit) : pc :=
  let txID := settle_id e req in
  if negb (is_ok err) || negb (cr_Confirmed result) then
    PReply (mkEvent "settle" [("tx_id", JStr txID); ("policy_id", JStr (sq_PolicyID req)); ("compliant", JBool true);
              ("outcome", JStr "consensus_rejected"); ("from", JStr (sq_From req)); ("to", JStr (sq_To req));
              ("amount", JNum (sq_Amount req)); ("currency", JStr (sq_Currency req))])
      (RSettle 200 (mkSR (Some result) None None false ""))
  else PEnsure (mkJob txID (sq_PolicyID req) (default "" (sq_RawPath req)) (Some path) (NewSettlement req result)).

(** ** One step *)

(** Up to the first lookup in the ledger. *)
Definition step_start (e : env) (body : res string SettleRequest) (sv : srv) : pc :=
  match body with
  | Err _ => settle_error [("outcome", JStr "error"); ("code", JStr "INVALID_REQUEST"); ("error", JStr (e_msg e 0))]
               400 "INVALID_REQUEST"
  | Panic => panicked
  | Ok req =>
    if bool_decide (sq_From req = "") || bool_decide (sq_To req = "") || (sq_Amount req <=? 0) ||
       bool_decide (sq_Currency req = "") then
      settle_error [("outcome", JStr "error"); ("code", JStr "INVALID_REQUEST"); ("from", JStr (sq_From req));
                    ("to", JStr (sq_To req))] 400 "INVALID_REQUEST"
    else if bool_decide (sq_PolicyID req = "") then
      settle_error [("outcome", JStr "error"); ("code", JStr "POLICY_REQUIRED"); ("from", JStr (sq_From req));
                    ("to", JStr (sq_To req))] 400 "POLICY_REQUIRED"
    else if bool_decide (sq_RawPath req = None) then
      settle_error [("outcome", JStr "error"); ("code", JStr "PATH_REQUIRED"); ("from", JStr (sq_From req));
                    ("to", JStr (sq_To req)); ("policy_id", JStr (sq_PolicyID req))] 400 "PATH_REQUIRED"
    else
      let txID := settle_id e req in
      match GetTransaction txID (sv_ledger sv) with
      | Some existing => existing_next e existing req (canonicalSettleRequestDigest req txID) None sv
      | None => PCheck req
      end
  end.

(** Step 1 of the handler. *)
Definition step_check (e : env) (req : SettleRequest) (sv : srv) : srv * pc :=
  match sv_checkers sv !! sq_PolicyID req with
  | None => (sv, settle_error [("outcome", JStr "error"); ("code", JStr "UNKNOWN_POLICY"); ("policy_id", JStr (sq_PolicyID req));
                               ("from", JStr (sq_From req)); ("to", JStr (sq_To req))] 400 "UNKNOWN_POLICY")
  | Some checker =>
    match BuildSCIONPath (sv_extractor sv) (default "" (sq_RawPath req)) with
    | Err _ => (sv, settle_error [("outcome", JStr "error"); ("code", JStr "INVALID_REQUEST");
                                  ("policy_id", JStr (sq_PolicyID req)); ("error", JStr (e_msg e 0))] 400 "INVALID_REQUEST")
    | Panic => (sv, panicked)
    | Ok path =>
      match PathCheck.Check (e_clk e 0) (e_clk e 1) (e_clk e 2) path checker with
      | (c, Err _) => (set_checker (sq_PolicyID req) c sv,
          settle_error [("outcome", JStr "error"); ("code", JStr "INTERNAL_ERROR"); ("policy_id", JStr (sq_PolicyID req));
                        ("error", JStr (e_msg e 0))] 500 "INTERNAL_ERROR")
      | (c, Panic) => (set_checker (sq_PolicyID req) c sv, panicked)
      | (c, Ok result) => (set_checker (sq_PolicyID req) c sv,
          if negb (ck_Compliant result) then PViolation req path result else PSubmit req path)
      end
    end
  end.

Definition step_violation (e : env) (req : SettleRequest) (path : SCIONPath) (result : CheckResult) (sv : srv) : srv * pc :=
  let txID := settle_id e req in
  match RecordViolation (e_fault e 1) (e_uuid e 1) (e_clk e 3) txID (sq_PolicyID req)
          (ck_ViolatedClause result) path (ck_OffendingHops result) (sv_detector sv) with
  | Ok (d, v) => (set_detector d sv,
      PReply (mkEvent "settle" [("tx_id", JStr txID); ("policy_id", JStr (sq_PolicyID req)); ("compliant", JBool false);
                ("outcome", JStr "non_compliant"); ("violation_id", JStr (Violation.v_ID v))])
        (RSettle 422 (mkSR None (Some (mkPR false None (Some v))) None false "")))
  | Err _ | Panic => (sv, panicked)
  end.

(** The transaction is allocated, the engine locked, and the transaction
    submitted. *)
Definition step_submit (e : env) (req : SettleRequest) (path : SCIONPath) (sv : srv) : srv * pc :=
  let txID := settle_id e req in
  let requestDigest := canonicalSettleRequestDigest req txID in
  let '(l1, p) := new_tx (settle_tx req txID requestDigest path) (sv_ledger sv) in
  match SubmitTransactionIfAbsent (e_clk e 10) p l1 with
  | (l2, Panic) => (set_ledger l2 sv, panicked)
  | (l2, Err _) => (set_ledger l2 sv, settle_error (submit_failed e txID) 400 "INVALID_REQUEST")
  | (l2, Ok (Some existing)) => (set_ledger l2 sv, existing_next e existing req requestDigest (Some path) sv)
  | (l2, Ok None) => (set_ledger l2 sv, PPropose req path)
  end.

Definition step_propose (e : env) (req : SettleRequest) (path : SCIONPath) (sv : srv) : srv * pc :=
  let txID := settle_id e req in
  match sv_validators sv with
  | [] => (sv, PCleanup req path (mkCR false 0 0 txID) (Err NoValidatorsConfigured))
  | v0 :: _ =>
    match ProposeBlock (e_clk e 11) (e_first e) (v_ID v0) (sv_ledger sv) with
    | (l, Panic) => (set_ledger l sv, panicked)
    | (l, Err err) => (set_ledger l sv, PCleanup req path (mkCR false 0 0 txID) (Err err))
    | (l, Ok proposal) => (set_ledger l sv, PVote req path proposal 1 (sv_validators sv) 0)
    end
  end.

(** One vote, or, when all have been counted, the commit. *)
Definition step_vote (e : env) (req : SettleRequest) (path : SCIONPath) (proposal : ConsensusMessage) (i : nat)
    (vals : list ValidatorState) (yes : Z) (sv : srv) : srv * pc :=
  let txID := settle_id e req in
  match vals with
  | v :: vals' =>
    match Vote (e_clk e (11 + i)%nat) (ballot_for (v_ID v) proposal) (sv_ledger sv) with
    | Panic => (sv, panicked)
    | Err _ => (sv, PVote req path proposal (Datatypes.S i) vals' yes)
    | Ok vote => (sv, PVote req path proposal (Datatypes.S i) vals'
                        (if bool_decide (m_Payload vote = "yes") then yes + 1 else yes))
    end
  | [] =>
    let majority := Z.of_nat (length (sv_validators sv)) `quot` 2 + 1 in
    if majority <=? yes then
      let proposer := from_option v_ID "" (head (sv_validators sv)) in
      match Commit (mkMsg MsgCommit txID proposer (m_Round proposal) "" zero_time) (sv_ledger sv) with
      | (l, Panic) => (set_ledger l sv, panicked)
      | (l, Err err) => (set_ledger l sv, PCleanup req path (mkCR false (m_Round proposal) yes txID) (Err err))
      | (l, Ok _) => (set_ledger l sv, round_done e req path (mkCR true (m_Round proposal) yes txID) (Ok tt))
      end
    else (sv, PCleanup req path (mkCR false (m_Round proposal) yes txID) (Ok tt))
  end.

(** The receipt is issued and stored under the mutex of the generator. *)
Definition step_issue (e : env) (j : job) (tx : Transaction) (sv : srv) : srv * pc :=
  match (match j_path j with Some p => Ok p | None => BuildSCIONPath (sv_extractor sv) (j_rawPath j) end) with
  | Err _ => (sv, ensured e j (Err "SETTLEMENT_RECEIPT_FAILED"))
  | Panic => (sv, panicked)
  | Ok path =>
    if negb (bool_decide (tx_PathFingerprint tx = "")) && negb (bool_decide (path_Fingerprint path = tx_PathFingerprint tx))
    then (sv, ensured e j (Err "SETTLEMENT_RECEIPT_FAILED"))
    else
      match IssueAndAppend (e_fault e 4) (e_uuid e 2) (e_clk e 4) (j_txID j) (j_policyID j) path
              (sv_generator sv) (sv_receipts sv) with
      | (g, s, Err err) => (set_issue g s sv, PPersist j err)
      | (g, s, Panic) => (set_issue g s sv, panicked)
      | (g, s, Ok r) => (set_issue g s sv, PAttach j r)
      end
  end.

Definition step_attach (e : env) (j : job) (r : receipt) (sv : srv) : srv * pc :=
  match AttachReceipt (j_txID j) (r_ID r) (sv_ledger sv) with
  | (l, _, Ok _) => (set_ledger l sv, ensured e j (Ok r))
  | (l, _, Err _) => (set_ledger l sv, ensured e j (Err "SETTLEMENT_RECEIPT_FAILED"))
  | (l, _, Panic) => (set_ledger l sv, panicked)
  end.

Definition tstep (e : env) (body : res string SettleRequest) (c : pc) (sv : srv) : srv * pc :=
  match c with
  | PStart => (sv, step_start e body sv)
  | PCheck req => step_check e req sv
  | PViolation req path result => step_violation e req path result sv
  | PSubmit req path => step_submit e req path sv
  | PPropose req path => step_propose e req path sv
  | PVote req path proposal i vals yes => step_vote e req path proposal i vals yes sv
  | PCleanup req path result err =>
    (set_ledger (CleanupPending (settle_id e req) (sv_ledger sv)) sv, round_done e req path result err)
  | PEnsure j =>
    (sv, match lookup_settled (j_txID j) sv with
         | Ok tx => PLoad j tx | Err code => ensured e j (Err code) | Panic => panicked end)
  | PLoad j tx =>
    (sv, match load_settled (e_fault e 2) tx sv with
         | Ok (inl r) => ensured e j (Ok r) | Ok (inr _) => PLock j
         | Err code => ensured e j (Err code) | Panic => panicked end)
  | PLock j =>
    (sv, match lookup_settled (j_txID j) sv with
         | Ok tx => PReload j tx | Err code => ensured e j (Err code) | Panic => panicked end)
  | PReload j tx =>
    (sv, match load_settled (e_fault e 3) tx sv with
         | Ok (inl r) => ensured e j (Ok r) | Ok (inr tx) => PIssue j tx
         | Err code => ensured e j (Err code) | Panic => panicked end)
  | PIssue j tx => step_issue e j tx sv
  | PAttach j r => step_attach e j r sv
  | PPersist j err =>
    (audit_if_persist_failed e "settle" (j_txID j) (j_policyID j) err sv, ensured e j (Err "SETTLEMENT_RECEIPT_FAILED"))
  | PReply ev resp => (set_audit ev sv, PDone resp)
  | PDone resp => (sv, PDone resp)
  end.

(** ** Goroutines *)

(** A request being served; [th_issued] is the receipt it has put into the store. *)
Record thread := mkThread {
  th_env : env;
  th_body : res string SettleRequest;
  th_pc : pc;
  th_issued : option receipt
}.

Definition spawn (q : env * res string SettleRequest) : thread := mkThread q.1 q.2 PStart None.

Definition thread_step (t : thread) (sv : srv) : srv * thread :=
  let '(sv', c) := tstep (th_env t) (th_body t) (th_pc t) sv in
  (sv', mkThread (th_env t) (th_body t) c (match c with PAttach _ r => Some r | _ => th_issued t end)).

(** What the other handlers do to the shared state: the receipts of
    [handleCheck], its violations, key rotations, audit events. *)
Inductive other_act :=
| OtherIssue (f : fault) (id : string) (now : Z) (txID policyID : string) (path : SCIONPath)
| OtherRecord (f : fault) (id : string) (now : Z) (txID policyID : string) (violated : option (clause replay_err))
    (path : SCIONPath) (hops : list ASHop)
| OtherRotate (seed : res string bytes) (stamp : string) (ff : fs_faults) (files : gmap string bytes)
| OtherAudit (ev : audit_event).

Definition other_step (o : other_act) (sv : srv) : srv :=
  match o with
  | OtherIssue f id now txID policyID path =>
    let '(g, s, _) := IssueAndAppend f id now txID policyID path (sv_generator sv) (sv_receipts sv) in set_issue g s sv
  | OtherRecord f id now txID policyID violated path hops =>
    match RecordViolation f id now txID policyID violated path hops (sv_detector sv) with
    | Ok (d, _) => set_detector d sv
    | Err _ | Panic => sv
    end
  | OtherRotate seed stamp ff files =>
    set_issue (RotateKeyFile seed stamp ff (sv_oracleKeyPath sv) (sv_generator sv) files).1.1 (sv_receipts sv) sv
  | OtherAudit ev => set_audit ev sv
  end.

Inductive act := Run (i : nat) | Other (o : other_act).

Abbreviation conf := (srv * list thread)%type.

Definition blocked (ths : list thread) (c : pc) : bool :=
  (takes_engine c && existsb (λ t, holds_engine (th_pc t)) ths) ||
  (takes_receipts c && existsb (λ t, holds_receipts (th_pc t)) ths).

(** A goroutine that has answered or waits for a mutex does not run. *)
Definition cexec (a : act) (c : conf) : option conf :=
  let '(sv, ths) := c in
  match a with
  | Other o => Some (other_step o sv, ths)
  | Run i =>
    t ← ths !! i;
    if is_done (th_pc t) || blocked ths (th_pc t) then None
    else let '(sv', t') := thread_step t sv in Some (sv', <[i := t']> ths)
  end.

Fixpoint crun (sched : list act) (c : conf) : option conf :=
  match sched with
  | [] => Some c
  | a :: sched' => c' ← cexec a c; crun sched' c'
  end.

(** ** A goroutine on its own *)
Definition alone (e : env) (body : res string SettleRequest) (x y : srv * pc) : Prop :=
  is_done x.2 = false ∧ y = tstep e body x.2 x.1.

(** The state a handler leaves behind, and its answer given. *)
Definition answered (x : srv * res unit response) : srv * pc := ((recovered x).1, PDone (recovered x).2).

Section Alone.
Context (e : env) (body : res string SettleRequest).
Abbreviation runs := (rtc (alone e body)).

Lemma alone_l c sv y : is_done c = false → runs (tstep e body c sv) y → runs (sv, c) y.
Proof. intros Hd. by apply rtc_l. Qed.

Lemma alone_reply ev resp sv : runs (sv, PReply ev resp) (answered (set_audit ev sv, Ok resp)).
Proof. by apply alone_l. Qed.

Lemma alone_panicked sv : runs (sv, panicked) (answered (sv, Panic)).
Proof. done. Qed.
#[local] Hint Resolve alone_reply alone_panicked : juris.

Lemma settled_tx_split f txID (sv : srv) : settled_tx f txID sv = tx ← lookup_settled txID sv; load_settled f tx sv.
Proof. unfold settled_tx, lookup_settled. destruct (GetTransaction _ _); [|done]. by destruct (negb _). Qed.

Lemma lookup_settled_total txID (sv : srv) : lookup_settled txID sv ≠ Panic.
Proof. unfold lookup_settled. destruct (GetTransaction _ _); [|done]. by destruct (negb _). Qed.

(** [ensureSettlementReceipt] *)
Lemma alone_ensure j sv :
  let '(sv', x) := ensureSettlementReceipt e (j_txID j) (j_policyID j) (j_rawPath j) (j_path j) sv in
  runs (sv, PEnsure j) (sv', ensured e j x).
Proof.
  assert (ensured e j Panic = panicked) as Hp by (unfold ensured; by destruct (j_caller j)).
  unfold ensureSettlementReceipt. rewrite !settled_tx_split.
  pose proof (lookup_settled_total (j_txID j) sv) as Ht. destruct (lookup_settled (j_txID j) sv) as [tx|code|] eqn:Hl; [| |done];
    cbn [mbind res_bind]; [|apply alone_l; [done|]; cbn [tstep]; by rewrite Hl].
  destruct (load_settled (e_fault e 2) tx sv) as [[r|tx1]|code|] eqn:H1.
  1,3,4: apply alone_l; [done|]; cbn [tstep]; rewrite Hl; apply alone_l; [done|]; cbn [tstep]; by rewrite H1, ?Hp.
  destruct (load_settled (e_fault e 3) tx sv) as [[r|tx2]|code|] eqn:H2.
  1,3,4: do 2 (apply alone_l; [done|]; cbn [tstep]; rewrite ?Hl, ?H1); apply alone_l; [done|]; cbn [tstep]; rewrite Hl;
         apply alone_l; [done|]; cbn [tstep]; by rewrite H2, ?Hp.
  assert (∀ y, runs (step_issue e j tx2 sv) y → runs (sv, PEnsure j) y) as Hto.
  { intros y Hy. do 2 (apply alone_l; [done|]; cbn [tstep]; rewrite ?Hl, ?H1). apply alone_l; [done|]; cbn [tstep]; rewrite Hl.
    apply alone_l; [done|]; cbn [tstep]; rewrite H2. by apply alone_l. }
  unfold step_issue in Hto. destruct (match j_path j with Some p => _ | None => _ end) as [p| |]; [|by apply Hto|rewrite Hp; by apply Hto].
  unfold issue_for. destruct (negb _ && negb _); [by apply Hto|].
  destruct (IssueAndAppend _ _ _ _ _ _ _ _) as [[g s] [r|err|]]; [| |rewrite Hp; by apply Hto]; last first.
  { apply Hto. by apply alone_l. }
  destruct (AttachReceipt _ _ _) as [[l o] x] eqn:Ha.
  destruct x; apply Hto, alone_l; try done; cbn [tstep]; unfold step_attach; cbn [sv_ledger set_issue]; rewrite Ha, ?Hp; done.
Qed.

(** Its callers. *)
Lemma alone_existing existing req dg path sv :
  runs (sv, existing_next e existing req dg path sv) (answered (handleExistingSettlement e existing req dg path sv)).
Proof.
  unfold existing_next, handleExistingSettlement, fail, settle_error. destruct (negb _); [auto with juris|].
  destruct (validateLegacySettlementPath _ _ _ _) as [path'|code|]; [|auto with juris..].
  case_bool_decide; [|case_bool_decide; auto with juris].
  set (j := mkJob _ _ _ _ _). pose proof (alone_ensure j sv) as He. unfold j in He; cbn [j_txID j_policyID j_rawPath j_path] in He.
  destruct (ensureSettlementReceipt _ _ _ _ _ _) as [sv' x]. etrans; [exact He|].
  destruct x; cbn [ensured j_caller j_txID]; auto with juris.
Qed.

(** The votes. *)
Lemma alone_votes req path proposal vals i yes sv :
  match collect_votes (λ i, e_clk e (11 + i)%nat) i proposal vals (sv_ledger sv) yes with
  | Ok yes' => ∃ i', runs (sv, PVote req path proposal i vals yes) (sv, PVote req path proposal i' [] yes')
  | Panic => runs (sv, PVote req path proposal i vals yes) (sv, panicked)
  | Err _ => False
  end.
Proof.
  revert i yes. induction vals as [|v vals IH]; intros i yes; cbn [collect_votes]; [by eexists|].
  destruct (Vote _ _ _) as [vote|err|] eqn:Hv.
  1,2: match goal with |- context [collect_votes _ _ _ _ _ ?y] => specialize (IH (Datatypes.S i) y); destruct (collect_votes _ _ _ _ _ y) as [yes'| |] end;
       [destruct IH as [i' IH]; exists i'|done|]; (apply alone_l; [done|]); cbn [tstep step_vote]; by rewrite Hv.
  apply alone_l; [done|]. cbn [tstep step_vote]. by rewrite Hv.
Qed.

(** A whole round. *)
Lemma alone_round req path sv :
  let '(l, (result, err)) := proposeVoteCommitLocked (λ i, e_clk e (11 + i)%nat) (e_first e) (sv_validators sv)
                               (settle_id e req) (sv_ledger sv) in
  runs (sv, PPropose req path)
    (set_ledger l sv, match result, err with Some cr, _ => round_done e req path cr err | None, _ => panicked end) ∧
  (result = None ↔ err = Panic).
Proof.
  assert (set_ledger (sv_ledger sv) sv = sv) as Hid by (by destruct sv).
  unfold proposeVoteCommitLocked. change (e_clk e (11 + 0)%nat) with (e_clk e 11). destruct (sv_validators sv) as [|v0 vals'] eqn:Hvs.
  { split; [|done]. apply alone_l; [done|]. cbn [tstep]. unfold step_propose. rewrite Hvs. by apply alone_l. }
  destruct (ProposeBlock _ _ _ _) as [l1 [proposal|err|]] eqn:Hpb.
  2,3: split; [|done]; apply alone_l; [done|]; cbn [tstep]; unfold step_propose; rewrite Hvs, Hpb; first [done|by apply alone_l].
  pose proof (alone_votes req path proposal (v0 :: vals') 1 0 (set_ledger l1 sv)) as Hv. cbn [sv_ledger set_ledger] in Hv.
  assert (∀ y, runs (set_ledger l1 sv, PVote req path proposal 1 (v0 :: vals') 0) y → runs (sv, PPropose req path) y) as Hto.
  { intros y Hy. apply alone_l; [done|]. cbn [tstep]. unfold step_propose. by rewrite Hvs, Hpb. }
  destruct (collect_votes _ _ _ _ _ _) as [yes|err|]; [|done|split; [by apply Hto|done]].
  destruct Hv as [i Hv]. assert (∀ y, runs (tstep e body (PVote req path proposal i [] yes) (set_ledger l1 sv)) y →
    runs (sv, PPropose req path) y) as Hto' by (intros y Hy; apply Hto; etrans; [exact Hv|by apply alone_l]).
  cbn [tstep step_vote] in Hto'. cbn [sv_validators set_ledger sv_ledger] in Hto'. rewrite Hvs in Hto'. cbn [head from_option] in Hto'.
  destruct (_ <=? yes); [|split; [|done]; apply Hto'; by apply alone_l].
  destruct (Commit _ _) as [l2 [u|err|]]; (split; [|done]).
  - destruct u. by apply Hto'.
  - apply Hto'. by apply alone_l.
  - by apply Hto'.
Qed.

(** Steps 2 and 3. *)
Lemma alone_submit req path sv :
  runs (sv, PSubmit req path)
    (answered (settle_compliant e req (settle_id e req) (canonicalSettleRequestDigest req (settle_id e req)) path sv)).
Proof.
  apply alone_l; [done|]. cbn [tstep]. unfold step_submit, settle_compliant, SubmitAndRunRound.
  destruct (new_tx _ _) as [l1 p] eqn:Hn. injection Hn as <- <-. cbn [upd_heap heap]. rewrite lookup_insert_eq.
  change (e_clk e (10 + 0)%nat) with (e_clk e 10).
  destruct (SubmitTransactionIfAbsent _ _ _) as [l2 [[existing|]|err|]]; [| |apply alone_reply|apply alone_panicked].
  { exact (alone_existing existing req _ (Some path) (set_ledger l2 sv)). }
  pose proof (alone_round req path (set_ledger l2 sv)) as Hr. cbn [sv_validators sv_ledger set_ledger tx_ID settle_tx] in Hr |- *.
  change (λ i, e_clk e (10 + Datatypes.S i)%nat) with (λ i, e_clk e (11 + i)%nat).
  destruct (proposeVoteCommitLocked _ _ _ _ _) as [l3 [result err]]. destruct Hr as [Hr Hn].
  destruct err as [u|er|]; [| |destruct result as [cr|]; [by destruct Hn as [_ Hn]; specialize (Hn eq_refl)|exact Hr]].
  all: (destruct result as [cr|]; [|by destruct Hn as [Hn _]; specialize (Hn eq_refl)]); etrans; [exact Hr|].
  all: unfold round_done; cbn [is_ok negb orb].
  2: { apply alone_reply. }
  destruct (negb (cr_Confirmed cr)); [apply alone_reply|].
  match goal with |- context [PEnsure ?j] => pose proof (alone_ensure j (set_ledger l3 sv)) as He end.
  cbn [j_txID j_policyID j_rawPath j_path] in He.
  destruct (ensureSettlementReceipt _ _ _ _ _ _) as [sv' x]. etrans; [exact He|].
  destruct x; cbn [ensured j_caller j_txID]; auto with juris.
Qed.

(** What a goroutine does when no other runs is what [handleSettle] does. *)
Lemma alone_settles sv : runs (sv, PStart) (answered (handleSettle e body sv)).
Proof.
  apply alone_l; [done|]. cbn [tstep]. unfold step_start, handleSettle, fail, settle_error.
  destruct body as [req|err|] eqn:Hb; rewrite <- ?Hb; [|auto with juris..].
  destruct (_ || _ || _ || _); [auto with juris|]. do 2 (case_bool_decide; [auto with juris|]).
  fold (settle_id e req). cbv zeta.
  destruct (GetTransaction _ _) as [existing|]; [apply alone_existing|].
  apply alone_l; [done|]. cbn [tstep]. unfold step_check, settle_error.
  destruct (sv_checkers sv !! _) as [checker|]; [|auto with juris].
  destruct (BuildSCIONPath _ _) as [path| |]; [|auto with juris..].
  destruct (PathCheck.Check _ _ _ _ _) as [c [result| |]]; [|auto with juris..].
  destruct (negb (ck_Compliant result)); [|apply alone_submit].
  apply alone_l; [done|]. cbn [tstep]. unfold step_violation.
  destruct (RecordViolation _ _ _ _ _ _ _ _ _) as [[d v]| |]; auto with juris.
Qed.
End Alone.

(** ** What a step does to the shared state *)

(** The operations of a round after the submission. *)
Definition round_op (o : ledger_op) : bool :=
  match o with OpCleanup _ | OpPropose _ _ _ | OpCommit _ => true | _ => false end.

Definition ledger_effect (e : env) (c : pc) (l l' : Ledger) : Prop :=
  match c with
  | PAttach j r => l' = exec (OpAttach (j_txID j) (r_ID r)) l
  | PSubmit req path =>
    let t := settle_tx req (settle_id e req) (canonicalSettleRequestDigest req (settle_id e req)) path in
    l' = exec (OpSubmitIfAbsent (e_clk e 10) (new_tx t l).2) (exec (OpNew t) l)
  | _ => l' = l ∨ ∃ o, round_op o = true ∧ l' = exec o l
  end.

Lemma tstep_ledger e body c sv : ledger_effect e c (sv_ledger sv) (sv_ledger (tstep e body c sv).1).
Proof.
  destruct c as [|req|req path result|req path|req path|req path m i vals yes|req path cr err|j|j tx|j|j tx|j tx|j r|j err|ev resp|resp];
    cbn [ledger_effect tstep fst]; try (by left).
  - left. unfold step_check. destruct (sv_checkers sv !! _); [|done]. destruct (BuildSCIONPath _ _); [|done..].
    by destruct (PathCheck.Check _ _ _ _ _) as [ck [r| |]].
  - left. unfold step_violation. by destruct (RecordViolation _ _ _ _ _ _ _ _ _) as [[d v]| |].
  - unfold step_submit. cbn [exec]. destruct (new_tx _ _) as [l1 p]. cbn [fst snd].
    by destruct (SubmitTransactionIfAbsent _ _ _) as [l2 [[]| |]].
  - unfold step_propose. destruct (sv_validators sv) as [|v0 vs]; [by left|]. right. exists (OpPropose (e_clk e 11) (e_first e) (v_ID v0)).
    cbn [exec]. by destruct (ProposeBlock _ _ _ _) as [l [m|err|]].
  - unfold step_vote. destruct vals as [|v vs]; [|left; by destruct (Vote _ _ _)]. destruct (_ <=? yes); [|by left].
    right. eexists (OpCommit _). cbn [exec]. split; [done|].
    match goal with |- context [Commit ?m ?l] => instantiate (1 := m); by destruct (Commit m l) as [l2 []] end.
  - right. by exists (OpCleanup (settle_id e req)).
  - left. unfold step_issue. destruct (match j_path j with Some _ => _ | None => _ end); [|done..]. destruct (_ && _); [done|].
    by destruct (IssueAndAppend _ _ _ _ _ _ _ _) as [[g s] []].
  - cbn [exec]. unfold step_attach. by destruct (AttachReceipt _ _ _) as [[l o] []].
  - left. apply (persist_audit_keeps e "settle" (j_txID j) (j_policyID j) err sv).
Qed.

(** Operations on the ledger that leave confirmed transactions alone. *)
Definition unattached (l l' : Ledger) : Prop := ∃ o, checked_op o = true ∧ attaches o = false ∧ l' = exec o l.

Lemma effect_unattached e c l l' : (∀ j r, c ≠ PAttach j r) → ledger_effect e c l l' → rtc unattached l l'.
Proof.
  intros Hc Hl. assert (∀ o, round_op o = true → unattached l (exec o l)) as Ho by (intros o Ho; exists o; by destruct o).
  destruct c; cbn [ledger_effect] in Hl; try (destruct Hl as [->|(o & Hr & ->)]; [done|by apply rtc_once, Ho]).
  - rewrite Hl. eapply rtc_l; [eexists (OpNew _)|apply rtc_once; eexists (OpSubmitIfAbsent _ _)]; by split_and!.
  - by destruct (Hc j r).
Qed.

Lemma unattached_checked l l' : rtc unattached l l' → rtc checked_step l l'.
Proof. induction 1 as [|l l1 l2 (o & ? & ? & ?)]; [done|]. eapply rtc_l; [by exists o|done]. Qed.

Lemma effect_checked e c l l' : ledger_effect e c l l' → rtc checked_step l l'.
Proof.
  intros Hl. destruct c; try (eapply unattached_checked, effect_unattached; [|exact Hl]; done).
  cbn [ledger_effect] in Hl. rewrite Hl. apply rtc_once. by eexists (OpAttach _ _).
Qed.

(** ** Confirmed transactions stay *)
Lemma get_confirmed l id tx : lifecycle l → GetTransaction id l = Some tx → tx_Status tx = TxConfirmed →
  ∃ p, confirmed l !! id = Some p ∧ heap l !! p = Some tx.
Proof.
  intros Hlc Hg Hst. unfold GetTransaction, deref in Hg.
  destruct (confirmed l !! id) as [p|] eqn:Hc; cbn in Hg.
  - destruct (lifecycle_confirmed_heap l id p Hlc Hc) as (t & Ht & _). rewrite Ht in Hg. simplify_eq. eauto.
  - destruct (pending l !! id) as [p|] eqn:Hp; [|done]. cbn in Hg.
    destruct (lifecycle_pending l id p tx Hlc Hp Hg) as (_ & _ & Hst' & _). by rewrite Hst' in Hst.
Qed.

Lemma confirmed_get l id p tx : confirmed l !! id = Some p → heap l !! p = Some tx → GetTransaction id l = Some tx.
Proof. intros Hc Hh. unfold GetTransaction, deref. rewrite Hc. cbn. by rewrite Hh. Qed.

Definition confirmed_as (l : Ledger) (id : string) (tx : Transaction) : Prop :=
  GetTransaction id l = Some tx ∧ tx_Status tx = TxConfirmed.

Lemma confirmed_as_unattached l l' id tx : lifecycle l → rtc unattached l l' → confirmed_as l id tx → confirmed_as l' id tx.
Proof.
  intros Hlc Hrt. induction Hrt as [|l l1 l2 (o & Hc & Ha & ->) _ IH]; [done|]. intros [Hg Hst].
  destruct (get_confirmed l id tx Hlc Hg Hst) as (p & Hp & Hh).
  destruct (exec_confirmed o l id p tx Hc Hlc Hp Hh) as (Hp' & tx' & Hh' & _ & _ & He). rewrite (He Ha) in Hh'.
  apply IH; [by apply exec_lifecycle|]. split; [|done]. by eapply confirmed_get.
Qed.

Lemma confirmed_as_receipt l l' id tx : lifecycle l → rtc checked_step l l' → confirmed_as l id tx → tx_ReceiptID tx ≠ "" →
  confirmed_as l' id tx.
Proof.
  intros Hlc Hrt [Hg Hst] Hr. destruct (get_confirmed l id tx Hlc Hg Hst) as (p & Hp & Hh).
  destruct (steps_confirmed l l' id p tx Hrt Hlc Hp Hh) as (Hp' & tx' & Hh' & _ & He). rewrite (He Hr) in Hh'.
  split; [|done]. by eapply confirmed_get.
Qed.

Lemma attach_empty l id rid tx : lifecycle l → confirmed_as l id tx → tx_ReceiptID tx = "" →
  ∃ l', AttachReceipt id rid l = (l', Some (set_receipt rid tx), Ok tt) ∧ confirmed_as l' id (set_receipt rid tx).
Proof.
  intros Hlc [Hg Hst] Hr. destruct (get_confirmed l id tx Hlc Hg Hst) as (p & Hp & Hh).
  eexists. unfold AttachReceipt. rewrite Hp, Hh, Hr. split; [done|]. split; [|done].
  apply (confirmed_get _ id p); [done|]. apply lookup_insert_eq.
Qed.

(** ** Invariant of a goroutine *)
Context `{!StoreLaws S, !Ed25519Laws}.

(** The invariant of the server but for the ledger, which may be in the middle of
    a round: in its place stands the ledger [l0] at the start. *)
Record shared_ok (l0 : Ledger) (sv : srv) (l : list receipt) : Prop := {
  sh_server : server_ok (set_ledger l0 sv) l;
  sh_lifecycle : lifecycle (sv_ledger sv)
}.

(** The transaction [id] is confirmed and names the stored receipt [r]. *)
Definition has_receipt (sv : srv) (l : list receipt) (id : string) (r : receipt) : Prop :=
  r ∈ l ∧ r_ID r ≠ "" ∧ ∃ tx, confirmed_as (sv_ledger sv) id tx ∧ tx_ReceiptID tx = r_ID r.

Definition compliant_request (sv : srv) (req : SettleRequest) (path : SCIONPath) : Prop :=
  ∃ p, p ∈ sv_policies sv ∧ pol_ID p = sq_PolicyID req ∧
    BuildSCIONPath (sv_extractor sv) (default "" (sq_RawPath req)) = Ok path ∧ compliant p path.

Definition body_id (e : env) (body : res string SettleRequest) : string :=
  match body with Ok req => settle_id e req | _ => "" end.

(** The receipt that an answer shows. *)
Definition granted (resp : response) : option receipt :=
  match resp with RSettle _ sr => c ← sr_Compliance sr; pr_Receipt c | _ => None end.

(** Every receipt of [l] survives the encoding of the store. *)
Definition readable (l : list receipt) : Prop := ∀ r, r ∈ l → st_readable r.

Definition pc_ok (e : env) (body : res string SettleRequest) (sv : srv) (l : list receipt) (c : pc) : Prop :=
  let id := body_id e body in
  match c with
  | PStart => True
  | PCheck req | PViolation req _ _ | PPropose req _ | PVote req _ _ _ _ _ | PCleanup req _ _ _ => body = Ok req
  | PSubmit req path => body = Ok req ∧ compliant_request sv req path
  | PEnsure j | PLock j | PPersist j _ => j_txID j = id
  | PLoad j tx => j_txID j = id ∧ (tx_ReceiptID tx ≠ "" → confirmed_as (sv_ledger sv) id tx)
  | PReload j tx => j_txID j = id ∧ confirmed_as (sv_ledger sv) id tx
  | PIssue j tx => j_txID j = id ∧ confirmed_as (sv_ledger sv) id tx ∧ tx_ReceiptID tx = ""
  | PAttach j r => j_txID j = id ∧ r ∈ l ∧ r_ID r ≠ "" ∧ ∃ tx, confirmed_as (sv_ledger sv) id tx ∧ tx_ReceiptID tx = ""
  | PReply _ resp | PDone resp => readable l → ∀ r, granted resp = Some r → has_receipt sv l id r
  end.

(** *** Its own steps *)
Section Step.
Context (l0 : Ledger) (e : env) (body : res string SettleRequest).

(** The outcome of a step. *)
Definition step_ok (sv : srv) (l : list receipt) (x : srv * pc) : Prop :=
  config_of x.1 = config_of sv ∧ ∃ l', l ⊆ l' ∧ shared_ok l0 x.1 l' ∧ pc_ok e body x.1 l' x.2.

Lemma step_ok_same sv l c : shared_ok l0 sv l → pc_ok e body sv l c → step_ok sv l (sv, c).
Proof. intros Hsh Hc. split; [done|]. by exists l. Qed.

Lemma error_ok sv l details status code : pc_ok e body sv l (settle_error details status code).
Proof. by intros _ r [=]. Qed.
Lemma panicked_ok sv l : pc_ok e body sv l panicked.
Proof. by intros _ r [=]. Qed.
#[local] Hint Resolve step_ok_same error_ok panicked_ok : juris.

Lemma ensured_ok sv l j x : j_txID j = body_id e body →
  (∀ r, x = Ok r → readable l → has_receipt sv l (body_id e body) r) → pc_ok e body sv l (ensured e j x).
Proof.
  intros Hj Hx. unfold ensured. destruct (j_caller j), x as [r|code|]; cbn [pc_ok panicked];
    intros Hread r' [=]; subst; by apply Hx.
Qed.

Lemma existing_ok sv0 sv l existing req dg path : body = Ok req → tx_ID existing = settle_id e req →
  pc_ok e body sv l (existing_next e existing req dg path sv0).
Proof.
  intros Hb Hid. unfold existing_next. destruct (negb _); [apply error_ok|].
  destruct (validateLegacySettlementPath _ _ _ _); [|apply error_ok|apply panicked_ok].
  repeat case_bool_decide; [|auto with juris..]. cbn [pc_ok j_txID]. by rewrite Hb.
Qed.

Lemma lookup_settled_ok sv id tx : lookup_settled id sv = Ok tx → confirmed_as (sv_ledger sv) id tx.
Proof.
  unfold lookup_settled. destruct (GetTransaction _ _) as [t|] eqn:Hg; [|done].
  case_bool_decide; [|done]. intros [= <-]. by split.
Qed.

Lemma load_settled_ok sv l f tx x : shared_ok l0 sv l → load_settled f tx sv = Ok x →
  match x with
  | inl r => tx_ReceiptID tx ≠ "" ∧ (readable l → r ∈ l ∧ r_ID r = tx_ReceiptID tx)
  | inr tx' => tx' = tx ∧ tx_ReceiptID tx = ""
  end.
Proof.
  intros [Hok _] Hl. unfold load_settled, loadLedgerReceipt in Hl.
  destruct (bool_decide_reflect (tx_ReceiptID tx = "")) as [Hr|Hr]; cbn [mbind res_bind] in Hl.
  { destruct (_ && _); [done|]. by simplify_eq. }
  destruct (store_GetByID _ _ _) as [[r|]| |] eqn:Hg; cbn [mbind res_bind] in Hl; try done. simplify_eq.
  split; [done|]. intros Hread. apply st_get_id_fault in Hg.
  rewrite (st_get_id _ l _ (so_rep _ _ Hok)) in Hg by (intros ? [? _]%last_match_Some; auto).
  injection Hg as Hm. by apply last_match_Some in Hm as [? ?].
Qed.

(** A loaded receipt is that of the transaction. *)
Lemma loaded_receipt sv l f id tx r : shared_ok l0 sv l → load_settled f tx sv = Ok (inl r) →
  (tx_ReceiptID tx ≠ "" → confirmed_as (sv_ledger sv) id tx) → readable l → has_receipt sv l id r.
Proof.
  intros Hsh Hl Hc Hread. destruct (load_settled_ok sv l f tx _ Hsh Hl) as [Hne Hin]. destruct (Hin Hread) as [? Hid].
  split; [done|]. split; [congruence|]. exists tx. auto.
Qed.

(** Changes of the shared state that [shared_ok] does not see. *)
Lemma shared_ledger sv l l' : shared_ok l0 sv l → rtc checked_step (sv_ledger sv) l' → shared_ok l0 (set_ledger l' sv) l.
Proof. intros [Hok Hlc] Hs. split; [done|]. by eapply checked_lifecycle. Qed.

Lemma shared_audit sv l ev : shared_ok l0 sv l → shared_ok l0 (set_audit ev sv) l.
Proof. intros [Hok Hlc]. split; [|done]. by apply (audit_ok ev (set_ledger l0 sv)). Qed.

Lemma shared_check sv l id c raw path t1 t2 t3 : shared_ok l0 sv l → sv_checkers sv !! id = Some c →
  BuildSCIONPath (sv_extractor sv) raw = Ok path →
  ∃ r, PathCheck.Check t1 t2 t3 path c = (c, Ok r) ∧
    (ck_Compliant r = true → ∃ p, p ∈ sv_policies sv ∧ pol_ID p = id ∧ compliant p path).
Proof.
  intros [Hok _] Hc Hb. destruct (server_check _ l id c (sv_extractor sv) raw path t1 t2 t3 Hok Hc Hb) as (r & Hr & Hcomp & _).
  destruct (so_checkers _ _ Hok id c Hc) as (_ & Hp & Hid). exists r. split; [done|]. intros H1. exists (c_policy c).
  split_and!; [done..|]. by apply Hcomp.
Qed.

Lemma step_check_ok sv l req : shared_ok l0 sv l → body = Ok req → step_ok sv l (step_check e req sv).
Proof.
  intros Hsh Hb. unfold step_check. destruct (sv_checkers sv !! _) as [c|] eqn:Hc; [|auto with juris].
  destruct (BuildSCIONPath _ _) as [path| |] eqn:Hp; [|auto with juris..].
  destruct (shared_check sv l _ c _ path (e_clk e 0) (e_clk e 1) (e_clk e 2) Hsh Hc Hp) as (r & -> & Hcomp).
  rewrite set_checker_id by done. apply step_ok_same; [done|]. destruct (ck_Compliant r) eqn:Hr; cbn [negb pc_ok]; [|done].
  split; [done|]. destruct (Hcomp eq_refl) as (p & ? & ? & ?). by exists p.
Qed.

Lemma step_violation_ok sv l req path result : shared_ok l0 sv l → step_ok sv l (step_violation e req path result sv).
Proof.
  intros [Hok Hlc]. unfold step_violation.
  destruct (server_record (e_fault e 1) (e_uuid e 1) (e_clk e 3) (settle_id e req) (sq_PolicyID req) (ck_ViolatedClause result) path
              (ck_OffendingHops result) _ l Hok) as (d & Hr & Hd & _).
  cbn [sv_detector set_ledger] in Hr. rewrite Hr. split; [done|]. exists l. split_and!; [done| |by intros _ r [=]].
  split; [|done]. destruct Hok. by constructor.
Qed.

Lemma submitted_id now p l l' t existing : lifecycle l → heap l !! p = Some t →
  SubmitTransactionIfAbsent now p l = (l', Ok (Some existing)) → tx_ID existing = tx_ID t.
Proof.
  intros Hlc Hp. unfold SubmitTransactionIfAbsent. rewrite Hp. case_bool_decide.
  - destruct (deref l (confirmed l) (tx_ID t)) as [x|] eqn:Hc.
    { intros [= <- <-]. unfold deref in Hc. destruct (confirmed l !! tx_ID t) as [q|] eqn:Hq; [|done]. cbn in Hc.
      by destruct (lifecycle_confirmed l _ q x Hlc Hq Hc) as (_ & ? & _). }
    destruct (deref l (pending l) (tx_ID t)) as [x|] eqn:Hd; intros [= <- <-]; [|done].
    unfold deref in Hd. destruct (pending l !! tx_ID t) as [q|] eqn:Hq; [|done]. cbn in Hd.
    by destruct (lifecycle_pending l _ q x Hlc Hq Hd) as (_ & ? & _).
  - by destruct (submitLocked now p l) as [lx []].
Qed.

Lemma step_submit_ok sv l req path : shared_ok l0 sv l → body = Ok req → step_ok sv l (step_submit e req path sv).
Proof.
  intros Hsh Hb. pose proof (tstep_ledger e body (PSubmit req path) sv) as Hl.
  apply effect_checked in Hl. cbn [tstep] in Hl. revert Hl. unfold step_submit.
  destruct (new_tx _ _) as [l1 p] eqn:Hn.
  assert (lifecycle l1 ∧ heap l1 !! p = Some (settle_tx req (settle_id e req) (canonicalSettleRequestDigest req (settle_id e req)) path))
    as [Hlc1 Hp].
  { pose proof (exec_lifecycle (OpNew (settle_tx req (settle_id e req) (canonicalSettleRequestDigest req (settle_id e req)) path))
      (sv_ledger sv) eq_refl (sh_lifecycle _ _ _ Hsh)) as Hlc. cbn [exec] in Hlc. rewrite Hn in Hlc. split; [done|].
    injection Hn as <- <-. apply lookup_insert_eq. }
  destruct (SubmitTransactionIfAbsent _ _ _) as [l2 [[existing|]|err|]] eqn:Hs; cbn [fst sv_ledger set_ledger]; intros Hl;
    (split; [done|]; exists l; split_and!; [done|by apply shared_ledger|]); cbn [snd].
  - apply existing_ok; [done|]. by rewrite (submitted_id _ _ _ _ _ _ Hlc1 Hp Hs).
  - done.
  - apply error_ok.
  - apply panicked_ok.
Qed.

Lemma step_issue_ok sv l j tx : shared_ok l0 sv l → pc_ok e body sv l (PIssue j tx) → e_uuid e 2 ≠ "" →
  step_ok sv l (step_issue e j tx sv).
Proof.
  intros Hsh (Hj & Hc & Hr) Hu. unfold step_issue.
  assert (∀ code, pc_ok e body sv l (ensured e j (Err code))) as Herr by (intros; by apply ensured_ok).
  destruct (match j_path j with Some _ => _ | None => _ end) as [path| |]; [|auto with juris..].
  destruct (_ && _); [auto with juris|]. destruct Hsh as [Hok Hlc].
  destruct (IssueAndAppend _ _ _ _ _ _ _ _) as [[g s] x] eqn:Hi.
  destruct (server_issue _ _ _ _ _ _ _ _ _ _ _ Hok Hi) as [Hk [(Hx & -> & _)|(r & -> & Hrep & _ & _ & Ht & _ & Hid)]].
  - assert (shared_ok l0 (set_issue g (sv_receipts sv) sv) l) as Hsh' by (split; [destruct Hok; by constructor|done]).
    destruct x as [r|err|]; [done|..]; (split; [done|]; exists l; split_and!; [done..|]); cbn [pc_ok snd]; [done|apply panicked_ok].
  - split; [done|]. exists (l ++ [r]). split_and!; [set_solver|split; [destruct Hok; by constructor|done]|].
    cbn [pc_ok snd]. split_and!; [done|set_solver|congruence|]. by exists tx.
Qed.

Lemma step_attach_ok sv l j r : shared_ok l0 sv l → pc_ok e body sv l (PAttach j r) →
  step_ok sv l (step_attach e j r sv) ∧ has_receipt (step_attach e j r sv).1 l (body_id e body) r.
Proof.
  intros Hsh (Hj & Hin & Hne & tx & Hc & Hr). pose proof (tstep_ledger e body (PAttach j r) sv) as Hl.
  apply effect_checked in Hl. cbn [tstep] in Hl. revert Hl. unfold step_attach. rewrite Hj.
  destruct (attach_empty (sv_ledger sv) (body_id e body) (r_ID r) tx (sh_lifecycle _ _ _ Hsh) Hc Hr) as (l' & -> & Hc').
  cbn [fst sv_ledger set_ledger]. intros Hl.
  assert (has_receipt (set_ledger l' sv) l (body_id e body) r) as Hhas by (split_and!; [done..|]; by eexists).
  split; [|done]. split; [done|]. exists l. split_and!; [done|by apply shared_ledger|].
  apply ensured_ok; [done|]. by intros r' [= <-].
Qed.

Lemma step_start_ok sv l : shared_ok l0 sv l → pc_ok e body sv l (step_start e body sv).
Proof.
  intros [_ Hlc]. unfold step_start. destruct body as [req| |] eqn:Hb; rewrite <- ?Hb; [|auto with juris..].
  destruct (_ || _ || _ || _); [auto with juris|]. do 2 (case_bool_decide; [auto with juris|]).
  destruct (GetTransaction _ _) as [t|] eqn:Hg; [|done]. apply existing_ok; [done|].
  unfold GetTransaction, deref in Hg. destruct (confirmed _ !! _) as [p|] eqn:Hc; cbn in Hg.
  - destruct (heap _ !! p) as [t'|] eqn:Hh; [|destruct (lifecycle_confirmed_heap _ _ _ Hlc Hc) as (? & ? & _); congruence].
    simplify_eq. by destruct (lifecycle_confirmed _ _ _ _ Hlc Hc Hh) as (_ & ? & _).
  - destruct (pending _ !! _) as [p|] eqn:Hp; [|done]. by destruct (lifecycle_pending _ _ _ _ Hlc Hp Hg) as (_ & ? & _).
Qed.

(** Steps of a round. *)
Lemma round_done_ok sv l req path cr err : body = Ok req → pc_ok e body sv l (round_done e req path cr err).
Proof. intros Hb. unfold round_done. destruct (_ || _); [by intros _ r [=]|]. cbn [pc_ok j_txID]. by rewrite Hb. Qed.

Lemma step_propose_pc sv sv' l req path : body = Ok req → pc_ok e body sv' l (step_propose e req path sv).2.
Proof.
  intros Hb. unfold step_propose. destruct (sv_validators sv); [done|].
  destruct (ProposeBlock _ _ _ _) as [lx []]; [done|done|apply panicked_ok].
Qed.

Lemma step_vote_pc sv sv' l req path m i vals yes : body = Ok req → pc_ok e body sv' l (step_vote e req path m i vals yes sv).2.
Proof.
  intros Hb. unfold step_vote. destruct vals as [|v vals].
  - destruct (_ <=? yes); [|done]. destruct (Commit _ _) as [lx []]; [by apply round_done_ok|done|apply panicked_ok].
  - destruct (Vote _ _ _); [done..|apply panicked_ok].
Qed.

(** A step that only touches the ledger. *)
Lemma step_ok_ledger sv l x : shared_ok l0 sv l → rtc checked_step (sv_ledger sv) (sv_ledger x.1) →
  x.1 = set_ledger (sv_ledger x.1) sv → pc_ok e body x.1 l x.2 → step_ok sv l x.
Proof. intros Hsh Hl Hx Hc. split; [by rewrite Hx|]. exists l. split_and!; [done| |done]. rewrite Hx. by apply shared_ledger. Qed.

Lemma tstep_ok c sv l : shared_ok l0 sv l → pc_ok e body sv l c → e_uuid e 2 ≠ "" → step_ok sv l (tstep e body c sv).
Proof.
  intros Hsh Hc Hu. pose proof (tstep_ledger e body c sv) as Hl. apply effect_checked in Hl.
  assert (sv = set_ledger (sv_ledger sv) sv) as Hid by (by destruct sv).
  destruct c as [|req|req path result|req path|req path|req path m i vals yes|req path cr err|j|j tx|j|j tx|j tx|j r|j err|ev resp|resp];
    cbn [tstep] in *.
  - by apply step_ok_same, step_start_ok.
  - by apply step_check_ok.
  - by apply step_violation_ok.
  - by apply step_submit_ok, Hc.
  - apply step_ok_ledger; [done..| |by apply step_propose_pc]. unfold step_propose.
    destruct (sv_validators sv); [done|]. by destruct (ProposeBlock _ _ _ _) as [lx []].
  - apply step_ok_ledger; [done..| |by apply step_vote_pc]. unfold step_vote. destruct vals as [|v vals]; [|by destruct (Vote _ _ _)].
    destruct (_ <=? yes); [|done]. by destruct (Commit _ _) as [lx []].
  - apply step_ok_ledger; [done..|]. by apply round_done_ok.
  - apply step_ok_same; [done|]. destruct (lookup_settled _ _) as [tx|code|] eqn:Hk; [|by apply ensured_ok|apply panicked_ok].
    apply lookup_settled_ok in Hk. cbn [pc_ok]. rewrite Hc in Hk. auto.
  - apply step_ok_same; [done|]. destruct Hc as [Hj Hc]. destruct (load_settled _ _ _) as [[r|tx']|code|] eqn:Hk;
      [apply ensured_ok; [done|]; intros r' [= <-] Hread; by eapply loaded_receipt|done|by apply ensured_ok|apply panicked_ok].
  - apply step_ok_same; [done|]. destruct (lookup_settled _ _) as [tx|code|] eqn:Hk; [|by apply ensured_ok|apply panicked_ok].
    apply lookup_settled_ok in Hk. cbn [pc_ok]. rewrite Hc in Hk. auto.
  - apply step_ok_same; [done|]. destruct Hc as [Hj Hc]. destruct (load_settled _ _ _) as [[r|tx']|code|] eqn:Hk;
      [apply ensured_ok; [done|]; intros r' [= <-] Hread; by eapply loaded_receipt| |by apply ensured_ok|apply panicked_ok].
    destruct (load_settled_ok sv l _ _ _ Hsh Hk) as [-> Hr]. by split_and!.
  - by apply step_issue_ok.
  - by apply step_attach_ok.
  - destruct (persist_audit e "settle" (j_txID j) (j_policyID j) err sv) as [->|(ev & -> & _)].
    { apply step_ok_same; [done|]. by apply ensured_ok. }
    split; [done|]. exists l. split_and!; [done|by apply shared_audit|by apply ensured_ok].
  - split; [done|]. exists l. split_and!; [done|by apply shared_audit|done].
  - by apply step_ok_same.
Qed.
End Step.

(** *** Steps of the others *)

Lemma has_receipt_stable sv sv' l l' id r : lifecycle (sv_ledger sv) → l ⊆ l' → rtc checked_step (sv_ledger sv) (sv_ledger sv') →
  has_receipt sv l id r → has_receipt sv' l' id r.
Proof.
  intros Hlc Hsub Hch (Hin & Hne & tx & Hc & Hr). split_and!; [by apply Hsub|done|]. exists tx. split; [|done].
  eapply confirmed_as_receipt; [done..|congruence].
Qed.

(** Another goroutine ran: the store grew, the ledger moved on, and if this one
    holds the receipts the confirmed transactions are as they were. *)
Lemma pc_ok_stable e body sv sv' l l' c : lifecycle (sv_ledger sv) → config_of sv' = config_of sv → l ⊆ l' →
  rtc checked_step (sv_ledger sv) (sv_ledger sv') →
  (holds_receipts c = true → rtc unattached (sv_ledger sv) (sv_ledger sv')) →
  pc_ok e body sv l c → pc_ok e body sv' l' c.
Proof.
  intros Hlc Hcfg Hsub Hch Hun. unfold config_of in Hcfg.
  assert (∀ id tx, holds_receipts c = true → confirmed_as (sv_ledger sv) id tx → confirmed_as (sv_ledger sv') id tx) as Hkeep
    by (intros id tx Hh; by apply confirmed_as_unattached, Hun).
  destruct c; cbn [pc_ok]; try done.
  - intros [? (p & ? & ? & ? & ?)]. split; [done|]. exists p. injection Hcfg as ????. by split_and!; congruence.
  - intros [? Hc]. split; [done|]. intros Hne. by eapply confirmed_as_receipt; [..|apply Hc|].
  - intros [? Hc]. split; [done|]. by apply Hkeep.
  - intros (? & Hc & ?). split_and!; [done| |done]. by apply Hkeep.
  - intros (? & ? & ? & tx & Hc & ?). split_and!; [done|by apply Hsub|done|]. exists tx. split; [|done]. by apply Hkeep.
  - intros Hg Hread r0 Hr. eapply has_receipt_stable; [done..|]. apply Hg; [|done]. intros x Hx. by apply Hread, Hsub.
  - intros Hg Hread r0 Hr. eapply has_receipt_stable; [done..|]. apply Hg; [|done]. intros x Hx. by apply Hread, Hsub.
Qed.

(** ** Invariant of the server with its goroutines *)
Definition th_id (t : thread) : string := body_id (th_env t) (th_body t).
Definition th_request (t : thread) : env * res string SettleRequest := (th_env t, th_body t).

(** The transactions of the history were known at the start, or are what a
    request asked for. *)
Definition backed (known : gset string) (B : Transaction → Prop) (l : Ledger) : Prop :=
  ∀ p tx, p ∈ allTxs l → heap l !! p = Some tx → tx_ID tx ∈ known ∨ ∃ tx0, B tx0 ∧ core tx = core tx0.

Lemma exec_backed known B o l : lifecycle l →
  (match o with OpSubmitIfAbsent _ p => ∀ tx, heap l !! p = Some tx → B tx | OpSubmit _ _ => False | _ => True end) →
  backed known B l → backed known B (exec o l).
Proof.
  intros Hlc Ho Hb p tx Hp Htx. pose proof (lc_pending l Hlc) as Hok.
  assert (p ∈ allTxs l → tx_ID tx ∈ known ∨ ∃ tx0, B tx0 ∧ core tx = core tx0) as Hold.
  { intros Hin. destruct (lc_hist l Hlc p Hin) as (t & Ht & _). destruct (exec_heap_ext o l Hok p t Ht) as (t' & Ht' & Hcore).
    rewrite Htx in Ht'. injection Ht' as <-. destruct (Hb p t Hin Ht) as [Hk|(tx0 & ? & ?)].
    - left. unfold core in Hcore. injection Hcore as -> _ _ _ _. done.
    - right. exists tx0. split; [done|congruence]. }
  destruct o as [t|now q|now q|id|now f v|msg|id rid]; cbn [exec] in *; try done.
  - by apply Hold.
  - destruct (SubmitTransactionIfAbsent_spec now q l) as [| |t l' r r' Hq Hns Hsp _]; [by apply Hold..|].
    destruct Hsp as [|t1 s n Ht1]; [by apply Hold|]. cbn [allTxs heap] in *.
    apply elem_of_app in Hp as [Hp|Hp%list_elem_of_singleton]; [by apply Hold|subst p].
    rewrite lookup_insert_eq in Htx. simplify_eq. right. exists t. split; [by apply Ho|done].
  - destruct (CleanupPending_spec id l Hok); by apply Hold.
  - destruct (ProposeBlock_frame now f v l) as [r Hr]. rewrite Hr in Hp. by apply Hold.
  - destruct (Commit_spec msg l Hok); by apply Hold.
  - destruct (AttachReceipt_spec id rid l); by apply Hold.
Qed.

Section Run.
Context (sv0 : srv) (qs : list (env * res string SettleRequest)).

(** The transaction of one of the requests, on a path that complies. *)
Definition asked (tx : Transaction) : Prop := settled_by sv0 ((λ q, ReqSettle q.1 q.2) <$> qs) tx.

Record conf_inv (c : conf) (l : list receipt) : Prop := {
  ci_shared : shared_ok (sv_ledger sv0) c.1 l;
  ci_config : config_of c.1 = config_of sv0;
  ci_ledger : rtc checked_step (sv_ledger sv0) (sv_ledger c.1);
  ci_backed : backed (seen (sv_ledger sv0)) asked (sv_ledger c.1);
  ci_requests : th_request <$> c.2 = qs;
  ci_pc : ∀ i t, c.2 !! i = Some t → pc_ok (th_env t) (th_body t) c.1 l (th_pc t);
  ci_issued : ∀ i t r, c.2 !! i = Some t → th_issued t = Some r →
    has_receipt c.1 l (th_id t) r ∨ ∃ j, th_pc t = PAttach j r;
  ci_mutex : ∀ i j t u, c.2 !! i = Some t → c.2 !! j = Some u →
    holds_receipts (th_pc t) = true → holds_receipts (th_pc u) = true → i = j;
  ci_unique : ∀ i j t u r r', c.2 !! i = Some t → c.2 !! j = Some u →
    th_issued t = Some r → th_issued u = Some r' → th_id t = th_id u → i = j
}.

Lemma start_inv l : server_ok sv0 l → conf_inv (sv0, spawn <$> qs) l.
Proof.
  intros Hok. assert (∀ i t, (spawn <$> qs) !! i = Some t → th_pc t = PStart ∧ th_issued t = None) as Hst.
  { intros i t Ht. rewrite list_lookup_fmap in Ht. destruct (qs !! i); by simplify_eq/=. }
  constructor; cbn [fst snd].
  - split; [by destruct sv0|]. apply (so_engine _ _ Hok).
  - done.
  - done.
  - intros p tx Hp Htx. left. apply (lc_seen _ (eo_lifecycle _ _ (so_engine _ _ Hok))). exists p. split; [done|by exists tx].
  - rewrite <- list_fmap_compose. rewrite <- (list_fmap_id qs) at 2. apply list_fmap_ext. by intros _ [] _.
  - intros i t Ht. by destruct (Hst i t Ht) as [-> _].
  - intros i t r Ht Hr. destruct (Hst i t Ht). congruence.
  - intros i j t u Ht _ Hh. destruct (Hst i t Ht) as [Hp _]. by rewrite Hp in Hh.
  - intros i j t u r r' Ht _ Hr. destruct (Hst i t Ht). congruence.
Qed.

(** What makes a goroutine take the receipts or put one into the store. *)
Lemma ensured_idle e j x : holds_receipts (ensured e j x) = false.
Proof. unfold ensured. by destruct (j_caller j), x. Qed.

Lemma existing_idle e t req dg path sv : holds_receipts (existing_next e t req dg path sv) = false.
Proof.
  unfold existing_next. destruct (negb _); [done|]. destruct (validateLegacySettlementPath _ _ _ _); [|done..].
  repeat case_bool_decide; done.
Qed.

Lemma step_start_idle e body (sv : srv) : holds_receipts (step_start e body sv) = false.
Proof.
  unfold step_start. destruct body; [|done..]. repeat (destruct (_ || _) || case_bool_decide); try done.
  all: destruct (GetTransaction _ _); [apply existing_idle|done].
Qed.

Lemma round_done_idle e req path cr err : holds_receipts (round_done e req path cr err) = false.
Proof. unfold round_done. by destruct (_ || _). Qed.

(** Only [PLock] takes the receipts, and only [PIssue] issues. *)
Lemma tstep_before e body c (sv : srv) :
  (holds_receipts (tstep e body c sv).2 = true → holds_receipts c = true ∨ takes_receipts c = true) ∧
  (∀ j r, (tstep e body c sv).2 = PAttach j r → ∃ tx, c = PIssue j tx).
Proof.
  assert (∀ c', holds_receipts c' = false → holds_receipts c' = true → holds_receipts c = true ∨ takes_receipts c = true) as H1
    by (intros; congruence).
  assert (∀ c', holds_receipts c' = false → ∀ j r, c' = PAttach j r → ∃ tx, c = PIssue j tx) as H2 by (by intros ? ? ? ? ->).
  destruct (holds_receipts (tstep e body c sv).2) eqn:Hh; [|split; [by auto|by apply H2]].
  destruct c as [|req|req path result|req path|req path|req path m i vals yes|req path cr err|j|j tx|j|j tx|j tx|j r|j err|ev resp|resp];
    cbn [tstep snd] in *.
  - by rewrite step_start_idle in Hh.
  - exfalso. revert Hh. unfold step_check. destruct (sv_checkers sv !! _); [|done]. destruct (BuildSCIONPath _ _); [|done..].
    destruct (PathCheck.Check _ _ _ _ _) as [ck [r| |]]; [|done..]. cbn [snd]. by destruct (negb _).
  - exfalso. revert Hh. unfold step_violation. by destruct (RecordViolation _ _ _ _ _ _ _ _ _) as [[d v]| |].
  - exfalso. revert Hh. unfold step_submit. destruct (new_tx _ _) as [lx p].
    destruct (SubmitTransactionIfAbsent _ _ _) as [ly [[t|]| |]]; [|done..]. cbn [snd]. by rewrite existing_idle.
  - exfalso. revert Hh. unfold step_propose. destruct (sv_validators sv); [done|]. by destruct (ProposeBlock _ _ _ _) as [lx []].
  - exfalso. revert Hh. unfold step_vote. destruct vals as [|v vals]; [|by destruct (Vote _ _ _)].
    destruct (_ <=? yes); [|done]. destruct (Commit _ _) as [lx []]; [|done..]. cbn [snd]. by rewrite round_done_idle.
  - by rewrite round_done_idle in Hh.
  - exfalso. revert Hh. destruct (lookup_settled _ _); [done| |done]. by rewrite ensured_idle.
  - exfalso. revert Hh. destruct (load_settled _ _ _) as [[]| |]; try done; by rewrite ensured_idle.
  - split; [by right|]. destruct (lookup_settled _ _); [done| |done]. by rewrite ensured_idle in Hh.
  - split; [by left|]. destruct (load_settled _ _ _) as [[]| |]; try done; by rewrite ensured_idle in Hh.
  - split; [by left|]. intros j' r' He. exists tx. revert He Hh. unfold step_issue.
    destruct (match j_path j with Some _ => _ | None => _ end); [|cbn [snd]; by rewrite ensured_idle|done].
    destruct (_ && _); [cbn [snd]; by rewrite ensured_idle|].
    destruct (IssueAndAppend _ _ _ _ _ _ _ _) as [[g s] []]; try done. cbn [snd]. by intros [= -> _].
  - exfalso. revert Hh. unfold step_attach. destruct (AttachReceipt _ _ _) as [[lx o] []]; try done; cbn [snd]; by rewrite ensured_idle.
  - by rewrite ensured_idle in Hh.
  - done.
  - done.
Qed.

(** What [asked] needs at a submission. *)
Lemma compliant_asked e req path sv : config_of sv = config_of sv0 → (e, Ok req) ∈ qs → compliant_request sv req path →
  asked (settle_tx req (settle_id e req) (canonicalSettleRequestDigest req (settle_id e req)) path).
Proof.
  intros Hcfg Hq (p & Hp & Hid & Hb & Hc). unfold config_of in Hcfg. injection Hcfg as Hpol _ Hext _ _ _ _.
  exists e, req, p, path. rewrite <- Hpol, <- Hext. split_and!; try done.
  apply list_elem_of_fmap. by exists (e, Ok req).
Qed.

Lemma step_backed c l i t : conf_inv c l → c.2 !! i = Some t →
  backed (seen (sv_ledger sv0)) asked (sv_ledger (tstep (th_env t) (th_body t) (th_pc t) c.1).1).
Proof.
  intros [[_ Hlc] Hcfg _ Hb Hqs Hpc _ _ _] Ht. pose proof (tstep_ledger (th_env t) (th_body t) (th_pc t) c.1) as Hl.
  specialize (Hpc i t Ht). destruct (th_pc t); cbn [ledger_effect] in Hl;
    try (destruct Hl as [->|(o & Ho & ->)]; [done|apply exec_backed; [done|by destruct o|done]]).
  - destruct Hpc as [Hbody Hc]. rewrite Hl. apply exec_backed; [by apply exec_lifecycle| |by apply exec_backed].
    intros tx Htx. cbn [exec new_tx fst snd upd_heap heap] in Htx. rewrite lookup_insert_eq in Htx. injection Htx as <-.
    apply (compliant_asked _ _ _ c.1); [done| |done]. rewrite <- Hqs, <- Hbody. apply list_elem_of_fmap. exists t.
    split; [done|]. by eapply list_elem_of_lookup_2.
  - rewrite Hl. by apply exec_backed.
Qed.

(** Nobody else holds the receipts while one goroutine does. *)
Lemma others_unattached c l i t : conf_inv c l → c.2 !! i = Some t → ∀ k u, k ≠ i → c.2 !! k = Some u →
  holds_receipts (th_pc u) = true → rtc unattached (sv_ledger c.1) (sv_ledger (tstep (th_env t) (th_body t) (th_pc t) c.1).1).
Proof.
  intros Hinv Ht k u Hk Hu Hh. eapply effect_unattached; [|apply tstep_ledger]. intros j r Hp.
  apply Hk. eapply (ci_mutex _ _ Hinv); [done..|by rewrite Hp].
Qed.

Lemma not_blocked ths c : blocked ths c = false → takes_receipts c = true → ∀ k u, ths !! k = Some u → holds_receipts (th_pc u) = false.
Proof.
  unfold blocked. intros Hb Ht k u Hu. rewrite Ht in Hb. apply orb_false_iff in Hb as [_ Hb]. cbn [andb] in Hb.
  destruct (holds_receipts (th_pc u)) eqn:Hh; [|done]. rewrite <- Hb. symmetry. apply existsb_exists. exists u. split; [|done].
  by eapply list_elem_of_In, list_elem_of_lookup_2.
Qed.

(** The receipt of a transaction is issued once: when a goroutine is about to
    issue one, no other has. *)
Lemma issue_unique c l i t j tx : conf_inv c l → c.2 !! i = Some t → th_pc t = PIssue j tx →
  ∀ k u r, c.2 !! k = Some u → th_issued u = Some r → th_id u = th_id t → False.
Proof.
  intros Hinv Ht Hp k u r Hu Hr Hid. pose proof (ci_pc _ _ Hinv i t Ht) as Hpc. rewrite Hp in Hpc.
  destruct Hpc as (_ & [Hg _] & Hempty). destruct (ci_issued _ _ Hinv k u r Hu Hr) as [(_ & Hne & tx' & [Hg' _] & Hr')|[j' Hp']].
  - rewrite Hid in Hg'. unfold th_id in Hg'. congruence.
  - assert (k = i) as -> by (eapply (ci_mutex _ _ Hinv); [done..|by rewrite Hp'|by rewrite Hp]). congruence.
Qed.

(** A goroutine runs. *)
Lemma run_inv c l i t : (∀ q, q ∈ qs → e_uuid q.1 2 ≠ "") → conf_inv c l → c.2 !! i = Some t → blocked c.2 (th_pc t) = false →
  ∃ l', l ⊆ l' ∧ conf_inv ((thread_step t c.1).1, <[i := (thread_step t c.1).2]> c.2) l'.
Proof.
  intros Hu Hinv Ht Hbl. pose proof (step_backed c l i t Hinv Ht) as Hbk.
  pose proof (others_unattached c l i t Hinv Ht) as Hoth. pose proof (not_blocked _ _ Hbl) as Hnb.
  pose proof (issue_unique c l i t) as Huniq.
  destruct c as [sv ths]. pose proof Hinv as [Hsh Hcfg Hled Hb Hqs Hpc Hiss Hmx Hun]. cbn [fst snd] in *.
  pose proof (Hpc i t Ht) as Hpt. pose proof (tstep_ledger (th_env t) (th_body t) (th_pc t) sv) as Hl. apply effect_checked in Hl.
  pose proof (tstep_before (th_env t) (th_body t) (th_pc t) sv) as [Hh Hat].
  assert (e_uuid (th_env t) 2 ≠ "") as Hut.
  { apply (Hu (th_request t)). rewrite <- Hqs. apply list_elem_of_fmap. exists t. split; [done|]. by eapply list_elem_of_lookup_2. }
  destruct (tstep_ok _ _ _ _ _ _ Hsh Hpt Hut) as (Hcfg' & l' & Hsub & Hsh' & Hpt').
  assert (∀ j r, th_pc t = PAttach j r → has_receipt (tstep (th_env t) (th_body t) (th_pc t) sv).1 l' (th_id t) r) as Hatt.
  { intros j r Hp. rewrite Hp in *. destruct (step_attach_ok _ _ _ _ _ _ _ Hsh Hpt) as [_ (Hin & ? & ?)].
    split_and!; [by apply Hsub|done..]. }
  exists l'. split; [done|]. unfold thread_step. destruct (tstep _ _ _ _) as [sv1 c1]. cbn [fst snd] in *.
  assert (∀ k u, <[i := mkThread (th_env t) (th_body t) c1 (match c1 with PAttach _ r => Some r | _ => th_issued t end)]> ths !! k = Some u →
    (k = i ∧ u = mkThread (th_env t) (th_body t) c1 (match c1 with PAttach _ r => Some r | _ => th_issued t end)) ∨
    (k ≠ i ∧ ths !! k = Some u)) as Hlk by (intros k u [(-> & <- & _)|[? ?]]%list_lookup_insert_Some; auto).
  constructor; cbn [fst snd]; try done.
  - congruence.
  - by etrans.
  - rewrite list_fmap_insert. rewrite list_insert_id; [done|]. by rewrite list_lookup_fmap, Ht.
  - intros k u [[-> ->]|[Hk Hku]]%Hlk; [done|]. eapply (pc_ok_stable _ _ sv sv1 l l'); eauto. apply Hsh.
  - intros k u r [[-> ->]|[Hk Hku]]%Hlk Hr; cbn [th_issued th_pc] in *; last first.
    { destruct (Hiss k u r Hku Hr) as [?|?]; [left|by right]. eapply (has_receipt_stable sv); eauto. apply Hsh. }
    destruct c1; try (by simplify_eq; eauto).
    all: destruct (Hiss i t r Ht Hr) as [?|[j' Hp]]; left; [eapply (has_receipt_stable sv); eauto; apply Hsh|by eapply Hatt].
  - assert (∀ m w, m ≠ i → ths !! m = Some w → holds_receipts c1 = true → holds_receipts (th_pc w) = true → False) as Hone.
    { intros m w Hm Hw H1 H2. destruct (Hh H1) as [Hold|Htk]; [by eapply Hm, eq_sym, Hmx|]. by rewrite (Hnb Htk m w Hw) in H2. }
    intros k m u w [[-> ->]|[Hk Hku]]%Hlk [[-> ->]|[Hm Hmw]]%Hlk; [done|naive_solver..|by apply Hmx].
  - assert (∀ m w r r', m ≠ i → ths !! m = Some w → (match c1 with PAttach _ r => Some r | _ => th_issued t end) = Some r →
      th_issued w = Some r' → th_id w = th_id t → False) as Hone.
    { intros m w r r' Hm Hw H1 H2 H3. destruct c1; try (by eapply Hm, Hun). destruct (Hat _ _ eq_refl) as [tx Hp].
      by eapply Huniq. }
    intros k m u w r r' [[-> ->]|[Hk Hku]]%Hlk [[-> ->]|[Hm Hmw]]%Hlk; [done|naive_solver..|by eapply Hun].
Qed.

(** Another handler acts. *)
Definition other_ok (o : other_act) : Prop :=
  match o with OtherRotate seed _ _ _ => ∀ s, seed = Ok s → len s = SeedSize | _ => True end.
Definition act_ok (a : act) : Prop := match a with Other o => other_ok o | Run _ => True end.

Lemma other_shared o sv l : other_ok o → shared_ok (sv_ledger sv0) sv l →
  ∃ l', l ⊆ l' ∧ shared_ok (sv_ledger sv0) (other_step o sv) l' ∧ config_of (other_step o sv) = config_of sv ∧
    sv_ledger (other_step o sv) = sv_ledger sv.
Proof.
  intros Ho Hsh. pose proof Hsh as [Hok Hlc].
  destruct o as [f id now txID policyID path|f id now txID policyID cl path hops|seed stamp ff files|ev]; cbn [other_step].
  - destruct (IssueAndAppend _ _ _ _ _ _ _ _) as [[g s] x] eqn:Hi.
    destruct (server_issue _ _ _ _ _ _ _ _ _ _ _ Hok Hi) as [Hk [(_ & -> & _)|(r & -> & Hrep & _)]].
    + exists l. split_and!; [done| |done..]. split; [destruct Hok; by constructor|done].
    + exists (l ++ [r]). split_and!; [set_solver| |done..]. split; [destruct Hok; by constructor|done].
  - destruct (server_record f id now txID policyID cl path hops _ l Hok) as (d & Hr & Hd & _). cbn [sv_detector set_ledger] in Hr.
    rewrite Hr. exists l. split_and!; [done| |done..]. split; [destruct Hok; by constructor|done].
  - destruct (RotateKeyFile_keys seed stamp ff (sv_oracleKeyPath sv) (sv_generator sv) files Ho (so_keys _ _ Hok)) as [Hk _].
    exists l. split_and!; [done| |done..]. split; [destruct Hok; by constructor|done].
  - exists l. split_and!; [done|by apply shared_audit|done..].
Qed.

Lemma other_inv o c l : other_ok o → conf_inv c l → ∃ l', l ⊆ l' ∧ conf_inv (other_step o c.1, c.2) l'.
Proof.
  intros Ho [Hsh Hcfg Hled Hb Hqs Hpc Hiss Hmx Hun]. destruct (other_shared o c.1 l Ho Hsh) as (l' & Hsub & Hsh' & Hcfg' & Hl).
  exists l'. split; [done|]. pose proof (sh_lifecycle _ _ _ Hsh) as Hlc.
  constructor; cbn [fst snd]; rewrite ?Hl; try done.
  - congruence.
  - intros i t Ht. eapply (pc_ok_stable _ _ c.1); [done..|by rewrite Hl|by rewrite Hl|by eapply Hpc].
  - intros i t r Ht Hr. destruct (Hiss i t r Ht Hr) as [?|?]; [left|by right].
    eapply (has_receipt_stable c.1); [done..|by rewrite Hl|done].
Qed.

(** Any schedule. *)
Lemma cexec_inv a c l c' : (∀ q, q ∈ qs → e_uuid q.1 2 ≠ "") → act_ok a → conf_inv c l → cexec a c = Some c' →
  ∃ l', l ⊆ l' ∧ conf_inv c' l'.
Proof.
  intros Hu Ha Hinv Hx. unfold cexec in Hx. destruct c as [sv ths]. destruct a as [i|o].
  - destruct (ths !! i) as [t|] eqn:Ht; [|done]. cbn [mbind option_bind] in Hx.
    destruct (is_done (th_pc t) || blocked ths (th_pc t)) eqn:Hd; [done|]. apply orb_false_iff in Hd as [_ Hbl].
    destruct (run_inv (sv, ths) l i t Hu Hinv Ht Hbl) as (l1 & ? & Hi). cbn [fst snd] in Hi.
    destruct (thread_step t sv) as [sv1 t1]. injection Hx as <-. by exists l1.
  - injection Hx as <-. by apply (other_inv o (sv, ths) l).
Qed.

Lemma crun_inv sched c l c' : (∀ q, q ∈ qs → e_uuid q.1 2 ≠ "") → Forall act_ok sched → conf_inv c l → crun sched c = Some c' →
  ∃ l', l ⊆ l' ∧ conf_inv c' l'.
Proof.
  intros Hu Hs. revert c l. induction Hs as [|a sched Ha Hs IH]; intros c l Hinv; cbn [crun].
  { intros [= <-]. by exists l. }
  destruct (cexec a c) as [c1|] eqn:Hx; [|done]. cbn [mbind option_bind].
  destruct (cexec_inv a c l c1 Hu Ha Hinv Hx) as (l1 & Hsub & Hinv1).
  intros Hc. destruct (IH c1 l1 Hinv1 Hc) as (l' & ? & ?). exists l'. split; [|done]. by etrans.
Qed.
End Run.

(** ** Termination *)

(** A bound on the steps a goroutine has left, with [n] validators. *)
Definition rank (n : nat) (c : pc) : nat :=
  match c with
  | PStart => 13 + n
  | PCheck _ => 12 + n
  | PSubmit _ _ => 11 + n
  | PPropose _ _ => 10 + n
  | PVote _ _ _ _ vals _ => 9 + length vals
  | PCleanup _ _ _ _ => 8
  | PEnsure _ => 7
  | PLoad _ _ => 6
  | PLock _ => 5
  | PReload _ _ => 4
  | PIssue _ _ => 3
  | PAttach _ _ | PPersist _ _ | PViolation _ _ _ => 2
  | PReply _ _ => 1
  | PDone _ => 0
  end.

Lemma ensured_rank n e j x : (rank n (ensured e j x) ≤ 1)%nat.
Proof. unfold ensured. destruct (j_caller j), x; cbn; lia. Qed.
Lemma existing_rank n e t req dg path (sv : srv) : (rank n (existing_next e t req dg path sv) ≤ 7)%nat.
Proof.
  unfold existing_next. destruct (negb _); [cbn; lia|]. destruct (validateLegacySettlementPath _ _ _ _); [|cbn; lia..].
  repeat case_bool_decide; cbn; lia.
Qed.
Lemma round_done_rank n e req path cr err : (rank n (round_done e req path cr err) ≤ 7)%nat.
Proof. unfold round_done. destruct (_ || _); cbn; lia. Qed.

Lemma step_start_rank n e body (sv : srv) : (rank n (step_start e body sv) < 13 + n)%nat.
Proof.
  unfold step_start. destruct body as [req| |]; [|cbn; lia..]. destruct (_ || _ || _ || _); [cbn; lia|].
  do 2 (case_bool_decide; [cbn; lia|]). destruct (GetTransaction _ _) as [t|]; [|cbn; lia].
  pose proof (existing_rank n e t req (canonicalSettleRequestDigest req (settle_id e req)) None sv). lia.
Qed.

(** The outcome of [ensureSettlementReceipt] is at most a reply away. *)
Ltac ensured_lia := match goal with |- context [rank ?n (ensured ?e ?j ?x)] => pose proof (ensured_rank n e j x); lia end.

Lemma tstep_rank e body c (sv : srv) : is_done c = false →
  (rank (length (sv_validators sv)) (tstep e body c sv).2 < rank (length (sv_validators sv)) c)%nat.
Proof.
  intros Hd. set (n := length (sv_validators sv)).
  destruct c as [|req|req path result|req path|req path|req path m i vals yes|req path cr err|j|j tx|j|j tx|j tx|j r|j err|ev resp|resp];
    cbn [tstep snd]; [..|done]; cbn [rank] in *.
  - apply step_start_rank.
  - unfold step_check. destruct (sv_checkers sv !! _); [|cbn; lia]. destruct (BuildSCIONPath _ _); [|cbn; lia..].
    destruct (PathCheck.Check _ _ _ _ _) as [ck [r| |]]; [|cbn; lia..]. cbn [snd]. destruct (negb _); cbn; lia.
  - unfold step_violation. destruct (RecordViolation _ _ _ _ _ _ _ _ _) as [[d v]| |]; cbn; lia.
  - unfold step_submit. destruct (new_tx _ _) as [lx p]. destruct (SubmitTransactionIfAbsent _ _ _) as [ly [[t|]| |]]; [|cbn; lia..].
    cbn [snd]. match goal with |- context [existing_next e t req ?d ?p sv] => pose proof (existing_rank n e t req d p sv) end. lia.
  - unfold step_propose. destruct (sv_validators sv) as [|v0 vs] eqn:Hv; [cbn; lia|].
    destruct (ProposeBlock _ _ _ _) as [lx []]; cbn [snd rank]; subst n; cbn; lia.
  - unfold step_vote. destruct vals as [|v vals]; [|destruct (Vote _ _ _); cbn; lia]. destruct (_ <=? yes); [|cbn; lia].
    destruct (Commit _ _) as [lx []]; [|cbn; lia..]. cbn [snd length].
    match goal with |- context [round_done e req path ?cr ?err] => pose proof (round_done_rank n e req path cr err) end. lia.
  - pose proof (round_done_rank n e req path cr err). lia.
  - destruct (lookup_settled _ _); [cbn; lia|ensured_lia|cbn; lia].
  - destruct (load_settled _ _ _) as [[]| |]; [ensured_lia|cbn; lia|ensured_lia|cbn; lia].
  - destruct (lookup_settled _ _); [cbn; lia|ensured_lia|cbn; lia].
  - destruct (load_settled _ _ _) as [[]| |]; [ensured_lia|cbn; lia|ensured_lia|cbn; lia].
  - unfold step_issue. destruct (match j_path j with Some _ => _ | None => _ end); cbn [snd]; [|ensured_lia|cbn; lia].
    destruct (_ && _); cbn [snd]; [ensured_lia|]. destruct (IssueAndAppend _ _ _ _ _ _ _ _) as [[g s] []]; cbn; lia.
  - unfold step_attach. destruct (AttachReceipt _ _ _) as [[lx o] []]; cbn [snd]; [ensured_lia..|cbn; lia].
  - ensured_lia.
  - cbn. lia.
Qed.

(** The steps of goroutine [i]. *)
Fixpoint runs_of (i : nat) (sched : list act) : nat :=
  match sched with
  | [] => 0
  | Run k :: sched' => if decide (k = i) then Datatypes.S (runs_of i sched') else runs_of i sched'
  | Other _ :: sched' => runs_of i sched'
  end.

(** Running uses it up. *)
Lemma tstep_validators e body c (sv : srv) : sv_validators (tstep e body c sv).1 = sv_validators sv.
Proof.
  destruct c as [|req|req path result|req path|req path|req path m i vals yes|req path cr err|j|j tx|j|j tx|j tx|j r|j err|ev resp|resp];
    cbn [tstep fst]; try done.
  - unfold step_check. destruct (sv_checkers sv !! _); [|done]. destruct (BuildSCIONPath _ _); [|done..].
    by destruct (PathCheck.Check _ _ _ _ _) as [ck [r| |]].
  - unfold step_violation. by destruct (RecordViolation _ _ _ _ _ _ _ _ _) as [[d v]| |].
  - unfold step_submit. destruct (new_tx _ _). by destruct (SubmitTransactionIfAbsent _ _ _) as [l2 [[]| |]].
  - unfold step_propose. destruct (sv_validators sv) as [|v0 vs] eqn:Hv; [done|]. rewrite <- Hv.
    by destruct (ProposeBlock _ _ _ _) as [l []].
  - unfold step_vote. destruct vals as [|v vs]; [|by destruct (Vote _ _ _)]. destruct (_ <=? yes); [|done].
    by destruct (Commit _ _) as [l []].
  - unfold step_issue. destruct (match j_path j with Some _ => _ | None => _ end); [|done..]. destruct (_ && _); [done|].
    by destruct (IssueAndAppend _ _ _ _ _ _ _ _) as [[g s] []].
  - unfold step_attach. by destruct (AttachReceipt _ _ _) as [[l o] []].
  - by destruct (persist_audit e "settle" (j_txID j) (j_policyID j) err sv) as [->|(ev & -> & _)].
Qed.

Lemma other_validators o (sv : srv) : sv_validators (other_step o sv) = sv_validators sv.
Proof.
  destruct o; cbn [other_step]; try done.
  - by destruct (IssueAndAppend _ _ _ _ _ _ _ _) as [[g s] x].
  - by destruct (RecordViolation _ _ _ _ _ _ _ _ _) as [[]| |].
Qed.

Lemma crun_rank i n sched c c' : crun sched c = Some c' → length (sv_validators c.1) = n →
  match c.2 !! i with
  | Some t => (runs_of i sched ≤ rank n (th_pc t))%nat
  | None => runs_of i sched = 0%nat
  end.
Proof.
  revert c. induction sched as [|a sched IH]; intros [sv ths] Hrun Hn; cbn [crun runs_of snd fst] in *.
  { destruct (ths !! i); [lia|done]. }
  destruct (cexec a (sv, ths)) as [c1|] eqn:Hx; [|done]. cbn [mbind option_bind] in Hrun. specialize (IH c1 Hrun).
  destruct a as [k|o]; cbn [cexec] in Hx.
  - destruct (ths !! k) as [t|] eqn:Ht; [|done]. cbn [mbind option_bind] in Hx.
    destruct (is_done (th_pc t)) eqn:Hd; [done|]. destruct (blocked ths (th_pc t)); [done|]. cbn [orb] in Hx.
    pose proof (tstep_rank (th_env t) (th_body t) (th_pc t) sv Hd) as Hr.
    pose proof (tstep_validators (th_env t) (th_body t) (th_pc t) sv) as Hv.
    unfold thread_step in Hx. destruct (tstep _ _ _ _) as [sv1 p1]. injection Hx as <-. cbn [fst snd] in *.
    rewrite Hv in IH. specialize (IH Hn). case_decide as Hk.
    + subst k. rewrite list_lookup_insert_eq in IH by (by eapply lookup_lt_Some). rewrite Ht. cbn [th_pc] in IH.
      rewrite Hn in Hr. lia.
    + by rewrite list_lookup_insert_ne in IH.
  - injection Hx as <-. cbn [fst snd] in *. rewrite other_validators in IH. by apply IH.
Qed.

(** Somebody can always run. *)
Lemma can_run ths c : is_done c = false → blocked ths c = true →
  ∃ k u, ths !! k = Some u ∧ is_done (th_pc u) = false ∧ blocked ths (th_pc u) = false.
Proof.
  intros Hd Hb. assert (∀ h : pc → bool, (∀ c, h c = true → is_done c = false ∧ takes_receipts c = false ∧
      (takes_engine c = false ∨ existsb (λ t, holds_engine (th_pc t)) ths = false)) →
    existsb (λ t, h (th_pc t)) ths = true → ∃ k u, ths !! k = Some u ∧ is_done (th_pc u) = false ∧ blocked ths (th_pc u) = false) as Hsome.
  { intros h Hh (u & Hin & Hu)%existsb_exists. apply list_elem_of_In, list_elem_of_lookup_1 in Hin as [k Hk].
    destruct (Hh _ Hu) as (? & Ht & He). exists k, u. split_and!; [done..|]. unfold blocked. rewrite Ht.
    destruct He as [->| ->]; by rewrite ?andb_false_r. }
  unfold blocked in Hb. apply orb_true_iff in Hb as [[_ Hb]%andb_true_iff|[_ Hb]%andb_true_iff].
  - apply (Hsome holds_engine); [|done]. intros c'. destruct c'; cbn; auto; discriminate.
  - apply (Hsome holds_receipts); [|done]. intros c'. destruct c'; cbn; auto; discriminate.
Qed.

(** ** Properties *)

(** C5. Settlements beside each other keep the books.  Any number of settlement
    requests run at once, in any interleaving, with checks, violations and key
    rotations in between: at every moment the sum of each currency is what it was
    at the start; balances differ from those at the start by the confirmed
    transactions, each identifier counted once; and every transaction confirmed
    since is what one of the requests asked for, on a path that complies with its
    policy. *)
Theorem concurrent_settlements_keep_books (sv sv' : srv) (l : list receipt) (qs : list (env * res string SettleRequest))
    (sched : list act) (ths : list thread) :
  server_ok sv l → (∀ q, q ∈ qs → e_uuid q.1 2 ≠ "") → Forall act_ok sched →
  crun sched (sv, spawn <$> qs) = Some (sv', ths) →
  (∀ cur, total cur (validators (sv_ledger sv')) = total cur (validators (sv_ledger sv))) ∧
  (∀ id cur, GetBalance id cur (sv_ledger sv') - settled (sv_ledger sv') id cur =
             GetBalance id cur (sv_ledger sv) - settled (sv_ledger sv) id cur) ∧
  (∀ id tx, GetTransaction id (sv_ledger sv') = Some tx → tx_Status tx = TxConfirmed → id ∉ seen (sv_ledger sv) →
     ∃ tx0, settled_by sv ((λ q, ReqSettle q.1 q.2) <$> qs) tx0 ∧ core tx = core tx0).
Proof.
  intros Hok Hu Hs Hc. destruct (crun_inv sv qs sched _ l _ Hu Hs (start_inv sv qs l Hok) Hc) as (l' & _ & Hinv).
  destruct (so_engine _ _ Hok) as [Hlc Hsolv _ _]. pose proof (ci_ledger _ _ _ _ Hinv) as Hled. cbn [fst] in Hled.
  pose proof (sh_lifecycle _ _ _ (ci_shared _ _ _ _ Hinv)) as Hlc'. cbn [fst] in Hlc'. split_and!.
  - assert (rtc step (sv_ledger sv) (sv_ledger sv')) as Hst by (eapply rtc_subrel; [|exact Hled]; intros ? ? (o & _ & ->); by exists o).
    by destruct (step_invariant _ _ Hst (lc_pending _ Hlc) Hsolv) as (_ & _ & _ & ?).
  - destruct (checked_step_invariant _ _ Hled Hlc Hsolv) as (_ & _ & Hb). intros id cur. by rewrite !GetBalance_balance.
  - intros id tx Hg Hst Hns. destruct (get_confirmed _ id tx Hlc' Hg Hst) as (p & Hp & Hh).
    destruct (lifecycle_confirmed _ id p tx Hlc' Hp Hh) as (Hin & Hid & _).
    destruct (ci_backed _ _ _ _ Hinv p tx Hin Hh) as [Hk|?]; [by rewrite Hid in Hk|done].
Qed.

(** C4. One settlement, one receipt.  However the goroutines interleave, no two of
    them put a receipt into the store for the same transaction; and when the stored
    receipts survive the encoding of the store, every answer that shows a receipt
    shows a stored one, which the confirmed transaction of the request names, and
    two answers about the same transaction show the same receipt. *)
Theorem concurrent_settlements_one_receipt (sv sv' : srv) (l : list receipt) (qs : list (env * res string SettleRequest))
    (sched : list act) (ths : list thread) :
  server_ok sv l → (∀ q, q ∈ qs → e_uuid q.1 2 ≠ "") → Forall act_ok sched →
  crun sched (sv, spawn <$> qs) = Some (sv', ths) →
  (∀ i j t u r r', ths !! i = Some t → ths !! j = Some u → th_issued t = Some r → th_issued u = Some r' →
     th_id t = th_id u → i = j) ∧
  ∃ l', l ⊆ l' ∧ st_rep (sv_receipts sv') l' ∧
    (readable l' →
     (∀ t resp r, t ∈ ths → th_pc t = PDone resp → granted resp = Some r → has_receipt sv' l' (th_id t) r) ∧
     (∀ t u x y r r', t ∈ ths → u ∈ ths → th_pc t = PDone x → th_pc u = PDone y → th_id t = th_id u →
        granted x = Some r → granted y = Some r' → r = r')).
Proof.
  intros Hok Hu Hs Hc. destruct (crun_inv sv qs sched _ l _ Hu Hs (start_inv sv qs l Hok) Hc) as (l' & Hsub & Hinv).
  split; [apply (ci_unique _ _ _ _ Hinv)|]. exists l'. split; [done|].
  pose proof (so_rep _ _ (sh_server _ _ _ (ci_shared _ _ _ _ Hinv))) as Hrep. split; [done|]. intros Hread.
  assert (∀ t resp r, t ∈ ths → th_pc t = PDone resp → granted resp = Some r → has_receipt sv' l' (th_id t) r) as Hhas.
  { intros t resp r [i Hi]%list_elem_of_lookup_1 Hp Hg. pose proof (ci_pc _ _ _ _ Hinv i t Hi) as Hpc. rewrite Hp in Hpc. by apply Hpc. }
  split; [done|]. intros t u x y r r' Ht Hu' Hx Hy Hid Hr Hr'.
  destruct (Hhas t x r Ht Hx Hr) as (Hin & _ & tx & [Hg _] & Hrid). destruct (Hhas u y r' Hu' Hy Hr') as (Hin' & _ & tx' & [Hg' _] & Hrid').
  apply (NoDup_key_inj r_ID l'); [apply (st_nodup _ _ Hrep)|done..|]. rewrite Hid in Hg. congruence.
Qed.

(** C26. Settlements beside each other end.  In any interleaving each goroutine
    takes at most thirteen steps and one per validator, and as long as one has not
    answered, one of them can run: the two mutexes cannot deadlock. *)
Theorem concurrent_settlements_finish (sv : srv) (qs : list (env * res string SettleRequest)) (sched : list act) (c : conf) :
  crun sched (sv, spawn <$> qs) = Some c →
  (∀ i, (runs_of i sched ≤ 13 + length (sv_validators sv))%nat) ∧
  (∀ t, t ∈ c.2 → is_done (th_pc t) = false → ∃ i c', cexec (Run i) c = Some c').
Proof.
  intros Hc. split.
  - intros i. pose proof (crun_rank i _ _ _ _ Hc eq_refl) as Hr. cbn [fst snd] in Hr.
    rewrite list_lookup_fmap in Hr. destruct (qs !! i); cbn in Hr; lia.
  - destruct c as [sv' ths]. intros t [i Hi]%list_elem_of_lookup_1 Hd. cbn [snd] in *.
    assert (∃ k u, ths !! k = Some u ∧ is_done (th_pc u) = false ∧ blocked ths (th_pc u) = false) as (k & u & Hk & Hu & Hb).
    { destruct (blocked ths (th_pc t)) eqn:Hb; [by eapply can_run|by exists i, t]. }
    exists k. cbn [cexec]. rewrite Hk. cbn [mbind option_bind]. rewrite Hu, Hb. cbn [orb]. destruct (thread_step u sv'). by eexists.
Qed.

End Threads.

(** ** A run *)

(** Two clients send the same settlement at once, and a check comes in between. *)
Module DemoInterleaving.
Import Toy DemoReceipt DemoApi.

Definition env_n (n : nat) : env :=
  mkEnv (λ i, "uuid-" +:+ pretty n +:+ "-" +:+ pretty i) (λ _, t0) (λ _, NoFault) "" (λ _, "error").
Definition demo_qs : list (env * res string SettleRequest) :=
  [(env_n 1, Ok (settle_req 100 "ch")); (env_n 2, Ok (settle_req 100 "ch"))].

(** The goroutines take turns as long as they can. *)
Fixpoint turns (fuel : nat) (i : nat) (c : Server MemoryStore MemoryViolationStore * list thread) : list act :=
  match fuel with
  | 0%nat => []
  | Datatypes.S fuel' =>
    match cexec (Run i) c, cexec (Run (1 - i)) c with
    | Some c', _ => Run i :: turns fuel' (1 - i) c'
    | None, Some c' => Run (1 - i) :: turns fuel' i c'
    | None, None => []
    end
  end.

Definition demo_sched : list act :=
  Other (OtherIssue NoFault "uuid-check" t0 "tx-check" "p" (path_of "ch")) :: turns 60 0 (server0, spawn <$> demo_qs).
Abbreviation demo_end := (crun demo_sched (server0, spawn <$> demo_qs)).

Definition answer (t : thread) : option (Z * string * bool) :=
  match th_pc t with
  | PDone (RSettle st r) => Some (st, sr_Code r, sr_Idempotent r)
  | PDone (RError st code) => Some (st, code, false)
  | _ => None
  end.

Definition outcome (c : option (Server MemoryStore MemoryViolationStore * list thread)) :
    list (option (Z * string * bool)) * nat * Z * nat :=
  match c with
  | Some (sv, ths) => (answer <$> ths, length (ms_receipts (sv_receipts sv)), GetBalance "EU" "CHF" (sv_ledger sv),
                       length (omap th_issued ths))
  | None => ([], 0%nat, 0, 0%nat)
  end.

(** One settles, the other is told that it is settled, and one receipt is issued
    besides that of the check. *)
Example demo_outcome : outcome demo_end = ([Some (200, "", false); Some (200, "", true)], 2%nat, 5100, 1%nat).
Proof. vm_compute. reflexivity. Qed.

Lemma demo_ids : ∀ q, q ∈ demo_qs → e_uuid q.1 2 ≠ "".
Proof. intros q Hq. apply list_elem_of_In in Hq as [<-|[<-|[]]]; discriminate. Qed.

Lemma turns_ok fuel i c : Forall act_ok (turns fuel i c).
Proof.
  revert i c. induction fuel as [|fuel IH]; intros i c; [constructor|]. cbn [turns].
  destruct (cexec (Run i) c); [by constructor|]. destruct (cexec (Run (1 - i)) c); by constructor.
Qed.
Lemma demo_sched_ok : Forall act_ok demo_sched.
Proof. constructor; [exact I|apply turns_ok]. Qed.

Lemma concurrent_settlements_keep_books_witness :
  ∃ sv' ths, demo_end = Some (sv', ths) ∧ GetBalance "EU" "CHF" (sv_ledger sv') = 5100 ∧
    total "CHF" (validators (sv_ledger sv')) = total "CHF" (validators (sv_ledger server0)).
Proof.
  pose proof demo_outcome as Ho. destruct demo_end as [[sv' ths]|] eqn:He; [|discriminate Ho]. exists sv', ths.
  split; [reflexivity|]. split; [injection Ho as _ _ Hb _; exact Hb|].
  apply (concurrent_settlements_keep_books server0 sv' [] demo_qs demo_sched ths server0_ok demo_ids demo_sched_ok He).
Defined.

Lemma concurrent_settlements_one_receipt_witness :
  ∃ sv' ths, demo_end = Some (sv', ths) ∧ answer <$> ths = [Some (200, "", false); Some (200, "", true)] ∧
    ∀ t u x y r r', t ∈ ths → u ∈ ths → th_pc t = PDone x → th_pc u = PDone y → th_id t = th_id u →
      granted x = Some r → granted y = Some r' → r = r'.
Proof.
  pose proof demo_outcome as Ho. destruct demo_end as [[sv' ths]|] eqn:He; [|discriminate Ho]. exists sv', ths.
  split; [reflexivity|]. split; [injection Ho as Ha _ _ _; exact Ha|].
  destruct (concurrent_settlements_one_receipt server0 sv' [] demo_qs demo_sched ths server0_ok demo_ids demo_sched_ok He)
    as (_ & l' & _ & _ & Hread). destruct Hread as [_ Hsame]; [intros r _; exact I|]. exact Hsame.
Defined.

Lemma concurrent_settlements_finish_witness :
  (runs_of 0 demo_sched, runs_of 1 demo_sched) = (15, 8)%nat ∧ (∀ i, runs_of i demo_sched ≤ 16)%nat ∧
  ∃ sv' ths, demo_end = Some (sv', ths) ∧ forallb (λ t, is_done (th_pc t)) ths = true.
Proof.
  split; [vm_compute; reflexivity|]. pose proof demo_outcome as Ho.
  destruct demo_end as [[sv' ths]|] eqn:He; [|discriminate Ho].
  destruct (concurrent_settlements_finish server0 demo_qs demo_sched (sv', ths) He) as [Hb _].
  split; [exact Hb|]. exists sv', ths. split; [reflexivity|].
  injection Ho as Ha _ _ _. destruct ths as [|t [|u [|]]]; try discriminate Ha. injection Ha as Ht Hu.
  unfold answer in Ht, Hu. destruct (th_pc t) as [| | | | | | | | | | | | | | |x] eqn:E1; try discriminate Ht.
  destruct (th_pc u) as [| | | | | | | | | | | | | | |y] eqn:E2; try discriminate Hu. cbn. rewrite E1, E2. reflexivity.
Defined.
End DemoInterleaving.
