(* ===== verification/ServiceAudit.v ===== *)
(** * What the audit trail says about the service

    [audit] of [src/internal/api/server.go] with its details, and the
    composition of the handlers with the queue and the log: every answered request
    leaves one event that agrees with its answer, and as long as the health
    endpoint reports no failure the log and the queue hold the events of all
    requests in order. *)

From S2P Require Import Prelude GoJson Sha256 Model Replay Policy PathCheck Scion Bolt.
From S2P Require Import ReceiptStore Receipt Violation Ledger Consensus Api Service AuditTrail AuditQueue.

(** ** Events against answers *)
Fixpoint detail (k : string) (ds : list (string * json)) : option json :=
  match ds with
  | [] => None
  | (k', v) :: ds' => if decide (k' = k) then Some v else detail k ds'
  end.

(** The word for the outcome that the audit trail uses. *)
Definition settle_word (sr : SettleResponse) : string :=
  if negb (bool_decide (sr_Code sr = "")) then "error"
  else if sr_Idempotent sr then "idempotent"
  else match sr_Compliance sr with
       | None => "consensus_rejected"
       | Some pr => if pr_Compliant pr then "settled" else "non_compliant"
       end.

(** The identifiers an answer carries. *)
Definition receipt_id (pr : PolicyResult) : option json := (λ r, JStr (r_ID r)) <$> pr_Receipt pr.
Definition violation_id (pr : PolicyResult) : option json := (λ v, JStr (Violation.v_ID v)) <$> pr_Violation pr.

(** An event of type [typ] that says what the answer says. *)
Definition reports (typ : string) (ev : audit_event) (r : response) : Prop :=
  let d k := detail k (ev_Details ev) in
  ev_Type ev = typ ∧
  match r with
  | RError _ code => d "outcome" = Some (JStr "error") ∧ d "code" = Some (JStr code)
  | RCheck pr =>
    d "compliant" = Some (JBool (pr_Compliant pr)) ∧ d "receipt_id" = receipt_id pr ∧ d "violation_id" = violation_id pr
  | RSettle _ sr =>
    d "outcome" = Some (JStr (settle_word sr)) ∧
    (settle_word sr = "error" → d "code" = Some (JStr (sr_Code sr))) ∧
    (settle_word sr = "settled" → d "receipt_id" = sr_Compliance sr ≫= receipt_id) ∧
    (settle_word sr = "non_compliant" → d "violation_id" = sr_Compliance sr ≫= violation_id)
  | RFilter fr =>
    d "compliant" = Some (JNum (Z.of_nat (length (f_Compliant fr)))) ∧
    d "non_compliant" = Some (JNum (Z.of_nat (length (f_NonCompliant fr))))
  | RRotated old new archive count _ =>
    d "outcome" = Some (JStr "rotated") ∧ d "old_public_key" = Some (JStr (hex old)) ∧
    d "new_public_key" = Some (JStr (hex new)) ∧ d "archived_key_path" = Some (JStr archive) ∧ d "receipt_count" = Some (JNum count)
  | RChain _ => False
  end.

(** The type of the event a request leaves. *)
Definition event_type (q : request) : option string :=
  match q with
  | ReqCheck _ _ => Some "check"
  | ReqSettle _ _ => Some "settle"
  | ReqFilter _ _ => Some "filter"
  | ReqVerifyChain _ _ _ => None
  | ReqRotate _ _ _ _ _ => Some "oracle_key_rotation"
  end.

Section Events.
Context {S V : Type} `{!Store S, !ViolationStore V, !Ed25519}.
Abbreviation srv := (Server S V).

(** [sv'] has one more event, that agrees with the answer, and before it at most
    one about a receipt that could not be stored; a panic leaves none. *)
Definition audits (typ : string) (sv sv' : srv) (x : res unit response) : Prop :=
  match x with
  | Ok r =>
    ∃ pre ev, sv_audit sv' = sv_audit sv ++ pre ++ [ev] ∧ reports typ ev r ∧
      (pre = [] ∨ ∃ p, pre = [p] ∧ ev_Type p = "receipt_persist_failure" ∧ detail "outcome" (ev_Details ev) = Some (JStr "error"))
  | _ => sv_audit sv' = sv_audit sv
  end.

(** One event, no failure before it. *)
Lemma audits_one typ sv sv' ev r : sv_audit sv' = sv_audit sv → reports typ ev r → audits typ sv (set_audit ev sv') (Ok r).
Proof. intros Ha Hr. exists [], ev. cbn [set_audit sv_audit app]. rewrite Ha. auto. Qed.

Lemma audits_fail typ ds st code sv sv' : sv_audit sv' = sv_audit sv → detail "outcome" ds = Some (JStr "error") →
  detail "code" ds = Some (JStr code) → audits typ sv (set_audit (mkEvent typ ds) sv') (Ok (RError st code)).
Proof. intros Ha Ho Hc. by apply audits_one. Qed.

(** A failed issue may leave an event of its own. *)
Definition noted (sv sv' : srv) : Prop :=
  sv_audit sv' = sv_audit sv ∨ ∃ p, sv_audit sv' = sv_audit sv ++ [p] ∧ ev_Type p = "receipt_persist_failure".

Lemma audits_noted typ sv sv' ev r : noted sv sv' → reports typ ev r → detail "outcome" (ev_Details ev) = Some (JStr "error") →
  audits typ sv (set_audit ev sv') (Ok r).
Proof.
  intros [Ha|(p & Ha & Hp)] Hr Ho; [by apply audits_one|]. exists [p], ev. cbn [set_audit sv_audit]. rewrite Ha, <- app_assoc.
  split_and!; eauto.
Qed.

Lemma persist_noted sv sv' e ctx txID policyID err : sv_audit sv' = sv_audit sv →
  noted sv (audit_if_persist_failed e ctx txID policyID err sv').
Proof.
  intros Ha. destruct (persist_audit e ctx txID policyID err sv') as [->|(ev & -> & Ht)]; [by left|].
  right. exists ev. cbn [set_audit sv_audit]. by rewrite Ha.
Qed.

Lemma ensure_noted e txID policyID raw path sv sv' x : ensureSettlementReceipt e txID policyID raw path sv = (sv', x) →
  match x with Err code => noted sv sv' ∧ code ≠ "" | _ => sv_audit sv' = sv_audit sv end.
Proof.
  assert (∀ f c, settled_tx f txID sv = Err c → c ≠ "") as Hcode.
  { intros f c. unfold settled_tx, loadLedgerReceipt. destruct (GetTransaction _ _); [|by intros [= <-]].
    destruct (negb _); [by intros [= <-]|]. destruct (bool_decide (tx_ReceiptID t = "")); simpl.
    - destruct (_ && _); [by intros [= <-]|done].
    - destruct (store_GetByID _ _ _) as [[]| |]; simpl; by try intros [= <-]. }
  unfold ensureSettlementReceipt.
  destruct (settled_tx (e_fault e 2) txID sv) as [[r|t]|c|] eqn:H2; [by intros [= <- <-]| |intros [= <- <-]; split; [by left|eauto]|by intros [= <- <-]].
  destruct (settled_tx (e_fault e 3) txID sv) as [[r|tx]|c|] eqn:H3; [by intros [= <- <-]| |intros [= <- <-]; split; [by left|eauto]|by intros [= <- <-]].
  destruct (match path with Some p => Ok p | None => _ end) as [p|c|]; [|intros [= <- <-]; split; [by left|done]|by intros [= <- <-]].
  unfold issue_for. destruct (negb _ && negb _); [intros [= <- <-]; split; [by left|done]|].
  destruct (IssueAndAppend _ _ _ _ _ _ _ _) as [[g s] y]. destruct y as [r|err|]; [|intros [= <- <-]|by intros [= <- <-]].
  - destruct (AttachReceipt _ _ _) as [[l o] []]; intros [= <- <-]; [done|split; [by left|done]|done].
  - split; [|done]. by apply persist_noted.
Qed.

Lemma existing_audits e tx req dg path sv sv' x : handleExistingSettlement e tx req dg path sv = (sv', x) → audits "settle" sv sv' x.
Proof.
  unfold handleExistingSettlement, fail. destruct (negb _); [intros [= <- <-]; by apply audits_fail|].
  destruct (validateLegacySettlementPath _ _ _ _); [|intros [= <- <-]; by apply audits_fail|by intros [= <- <-]].
  case_bool_decide; [|case_bool_decide; intros [= <- <-]; by apply audits_fail].
  destruct (ensureSettlementReceipt _ _ _ _ _ _) as [sv1 y] eqn:He. apply ensure_noted in He.
  destruct y as [r|code|]; intros [= <- <-]; [by apply audits_one| |done]. destruct He as [Hn Hc].
  apply audits_noted; [done| |done]. split; [done|]. unfold settle_word. cbn. by rewrite bool_decide_false.
Qed.

Lemma settle_compliant_audits e req txID dg path sv sv' x : settle_compliant e req txID dg path sv = (sv', x) → audits "settle" sv sv' x.
Proof.
  unfold settle_compliant, fail. destruct (new_tx _ _) as [l1 p].
  destruct (SubmitAndRunRound _ _ _ _ _) as [l2 [ex [cres err]]].
  destruct err as [u|er|]; [| |by destruct ex, cres; intros [= <- <-]].
  all: destruct ex as [t|]; [apply (existing_audits _ _ _ _ _ (set_ledger l2 sv))|].
  all: destruct cres as [cr|]; cbn [is_ok negb orb]; try (intros [= <- <-]; by apply audits_fail || by apply audits_one).
  all: try (destruct (negb (cr_Confirmed cr)); [intros [= <- <-]; by apply audits_one|]).
  all: destruct (ensureSettlementReceipt _ _ _ _ _ _) as [sv1 y] eqn:He; apply ensure_noted in He.
  all: destruct y as [r|code|]; intros [= <- <-]; try done; try by apply audits_one.
  all: destruct He as [Hn Hc]; apply audits_noted; [exact Hn| |done].
  all: split; [done|]; unfold settle_word; cbn; by rewrite bool_decide_false.
Qed.

Lemma handleSettle_audits e body sv sv' x : handleSettle e body sv = (sv', x) → audits "settle" sv sv' x.
Proof.
  unfold handleSettle, fail. destruct body as [req| |]; [|intros [= <- <-]; by apply audits_fail|by intros [= <- <-]].
  repeat (destruct (bool_decide _ || _ || _ || _) || case_bool_decide); try (intros [= <- <-]; by apply audits_fail).
  all: destruct (GetTransaction _ _) as [t|]; [apply existing_audits|].
  all: destruct (sv_checkers sv !! _) as [c|]; [|intros [= <- <-]; by apply audits_fail].
  all: destruct (BuildSCIONPath _ _) as [path| |]; [|intros [= <- <-]; by apply audits_fail|by intros [= <- <-]].
  all: destruct (PathCheck.Check _ _ _ _ _) as [c' [r| |]]; [|intros [= <- <-]; by apply audits_fail|by intros [= <- <-]].
  all: cbv zeta; destruct (negb (ck_Compliant r)); [|apply (settle_compliant_audits _ _ _ _ _ (set_checker (sq_PolicyID req) c' sv))].
  all: destruct (RecordViolation _ _ _ _ _ _ _ _ _) as [[d v]| |]; intros [= <- <-]; try done; by apply audits_one.
Qed.

Lemma handleCheck_audits e body sv sv' x : handleCheck e body sv = (sv', x) → audits "check" sv sv' x.
Proof.
  unfold handleCheck, fail. destruct body as [req| |]; [|intros [= <- <-]; by apply audits_fail|by intros [= <- <-]].
  cbv zeta. destruct (negb _ && _); [intros [= <- <-]; by apply audits_fail|].
  destruct (sv_checkers sv !! _) as [c|]; [|intros [= <- <-]; by apply audits_fail].
  destruct (BuildSCIONPath _ _) as [path| |]; [|intros [= <- <-]; by apply audits_fail|by intros [= <- <-]].
  destruct (PathCheck.Check _ _ _ _ _) as [c' [r| |]]; [|intros [= <- <-]; by apply audits_fail|by intros [= <- <-]].
  unfold check_outcome, fail. destruct (ck_Compliant r).
  - destruct (IssueAndAppend _ _ _ _ _ _ _ _) as [[g s] [rc|err|]]; intros [= <- <-]; [by apply audits_one| |done].
    apply audits_noted; [|by split|done]. by apply persist_noted.
  - destruct (RecordViolation _ _ _ _ _ _ _ _ _) as [[d v]| |]; intros [= <- <-]; try done. by apply audits_one.
Qed.

Lemma handleFilterPaths_audits e body sv sv' x : handleFilterPaths e body sv = (sv', x) → audits "filter" sv sv' x.
Proof.
  unfold handleFilterPaths, fail. destruct body as [req| |]; [|intros [= <- <-]; by apply audits_fail|by intros [= <- <-]].
  destruct (sv_filters sv !! _); intros [= <- <-]; [by apply audits_one|by apply audits_fail].
Qed.

(** A rotation that gets past its checks is audited with its outcome; one that is
    refused before it starts (no admin token, no key path, or a store that cannot
    be read) changes nothing and leaves no event. *)
Definition rotation_audits (e : env) (header : string) (seed : res string bytes) (stamp : string) (ff : fs_faults)
    (sv sv' : srv) (fs fs' : gmap string bytes) (x : res unit response) : Prop :=
  let refused y := sv' = sv ∧ fs' = fs ∧ x = y in
  if negb (isAdminRequest header sv) then refused (Ok (RError 403 "FORBIDDEN"))
  else if bool_decide (sv_oracleKeyPath sv = "") then refused (Ok (RError 503 "ROTATION_UNAVAILABLE"))
  else match store_Last (e_fault e 0) (sv_receipts sv) with
       | Err _ => refused (Ok (RError 500 "INTERNAL_ERROR"))
       | Panic => refused Panic
       | Ok _ =>
         match (RotateKeyFile seed stamp ff (sv_oracleKeyPath sv) (sv_generator sv) fs).2 with
         | Ok archive =>
           audits "oracle_key_rotation" sv sv' x ∧
           ∃ count lastSeq, x = Ok (RRotated (PublicKey (sv_generator sv)) (PublicKey (sv_generator sv')) archive count lastSeq)
         | Err _ =>
           x = Ok (RError 500 "INTERNAL_ERROR") ∧ ∃ ev, sv_audit sv' = sv_audit sv ++ [ev] ∧
             ev_Type ev = "oracle_key_rotation" ∧ detail "outcome" (ev_Details ev) = Some (JStr "error") ∧
             detail "code" (ev_Details ev) = Some (JStr "KEY_ROTATION_FAILED")
         | Panic => x = Panic ∧ sv_audit sv' = sv_audit sv
         end
       end.

Lemma handleRotateKey_audits e header seed stamp ff sv fs sv' fs' x :
  handleRotateKey e header seed stamp ff sv fs = (sv', fs', x) → rotation_audits e header seed stamp ff sv sv' fs fs' x.
Proof.
  unfold handleRotateKey, rotation_audits. destruct (negb _); [by intros [= <- <- <-]|].
  destruct (bool_decide _); [by intros [= <- <- <-]|]. destruct (store_Last _ _); [|by intros [= <- <- <-]..].
  destruct (RotateKeyFile _ _ _ _ _ _) as [[g f'] [archive|err|]]; intros [= <- <- <-]; cbn [snd]; [| |done].
  - split; [by apply audits_one|]. by eexists _, _.
  - split; [done|]. by eexists.
Qed.

Lemma handler_audits q sv fs sv' fs' x : handler q (sv, fs) = (sv', fs', x) →
  match q with
  | ReqCheck _ _ => audits "check" sv sv' x
  | ReqSettle _ _ => audits "settle" sv sv' x
  | ReqFilter _ _ => audits "filter" sv sv' x
  | ReqVerifyChain _ _ _ => sv' = sv
  | ReqRotate e header seed stamp ff => rotation_audits e header seed stamp ff sv sv' fs fs' x
  end.
Proof.
  destruct q as [e body|e body|e body|f a b|e header seed stamp ff]; cbn [handler].
  - destruct (handleCheck e body sv) as [sv1 y] eqn:Hh. intros [= <- _ <-]. by eapply handleCheck_audits.
  - destruct (handleSettle e body sv) as [sv1 y] eqn:Hh. intros [= <- _ <-]. by eapply handleSettle_audits.
  - destruct (handleFilterPaths e body sv) as [sv1 y] eqn:Hh. intros [= <- _ <-]. by eapply handleFilterPaths_audits.
  - destruct (handleVerifyChain f a b sv) as [sv1 y] eqn:Hh. intros [= <- _ _]. by apply handleVerifyChain_state in Hh.
  - apply handleRotateKey_audits.
Qed.

(** ** Properties *)

(** C11. Every answer is on record.  A check, settle or filter request that is
    answered leaves exactly one event of its type, that agrees with the answer: on
    the outcome, the error code, compliance, the identifiers of the receipt or the
    violation and the number of paths; a receipt that could not be stored adds one
    event before it, and then the answer is an error.  A key rotation that was
    carried out is on record with both keys, and one whose key file operations
    failed with the code of its failure.  One that is refused before it starts,
    without the admin token (403), without a configured key path (503) or because
    the last receipt could not be read (500), changes nothing and is not recorded.
    Reading the chain leaves no event, and neither does a request that panics. *)
Theorem answers_are_on_record (q : request) (sv sv' : srv) (fs fs' : gmap string bytes) (x : res unit response) :
  handler q (sv, fs) = (sv', fs', x) →
  match q with
  | ReqCheck _ _ => audits "check" sv sv' x
  | ReqSettle _ _ => audits "settle" sv sv' x
  | ReqFilter _ _ => audits "filter" sv sv' x
  | ReqVerifyChain _ _ _ => sv' = sv
  | ReqRotate e header seed stamp ff => rotation_audits e header seed stamp ff sv sv' fs fs' x
  end.
Proof. apply handler_audits. Qed.
End Events.

(** ** From events to entries

    [audit]: the details are marshalled as a Go map, whose keys [encoding/json]
    writes in byte order. *)
Definition key_le (x y : string * json) : Prop := blt y.1 x.1 = false.
#[export] Instance key_le_dec x y : Decision (key_le x y) := decide (blt y.1 x.1 = false).

Definition details_json (ds : list (string * json)) : json := JObj (merge_sort key_le ds).
Definition audit_entry (now : Z) (ev : audit_event) : AuditEntry := mkAudit now (ev_Type ev) (render (details_json (ev_Details ev))).

Lemma attempted_accepted closed acts : audited true closed acts = [] → lost_to_panic closed acts = [] →
  attempted acts = audited false closed acts.
Proof.
  revert closed. induction acts as [|[e []|f| |] acts IH]; intros closed; cbn [attempted audited lost_to_panic]; try done.
  - by destruct closed.
  - destruct closed; [done|]. cbn [negb andb Bool.eqb]. intros ? ?. by rewrite (IH false).
  - apply IH.
  - apply IH.
  - apply IH.
Qed.

(** A request whose answer is on record: every one but the readers, internal
    errors and refused rotations. *)
Definition recorded (q : request) (r : response) : option string :=
  match r with
  | RError status _ =>
    if status =? 500 then None else match q with ReqRotate _ _ _ _ _ => None | _ => event_type q end
  | _ => event_type q
  end.

Section Trail.
Context {S V : Type} `{!Store S, !ViolationStore V, !Ed25519}.
Abbreviation srv := (Server S V).

(** The events only grow, and every recorded answer has its event. *)
Lemma audits_grow typ (sv sv' : srv) x : audits typ sv sv' x → sv_audit sv `prefix_of` sv_audit sv'.
Proof. destruct x as [r| |]; [|by intros ->..]. intros (pre & ev & -> & _). by apply prefix_app_r. Qed.

Lemma rotation_grows e header seed stamp ff (sv sv' : srv) fs fs' x : rotation_audits e header seed stamp ff sv sv' fs fs' x →
  sv_audit sv `prefix_of` sv_audit sv' ∧ ∀ r, x = Ok r → audits "oracle_key_rotation" sv sv' x ∨ ∃ st code, r = RError st code.
Proof.
  unfold rotation_audits. destruct (negb _); [intros (-> & _ & ->); split; [done|]; intros ? [= <-]; eauto|].
  destruct (bool_decide _); [intros (-> & _ & ->); split; [done|]; intros ? [= <-]; eauto|].
  destruct (store_Last _ _); [|intros (-> & _ & ->); split; [done|]; intros ? [= <-]; eauto|intros (-> & _ & ->); by split].
  destruct (RotateKeyFile _ _ _ _ _ _).2.
  - intros (Ha & count & ls & ->). split; [by eapply audits_grow|]. auto.
  - intros (-> & ev & -> & _). split; [by apply prefix_app_r|]. intros ? [= <-]. eauto.
  - intros [-> ->]. by split.
Qed.

Lemma serve_recorded q (sv sv' : srv) fs fs' r : serve q (sv, fs) = (sv', fs', r) →
  sv_audit sv `prefix_of` sv_audit sv' ∧
  ∀ typ, recorded q r = Some typ → ∃ ev, ev ∈ sv_audit sv' ∧ reports typ ev r.
Proof.
  unfold serve. destruct (handler q (sv, fs)) as [[sv1 fs1] x] eqn:Hh. apply handler_audits in Hh. intros Hs.
  assert (sv1 = sv' ∧ (x = Ok r ∨ r = RError 500 "INTERNAL_ERROR")) as [-> Hx] by (destruct x; simpl in Hs; simplify_eq; auto).
  assert (∀ typ, audits typ sv sv' x → event_type q = Some typ → x = Ok r →
    ∃ ev, ev ∈ sv_audit sv' ∧ reports typ ev r) as Hone.
  { intros typ Ha _ ->. destruct Ha as (pre & ev & -> & Hr & _). exists ev. split; [set_solver|done]. }
  assert (∀ typ, recorded q r = Some typ → event_type q = Some typ ∧ x = Ok r) as Hrec.
  { intros typ Ht. destruct Hx as [->| ->]; [|done]. split; [|done]. unfold recorded in Ht. repeat case_match; done. }
  destruct q as [e body|e body|e body|f a b|e header seed stamp ff].
  1-3: split; [by eapply audits_grow|]; intros typ [Ht ->]%Hrec; injection Ht as <-; by apply Hone.
  - subst. split; [done|]. by intros typ [Ht _]%Hrec.
  - destruct (rotation_grows _ _ _ _ _ _ _ _ _ _ Hh) as [Hg Hr]. split; [done|]. intros typ Ht.
    pose proof (Hrec typ Ht) as [Hty ->]. injection Hty as <-. destruct (Hr r eq_refl) as [Ha|(st & code & ->)]; [by apply Hone|].
    unfold recorded in Ht. by case_match.
Qed.

Lemma serve_all_recorded qs : ∀ (sv sv' : srv) fs fs' rs, serve_all qs (sv, fs) = (sv', fs', rs) →
  sv_audit sv `prefix_of` sv_audit sv' ∧
  ∀ q r typ, (q, r) ∈ rs → recorded q r = Some typ → ∃ ev, ev ∈ sv_audit sv' ∧ reports typ ev r.
Proof.
  induction qs as [|q qs IH]; intros sv sv' fs fs' rs Hall; cbn [serve_all] in Hall.
  { injection Hall as <- _ <-. split; [done|]. by intros ? ? ? []%not_elem_of_nil. }
  destruct (serve q (sv, fs)) as [[sv1 fs1] r] eqn:Hq. destruct (serve_all qs (sv1, fs1)) as [[sv2 fs2] rs2] eqn:Hrest.
  injection Hall as <- _ <-. destruct (serve_recorded _ _ _ _ _ _ Hq) as [Hp Hr]. destruct (IH _ _ _ _ _ Hrest) as [Hp2 Hr2].
  split; [by etrans|]. intros q' r' typ [[= -> ->]|Hin]%elem_of_cons Ht; [|eauto].
  destruct (Hr typ Ht) as (ev & Hin & ?). exists ev. split; [|done]. destruct Hp2 as [k ->]. set_solver.
Qed.

Context `{!Bolt, !BoltLaws, !Codec AuditEntry, !CodecLaws AuditEntry}.

(** C12. A healthy trail is complete.  Serve any sequence of requests on a fresh
    server while the writer runs at its own pace, drops and failing writes
    included, each event of a request becoming one attempt to queue an entry, all
    of them before [Close] (a handler that audits later panics, see
    [audit_accounting]).  Whenever the health endpoint reports no failure, the log followed by the
    queue holds exactly the entries of all events, in order; every answer that is
    to be recorded has its entry there, with details that agree with it; and once
    the writer has exited after [Close], the log alone holds them all. *)
Theorem healthy_trail_is_complete (qs : list request) (sv sv' : srv) (fs fs' : gmap string bytes)
    (rs : list (request * response)) (log : AuditLog) (l : list AuditEntry) (acts : list action) (s : AuditState) :
  serve_all qs (sv, fs) = (sv', fs', rs) → sv_audit sv = [] →
  Forall2 (λ a ev, ∃ now, a = audit_entry now ev) (attempted acts) (sv_audit sv') →
  audit_rep log l → run acts (start log) = Some s → lost_to_panic false acts = [] →
  (∀ a, a ∈ attempted acts → codec_ok a) →
  Z.of_nat (length l) + Z.of_nat (length acts) < 2 ^ 64 → (health s).1 = true →
  ∃ written, audit_rep (as_log s) (l ++ written) ∧ written ++ as_ch s = attempted acts ∧
    (as_writer s = false → as_ch s = []) ∧
    ∀ q r typ, (q, r) ∈ rs → recorded q r = Some typ →
      ∃ now ev, audit_entry now ev ∈ written ++ as_ch s ∧ reports typ ev r.
Proof.
  intros Hall Hnil Hev Hrep Hrun Hlate Hcod Hlen Hh.
  destruct (run_accounts acts (start log) s l Hrun) as (E1 & _ & E3 & E4); try done;
    cbn [start as_ch as_closed as_failures] in *; try lia.
  { apply Nat.le_0_l. }
  { intros e He. apply Hcod. rewrite (attempted_split false). by apply elem_of_app; left. }
  cbn [health fst] in Hh. apply Z.eqb_eq in Hh. rewrite Hh in E4.
  assert (audited true false acts = []) as Hd by (by destruct (audited true false acts); cbn [length] in E4; [|lia]).
  exists (with_fate true (fates acts (start log))).
  assert (with_fate true (fates acts (start log)) = (fates acts (start log)).*1) as Hst by (apply no_refused; lia).
  rewrite Hst in *. split; [done|]. split; [by rewrite (attempted_accepted false) by done|].
  split; [intros Hw; by apply (run_writer acts (start log) s Hrun)|].
  intros q r typ Hin Ht. destruct (serve_all_recorded _ _ _ _ _ _ Hall) as [_ Hr]. destruct (Hr q r typ Hin Ht) as (ev & Hin' & Hrp).
  apply list_elem_of_lookup_1 in Hin' as [i Hi]. destruct (Forall2_lookup_r _ _ _ _ _ Hev Hi) as (a & Ha & now & ->).
  exists now, ev. split; [|done]. rewrite <- E1. cbn [app]. rewrite <- (attempted_accepted false) by done.
  by eapply list_elem_of_lookup_2.
Qed.
End Trail.

(** ** Witnesses *)
Module DemoTrail.
Import Toy MapBolt DemoReceipt DemoApi DemoService.

Definition demo_settle := handler (ReqSettle (env_n 1) (Ok (settle_req 100 "ch"))) (server0, key_files).

Lemma answers_are_on_record_witness :
  length (sv_audit demo_settle.1.1) = 1%nat ∧ audits "settle" server0 demo_settle.1.1 demo_settle.2.
Proof.
  split; [vm_compute; reflexivity|].
  apply (answers_are_on_record (ReqSettle (env_n 1) (Ok (settle_req 100 "ch"))) server0 demo_settle.1.1 key_files demo_settle.1.2 demo_settle.2).
  unfold demo_settle. destruct (handler _ _) as [[a b] c]. reflexivity.
Defined.

(** The entries of the demo run, written under their time. *)
Definition demo_events : list audit_event := Eval vm_compute in sv_audit demo_run.1.1.
Definition demo_entries : list AuditEntry := imap (λ i ev, audit_entry (Z.of_nat i) ev) demo_events.

#[local] Instance time_codec : Codec AuditEntry := {|
  marshal e := Ok (pretty (ae_Timestamp e));
  unmarshal d := match list_find (λ e, pretty (ae_Timestamp e) = d) demo_entries with Some (_, e) => Ok e | None => Err "syntax" end;
  codec_ok e := e ∈ demo_entries
|}.

#[local] Instance time_codec_laws : CodecLaws AuditEntry.
Proof.
  constructor; [done|done| |vm_compute; reflexivity].
  intros e d He [= <-].
  assert (Forall (λ e, unmarshal (pretty (ae_Timestamp e)) = Ok e) demo_entries) as Hall
    by (apply (bool_decide_unpack _); vm_compute; exact I).
  rewrite Forall_forall in Hall. by apply Hall.
Qed.

Definition trail_acts : list action :=
  (demo_entries ≫= λ e, [HandlerAudits e false; WriterTakes NoFault]) ++ [CloseCalled; WriterExits].
Definition log0 : AuditLog := mkLog empty_bucket 0.

Lemma trail_log0_rep : audit_rep log0 [].
Proof. split_and!; [done|done|by intros e []%not_elem_of_nil|]. intros k. apply Get_empty. Qed.

Lemma healthy_trail_is_complete_witness :
  length demo_entries = 5%nat ∧ (health <$> run trail_acts (start log0)) = Some (true, 0) ∧
  ∃ s, run trail_acts (start log0) = Some s ∧ audit_rep (as_log s) demo_entries.
Proof.
  split; [reflexivity|].
  assert ((λ s, (health s, as_writer s)) <$> run trail_acts (start log0) = Some ((true, 0), false)) as Hh by (vm_compute; reflexivity).
  destruct (run trail_acts (start log0)) as [s|] eqn:Hrun; [|discriminate]. injection Hh as H1 H2 Hw.
  split; [exact (f_equal Some (f_equal2 pair H1 H2))|]. exists s. split; [reflexivity|].
  destruct (healthy_trail_is_complete demo_requests server0 demo_run.1.1 key_files demo_run.1.2 demo_run.2 log0 [] trail_acts s)
    as (written & Hrep & Happ & Hch & _).
  - unfold demo_run. destruct (serve_all _ _) as [[a b] c]. reflexivity.
  - reflexivity.
  - replace (sv_audit demo_run.1.1) with demo_events by (vm_compute; reflexivity).
    change (attempted trail_acts) with demo_entries.
    unfold demo_entries, demo_events. cbn [imap]. repeat (apply Forall2_cons_2; [eexists; reflexivity|]). apply Forall2_nil_2.
  - exact trail_log0_rep.
  - exact Hrun.
  - reflexivity.
  - intros a Ha. exact Ha.
  - vm_compute. reflexivity.
  - exact H1.
  - rewrite (Hch Hw), app_nil_r in Happ. rewrite Happ in Hrep. exact Hrep.
Defined.
End DemoTrail.
