(* ===== verification/Startup.v ===== *)
(** * Start-up

    [src/cmd/jurispath/main.go]: from the environment to a serving process.  What
    the operating system, the file system, the databases, the SCION daemon and
    the random source answer is a [world]; [boot] is [runServer] up to the
    server it starts, [runServer] the exit status of the process. *)

From S2P Require Import Prelude GoJson Sha256 Model Replay Policy PathCheck Scion Bolt.
From S2P Require Import ReceiptStore Receipt Validator AuditTrail Violation Ledger Consensus.
From S2P Require Import Codecs Config ScionTransport Node Api Http Service.

(** The level of the logger: letters compare without case. *)
Inductive Level := LevelDebug | LevelInfo | LevelWarn | LevelError.

Definition lower (a : Ascii.ascii) : Ascii.ascii := if between 65 90 (ord a) then chr (ord a + 32) else a.
Fixpoint to_lower (s : string) : string :=
  match s with EmptyString => EmptyString | String a s' => String (lower a) (to_lower s') end.

Definition log_level (cfg : Config) : Level :=
  let l := to_lower (LogLevel cfg) in
  if bool_decide (l = "debug") then LevelDebug
  else if bool_decide (l = "warn") || bool_decide (l = "warning") then LevelWarn
  else if bool_decide (l = "error") then LevelError
  else LevelInfo.

Definition selectPathExtractor (cfg : Config) : PathExtractor :=
  if SCIONMode cfg then RejectingPathExtractor (NewRejectingPathExtractor "")
  else MockPathExtractor unmarshalHops.

Inductive boot_err :=
| ConfigInvalid (e : config_err)
| PoliciesFailed (e : policy_err)
| GeneratorFailed (e : key_err)
| TRCsFailed (e : trc_err)
| ThresholdFailed (e : threshold_err)
| ValidatorsFailed (e : config_err)
| ValidatorIDMissing
| NetworkFailed (e : scion_err)
| LocalAddrFailed (e : scion_err)
| ListenOnSCIONFailed (e : string)
| PeersFailed (e : scion_err)
| DataDirFailed (e : string)
| ReceiptStoreFailed (e : open_err)
| SeedChainFailed (e : gen_err)
| ViolationStoreFailed (e : vstore_err)
| AuditLogFailed (e : audit_err).

Section Boot.
Context `{!Ed25519, !Snet, !Cppki, !SnetAddr, !Bolt, !Codec receipt, !Codec Violation}.

(** ** The engine

    The part of a [ConsensusEngine] that its constructors set; its ledger is the
    one the server holds.  The transport is that of one validator of a fresh local
    set, or the one over SCION. *)
Inductive ValidatorTransport := Local (t : LocalTransport) (set : inboxes) | OverSCION (t : SCIONTransport).

Record ConsensusEngine := mkEngine {
  ce_validators : list ValidatorState;
  ce_transport : option ValidatorTransport
}.

Definition NewConsensusEngine (validators : list ValidatorState) : ConsensusEngine :=
  let ids := Ledger.v_ID <$> validators in
  mkEngine validators
    match ids with
    | [] => None
    | id :: _ => let '(transports, set) := NewLocalTransportSet ids in (λ t, Local t set) <$> transports !! id
    end.

Definition NewConsensusEngineWithTransport (validators : list ValidatorState) (transport : ValidatorTransport) : ConsensusEngine :=
  mkEngine validators (Some transport).

Record world := mkWorld {
  w_env : environ;
  w_stat : string → option string;
  w_readFile : string → res string bytes;
  w_readDir : string → res string (list DirEntry);
  w_join : string → string → string;
  w_glob : string → res string (list string);
  w_yamlPolicy : bytes → res string Policy;
  w_yamlValidators : bytes → res string (list ValidatorConfig);
  w_keyFiles : gmap string bytes;
  w_keyRead : option string;
  w_keySeed : res string bytes;
  w_keyFaults : fs_faults;
  w_oracleSeeds : nat → res string bytes;
  w_daemon : Daemon;
  w_listen : Host → res string unit;
  w_mkdirAll : option string;
  w_receiptsDB : res string (gmap bytes bucket);
  w_violationsDB : res string (gmap bytes bucket);
  w_auditDB : res string (option AuditLog);
  w_fault : nat → fault;
  w_trcText : trc_err → string;
  w_thresholdText : threshold_err → string
}.

(** What runs when the listener starts. *)
Record process := mkProcess {
  p_config : Config;
  p_server : Server BoltStore BoltViolationStore;
  p_audit : AuditLog;
  p_engine : ConsensusEngine;
  p_keyFiles : gmap string bytes;
  p_listener : listener
}.

Definition validator_state (vc : ValidatorConfig) : ValidatorState := mkVal (vcfg_ID vc) (vcfg_Address vc) (vcfg_Balance vc) 0.

(** The generator with the proof provider and the threshold signer of the
    configuration. *)
Definition boot_proofs (w : world) (cfg : Config) (gen : Generator) : res boot_err Generator :=
  if bool_decide (TRCDir cfg = "") then Ok gen
  else
    trcs ← map_err TRCsFailed (NewTRCProofProvider (w_glob w) (w_readFile w) (TRCDir cfg));
    Ok (WithProofProvider (Some (λ hop, map_err (w_trcText w) (BuildProof trcs hop))) gen).

Definition boot_threshold (w : world) (cfg : Config) (gen : Generator) : res boot_err Generator :=
  if (0 <? ThresholdK cfg) || (0 <? ThresholdN cfg) then
    to ← map_err ThresholdFailed (NewThresholdOracle (w_oracleSeeds w) (ThresholdK cfg) (ThresholdN cfg));
    Ok (WithThresholdSigner (Some (λ payload, map_err (w_thresholdText w) (SignThreshold to payload))) gen)
  else Ok gen.

(** The engine with its transport, which its rounds never use. *)
Definition boot_engine (w : world) (cfg : Config) (vs : list ValidatorState) : res boot_err ConsensusEngine :=
  if SCIONMode cfg then
    if bool_decide (ValidatorID cfg = "") then Err ValidatorIDMissing
    else
      _ ← map_err NetworkFailed (NewSCIONNetwork (w_daemon w) (SCIONDaemon cfg)).1;
      localAddr ← map_err LocalAddrFailed (ParseSCIONLocalAddr (ValidatorID cfg) vs);
      _ ← map_err ListenOnSCIONFailed (w_listen w localAddr);
      peers ← map_err PeersFailed (ParseSCIONPeers (ValidatorID cfg) vs);
      Ok (NewConsensusEngineWithTransport vs (OverSCION (NewSCIONTransport (ValidatorID cfg) peers)))
  else Ok (NewConsensusEngine vs).

(** The three databases, and the generator seeded from the first. *)
Definition boot_stores (w : world) (gen : Generator) :
    res boot_err (BoltStore * Generator * BoltViolationStore * AuditLog) :=
  _ ← match w_mkdirAll w with Some e => Err (DataDirFailed e) | None => Ok tt end;
  receiptStore ← map_err ReceiptStoreFailed (NewBoltStore (w_receiptsDB w) (w_fault w 0) (w_fault w 1));
  let '(gen', seeded) := SeedChain (w_fault w 2) receiptStore gen in
  _ ← map_err SeedChainFailed seeded;
  violationStore ← map_err ViolationStoreFailed (NewBoltViolationStore (w_violationsDB w) (w_fault w 3));
  auditLog ← map_err AuditLogFailed (NewAuditLog (w_auditDB w) (w_fault w 4));
  Ok (receiptStore, gen', violationStore, auditLog).

Definition boot_server (cfg : Config) (policies : list Policy) (gen : Generator) (ledger : Ledger) (engine : ConsensusEngine)
    (receiptStore : BoltStore) (violationStore : BoltViolationStore) : Server BoltStore BoltViolationStore :=
  NewServer policies gen (selectPathExtractor cfg) ledger (ce_validators engine) receiptStore (NewDetector violationStore)
    [WithBearerToken (APIToken cfg); WithAdminToken (AdminToken cfg); WithOracleKeyPath (OracleKeyPath cfg)].

Definition boot_listener (cfg : Config) : listener :=
  let httpServer := NewHTTPServer (ListenAddr cfg) in
  if TLSEnabled cfg then TLSListener httpServer (TLSCert cfg) (TLSKey cfg) else PlainListener httpServer.

Definition boot (w : world) : res boot_err process :=
  let cfg := Load (w_env w) in
  _ ← map_err ConfigInvalid (Config.Validate (w_stat w) cfg);
  policies ← map_err PoliciesFailed (LoadAllFromDir (w_readFile w) (w_readDir w) (w_join w) (w_yamlPolicy w) (PolicyDir cfg));
  let '(files, gen0) := NewGeneratorFromFile (w_keyRead w) (w_keySeed w) (w_keyFaults w) (OracleKeyPath cfg) (w_keyFiles w) in
  gen1 ← map_err GeneratorFailed gen0;
  gen2 ← boot_proofs w cfg gen1;
  gen3 ← boot_threshold w cfg gen2;
  vcs ← map_err ValidatorsFailed (LoadValidators (w_readFile w) (w_yamlValidators w) (ValidatorsFile cfg));
  let vs := validator_state <$> vcs in
  engine ← boot_engine w cfg vs;
  let ledger := NewLedger vs in
  stores ← boot_stores w gen3;
  let '(receiptStore, gen, violationStore, auditLog) := stores in
  Ok (mkProcess cfg (boot_server cfg policies gen ledger engine receiptStore violationStore)
        auditLog engine files (boot_listener cfg)).

(** How serving ends: the listener fails ([None] for [ErrServerClosed]), or a
    signal arrives, with the error of the graceful shutdown and then of the
    listener. *)
Inductive serve_end :=
| ListenerExited (e : option string)
| Signalled (shutdown listener : option string).

Definition serve_status (o : serve_end) : Z :=
  match o with
  | ListenerExited None => 0
  | ListenerExited (Some _) => 1
  | Signalled (Some _) _ => 1
  | Signalled None (Some _) => 1
  | Signalled None None => 0
  end.

(** A Go panic ends the process with status 2. *)
Definition runServer (w : world) (o : serve_end) : Z :=
  match boot w with Ok _ => serve_status o | Err _ => 1 | Panic => 2 end.
End Boot.

Section Results.
Context `{!Ed25519, !Ed25519Laws, !Snet, !Cppki, !SnetAddr, !Bolt, !BoltLaws, !Codec receipt, !CodecLaws receipt, !Codec Violation}.
Implicit Types (w : world) (p : process).

(** ** The invariant at start-up *)
Lemma substring_in n : ∀ m (s : string), (m + n ≤ String.length s)%nat → String.length (String.substring m n s) = n.
Proof.
  induction n as [|n IHn]; intros m; (induction m as [|m IH]; intros [|a s] Hl; simpl in *; try lia;
    first [done|apply IH; lia|f_equal; apply (IHn 0%nat); lia]).
Qed.

Lemma NewGeneratorFromFile_keys rd seed ff path files files' g : (∀ s, seed = Ok s → len s = SeedSize) →
  NewGeneratorFromFile rd seed ff path files = (files', Ok g) → keys_ok g ∧ g_seqNo g = 0.
Proof.
  intros Hseed. unfold NewGeneratorFromFile.
  assert (∀ s, len s = SeedSize → keys_ok (NewGeneratorWithKeys (ed_from_seed s) (ed_public (ed_from_seed s)))) as Hk.
  { intros s Hs. split; [by apply ed_from_seed_length|done]. }
  destruct rd; [done|]. destruct (files !! path) as [data|].
  - destruct (len data =? 36) eqn:Hl; [|done]. cbv [negb]. case_bool_decide; [|done]. intros [= <- <-]. split; [|done].
    apply Hk. zbool. rewrite substring_in; [done|]. lia.
  - destruct seed as [s| |]; [|done..]. destruct (writeKeyFile _ _ _ _) as [f [[]| |]]; [|done..]. intros [= <- <-].
    split; [|done]. by apply Hk, Hseed.
Qed.

Lemma boot_proofs_keys w cfg g g' : boot_proofs w cfg g = Ok g' → keys_ok g → keys_ok g' ∧ g_seqNo g' = g_seqNo g.
Proof. unfold boot_proofs. case_bool_decide; intros Hb; inv_ok; by split. Qed.

Lemma boot_threshold_keys w cfg g g' : boot_threshold w cfg g = Ok g' → keys_ok g → keys_ok g' ∧ g_seqNo g' = g_seqNo g.
Proof. unfold boot_threshold. destruct (_ || _); intros Hb; inv_ok; by split. Qed.

Lemma SeedChain_keys f (s : BoltStore) g g' x : SeedChain f s g = (g', Ok x) → keys_ok g →
  keys_ok g' ∧ ∃ o, store_Last f s = Ok o ∧ g_seqNo g' = match o with Some r => r_SeqNo r | None => g_seqNo g end.
Proof.
  unfold SeedChain. destruct (store_Last f s) as [[r|]| |]; [|by intros [= <-]; eauto|done..].
  destruct (negb _); intros [= <-] Hk; split; try done; by exists (Some r).
Qed.


(** Every checker is that of a loaded policy. *)
Lemma checkers_of policies : ∀ (m : gmap string Checker) id c, foldl (λ m q, <[pol_ID q := NewChecker q]> m) m policies !! id = Some c →
  m !! id = Some c ∨ (c_replayDetector c = None ∧ c_policy c ∈ policies ∧ pol_ID (c_policy c) = id).
Proof.
  induction policies as [|q policies IH]; intros m id c; cbn [foldl]; [auto|].
  intros [Hc|(? & ? & ?)]%IH; [|right; split_and!; [done|by right|done]].
  apply lookup_insert_Some in Hc as [[<- <-]|[_ ?]]; [|auto]. right. split_and!; [done|by left|done].
Qed.

Lemma boot_engine_validators w cfg vs engine : boot_engine w cfg vs = Ok engine → ce_validators engine = vs.
Proof. unfold boot_engine. destruct (SCIONMode cfg); [case_bool_decide; [done|]|]; intros Hb; inv_ok; done. Qed.

Lemma boot_stores_inv w g rs gen vs al : boot_stores w g = Ok (rs, gen, vs, al) →
  ∃ x, NewBoltStore (w_receiptsDB w) (w_fault w 0) (w_fault w 1) = Ok rs ∧ SeedChain (w_fault w 2) rs g = (gen, Ok x) ∧
    NewBoltViolationStore (w_violationsDB w) (w_fault w 3) = Ok vs ∧ NewAuditLog (w_auditDB w) (w_fault w 4) = Ok al.
Proof.
  unfold boot_stores. intros Hb. apply bind_Ok in Hb as (u & _ & Hb). apply bind_Ok in Hb as (s & Hs%map_err_Ok & Hb).
  destruct (SeedChain _ _ _) as [g' sd] eqn:Hsd. apply bind_Ok in Hb as (x & Hx%map_err_Ok & Hb). subst sd.
  inv_ok. by exists x.
Qed.

Lemma boot_inv w p : boot w = Ok p →
  p_config p = Load (w_env w) ∧ Config.Validate (w_stat w) (p_config p) = Ok tt ∧ p_listener p = boot_listener (p_config p) ∧
  ∃ policies gen files g1 g2 g3 vcs tr rs vs al x,
    LoadAllFromDir (w_readFile w) (w_readDir w) (w_join w) (w_yamlPolicy w) (PolicyDir (p_config p)) = Ok policies ∧
    NewGeneratorFromFile (w_keyRead w) (w_keySeed w) (w_keyFaults w) (OracleKeyPath (p_config p)) (w_keyFiles w) = (files, Ok g1) ∧
    boot_proofs w (p_config p) g1 = Ok g2 ∧ boot_threshold w (p_config p) g2 = Ok g3 ∧
    LoadValidators (w_readFile w) (w_yamlValidators w) (ValidatorsFile (p_config p)) = Ok vcs ∧
    boot_engine w (p_config p) (validator_state <$> vcs) = Ok tr ∧ p_engine p = tr ∧
    NewBoltStore (w_receiptsDB w) (w_fault w 0) (w_fault w 1) = Ok rs ∧ SeedChain (w_fault w 2) rs g3 = (gen, Ok x) ∧
    NewBoltViolationStore (w_violationsDB w) (w_fault w 3) = Ok vs ∧ NewAuditLog (w_auditDB w) (w_fault w 4) = Ok al ∧
    p_server p = NewServer policies gen (selectPathExtractor (p_config p)) (NewLedger (validator_state <$> vcs))
      (validator_state <$> vcs) rs (NewDetector vs)
      [WithBearerToken (APIToken (p_config p)); WithAdminToken (AdminToken (p_config p)); WithOracleKeyPath (OracleKeyPath (p_config p))].
Proof.
  unfold boot. intros Hb. cbv zeta in Hb. apply bind_Ok in Hb as ([] & Hv%map_err_Ok & Hb).
  apply bind_Ok in Hb as (policies & Hpol%map_err_Ok & Hb).
  destruct (NewGeneratorFromFile _ _ _ _ _) as [files g0] eqn:Hg. 
  apply bind_Ok in Hb as (g1 & Hg1%map_err_Ok & Hb). subst g0.
  apply bind_Ok in Hb as (g2 & Hg2 & Hb). apply bind_Ok in Hb as (g3 & Hg3 & Hb).
  apply bind_Ok in Hb as (vcs & Hvc%map_err_Ok & Hb). apply bind_Ok in Hb as (tr & Htr & Hb).
  apply bind_Ok in Hb as ([[[rs gen] vs] al] & Hst & Hb).
  destruct (boot_stores_inv _ _ _ _ _ _ Hst) as (x & Hrs & Hs & Hvs & Hal).
  injection Hb as <-. cbn [p_config p_engine p_server p_listener]. split; [done|]. split; [done|]. split; [done|].
  exists policies, gen, files, g1, g2, g3, vcs, tr, rs, vs, al, x. unfold boot_server. rewrite (boot_engine_validators _ _ _ _ Htr). by split_and!.
Qed.

(** What the databases hold when the process starts. *)
Definition holds w (l : list receipt) : Prop :=
  ∀ s, NewBoltStore (w_receiptsDB w) (w_fault w 0) (w_fault w 1) = Ok s → bolt_rep s l.

Lemma boot_server_ok w p (l : list receipt) :
  boot w = Ok p → (∀ s, w_keySeed w = Ok s → len s = SeedSize) →
  solvent (validators (sv_ledger (p_server p))) → holds w l → increasing l →
  server_ok (p_server p) l ∧ Forall policy_ok (sv_policies (p_server p)) ∧
  (w_fault w 2 = NoFault → (∀ r, last l = Some r → codec_ok r) → g_seqNo (sv_generator (p_server p)) = from_option r_SeqNo 0 (last l)).
Proof.
  intros Hb Hseed Hsol Hdb Hinc.
  destruct (boot_inv w p Hb) as (_ & _ & _ & policies & gen & files & g1 & g2 & g3 & vcs & tr & rs & vs & al & x & Hbt).
  destruct Hbt as (Hpol & Hg1 & Hg2 & Hg3 & Hvc & _ & _ & Hrs & Hs & _ & _ & Hsv). rewrite Hsv in *. cbn [NewServer foldl WithBearerToken WithAdminToken WithOracleKeyPath sv_ledger] in Hsol.
  destruct (NewGeneratorFromFile_keys _ _ _ _ _ _ _ Hseed Hg1) as [Hk1 Hq1].
  destruct (boot_proofs_keys w _ _ _ Hg2 Hk1) as [Hk2 Hq2]. destruct (boot_threshold_keys w _ _ _ Hg3 Hk2) as [Hk3 Hq3].
  destruct (SeedChain_keys _ _ _ _ _ Hs Hk3) as [Hk (o & Ho & Hq)].
  split_and!.
  - constructor; cbn [NewServer foldl WithBearerToken WithAdminToken WithOracleKeyPath sv_checkers sv_policies sv_receipts sv_generator sv_detector sv_validators sv_ledger].
    + intros id c Hc. apply checkers_of in Hc as [Hc|?]; [by rewrite lookup_empty in Hc|done].
    + apply NewServer_filters.
    + by apply Hdb.
    + done.
    + apply NewDetector_ok.
    + apply NewLedger_engine_ok; [|done]. unfold LoadValidators in Hvc. inv_ok. case_bool_decide as Hne; [done|]. inv_ok.
      by destruct vcs.
  - cbn [NewServer foldl WithBearerToken WithAdminToken WithOracleKeyPath sv_policies]. unfold LoadAllFromDir in Hpol. inv_ok. by eapply load_entries_ok.
  - intros Hf Hread. cbn [NewServer foldl WithBearerToken WithAdminToken WithOracleKeyPath sv_generator]. rewrite Hf in Ho.
    rewrite (st_last (StoreLaws := BoltStore_laws) rs l (Hdb rs Hrs) Hinc Hread) in Ho. injection Ho as <-.
    rewrite Hq. destruct (last l); [done|]. cbn [from_option]. lia.
Qed.


(** A server that starts is in a good state.  When start-up succeeds, on a key
    source of the right length, a validators file whose balances are in range and
    a receipts database that holds [l] in order, the server satisfies the
    invariant that the theorems on its handlers rely on, with that list of
    receipts; the policies it serves are strict; and, the database answering and
    the last receipt surviving its encoding, its generator continues from the sequence number of the last stored receipt. *)
Theorem startup_establishes_invariant w p (l : list receipt) :
  boot w = Ok p → (∀ s, w_keySeed w = Ok s → len s = SeedSize) →
  solvent (validators (sv_ledger (p_server p))) → holds w l → increasing l →
  server_ok (p_server p) l ∧ Forall policy_ok (sv_policies (p_server p)) ∧
  (w_fault w 2 = NoFault → (∀ r, last l = Some r → codec_ok r) → g_seqNo (sv_generator (p_server p)) = from_option r_SeqNo 0 (last l)).
Proof. apply boot_server_ok. Qed.


(** ** SCION mode *)
Definition refused (r : response) : Prop := match r with RError status _ => 400 ≤ status | _ => False end.

(** No path can be built, and the ledger has no transactions. *)
Definition quiet {S V} (sv : Server S V) : Prop :=
  (∀ raw, ∃ e, BuildSCIONPath (sv_extractor sv) raw = Err e) ∧ ∀ id, GetTransaction id (sv_ledger sv) = None.

(** Whether a request asks for a path to be taken as evidence. *)
Definition offers_path (q : request) : bool := match q with ReqCheck _ _ | ReqSettle _ _ => true | _ => false end.

Lemma handler_quiet {S V} `{!Store S, !ViolationStore V} q (sv sv' : Server S V) fs fs' x : quiet sv →
  handler q (sv, fs) = (sv', fs', x) →
  sv_ledger sv' = sv_ledger sv ∧ sv_receipts sv' = sv_receipts sv ∧ sv_detector sv' = sv_detector sv ∧
  sv_extractor sv' = sv_extractor sv ∧ (offers_path q = true → sv_generator sv' = sv_generator sv ∧ refused (recovered (sv', x)).2).
Proof.
  intros [Hext Hnone]. destruct q as [e body|e body|e body|f a b|e header seed stamp ff]; cbn [handler];
    unfold handleCheck, handleSettle, handleFilterPaths, handleRotateKey, fail.
  - destruct body as [req| |]; [|intros [= <- _ <-]; by split_and!..]. cbv zeta. rewrite Hnone.
    rewrite (bool_decide_eq_false_2 (is_Some None)), andb_false_r by apply is_Some_None.
    destruct (sv_checkers sv !! cq_PolicyID req); [|intros [= <- _ <-]; by split_and!].
    destruct (Hext (cq_RawPath req)) as [? ->]. intros [= <- _ <-]. by split_and!.
  - destruct body as [req| |]; [|intros [= <- _ <-]; by split_and!..]. cbv zeta. rewrite Hnone.
    repeat match goal with |- context [if ?b then (set_audit _ _, _) else _] => destruct b; [intros [= <- _ <-]; by split_and!|] end.
    destruct (sv_checkers sv !! sq_PolicyID req); [|intros [= <- _ <-]; by split_and!].
    destruct (Hext (default "" (sq_RawPath req))) as [? ->]. intros [= <- _ <-]. by split_and!.
  - destruct body as [req| |]; [|intros [= <- _ _]; by split_and!..]. destruct (sv_filters sv !! _); intros [= <- _ _]; by split_and!.
  - destruct (handleVerifyChain f a b sv) as [sv1 y] eqn:Hv. apply handleVerifyChain_state in Hv as ->. intros [= <- _ _]. by split_and!.
  - destruct (negb _); [intros [= <- _ _]; by split_and!|]. case_bool_decide; [intros [= <- _ _]; by split_and!|].
    destruct (store_Last _ _); [|intros [= <- _ _]; by split_and!..].
    destruct (RotateKeyFile _ _ _ _ _ _) as [[g f'] []]; intros [= <- _ _]; by split_and!.
Qed.

(** C37. In SCION mode the API settles nothing.  Whatever requests a process started
    in that mode receives, it refuses every check and every settlement, and
    ledger, receipts and violations stay as they were at start-up: a raw path
    supplied by a caller is never taken as evidence. *)
Theorem scion_mode_settles_nothing w p (qs : list request) :
  boot w = Ok p → SCIONMode (p_config p) = true →
  let '(sv, _, rs) := serve_all qs (p_server p, p_keyFiles p) in
  Forall (λ '(q, r), offers_path q = true → refused r) rs ∧ length rs = length qs ∧ sv_ledger sv = sv_ledger (p_server p) ∧
  sv_receipts sv = sv_receipts (p_server p) ∧ sv_detector sv = sv_detector (p_server p).
Proof.
  intros Hb Hm. assert (quiet (p_server p)) as Hq.
  { destruct (boot_inv w p Hb) as (_ & _ & _ & ? & ? & ? & ? & ? & ? & ? & ? & ? & ? & ? & ? & Hbt).
    destruct_and! Hbt. match goal with Heq : p_server p = _ |- _ => rewrite Heq end. split; [|done].
    intros raw. unfold selectPathExtractor. cbn [NewServer foldl WithBearerToken WithAdminToken WithOracleKeyPath sv_extractor]. rewrite Hm. eexists. reflexivity. }
  clear Hb Hm. generalize dependent (p_keyFiles p). generalize dependent (p_server p). clear p.
  induction qs as [|q qs IH]; intros sv Hq fs; cbn [serve_all]; [done|].
  unfold serve. destruct (handler q (sv, fs)) as [[sv1 fs1] x] eqn:Hh.
  destruct (handler_quiet q sv sv1 fs fs1 x Hq Hh) as (F1 & F2 & F3 & Hext & F4).
  assert (quiet sv1) as Hq1.
  { destruct Hq as [? ?]. split; [by rewrite Hext|by rewrite F1]. }
  pose proof (recovered_state sv1 x) as Hst. destruct (recovered (sv1, x)) as [sv1' r] eqn:Hr. cbn [fst] in Hst. subst sv1'.
  specialize (IH sv1 Hq1 fs1). destruct (serve_all qs (sv1, fs1)) as [[sv2 fs2] rs]. destruct IH as (Hrs & Hlen & E1 & E2 & E3).
  split_and!; [constructor; [intros Ho; by apply F4|done]|cbn [length]; by rewrite Hlen|congruence..].
Qed.

(** C31. A process that serves is guarded.  Start-up succeeds only with TLS or the
    explicit opt-in to plaintext; the listener it starts speaks plain text only
    with that opt-in in the environment, and TLS only with files that exist; and,
    unless anonymous access was opted into, only with a token in the environment,
    which every request to the API must then present exactly; no default of the
    configuration opens the API. *)
Theorem startup_fails_closed w p : boot w = Ok p →
  transport_safe (w_stat w) (p_config p) ∧
  (∀ s, p_listener p = PlainListener s → w_env w "JURISPATH_INSECURE" = "true") ∧
  (∀ s cert key, p_listener p = TLSListener s cert key → w_stat w cert = None ∧ w_stat w key = None) ∧
  (w_env w "JURISPATH_UNAUTHENTICATED_API" ≠ "true" →
   w_env w "JURISPATH_API_TOKEN" ≠ "" ∧
   ∀ path header, path = "/api" ∨ has_prefix path "/api/" = true →
     authorized (sv_apiToken (p_server p)) path header = true →
     header = "Bearer " +:+ w_env w "JURISPATH_API_TOKEN").
Proof.
  intros Hb. destruct (boot_inv w p Hb) as (Hcfg & Hv & Hli & ? & ? & ? & ? & ? & ? & ? & ? & ? & ? & ? & ? & Hbt).
  destruct_and! Hbt. match goal with Heq : p_server p = _ |- _ => rewrite Heq end.
  apply Validate_ok in Hv as (_ & Hsafe & Hauth & _). split; [done|].
  assert ((∀ s, p_listener p = PlainListener s → AllowInsecure (p_config p) = true) ∧
    (∀ s cert key, p_listener p = TLSListener s cert key → w_stat w cert = None ∧ w_stat w key = None)) as [Hplain Htls].
  { rewrite Hli. clear -Hsafe. unfold boot_listener, TLSEnabled.
    destruct Hsafe as [(Hc & Hk & Hsc & Hsk)|(-> & -> & Hins)]; [|done].
    destruct (is_empty_reflect (TLSCert (p_config p))), (is_empty_reflect (TLSKey (p_config p))); try done.
    split; [done|]. by intros ? ? ? [= _ <- <-]. }
  split; [intros s Hs; apply Hplain in Hs; rewrite Hcfg in Hs; by apply bool_decide_eq_true in Hs|]. split; [done|].
  intros Hno. rewrite Hcfg in *.
  cbn [NewServer foldl WithBearerToken WithAdminToken WithOracleKeyPath sv_apiToken Load APIToken AllowUnauthAPI] in *. rewrite bool_decide_eq_true in Hauth.
  destruct Hauth as [Htok|?]; [|done]. split; [done|]. intros path header Hpath Ha.
  apply authorized_iff in Ha as [?|[[? Hp]|?]]; [done| |done]. rewrite Hp in Hpath. by destruct Hpath.
Qed.
End Results.

(** ** Witnesses *)
Module DemoBoot.
Import Toy MapBolt DemoReceipt.
#[local] Existing Instance demo_snet.
#[local] Existing Instance demo_cppki.

#[local] Instance demo_addr : SnetAddr := {|
  Host := unit;
  ParseUDPAddr _ := Ok (mkUDP (0 : IA) None tt);
  UDPAddr_String _ := ""
|}.

(** Receipts and violations are written as JSON, the clause of a violation as one
    fixed text; no violation is read back here. *)
#[local] Instance receipt_json : Codec receipt := receipt_codec (λ _, None).
#[local] Instance receipt_json_laws : CodecLaws receipt := receipt_codec_laws (λ _, None).
#[local] Instance violation_json : Codec Violation := {|
  marshal v := marshal_at (v_Timestamp v) (Violation_json (λ _, "clause") v); unmarshal _ := Err "not read"; codec_ok _ := False
|}.

Definition environment (scion : bool) (key : string) : string :=
  match key with
  | "JURISPATH_INSECURE" => "true"
  | "JURISPATH_API_TOKEN" => "tok"
  | "JURISPATH_VALIDATOR_ID" => "CH"
  | "JURISPATH_SCION_MODE" => if scion then "true" else ""
  | _ => ""
  end.

Definition demo_world (scion : bool) : world := {|
  w_env := environment scion;
  w_stat _ := None;
  w_readFile _ := Ok "";
  w_readDir _ := Ok [mkEntry "swiss.yaml" false];
  w_join d f := d +:+ "/" +:+ f;
  w_glob _ := Ok [];
  w_yamlPolicy _ := Ok swiss_policy;
  w_yamlValidators _ := Ok ((λ v, mkValidatorConfig (v_ID v) (v_Address v) (v_Balance v)) <$> demo_validators);
  w_keyFiles := ∅;
  w_keyRead := None;
  w_keySeed := Ok seed2;
  w_keyFaults := no_faults;
  w_oracleSeeds _ := Ok seed2;
  w_daemon := mkDaemon (Ok tt) (Ok 0) (Ok (31000, 32767)) (Ok ∅);
  w_listen _ := Ok tt;
  w_mkdirAll := None;
  w_receiptsDB := Ok ∅;
  w_violationsDB := Ok ∅;
  w_auditDB := Ok None;
  w_fault _ := NoFault;
  w_trcText _ := "trc";
  w_thresholdText _ := "threshold"
|}.

Lemma boots scion : is_ok (boot (demo_world scion)) = true.
Proof. destruct scion; vm_compute; reflexivity. Qed.

Lemma started scion : ∃ p, boot (demo_world scion) = Ok p.
Proof. pose proof (boots scion) as Hb. destruct (boot (demo_world scion)) as [p| |]; [by exists p|done..]. Defined.

Lemma started_ledger scion p : boot (demo_world scion) = Ok p → sv_ledger (p_server p) = NewLedger demo_validators.
Proof.
  intros Hb. destruct (boot_inv _ p Hb) as (_ & _ & _ & policies & gen & files & g1 & g2 & g3 & vcs & tr & rs & vs & al & x & Hbt).
  destruct_and! Hbt. match goal with Heq : p_server p = _ |- _ => rewrite Heq end. cbn [NewServer foldl WithBearerToken WithAdminToken WithOracleKeyPath sv_ledger]. f_equal.
  match goal with Heq : LoadValidators _ _ _ = Ok vcs |- _ => revert Heq end.
  unfold LoadValidators. cbn [demo_world w_readFile w_yamlValidators]. intros Hv. inv_ok.
  case_bool_decide; [done|]. inv_ok. reflexivity.
Qed.

Lemma demo_holds scion : holds (demo_world scion) [].
Proof. intros s. cbn [demo_world w_receiptsDB w_fault]. rewrite NewBoltStore_fresh. intros [= <-]. exact empty_rep. Qed.

Lemma startup_establishes_invariant_witness :
  ∃ p, boot (demo_world false) = Ok p ∧ server_ok (p_server p) [] ∧ g_seqNo (sv_generator (p_server p)) = 0.
Proof.
  destruct (started false) as [p Hb]. exists p. split; [exact Hb|].
  destruct (startup_establishes_invariant (demo_world false) p [] Hb) as (Hok & _ & Hq).
  - intros s [= <-]. reflexivity.
  - rewrite (started_ledger false p Hb). apply demo_solvent.
  - apply demo_holds.
  - constructor.
  - split; [exact Hok|]. apply Hq; [reflexivity|discriminate].
Defined.






Lemma scion_mode_settles_nothing_witness :
  ∃ p, boot (demo_world true) = Ok p ∧
    sv_ledger (serve_all [ReqSettle (mkEnv (λ _, "id") (λ _, 0) (λ _, NoFault) "" (λ _, "error"))
      (Ok (mkSettleReq "tx-1" "CH" "EU" 100 "CHF" "swiss-dlt-act-v1" (Some "raw")))] (p_server p, p_keyFiles p)).1.1 =
    sv_ledger (p_server p).
Proof.
  destruct (started true) as [p Hb]. exists p. split; [exact Hb|].
  pose proof (scion_mode_settles_nothing (demo_world true) p [ReqSettle (mkEnv (λ _, "id") (λ _, 0) (λ _, NoFault) "" (λ _, "error"))
    (Ok (mkSettleReq "tx-1" "CH" "EU" 100 "CHF" "swiss-dlt-act-v1" (Some "raw")))] Hb) as H.
  destruct (serve_all _ _) as [[sv fs] rs]. apply H. destruct (boot_inv _ p Hb) as (-> & _). reflexivity.
Defined.

Lemma startup_fails_closed_witness :
  ∃ p, boot (demo_world false) = Ok p ∧ transport_safe (w_stat (demo_world false)) (p_config p) ∧
    ∀ header, authorized (sv_apiToken (p_server p)) "/api/settle" header = true → header = "Bearer " +:+ "tok".
Proof.
  destruct (started false) as [p Hb]. exists p. split; [exact Hb|].
  destruct (startup_fails_closed (demo_world false) p Hb) as (Hs & _ & _ & Ht). split; [exact Hs|].
  destruct Ht as [_ Ht]; [discriminate|]. intros header. apply (Ht "/api/settle" header). right. reflexivity.
Defined.
End DemoBoot.
