(* ===== verification/Cli.v ===== *)
(** * The command line

    [src/cmd/jurispath/cli.go]: the client commands, from their flags to the
    request they send and from the reply to what is printed and the exit status.
    The argument parser is a parameter that gives the command with its flags or
    an error; so are the resolution of URLs and the HTTP exchange.  Printed tables
    are the cells of their rows, printed JSON is the value. *)

From S2P Require Import Prelude GoJson Json GoDecode Sha256 Model Replay Policy PathCheck Scion Bolt.
From S2P Require Import ReceiptStore Receipt Violation Ledger Consensus Codecs Api.

(** ** Strings *)
Fixpoint split_on (c : Z) (s : string) : list string :=
  match s with
  | EmptyString => [""]
  | String a s' =>
    if ord a =? c then "" :: split_on c s'
    else match split_on c s' with p :: ps => String a p :: ps | [] => [String a ""] end
  end.

(** [strings.Cut] at one character. *)
Fixpoint cut (c : Z) (s : string) : option (string * string) :=
  match s with
  | EmptyString => None
  | String a s' => if ord a =? c then Some ("", s') else match cut c s' with Some (x, y) => Some (String a x, y) | None => None end
  end.

Fixpoint prefix_of (p s : string) : bool :=
  match p, s with
  | EmptyString, _ => true
  | String a p', String b s' => (ord a =? ord b) && prefix_of p' s'
  | String _ _, EmptyString => false
  end.

(** [strings.Contains] *)
Fixpoint contains (s sub : string) : bool :=
  prefix_of sub s || match s with EmptyString => false | String _ s' => contains s' sub end.

Fixpoint rev_string (acc s : string) : string := match s with EmptyString => acc | String a s' => rev_string (String a acc) s' end.

(** The encodings of the runes that [unicode.IsSpace] accepts. *)
Definition spaces : list string :=
  (char <$> [9; 10; 11; 12; 13; 32]) ++ (string_of <$> [[194; 133]; [194; 160]; [225; 154; 128]]) ++
  ((λ z, string_of [226; 128; z]) <$> [128; 129; 130; 131; 132; 133; 134; 135; 136; 137; 138; 168; 169; 175]) ++
  (string_of <$> [[226; 129; 159]; [227; 128; 128]]).

(** Drop what leads the text while it is one of [l]; each round drops at least one
    octet. *)
Fixpoint trim_with (l : list string) (fuel : nat) (s : string) : string :=
  match fuel with
  | O => s
  | S n => match omap (λ p, strip p s) l with s' :: _ => trim_with l n s' | [] => s end
  end.

Definition trim_left (s : string) : string := trim_with spaces (String.length s) s.
Definition trim_right (s : string) : string :=
  rev_string "" (trim_with (rev_string "" <$> spaces) (String.length s) (rev_string "" s)).

(** [strings.TrimSpace] *)
Definition TrimSpace (s : string) : string := trim_right (trim_left s).

(** ** Paths from flags *)
Fixpoint hops_of_parts (parts : list string) : res string (list ASHop) :=
  match parts with
  | [] => Ok []
  | part :: parts' =>
    let ia := TrimSpace part in
    if is_empty ia then hops_of_parts parts'
    else match cut 45 ia with
         | None => Err "path hop must be an IA like 1-ff00:0:110"
         | Some (isdPart, as_) =>
           match ParseUint 16 isdPart with
           | None => Err "path hop has invalid ISD"
           | Some isd => hops ← hops_of_parts parts'; Ok (mkHop ia isd as_ "" :: hops)
           end
         end
  end.

Definition rawPathFromSpec (spec : string) : res string bytes :=
  if is_empty (TrimSpace spec) then Err "--path is required"
  else
    hops ← hops_of_parts (split_on 44 spec);
    if bool_decide (hops = []) then Err "--path must contain at least one IA"
    else map_err (λ e, "build mock path: " +:+ e) (NewMockPath hops).

Fixpoint paths_of_parts (parts : list string) : res string (list SCIONPath) :=
  match parts with
  | [] => Ok []
  | part :: parts' =>
    let part := TrimSpace part in
    if is_empty part then paths_of_parts parts'
    else
      raw ← rawPathFromSpec part;
      path ← map_err (λ _, "build path") (BuildSCIONPath (MockPathExtractor unmarshalHops) raw);
      paths ← paths_of_parts parts';
      Ok (path :: paths)
  end.

Definition pathsFromSpecs (specs : string) : res string (list SCIONPath) :=
  if is_empty (TrimSpace specs) then Err "--paths is required"
  else
    paths ← paths_of_parts (split_on 59 specs);
    if bool_decide (paths = []) then Err "--paths is required" else Ok paths.

(** ** Request bodies *)
Definition CheckRequest_json (r : CheckRequest) : json :=
  JObj [("transaction_id", JStr (cq_TransactionID r)); ("policy_id", JStr (cq_PolicyID r)); ("raw_path", JBytes (cq_RawPath r))].

Definition SettleRequest_json (r : SettleRequest) : json :=
  JObj (omit_if (is_empty (sq_TransactionID r)) "transaction_id" (JStr (sq_TransactionID r)) ++
        [("from", JStr (sq_From r)); ("to", JStr (sq_To r)); ("amount", JNum (sq_Amount r)); ("currency", JStr (sq_Currency r));
         ("policy_id", JStr (sq_PolicyID r)); ("raw_path", JBytes (default "" (sq_RawPath r)))]).

Definition FilterPathsRequest_json (r : FilterPathsRequest) : json :=
  JObj [("policy_id", JStr (fq_PolicyID r)); ("paths", JSlice SCIONPath_json (fq_Paths r))].

(** The decoders of the server's request types. *)
Definition set_cq_TransactionID v (r : CheckRequest) := mkCheckReq v (cq_PolicyID r) (cq_RawPath r).
Definition set_cq_PolicyID v (r : CheckRequest) := mkCheckReq (cq_TransactionID r) v (cq_RawPath r).
Definition set_cq_RawPath v (r : CheckRequest) := mkCheckReq (cq_TransactionID r) (cq_PolicyID r) v.
Definition store_CheckRequest : store CheckRequest := store_struct
  [("transaction_id", field cq_TransactionID set_cq_TransactionID store_string);
   ("policy_id", field cq_PolicyID set_cq_PolicyID store_string); ("raw_path", field cq_RawPath set_cq_RawPath store_bytes)].

Definition set_sq_TransactionID v (r : SettleRequest) := let '(mkSettleReq _ b c d e f g) := r in mkSettleReq v b c d e f g.
Definition set_sq_From v (r : SettleRequest) := let '(mkSettleReq a _ c d e f g) := r in mkSettleReq a v c d e f g.
Definition set_sq_To v (r : SettleRequest) := let '(mkSettleReq a b _ d e f g) := r in mkSettleReq a b v d e f g.
Definition set_sq_Amount v (r : SettleRequest) := let '(mkSettleReq a b c _ e f g) := r in mkSettleReq a b c v e f g.
Definition set_sq_Currency v (r : SettleRequest) := let '(mkSettleReq a b c d _ f g) := r in mkSettleReq a b c d v f g.
Definition set_sq_PolicyID v (r : SettleRequest) := let '(mkSettleReq a b c d e _ g) := r in mkSettleReq a b c d e v g.
Definition set_sq_RawPath v (r : SettleRequest) := let '(mkSettleReq a b c d e f _) := r in mkSettleReq a b c d e f v.
Definition zero_settle : SettleRequest := mkSettleReq "" "" "" 0 "" "" None.
Definition store_SettleRequest : store SettleRequest := store_struct
  [("transaction_id", field sq_TransactionID set_sq_TransactionID store_string);
   ("from", field sq_From set_sq_From store_string); ("to", field sq_To set_sq_To store_string);
   ("amount", field sq_Amount set_sq_Amount (store_int 64)); ("currency", field sq_Currency set_sq_Currency store_string);
   ("policy_id", field sq_PolicyID set_sq_PolicyID store_string); ("raw_path", field sq_RawPath set_sq_RawPath store_bytes_opt)].

(** [json.NewDecoder(r.Body).Decode]: the first value of the input; what follows is
    not read. *)
Definition Decode {T} (zero : T) (st : store T) (data : bytes) : res string T :=
  match value (2 * String.length data + 1) 0 data with None => Err "invalid JSON" | Some (v, _) => st zero v end.

(** [http.MaxBytesReader]: the server sees at most [maxBodySize] octets. *)
Definition maxBodySize : Z := 2 ^ 20.
Fixpoint first_octets (n : Z) (s : string) : string :=
  match s with EmptyString => EmptyString | String a s' => if n <=? 0 then EmptyString else String a (first_octets (n - 1) s') end.
Definition read_body {T} (zero : T) (st : store T) (data : bytes) : res string T := Decode zero st (first_octets maxBodySize data).

(** ** Replies

    What the client decodes: its own view of the reply types, with the clause of a
    violation as text. *)
Definition store_bool : store bool := λ old v, match v with VBool b => Ok b | VNull => Ok old | _ => Err mismatch end.

(** A pointer: null is nil, anything else is stored into a new value. *)
Definition store_ptr {T} (zero : T) (st : store T) : store (option T) := λ old v,
  match v with VNull => Ok None | _ => x ← st (default zero old) v; Ok (Some x) end.

(** A map with values of any type, as its members; a later member wins. *)
Definition store_map : store (list (string * jval)) := λ old v,
  match v with VObj l => Ok (old ++ l) | VNull => Ok [] | _ => Err mismatch end.

Definition map_get (m : list (string * jval)) (k : string) : option jval := snd <$> last_match (λ kv, kv.1 = k) m.

Record ViolationView := mkVV {
  vv_ID : string; vv_TransactionID : string; vv_PolicyID : string; vv_Path : SCIONPath; vv_EvidenceClass : string;
  vv_ProofStatus : string; vv_ViolatedClause : string; vv_Severity : string; vv_OffendingHops : list ASHop; vv_Timestamp : Z
}.
Definition zero_vv : ViolationView := mkVV "" "" "" zero_path "" "" "" "" [] zero_time.
Definition set_vv_ID v (x : ViolationView) := let '(mkVV _ b c d e f g h i j) := x in mkVV v b c d e f g h i j.
Definition set_vv_TransactionID v (x : ViolationView) := let '(mkVV a _ c d e f g h i j) := x in mkVV a v c d e f g h i j.
Definition set_vv_PolicyID v (x : ViolationView) := let '(mkVV a b _ d e f g h i j) := x in mkVV a b v d e f g h i j.
Definition set_vv_Path v (x : ViolationView) := let '(mkVV a b c _ e f g h i j) := x in mkVV a b c v e f g h i j.
Definition set_vv_EvidenceClass v (x : ViolationView) := let '(mkVV a b c d _ f g h i j) := x in mkVV a b c d v f g h i j.
Definition set_vv_ProofStatus v (x : ViolationView) := let '(mkVV a b c d e _ g h i j) := x in mkVV a b c d e v g h i j.
Definition set_vv_ViolatedClause v (x : ViolationView) := let '(mkVV a b c d e f _ h i j) := x in mkVV a b c d e f v h i j.
Definition set_vv_Severity v (x : ViolationView) := let '(mkVV a b c d e f g _ i j) := x in mkVV a b c d e f g v i j.
Definition set_vv_OffendingHops v (x : ViolationView) := let '(mkVV a b c d e f g h _ j) := x in mkVV a b c d e f g h v j.
Definition set_vv_Timestamp v (x : ViolationView) := let '(mkVV a b c d e f g h i _) := x in mkVV a b c d e f g h i v.

Definition store_Violation (lenient : string → option Z) : store ViolationView := store_struct
  [("id", field vv_ID set_vv_ID store_string); ("transaction_id", field vv_TransactionID set_vv_TransactionID store_string);
   ("policy_id", field vv_PolicyID set_vv_PolicyID store_string); ("path", field vv_Path set_vv_Path store_SCIONPath);
   ("evidence_class", field vv_EvidenceClass set_vv_EvidenceClass store_string);
   ("proof_status", field vv_ProofStatus set_vv_ProofStatus store_string);
   ("violated_clause", field vv_ViolatedClause set_vv_ViolatedClause store_string);
   ("severity", field vv_Severity set_vv_Severity store_string);
   ("offending_hops", field vv_OffendingHops set_vv_OffendingHops (store_slice zero_hop store_ASHop));
   ("timestamp", field vv_Timestamp set_vv_Timestamp (store_time lenient))].

Definition zero_policy : Policy := mkPolicy "" "" "" 0 [] "".
Definition store_Policy : store Policy := store_struct
  [("id", field pol_ID (λ v '(mkPolicy _ b c d e f), mkPolicy v b c d e f) store_string);
   ("name", field pol_Name (λ v '(mkPolicy a _ c d e f), mkPolicy a v c d e f) store_string);
   ("description", field pol_Description (λ v '(mkPolicy a b _ d e f), mkPolicy a b v d e f) store_string);
   ("version", field pol_Version (λ v '(mkPolicy a b c _ e f), mkPolicy a b c v e f) (store_int 64));
   ("allowed_isds", field pol_AllowedISDs (λ v '(mkPolicy a b c d _ f), mkPolicy a b c d v f) (store_slice 0 (store_uint 16)));
   ("mode", field pol_Mode (λ v '(mkPolicy a b c d e _), mkPolicy a b c d e v) store_string)].

Definition zero_chain : VerifyChainResponse := mkVC 0 "" [] [].
Definition store_VerifyChain (lenient : string → option Z) : store VerifyChainResponse := store_struct
  [("chain_length", field vc_ChainLength (λ v '(mkVC _ b c d), mkVC v b c d) (store_int 64));
   ("oracle_public_key", field vc_OraclePublicKey (λ v '(mkVC a _ c d), mkVC a v c d) store_bytes);
   ("oracle_public_keys", field vc_OraclePublicKeys (λ v '(mkVC a b _ d), mkVC a b v d) (store_slice "" store_bytes));
   ("receipts", field vc_Receipts (λ v '(mkVC a b c _), mkVC a b c v)
      (store_slice zero_receipt (store_ComplianceReceipt lenient)))].

Record ComplianceView := mkCV { cv_Compliant : bool; cv_Receipt : option receipt; cv_Violation : option ViolationView }.
Record SettleView := mkSV {
  sw_Consensus : option ConsensusResult; sw_Compliance : option ComplianceView; sw_ReceiptPersisted : option bool;
  sw_PersistenceWarning : string
}.

Definition store_ConsensusResult : store ConsensusResult := store_struct
  [("confirmed", field cr_Confirmed (λ v '(mkCR _ b c d), mkCR v b c d) store_bool);
   ("round", field cr_Round (λ v '(mkCR a _ c d), mkCR a v c d) (store_uint 64));
   ("votes", field cr_Votes (λ v '(mkCR a b _ d), mkCR a b v d) (store_int 64));
   ("tx_id", field cr_TxID (λ v '(mkCR a b c _), mkCR a b c v) store_string)].

Definition store_ComplianceView (lenient : string → option Z) : store ComplianceView := store_struct
  [("compliant", field cv_Compliant (λ v '(mkCV _ b c), mkCV v b c) store_bool);
   ("receipt", field cv_Receipt (λ v '(mkCV a _ c), mkCV a v c) (store_ptr zero_receipt (store_ComplianceReceipt lenient)));
   ("violation", field cv_Violation (λ v '(mkCV a b _), mkCV a b v) (store_ptr zero_vv (store_Violation lenient)))].

Definition zero_settle_view : SettleView := mkSV None None None "".
Definition store_SettleView (lenient : string → option Z) : store SettleView := store_struct
  [("consensus", field sw_Consensus (λ v '(mkSV _ b c d), mkSV v b c d) (store_ptr (mkCR false 0 0 "") store_ConsensusResult));
   ("compliance", field sw_Compliance (λ v '(mkSV a _ c d), mkSV a v c d)
      (store_ptr (mkCV false None None) (store_ComplianceView lenient)));
   ("receipt_persisted", field sw_ReceiptPersisted (λ v '(mkSV a b _ d), mkSV a b v d) (store_ptr false store_bool));
   ("persistence_warning", field sw_PersistenceWarning (λ v '(mkSV a b c _), mkSV a b c v) store_string)].

Definition store_FilterView : store (list SCIONPath * list SCIONPath) := store_struct
  [("compliant", field fst (λ v '(_, b), (v, b)) (store_slice zero_path store_SCIONPath));
   ("non_compliant", field snd (λ v '(a, _), (a, v)) (store_slice zero_path store_SCIONPath))].

(** ** Commands

    The commands with their flags, as the argument parser gives them. *)
Inductive command :=
| CmdRoot
| CmdServe
| CmdStatus
| CmdHealth
| CmdPolicies
| CmdReceipts
| CmdViolations
| CmdVerifyChain (fromSeq toSeq : Z)
| CmdCheck (txID policyID pathSpec : string)
| CmdSettle (txID from to : string) (amount : Z) (currency policyID pathSpec : string)
| CmdFilterPaths (policyID pathSpecs : string)
| CmdDemo
| CmdCompletion (shell : string).

Record cliOptions := mkCli {
  o_baseURL : string;
  o_token : string;
  o_insecureTLS : bool;
  o_output : string
}.

Definition defaultCLIBaseURL : string := "http://localhost:8080".

Definition defaultCLIOptions (env : string → string) : cliOptions :=
  mkCli (if is_empty (env "JURISPATH_CLI_BASE_URL") then defaultCLIBaseURL else env "JURISPATH_CLI_BASE_URL")
    (if is_empty (env "JURISPATH_CLI_API_TOKEN") then env "JURISPATH_API_TOKEN" else env "JURISPATH_CLI_API_TOKEN")
    (bool_decide (env "JURISPATH_CLI_INSECURE_TLS" = "true")) "table".

(** [httpClient]: whether certificates go unverified; its timeout is one of the errors
    of an exchange. *)
Definition httpClient (o : cliOptions) : bool := if negb (o_insecureTLS o) then false else true.

(** A command fails with the status of the server process, or with a message. *)
Inductive cli_err := CommandExit (code : Z) | CliError (msg : string).

Definition isUsageError (msg : string) : bool :=
  contains msg "unknown command" || contains msg "accepts " || contains msg "required flag" || contains msg "unknown flag".

Definition exit_status (r : res cli_err unit) : Z :=
  match r with
  | Ok _ => 0
  | Err (CommandExit code) => code
  | Err (CliError msg) => if isUsageError msg then 2 else 1
  | Panic => 2
  end.

(** What is printed: JSON, a line of text, a labelled value of any type, the cells
    of a table row. *)
Inductive shown :=
| ShowAny (v : jval)
| ShowMap (m : list (string * jval))
| ShowSummary (m : list (string * option jval))
| ShowPolicies (l : list Policy)
| ShowReceipts (l : list receipt)
| ShowViolations (l : list ViolationView)
| ShowChain (c : VerifyChainResponse).

Inductive output :=
| OutJSON (v : shown)
| OutLine (s : string)
| OutField (label : string) (v : option jval)
| OutRow (cells : list string).

(** A request as it is sent, and a reply. *)
Record sent_request := mkSent { rq_Method : string; rq_URL : string; rq_Authorization : option string; rq_Body : bytes }.

Definition text_of {A} (m : res string A) : res cli_err A := map_err CliError m.

Section Client.
(** [url.Parse] and [ResolveReference], and [client.Do] with the reading of the
    body; the fourth parameter is the exit status of [runServer]. *)
Context (resolve : string → string → res string string) (http : bool → sent_request → res string (Z * bytes)).
Context (lenient : string → option Z) (server : Z).

Definition newRequest (o : cliOptions) (method path : string) (body : bytes) : res string sent_request :=
  u ← resolve (o_baseURL o) path;
  Ok (mkSent method u (if is_empty (o_token o) then None else Some ("Bearer " +:+ o_token o)) body).

Definition getDecode {T} (o : cliOptions) (path : string) (zero : T) (st : store T) : res string (Z * T) :=
  req ← newRequest o "GET" path "";
  '(status, body) ← http (httpClient o) req;
  r ← map_err (λ e, "decode response: " +:+ e) (Decode zero st body);
  Ok (status, r).

Definition postDecode {T} (o : cliOptions) (path : string) (payload : json) (zero : T) (st : store T) : res string (Z * T) :=
  req ← newRequest o "POST" path (render payload);
  '(status, body) ← http (httpClient o) req;
  r ← map_err (λ e, "decode response: " +:+ e) (Decode zero st body);
  Ok (status, r).

Definition statusError (status : Z) : res string unit :=
  if (status <? 200) || (300 <=? status) then Err ("server returned HTTP " +:+ pretty status) else Ok tt.

(** Any value is stored as it is. *)
Definition store_any : store jval := λ _ v, Ok v.

(** [do]: the reply is printed before its status is looked at. *)
Definition do_request (o : cliOptions) (req : sent_request) : list output * res string unit :=
  match http (httpClient o) req with
  | Err e => ([], Err e)
  | Panic => ([], Panic)
  | Ok (status, body) =>
    match Decode VNull store_any body with
    | Err e => ([], Err ("decode response: " +:+ e))
    | Panic => ([], Panic)
    | Ok v => ([OutJSON (ShowAny v)], statusError status)
    end
  end.

Definition postJSON (o : cliOptions) (path : string) (payload : json) : list output * res string unit :=
  match newRequest o "POST" path (render payload) with
  | Err e => ([], Err e)
  | Panic => ([], Panic)
  | Ok req => do_request o req
  end.

(** *** Tables *)
Definition num (z : Z) : string := pretty z.
Definition count {A} (l : list A) : string := pretty (Z.of_nat (length l)).

(** [valueOr] *)
Definition valueOr (values : list (string * option jval)) (key : string) (fallback : jval) : option jval :=
  match last_match (λ kv, kv.1 = key) values with Some (_, v) => v | None => Some fallback end.

Definition field_value (values : list (string * option jval)) (key : string) : option jval :=
  match last_match (λ kv, kv.1 = key) values with Some (_, v) => v | None => None end.

Definition printStatus (o : cliOptions) (values : list (string * option jval)) : list output :=
  [OutField "Base URL" (valueOr values "base_url" (VStr (o_baseURL o))); OutField "Audit healthy" (field_value values "audit_healthy");
   OutField "Audit failures" (field_value values "audit_failures"); OutField "Receipts" (field_value values "receipt_count")] ++
  (if bool_decide (is_Some (last_match (λ kv, kv.1 = "policy_count") values))
   then [OutField "Policies" (field_value values "policy_count")] else []) ++
  [OutField "Uptime" (field_value values "uptime_seconds")].

(** [%v] of a list of integers. *)
Definition show_list (l : list Z) : string := "[" +:+ String.concat " " (num <$> l) +:+ "]".

Definition printPolicies (ps : list Policy) : list output :=
  OutRow ["ID"; "MODE"; "VERSION"; "ALLOWED_ISDS"] ::
  ((λ p, OutRow [pol_ID p; pol_Mode p; num (pol_Version p); show_list (pol_AllowedISDs p)]) <$> ps).

Definition printReceipts (rs : list receipt) : list output :=
  OutRow ["SEQ"; "ID"; "TX"; "POLICY"; "HOPS"] ::
  ((λ r, OutRow [num (r_SeqNo r); r_ID r; r_TransactionID r; r_PolicyID r; count (path_Hops (r_Path r))]) <$> rs).

(** [time.RFC3339]: without the fraction of a second. *)
Definition rfc3339 (t : Z) : string := default "" (rfc3339nano (t / second * second)).

Definition printViolations (vs : list ViolationView) : list output :=
  OutRow ["TIME"; "TX"; "POLICY"; "SEVERITY"; "OFFENDING_HOPS"] ::
  ((λ v, OutRow [rfc3339 (vv_Timestamp v); vv_TransactionID v; vv_PolicyID v; vv_Severity v; count (vv_OffendingHops v)]) <$> vs).

Definition printVerifyChain (c : VerifyChainResponse) : list output :=
  OutLine ("Chain length: " +:+ num (vc_ChainLength c)) :: OutLine ("Oracle keys:  " +:+ count (vc_OraclePublicKeys c)) ::
  OutRow ["SEQ"; "ID"; "TX"; "POLICY"] ::
  ((λ r, OutRow [num (r_SeqNo r); r_ID r; r_TransactionID r; r_PolicyID r]) <$> vc_Receipts c).

(** *** Commands that read *)
Definition get_and_print {T} (o : cliOptions) (path : string) (zero : T) (st : store T) (json_of : T → shown)
    (table : T → list output) : list output * res string unit :=
  match getDecode o path zero st with
  | Err e => ([], Err e)
  | Panic => ([], Panic)
  | Ok (status, result) =>
    (if bool_decide (o_output o = "json") then [OutJSON (json_of result)] else table result, statusError status)
  end.

Definition present (m : list (string * jval)) : list (string * option jval) := (λ kv, (kv.1, Some kv.2)) <$> m.

Definition getHealth (o : cliOptions) : list output * res string unit :=
  get_and_print o "/api/health" [] store_map ShowMap (λ m, printStatus o (present m)).
Definition getPolicies (o : cliOptions) : list output * res string unit :=
  get_and_print o "/api/policies" [] (store_slice zero_policy store_Policy) ShowPolicies printPolicies.
Definition getReceipts (o : cliOptions) : list output * res string unit :=
  get_and_print o "/api/receipts" [] (store_slice zero_receipt (store_ComplianceReceipt lenient)) ShowReceipts printReceipts.
Definition getViolations (o : cliOptions) : list output * res string unit :=
  get_and_print o "/api/violations" [] (store_slice zero_vv (store_Violation lenient)) ShowViolations printViolations.
Definition getVerifyChain (o : cliOptions) (path : string) : list output * res string unit :=
  get_and_print o path zero_chain (store_VerifyChain lenient) ShowChain printVerifyChain.

(** The query of [verify-chain]: a bound of zero is not sent. *)
Definition verify_chain_query (fromSeq toSeq : Z) : option string * option string :=
  (if 0 <? fromSeq then Some (num fromSeq) else None, if 0 <? toSeq then Some (num toSeq) else None).

(** [values.Encode] sorts by key. *)
Definition verify_chain_path (fromSeq toSeq : Z) : string :=
  let encoded :=
    match verify_chain_query fromSeq toSeq with
    | (None, None) => ""
    | (Some f, None) => "from_seq=" +:+ f
    | (None, Some t) => "to_seq=" +:+ t
    | (Some f, Some t) => "from_seq=" +:+ f +:+ "&to_seq=" +:+ t
    end in
  "/api/verify-chain" +:+ (if is_empty encoded then "" else "?" +:+ encoded).

Definition status (o : cliOptions) : list output * res string unit :=
  match getDecode o "/api/health" [] store_map with
  | Err e => ([], Err e)
  | Panic => ([], Panic)
  | Ok (st, health) =>
    if negb (st =? 200) then ([], Err ("health returned HTTP " +:+ num st))
    else match getDecode o "/api/policies" [] (store_slice zero_policy store_Policy) with
         | Err e => ([], Err e)
         | Panic => ([], Panic)
         | Ok (st, policies) =>
           if negb (st =? 200) then ([], Err ("policies returned HTTP " +:+ num st))
           else
             let summary :=
               [("base_url", Some (VStr (o_baseURL o))); ("audit_healthy", map_get health "audit_healthy");
                ("audit_failures", map_get health "audit_failures"); ("receipt_count", map_get health "receipt_count");
                ("uptime_seconds", map_get health "uptime_seconds"); ("policy_count", Some (VNum (count policies)))] in
             (if bool_decide (o_output o = "json") then [OutJSON (ShowSummary summary)] else printStatus o summary, Ok tt)
         end
  end.

(** *** Commands that send *)
Definition check (o : cliOptions) (txID policyID pathSpec : string) : list output * res string unit :=
  match rawPathFromSpec pathSpec with
  | Err e => ([], Err e)
  | Panic => ([], Panic)
  | Ok rawPath => postJSON o "/api/check" (CheckRequest_json (mkCheckReq txID policyID rawPath))
  end.

(** The body of [settle], or the error before anything is sent. *)
Definition settle_request (txID from to : string) (amount : Z) (currency policyID pathSpec : string) : res string SettleRequest :=
  if amount <=? 0 then Err "--amount must be greater than 0"
  else
    rawPath ← rawPathFromSpec pathSpec;
    Ok (mkSettleReq txID from to amount currency policyID (Some rawPath)).

Definition settle (o : cliOptions) (txID from to : string) (amount : Z) (currency policyID pathSpec : string) :
    list output * res string unit :=
  match settle_request txID from to amount currency policyID pathSpec with
  | Err e => ([], Err e)
  | Panic => ([], Panic)
  | Ok req => postJSON o "/api/settle" (SettleRequest_json req)
  end.

Definition filterPaths (o : cliOptions) (policyID pathSpecs : string) : list output * res string unit :=
  match pathsFromSpecs pathSpecs with
  | Err e => ([], Err e)
  | Panic => ([], Panic)
  | Ok paths => postJSON o "/api/filter-paths" (FilterPathsRequest_json (mkFilterReq policyID paths))
  end.

(** *** The demo *)

(** What [demoSettle] makes of a reply: blocked by a violation, settled, or an
    error. *)
Inductive demo_outcome := Blocked (v : ViolationView) | Settled (c : ConsensusResult) (r : receipt) (warning : option string).

Definition demo_verdict (status : Z) (result : SettleView) : res string demo_outcome :=
  match (if status =? 422 then match sw_Compliance result with Some c => cv_Violation c | None => None end else None) with
  | Some v => Ok (Blocked v)
  | None =>
    if negb (status =? 200) then Err ("settlement failed with HTTP " +:+ num status)
    else match sw_Consensus result with
         | None => Err "settlement was not confirmed"
         | Some c =>
           if negb (cr_Confirmed c) then Err "settlement was not confirmed"
           else match sw_Compliance result with
                | Some (mkCV true (Some r) _) =>
                  Ok (Settled c r (match sw_ReceiptPersisted result with
                                   | Some false => Some (sw_PersistenceWarning result) | _ => None end))
                | _ => Err "settlement response missing path-policy receipt"
                end
         end
  end.

Definition demo_lines (from to : string) (amount : Z) (currency : string) (d : demo_outcome) : list output :=
  match d with
  | Blocked v =>
    [OutLine ("  SETTLEMENT BLOCKED - " +:+ vv_ViolatedClause v);
     OutLine ("  Severity: " +:+ vv_Severity v +:+ ", offending hops: " +:+ count (vv_OffendingHops v));
     OutLine ("  Evidence: " +:+ vv_EvidenceClass v +:+ ", proof: " +:+ vv_ProofStatus v)]
  | Settled c r warning =>
    [OutLine ("  SETTLED - " +:+ from +:+ " -> " +:+ to +:+ " " +:+ num amount +:+ " " +:+ currency);
     OutLine ("  Consensus confirmed in round " +:+ num (cr_Round c));
     OutLine ("  Receipt ID: " +:+ r_ID r +:+ ", seq #" +:+ num (r_SeqNo r));
     OutLine ("  Evidence: " +:+ r_EvidenceClass r +:+ ", proof: " +:+ r_ProofStatus r);
     OutLine ("  Path fingerprint: " +:+ path_Fingerprint (r_Path r))] ++
    match warning with Some w => [OutLine ("  Persistence warning: " +:+ w)] | None => [] end
  end.

Definition demoSettle (o : cliOptions) (txID from to : string) (amount : Z) (currency policyID pathSpec : string) :
    list output * res string unit :=
  match (rawPath ← rawPathFromSpec pathSpec;
         '(status, result) ← postDecode o "/api/settle"
           (SettleRequest_json (mkSettleReq txID from to amount currency policyID (Some rawPath))) zero_settle_view (store_SettleView lenient);
         demo_verdict status result) with
  | Ok d => (demo_lines from to amount currency d, Ok tt)
  | Err e => ([], Err e)
  | Panic => ([], Panic)
  end.

Definition path_line (tag : string) (p : SCIONPath) : output :=
  OutLine ("    [" +:+ tag +:+ "] " +:+ path_Fingerprint p +:+ " (" +:+ count (path_Hops p) +:+ " hops)").

Definition demoFilterPaths (o : cliOptions) (policyID pathSpecs : string) : list output * res string unit :=
  match (paths ← pathsFromSpecs pathSpecs;
         '(status, result) ← postDecode o "/api/filter-paths"
           (FilterPathsRequest_json (mkFilterReq policyID paths)) ([], []) store_FilterView;
         if negb (status =? 200) then Err ("filter-paths failed with HTTP " +:+ num status) else Ok (paths, result)) with
  | Ok (paths, (compliant, nonCompliant)) =>
    (OutLine ("  Candidate paths: " +:+ count paths) :: OutLine ("  Compliant: " +:+ count compliant) ::
     (path_line "PASS" <$> compliant) ++ OutLine ("  Non-compliant: " +:+ count nonCompliant) :: (path_line "SKIP" <$> nonCompliant), Ok tt)
  | Err e => ([], Err e)
  | Panic => ([], Panic)
  end.

(** The scenarios in order, until one fails. *)
Fixpoint in_order (steps : list (string * (list output * res string unit))) : list output * res string unit :=
  match steps with
  | [] => ([], Ok tt)
  | (title, (out, r)) :: steps' =>
    match r with
    | Ok _ => let '(out', r') := in_order steps' in (OutLine title :: out ++ out', r')
    | _ => (OutLine title :: out, r)
    end
  end.

Definition demo (o : cliOptions) : list output * res string unit :=
  in_order
    [("=== Scenario A: Compliant path (ISD-CH -> ISD-EU) ===",
      demoSettle o "tx-chf-eur-001" "CH" "EU" 100 "CHF" "chf-eur-settlement-v1" "1-ff00:0:110,1-ff00:0:111,2-ff00:0:210,2-ff00:0:211");
     ("=== Scenario B: Non-compliant path (via ISD-X) ===",
      demoSettle o "tx-chf-eur-002" "CH" "EU" 100 "CHF" "chf-eur-settlement-v1" "1-ff00:0:110,3-ff00:0:310,2-ff00:0:210");
     ("=== Scenario C: Swiss-only settlement ===",
      demoSettle o "tx-chf-chf-001" "CH" "CH" 100 "CHF" "swiss-dlt-act-v1" "1-ff00:0:110,1-ff00:0:111");
     ("=== Scenario D: Path Pre-filtering ===",
      demoFilterPaths o "chf-eur-settlement-v1"
        "1-ff00:0:110,1-ff00:0:111,2-ff00:0:210,2-ff00:0:211;1-ff00:0:110,3-ff00:0:310,2-ff00:0:210;1-ff00:0:110,3-ff00:0:310,2-ff00:0:210,3-ff00:0:311")].

(** *** Running a command *)
Definition serve : res cli_err unit := if negb (server =? 0) then Err (CommandExit server) else Ok tt.

Definition completion (shell : string) : res cli_err unit :=
  if bool_decide (shell ∈ ["bash"; "zsh"; "fish"]) then Ok tt else Err (CliError ("unsupported shell: " +:+ shell)).

Definition text_out (x : list output * res string unit) : list output * res cli_err unit := (x.1, map_err CliError x.2).

Definition run_command (o : cliOptions) (c : command) : list output * res cli_err unit :=
  match c with
  | CmdRoot => ([], Err (CliError "missing command"))
  | CmdServe => ([], serve)
  | CmdStatus => text_out (status o)
  | CmdHealth => text_out (getHealth o)
  | CmdPolicies => text_out (getPolicies o)
  | CmdReceipts => text_out (getReceipts o)
  | CmdViolations => text_out (getViolations o)
  | CmdVerifyChain fromSeq toSeq => text_out (getVerifyChain o (verify_chain_path fromSeq toSeq))
  | CmdCheck txID policyID pathSpec => text_out (check o txID policyID pathSpec)
  | CmdSettle txID from to amount currency policyID pathSpec => text_out (settle o txID from to amount currency policyID pathSpec)
  | CmdFilterPaths policyID pathSpecs => text_out (filterPaths o policyID pathSpecs)
  | CmdDemo => text_out (demo o)
  | CmdCompletion shell => ([], completion shell)
  end.

(** [run]: [cobra] gives the options and the command, or the error of the argument
    parser; the output format is checked before the command runs. *)
Definition cli_run (cobra : list string → res string (cliOptions * command)) (args : list string) : list output * res cli_err unit :=
  match cobra args with
  | Err e => ([], Err (CliError e))
  | Panic => ([], Panic)
  | Ok (o, c) =>
    if negb (bool_decide (o_output o = "table")) && negb (bool_decide (o_output o = "json"))
    then ([], Err (CliError "--output must be table or json")) else run_command o c
  end.

Definition runCLICommand (cobra : list string → res string (cliOptions * command)) (args : list string) : Z :=
  exit_status (cli_run cobra args).2.

Definition runWithArgs (cobra : list string → res string (cliOptions * command)) (args : list string) : Z :=
  match args with [] => server | _ => runCLICommand cobra args end.
End Client.

(** ** Lemmas on strings *)
Fixpoint has_char (z : Z) (s : string) : bool := match s with EmptyString => false | String a s' => (ord a =? z) || has_char z s' end.

Lemma has_char_app z s t : has_char z (s +:+ t) = has_char z s || has_char z t.
Proof. induction s as [|a s IH]; [done|]. rewrite append_cons. cbn [has_char]. by rewrite IH, orb_assoc. Qed.

Lemma has_char_rev z s : ∀ acc, has_char z (rev_string acc s) = has_char z acc || has_char z s.
Proof.
  induction s as [|a s IH]; intros acc; cbn [rev_string has_char]; [by rewrite orb_false_r|].
  rewrite IH. cbn [has_char]. by destruct (ord a =? z), (has_char z acc), (has_char z s).
Qed.

Lemma strip_Some p : ∀ s s', strip p s = Some s' → ∃ q, s = q +:+ s' ∧ ∀ z, has_char z q = has_char z p.
Proof.
  induction p as [|a p IH]; intros s s' Hs; cbn [strip] in Hs; [injection Hs as ->; by exists ""|].
  destruct s as [|b s]; [done|]. destruct (ord a =? ord b) eqn:Hab; [|done]. zbool. destruct (IH s s' Hs) as (q & -> & Hq).
  exists (String b q). rewrite append_cons. split; [done|]. intros z. cbn [has_char]. by rewrite Hq, Hab.
Qed.

Lemma trim_keeps z l n : Forall (λ p, has_char z p = false) l → ∀ s, has_char z s = true → has_char z (trim_with l n s) = true.
Proof.
  intros Hl. induction n as [|n IH]; intros s Hs; cbn [trim_with]; [done|].
  destruct (omap (λ p, strip p s) l) as [|s' r] eqn:Ho; [done|]. apply IH.
  assert (s' ∈ omap (λ p, strip p s) l) as Hin by (rewrite Ho; by left). apply list_elem_of_omap in Hin as (p & Hp & Hst).
  destruct (strip_Some p s s' Hst) as (q & -> & Hq). rewrite has_char_app, Hq in Hs.
  rewrite Forall_forall in Hl. by rewrite (Hl p Hp) in Hs.
Qed.

(** A text with a digit is not blank. *)
Lemma TrimSpace_digit z s : 48 ≤ z ≤ 57 → has_char z s = true → is_empty (TrimSpace s) = false.
Proof.
  intros Hz Hs. assert (∀ l, l = spaces ∨ l = (rev_string "" <$> spaces) → Forall (λ p, has_char z p = false) l) as Hsp.
  { assert (z = 48 ∨ z = 49 ∨ z = 50 ∨ z = 51 ∨ z = 52 ∨ z = 53 ∨ z = 54 ∨ z = 55 ∨ z = 56 ∨ z = 57) as Hc by lia.
    intros l Hl. repeat destruct Hc as [->|Hc]; subst; destruct Hl as [->| ->];
      apply (bool_decide_unpack _); vm_compute; exact I. }
  assert (has_char z (TrimSpace s) = true) as Ht.
  { unfold TrimSpace, trim_right. rewrite has_char_rev. cbn [has_char orb]. apply trim_keeps; [auto|].
    rewrite has_char_rev. cbn [has_char orb]. unfold trim_left. apply trim_keeps; auto. }
  unfold is_empty. apply bool_decide_eq_false. intros He. by rewrite He in Ht.
Qed.

Lemma split_on_none c p : has_char c p = false → split_on c p = [p].
Proof.
  induction p as [|a p IH]; [done|]. cbn [has_char split_on]. intros [Ha Hp]%orb_false_iff. by rewrite Ha, IH.
Qed.

Lemma split_on_app p s : has_char 44 p = false → split_on 44 (p +:+ "," +:+ s) = p :: split_on 44 s.
Proof.
  induction p as [|a p IH]; [done|]. cbn [has_char]. intros [Ha Hp]%orb_false_iff. rewrite append_cons. cbn [split_on].
  by rewrite Ha, IH.
Qed.

Lemma split_on_concat ps : ps ≠ [] → Forall (λ p, has_char 44 p = false) ps → split_on 44 (String.concat "," ps) = ps.
Proof.
  intros Hne Hps. induction Hps as [|p ps Hp Hps IH]; [done|]. destruct ps as [|q ps]; [by apply split_on_none|].
  change (String.concat "," (p :: q :: ps)) with (p +:+ "," +:+ String.concat "," (q :: ps)). by rewrite split_on_app, IH.
Qed.

Lemma cut_app p s : has_char 45 p = false → cut 45 (p +:+ "-" +:+ s) = Some (p, s).
Proof.
  induction p as [|a p IH]; [done|]. cbn [has_char]. intros [Ha Hp]%orb_false_iff. rewrite append_cons. cbn [cut].
  by rewrite Ha, IH.
Qed.

Lemma digits_no_char z t : all_digits t = true → z < 48 ∨ 57 < z → has_char z t = false.
Proof.
  intros Ht Hz. induction t as [|a t IH]; [done|]. cbn [all_digits has_char] in *. apply andb_true_iff in Ht as [Ha Ht].
  apply between_spec in Ha. rewrite IH by done. rewrite (proj2 (Z.eqb_neq _ _)) by lia. done.
Qed.

Lemma utf8_valid_app p s : all_ascii p = true → utf8_valid (p +:+ s) = utf8_valid s.
Proof.
  induction p as [|a p IH]; [done|]. cbn [all_ascii]. intros [Ha Hp]%andb_true_iff. rewrite append_cons. cbn [utf8_valid].
  by rewrite Ha, IH.
Qed.

Lemma all_digits_ascii t : all_digits t = true → all_ascii t = true.
Proof.
  induction t as [|a t IH]; [done|]. cbn [all_digits all_ascii]. intros [Ha Ht]%andb_true_iff. rewrite IH by done.
  apply between_spec in Ha. by rewrite (proj2 (Z.ltb_lt _ _)) by lia.
Qed.

(** A number is a digit followed by digits. *)
Lemma pretty_digits z : 0 ≤ z → ∃ a t, (pretty z : string) = String a t ∧ all_digits (String a t) = true.
Proof.
  intros Hz. destruct z as [|p|p]; [|rewrite pretty_pos|lia].
  - eexists _, _. split; [reflexivity|]. done.
  - destruct (pretty_N_go_digits (N.pos p) "" ltac:(lia)) as (a & t & -> & Ha & Ht). exists a, (t +:+ "").
    split; [done|]. cbn [all_digits]. rewrite all_digits_app, Ht. unfold is_digit. rewrite (proj2 (between_spec _ _ _)) by lia. done.
Qed.

(** ** From the flags to the server *)

(** A hop as the user writes it. *)
Definition ia_text (h : Z * string) : string := pretty h.1 +:+ "-" +:+ h.2.
Definition hop_of (h : Z * string) : ASHop := mkHop (ia_text h) h.1 h.2 "".
Definition spec_ok (h : Z * string) : Prop :=
  0 ≤ h.1 < 2 ^ 16 ∧ has_char 44 h.2 = false ∧ utf8_valid h.2 = true ∧ TrimSpace (ia_text h) = ia_text h.

Lemma ia_text_facts h : spec_ok h → has_char 44 (ia_text h) = false ∧ is_empty (ia_text h) = false ∧
  cut 45 (ia_text h) = Some (pretty h.1 : string, h.2) ∧ hop_ok (hop_of h) ∧ ∃ z, 48 ≤ z ≤ 57 ∧ has_char z (ia_text h) = true.
Proof.
  intros (Hisd & Hc & Hu & _). destruct (pretty_digits h.1 ltac:(lia)) as (a & t & Hp & Hd). unfold hop_of, hop_ok, ia_text. cbn [hop_IA hop_AS hop_ISD].
  rewrite Hp. pose proof (digits_no_char 44 _ Hd ltac:(lia)) as H44. pose proof (digits_no_char 45 _ Hd ltac:(lia)) as H45.
  split_and!.
  - rewrite !has_char_app, H44, Hc. done.
  - rewrite append_cons. done.
  - by apply cut_app.
  - rewrite utf8_valid_app by (by apply all_digits_ascii). by rewrite utf8_valid_app.
  - done.
  - lia.
  - lia.
  - exists (ord a). cbn [all_digits] in Hd. apply andb_true_iff in Hd as [Ha _]. apply between_spec in Ha. split; [done|].
    rewrite append_cons. cbn [has_char]. by rewrite Z.eqb_refl.
Qed.

Lemma hops_of_parts_ok hs : Forall spec_ok hs → hops_of_parts (ia_text <$> hs) = Ok (hop_of <$> hs).
Proof.
  induction 1 as [|h hs Hh _ IH]; [done|]. cbn [fmap list_fmap hops_of_parts]. destruct (ia_text_facts h Hh) as (_ & He & Hcut & _).
  destruct Hh as (Hisd & _ & _ & Htrim). rewrite Htrim, He, Hcut. rewrite ParseUint_pretty by done.
  change (list_fmap _ _ ia_text hs) with (ia_text <$> hs). by rewrite IH.
Qed.

Lemma rawPathFromSpec_ok hs : hs ≠ [] → Forall spec_ok hs →
  ∃ raw, rawPathFromSpec (String.concat "," (ia_text <$> hs)) = Ok raw ∧ NewMockPath (hop_of <$> hs) = Ok raw.
Proof.
  intros Hne Hs. exists (render (JSlice ASHop_json (hop_of <$> hs))). split; [|done]. unfold rawPathFromSpec.
  assert (∃ z, 48 ≤ z ≤ 57 ∧ has_char z (String.concat "," (ia_text <$> hs)) = true) as (z & Hz & Hc).
  { destruct Hs as [|h hs Hh Hs]; [done|]. destruct (ia_text_facts h Hh) as (_ & _ & _ & _ & z & Hz & Hc). exists z. split; [done|].
    destruct hs as [|h' hs]; [done|].
    change (String.concat "," (ia_text <$> h :: h' :: hs)) with (ia_text h +:+ "," +:+ String.concat "," (ia_text <$> h' :: hs)).
    by rewrite has_char_app, Hc. }
  rewrite (TrimSpace_digit z _ Hz Hc). rewrite split_on_concat.
  - rewrite hops_of_parts_ok by done. cbn [mbind res_bind]. rewrite bool_decide_eq_false_2 by (by destruct hs). done.
  - by destruct hs.
  - apply Forall_fmap. eapply Forall_impl; [done|]. intros h Hh. apply (ia_text_facts h Hh).
Qed.

Definition settle_fields_ok (r : SettleRequest) : Prop :=
  (utf8_valid (sq_TransactionID r) = true ∧ utf8_valid (sq_From r) = true ∧ utf8_valid (sq_To r) = true ∧
   utf8_valid (sq_Currency r) = true ∧ utf8_valid (sq_PolicyID r) = true) ∧ - 2 ^ 63 ≤ sq_Amount r < 2 ^ 63 ∧ sq_RawPath r ≠ Some "".

Lemma reads_settle r : settle_fields_ok r → store_SettleRequest zero_settle (jv (SettleRequest_json r)) = Ok r.
Proof.
  destruct r as [t fr to am cu po rp]. intros (_ & ? & ?). unfold store_SettleRequest, SettleRequest_json.
  cbn [sq_TransactionID sq_From sq_To sq_Amount sq_Currency sq_PolicyID sq_RawPath] in *. read_members.
Qed.

Lemma fine_settle r : settle_fields_ok r → fine 1 (SettleRequest_json r).
Proof.
  destruct r as [t fr to am cu po rp]. intros ((? & ? & ? & ? & ?) & _). unfold SettleRequest_json.
  cbn [sq_TransactionID sq_From sq_To sq_Amount sq_Currency sq_PolicyID sq_RawPath] in *. fine_members.
Qed.

Lemma Decode_fine {T} (zero : T) st j y n : fine n j → n ≤ maxNestingDepth → st zero (jv j) = Ok y → Decode zero st (render j) = Ok y.
Proof.
  intros [Hj Hd] Hn Hy. unfold Decode. pose proof (parse_render j Hj ltac:(lia)) as Hp. unfold parse in Hp.
  destruct (value _ _ _) as [[v r]|]; [|done]. destruct (skip r); [|done]. by injection Hp as ->.
Qed.

Lemma first_octets_all s : ∀ n, len s ≤ n → first_octets n s = s.
Proof.
  induction s as [|a s IH]; intros n Hn; [done|]. cbn [first_octets String.length] in *. rewrite (proj2 (Z.leb_gt _ _)) by lia.
  f_equal. apply IH. lia.
Qed.

(** The request of the command, as the server reads it. *)
Lemma settle_request_read (txID from to currency policyID : string) (amount : Z) (hs : list (Z * string)) :
  hs ≠ [] → Forall spec_ok hs → 0 < amount < 2 ^ 63 →
  Forall (λ s, utf8_valid s = true) [txID; from; to; currency; policyID] →
  ∃ req raw, settle_request txID from to amount currency policyID (String.concat "," (ia_text <$> hs)) = Ok req ∧
    req = mkSettleReq txID from to amount currency policyID (Some raw) ∧
    rawPathFromSpec (String.concat "," (ia_text <$> hs)) = Ok raw ∧
    (len (render (SettleRequest_json req)) ≤ maxBodySize →
     read_body zero_settle store_SettleRequest (render (SettleRequest_json req)) = Ok req) ∧
    BuildSCIONPath (MockPathExtractor unmarshalHops) raw =
      Ok (mkPath raw (hop_of <$> hs) (FingerprintHops (hop_of <$> hs)) EvidenceClassExplicitDemo ProofStatusUnverified).
Proof.
  intros Hne Hs Ha Hu. destruct (rawPathFromSpec_ok hs Hne Hs) as (raw & Hraw & Hmock).
  exists (mkSettleReq txID from to amount currency policyID (Some raw)), raw. unfold settle_request.
  rewrite (proj2 (Z.leb_gt _ _)) by lia. rewrite Hraw. split; [done|]. split; [done|]. split; [done|]. split.
  - intros Hlen. unfold read_body. rewrite first_octets_all by done.
    assert (settle_fields_ok (mkSettleReq txID from to amount currency policyID (Some raw))) as Hok.
    { rewrite !Forall_cons in Hu. destruct Hu as (? & ? & ? & ? & ? & _). split; [done|]. split; [cbn [sq_Amount]; lia|].
      cbn [sq_RawPath]. intros [= ->]. injection Hmock as Hr. destruct (render_head (JSlice ASHop_json (hop_of <$> hs))) as (a & t & Hh & _).
      by rewrite Hr in Hh. }
    apply (Decode_fine _ _ _ _ 1); [by apply fine_settle|done|by apply reads_settle].
  - injection Hmock as <-. unfold BuildSCIONPath. cbn [ExtractHops MockPathExtractor EvidenceMetadata].
    rewrite unmarshalHops_fine. 2: { apply Forall_fmap. eapply Forall_impl; [done|]. intros h Hh. apply (ia_text_facts h Hh). }
    cbn [map_err mbind res_bind]. rewrite bool_decide_eq_false_2 by (by destruct hs). done.
Qed.

(** A settlement given on the command line reaches the server as it was typed.
    For a path written as IA hops separated by commas, the command builds a
    request whose body the server, within its size limit, decodes to the same
    fields, and the server's demo extractor reads from it exactly the hops that
    were written, in order, with the ISD of each being the number before its
    dash. *)
Theorem cli_settle_reaches_server (txID from to currency policyID : string) (amount : Z) (hs : list (Z * string)) :
  hs ≠ [] → Forall spec_ok hs → 0 < amount < 2 ^ 63 →
  Forall (λ s, utf8_valid s = true) [txID; from; to; currency; policyID] →
  ∃ req raw, settle_request txID from to amount currency policyID (String.concat "," (ia_text <$> hs)) = Ok req ∧
    req = mkSettleReq txID from to amount currency policyID (Some raw) ∧
    (len (render (SettleRequest_json req)) ≤ maxBodySize →
     read_body zero_settle store_SettleRequest (render (SettleRequest_json req)) = Ok req) ∧
    BuildSCIONPath (MockPathExtractor unmarshalHops) raw =
      Ok (mkPath raw (hop_of <$> hs) (FingerprintHops (hop_of <$> hs)) EvidenceClassExplicitDemo ProofStatusUnverified).
Proof.
  intros Hne Hs Ha Hu. destruct (settle_request_read txID from to currency policyID amount hs Hne Hs Ha Hu)
    as (req & raw & ? & ? & _ & ? & ?). exists req, raw. by split_and!.
Qed.

(** ** The chain command *)

(** How the server reads the query. *)
Definition query_param (o : option string) : option (option Z) :=
  match o with Some s => if is_empty s then None else Some (ParseUint 64 s) | None => None end.

Lemma query_param_num n : 0 < n < 2 ^ 64 → query_param (Some (num n)) = Some (Some n).
Proof.
  intros Hn. unfold query_param, num. rewrite ParseUint_pretty by lia. destruct (pretty_digits n ltac:(lia)) as (a & t & -> & _). done.
Qed.

(** The chain command with only a first sequence number always fails.  The
    command omits a bound that is not given, the server takes an absent last
    number for zero once the other is present, and refuses the range as reversed,
    whatever receipts exist; with both numbers the server is asked for exactly
    that range, and with none for the first thousand. *)
Theorem cli_verify_chain_bounds {S V} `{!Store S, !ViolationStore V, !Ed25519} (f : fault) (fromSeq toSeq : Z) (sv : Server S V) :
  is_u64 fromSeq → is_u64 toSeq →
  let '(qf, qt) := verify_chain_query fromSeq toSeq in
  let answer := handleVerifyChain f (query_param qf) (query_param qt) sv in
  (0 < fromSeq → toSeq = 0 → answer = (sv, Ok (RError 400 "INVALID_REQUEST"))) ∧
  (0 < fromSeq → 0 < toSeq → answer = handleVerifyChain f (Some (Some fromSeq)) (Some (Some toSeq)) sv) ∧
  (fromSeq = 0 → toSeq = 0 → answer = handleVerifyChain f None None sv).
Proof.
  intros Hf Ht. unfold verify_chain_query, is_u64 in *. cbv zeta. split_and!.
  - intros Hf0 ->. rewrite (proj2 (Z.ltb_lt _ _) Hf0). rewrite query_param_num by lia. unfold handleVerifyChain, query_param.
    rewrite (bool_decide_true (is_Some (Some _))) by eauto. cbn [orb]. cbv beta iota zeta.
    change (0 <? 0) with false. cbv iota. rewrite (proj2 (Z.ltb_lt 0 fromSeq)) by lia. done.
  - intros Hf0 Ht0. rewrite (proj2 (Z.ltb_lt _ _) Hf0), (proj2 (Z.ltb_lt _ _) Ht0). by rewrite !query_param_num by lia.
  - by intros -> ->.
Qed.

(** ** Witnesses and the demo end to end *)
Module DemoCli.
Import Toy DemoReceipt DemoApi.

Definition demo_hs : list (Z * string) := [(1, "ff00:0:110"); (2, "ff00:0:210")].

Lemma cli_settle_reaches_server_witness :
  String.concat "," (ia_text <$> demo_hs) = "1-ff00:0:110,2-ff00:0:210" ∧
  ∃ req raw, settle_request "tx-1" "CH" "EU" 100 "CHF" "chf-eur-settlement-v1" "1-ff00:0:110,2-ff00:0:210" = Ok req ∧
    req = mkSettleReq "tx-1" "CH" "EU" 100 "CHF" "chf-eur-settlement-v1" (Some raw) ∧
    read_body zero_settle store_SettleRequest (render (SettleRequest_json req)) = Ok req.
Proof.
  split; [vm_compute; reflexivity|].
  destruct (cli_settle_reaches_server "tx-1" "CH" "EU" "CHF" "chf-eur-settlement-v1" 100 demo_hs) as (req & raw & Hr & Hreq & Hb & _).
  - discriminate.
  - repeat constructor; vm_compute; congruence.
  - split; [reflexivity|vm_compute; reflexivity].
  - repeat constructor.
  - exists req, raw. split; [exact Hr|]. split; [exact Hreq|]. apply Hb. clear Hb.
    assert (settle_request "tx-1" "CH" "EU" 100 "CHF" "chf-eur-settlement-v1" "1-ff00:0:110,2-ff00:0:210" = Ok req) as Hr' by exact Hr.
    vm_compute in Hr'. injection Hr' as <-. vm_compute. congruence.
Defined.

Lemma cli_verify_chain_bounds_witness :
  handleVerifyChain NoFault (query_param (Some (num 7))) (query_param None) server0 = (server0, Ok (RError 400 "INVALID_REQUEST")).
Proof.
  destruct (cli_verify_chain_bounds NoFault 7 0 server0) as [H _]; [split; vm_compute; congruence..|].
  apply H; [vm_compute; reflexivity|reflexivity].
Defined.

(** The policies of the repository that the demo names. *)
Definition chf_eur : Policy :=
  mkPolicy "chf-eur-settlement-v1" "CHF-EUR Cross-Border Settlement"
    "Settlement between Swiss and EU counterparties; hops must stay within ISD-CH and ISD-EU" 1 [1; 2] ModeStrict.
Definition swiss : Policy :=
  mkPolicy "swiss-dlt-act-v1" "Swiss DLT Act Settlement" "All path hops must remain within ISD-CH (Switzerland)" 1 [1] ModeStrict.
Definition demo_server : Server MemoryStore MemoryViolationStore :=
  NewServer [chf_eur; swiss] gen1 (MockPathExtractor unmarshalHops) (NewLedger demo_validators) demo_validators NewMemoryStore
    (NewDetector NewMemoryViolationStore) [].

(** One demo settlement against the server, through the text of its request. *)
Definition demo_step (n : nat) (txID from to policyID pathSpec : string) (sv : Server MemoryStore MemoryViolationStore) :
    Server MemoryStore MemoryViolationStore * option (Z * string) :=
  match settle_request txID from to 100 "CHF" policyID pathSpec with
  | Ok req =>
    let '(sv', x) := handleSettle (mkEnv (λ i, "id-" +:+ pretty n +:+ "-" +:+ pretty i) (λ _, t0) (λ _, NoFault) "" (λ _, "error"))
                       (read_body zero_settle store_SettleRequest (render (SettleRequest_json req))) sv in
    (sv', status_of x)
  | _ => (sv, None)
  end.

Definition demo_run : list (option (Z * string)) * Z * Z :=
  let '(sv1, a) := demo_step 1 "tx-chf-eur-001" "CH" "EU" "chf-eur-settlement-v1" "1-ff00:0:110,1-ff00:0:111,2-ff00:0:210,2-ff00:0:211" demo_server in
  let '(sv2, b) := demo_step 2 "tx-chf-eur-002" "CH" "EU" "chf-eur-settlement-v1" "1-ff00:0:110,3-ff00:0:310,2-ff00:0:210" sv1 in
  let '(sv3, c) := demo_step 3 "tx-chf-chf-001" "CH" "CH" "swiss-dlt-act-v1" "1-ff00:0:110,1-ff00:0:111" sv2 in
  ([a; b; c], GetBalance "CH" "CHF" (sv_ledger sv3), GetBalance "EU" "CHF" (sv_ledger sv3)).

(** The demo does what it announces.  Its three settlements, from their path
    texts through the encoded requests to a server with the repository's policies
    and validators: the compliant one settles, the one through the foreign ISD is
    blocked with status 422 and moves nothing, and the Swiss one, from an account
    to itself, settles without changing a balance. *)
Theorem demo_scenarios_run : demo_run = ([Some (200, ""); Some (422, ""); Some (200, "")], 9900, 5100).
Proof. vm_compute. reflexivity. Qed.
End DemoCli.
