(* ===== verification/Replies.v ===== *)
(** * Replies on the wire

    The bodies that [src/internal/api/server.go] writes ([json.NewEncoder] on its
    reply types, [writeError] and [writeSettlementReceiptFailure]) and what the
    commands of [src/cmd/jurispath/cli.go] read from them, composed with the
    handlers: a settlement typed at the command line, from its flags to the lines
    printed. *)

From S2P Require Import Prelude GoJson Json GoDecode Sha256 Model Replay Policy PathCheck Scion Bolt.
From S2P Require Import ReceiptStore Receipt Violation Ledger Consensus Codecs Api Http Cli.

(** ** Encoders *)

(** A pointer field with the [omitempty] option. *)
Definition omit_nil {A} (k : string) (enc : A → option json) (o : option A) : option (list (string * json)) :=
  match o with None => Some [] | Some a => (λ j, [(k, j)]) <$> enc a end.

Definition ErrorResponse_json (message code : string) : json := JObj [("error", JStr message); ("code", JStr code)].

Definition ConsensusResult_json (c : ConsensusResult) : json :=
  JObj [("confirmed", JBool (cr_Confirmed c)); ("round", JNum (cr_Round c)); ("votes", JNum (cr_Votes c)); ("tx_id", JStr (cr_TxID c))].

(** The texts of [writeSettlementReceiptFailure]. *)
Definition persistence_warning (code : string) : string :=
  if bool_decide (code = "RECEIPT_LOOKUP_FAILED") then "transaction is confirmed but receipt lookup failed"
  else if bool_decide (code = "SETTLEMENT_RECEIPT_MISSING") then "transaction is confirmed but the ledger receipt is not durable"
  else "settlement confirmed but receipt generation or persistence failed".

Section Encoders.
Context (clause_text : clause replay_err → string).

(** [None]: a time that [encoding/json] refuses. *)
Definition receipt_json (r : receipt) : option json := ComplianceReceipt_json r <$> rfc3339nano (r_Timestamp r).
Definition violation_json (v : Violation) : option json := Violation_json clause_text v <$> rfc3339nano (v_Timestamp v).

Definition PolicyResult_json (pr : PolicyResult) : option json :=
  r ← omit_nil "receipt" receipt_json (pr_Receipt pr);
  v ← omit_nil "violation" violation_json (pr_Violation pr);
  Some (JObj (("compliant", JBool (pr_Compliant pr)) :: r ++ v)).

(** [msg] is the text of the error; the warning goes with a receipt that is not
    persisted. *)
Definition SettleResponse_json (msg : string) (sr : SettleResponse) : option json :=
  c ← omit_nil "compliance" PolicyResult_json (sr_Compliance sr);
  let failed := bool_decide (sr_ReceiptPersisted sr = Some false) in
  let warning := if failed then persistence_warning (sr_Code sr) else "" in
  let error := if failed then msg else "" in
  Some (JObj (("consensus", from_option ConsensusResult_json JNull (sr_Consensus sr)) :: c ++
    match sr_ReceiptPersisted sr with Some b => [("receipt_persisted", JBool b)] | None => [] end ++
    omit_if (is_empty warning) "persistence_warning" (JStr warning) ++
    omit_if (negb (sr_Idempotent sr)) "idempotent" (JBool (sr_Idempotent sr)) ++
    omit_if (is_empty (sr_Code sr)) "code" (JStr (sr_Code sr)) ++ omit_if (is_empty error) "error" (JStr error))).

(** The list of receipts is nil when it is empty, the list of keys is not. *)
Definition VerifyChainResponse_json (vc : VerifyChainResponse) : option json :=
  rs ← mapM receipt_json (vc_Receipts vc);
  Some (JObj [("chain_length", JNum (vc_ChainLength vc)); ("oracle_public_key", JBytes (vc_OraclePublicKey vc));
              ("oracle_public_keys", JArr (JBytes <$> vc_OraclePublicKeys vc)); ("receipts", JSlice id rs)]).

Definition FilterResult_json (fr : FilterResult) : json :=
  JObj [("compliant", JArr (SCIONPath_json <$> f_Compliant fr)); ("non_compliant", JArr (SCIONPath_json <$> f_NonCompliant fr))].

Definition RotateKeyResponse_json (rotatedAt : string) (old new : bytes) (archive : string) (count : Z) (lastSeq : option Z) : json :=
  JObj ([("old_oracle_public_key", JBytes old); ("new_oracle_public_key", JBytes new)] ++
        omit_if (is_empty archive) "archived_key_path" (JStr archive) ++
        [("rotated_at", JStr rotatedAt); ("receipt_count", JNum count)] ++
        match lastSeq with Some n => [("last_receipt_seq_no", JNum n)] | None => [] end).

(** [Encode]: the value and a newline, or nothing when it cannot be encoded. *)
Definition encoded (j : option json) : bytes := match j with Some j => render j +:+ newline | None => "" end.

(** Status and body of an answer; [msg] and [rotatedAt] are the texts of its
    error and its time. *)
Definition reply (msg rotatedAt : string) (r : response) : Z * bytes :=
  match r with
  | RError status code => (status, encoded (Some (ErrorResponse_json msg code)))
  | RCheck pr => (200, encoded (PolicyResult_json pr))
  | RSettle status sr => (status, encoded (SettleResponse_json msg sr))
  | RChain vc => (200, encoded (VerifyChainResponse_json vc))
  | RFilter fr => (200, encoded (Some (FilterResult_json fr)))
  | RRotated old new archive count lastSeq => (200, encoded (Some (RotateKeyResponse_json rotatedAt old new archive count lastSeq)))
  end.
End Encoders.

(** ** Reading replies *)
Lemma Decode_encoded {T} (zero : T) st j y n : fine n j → n ≤ maxNestingDepth → st zero (jv j) = Ok y →
  Decode zero st (encoded (Some j)) = Ok y.
Proof.
  intros [Hj Hd] Hn Hy. unfold Decode, encoded. rewrite Nat.add_1_r.
  rewrite (all_read j (2 * String.length (render j +:+ newline))%nat 0 newline); [done|..]; try done.
  - rewrite length_append. lia.
  - lia.
Qed.

Lemma read_unknown {T} (fields : list (string * store T)) k j x l r : field_of fields k = None →
  store_members fields x (jvm l) = r → store_members fields x (jvm ((k, j) :: l)) = r.
Proof. intros Hk <-. cbn [map store_members fst snd]. by rewrite Hk. Qed.

Lemma read_unknown_omitted {T} (fields : list (string * store T)) b k j x l r : field_of fields k = None →
  store_members fields x (jvm l) = r → store_members fields x (jvm (omit_if b k j ++ l)) = r.
Proof. intros Hk Hr. unfold omit_if. destruct b; [done|]. by apply read_unknown. Qed.

Lemma reads_bool old b : store_bool old (jv (JBool b)) = Ok b.
Proof. done. Qed.

Lemma reads_ptr {T} (zero : T) st j x : jv j ≠ VNull → st zero (jv j) = Ok x → store_ptr zero st None (jv j) = Ok (Some x).
Proof. intros Hn Hx. unfold store_ptr. destruct (jv j) eqn:E; [done|..]; cbn [default]; by rewrite Hx. Qed.

Lemma reads_arr {T} (zero : T) st enc old (l : list T) : Forall (λ x, st zero (jv (enc x)) = Ok x) l →
  store_slice zero st old (jv (JArr (enc <$> l))) = Ok l.
Proof. destruct l as [|x l]; [done|]. apply (reads_slice zero st enc old (x :: l)). Qed.
#[export] Hint Resolve reads_bool reads_arr : codec.

(** ** What the client sees *)
Section Views.
Context (clause_text : clause replay_err → string) (lenient : string → option Z).

Definition violation_view (v : Violation) : ViolationView :=
  mkVV (Violation.v_ID v) (v_TransactionID v) (v_PolicyID v) (v_Path v) (v_EvidenceClass v) (v_ProofStatus v)
    (from_option clause_text "" (v_ViolatedClause v)) (v_Severity v) (v_OffendingHops v) (v_Timestamp v).
Definition compliance_view (pr : PolicyResult) : ComplianceView :=
  mkCV (pr_Compliant pr) (pr_Receipt pr) (violation_view <$> pr_Violation pr).
Definition settle_view (sr : SettleResponse) : SettleView :=
  mkSV (sr_Consensus sr) (compliance_view <$> sr_Compliance sr) (sr_ReceiptPersisted sr)
    (if bool_decide (sr_ReceiptPersisted sr = Some false) then persistence_warning (sr_Code sr) else "").

(** Values that survive: valid UTF-8, numbers of their types, times that can be
    written. *)
Definition violation_ok (v : Violation) : Prop :=
  (utf8_valid (Violation.v_ID v) = true ∧ utf8_valid (v_TransactionID v) = true ∧ utf8_valid (v_PolicyID v) = true ∧
   utf8_valid (v_EvidenceClass v) = true ∧ utf8_valid (v_ProofStatus v) = true ∧
   utf8_valid (from_option clause_text "" (v_ViolatedClause v)) = true ∧ utf8_valid (v_Severity v) = true) ∧
  path_ok (v_Path v) ∧ Forall hop_ok (v_OffendingHops v) ∧ is_Some (rfc3339nano (v_Timestamp v)).
Definition consensus_ok (c : ConsensusResult) : Prop :=
  0 ≤ cr_Round c < 2 ^ 64 ∧ - 2 ^ 63 ≤ cr_Votes c < 2 ^ 63 ∧ utf8_valid (cr_TxID c) = true.
Definition receipt_ok (r : receipt) : Prop := receipt_codec_ok r ∧ is_Some (rfc3339nano (r_Timestamp r)).
Definition option_all {A} (P : A → Prop) (o : option A) : Prop := match o with Some a => P a | None => True end.
Definition policy_result_ok (pr : PolicyResult) : Prop := option_all receipt_ok (pr_Receipt pr) ∧ option_all violation_ok (pr_Violation pr).
Definition settle_ok (sr : SettleResponse) : Prop :=
  option_all consensus_ok (sr_Consensus sr) ∧ option_all policy_result_ok (sr_Compliance sr) ∧ utf8_valid (sr_Code sr) = true.

Lemma reads_violation v ts : violation_ok v → rfc3339nano (v_Timestamp v) = Some ts →
  store_Violation lenient zero_vv (jv (Violation_json clause_text v ts)) = Ok (violation_view v) ∧
  fine 4 (Violation_json clause_text v ts).
Proof.
  destruct v as [a b c p e f g h o t]. intros ((? & ? & ? & ? & ? & ? & ?) & Hp & Ho & _) Ht.
  unfold store_Violation, Violation_json, violation_view. cbn [Violation.v_ID v_TransactionID v_PolicyID v_Path v_EvidenceClass
    v_ProofStatus v_ViolatedClause v_Severity v_OffendingHops v_Timestamp] in *. split.
  - read_members.
  - fine_members.
Qed.

Lemma receipt_json_Some r : receipt_ok r → ∃ j, receipt_json r = Some j ∧ jv j ≠ VNull ∧
  store_ComplianceReceipt lenient zero_receipt (jv j) = Ok r ∧ fine 4 j.
Proof.
  intros [Hr [ts Ht]]. unfold receipt_json. rewrite Ht. eexists. split; [done|]. split; [done|].
  split; [by apply reads_receipt|by apply fine_receipt].
Qed.

Lemma violation_json_Some v : violation_ok v → ∃ j, violation_json clause_text v = Some j ∧ jv j ≠ VNull ∧
  store_Violation lenient zero_vv (jv j) = Ok (violation_view v) ∧ fine 4 j.
Proof.
  intros Hv. pose proof Hv as (_ & _ & _ & [ts Ht]). unfold violation_json. rewrite Ht. eexists. split; [done|]. split; [done|].
  by apply reads_violation.
Qed.

Lemma fine_bool n b : 0 ≤ n → fine n (JBool b).
Proof. by split. Qed.
Hint Resolve fine_bool reads_ptr : codec.

Lemma fine_mono n m j : n ≤ m → fine n j → fine m j.
Proof. intros Hn [Hj Hd]. split; [done|lia]. Qed.

Lemma PolicyResult_json_Some pr : policy_result_ok pr → ∃ j, PolicyResult_json clause_text pr = Some j ∧ jv j ≠ VNull ∧
  store_ComplianceView lenient (mkCV false None None) (jv j) = Ok (compliance_view pr) ∧ fine 5 j.
Proof.
  destruct pr as [c r v]. intros [Hr Hv]. unfold PolicyResult_json, omit_nil, compliance_view, store_ComplianceView.
  cbn [pr_Compliant pr_Receipt pr_Violation option_all] in *.
  destruct r as [r|]; [destruct (receipt_json_Some r Hr) as (jr & -> & Hrn & Hrr & Hrf); pose proof (reads_ptr _ _ _ _ Hrn Hrr)|];
    (destruct v as [v|]; [destruct (violation_json_Some v Hv) as (jw & -> & Hvn & Hvr & Hvf); pose proof (reads_ptr _ _ _ _ Hvn Hvr)|]).
  all: cbn [fmap option_fmap option_map mbind option_bind app]; eexists; split; [reflexivity|]; split; [done|]; split; [read_members|].
  all: fine_members.
Qed.

Lemma reads_consensus c : consensus_ok c →
  store_ConsensusResult (mkCR false 0 0 "") (jv (ConsensusResult_json c)) = Ok c ∧ fine 1 (ConsensusResult_json c).
Proof.
  destruct c as [a b d e]. intros (? & ? & ?). unfold store_ConsensusResult, ConsensusResult_json.
  cbn [cr_Confirmed cr_Round cr_Votes cr_TxID] in *. split; [read_members|fine_members].
Qed.

Lemma read_unknown_last {T} (fields : list (string * store T)) b k j x : field_of fields k = None →
  store_members fields x (jvm (omit_if b k j)) = Ok x.
Proof. intros Hk. rewrite <- (app_nil_r (omit_if b k j)). by apply read_unknown_omitted. Qed.

(** The end of a settle reply: members that the client does not look at. *)
Lemma SettleResponse_json_Some msg sr : settle_ok sr → utf8_valid msg = true →
  ∃ j, SettleResponse_json clause_text msg sr = Some j ∧
    store_SettleView lenient zero_settle_view (jv j) = Ok (settle_view sr) ∧ fine 6 j.
Proof.
  destruct sr as [c p b i code]. intros (Hc & Hp & Hcode) Hmsg.
  unfold SettleResponse_json, settle_view, store_SettleView, omit_nil, zero_settle_view.
  cbn [sr_Consensus sr_Compliance sr_ReceiptPersisted sr_Idempotent sr_Code option_all] in *.
  assert (utf8_valid (persistence_warning code) = true) as Hw by (unfold persistence_warning; by repeat case_bool_decide).
  set (warning := if bool_decide (b = Some false) then persistence_warning code else "").
  set (error := if bool_decide (b = Some false) then msg else "").
  assert (utf8_valid warning = true ∧ utf8_valid error = true) as [Hw' He'] by (unfold warning, error; by case_bool_decide).
  assert (store_ptr (mkCR false 0 0 "") store_ConsensusResult None (jv (from_option ConsensusResult_json JNull c)) = Ok c ∧
    fine 1 (from_option ConsensusResult_json JNull c)) as [Hcr Hcf].
  { destruct c as [c|]; [|done]. destruct (reads_consensus c Hc) as [Hr Hf]. split; [by apply reads_ptr|done]. }
  apply (fine_mono 1 5) in Hcf; [|done].
  destruct p as [p|];
    [destruct (PolicyResult_json_Some p Hp) as (jp & -> & Hn & Hr & Hf); pose proof (reads_ptr _ _ _ _ Hn Hr) as Hpr|].
  all: cbn [fmap option_fmap option_map mbind option_bind app]; eexists; split; [reflexivity|]; destruct b as [b|]; (split; [|fine_members]).
  all: cbn [jv store_struct app]; repeat (eapply read_member; [reflexivity|eauto with codec|]).
  all: eapply read_omitted; [reflexivity|eauto with codec|absent|].
  all: repeat (apply read_unknown_omitted; [reflexivity|]); by apply read_unknown_last.
Qed.

Lemma ErrorResponse_view msg code : utf8_valid msg = true → utf8_valid code = true →
  store_SettleView lenient zero_settle_view (jv (ErrorResponse_json msg code)) = Ok zero_settle_view ∧ fine 1 (ErrorResponse_json msg code).
Proof.
  intros ? ?. unfold ErrorResponse_json, store_SettleView. split; [|fine_members].
  cbn [jv store_struct]. by repeat (apply read_unknown; [reflexivity|]).
Qed.

(** The chain endpoint. *)
Definition chain_ok (vc : VerifyChainResponse) : Prop :=
  - 2 ^ 63 ≤ vc_ChainLength vc < 2 ^ 63 ∧ Forall receipt_ok (vc_Receipts vc).

Lemma receipts_json_Some rs : Forall receipt_ok rs → ∃ js, mapM receipt_json rs = Some js ∧
  store_slice zero_receipt (store_ComplianceReceipt lenient) [] (jv (JSlice id js)) = Ok rs ∧ fine 5 (JSlice id js).
Proof.
  intros Hrs. assert (∃ js, mapM receipt_json rs = Some js ∧ Forall (fine 4) js ∧
    store_elems zero_receipt (store_ComplianceReceipt lenient) (map jv js) = Ok rs) as (js & Hj & Hf & He).
  { induction Hrs as [|r rs Hr _ IH]; [by exists []|]. destruct (receipt_json_Some r Hr) as (j & Hj & _ & Hs & Hf).
    destruct IH as (js & Hjs & Hfs & Hss). exists (j :: js). cbn [mapM]. rewrite Hj, Hjs. split; [done|]. split; [by constructor|].
    cbn [map store_elems]. by rewrite Hs, Hss. }
  exists js. split; [done|]. split.
  - destruct js as [|j js]; [|by rewrite <- He; unfold JSlice; cbn [jv store_slice]; rewrite list_fmap_id].
    cbn in He. injection He as <-. done.
  - apply fine_slice; [lia|]. done.
Qed.

Lemma VerifyChainResponse_json_Some vc : chain_ok vc →
  ∃ j, VerifyChainResponse_json vc = Some j ∧ store_VerifyChain lenient zero_chain (jv j) = Ok vc ∧ fine 6 j.
Proof.
  destruct vc as [n k ks rs]. intros [Hn Hrs]. unfold VerifyChainResponse_json, store_VerifyChain, zero_chain.
  cbn [vc_ChainLength vc_OraclePublicKey vc_OraclePublicKeys vc_Receipts] in *.
  destruct (receipts_json_Some rs Hrs) as (js & -> & Hr & Hf). cbn [mbind option_bind]. eexists. split; [reflexivity|].
  assert (Forall (λ x : bytes, store_bytes "" (jv (JBytes x)) = Ok x) ks) as Hks by (apply Forall_forall; intros; apply reads_bytes).
  split; [cbn [jv store_struct]; repeat (eapply read_member; [reflexivity|eauto with codec|]); reflexivity|].
  assert (fine 1 (JArr (JBytes <$> ks))) as Hk.
  { destruct ks as [|k0 ks0]; [done|]. apply (fine_slice JBytes 1 (k0 :: ks0)); [done|].
    apply Forall_forall. intros x _. by apply fine_bytes. }
  apply (fine_mono 1 5) in Hk; [|done]. fine_members.
Qed.
End Views.

(** ** From the flags to the lines printed *)
Section EndToEnd.
Context {S V : Type} `{!Store S, !ViolationStore V, !Ed25519}.
Context (clause_text : clause replay_err → string) (lenient : string → option Z) (resolve : string → string → res string string).
Abbreviation srv := (Server S V).

(** The settle endpoint behind its middleware, as the client's HTTP: [msg] is the
    text of an error. *)
Definition settle_over_http (e : env) (msg : string) (sv : srv) (_ : bool) (rq : sent_request) : res string (Z * bytes) :=
  if authorized (sv_apiToken sv) "/api/settle" (default "" (rq_Authorization rq))
  then Ok (reply clause_text msg "" (recovered (handleSettle e (read_body zero_settle store_SettleRequest (rq_Body rq)) sv)).2)
  else Ok (reply clause_text "valid bearer token required" "" (RError 401 "UNAUTHORIZED")).

(** The outcome that the demo should show for an answer. *)
Definition outcome_of (r : response) : option demo_outcome :=
  match r with
  | RSettle status sr =>
    if status =? 422 then pr ← sr_Compliance sr; v ← pr_Violation pr; Some (Blocked (violation_view clause_text v))
    else if status =? 200 then
      c ← sr_Consensus sr; pr ← sr_Compliance sr; rc ← pr_Receipt pr;
      if cr_Confirmed c && pr_Compliant pr
      then Some (Settled c rc (if bool_decide (sr_ReceiptPersisted sr = Some false) then Some (persistence_warning (sr_Code sr)) else None))
      else None
    else None
  | _ => None
  end.

Definition answer_ok (r : response) : Prop :=
  match r with RError _ code => utf8_valid code = true | RSettle _ sr => settle_ok clause_text sr | _ => True end.

(** The settle endpoint answers with an error or a settle response. *)
Definition settle_answer (x : res unit response) : Prop :=
  match x with Ok (RError st _) => st ≠ 200 ∧ st ≠ 422 | Ok (RSettle _ _) => True | Ok _ => False | _ => True end.

Lemma existing_answer e tx req dg path (sv sv' : srv) x : handleExistingSettlement e tx req dg path sv = (sv', x) → settle_answer x.
Proof.
  unfold handleExistingSettlement, fail. destruct (negb _); [by intros [= <- <-]|].
  destruct (validateLegacySettlementPath _ _ _ _); [|intros [= <- <-]; by case_bool_decide|by intros [= <- <-]].
  case_bool_decide; [|case_bool_decide; by intros [= <- <-]].
  destruct (ensureSettlementReceipt _ _ _ _ _ _) as [sv1 []]; by intros [= <- <-].
Qed.

Lemma settle_answers e body (sv sv' : srv) x : handleSettle e body sv = (sv', x) → settle_answer x.
Proof.
  unfold handleSettle, fail. destruct body as [req| |]; [|by intros [= <- <-]..].
  repeat (destruct (bool_decide _ || _ || _ || _) || case_bool_decide); try (by intros [= <- <-]).
  all: destruct (GetTransaction _ _) as [t|]; [apply existing_answer|].
  all: destruct (sv_checkers sv !! _) as [c|]; [|by intros [= <- <-]].
  all: destruct (BuildSCIONPath _ _) as [path| |]; [|by intros [= <- <-]..].
  all: destruct (PathCheck.Check _ _ _ _ _) as [c' [r| |]]; [|by intros [= <- <-]..].
  all: cbv zeta; destruct (negb (ck_Compliant r));
    [destruct (RecordViolation _ _ _ _ _ _ _ _ _) as [[d v]| |]; by intros [= <- <-]|].
  all: unfold settle_compliant, fail; destruct (new_tx _ _) as [l1 p];
    destruct (SubmitAndRunRound _ _ _ _ _) as [l2 [ex [cres err]]].
  all: destruct err as [u|er|]; [| |by destruct ex, cres; intros [= <- <-]].
  all: destruct ex as [t|]; [apply existing_answer|].
  all: destruct cres as [cr|]; cbn [is_ok negb orb]; try (by intros [= <- <-]).
  all: try (destruct (negb (cr_Confirmed cr)); [by intros [= <- <-]|]).
  all: destruct (ensureSettlementReceipt _ _ _ _ _ _) as [sv1 []]; by intros [= <- <-].
Qed.

(** The verdict of the client on a reply. *)
Lemma verdict_of r msg : answer_ok r → utf8_valid msg = true → settle_answer (Ok r) →
  ∃ view, Decode zero_settle_view (store_SettleView lenient) (reply clause_text msg "" r).2 = Ok view ∧
    match outcome_of r with
    | Some d => demo_verdict (reply clause_text msg "" r).1 view = Ok d
    | None => ∃ text, demo_verdict (reply clause_text msg "" r).1 view = Err text
    end.
Proof.
  intros Hok Hmsg Ha. destruct r as [st code| |st sr| | |]; try done; cbn [reply fst snd answer_ok settle_answer] in *.
  - destruct (ErrorResponse_view lenient msg code Hmsg Hok) as [Hr Hf]. exists zero_settle_view.
    split; [by apply (Decode_encoded _ _ _ _ 1)|]. cbn [outcome_of]. unfold demo_verdict.
    destruct Ha as [H200 H422]. rewrite (proj2 (Z.eqb_neq _ _) H422), (proj2 (Z.eqb_neq _ _) H200). cbn [negb]. eauto.
  - destruct (SettleResponse_json_Some clause_text lenient msg sr Hok Hmsg) as (j & -> & Hr & Hf).
    exists (settle_view clause_text sr). split; [by apply (Decode_encoded _ _ _ _ 6)|].
    unfold outcome_of, demo_verdict, settle_view. cbn [sw_Consensus sw_Compliance sw_ReceiptPersisted sw_PersistenceWarning].
    destruct sr as [c p b i code]; cbn [sr_Consensus sr_Compliance sr_ReceiptPersisted sr_Idempotent sr_Code].
    destruct (Z.eqb_spec st 422) as [->|Hst].
    + destruct p as [[pc [rc|] [v|]]|]; simpl; eauto.
    + destruct (Z.eqb_spec st 200) as [->|]; simpl; [|eauto]. destruct c as [c|]; simpl; [|eauto].
      destruct p as [[pc [rc|] v]|]; simpl; [|destruct (cr_Confirmed c); simpl; eauto; destruct pc; eauto..].
      destruct (cr_Confirmed c); simpl; [|eauto]. destruct pc; simpl; [|eauto]. destruct b as [[]|]; simpl; eauto.
Qed.

(** ** Properties *)

(** C13. The demo shows what the server did.  A settlement typed as IA hops in
    valid UTF-8, whose request body is within the limit of 1 MB, sent with the
    server's token, is decoded by the server to the typed fields; the
    server handles exactly that request; and from the reply on the wire the demo
    prints the settlement with the receipt of the answer when the answer is a
    confirmed settlement with a receipt, the blocking violation when the answer
    carries one, and fails without printing in every other case. *)
Theorem demo_shows_what_the_server_did (o : cliOptions) (e : env) (msg u : string) (sv : srv)
    (txID from to currency policyID : string) (amount : Z) (hs : list (Z * string)) :
  hs ≠ [] → Forall spec_ok hs → 0 < amount < 2 ^ 63 → Forall (λ s, utf8_valid s = true) [txID; from; to; currency; policyID; msg] →
  resolve (o_baseURL o) "/api/settle" = Ok u → sv_apiToken sv = o_token o →
  ∃ raw, rawPathFromSpec (String.concat "," (ia_text <$> hs)) = Ok raw ∧
    let req := mkSettleReq txID from to amount currency policyID (Some raw) in
    let r := (recovered (handleSettle e (Ok req) sv)).2 in
    len (render (SettleRequest_json req)) ≤ maxBodySize → answer_ok r →
    let '(lines, result) := demoSettle resolve (settle_over_http e msg sv) lenient o txID from to amount currency policyID
                              (String.concat "," (ia_text <$> hs)) in
    match outcome_of r with
    | Some d => lines = demo_lines from to amount currency d ∧ result = Ok tt
    | None => lines = [] ∧ is_ok result = false
    end.
Proof.
  intros Hne Hs Ha Hu Hres Htok. rewrite !Forall_cons in Hu. destruct Hu as (U1 & U2 & U3 & U4 & U5 & Hmsg & _).
  destruct (settle_request_read txID from to currency policyID amount hs Hne Hs Ha ltac:(by repeat constructor))
    as (req & raw & _ & -> & Hraw & Hread & _).
  exists raw. split; [done|]. cbv zeta. intros Hlen Hok. unfold demoSettle. rewrite Hraw. cbn [mbind res_bind].
  unfold postDecode, newRequest. rewrite Hres. cbn [mbind res_bind]. unfold settle_over_http. cbn [rq_Body rq_Authorization].
  assert (authorized (sv_apiToken sv) "/api/settle"
    (default "" (if is_empty (o_token o) then None else Some ("Bearer " +:+ o_token o))) = true) as ->.
  { apply authorized_iff. rewrite Htok. unfold is_empty. case_bool_decide; [by left|]. by right; right. }
  rewrite Hread by done. destruct (handleSettle e _ sv) as [sv' x] eqn:Hx.
  assert (settle_answer (Ok (recovered (sv', x)).2)) as Hans.
  { apply settle_answers in Hx. by destruct x. }
  destruct (verdict_of (recovered (sv', x)).2 msg Hok Hmsg Hans) as (view & Hdec & Hv).
  destruct (reply clause_text msg "" (recovered (sv', x)).2) as [status body] eqn:Hrep. cbn [fst snd] in *.
  cbn [mbind res_bind]. rewrite Hdec. cbn [map_err mbind res_bind].
  destruct (outcome_of (recovered (sv', x)).2) as [d|]; [by rewrite Hv|]. destruct Hv as [text ->]. done.
Qed.

(** The client sees the server's chain.  Whatever chain the endpoint answers, the
    verify-chain command decodes from the body on the wire exactly that answer:
    its length, its keys, and every receipt in order with all fields, so a chain
    that validates at the server validates at the client. *)
Theorem client_sees_the_chain (msg : string) (vc : VerifyChainResponse) : chain_ok vc →
  ∃ body, reply clause_text msg "" (RChain vc) = (200, body) ∧
    Decode zero_chain (store_VerifyChain lenient) body = Ok vc.
Proof.
  intros Hok. destruct (VerifyChainResponse_json_Some lenient vc Hok) as (j & Hj & Hr & Hf). cbn [reply]. rewrite Hj.
  eexists. split; [reflexivity|]. by apply (Decode_encoded _ _ _ _ 6).
Qed.
End EndToEnd.

(** ** Witnesses *)
Module DemoReplies.
Import Toy DemoReceipt DemoApi DemoCli.

Definition clause_str (_ : clause replay_err) : string := "clause".
Definition demo_env : env := mkEnv (λ i, "id-" +:+ pretty i) (λ _, t0) (λ _, NoFault) "" (λ _, "error").
Definition demo_opts : cliOptions := mkCli defaultCLIBaseURL "" false "table".
Definition join (base path : string) : res string string := Ok (base +:+ path).
Definition demo_raw : bytes := Eval vm_compute in match rawPathFromSpec (String.concat "," (ia_text <$> demo_hs)) with Ok r => r | _ => "" end.
Definition demo_req : SettleRequest := mkSettleReq "tx-1" "CH" "EU" 100 "CHF" "chf-eur-settlement-v1" (Some demo_raw).
Definition demo_answer : response := Eval vm_compute in (recovered (handleSettle demo_env (Ok demo_req) demo_server)).2.

Lemma demo_answer_eq : (recovered (handleSettle demo_env (Ok demo_req) demo_server)).2 = demo_answer.
Proof. vm_compute. reflexivity. Qed.

Lemma demo_answer_ok : answer_ok clause_str demo_answer.
Proof.
  unfold answer_ok, demo_answer, settle_ok, policy_result_ok, receipt_ok, receipt_codec_ok, path_ok, consensus_ok.
  cbn [sr_Consensus sr_Compliance sr_Code option_all pr_Receipt pr_Violation r_Path path_Hops r_ISDProofs r_ThresholdSignatures].
  split_and!; try exact I; try (repeat constructor; by vm_compute); by vm_compute; eauto.
Qed.

Definition demo_output := demoSettle join (settle_over_http clause_str demo_env "error" demo_server) (λ _, None) demo_opts
  "tx-1" "CH" "EU" 100 "CHF" "chf-eur-settlement-v1" (String.concat "," (ia_text <$> demo_hs)).

Lemma demo_shows_what_the_server_did_witness :
  demo_output.2 = Ok tt ∧ length demo_output.1 = 5%nat ∧
  ∃ d, outcome_of clause_str demo_answer = Some d ∧ demo_output.1 = demo_lines "CH" "EU" 100 "CHF" d.
Proof.
  destruct (demo_shows_what_the_server_did clause_str (λ _, None) join demo_opts demo_env "error"
    (defaultCLIBaseURL +:+ "/api/settle") demo_server "tx-1" "CH" "EU" "CHF" "chf-eur-settlement-v1" 100 demo_hs)
    as (raw & Hraw & H).
  - discriminate.
  - repeat constructor; vm_compute; congruence.
  - split; [reflexivity|vm_compute; reflexivity].
  - repeat constructor.
  - reflexivity.
  - reflexivity.
  - assert (raw = demo_raw) as -> by (vm_compute in Hraw; injection Hraw as <-; reflexivity).
    cbv zeta in H. fold demo_req in H. rewrite demo_answer_eq in H. fold demo_output in H.
    destruct demo_output as [lines result]. destruct H as [Hl Hr].
    + vm_compute. congruence.
    + exact demo_answer_ok.
    + split; [exact Hr|]. cbn [fst]. rewrite Hl. split; [reflexivity|]. eexists. split; reflexivity.
Defined.

Definition demo_chain : VerifyChainResponse := mkVC 1 "key" ["key"; "old"] [demo_receipt].

Lemma client_sees_the_chain_witness :
  ∃ body, reply clause_str "" "" (RChain demo_chain) = (200, body) ∧
    Decode zero_chain (store_VerifyChain (λ _, None)) body = Ok demo_chain.
Proof.
  apply (client_sees_the_chain clause_str (λ _, None) "" demo_chain). split; [split; vm_compute; congruence|].
  apply Forall_singleton. split; [apply demo_receipt_ok|]. vm_compute. eauto.
Defined.
End DemoReplies.
