(* ===== verification/DemoProgram.v ===== *)
(** * The demo program

    [src/cmd/demo/main.go]: four scenarios sent to a running server.  It posts the
    same requests as the [demo] command of [Cli], reads the replies with the
    same types, and ends the process with status 1 at the first failure.  It
    ignores errors of the decoder: [left_settle] and [left_filter] are what the
    decoder has stored when it fails.  Blank lines between scenarios are left
    out. *)

From S2P Require Import Prelude GoJson Json GoDecode Sha256 Model Replay Policy PathCheck Scion Bolt.
From S2P Require Import ReceiptStore Receipt Violation Ledger Consensus Codecs Api Cli.

Definition demoAPIToken (env : string → string) : string :=
  if is_empty (env "JURISPATH_DEMO_API_TOKEN") then env "JURISPATH_API_TOKEN" else env "JURISPATH_DEMO_API_TOKEN".

Definition demoBaseURL (env : string → string) : string :=
  if is_empty (env "JURISPATH_DEMO_BASE_URL") then "http://localhost:8080" else env "JURISPATH_DEMO_BASE_URL".

(** [demoHTTPClient]: whether certificates go unverified. *)
Definition demoHTTPClient (env : string → string) : bool := bool_decide (env "JURISPATH_DEMO_INSECURE_TLS" = "true").

Section Demo.
(** [url.Parse] in [http.NewRequest]; the exchange; the lenient time parser. *)
Context (parse_url : string → res string string) (http : bool → sent_request → res string (Z * bytes)).
Context (lenient : string → option Z) (left_settle : bytes → SettleView) (left_filter : bytes → list SCIONPath * list SCIONPath).
Context (env : string → string).

Definition newDemoRequest (url : string) (body : bytes) : res string sent_request :=
  u ← parse_url url;
  Ok (mkSent "POST" u (if is_empty (demoAPIToken env) then None else Some ("Bearer " +:+ demoAPIToken env)) body).

(** Posting a body: a failure ends the process. *)
Definition post (path : string) (what : string) (payload : json) : res string (Z * bytes) :=
  req ← map_err (λ e, "creating " +:+ what +:+ " failed: " +:+ e) (newDemoRequest (demoBaseURL env +:+ path) (render payload));
  map_err (λ e, what +:+ " failed: " +:+ e) (http (demoHTTPClient env) req).

(** A decoding whose error is ignored. *)
Definition decode_quietly {T} (zero : T) (st : store T) (left : bytes → T) (body : bytes) : T :=
  match Decode zero st body with Ok v => v | _ => left body end.

Definition sendSettle (txID from to : string) (amount : Z) (currency policyID : string) (hops : list ASHop) :
    list output * res string unit :=
  let rawPath := match NewMockPath hops with Ok raw => Some raw | _ => None end in
  match (resp ← post "/api/settle" "request" (SettleRequest_json (mkSettleReq txID from to amount currency policyID rawPath));
         demo_verdict resp.1 (decode_quietly zero_settle_view (store_SettleView lenient) left_settle resp.2)) with
  | Ok d => (demo_lines from to amount currency d, Ok tt)
  | Err e => ([], Err e)
  | Panic => ([], Panic)
  end.

Definition sendFilterPaths (policyID : string) (paths : list SCIONPath) : list output * res string unit :=
  match post "/api/filter-paths" "filter-paths request" (FilterPathsRequest_json (mkFilterReq policyID paths)) with
  | Ok (_, body) =>
    let '(compliant, nonCompliant) := decode_quietly ([], []) store_FilterView left_filter body in
    (OutLine ("  Candidate paths: " +:+ count paths) :: OutLine ("  Compliant: " +:+ count compliant) ::
     (path_line "PASS" <$> compliant) ++
     OutLine ("  Non-compliant (grayed out): " +:+ count nonCompliant) :: (path_line "SKIP" <$> nonCompliant), Ok tt)
  | Err e => ([], Err e)
  | Panic => ([], Panic)
  end.

Definition ch110 : ASHop := mkHop "1-ff00:0:110" 1 "ff00:0:110" "".
Definition ch111 : ASHop := mkHop "1-ff00:0:111" 1 "ff00:0:111" "".
Definition eu210 : ASHop := mkHop "2-ff00:0:210" 2 "ff00:0:210" "".
Definition eu211 : ASHop := mkHop "2-ff00:0:211" 2 "ff00:0:211" "".
Definition x310 : ASHop := mkHop "3-ff00:0:310" 3 "ff00:0:310" "".
Definition x311 : ASHop := mkHop "3-ff00:0:311" 3 "ff00:0:311" "".

Definition compliantHops : list ASHop := [ch110; ch111; eu210; eu211].
Definition violatingHops : list ASHop := [ch110; x310; eu210].
Definition swissHops : list ASHop := [ch110; ch111].
Definition candidatePaths : list SCIONPath :=
  [mkPath "" [ch110; ch111; eu210; eu211] "path-ch-eu-direct" "" "";
   mkPath "" [ch110; x310; eu210] "path-via-isd-x" "" "";
   mkPath "" [ch110; x310; eu210; x311] "path-all-three-isds" "" ""].

Definition demo_main : list output * res string unit :=
  in_order
    [("=== Scenario A: Compliant path (ISD-CH -> ISD-EU) ===",
      sendSettle "tx-chf-eur-001" "CH" "EU" 100 "CHF" "chf-eur-settlement-v1" compliantHops);
     ("=== Scenario B: Non-compliant path (via ISD-X) ===",
      sendSettle "tx-chf-eur-002" "CH" "EU" 100 "CHF" "chf-eur-settlement-v1" violatingHops);
     ("=== Scenario C: Swiss-only settlement ===",
      sendSettle "tx-chf-chf-001" "CH" "CH" 100 "CHF" "swiss-dlt-act-v1" swissHops);
     ("=== Scenario D: Path Pre-filtering ===",
      sendFilterPaths "chf-eur-settlement-v1" candidatePaths)].

(** [log.Fatalf] exits with status 1. *)
Definition demo_exit : Z := match demo_main.2 with Ok _ => 0 | Err _ => 1 | Panic => 2 end.

(** ** Agreement with the command *)
Section Agreement.
Context (resolve : string → string → res string string) (o : cliOptions).

(** The same server, reached with the same token. *)
Record same_connection : Prop := {
  sc_url : ∀ path, resolve (o_baseURL o) path = parse_url (demoBaseURL env +:+ path);
  sc_token : o_token o = demoAPIToken env;
  sc_tls : httpClient o = demoHTTPClient env
}.

Definition replies_decode : Prop :=
  ∀ req status body, http (httpClient o) req = Ok (status, body) →
    is_ok (Decode zero_settle_view (store_SettleView lenient) body) = true.

Lemma settle_agrees txID from to amount currency policyID spec hops raw :
  same_connection → replies_decode → rawPathFromSpec spec = Ok raw → NewMockPath hops = Ok raw →
  let a := sendSettle txID from to amount currency policyID hops in
  let b := demoSettle resolve http lenient o txID from to amount currency policyID spec in
  a.1 = b.1 ∧ is_ok a.2 = is_ok b.2.
Proof.
  intros [Hu Ht Hc] Hd Hspec Hraw. unfold sendSettle, demoSettle, postDecode, post, newRequest, newDemoRequest.
  rewrite Hspec, Hraw, Hu, Ht. cbn [mbind res_bind]. destruct (parse_url _) as [u|e|]; cbn [map_err mbind res_bind]; [|done..].
  rewrite <- Hc. destruct (http _ _) as [[status body]|e|] eqn:Hh; cbn [map_err mbind res_bind fst snd]; [|done..].
  specialize (Hd _ _ _ Hh). unfold decode_quietly. destruct (Decode _ _ body) as [v|e|]; [|done..]. cbn [map_err mbind res_bind].
  by destruct (demo_verdict status v) as [d|e|].
Qed.

(** Both demos settle alike.  Against the same server with the same token, and as
    long as its replies are settlement replies, the three settlements of the
    program and of the [demo] command send the same requests, print the same
    lines, and fail together. *)
Theorem demo_programs_agree : same_connection → replies_decode →
  let alike (a b : list output * res string unit) := a.1 = b.1 ∧ is_ok a.2 = is_ok b.2 in
  alike (sendSettle "tx-chf-eur-001" "CH" "EU" 100 "CHF" "chf-eur-settlement-v1" compliantHops)
        (demoSettle resolve http lenient o "tx-chf-eur-001" "CH" "EU" 100 "CHF" "chf-eur-settlement-v1"
           "1-ff00:0:110,1-ff00:0:111,2-ff00:0:210,2-ff00:0:211") ∧
  alike (sendSettle "tx-chf-eur-002" "CH" "EU" 100 "CHF" "chf-eur-settlement-v1" violatingHops)
        (demoSettle resolve http lenient o "tx-chf-eur-002" "CH" "EU" 100 "CHF" "chf-eur-settlement-v1"
           "1-ff00:0:110,3-ff00:0:310,2-ff00:0:210") ∧
  alike (sendSettle "tx-chf-chf-001" "CH" "CH" 100 "CHF" "swiss-dlt-act-v1" swissHops)
        (demoSettle resolve http lenient o "tx-chf-chf-001" "CH" "CH" 100 "CHF" "swiss-dlt-act-v1" "1-ff00:0:110,1-ff00:0:111").
Proof. intros Hc Hd. split_and!; (eapply settle_agrees; [done|done|vm_compute; reflexivity|reflexivity]). Qed.
End Agreement.

(** The pre-filtering scenario cannot fail once a reply arrives: whatever its
    status and its body, it prints a result. *)
Theorem demo_filter_ignores_errors policyID paths status body :
  post "/api/filter-paths" "filter-paths request" (FilterPathsRequest_json (mkFilterReq policyID paths)) = Ok (status, body) →
  (sendFilterPaths policyID paths).2 = Ok tt.
Proof. intros Hp. unfold sendFilterPaths. rewrite Hp. by destruct (decode_quietly _ _ _ _). Qed.
End Demo.

(** An error reply is shown as no path being compliant. *)
Example demo_filter_unauthorized :
  sendFilterPaths Ok (λ _ _, Ok (401, render (JObj [("code", JStr "UNAUTHORIZED"); ("message", JStr "bearer token required")])))
    (λ _, ([], [])) (λ _, "") "chf-eur-settlement-v1" candidatePaths =
  ([OutLine "  Candidate paths: 3"; OutLine "  Compliant: 0"; OutLine "  Non-compliant (grayed out): 0"], Ok tt).
Proof. vm_compute. reflexivity. Qed.
