(* ===== verification/Metrics.v ===== *)
(** * The measurement tool

    [src/tools/pocmetrics/main.go]: it times path checks, issues and verifies a
    chain of receipts, and provokes two failures to see that issuing fails
    closed.  The seeds of the key generator, the identifiers of [uuid.New] and the
    clock readings are arguments.  Percentiles are computed in [float64]; the
    product it rounds is modelled on mantissas and exponents.  The report is printed
    as in the source, in JSON or line by line. *)

From S2P Require Import Prelude GoJson Json GoDecode Sha256 Model Replay Policy PathCheck Scion Bolt.
From S2P Require Import ReceiptStore Receipt Codecs Validator.

(** ** float64

    Nonnegative numbers [f_man * 2 ^ f_exp] in the normal range. *)
Record float64 := mkF64 { f_man : Z; f_exp : Z }.

(** Rounding to 53 bits, to nearest, ties to even. *)
Definition round64 (m e : Z) : float64 :=
  let s := Z.log2 m - 52 in
  if s <=? 0 then mkF64 m e
  else
    let q := m / 2 ^ s in
    let r := m mod 2 ^ s in
    mkF64 (if (r <? 2 ^ (s - 1)) || ((r =? 2 ^ (s - 1)) && Z.even q) then q else q + 1) (e + s).

Definition f64_of_int (n : Z) : float64 := round64 n 0.
Definition f64_mul (a b : float64) : float64 := round64 (f_man a * f_man b) (f_exp a + f_exp b).

(** [int(math.Ceil(x))] *)
Definition f64_ceil (a : float64) : Z :=
  if 0 <=? f_exp a then f_man a * 2 ^ f_exp a else - (- f_man a / 2 ^ (- f_exp a)).

(** The literals 0.50 and 0.95. *)
Definition f64_050 : float64 := mkF64 1 (-1).
Definition f64_095 : float64 := mkF64 4278419646001971 (-52).

(** ** The tool *)
Definition percentile (durations : list Z) (pct : float64) : res string Z :=
  let n := Z.of_nat (length durations) in
  if n =? 0 then Ok 0
  else
    let idx := f64_ceil (f64_mul (f64_of_int n) pct) - 1 in
    let idx := if idx <? 0 then 0 else idx in
    let idx := if n <=? idx then n - 1 else idx in
    match durations !! Z.to_nat idx with Some d => Ok d | None => Panic end.

Definition failingProofProvider (e : string) : ISDProofProvider := λ _, Err e.

Record failingStore := mkFailing { fs_err : string }.

#[export] Instance failingStore_Store : Store failingStore := {|
  store_Append _ _ s := (s, Err (BoltError (fs_err s)));
  store_GetByTxID _ _ _ := Ok None;
  store_GetByID _ _ _ := Ok None;
  store_List _ _ := Ok [];
  store_Count _ _ := Ok 0;
  store_Last _ _ := Ok None;
  store_ListRange _ _ _ _ := Ok []
|}.

(** ** Text

    [time.Duration.String]: the unit of sub-second durations is chosen by size, a
    fraction loses its trailing zeros. *)
Definition duration_string (d : Z) : string :=
  let u := Z.abs d in
  let text :=
    if u =? 0 then "0s"
    else if u <? 1000 then pretty u +:+ "ns"
    else if u <? 1000000 then pretty (u / 1000) +:+ frac 3 (u mod 1000) +:+ char 194 +:+ char 181 +:+ "s"
    else if u <? second then pretty (u / 1000000) +:+ frac 6 (u mod 1000000) +:+ "ms"
    else
      let s := u / second in
      let seconds := pretty (s mod 60) +:+ frac 9 (u mod second) +:+ "s" in
      if s <? 60 then seconds
      else if s <? 3600 then pretty (s / 60) +:+ "m" +:+ seconds
      else pretty (s / 3600) +:+ "h" +:+ pretty (s / 60 mod 60) +:+ "m" +:+ seconds in
  if d <? 0 then "-" +:+ text else text.

Example duration_strings :
  duration_string <$> [0; 999; 1500; 2000000; 1500000000; 90 * second; 3661 * second + 250000000; -7] =
  ["0s"; "999ns"; "1.5" +:+ char 194 +:+ char 181 +:+ "s"; "2ms"; "1.5s"; "1m30s"; "1h1m1.25s"; "-7ns"].
Proof. vm_compute. reflexivity. Qed.

(** An encoder with [SetIndent] of two spaces, after the prefix [pre]. *)
Fixpoint render_indent (pre : string) (j : json) : string :=
  let inner := pre +:+ "  " in
  match j with
  | JArr (j0 :: l0) =>
    let fix go (first : bool) (l : list json) : string :=
      match l with
      | [] => char 10 +:+ pre +:+ "]"
      | j :: l' => (if first then "" else ",") +:+ char 10 +:+ inner +:+ render_indent inner j +:+ go false l'
      end in "[" +:+ go true (j0 :: l0)
  | JObj (kj0 :: l0) =>
    let fix go (first : bool) (l : list (string * json)) : string :=
      match l with
      | [] => char 10 +:+ pre +:+ "}"
      | (k, j) :: l' => (if first then "" else ",") +:+ char 10 +:+ inner +:+ quote k +:+ ": " +:+ render_indent inner j +:+ go false l'
      end in "{" +:+ go true (kj0 :: l0)
  | _ => render j
  end.

Record metrics := mkMetrics {
  mt_PathCheckSamples : Z;
  mt_PathCheckP50Ns : Z;
  mt_PathCheckP95Ns : Z;
  mt_ReceiptSizeBytes : Z;
  mt_ChainLength : Z;
  mt_ChainVerifyNs : Z;
  mt_MissingProofFailure : string;
  mt_ReceiptStoreFailure : string;
  mt_EvidenceClass : string;
  mt_ProofStatus : string;
  mt_ChainVerifyReceiptCount : Z
}.

Inductive metrics_err :=
| BuildRawDemoPath (e : string)
| ExtractDemoPath (e : path_err)
| PathCheckFailed (e : check_err)
| DemoPathNotCompliant (c : option (clause replay_err))
| CreateGenerator (e : string)
| IssueReceipt (e : gen_err)
| MarshalReceipt (e : string)
| IssueChainReceipt (i : Z) (e : gen_err)
| ListChainReceipts (e : store_err)
| ValidateChain (e : valid_err)
| SamplesNotPositive
| ChainLengthNotPositive
| PercentileError (e : string).

(** What one run draws from outside: the outcome of each [GenerateKey], the
    identifier and the time of each receipt, the time each check took and the
    time the validation took. *)
Record draws := mkDraws {
  dr_seed : nat → res string bytes;
  dr_uuid : nat → string;
  dr_now : nat → Z;
  dr_check : nat → Z;
  dr_validate : Z;
  dr_err_text : gen_err → string
}.

Definition metrics_hops : list ASHop :=
  [mkHop "1-ff00:0:110" 1 "ff00:0:110" ""; mkHop "1-ff00:0:111" 1 "ff00:0:111" "";
   mkHop "2-ff00:0:210" 2 "ff00:0:210" ""; mkHop "2-ff00:0:211" 2 "ff00:0:211" ""].

Definition demoPath : res metrics_err SCIONPath :=
  raw ← map_err BuildRawDemoPath (NewMockPath metrics_hops);
  map_err ExtractDemoPath (BuildSCIONPath (MockPathExtractor unmarshalHops) raw).

Definition corridorPolicy : Policy :=
  mkPolicy "chf-eur-settlement-v1" "CHF-EUR Cross-Border Settlement" "" 1 [1; 2] ModeStrict.

(** The measuring loop of [collect], with [n] samples left from index [i]; a checker
    without a replay detector reads no clock. *)
Fixpoint sample_loop (d : draws) (path : SCIONPath) (c : Checker) (i n : nat) : res metrics_err (list Z) :=
  match n with
  | O => Ok []
  | S n' =>
    let '(c', x) := PathCheck.Check 0 0 0 path c in
    r ← map_err PathCheckFailed x;
    if negb (ck_Compliant r) then Err (DemoPathNotCompliant (ck_ViolatedClause r))
    else ds ← sample_loop d path c' (S i) n'; Ok (dr_check d i :: ds)
  end.

(** [fmt.Sprintf] with the verb [%06d], on a positive number. *)
Definition pad6 (n : Z) : string :=
  let s := pretty n in String.substring 0 (6 - String.length s) "000000" +:+ s.

Section Tool.
Context `{!Ed25519}.

Definition signedReceiptSize (d : draws) (policyID : string) (path : SCIONPath) : res metrics_err Z :=
  gen ← map_err CreateGenerator (NewGenerator (dr_seed d 0));
  rcpt ← map_err IssueReceipt (Issue (dr_uuid d 0) (dr_now d 0) "tx-metrics-size" policyID path gen).2;
  data ← map_err MarshalReceipt (marshal_at (r_Timestamp rcpt) (ComplianceReceipt_json rcpt));
  Ok (len data).

(** The issuing loop of [verifyChain], with [n] receipts left from index [i]. *)
Fixpoint chain_issue_loop (d : draws) (policyID : string) (path : SCIONPath) (i n : nat)
    (gen : Generator) (store : MemoryStore) : res metrics_err MemoryStore :=
  match n with
  | O => Ok store
  | S n' =>
    let '(gen', store', x) :=
      IssueAndAppend NoFault (dr_uuid d (3 + i)%nat) (dr_now d (3 + i)%nat)
        ("tx-metrics-chain-" +:+ pad6 (Z.of_nat i + 1)) policyID path gen store in
    _ ← map_err (IssueChainReceipt (Z.of_nat i + 1)) x;
    chain_issue_loop d policyID path (S i) n' gen' store'
  end.

Definition verifyChain (d : draws) (policyID : string) (path : SCIONPath) (chainLength : Z) : res metrics_err (Z * Z) :=
  gen ← map_err CreateGenerator (NewGenerator (dr_seed d 1));
  store ← chain_issue_loop d policyID path 0 (Z.to_nat chainLength) gen NewMemoryStore;
  receipts ← map_err ListChainReceipts (mem_List store);
  _ ← map_err ValidateChain (ValidateReceiptChain (NewReceiptValidator 3600000000000) receipts);
  Ok (Z.of_nat (length receipts), dr_validate d).

Definition measureMissingProofFailure (d : draws) (policyID : string) (path : SCIONPath) : res metrics_err string :=
  match NewGenerator (dr_seed d 2) with
  | Err e => Ok ("error: " +:+ e)
  | Panic => Panic
  | Ok gen =>
    match (Issue (dr_uuid d 1) (dr_now d 1) "tx-metrics-missing-proof" policyID path
             (WithProofProvider (Some (failingProofProvider "missing TRC proof material")) gen)).2 with
    | Err _ => Ok "fail-closed"
    | Ok _ => Ok "unexpected-success"
    | Panic => Panic
    end
  end.

Definition measureReceiptStoreFailure (d : draws) (policyID : string) (path : SCIONPath) : res metrics_err string :=
  match NewGenerator (dr_seed d 3) with
  | Err e => Ok ("error: " +:+ e)
  | Panic => Panic
  | Ok gen =>
    match (IssueAndAppend NoFault (dr_uuid d 2) (dr_now d 2) "tx-metrics-store-fail" policyID path gen (mkFailing "disk full")).2 with
    | Err (AppendError id e) => if negb (bool_decide (id = "")) then Ok "fail-closed" else Ok ("error: " +:+ dr_err_text d (AppendError id e))
    | Err e => Ok ("error: " +:+ dr_err_text d e)
    | Ok _ => Ok "unexpected-success"
    | Panic => Panic
    end
  end.

(** [sort.Slice] orders the durations. *)
Definition collect (d : draws) (samples chainLength : Z) : res metrics_err metrics :=
  path ← demoPath;
  ds ← sample_loop d path (NewChecker corridorPolicy) 0 (Z.to_nat samples);
  let durations := merge_sort Z.le ds in
  receiptSize ← signedReceiptSize d (pol_ID corridorPolicy) path;
  '(verified, chainVerify) ← verifyChain d (pol_ID corridorPolicy) path chainLength;
  missingProof ← measureMissingProofFailure d (pol_ID corridorPolicy) path;
  storeFailure ← measureReceiptStoreFailure d (pol_ID corridorPolicy) path;
  p50 ← map_err PercentileError (percentile durations f64_050);
  p95 ← map_err PercentileError (percentile durations f64_095);
  Ok (mkMetrics samples p50 p95 receiptSize chainLength chainVerify missingProof storeFailure
        (path_EvidenceClass path) (path_ProofStatus path) verified).

(** [main] up to printing: both flags must be positive. *)
Definition metrics_main (d : draws) (samples chainLength : Z) : res metrics_err metrics :=
  if samples <=? 0 then Err SamplesNotPositive
  else if chainLength <=? 0 then Err ChainLengthNotPositive
  else collect d samples chainLength.

(** What is printed: the table, or the indented JSON; [fatalf] ends the process
    with status 1. *)
Definition metrics_json (m : metrics) : json :=
  JObj [("path_check_samples", JNum (mt_PathCheckSamples m)); ("path_check_p50_ns", JNum (mt_PathCheckP50Ns m));
        ("path_check_p95_ns", JNum (mt_PathCheckP95Ns m)); ("receipt_size_bytes", JNum (mt_ReceiptSizeBytes m));
        ("chain_length", JNum (mt_ChainLength m)); ("chain_verify_ns", JNum (mt_ChainVerifyNs m));
        ("missing_proof_failure", JStr (mt_MissingProofFailure m)); ("receipt_store_failure", JStr (mt_ReceiptStoreFailure m));
        ("evidence_class", JStr (mt_EvidenceClass m)); ("proof_status", JStr (mt_ProofStatus m));
        ("chain_verify_receipt_count", JNum (mt_ChainVerifyReceiptCount m))].

Definition metrics_table (m : metrics) : list string :=
  ["JurisPath PoC metrics";
   "  path_check_samples: " +:+ pretty (mt_PathCheckSamples m);
   "  path_check_p50:     " +:+ duration_string (mt_PathCheckP50Ns m);
   "  path_check_p95:     " +:+ duration_string (mt_PathCheckP95Ns m);
   "  receipt_size:       " +:+ pretty (mt_ReceiptSizeBytes m) +:+ " bytes";
   "  evidence/proof:     " +:+ mt_EvidenceClass m +:+ " / " +:+ mt_ProofStatus m;
   "  chain_length:       " +:+ pretty (mt_ChainLength m) +:+ " receipts";
   "  chain_verify_time:  " +:+ duration_string (mt_ChainVerifyNs m);
   "  missing_proof:      " +:+ mt_MissingProofFailure m;
   "  receipt_store:      " +:+ mt_ReceiptStoreFailure m].

Definition metrics_output (d : draws) (samples chainLength : Z) (jsonOutput : bool) : list string * Z :=
  match metrics_main d samples chainLength with
  | Ok m => (if jsonOutput then [render_indent "" (metrics_json m)] else metrics_table m, 0)
  | Err _ => ([], 1)
  | Panic => ([], 2)
  end.
End Tool.

(** ** Percentiles *)
Lemma log2_between p s : 0 ≤ s → 2 ^ s ≤ p < 2 * 2 ^ s → Z.log2 p = s.
Proof. intros Hs Hp. apply Z.log2_unique; [done|]. rewrite Z.pow_succ_r by done. lia. Qed.

Lemma f64_of_int_exact n : 0 < n < 2 ^ 53 → f64_of_int n = mkF64 n 0.
Proof.
  intros Hn. unfold f64_of_int, round64. assert (Z.log2 n < 53) by (apply Z.log2_lt_pow2; lia).
  destruct (Z.log2 n - 52 <=? 0) eqn:E; zbool; [done|lia].
Qed.

(** A product of at most 53 bits is exact. *)
Lemma round64_exact p e : 0 < p < 2 ^ 53 → round64 p e = mkF64 p e.
Proof.
  intros Hp. unfold round64. assert (Z.log2 p < 53) by (apply Z.log2_lt_pow2; lia).
  destruct (Z.log2 p - 52 <=? 0) eqn:E; zbool; [done|lia].
Qed.

(** Rounding a longer one gives a nearest multiple of the last place. *)
Lemma round64_near p e : 2 ^ 53 ≤ p → ∃ s r, 0 < s ∧ round64 p e = mkF64 r (e + s) ∧
  2 ^ 52 * 2 ^ s ≤ p < 2 ^ 53 * 2 ^ s ∧ 2 * Z.abs (r * 2 ^ s - p) ≤ 2 ^ s.
Proof.
  intros Hp. set (s := Z.log2 p - 52). assert (53 ≤ Z.log2 p) by (apply Z.log2_le_pow2; lia).
  pose proof (Z.log2_spec p ltac:(lia)) as [H1 H2]. assert (0 < s) as Hs by lia.
  unfold round64. fold s. destruct (s <=? 0) eqn:E; zbool; [lia|].
  match goal with |- context [if ?b then p / 2 ^ s else _] => set (r := if b then p / 2 ^ s else p / 2 ^ s + 1) end. exists s, r. split_and!; [done|done|..].
  - rewrite <- Z.pow_add_r by lia. by replace (52 + s) with (Z.log2 p) by lia.
  - rewrite <- Z.pow_add_r by lia. by replace (53 + s) with (Z.succ (Z.log2 p)) by lia.
  - pose proof (Z.div_mod p (2 ^ s) ltac:(lia)) as Hdm. pose proof (Z.mod_pos_bound p (2 ^ s) ltac:(lia)) as Hmod.
    assert (2 ^ s = 2 * 2 ^ (s - 1)) as Hhalf by (rewrite <- Z.pow_succ_r by lia; f_equal; lia).
    subst r. set (q := p / 2 ^ s) in *. set (m := p mod 2 ^ s) in *. clearbody q m. rewrite Hhalf in Hdm, Hmod |- *. generalize dependent (2 ^ (s - 1)). intros h Hdm Hmod _.
    destruct (m <? h) eqn:E1; destruct ((m =? h) && Z.even q) eqn:E2; zbool; cbn [orb];
      [replace (q * (2 * h) - p) with (- m) by lia; lia..|replace ((q + 1) * (2 * h) - p) with (2 * h - m) by lia; lia].
Qed.

(** The ceiling of a rounded product is that of the exact quotient by 20. *)
Lemma ceil_095 n : 0 < n ≤ 2 ^ 40 → f64_ceil (f64_mul (f64_of_int n) f64_095) = (19 * n + 19) / 20.
Proof.
  intros Hn. rewrite f64_of_int_exact by lia. unfold f64_mul, f64_095. cbn [f_man f_exp].
  set (p := n * 4278419646001971). replace (0 + -52) with (-52) by done.
  assert (20 * p = n * (19 * 2 ^ 52 - 4)) as Hp by (subst p; lia).
  destruct (Z.lt_ge_cases p (2 ^ 53)) as [Hlt|Hge].
  - assert (n = 1 ∨ n = 2) as [-> | ->] by lia; by vm_compute.
  - destruct (round64_near p (-52) Hge) as (s & r & Hs & -> & [Hl Hu] & Hr).
    assert (s < 52) as Hs52.
    { apply Z.lt_nge. intros Hc. assert (2 ^ 52 ≤ 2 ^ s) by (by apply Z.pow_le_mono_r). lia. }
    unfold f64_ceil. cbn [f_man f_exp]. destruct (0 <=? -52 + s) eqn:E; zbool; [lia|].
    set (k := 52 - s). replace (- (-52 + s)) with k by lia.
    assert (2 ^ 52 = 2 ^ k * 2 ^ s) as Hk by (rewrite <- Z.pow_add_r by lia; f_equal; lia).
    assert (0 < 2 ^ k) by lia. assert (0 < 2 ^ s) by lia.
    generalize dependent (2 ^ s). generalize dependent (2 ^ k). intros K HK0 u Hl Hu Hr HK Hu0.
    assert (u ≤ n ∧ 2 * n < 5 * u) as [Hun Hnu] by lia.
    pose proof (Z.div_mod (19 * n + 19) 20 ltac:(done)) as Hm.
    pose proof (Z.mod_pos_bound (19 * n + 19) 20 ltac:(done)) as Ht.
    set (m := (19 * n + 19) / 20) in *. set (t := (19 * n + 19) mod 20) in *.
    assert (K * (m - 1) < r ≤ K * m) as [H1 H2].
    { assert (K * u * m = 2 ^ 52 * m) by (by rewrite HK). assert (K * u * (m - 1) = 2 ^ 52 * (m - 1)) by (by rewrite HK).
      destruct (decide (t = 19)) as [Heq|Hne].
      - assert (- u < r * u - K * u * m < u) by lia.
        assert (-1 < r - K * m) by (apply (Z.mul_lt_mono_pos_r u); lia).
        assert (r - K * m < 1) by (apply (Z.mul_lt_mono_pos_r u); lia). lia.
      - split; apply (Z.mul_lt_mono_pos_r u) || apply (Z.mul_le_mono_pos_r _ _ u); lia. }
    symmetry. apply Z.opp_inj. rewrite Z.opp_involutive. apply (Z.div_unique_pos _ _ _ (K * m - r)); lia.
Qed.

Lemma ceil_050 n : 0 < n ≤ 2 ^ 40 → f64_ceil (f64_mul (f64_of_int n) f64_050) = (n + 1) / 2.
Proof.
  intros Hn. rewrite f64_of_int_exact by lia. unfold f64_mul, f64_050. cbn [f_man f_exp]. rewrite Z.mul_1_r.
  rewrite round64_exact by lia. unfold f64_ceil. cbn [f_man f_exp].
  change (- (- n / 2) = (n + 1) / 2). Z.to_euclidean_division_equations; lia.
Qed.

(** How many samples are at most, and how many below, the one at an index. *)
Abbreviation at_most d l := (Z.of_nat (length (filter (λ x : Z, x ≤ d) l))).
Abbreviation below d l := (Z.of_nat (length (filter (λ x : Z, x < d) l))).

Lemma filter_length_all {A} (P : A → Prop) `{!∀ x, Decision (P x)} (l : list A) : Forall P l → length (filter P l) = length l.
Proof. induction 1; [done|]. rewrite filter_cons_True by done. simpl. lia. Qed.

Lemma filter_length_none {A} (P : A → Prop) `{!∀ x, Decision (P x)} (l : list A) : Forall (λ x, ¬ P x) l → length (filter P l) = 0%nat.
Proof. induction 1; [done|]. by rewrite filter_cons_False. Qed.

Lemma filter_length_mono {A} (P Q : A → Prop) `{!∀ x, Decision (P x), !∀ x, Decision (Q x)} (l : list A) :
  (∀ x, P x → Q x) → (length (filter P l) ≤ length (filter Q l))%nat.
Proof. intros HPQ. induction l as [|x l IH]; [done|]. rewrite !filter_cons. repeat case_decide; simpl; naive_solver lia. Qed.

Lemma sorted_rank (l : list Z) i d : StronglySorted Z.le l → l !! i = Some d →
  Z.of_nat i < at_most d l ∧ below d l ≤ Z.of_nat i.
Proof.
  intros Hs Hi. pose proof (lookup_lt_Some _ _ _ Hi) as Hlt. rewrite <- (take_drop_middle l i d Hi) in Hs |- *.
  apply StronglySorted_app in Hs as (Hcross & _ & Hs). inversion Hs as [|?? _ Hge]; subst.
  rewrite !filter_app, !length_app, !filter_cons, decide_True, decide_False by lia. cbn [length].
  rewrite (filter_length_all (λ x, x ≤ d) (take i l)), (filter_length_none (λ x, x < d) (drop (S i) l)), length_take.
  - pose proof (length_filter (λ x, x < d) (take i l)) as Hf. rewrite length_take in Hf. lia.
  - eapply Forall_impl; [exact Hge|]. simpl. lia.
  - apply Forall_forall. intros x Hx. apply Hcross; [done|by left].
Qed.

(** The 95th percentile is the nearest rank.  For every number of samples up to
    2^40, the index that [percentile] computes by rounding the product with the
    [float64] nearest to 0.95 is in range and picks a sample such that at least
    95 percent of the samples are at most it and fewer than 95 percent are below
    it; for 0.50 the same holds of one half. *)
Theorem percentile_nearest_rank (durations : list Z) :
  StronglySorted Z.le durations → 0 < Z.of_nat (length durations) ≤ 2 ^ 40 →
  ∃ p50 p95, percentile durations f64_050 = Ok p50 ∧ percentile durations f64_095 = Ok p95 ∧
    p50 ∈ durations ∧ p95 ∈ durations ∧ p50 ≤ p95 ∧
    2 * below p50 durations < Z.of_nat (length durations) ≤ 2 * at_most p50 durations ∧
    20 * below p95 durations < 19 * Z.of_nat (length durations) ≤ 20 * at_most p95 durations.
Proof.
  intros Hs Hn. unfold percentile. rewrite ceil_050, ceil_095 by done. set (n := Z.of_nat (length durations)) in *.
  destruct (n =? 0) eqn:E; zbool; [lia|]. clear E.
  assert (∀ k, 1 ≤ k ≤ n → (let idx := k - 1 in let idx := if idx <? 0 then 0 else idx in
    if n <=? idx then n - 1 else idx) = k - 1) as Hidx.
  { intros k Hk. simpl. destruct (k - 1 <? 0) eqn:E; zbool; [lia|]. destruct (n <=? k - 1) eqn:E2; zbool; lia. }
  simpl in Hidx. assert (1 ≤ (n + 1) / 2 ≤ n ∧ (2 * ((n + 1) / 2) = n ∨ 2 * ((n + 1) / 2) = n + 1)) as [? H2]
    by (Z.to_euclidean_division_equations; lia).
  assert (1 ≤ (19 * n + 19) / 20 ≤ n ∧ 19 * n ≤ 20 * ((19 * n + 19) / 20) < 19 * n + 20) as [? H20]
    by (Z.to_euclidean_division_equations; lia).
 rewrite !Hidx by lia.
  destruct (lookup_lt_is_Some_2 durations (Z.to_nat ((n + 1) / 2 - 1))) as [p50 H50]; [lia|].
  destruct (lookup_lt_is_Some_2 durations (Z.to_nat ((19 * n + 19) / 20 - 1))) as [p95 H95]; [lia|].
  exists p50, p95. rewrite H50, H95.
  destruct (sorted_rank _ _ _ Hs H50), (sorted_rank _ _ _ Hs H95).
  split_and!; try done; try (by eapply list_elem_of_lookup_2); try lia.
  apply Z.le_ngt. intros Hlt.
  assert (at_most p95 durations ≤ below p50 durations) by (apply inj_le, filter_length_mono; lia). lia.
Qed.

(** ** Runs of the tool *)

(** Keys are generated, identifiers are new and not empty, times can be
    printed. *)
Record draws_ok (d : draws) : Prop := {
  do_seed : ∀ i, ∃ s, dr_seed d i = Ok s ∧ len s = SeedSize;
  do_uuid : ∀ i j, dr_uuid d i = dr_uuid d j → i = j;
  do_uuid_text : ∀ i, dr_uuid d i ≠ "";
  do_now : ∀ i, is_Some (rfc3339nano (dr_now d i))
}.

Lemma demoPath_ok : ∃ path, demoPath = Ok path ∧ path_Hops path = metrics_hops ∧
  path_EvidenceClass path = EvidenceClassExplicitDemo ∧ path_ProofStatus path = ProofStatusUnverified.
Proof.
  unfold demoPath, NewMockPath, BuildSCIONPath. cbn [map_err mbind res_bind ExtractHops MockPathExtractor EvidenceMetadata].
  rewrite unmarshalHops_fine; [|repeat constructor; by vm_compute]. by eexists.
Qed.

Lemma sample_loop_ok d path i n : path_Hops path = metrics_hops →
  sample_loop d path (NewChecker corridorPolicy) i n = Ok (dr_check d <$> seq i n).
Proof.
  intros Hp. revert i. induction n as [|n IH]; intros i; [done|].
  assert (PathCheck.Check 0 0 0 path (NewChecker corridorPolicy) = (NewChecker corridorPolicy, Ok (mkCheck true [] None))) as Hc.
  { unfold PathCheck.Check. cbn [NewChecker c_policy c_replayDetector]. by rewrite Hp. }
  cbn [sample_loop]. rewrite Hc. cbn [map_err mbind res_bind negb ck_Compliant]. by rewrite IH.
Qed.

Section Runs.
Context `{!Ed25519, !Ed25519Laws}.

(** A generator as [NewGenerator] makes it and issuing leaves it. *)
Definition plain (g : Generator) : Prop :=
  keys_ok g ∧ g_threshold g = None ∧ (g_proofs g = None ∨ g_proofs g = Some PlaceholderProofProvider).

Lemma NewGenerator_plain seed : len seed = SeedSize → ∃ g, NewGenerator (Ok seed) = Ok g ∧ plain g ∧ g_seqNo g = 0.
Proof.
  intros Hs. eexists. split; [done|]. split; [|done]. split_and!; [split; [by apply ed_from_seed_length|done]|done|by left].
Qed.

Lemma placeholder_total hops : ∃ ps, build_proofs PlaceholderProofProvider hops = Ok ps.
Proof. induction hops as [|h hops [ps IH]]; [by exists []|]. simpl. rewrite IH. by eexists. Qed.

Lemma build_total id now txID policyID path g : plain g → is_Some (rfc3339nano now) →
  ∃ r h, buildReceiptLocked id now txID policyID path g = (default_proofs g, Ok (r, h)) ∧
    built now id txID policyID path g r h.
Proof.
  intros ([Hk _] & Ht & Hp) [ts Hts]. destruct (default_proofs_keep g) as (K1 & _ & _ & _ & K5).
  assert (∃ x, buildReceiptLocked id now txID policyID path g = (default_proofs g, Ok x)) as [[r h] Hb].
  { unfold buildReceiptLocked. assert (default PlaceholderProofProvider (g_proofs (default_proofs g)) = PlaceholderProofProvider) as ->
      by (unfold default_proofs; by destruct Hp as [E|E]; rewrite ?E; simpl; rewrite ?E).
    destruct (placeholder_total (path_Hops path)) as [ps ->]. cbn [mbind res_bind]. unfold marshalForSigning.
    cbn [r_Timestamp unsigned]. rewrite Hts. cbn [map_err mbind res_bind]. unfold ed25519_Sign. rewrite K1, Hk, Z.eqb_refl, K5, Ht.
    by eexists. }
  exists r, h. split; [done|]. by apply buildReceiptLocked_Ok in Hb as [_ ?].
Qed.

Lemma plain_issued seq h g : plain g → plain (set_chain seq h (default_proofs g)).
Proof.
  intros (Hk & Ht & Hp). destruct (default_proofs_keep g) as (K1 & K2 & _ & _ & K5). unfold plain, keys_ok in *. simpl.
  rewrite K1, K2, K5. split_and!; [tauto|tauto|done|]. unfold default_proofs. destruct Hp as [E|E]; rewrite ?E; by right.
Qed.

Abbreviation rv1h := (NewReceiptValidator 3600000000000).

Lemma chain_issue_loop_ok d policyID path i n g s l : draws_ok d → plain g →
  oracle_inv rv1h g s l → g_seqNo g = Z.of_nat i → r_ID <$> l = (λ j, dr_uuid d (3 + j)%nat) <$> seq 0 i →
  Z.of_nat (i + n) < 2 ^ 64 →
  ∃ s' g' l', chain_issue_loop d policyID path i n g s = Ok s' ∧ oracle_inv rv1h g' s' l' ∧ length l' = (i + n)%nat.
Proof.
  intros Hd. revert i g s l. induction n as [|n IH]; intros i g s l Hg Hinv Hseq Hids Hmax.
  { exists s, g, l. rewrite Nat.add_0_r, <- (length_fmap r_ID l), Hids, length_fmap, length_seq. done. }
  destruct (build_total (dr_uuid d (3 + i)%nat) (dr_now d (3 + i)%nat) ("tx-metrics-chain-" +:+ pad6 (Z.of_nat i + 1)) policyID path g Hg)
    as (r & h & Hb & Hbuilt); [by apply do_now|]. pose proof Hbuilt as [Hid _ _ _ _ _ _ _ Hs _ _ _ _].
  rewrite u64_id in Hs by (unfold is_u64; lia).
  assert (spec_append l r = (l ++ [r], Ok tt)) as Hspec.
  { apply spec_append_fresh.
    - rewrite Hids, Hid, list_elem_of_fmap. intros (j & Hj%(do_uuid d Hd) & Hin%elem_of_seq). lia.
    - rewrite list_elem_of_fmap. intros (y & Hy & Hin%(oi_below _ _ _ _ Hinv)). lia. }
  destruct (mem_Append_spec s l r (oi_rep _ _ _ _ Hinv)) as (s' & Ha & Hrep). rewrite Hspec in Ha, Hrep. cbn [fst snd] in Ha, Hrep.
  assert (IssueAndAppend NoFault (dr_uuid d (3 + i)%nat) (dr_now d (3 + i)%nat) ("tx-metrics-chain-" +:+ pad6 (Z.of_nat i + 1))
    policyID path g s = (set_chain (r_SeqNo r) (Some h) (default_proofs g), s', Ok r)) as Hi.
  { unfold IssueAndAppend. rewrite Hb. cbn [store_Append MemoryStore_Store]. by rewrite Ha. }
  pose proof (inv_issue rv1h _ _ _ _ _ _ _ _ _ _ _ _ Hinv ltac:(lia) Hi ltac:(done)) as Hinv'. cbn iota in Hinv'.
  destruct (IH (S i) _ s' (l ++ [r]) (plain_issued _ _ _ Hg) Hinv') as (s2 & g2 & l2 & Hloop & Hinv2 & Hlen); [simpl; lia| |lia|].
  { rewrite fmap_app, Hids, seq_S, fmap_app. simpl. by rewrite Hid. }
  exists s2, g2, l2. split_and!; [|done|lia]. cbn [chain_issue_loop]. rewrite Hi. exact Hloop.
Qed.

Lemma verifyChain_ok d policyID path n : draws_ok d → 0 < n < 2 ^ 64 →
  verifyChain d policyID path n = Ok (n, dr_validate d).
Proof.
  intros Hd Hn. unfold verifyChain. destruct (do_seed d Hd 1) as (s & -> & Hs).
  destruct (NewGenerator_plain s Hs) as (g & -> & Hg & Hseq). cbn [map_err mbind res_bind].
  destruct (chain_issue_loop_ok d policyID path 0 (Z.to_nat n) g NewMemoryStore [] Hd Hg) as (s' & g' & l & -> & Hinv & Hlen);
    [|by rewrite Hseq|done|lia|].
  { destruct Hg as (Hk & Ht & _). split; try done; try (by intros r []%not_elem_of_nil).
    - apply NewMemoryStore_rep.
    - constructor.
    - rewrite Hseq. lia.
    - rewrite Ht. by intros ? ? ? ?. }
  destruct Hinv as [[Hl _ _ _ _ _] _ _ _ _ _ _ _ Hauth Hlinked _]. unfold mem_List. cbn [map_err mbind res_bind]. rewrite Hl.
  assert (ValidateReceiptChain rv1h l = Ok tt) as ->.
  { apply ValidateReceiptChain_Ok. split_and!; [|done|done]. intros ->. simpl in Hlen. lia. }
  simpl. by rewrite Hlen, Nat.add_0_l, Z2Nat.id by lia.
Qed.

Lemma signedReceiptSize_ok d policyID path : draws_ok d → ∃ n, signedReceiptSize d policyID path = Ok n.
Proof.
  intros Hd. unfold signedReceiptSize. destruct (do_seed d Hd 0) as (s & -> & Hs).
  destruct (NewGenerator_plain s Hs) as (g & -> & Hg & _). cbn [map_err mbind res_bind]. unfold Issue.
  destruct (build_total (dr_uuid d 0) (dr_now d 0) "tx-metrics-size" policyID path g Hg (do_now d Hd 0)) as (r & h & -> & Hb).
  cbn [snd map_err mbind res_bind]. unfold marshal_at. rewrite (b_time _ _ _ _ _ _ _ _ Hb).
  destruct (do_now d Hd 0) as [ts ->]. by eexists.
Qed.

(** A proof that cannot be built stops the issuing of a receipt for a path with
    hops. *)
Lemma missing_proof_closed d policyID path : draws_ok d → path_Hops path ≠ [] →
  measureMissingProofFailure d policyID path = Ok "fail-closed".
Proof.
  intros Hd Hp. unfold measureMissingProofFailure. destruct (do_seed d Hd 2) as (s & -> & Hs).
  destruct (NewGenerator_plain s Hs) as (g & -> & _). unfold Issue, buildReceiptLocked. by destruct (path_Hops path).
Qed.

Lemma store_failure_closed d policyID path : draws_ok d → measureReceiptStoreFailure d policyID path = Ok "fail-closed".
Proof.
  intros Hd. unfold measureReceiptStoreFailure. destruct (do_seed d Hd 3) as (s & -> & Hs).
  destruct (NewGenerator_plain s Hs) as (g & -> & Hg & _). unfold IssueAndAppend.
  destruct (build_total (dr_uuid d 2) (dr_now d 2) "tx-metrics-store-fail" policyID path g Hg (do_now d Hd 2)) as (r & h & -> & Hb).
  cbn [store_Append failingStore_Store snd]. rewrite bool_decide_false; [done|].
  rewrite (b_id _ _ _ _ _ _ _ _ Hb). by apply do_uuid_text.
Qed.

(** The measurement tool completes and reports that issuing fails closed.
    With positive flags, keys generated and fresh identifiers, [main] produces its
    metrics: the demo path passes every check, all receipts of the chain are issued
    and the whole chain validates, a failing proof provider and a failing store
    are both reported as fail-closed, and the two percentiles are nearest ranks
    of the measured times.  Without positive flags it stops with an error. *)
Theorem metrics_report_fail_closed (d : draws) (samples chainLength : Z) :
  draws_ok d → samples ≤ 2 ^ 40 → chainLength < 2 ^ 64 →
  if (samples <=? 0) || (chainLength <=? 0) then is_ok (metrics_main d samples chainLength) = false
  else let ds := dr_check d <$> seq 0 (Z.to_nat samples) in
    ∃ m, metrics_main d samples chainLength = Ok m ∧
    mt_MissingProofFailure m = "fail-closed" ∧ mt_ReceiptStoreFailure m = "fail-closed" ∧
    mt_ChainVerifyReceiptCount m = chainLength ∧
    mt_EvidenceClass m = EvidenceClassExplicitDemo ∧ mt_ProofStatus m = ProofStatusUnverified ∧
    mt_PathCheckP50Ns m ≤ mt_PathCheckP95Ns m ∧
    2 * below (mt_PathCheckP50Ns m) ds < samples ≤ 2 * at_most (mt_PathCheckP50Ns m) ds ∧
    20 * below (mt_PathCheckP95Ns m) ds < 19 * samples ≤ 20 * at_most (mt_PathCheckP95Ns m) ds.
Proof.
  intros Hd Hs Hc. unfold metrics_main. destruct (samples <=? 0) eqn:E1; [done|]. destruct (chainLength <=? 0) eqn:E2; [done|]. zbool.
  cbn [orb]. unfold collect. destruct demoPath_ok as (path & -> & Hp & Hev & Hst). cbn [mbind res_bind].
  rewrite (sample_loop_ok d path 0 (Z.to_nat samples) Hp). cbn [mbind res_bind]. set (ds := dr_check d <$> _). cbv zeta.
  destruct (signedReceiptSize_ok d (pol_ID corridorPolicy) path Hd) as [size ->]. cbn [mbind res_bind].
  rewrite verifyChain_ok, missing_proof_closed, store_failure_closed by (done || lia || by rewrite Hp). cbn [mbind res_bind].
  assert (length (merge_sort Z.le ds) = Z.to_nat samples) as Hlen2 by (by rewrite merge_sort_Permutation; unfold ds; rewrite length_fmap, length_seq).
  destruct (percentile_nearest_rank (merge_sort Z.le ds)) as (p50 & p95 & -> & -> & _ & _ & H1 & H2 & H3);
    [apply (StronglySorted_merge_sort _)|lia|]. cbn [map_err mbind res_bind]. rewrite Hlen2, Z2Nat.id in H2, H3 by lia.
  rewrite !merge_sort_Permutation in H2, H3. by eexists.
Qed.
End Runs.

(** A run with the concrete keys of the model. *)
Module DemoMetrics.
Import Toy.

Definition demo_draws : draws :=
  mkDraws (λ _, Ok "0123456789abcdef0123456789abcdef") (λ i, "receipt-" +:+ pretty (Z.of_nat i))
    (λ i, 1700000000000000000) (λ i, Z.of_nat (7 - i)) 5 (λ _, "").

Lemma demo_draws_ok : draws_ok demo_draws.
Proof.
  split; simpl.
  - intros _. by eexists.
  - intros i j Heq. by simplify_eq.
  - done.
  - intros _. vm_compute. eauto.
Qed.

Example metrics_prints :
  (metrics_output demo_draws 3 2 false).2 = 0 ∧ length (metrics_output demo_draws 3 2 false).1 = 10%nat ∧
  last (metrics_output demo_draws 3 2 false).1 = Some "  receipt_store:      fail-closed" ∧
  metrics_output demo_draws 0 2 true = ([], 1).
Proof. vm_compute. split_and!; reflexivity. Qed.

Lemma metrics_report_fail_closed_witness : let ds := [7; 6; 5] in ∃ m, metrics_main demo_draws 3 2 = Ok m ∧
  mt_MissingProofFailure m = "fail-closed" ∧ mt_ReceiptStoreFailure m = "fail-closed" ∧
  mt_ChainVerifyReceiptCount m = 2 ∧
  mt_EvidenceClass m = EvidenceClassExplicitDemo ∧ mt_ProofStatus m = ProofStatusUnverified ∧
  mt_PathCheckP50Ns m ≤ mt_PathCheckP95Ns m ∧
  2 * below (mt_PathCheckP50Ns m) ds < 3 ≤ 2 * at_most (mt_PathCheckP50Ns m) ds ∧
  20 * below (mt_PathCheckP95Ns m) ds < 19 * 3 ≤ 20 * at_most (mt_PathCheckP95Ns m) ds.
Proof. apply (metrics_report_fail_closed demo_draws 3 2 demo_draws_ok); done. Defined.
End DemoMetrics.
